(* ===== verification/_CoqProject ===== *)
-Q . S2P
Prelude.v
Bytes.v
Frame.v
Swap.v
AuditRing.v
Ipc.v
Block.v
Cache.v
BadBlocks.v
Crash.v
Checksum.v
Fs.v
Utf8.v
Path.v
Vfs.v
RamDisk.v
BTree.v
Superblock.v
Layout.v
Typed.v
EuroFs.v
Alloc.v
Cow.v
Objects.v
Rebuild.v
Commit.v
Tables.v
Safety.v
Ops.v
Mount.v
Format.v
Integrity.v
Recovery.v
Bits.v
Inflate.v
Deflate.v
FlateRoundtrip.v
Firewall.v
Update.v
Slots.v
Boot.v
Channel.v
Bpf.v
Net.v
TcpOpen.v
Unix.v
Spin.v
Lock.v
LockOrder.v
ReadMostly.v
Drv.v
DrvProto.v
Pkg.v
Sandbox.v
Profiles.v
