(* ===== verification/Prelude.v ===== *)
(** EuroOS: a verification of the storage, memory, boot, compression, IPC,
    locking, isolation, driver and packet layers of the operating system.

    * The program

    EuroOS is an operating system in Rust: a kernel ([src/kernel]), a UEFI
    loader ([src/loader]) and about ninety crates ([src/crates]) that hold the
    logic of the system without hardware access.  This library models the crates
    and kernel modules a machine depends on to start, to keep its data and to
    stay isolated, and proves what they promise each other:

    - [eurofs] stores files on a [BlockDevice]; a [BlockCache] or a bad-block
      table may sit in front of the device; the VFS routes paths to mounted file
      systems, [EuroFs] and [RamDisk] among them;
    - [euromm] hands out physical frames and swap slots;
    - [euroipc] carries messages between processes and keeps an audit ring;
    - the loader and the kernel's updater share a slot configuration
      ([euroupdate]) and two slot partitions on the boot disk;
    - [euroflate] compresses, [eurofw] filters packets, [eurosandbox] confines
      processes: system call filters and profiles, containers, resource limits;
    - [eurolock] gives the kernel its locks, with a rank for every class and hooks
      that check the order; [ReadMostly] tables are replicated over the CPUs;
    - [eurodrv] grants devices, interrupt vectors and restarts to user-space
      drivers and defines the messages they exchange with the kernel;
    - [europkg] resolves the dependencies of packages;
    - [euronet] builds and parses packets, opens TCP connections and carries the
      local sockets between processes.

    * Conventions

    Machine integers are [Z]; where the code's arithmetic can overflow, the
    model wraps or panics as the code does ([add64], [sub64], [u32], explicit
    bounds).  A fallible call returns an [outcome]: [Ok], [Err], [Panic] (index
    out of range, checked arithmetic, [assert]) or [OutOfFuel], which the
    theorems exclude.  Stateful code is in the state monad [ST].  Bytes and
    strings are [list Z].  Definitions keep the names of the sources and are
    executable.

    * Files

    Generic: [Prelude] (this file: outcomes, the state monad, vectors indexed by
    [Z], tactics [ulia], [case_if], [simplify_bool], the hint database [euro]),
    [Bytes] (little- and big-endian fields), [BTree] ([BTreeMap]), [Utf8] (UTF-8
    and string literals), [Spin] (what the [spin] crate promises, as a class with
    laws, and the accounting of its holders).

    Memory: [Frame] ([euromm/src/frame.rs]), [Swap] ([euromm/src/swap.rs]).

    IPC: [AuditRing], [Ipc] ([euroipc/src/lib.rs]).  Calls
    are split at their lock acquisitions and atomic accesses and interleave.

    Block layer: [Block] (the trait as a class, its laws [LawfulDevice], the
    memory device and the fault-injecting device), [Crash] (which images a power
    failure can leave), [Cache] ([eurofs/src/cache.rs]), [BadBlocks].

    File system engine ([eurofs/src/disk.rs], [superblock.rs], [fs.rs],
    [path.rs], [checksum.rs]): [Checksum] (XXH3 as a parameter), [Fs], [Path],
    [Superblock], [Layout] (formats), [EuroFs] (the executable model of every
    operation), then the proofs: [Typed] (widths), [Alloc] (allocators), [Cow]
    (the copy-on-write invariant and safe computations), [Objects], [Rebuild],
    [Commit], [Tables], [Safety], [Ops] (every operation), [Mount], [Format],
    [Integrity] (scrub), [Recovery] (the life of a volume).

    Above it: [Vfs] ([vfs.rs], [shared.rs]), [RamDisk] ([ramdisk.rs]).

    Compression: [Bits], [Inflate], [Deflate], [FlateRoundtrip].

    Boot and update: [Update] ([euroupdate/src/lib.rs]), [Slots]
    ([kernel/src/gpt.rs], the slot images of [kernel/src/update.rs] and of
    [loader/src/main.rs]), [Boot] (the loader's [main], the updater, and their
    interplay on one machine), [Channel] (signed channel manifests, the
    anti-rollback watermark, the policy and the background job of the updater).

    Isolation and network: [Firewall] ([eurofw], [kernel/src/firewall.rs]), [Bpf]
    ([eurosandbox/src/bpf.rs]), [Net] ([euronet]: checksum, Ethernet, ARP, IPv4,
    ICMP, UDP, TCP segments), [TcpOpen] ([tcpopen.rs], [ratelimit.rs],
    [tcpcc.rs]: ports, half-open connections, token bucket, timeouts, windows),
    [Unix] ([unix.rs] and [unix/shared.rs]: local sockets, sequential and with a
    lock per connection, whose lock sections interleave).

    Confinement: [Sandbox] ([eurosandbox/src/lib.rs], [overlay.rs], [limits.rs],
    [rlimits.rs]: containers, their overlay and ceilings, process limits),
    [Profiles] ([eurosandbox/src/syscalls.rs] and, of [kernel/src/ring3.rs],
    [user_cstr], the profile byte of a task and the gate of
    [linux_dispatch_inner_raw] down to its [match num]: path scope, app policy,
    filters, profile, capabilities).

    Locks: [Lock] ([eurolock/src/lib.rs], [sync.rs], [kernel/src/klock.rs]: classes
    and ranks, the tracker, the hooks, and every lock operation as steps of a
    context), [LockOrder] (exclusion, freedom from deadlock, the interrupt rule),
    [ReadMostly] (replicated tables).

    Drivers and packages: [Drv] ([eurodrv/src/grant.rs], [vectors.rs],
    [restart.rs]), [DrvProto] ([proto.rs], [abi.rs]), [Pkg] ([europkg/src/lib.rs]).

    * What the theorems show

    Crash consistency ([Recovery], [Superblock]): a formatted volume always
    mounts again, whatever operations ran and wherever the power failed; an
    interrupted operation that commits once leaves the tree after it or the one a
    failure just before would have left, which on a synchronised volume is the
    tree before; a completed one is durable; commit and format are exact on
    success and on error; the A/B superblock protocol and its self-healing never
    lose the superblock in force.  Writes in flight are lost, reordered or torn.
    The power model names the blocks that are written whole ([Cow.WholeBlocks]):
    none, except the snapshot table while a snapshot is created or deleted, which
    is written in place without a checksum ([Recovery.torn_snapshot_table]).

    Refinements: the frame allocator implements a set of free frames, the cache
    the bare device, the VFS an unordered mount table, the shared VFS the owned
    one, clock eviction the second-chance queue, an IPC call run alone its
    sequential definition, the table of half-open connections a bounded map, the
    fine-grained local sockets the single-lock ones.

    Boot ([Boot], [Slots], [Update]): an update cannot brick the machine (unless the
    user rolls back to an image that does not work, or the power fails while an
    update overwrites a slot just rolled back to), only signed images start, the updater and the loader agree on the slot images, the
    configuration block detects any corrupted byte; whatever order of commands,
    hooks and transfer slices, what is staged is authentic ([Channel]).

    Round trips: superblocks, inodes, directories, object map, quota and snapshot
    tables, bad-block tables, slot configurations, DEFLATE and zlib, packets.

    Safety and bounds: two live grants never overlap, IPC queues keep order and
    bounds and restricted ports their sender, audit records are never torn, the
    ramdisk never exceeds its size, decompression returns on every input, system
    call filters are type-sound and terminate, the firewall applies the first
    matching rule, the rate limiter bounds the events of any window, local sockets
    deliver every byte once and in order under any interleaving.

    Locks: exclusive holders are alone in every interleaving; from a moment without
    held locks on, as long as no further inversion is counted, at most 16 tracked
    locks are nested and no context waits while it holds a [Plain] lock, every
    stuck context waits for one that is not; interrupts are off while
    an [Irq] lock is held; a replicated table is linearizable and its calls can
    always finish.

    Confinement: a renderer's call reaches its handler exactly when no policy or
    filter answers it and its profile, its file scope (for the calls whose path is
    checked) and its capabilities allow it; a container whose name is a directory
    name cannot leave its root or reach another's; a device grant
    reaches only its own windows; an interrupt vector has one owner; restarts follow
    the policy below and above its limit; the driver protocol is a bijection between messages and their
    encodings; package resolution returns an order that satisfies the index or an
    error it justifies.  Lemmas cover the overlay ([Sandbox.overlay_union]), the
    ceilings ([Sandbox.resource_ceilings]) and process limits
    ([Sandbox.rlimits_shrink]), paths ([Path.path_components]), the block
    allocators ([Alloc.allocators_first_fit]), mounts ([Vfs.mount_isolated]), and
    the superblock and slot configuration round trips.

    Lemmas that show a limit of the code carry its description
    ([Boot.second_trial_boot_rejected], [Boot.rollback_to_untested_image],
    [Channel.job_stages_below_watermark], [Unix.unbind_orphans_clients],
    [Unix.closed_end_still_sends], [Unix.stale_send_breaks_the_pipe],
    [Bpf.jump_to_end_loads], [Bpf.unknown_action_hides_kill],
    [Cache.concurrent_writers_diverge], [AuditRing.lapped_writer_tears],
    [RamDisk.failed_write_charges], [FlateRoundtrip.gzip_isize_unchecked],
    [Profiles.long_path_escapes], [Profiles.unscoped_calls],
    [LockOrder.out_of_order_drop], [LockOrder.deep_inversion_missed],
    [LockOrder.plain_locks_deadlock], [Restart.never_gives_up],
    [Restart.restart_at_limit], [Pkg.greedy_conflict],
    [Container.slash_name_aliases], [Container.dotdot_name_escapes],
    [Overlay.deleted_alias], [Frame.huge_alignment_panics],
    [Frame.unaligned_region_leaks], [Profiles.readlink_exempt_by_buffer],
    [Recovery.torn_snapshot_table]).

    These notions are defined independently of the code that computes them: the
    mountpoint of a path ([Vfs.locate]), the order of versions and what satisfies a
    requirement ([Pkg.vle], [Pkg.sat]), how strict an answer of a filter is
    ([Bpf.strictness]), windows without a common byte ([Grant.apart]), and the
    bytes of regions and frames ([Frame.in_region], [Frame.in_frame]).

    * Bounds and fuel

    Loops that are not structural take fuel computed from the data, and the
    theorems show it is enough: the allocator searches take the number of frames
    or blocks, path resolution the hop limit of the code (symbolic links) and the
    number of components, parent walks the number of objects, the clock twice the
    ring, Huffman decoding the number of code lengths, inflation the number of
    bits, a filter its number of instructions, the carry loop of the checksum
    three rounds, the timer loop its number of entries, a local socket call four
    lock sections, package resolution one more than the number of packages (a
    longer chain repeats a name and is a cycle).  Compression round trips are stated up to the 64 MiB the
    decompressor accepts, packets up to the 64 KiB of an IPv4 packet, local sockets
    up to the 2^32 connections their identifiers can number.

    * Parameters

    XXH3 ([Checksum.Xxh3]), SHA-256 and Ed25519 ([Slots.Crypto]: a 32-byte digest
    and a verification predicate, nothing about their strength), which buffers
    the heap can provide ([EuroFs.Heap]), the firmware's disks and files, the
    bytes an HTTPS transfer delivers, random draws, the clock, the words of the spin
    crate ([Spin.SpinLock]), the user memory a system call names, and for the gate
    the answers of the app policy and of the filters, the capabilities of the task
    and the paths of its descriptors ([Profiles.World]).  Each is
    instantiated in the witnesses.

    * Not modelled

    The scheduler, paging, interrupt handlers, the handlers of the Ring-3 system
    calls and the device drivers of [src/kernel] work on registers, page tables and raw memory and need a
    machine model of their own.  The foreign file systems, the cryptographic
    crates, TLS, the browser, interpreters, the desktop and the applications are
    separate programs over the layers modelled here.  Of the modelled crates the
    text output, debug getters and boot self-tests are left out; of the updater
    the HTTPS transfer itself; of [euronet] the connection state in
    [src/kernel/src/net.rs] and the IPv6, DHCP and DNS modules; of [eurolock] the
    contention counters and hold times; of [europkg] the store and its archive
    reader; of [eurosandbox] the signed image manifest. *)

From Stdlib Require Export ZArith Lia.
From stdpp Require Export base numbers option list.

#[global] Open Scope Z_scope.

(** ** Machine widths *)

Definition U8_MAX : Z := 255.
Definition U32_MAX : Z := 4294967295.
Definition U64_MAX : Z := 18446744073709551615.

Definition is_u8 (v : Z) : Prop := 0 <= v <= U8_MAX.
Definition is_u16 (v : Z) : Prop := 0 <= v <= 65535.
Definition is_u32 (v : Z) : Prop := 0 <= v <= U32_MAX.
Definition is_u64 (v : Z) : Prop := 0 <= v <= U64_MAX.

(** ** Outcomes of Rust code

    [Ok]/[Err] are the two constructors of [Result]; [Panic] is a panic of the
    code (slice index out of range, failed [assert!], arithmetic overflow in an
    overflow-checked build); [OutOfFuel] is the bound of a modelled loop being
    exhausted, which the termination theorems exclude. *)
Inductive outcome (E A : Type) : Type :=
| Ok (a : A)
| Err (e : E)
| Panic
| OutOfFuel.
Arguments Ok {E A} a.
Arguments Err {E A} e.
Arguments Panic {E A}.
Arguments OutOfFuel {E A}.

Definition obind {E A B} (m : outcome E A) (k : A -> outcome E B) : outcome E B :=
  match m with
  | Ok a => k a
  | Err e => Err e
  | Panic => Panic
  | OutOfFuel => OutOfFuel
  end.

Definition omap_err {E E' A} (f : E -> E') (m : outcome E A) : outcome E' A :=
  match m with
  | Ok a => Ok a
  | Err e => Err (f e)
  | Panic => Panic
  | OutOfFuel => OutOfFuel
  end.

Definition is_ok {E A} (m : outcome E A) : bool :=
  match m with Ok _ => true | _ => false end.

(** The computation returned to its caller: neither a panic nor a loop that
    outran its bound. *)
Definition returns {E A} (m : outcome E A) : Prop :=
  m <> Panic /\ m <> OutOfFuel.

#[global] Instance outcome_eq_dec {E A} `{EqDecision E, EqDecision A} :
  EqDecision (outcome E A).
Proof. solve_decision. Defined.

Declare Scope euro_scope.
Delimit Scope euro_scope with euro.
Notation "'let?' x ':=' m 'in' k" := (obind m (fun x => k))
  (at level 10, x pattern, m at level 100, k at level 200)
  : euro_scope.
#[global] Open Scope euro_scope.

(** ** Stateful code

    A method taking [&mut self] is a state passing function; an early return
    with [?] keeps the state changes made so far, as in Rust. *)
Definition ST (S E A : Type) : Type := S -> outcome E A * S.

Definition sret {S E A} (a : A) : ST S E A := fun s => (Ok a, s).
Definition sthrow {S E A} (e : E) : ST S E A := fun s => (Err e, s).
Definition sbind {S E A B} (m : ST S E A) (k : A -> ST S E B) : ST S E B :=
  fun s =>
    match m s with
    | (Ok a, s') => k a s'
    | (Err e, s') => (Err e, s')
    | (Panic, s') => (Panic, s')
    | (OutOfFuel, s') => (OutOfFuel, s')
    end.
(** A [&self] computation. *)
Definition sgets {S E A} (f : S -> outcome E A) : ST S E A := fun s => (f s, s).
(** Reading a field. *)
Definition sget {S E A} (f : S -> A) : ST S E A := fun s => (Ok (f s), s).
Definition smodify {S E} (f : S -> S) : ST S E unit := fun s => (Ok tt, f s).
Definition slift {S E A} (o : outcome E A) : ST S E A := fun s => (o, s).
(** [let _ = m;]: errors are dropped, a panic is not. *)
Definition signore {S E A} (m : ST S E A) : ST S E unit :=
  fun s =>
    match m s with
    | (Ok _, s') | (Err _, s') => (Ok tt, s')
    | (Panic, s') => (Panic, s')
    | (OutOfFuel, s') => (OutOfFuel, s')
    end.

Notation "'let!' x ':=' m 'in' k" := (sbind m (fun x => k))
  (at level 10, x pattern, m at level 100, k at level 200)
  : euro_scope.
Notation "m ';;!' k" := (sbind m (fun _ => k))
  (at level 100, k at level 200, right associativity) : euro_scope.

(** [for x in l { body }] *)
Fixpoint sfor {S E A} (l : list A) (body : A -> ST S E unit) : ST S E unit :=
  match l with
  | [] => sret tt
  | x :: l' => sbind (body x) (fun _ => sfor l' body)
  end.

(** Addition on [u64]/[usize] in an overflow-checked build. *)
Definition add64 {E} (a b : Z) : outcome E Z :=
  if a + b <=? U64_MAX then Ok (a + b) else Panic.

(** Multiplication on [u64]/[usize], likewise. *)
Definition mul64 {E} (a b : Z) : outcome E Z :=
  if a * b <=? U64_MAX then Ok (a * b) else Panic.

Definition saturating_add64 (a b : Z) : Z := Z.min U64_MAX (a + b).
Definition saturating_sub (a b : Z) : Z := Z.max 0 (a - b).
Definition div_ceil (a b : Z) : Z := (a + b - 1) / b.

(** ** Vectors indexed by [usize] *)

Definition zlen {A} (l : list A) : Z := Z.of_nat (length l).

(** [v[i]] where the code has already established [i < v.len()]. *)
Definition at_ {A} (d : A) (l : list A) (i : Z) : A := nth (Z.to_nat i) l d.

(** [v[i] = x] where the code has already established [i < v.len()]. *)
Definition upd {A} (l : list A) (i : Z) (x : A) : list A := <[Z.to_nat i := x]> l.

(** [&v[o..o + n]]. *)
Definition slice {A} (l : list A) (o n : Z) : list A :=
  take (Z.to_nat n) (drop (Z.to_nat o) l).

(** [v[o..o + s.len()].copy_from_slice(s)]. *)
Definition splice {A} (l : list A) (o : Z) (s : list A) : list A :=
  take (Z.to_nat o) l ++ s ++ drop (Z.to_nat o + length s) l.

Definition zrepeat {A} (x : A) (n : Z) : list A := replicate (Z.to_nat n) x.

(** [a..b] *)
Definition zrange (a b : Z) : list Z := seqZ a (b - a).

Arguments at_ : simpl never.
Arguments upd : simpl never.
Arguments slice : simpl never.
Arguments splice : simpl never.
Arguments zrepeat : simpl never.
Arguments zlen : simpl never.
Arguments zrange : simpl never.

(** Conversion unfolds the vector operations last. *)
Strategy 1000 [slice splice zrepeat at_ upd].

(** ** Automation *)

Create HintDb euro.
Create Rewrite HintDb zlen.

(** [lia] with the machine-width predicates opened. *)
Ltac ulia :=
  unfold is_u64, is_u32, is_u16, is_u8, U64_MAX, U32_MAX, U8_MAX in *; lia.

(** [Forall] over a literal list of numbers or records. *)
Ltac forall_lia :=
  repeat match goal with
  | |- Forall _ (_ :: _) => apply Forall_cons_2
  | |- Forall _ [] => apply Forall_nil_2
  | |- _ /\ _ => split
  end; cbn; try ulia.

Ltac simplify_bool :=
  repeat match goal with
  | H : (_ && _)%bool = true |- _ => apply andb_true_iff in H; destruct H
  | H : (_ || _)%bool = false |- _ => apply orb_false_iff in H; destruct H
  | H : negb _ = true |- _ => apply negb_true_iff in H
  | H : negb _ = false |- _ => apply negb_false_iff in H
  | H : (_ =? _) = true |- _ => apply Z.eqb_eq in H
  | H : (_ =? _) = false |- _ => apply Z.eqb_neq in H
  | H : (_ <=? _) = true |- _ => apply Z.leb_le in H
  | H : (_ <=? _) = false |- _ => apply Z.leb_gt in H
  | H : (_ <? _) = true |- _ => apply Z.ltb_lt in H
  | H : (_ <? _) = false |- _ => apply Z.ltb_ge in H
  | H : bool_decide _ = true |- _ => apply bool_decide_eq_true in H
  | H : bool_decide _ = false |- _ => apply bool_decide_eq_false in H
  end.

(** Case analysis on the scrutinee of the first [match]/[if] of the goal. *)
Ltac case_if :=
  match goal with
  | |- context [if ?b then _ else _] => destruct b eqn:?; simplify_bool
  end.

Ltac case_in H :=
  match type of H with
  | context [match ?b with _ => _ end] => destruct b eqn:?; simplify_bool
  end.

(** ** Running stateful code *)

Section running.
Context {S E A B : Type}.
Implicit Types (m : ST S E A) (k : A -> ST S E B) (s : S).

Lemma sbind_ok m k s a s' : m s = (Ok a, s') -> sbind m k s = k a s'.
Proof. intros Hm. unfold sbind. by rewrite Hm. Qed.

Lemma sbind_run m k s r s' :
  m s = (r, s') ->
  sbind m k s =
    match r with
    | Ok a => k a s'
    | Err e => (Err e, s')
    | Panic => (Panic, s')
    | OutOfFuel => (OutOfFuel, s')
    end.
Proof. intros Hm. unfold sbind. rewrite Hm. by destruct r. Qed.

Lemma sbind_gets (f : S -> outcome E A) k s a : f s = Ok a -> sbind (sgets f) k s = k a s.
Proof. intros Hf. unfold sbind, sgets. by rewrite Hf. Qed.

Lemma sbind_assoc {C} m k (h : B -> ST S E C) s :
  sbind (sbind m k) h s = sbind m (fun a => sbind (k a) h) s.
Proof. unfold sbind. by destruct (m s) as [[] ?]. Qed.
End running.

(** ** Z-indexed vector lemmas *)

Section vec.
Context {A : Type}.
Implicit Types (l s : list A) (d x : A) (i o n : Z).

Lemma zlen_nonneg l : 0 <= zlen l.
Proof. unfold zlen. lia. Qed.

Lemma zlen_nil : zlen ([] : list A) = 0.
Proof. done. Qed.

Lemma zlen_cons x l : zlen (x :: l) = 1 + zlen l.
Proof. unfold zlen. cbn [length]. lia. Qed.

Lemma zlen_app l s : zlen (l ++ s) = zlen l + zlen s.
Proof. unfold zlen. rewrite length_app. lia. Qed.

Lemma zlen_upd l i x : zlen (upd l i x) = zlen l.
Proof. unfold zlen, upd. by rewrite length_insert. Qed.

Lemma zlen_zrepeat x n : 0 <= n -> zlen (zrepeat x n) = n.
Proof. intros. unfold zlen, zrepeat. rewrite length_replicate. lia. Qed.

Lemma zlen_slice l o n :
  0 <= o -> 0 <= n -> o + n <= zlen l -> zlen (slice l o n) = n.
Proof.
  intros. unfold zlen, slice in *. rewrite length_take, length_drop. lia.
Qed.

Lemma zlen_slice_le l o n : 0 <= n -> zlen (slice l o n) <= n.
Proof. intros. unfold zlen, slice. rewrite length_take. lia. Qed.

Lemma zlen_splice l o s :
  0 <= o -> o + zlen s <= zlen l -> zlen (splice l o s) = zlen l.
Proof.
  intros. unfold zlen, splice in *.
  rewrite !length_app, length_take, length_drop. lia.
Qed.

Lemma at_upd_eq d l i x : 0 <= i < zlen l -> at_ d (upd l i x) i = x.
Proof.
  intros. unfold at_, upd, zlen in *. apply nth_lookup_Some.
  apply list_lookup_insert_eq. lia.
Qed.

Lemma at_upd_ne d l i j x : 0 <= i -> 0 <= j -> i <> j -> at_ d (upd l i x) j = at_ d l j.
Proof.
  intros. unfold at_, upd. rewrite !nth_lookup.
  by rewrite list_lookup_insert_ne by lia.
Qed.

Lemma at_zrepeat d x n i : 0 <= i < n -> at_ d (zrepeat x n) i = x.
Proof.
  intros. unfold at_, zrepeat. apply nth_lookup_Some, lookup_replicate_2. lia.
Qed.

Lemma at_default d l i : zlen l <= i -> at_ d l i = d.
Proof. intros. unfold at_, zlen in *. apply nth_overflow. lia. Qed.

Lemma at_lookup d l i x : l !! Z.to_nat i = Some x -> at_ d l i = x.
Proof. apply nth_lookup_Some. Qed.

Lemma lookup_at d l i : 0 <= i < zlen l -> l !! Z.to_nat i = Some (at_ d l i).
Proof.
  intros. unfold at_, zlen in *.
  destruct (lookup_lt_is_Some_2 l (Z.to_nat i)) as [x Hx]; [lia|].
  by rewrite (nth_lookup_Some _ _ d x Hx).
Qed.

Lemma list_eq_at d l s :
  zlen l = zlen s -> (forall i, 0 <= i < zlen l -> at_ d l i = at_ d s i) -> l = s.
Proof.
  intros Hlen H. apply list_eq. intros i.
  destruct (decide (Z.of_nat i < zlen l)) as [Hi|Hi].
  - specialize (H (Z.of_nat i) ltac:(lia)).
    pose proof (lookup_at d l (Z.of_nat i) ltac:(lia)) as H1.
    pose proof (lookup_at d s (Z.of_nat i) ltac:(lia)) as H2.
    rewrite Nat2Z.id in H1, H2. congruence.
  - unfold zlen in *. rewrite !lookup_ge_None_2 by lia. done.
Qed.

Lemma at_slice d l o n i :
  0 <= o -> 0 <= i < n -> o + n <= zlen l -> at_ d (slice l o n) i = at_ d l (o + i).
Proof.
  intros. unfold at_, slice, zlen in *. rewrite !nth_lookup.
  rewrite lookup_take_lt, lookup_drop by lia. do 2 f_equal. lia.
Qed.

Lemma at_splice_in d l o s i :
  0 <= o -> o + zlen s <= zlen l -> o <= i < o + zlen s ->
  at_ d (splice l o s) i = at_ d s (i - o).
Proof.
  intros. unfold at_, splice, zlen in *. rewrite !nth_lookup.
  rewrite lookup_app_r by (rewrite length_take; lia).
  rewrite length_take, lookup_app_l by lia. do 2 f_equal. lia.
Qed.

Lemma at_splice_out d l o s i :
  0 <= o -> o + zlen s <= zlen l -> 0 <= i -> i < o \/ o + zlen s <= i ->
  at_ d (splice l o s) i = at_ d l i.
Proof.
  intros ??? [?|?]; unfold at_, splice, zlen in *; rewrite !nth_lookup.
  - by rewrite lookup_app_l, lookup_take_lt by (rewrite ?length_take; lia).
  - rewrite lookup_app_r by (rewrite length_take; lia).
    rewrite length_take, lookup_app_r, lookup_drop by lia. do 2 f_equal. lia.
Qed.

Lemma slice_splice_same l o s :
  0 <= o -> o + zlen s <= zlen l -> slice (splice l o s) o (zlen s) = s.
Proof.
  intros. unfold slice, splice, zlen in *.
  rewrite drop_app_length' by (rewrite length_take; lia).
  rewrite take_app_length'; [done|lia].
Qed.

Lemma slice_splice_other (d : A) l o s o' n :
  0 <= o -> o + zlen s <= zlen l -> 0 <= o' -> 0 <= n -> o' + n <= zlen l ->
  o' + n <= o \/ o + zlen s <= o' ->
  slice (splice l o s) o' n = slice l o' n.
Proof.
  intros.
  assert (zlen (splice l o s) = zlen l) as Hl by (apply zlen_splice; lia).
  apply (list_eq_at d); rewrite zlen_slice, ?zlen_slice by lia; [done|].
  intros i Hi. rewrite !at_slice by lia. apply at_splice_out; lia.
Qed.

Lemma slice_upd_out (b : list A) i v o n : 0 <= i -> 0 <= o -> i < o \/ o + n <= i -> slice (upd b i v) o n = slice b o n.
Proof.
  intros Hi Ho Hn. unfold slice, upd. destruct Hn as [|Hn]; [by rewrite drop_insert_lt by lia|].
  destruct (Z.lt_ge_cases n 0); [by replace (Z.to_nat n) with 0%nat by lia|].
  rewrite drop_insert_ge by lia. rewrite take_insert_ge by lia. done.
Qed.

Lemma upd_app_r l s i v : 0 <= i -> upd (l ++ s) (zlen l + i) v = l ++ upd s i v.
Proof.
  intros Hi. unfold upd. replace (Z.to_nat (zlen l + i)) with (length l + Z.to_nat i)%nat by (unfold zlen; lia).
  by rewrite insert_app_r.
Qed.

Lemma at_app_l d l s i : 0 <= i < zlen l -> at_ d (l ++ s) i = at_ d l i.
Proof. intros Hi. unfold at_, zlen in *. apply app_nth1. lia. Qed.

Lemma at_app_r d l s i : 0 <= i -> at_ d (l ++ s) (zlen l + i) = at_ d s i.
Proof. intros Hi. unfold at_, zlen. rewrite app_nth2 by lia. f_equal. lia. Qed.

Lemma slice_all l : slice l 0 (zlen l) = l.
Proof. unfold slice, zlen. cbn. rewrite drop_0, Nat2Z.id. by apply take_ge. Qed.

Lemma slice_0 l n : slice l 0 n = take (Z.to_nat n) l.
Proof. done. Qed.

Lemma slice_app_l l s n : 0 <= n <= zlen l -> slice (l ++ s) 0 n = slice l 0 n.
Proof.
  intros. unfold slice, zlen in *. cbn. rewrite !drop_0.
  rewrite take_app_le by lia. done.
Qed.

Lemma slice_app_exact l s : slice (l ++ s) 0 (zlen l) = l.
Proof. rewrite slice_app_l by (pose proof (zlen_nonneg l); lia). apply slice_all. Qed.

Lemma slice_app_skip l s o n :
  zlen l <= o -> slice (l ++ s) o n = slice s (o - zlen l) n.
Proof.
  intros. unfold slice, zlen in *. f_equal. rewrite drop_app_ge by lia. f_equal. lia.
Qed.

Lemma slice_app_here l s o n : o = 0 -> zlen l = n -> slice (l ++ s) o n = l.
Proof. intros -> <-. apply slice_app_exact. Qed.

Lemma slice_whole l o n : o = 0 -> zlen l = n -> slice l o n = l.
Proof. intros -> <-. apply slice_all. Qed.

Lemma slice_join l o n m :
  0 <= o -> 0 <= n -> 0 <= m -> slice l o n ++ slice l (o + n) m = slice l o (n + m).
Proof.
  intros. unfold slice. rewrite !Z2Nat.inj_add by lia. rewrite <- drop_drop.
  apply take_take_drop.
Qed.
End vec.

#[export] Hint Rewrite @zlen_app @zlen_cons @zlen_upd @zlen_nil : zlen.
#[export] Hint Resolve zlen_nonneg : euro.

(** [zrange] is the half-open interval in increasing order. *)
Lemma elem_of_zrange a b i : i ∈ zrange a b <-> a <= i < b.
Proof. unfold zrange. rewrite elem_of_seqZ. lia. Qed.

Lemma zrange_nil a b : b <= a -> zrange a b = [].
Proof. intros. unfold zrange. apply seqZ_nil. lia. Qed.

Lemma zrange_cons a b : a < b -> zrange a b = a :: zrange (a + 1) b.
Proof.
  intros. unfold zrange. rewrite seqZ_cons by lia.
  unfold Z.succ. do 2 f_equal. lia.
Qed.

Lemma zrange_split a m b : a <= m <= b -> zrange a b = zrange a m ++ zrange m b.
Proof.
  intros. unfold zrange. replace (b - a) with ((m - a) + (b - m)) by lia.
  rewrite seqZ_app by lia. do 2 f_equal. lia.
Qed.

Lemma zrange_snoc a b : a <= b -> zrange a (b + 1) = zrange a b ++ [b].
Proof.
  intros. rewrite (zrange_split a b (b + 1)) by lia. f_equal.
  rewrite zrange_cons by lia. by rewrite zrange_nil by lia.
Qed.

Lemma zlen_snoc {A} (l : list A) x : zlen (l ++ [x]) = zlen l + 1.
Proof. unfold zlen. rewrite length_app. cbn [length]. lia. Qed.

Lemma zlen_fmap {A B} (f : A -> B) (l : list A) : zlen (f <$> l) = zlen l.
Proof. unfold zlen. by rewrite length_fmap. Qed.

Lemma upd_middle {A} (l r : list A) x v n : n = zlen l -> upd (l ++ x :: r) n v = l ++ v :: r.
Proof. intros ->. rewrite <- (Z.add_0_r (zlen l)). by rewrite upd_app_r by lia. Qed.

(** Reading a vector back index by index. *)
Lemma map_zrange {B} (f : Z -> B) (l : list B) :
  (forall k x, l !! k = Some x -> f (Z.of_nat k) = x) -> map f (zrange 0 (zlen l)) = l.
Proof.
  intros H. apply list_eq. intros k. rewrite list_lookup_fmap. unfold zrange.
  destruct (l !! k) as [x|] eqn:E.
  - pose proof (lookup_lt_Some _ _ _ E). rewrite lookup_seqZ_lt by (unfold zlen; lia).
    cbn. f_equal. rewrite Z.add_0_l. by apply H.
  - apply lookup_ge_None in E. rewrite lookup_seqZ_ge by (unfold zlen; lia). done.
Qed.

(** ** Division facts the allocators use *)
Lemma div_ceil_spec a b : 0 < b -> 0 <= a -> a <= div_ceil a b * b < a + b.
Proof.
  intros. unfold div_ceil.
  pose proof (Z.div_mod (a + b - 1) b ltac:(lia)).
  pose proof (Z.mod_pos_bound (a + b - 1) b ltac:(lia)). nia.
Qed.

(** ** Words put together from parts *)
Lemma lor_shift a b k : 0 <= k -> 0 <= a < 2 ^ k -> 0 <= b -> Z.lor a (Z.shiftl b k) = a + b * 2 ^ k.
Proof.
  intros Hk Ha Hb. rewrite <- Z.shiftl_mul_pow2 by lia. symmetry. rewrite Z.add_nocarry_lxor, Z.lxor_lor; [done|..];
    apply Z.bits_inj'; intros n Hn; rewrite Z.land_spec, Z.bits_0, Z.shiftl_spec by lia;
    (destruct (Z.lt_ge_cases n k) as [Hnk|Hnk]; [by rewrite (Z.testbit_neg_r b) by lia; rewrite andb_false_r|]);
    rewrite <- (Z.mod_small a (2 ^ k)) by lia; by rewrite Z.mod_pow2_bits_high by lia.
Qed.
