(* ===== verification/Bytes.v ===== *)
(** Little-endian fields of on-disk buffers ([rd_u16] .. [wr_u64] of
    [src/crates/eurofs/src/disk.rs] and the [to_le_bytes]/[from_le_bytes] of
    the other crates).  A buffer is a [list Z] of byte values. *)

From S2P Require Import Prelude.

Definition bytes_ok (b : list Z) : Prop := Forall is_u8 b.

(** [v.to_le_bytes()] for an [n]-byte integer. *)
Fixpoint le_bytes (n : nat) (v : Z) : list Z :=
  match n with
  | O => []
  | S n' => v mod 256 :: le_bytes n' (v / 256)
  end.

(** [from_le_bytes] *)
Fixpoint le_val (l : list Z) : Z :=
  match l with
  | [] => 0
  | b :: l' => b + 256 * le_val l'
  end.

Definition rd_u16 (b : list Z) (o : Z) : Z := le_val (slice b o 2).
Definition rd_u32 (b : list Z) (o : Z) : Z := le_val (slice b o 4).
Definition rd_u64 (b : list Z) (o : Z) : Z := le_val (slice b o 8).

Definition wr_u8 (b : list Z) (o v : Z) : list Z := splice b o [v].
Definition wr_u16 (b : list Z) (o v : Z) : list Z := splice b o (le_bytes 2 v).
Definition wr_u32 (b : list Z) (o v : Z) : list Z := splice b o (le_bytes 4 v).
Definition wr_u64 (b : list Z) (o v : Z) : list Z := splice b o (le_bytes 8 v).

Arguments rd_u16 : simpl never.
Arguments rd_u32 : simpl never.
Arguments rd_u64 : simpl never.
Arguments wr_u8 : simpl never.
Arguments wr_u16 : simpl never.
Arguments wr_u32 : simpl never.
Arguments wr_u64 : simpl never.
Arguments le_bytes : simpl never.
Arguments le_val : simpl never.

(** ** Integers *)

Lemma zlen_le_bytes n v : zlen (le_bytes n v) = Z.of_nat n.
Proof.
  revert v. induction n as [|n IH]; intros v; unfold le_bytes; [done|].
  fold le_bytes. rewrite zlen_cons, IH. lia.
Qed.

Lemma le_val_bytes n v : 0 <= v < 256 ^ Z.of_nat n -> le_val (le_bytes n v) = v.
Proof.
  revert v. induction n as [|n IH]; intros v Hv; unfold le_bytes, le_val; fold le_bytes le_val.
  - cbn in Hv. lia.
  - rewrite Nat2Z.inj_succ, Z.pow_succ_r in Hv by lia.
    rewrite IH by (Z.to_euclidean_division_equations; lia).
    Z.to_euclidean_division_equations; lia.
Qed.

Lemma le_val_bound l : bytes_ok l -> 0 <= le_val l < 256 ^ zlen l.
Proof.
  induction 1 as [|b l Hb Hl IH]; unfold le_val; fold le_val; [done|].
  rewrite zlen_cons, Z.pow_add_r by (try apply zlen_nonneg; lia). ulia.
Qed.

Lemma bytes_ok_le n v : bytes_ok (le_bytes n v).
Proof.
  revert v. induction n as [|n IH]; intros v; unfold le_bytes; fold le_bytes; constructor; [|apply IH].
  pose proof (Z.mod_pos_bound v 256). ulia.
Qed.

Lemma le_bytes_val l n : bytes_ok l -> zlen l = Z.of_nat n -> le_bytes n (le_val l) = l.
Proof.
  intros H. revert n. induction H as [|b l Hb Hl IH]; intros n Hn.
  - by destruct n.
  - rewrite zlen_cons in Hn. destruct n as [|n]; [pose proof (zlen_nonneg l); lia|].
    unfold le_bytes, le_val; fold le_bytes le_val.
    replace ((b + 256 * le_val l) mod 256) with b by (Z.to_euclidean_division_equations; ulia).
    replace ((b + 256 * le_val l) / 256) with (le_val l) by (Z.to_euclidean_division_equations; ulia).
    rewrite IH by lia. done.
Qed.

(** ** Big-endian integers *)

(** [v.to_be_bytes()], [from_be_bytes] *)
Definition be_bytes (n : nat) (v : Z) : list Z := reverse (le_bytes n v).
Definition be_val (l : list Z) : Z := le_val (reverse l).

Lemma zlen_be_bytes n v : zlen (be_bytes n v) = Z.of_nat n.
Proof. unfold be_bytes, zlen. rewrite length_reverse. apply (zlen_le_bytes n). Qed.

Lemma be_val_bytes n v : 0 <= v < 256 ^ Z.of_nat n -> be_val (be_bytes n v) = v.
Proof. intros Hv. unfold be_val, be_bytes. rewrite reverse_involutive. by apply le_val_bytes. Qed.

Lemma be_val_bound l : bytes_ok l -> 0 <= be_val l < 256 ^ zlen l.
Proof.
  intros H. unfold be_val. replace (zlen l) with (zlen (reverse l)) by (unfold zlen; by rewrite length_reverse).
  apply le_val_bound. by apply Forall_reverse.
Qed.

Lemma bytes_ok_be n v : bytes_ok (be_bytes n v).
Proof. apply Forall_reverse, bytes_ok_le. Qed.

Lemma be_bytes_val l n : bytes_ok l -> zlen l = Z.of_nat n -> be_bytes n (be_val l) = l.
Proof.
  intros H Hn. unfold be_bytes, be_val. rewrite le_bytes_val; [apply reverse_involutive|by apply Forall_reverse|].
  unfold zlen. rewrite length_reverse. exact Hn.
Qed.

Arguments be_bytes : simpl never.
Arguments be_val : simpl never.

(** ** Buffers of bytes *)

Lemma bytes_ok_zrepeat n : bytes_ok (zrepeat 0 n).
Proof. apply Forall_replicate. ulia. Qed.

Lemma bytes_ok_app l s : bytes_ok l -> bytes_ok s -> bytes_ok (l ++ s).
Proof. intros. by apply Forall_app. Qed.

Lemma bytes_ok_slice l o n : bytes_ok l -> bytes_ok (slice l o n).
Proof. intros. unfold slice. by apply Forall_take, Forall_drop. Qed.

Lemma bytes_ok_splice l o s : bytes_ok l -> bytes_ok s -> bytes_ok (splice l o s).
Proof.
  intros. unfold splice. apply bytes_ok_app; [by apply Forall_take|].
  apply bytes_ok_app; [done|by apply Forall_drop].
Qed.

Lemma bytes_ok_at l i : bytes_ok l -> is_u8 (at_ 0 l i).
Proof.
  intros H. unfold at_. rewrite nth_lookup. destruct (l !! Z.to_nat i) eqn:E; cbn; [|ulia].
  by eapply Forall_lookup_1 in E.
Qed.

#[export] Hint Resolve bytes_ok_at bytes_ok_zrepeat bytes_ok_app bytes_ok_slice bytes_ok_splice bytes_ok_le bytes_ok_be : euro.

(** ** Fields

    A field written at [o] reads back, and leaves every disjoint field alone;
    [codec] normalises a read through a stack of writes. *)

Lemma zlen_wr_u8 b o v : 0 <= o -> o + 1 <= zlen b -> zlen (wr_u8 b o v) = zlen b.
Proof. intros. by apply zlen_splice. Qed.
Lemma zlen_wr_u16 b o v : 0 <= o -> o + 2 <= zlen b -> zlen (wr_u16 b o v) = zlen b.
Proof. intros. apply zlen_splice; [done|]. by rewrite zlen_le_bytes. Qed.
Lemma zlen_wr_u32 b o v : 0 <= o -> o + 4 <= zlen b -> zlen (wr_u32 b o v) = zlen b.
Proof. intros. apply zlen_splice; [done|]. by rewrite zlen_le_bytes. Qed.
Lemma zlen_wr_u64 b o v : 0 <= o -> o + 8 <= zlen b -> zlen (wr_u64 b o v) = zlen b.
Proof. intros. apply zlen_splice; [done|]. by rewrite zlen_le_bytes. Qed.

Lemma slice_wr_u8 b o v o' n :
  0 <= o -> o + 1 <= zlen b -> 0 <= o' -> 0 <= n -> o' + n <= zlen b ->
  o' + n <= o \/ o + 1 <= o' -> slice (wr_u8 b o v) o' n = slice b o' n.
Proof. intros. apply (slice_splice_other 0); rewrite ?zlen_cons, ?zlen_nil; lia. Qed.
Lemma slice_wr_u16 b o v o' n :
  0 <= o -> o + 2 <= zlen b -> 0 <= o' -> 0 <= n -> o' + n <= zlen b ->
  o' + n <= o \/ o + 2 <= o' -> slice (wr_u16 b o v) o' n = slice b o' n.
Proof. intros. apply (slice_splice_other 0); rewrite ?zlen_le_bytes; lia. Qed.
Lemma slice_wr_u32 b o v o' n :
  0 <= o -> o + 4 <= zlen b -> 0 <= o' -> 0 <= n -> o' + n <= zlen b ->
  o' + n <= o \/ o + 4 <= o' -> slice (wr_u32 b o v) o' n = slice b o' n.
Proof. intros. apply (slice_splice_other 0); rewrite ?zlen_le_bytes; lia. Qed.
Lemma slice_wr_u64 b o v o' n :
  0 <= o -> o + 8 <= zlen b -> 0 <= o' -> 0 <= n -> o' + n <= zlen b ->
  o' + n <= o \/ o + 8 <= o' -> slice (wr_u64 b o v) o' n = slice b o' n.
Proof. intros. apply (slice_splice_other 0); rewrite ?zlen_le_bytes; lia. Qed.

Lemma at_wr_u8 b o v : 0 <= o -> o + 1 <= zlen b -> at_ 0 (wr_u8 b o v) o = v.
Proof.
  intros. unfold wr_u8. rewrite at_splice_in by (rewrite ?zlen_cons, ?zlen_nil; lia).
  by rewrite Z.sub_diag.
Qed.

Lemma rd_wr_u16 b o v : 0 <= o -> o + 2 <= zlen b -> is_u16 v -> rd_u16 (wr_u16 b o v) o = v.
Proof.
  intros. unfold rd_u16, wr_u16. change 2 with (zlen (le_bytes 2 v)) at 1.
  rewrite slice_splice_same by (rewrite ?zlen_le_bytes; lia). apply le_val_bytes. ulia.
Qed.
Lemma rd_wr_u32 b o v : 0 <= o -> o + 4 <= zlen b -> is_u32 v -> rd_u32 (wr_u32 b o v) o = v.
Proof.
  intros. unfold rd_u32, wr_u32. change 4 with (zlen (le_bytes 4 v)) at 1.
  rewrite slice_splice_same by (rewrite ?zlen_le_bytes; lia). apply le_val_bytes. ulia.
Qed.
Lemma rd_wr_u64 b o v : 0 <= o -> o + 8 <= zlen b -> is_u64 v -> rd_u64 (wr_u64 b o v) o = v.
Proof.
  intros. unfold rd_u64, wr_u64. change 8 with (zlen (le_bytes 8 v)) at 1.
  rewrite slice_splice_same by (rewrite ?zlen_le_bytes; lia). apply le_val_bytes. ulia.
Qed.

Lemma rd_u16_bound b o : bytes_ok b -> is_u16 (rd_u16 b o).
Proof.
  intros H. unfold rd_u16. pose proof (le_val_bound (slice b o 2) (bytes_ok_slice _ _ _ H)) as Hb.
  pose proof (zlen_slice_le b o 2 ltac:(lia)). pose proof (zlen_nonneg (slice b o 2)).
  assert (256 ^ zlen (slice b o 2) <= 256 ^ 2) by (apply Z.pow_le_mono_r; lia). ulia.
Qed.
Lemma rd_u32_bound b o : bytes_ok b -> is_u32 (rd_u32 b o).
Proof.
  intros H. unfold rd_u32. pose proof (le_val_bound (slice b o 4) (bytes_ok_slice _ _ _ H)) as Hb.
  pose proof (zlen_slice_le b o 4 ltac:(lia)). pose proof (zlen_nonneg (slice b o 4)).
  assert (256 ^ zlen (slice b o 4) <= 256 ^ 4) by (apply Z.pow_le_mono_r; lia). ulia.
Qed.
Lemma rd_u64_bound b o : bytes_ok b -> is_u64 (rd_u64 b o).
Proof.
  intros H. unfold rd_u64. pose proof (le_val_bound (slice b o 8) (bytes_ok_slice _ _ _ H)) as Hb.
  pose proof (zlen_slice_le b o 8 ltac:(lia)). pose proof (zlen_nonneg (slice b o 8)).
  assert (256 ^ zlen (slice b o 8) <= 256 ^ 8) by (apply Z.pow_le_mono_r; lia). ulia.
Qed.

Lemma bytes_ok_wr_u8 b o v : bytes_ok b -> is_u8 v -> bytes_ok (wr_u8 b o v).
Proof. intros. apply bytes_ok_splice; [done|]. by constructor. Qed.
Lemma bytes_ok_wr_u16 b o v : bytes_ok b -> bytes_ok (wr_u16 b o v).
Proof. intros. apply bytes_ok_splice; auto with euro. Qed.
Lemma bytes_ok_wr_u32 b o v : bytes_ok b -> bytes_ok (wr_u32 b o v).
Proof. intros. apply bytes_ok_splice; auto with euro. Qed.
Lemma bytes_ok_wr_u64 b o v : bytes_ok b -> bytes_ok (wr_u64 b o v).
Proof. intros. apply bytes_ok_splice; auto with euro. Qed.

#[export] Hint Resolve rd_u16_bound rd_u32_bound rd_u64_bound
  bytes_ok_wr_u8 bytes_ok_wr_u16 bytes_ok_wr_u32 bytes_ok_wr_u64 : euro.

Lemma at_slice1 b o : 0 <= o < zlen b -> at_ 0 b o = at_ 0 (slice b o 1) 0.
Proof. intros. rewrite at_slice by lia. f_equal. lia. Qed.

(** Lengths of nested writes. *)
Ltac wlen :=
  repeat first
    [ rewrite zlen_wr_u64 by wlen | rewrite zlen_wr_u32 by wlen
    | rewrite zlen_wr_u16 by wlen | rewrite zlen_wr_u8 by wlen
    | rewrite zlen_splice by wlen
    | rewrite zlen_zrepeat by lia ]; try lia.

(** ** Records written field by field

    [put_all b fs] is a sequence of writes [b[o..o+n].copy_from_slice(s)]; a
    field reads back when no later write overlaps it. *)

Definition field : Type := Z * list Z.

Definition u8f (v : Z) : list Z := [v].
Definition u16f (v : Z) : list Z := le_bytes 2 v.
Definition u32f (v : Z) : list Z := le_bytes 4 v.
Definition u64f (v : Z) : list Z := le_bytes 8 v.

Definition put (b : list Z) (f : field) : list Z := splice b (fst f) (snd f).
Definition put_all (b : list Z) (fs : list field) : list Z := foldl put b fs.

Arguments put : simpl never.
Arguments put_all : simpl never.

Definition inside (n : Z) (f : field) : Prop := 0 <= fst f /\ fst f + zlen (snd f) <= n.

Definition apart (f g : field) : Prop :=
  fst f + zlen (snd f) <= fst g \/ fst g + zlen (snd g) <= fst f.

Lemma zlen_u8f v : zlen (u8f v) = 1.
Proof. done. Qed.
Lemma zlen_u16f v : zlen (u16f v) = 2.
Proof. apply zlen_le_bytes. Qed.
Lemma zlen_u32f v : zlen (u32f v) = 4.
Proof. apply zlen_le_bytes. Qed.
Lemma zlen_u64f v : zlen (u64f v) = 8.
Proof. apply zlen_le_bytes. Qed.
#[export] Hint Rewrite zlen_u8f zlen_u16f zlen_u32f zlen_u64f : zlen.

Lemma bytes_ok_u8f v : is_u8 v -> bytes_ok (u8f v).
Proof. intros. by constructor. Qed.
Lemma bytes_ok_u16f v : bytes_ok (u16f v).
Proof. apply bytes_ok_le. Qed.
Lemma bytes_ok_u32f v : bytes_ok (u32f v).
Proof. apply bytes_ok_le. Qed.
Lemma bytes_ok_u64f v : bytes_ok (u64f v).
Proof. apply bytes_ok_le. Qed.
#[export] Hint Resolve bytes_ok_u8f bytes_ok_u16f bytes_ok_u32f bytes_ok_u64f : euro.

Lemma put_all_app b fs gs : put_all b (fs ++ gs) = put_all (put_all b fs) gs.
Proof. apply foldl_app. Qed.

Lemma zlen_put b f : inside (zlen b) f -> zlen (put b f) = zlen b.
Proof. intros [? ?]. by apply zlen_splice. Qed.

Lemma zlen_put_all b fs : Forall (inside (zlen b)) fs -> zlen (put_all b fs) = zlen b.
Proof.
  revert b. induction fs as [|f fs IH]; intros b H; [done|].
  apply Forall_cons in H as [Hf Hfs]. change (put_all b (f :: fs)) with (put_all (put b f) fs).
  rewrite <- (zlen_put b f Hf) in Hfs. rewrite IH by done. by apply zlen_put.
Qed.

Lemma bytes_ok_put_all b fs :
  bytes_ok b -> Forall (fun f => bytes_ok (snd f)) fs -> bytes_ok (put_all b fs).
Proof.
  intros Hb H. revert b Hb. induction H as [|f fs Hf Hfs IH]; intros b Hb; [done|].
  apply IH. by apply bytes_ok_splice.
Qed.

(** A window no write touches. *)
Lemma slice_put_all_apart b fs o n :
  Forall (inside (zlen b)) fs -> 0 <= o -> 0 <= n -> o + n <= zlen b ->
  Forall (fun f => o + n <= fst f \/ fst f + zlen (snd f) <= o) fs ->
  slice (put_all b fs) o n = slice b o n.
Proof.
  intros Hin Ho Hn Hb Hap. revert b Hin Hb. induction Hap as [|f fs Hf Hfs IH]; intros b Hin Hb; [done|].
  apply Forall_cons in Hin as [[Hf0 Hf1] Hin].
  change (put_all b (f :: fs)) with (put_all (put b f) fs).
  pose proof (zlen_put b f (conj Hf0 Hf1)) as Hl.
  rewrite IH by (rewrite ?Hl; done). apply (slice_splice_other 0); try done; lia.
Qed.

(** A field reads back unless a later write overlaps it. *)
Lemma slice_put_all b fs f gs o n :
  Forall (inside (zlen b)) (fs ++ f :: gs) -> Forall (apart f) gs ->
  fst f = o -> zlen (snd f) = n ->
  slice (put_all b (fs ++ f :: gs)) o n = snd f.
Proof.
  intros Hin Hap <- <-. apply Forall_app in Hin as [Hfs Hin]. apply Forall_cons in Hin as [Hf Hgs].
  rewrite put_all_app. change (put_all ?b0 (f :: gs)) with (put_all (put b0 f) gs).
  set (b0 := put_all b fs). assert (Hl : zlen b0 = zlen b) by by apply zlen_put_all.
  pose proof Hf as [Hf0 Hf1]. rewrite <- Hl in Hf, Hf1, Hgs.
  pose proof (zlen_put b0 f Hf) as Hl1. rewrite <- Hl1 in Hgs.
  rewrite slice_put_all_apart; [|done|done|apply zlen_nonneg|rewrite Hl1; lia|done].
  unfold put. apply slice_splice_same; lia.
Qed.
