(* ===== verification/Frame.v ===== *)
(** EuroMM, physical frames ([src/crates/euromm/src/frame.rs]).

    The bitmap allocator of 4 KiB frames: one bit per frame, 64 frames per
    [u64] word, a search hint, counters and the DMA allocation trace.  The
    module follows the code word by word; the second half relates it to the
    set of free frames. *)

From stdpp Require Import gmap.
From S2P Require Import Prelude.

Module Frame.

Definition PAGE_SIZE : Z := 4096.

Record MemoryRegion := mkRegion {
  mr_start : Z;
  mr_len : Z;
  mr_usable : bool;
}.

Inductive FrameError := OutOfMemory | DoubleFree | OutOfBounds.

Record FrameAllocator := mkFA {
  bitmap : list Z;
  total_frames : Z;
  free_frames : Z;
  usable_total : Z;
  hint : Z;
  double_frees : Z;
  trace : option (list (Z * Z));
  high_water : Z;
}.

Definition set_bitmap (a : FrameAllocator) (b : list Z) : FrameAllocator :=
  mkFA b (total_frames a) (free_frames a) (usable_total a) (hint a)
    (double_frees a) (trace a) (high_water a).

Definition set_free_frames (a : FrameAllocator) (n : Z) : FrameAllocator :=
  mkFA (bitmap a) (total_frames a) n (usable_total a) (hint a)
    (double_frees a) (trace a) (high_water a).

Definition set_usable_total (a : FrameAllocator) (n : Z) : FrameAllocator :=
  mkFA (bitmap a) (total_frames a) (free_frames a) n (hint a)
    (double_frees a) (trace a) (high_water a).

Definition set_hint (a : FrameAllocator) (h : Z) : FrameAllocator :=
  mkFA (bitmap a) (total_frames a) (free_frames a) (usable_total a) h
    (double_frees a) (trace a) (high_water a).

Definition set_double_frees (a : FrameAllocator) (n : Z) : FrameAllocator :=
  mkFA (bitmap a) (total_frames a) (free_frames a) (usable_total a) (hint a)
    n (trace a) (high_water a).

Definition set_trace (a : FrameAllocator) (t : option (list (Z * Z))) : FrameAllocator :=
  mkFA (bitmap a) (total_frames a) (free_frames a) (usable_total a) (hint a)
    (double_frees a) t (high_water a).

Definition set_high_water (a : FrameAllocator) (n : Z) : FrameAllocator :=
  mkFA (bitmap a) (total_frames a) (free_frames a) (usable_total a) (hint a)
    (double_frees a) (trace a) n.

(** ** Words *)

(** [w | 1 << b] and [w & !(1u64 << b)]. *)
Definition bit_set (w b : Z) : Z := Z.lor w (Z.shiftl 1 b).
Definition bit_clear (w b : Z) : Z := Z.land w (Z.lxor U64_MAX (Z.shiftl 1 b)).

(** The first bit at or above [i] that differs from [v]. *)
Fixpoint trailing (v : bool) (n : nat) (i w : Z) : Z :=
  match n with
  | O => i
  | S n' => if Bool.eqb (Z.testbit w i) v then trailing v n' (i + 1) w else i
  end.

Definition trailing_ones (w : Z) : Z := trailing true 64 0 w.
Definition trailing_zeros (w : Z) : Z := trailing false 64 0 w.

(** Frame [f] is in use. *)
Definition used (bm : list Z) (f : Z) : bool :=
  Z.testbit (at_ 0 bm (f / 64)) (f mod 64).

(** ** Construction *)

Definition new (total : Z) : FrameAllocator :=
  mkFA (zrepeat U64_MAX (div_ceil total 64)) total 0 0 0 0 None 0.

Definition set_frame (u : bool) (bm : list Z) (f : Z) : list Z :=
  let w := f / 64 in
  let b := f mod 64 in
  upd bm w (if u then bit_set (at_ 0 bm w) b else bit_clear (at_ 0 bm w) b).

Definition set_range (a : FrameAllocator) (start len : Z) (u : bool) : FrameAllocator :=
  let first := start / PAGE_SIZE in
  let count := len / PAGE_SIZE in
  set_bitmap a
    (foldl (set_frame u) (bitmap a)
       (zrange first (Z.min (first + count) (total_frames a)))).

Definition recount (a : FrameAllocator) : FrameAllocator :=
  set_free_frames a
    (foldl (fun free f => if negb (used (bitmap a) f) then free + 1 else free)
       0 (zrange 0 (total_frames a))).

(** [regions.iter().filter(usable).map(start + len).max().unwrap_or(0)]; the
    sum panics when it overflows [u64]. *)
Fixpoint highest_usable (regions : list MemoryRegion) (acc : Z) : outcome FrameError Z :=
  match regions with
  | [] => Ok acc
  | r :: rs =>
      if mr_usable r then
        let? e := add64 (mr_start r) (mr_len r) in
        highest_usable rs (Z.max acc e)
      else highest_usable rs acc
  end.

Definition mark_regions (u : bool) (a : FrameAllocator) (regions : list MemoryRegion)
  : FrameAllocator :=
  foldl (fun a r => set_range a (mr_start r) (mr_len r) u) a
    (List.filter (fun r => Bool.eqb (mr_usable r) (negb u)) regions).

Definition from_regions (regions : list MemoryRegion) (reserve_below : Z)
  : outcome FrameError FrameAllocator :=
  let? highest := highest_usable regions 0 in
  let a := new (highest / PAGE_SIZE) in
  let a := mark_regions false a regions in
  let a := mark_regions true a regions in
  let a := set_range a 0 reserve_below true in
  let a := recount a in
  Ok (set_usable_total a (free_frames a)).

(** ** Allocation trace and statistics *)

Definition trace_start (a : FrameAllocator) : FrameAllocator := set_trace a (Some []).

Definition trace_take (a : FrameAllocator) : list (Z * Z) * FrameAllocator :=
  (default [] (trace a), set_trace a None).

Definition note_alloc (a : FrameAllocator) (base count : Z) : FrameAllocator :=
  match trace a with
  | Some t => set_trace a (Some (t ++ [(base, count)]))
  | None => a
  end.

Definition note_high_water (a : FrameAllocator) : FrameAllocator :=
  let u := saturating_sub (usable_total a) (free_frames a) in
  if high_water a <? u then set_high_water a u else a.

(** ** Single frames *)

Fixpoint allocate_scan (a : FrameAllocator) (ws : list Z)
  : outcome FrameError Z * FrameAllocator :=
  match ws with
  | [] => (Err OutOfMemory, a)
  | w :: ws' =>
      let word := at_ 0 (bitmap a) w in
      if word =? U64_MAX then allocate_scan a ws'
      else
        let b := trailing_ones word in
        let frame := w * 64 + b in
        if total_frames a <=? frame then allocate_scan a ws'
        else
          let a := set_bitmap a (upd (bitmap a) w (bit_set word b)) in
          let a := set_free_frames a (free_frames a - 1) in
          let a := note_high_water a in
          let a := set_hint a w in
          (Ok (frame * PAGE_SIZE), a)
  end.

Definition allocate_inner (a : FrameAllocator) : outcome FrameError Z * FrameAllocator :=
  allocate_scan a (zrange (hint a) (zlen (bitmap a)) ++ zrange 0 (hint a)).

Definition allocate (a : FrameAllocator) : outcome FrameError Z * FrameAllocator :=
  match allocate_inner a with
  | (Ok b, a') => (Ok b, note_alloc a' b 1)
  | (r, a') => (r, a')
  end.

Definition free (a : FrameAllocator) (phys : Z) : outcome FrameError unit * FrameAllocator :=
  let frame := phys / PAGE_SIZE in
  if total_frames a <=? frame then (Err OutOfBounds, a)
  else
    let w := frame / 64 in
    let b := frame mod 64 in
    if negb (Z.testbit (at_ 0 (bitmap a) w) b) then
      (Err DoubleFree, set_double_frees a (double_frees a + 1))
    else
      let a := set_bitmap a (upd (bitmap a) w (bit_clear (at_ 0 (bitmap a) w) b)) in
      let a := set_free_frames a (free_frames a + 1) in
      let a := if w <? hint a then set_hint a w else a in
      (Ok tt, a).

(** ** Contiguous runs *)

(** The word-at-a-time scan of [[f, fin)]: [Some p] is the first used frame. *)
Fixpoint first_used_loop (fuel : nat) (bm : list Z) (fin f : Z)
  : outcome FrameError (option Z) :=
  match fuel with
  | O => OutOfFuel
  | S fuel' =>
      if f <? fin then
        let w := f / 64 in
        let lo := f mod 64 in
        let hi := Z.min 64 (fin - w * 64) in
        let word := Z.shiftr (at_ 0 bm w) lo in
        let word := if hi <? 64 then Z.land word (Z.shiftl 1 (hi - lo) - 1) else word in
        if negb (word =? 0) then Ok (Some (f + trailing_zeros word))
        else first_used_loop fuel' bm fin ((w + 1) * 64)
      else Ok None
  end.

Definition first_used_in (a : FrameAllocator) (start len : Z)
  : outcome FrameError (option Z) :=
  first_used_loop (Z.to_nat (len / 64 + 3)) (bitmap a) (start + len) start.

Definition mark_run (a : FrameAllocator) (f count : Z) : FrameAllocator :=
  let a := set_bitmap a
             (foldl (fun bm j => upd bm ((f + j) / 64) (bit_set (at_ 0 bm ((f + j) / 64)) ((f + j) mod 64)))
                (bitmap a) (zrange 0 count)) in
  let a := set_free_frames a (free_frames a - count) in
  let a := note_high_water a in
  note_alloc a (f * PAGE_SIZE) count.

(** The search loop of [allocate_contiguous] and [allocate_aligned]; [next]
    maps the used frame found to the next candidate.  Both it and [f + count]
    are computed in [usize]. *)
Fixpoint run_loop (next : Z -> outcome FrameError Z) (fuel : nat) (a : FrameAllocator) (count f : Z)
  : outcome FrameError Z * FrameAllocator :=
  match fuel with
  | O => (OutOfFuel, a)
  | S fuel' =>
      match (let? fin := add64 f count in
             if fin <=? total_frames a then
               let? found := first_used_in a f count in
               match found with
               | None => Ok None
               | Some p => let? g := next p in Ok (Some g)
               end
             else Err OutOfMemory) with
      | Ok None => (Ok (f * PAGE_SIZE), mark_run a f count)
      | Ok (Some g) => run_loop next fuel' a count g
      | Err e => (Err e, a)
      | Panic => (Panic, a)
      | OutOfFuel => (OutOfFuel, a)
      end
  end.

Definition run_fuel (a : FrameAllocator) : nat := S (S (Z.to_nat (total_frames a))).

Definition allocate_contiguous (a : FrameAllocator) (count : Z)
  : outcome FrameError Z * FrameAllocator :=
  if count =? 0 then (Err OutOfBounds, a)
  else run_loop (fun p => add64 p 1) (run_fuel a) a count 0.

Definition allocate_aligned (a : FrameAllocator) (count align : Z)
  : outcome FrameError Z * FrameAllocator :=
  if (count =? 0) || (align =? 0) then (Err OutOfBounds, a)
  else
    let round_up x := mul64 (div_ceil x align) align in
    run_loop (fun p => let? x := add64 p 1 in round_up x) (run_fuel a) a count 0.

(** ** Queries *)

Definition used_frames (a : FrameAllocator) : Z := total_frames a - free_frames a.
Definition total_bytes (a : FrameAllocator) : Z := total_frames a * PAGE_SIZE.
Definition free_bytes (a : FrameAllocator) : Z := free_frames a * PAGE_SIZE.
Definition usable_bytes (a : FrameAllocator) : Z := usable_total a * PAGE_SIZE.

(** ** Bits *)

Lemma testbit_u64_max j : 0 <= j < 64 -> Z.testbit U64_MAX j = true.
Proof.
  intros. change U64_MAX with (Z.ones 64). apply Z.ones_spec_low. lia.
Qed.

Lemma testbit_u64_high w j : is_u64 w -> 64 <= j -> Z.testbit w j = false.
Proof.
  intros [H0 H1] Hj. destruct (decide (w = 0)) as [->|]; [apply Z.bits_0|].
  apply Z.bits_above_log2; [done|].
  apply Z.lt_le_trans with 64; [|done].
  apply Z.log2_lt_pow2; [lia|]. unfold U64_MAX in H1. lia.
Qed.

Lemma testbit_bit_set w b j :
  0 <= b -> 0 <= j -> Z.testbit (bit_set w b) j = (Z.testbit w j || (b =? j))%bool.
Proof.
  intros. unfold bit_set. rewrite Z.lor_spec, Z.shiftl_1_l. f_equal.
  destruct (Z.eqb_spec b j) as [->|].
  - by apply Z.pow2_bits_true.
  - by apply Z.pow2_bits_false.
Qed.

Lemma testbit_bit_clear w b j :
  0 <= b -> 0 <= j < 64 ->
  Z.testbit (bit_clear w b) j = (Z.testbit w j && negb (b =? j))%bool.
Proof.
  intros. unfold bit_clear.
  rewrite Z.land_spec, Z.lxor_spec, testbit_u64_max, Z.shiftl_1_l by lia. f_equal.
  destruct (Z.eqb_spec b j) as [->|].
  - by rewrite Z.pow2_bits_true by lia.
  - by rewrite Z.pow2_bits_false by lia.
Qed.

(** A word is a [u64] exactly when it has no bit at or above 64. *)
Lemma is_u64_bits w : is_u64 w <-> 0 <= w /\ forall j, 64 <= j -> Z.testbit w j = false.
Proof.
  split.
  - intros H. split; [apply H|]. eauto using testbit_u64_high.
  - intros [H0 Hb]. split; [done|].
    destruct (decide (w = 0)) as [->|]; [done|].
    assert (Z.log2 w < 64) as Hl.
    { apply Z.nle_gt. intros Hle. pose proof (Z.bit_log2 w ltac:(lia)).
      rewrite Hb in H by lia. done. }
    apply Z.log2_lt_pow2 in Hl; [|lia]. unfold U64_MAX. lia.
Qed.

Lemma is_u64_bit_set w b : is_u64 w -> 0 <= b < 64 -> is_u64 (bit_set w b).
Proof.
  intros Hw Hb. apply is_u64_bits. split.
  - unfold bit_set. apply Z.lor_nonneg. split; [apply Hw|]. rewrite Z.shiftl_1_l. lia.
  - intros j Hj. rewrite testbit_bit_set, (testbit_u64_high w j) by (done || lia).
    apply Z.eqb_neq. lia.
Qed.

Lemma is_u64_bit_clear w b : is_u64 w -> is_u64 (bit_clear w b).
Proof.
  intros Hw. apply is_u64_bits. split.
  - unfold bit_clear. apply Z.land_nonneg. left. apply Hw.
  - intros j Hj. unfold bit_clear. rewrite Z.land_spec.
    by rewrite (testbit_u64_high w j).
Qed.

(** All 64 bits set is the word [u64::MAX]. *)
Lemma u64_max_bits w :
  is_u64 w -> (forall j, 0 <= j < 64 -> Z.testbit w j = true) -> w = U64_MAX.
Proof.
  intros Hw H. apply Z.bits_inj'. intros j Hj. destruct (decide (j < 64)).
  - by rewrite H, testbit_u64_max by lia.
  - rewrite !testbit_u64_high; try done; lia.
Qed.

Lemma trailing_spec v n i w :
  let r := trailing v n i w in
  i <= r <= i + Z.of_nat n /\
  (forall j, i <= j < r -> Z.testbit w j = v) /\
  (r < i + Z.of_nat n -> Z.testbit w r = negb v).
Proof.
  revert i. induction n as [|n IH]; intros i; cbn -[Z.testbit Z.of_nat].
  - split; [lia|]. split; [lia|lia].
  - destruct (Bool.eqb (Z.testbit w i) v) eqn:E.
    + apply eqb_prop in E. destruct (IH (i + 1)) as (H1 & H2 & H3).
      split; [lia|]. split.
      * intros j Hj. destruct (decide (j = i)) as [->|]; [done|]. apply H2. lia.
      * intros. apply H3. lia.
    + apply eqb_false_iff in E. split; [lia|]. split; [lia|].
      intros. by destruct (Z.testbit w i), v.
Qed.

(** [trailing_ones]/[trailing_zeros] locate the lowest clear/set bit. *)
Lemma trailing_ones_spec w :
  is_u64 w -> w <> U64_MAX ->
  let b := trailing_ones w in
  0 <= b < 64 /\ Z.testbit w b = false /\ forall j, 0 <= j < b -> Z.testbit w j = true.
Proof.
  intros Hw Hne. destruct (trailing_spec true 64 0 w) as (H1 & H2 & H3).
  fold (trailing_ones w) in *. cbn [Z.of_nat] in *.
  destruct (decide (trailing_ones w = 64)) as [E|E].
  - exfalso. apply Hne, u64_max_bits; [done|]. intros. apply H2. lia.
  - repeat split; try lia; [apply H3; lia|]. intros. apply H2. lia.
Qed.

Lemma trailing_zeros_spec w :
  is_u64 w -> w <> 0 ->
  let b := trailing_zeros w in
  0 <= b < 64 /\ Z.testbit w b = true /\ forall j, 0 <= j < b -> Z.testbit w j = false.
Proof.
  intros Hw Hne. destruct (trailing_spec false 64 0 w) as (H1 & H2 & H3).
  fold (trailing_zeros w) in *. cbn [Z.of_nat] in *.
  destruct (decide (trailing_zeros w = 64)) as [E|E].
  - exfalso. apply Hne, Z.bits_inj'. intros j Hj. rewrite Z.bits_0.
    destruct (decide (j < 64)); [apply H2; lia|]. apply testbit_u64_high; [done|lia].
  - repeat split; try lia; [apply H3; lia|]. intros. apply H2. lia.
Qed.

(** ** The bitmap as a set of used frames *)

Definition words_ok (bm : list Z) : Prop := Forall is_u64 bm.

Lemma words_ok_at bm w : words_ok bm -> is_u64 (at_ 0 bm w).
Proof.
  intros H. unfold at_. destruct (nth_in_or_default (Z.to_nat w) bm 0) as [Hi| ->].
  - unfold words_ok in H. rewrite Forall_forall in H. by apply H, list_elem_of_In.
  - ulia.
Qed.

Lemma words_ok_upd bm w x : words_ok bm -> is_u64 x -> words_ok (upd bm w x).
Proof. intros. unfold upd. by apply Forall_insert. Qed.

#[local] Hint Resolve words_ok_at words_ok_upd is_u64_bit_set is_u64_bit_clear : euro.

Lemma frame_word_bit f : 0 <= f -> 0 <= f / 64 /\ 0 <= f mod 64 < 64 /\ f = 64 * (f / 64) + f mod 64.
Proof. intros. Z.to_euclidean_division_equations. lia. Qed.

Lemma words_ok_set_frame u bm f : 0 <= f -> words_ok bm -> words_ok (set_frame u bm f).
Proof.
  intros Hf H. unfold set_frame. apply words_ok_upd; [done|].
  pose proof (frame_word_bit f Hf). destruct u; auto with euro lia.
Qed.

Lemma zlen_set_frame u bm f : zlen (set_frame u bm f) = zlen bm.
Proof. apply zlen_upd. Qed.

Lemma used_set_frame u bm f g :
  0 <= f -> 0 <= g -> f / 64 < zlen bm ->
  used (set_frame u bm f) g = if f =? g then u else used bm g.
Proof.
  intros Hf Hg Hlen. unfold used, set_frame.
  pose proof (frame_word_bit f Hf) as (?&?&?). pose proof (frame_word_bit g Hg) as (?&?&?).
  destruct (decide (f / 64 = g / 64)) as [E|E].
  - rewrite <- E, at_upd_eq by lia. destruct u.
    + rewrite testbit_bit_set by lia.
      destruct (Z.eqb_spec f g), (Z.eqb_spec (f mod 64) (g mod 64));
        rewrite ?orb_true_r, ?orb_false_r; (done || lia).
    + rewrite testbit_bit_clear by lia.
      destruct (Z.eqb_spec f g), (Z.eqb_spec (f mod 64) (g mod 64));
        rewrite ?andb_true_r, ?andb_false_r; (done || lia).
  - rewrite at_upd_ne by lia. destruct (Z.eqb_spec f g) as [->|]; [congruence|done].
Qed.

(** ** The abstract state: the set of free frames *)

Definition free_set (a : FrameAllocator) : gset Z :=
  list_to_set (filter (fun f => used (bitmap a) f = false) (zrange 0 (total_frames a))).

Lemma elem_of_free_set a f :
  f ∈ free_set a <-> 0 <= f < total_frames a /\ used (bitmap a) f = false.
Proof.
  unfold free_set. rewrite elem_of_list_to_set, list_elem_of_filter, elem_of_zrange. tauto.
Qed.

(** Invariant of the allocator: the bitmap covers exactly the managed frames,
    frames past the end are never offered, the counter is exact, and every
    word below the hint is full. *)
Record wf (a : FrameAllocator) : Prop := mkWf {
  wf_total : 0 <= total_frames a;
  wf_len : zlen (bitmap a) = div_ceil (total_frames a) 64;
  wf_words : words_ok (bitmap a);
  wf_tail : forall f, total_frames a <= f < 64 * zlen (bitmap a) -> used (bitmap a) f = true;
  wf_free : free_frames a = Z.of_nat (size (free_set a));
  wf_hint : 0 <= hint a <= zlen (bitmap a);
  wf_full : forall f, 0 <= f < 64 * hint a -> used (bitmap a) f = true;
}.

Lemma wf_in_bitmap a f : wf a -> 0 <= f < total_frames a -> 0 <= f / 64 < zlen (bitmap a).
Proof.
  intros Hwf Hf. rewrite (wf_len _ Hwf).
  pose proof (div_ceil_spec (total_frames a) 64 ltac:(lia) ltac:(lia)).
  pose proof (frame_word_bit f ltac:(lia)). lia.
Qed.

(** The bitmap without its bookkeeping: used bits after marking [[f, f+n)]. *)
Lemma mark_window bm f n g :
  0 <= f -> 0 <= n -> f + n <= 64 * zlen bm -> words_ok bm -> 0 <= g ->
  let bm' := foldl (fun bm j => upd bm ((f + j) / 64) (bit_set (at_ 0 bm ((f + j) / 64)) ((f + j) mod 64)))
               bm (zrange 0 n) in
  words_ok bm' /\ zlen bm' = zlen bm /\
  used bm' g = if (f <=? g) && (g <? f + n) then true else used bm g.
Proof.
  intros Hf Hn. revert bm g. revert n Hn.
  refine (natlike_ind _ _ _).
  - intros bm g Hlen Hok Hg. rewrite zrange_nil by lia. cbn. split_and!; [done..|].
    destruct (Z.leb_spec f g), (Z.ltb_spec g (f + 0)); cbn; (done || lia).
  - intros n Hn IH bm g Hlen Hok Hg. unfold Z.succ. rewrite zrange_snoc by lia.
    rewrite foldl_app. cbn [foldl].
    destruct (IH bm g ltac:(lia) Hok Hg) as (IH1 & IH2 & IH3).
    set (bm1 := foldl _ bm (zrange 0 n)) in *.
    change (upd bm1 ((f + n) / 64) (bit_set (at_ 0 bm1 ((f + n) / 64)) ((f + n) mod 64)))
      with (set_frame true bm1 (f + n)).
    pose proof (frame_word_bit (f + n) ltac:(lia)).
    split_and!; [by apply words_ok_set_frame; [lia|]|by rewrite zlen_set_frame|].
    rewrite used_set_frame by lia. rewrite IH3.
    destruct (Z.eqb_spec (f + n) g), (Z.leb_spec f g), (Z.ltb_spec g (f + n)),
      (Z.ltb_spec g (f + (n + 1))); cbn; (done || lia).
Qed.

(** ** The word-at-a-time scan *)

(** [scan_result bm f fin r]: [r] is what a bit-by-bit scan of [[f, fin)] finds. *)
Definition scan_result (bm : list Z) (f fin : Z) (r : option Z) : Prop :=
  match r with
  | None => forall g, f <= g < fin -> used bm g = false
  | Some p => f <= p < fin /\ used bm p = true /\ forall g, f <= g < p -> used bm g = false
  end.

(** Bit [j] of the masked word of the scan at [f] is frame [f + j]. *)
Lemma scan_word_bit bm f fin j :
  words_ok bm -> 0 <= f < fin -> 0 <= j < 64 ->
  let hi := Z.min 64 (fin - f / 64 * 64) in
  let word := Z.shiftr (at_ 0 bm (f / 64)) (f mod 64) in
  let word := if hi <? 64 then Z.land word (Z.shiftl 1 (hi - f mod 64) - 1) else word in
  Z.testbit word j =
    if (f mod 64 + j <? 64) && (f + j <? fin) then used bm (f + j) else false.
Proof.
  intros Hok Hf Hj. cbn zeta.
  pose proof (frame_word_bit f ltac:(lia)) as (?&?&?).
  set (hi := Z.min 64 (fin - f / 64 * 64)).
  assert (Hsh : Z.testbit (Z.shiftr (at_ 0 bm (f / 64)) (f mod 64)) j =
    if f mod 64 + j <? 64 then used bm (f + j) else false).
  { rewrite Z.shiftr_spec by lia. destruct (Z.ltb_spec (f mod 64 + j) 64).
    - unfold used. replace ((f + j) / 64) with (f / 64) by (Z.to_euclidean_division_equations; lia).
      f_equal. Z.to_euclidean_division_equations; lia.
    - apply testbit_u64_high; [auto with euro|lia]. }
  destruct (Z.ltb_spec hi 64).
  - rewrite Z.land_spec, Hsh, Z.shiftl_1_l.
    replace (2 ^ (hi - f mod 64) - 1) with (Z.ones (hi - f mod 64)) by (rewrite Z.ones_equiv; lia).
    destruct (Z.ltb_spec (f mod 64 + j) 64), (Z.ltb_spec (f + j) fin); cbn [andb]; try done.
    + rewrite Z.ones_spec_low by lia. by rewrite andb_true_r.
    + rewrite Z.ones_spec_high by lia. by rewrite andb_false_r.
  - rewrite Hsh.
    destruct (Z.ltb_spec (f mod 64 + j) 64), (Z.ltb_spec (f + j) fin); cbn; (done || lia).
Qed.

Lemma scan_word_u64 bm f fin :
  words_ok bm -> 0 <= f < fin ->
  let hi := Z.min 64 (fin - f / 64 * 64) in
  let word := Z.shiftr (at_ 0 bm (f / 64)) (f mod 64) in
  is_u64 (if hi <? 64 then Z.land word (Z.shiftl 1 (hi - f mod 64) - 1) else word).
Proof.
  intros Hok Hf. cbn zeta.
  pose proof (frame_word_bit f ltac:(lia)) as (?&?&?).
  assert (Hw : is_u64 (Z.shiftr (at_ 0 bm (f / 64)) (f mod 64))).
  { apply is_u64_bits. split.
    - apply Z.shiftr_nonneg. by apply (words_ok_at bm (f / 64)).
    - intros. rewrite Z.shiftr_spec by lia. apply testbit_u64_high; [auto with euro|lia]. }
  case_if; [|done]. apply is_u64_bits. split.
  - apply Z.land_nonneg. left. apply Hw.
  - intros. rewrite Z.land_spec, testbit_u64_high by done. done.
Qed.

Lemma first_used_loop_spec n bm fin f :
  words_ok bm -> 0 <= f -> (1 <= n)%nat -> fin - f / 64 * 64 <= 64 * (Z.of_nat n - 1) ->
  exists r, first_used_loop n bm fin f = Ok r /\ scan_result bm f fin r.
Proof.
  intros Hok. revert f. induction n as [|n IH]; intros f Hf Hn Hfuel; [lia|].
  pose proof (frame_word_bit f Hf) as (?&?&?).
  cbn [first_used_loop]. destruct (Z.ltb_spec f fin) as [Hlt|Hge].
  2:{ exists None. split; [done|]. intros g Hg. lia. }
  pose proof (fun j => scan_word_bit bm f fin j Hok ltac:(lia)) as Hbit.
  pose proof (scan_word_u64 bm f fin Hok ltac:(lia)) as Hu. cbn zeta in Hbit, Hu.
  match goal with |- context [negb (?w =? 0)] => set (word := w) in * end.
  clearbody word.
  destruct (Z.eqb_spec word 0) as [E|E]; cbn [negb].
  - destruct (IH ((f / 64 + 1) * 64)) as (r & Hr & Hs); [lia|lia| |].
    { replace ((f / 64 + 1) * 64 / 64) with (f / 64 + 1) by (Z.to_euclidean_division_equations; lia). lia. }
    exists r. split; [done|].
    assert (Hz : forall g, f <= g < Z.min fin ((f / 64 + 1) * 64) -> used bm g = false).
    { intros g Hg. specialize (Hbit (g - f) ltac:(lia)).
      rewrite E, Z.bits_0 in Hbit. replace (f + (g - f)) with g in Hbit by lia.
      destruct (Z.ltb_spec (f mod 64 + (g - f)) 64), (Z.ltb_spec g fin); cbn in Hbit; (done || lia). }
    destruct r as [p|]; cbn in *.
    + destruct Hs as (Hp & Hup & Hs). split; [lia|]. split; [done|]. intros g Hg.
      destruct (decide (g < (f / 64 + 1) * 64)); [apply Hz; lia|apply Hs; lia].
    + intros g Hg. destruct (decide (g < (f / 64 + 1) * 64)); [apply Hz; lia|apply Hs; lia].
  - destruct (trailing_zeros_spec word Hu E) as (Hb & Hset & Hlow).
    set (b := trailing_zeros word) in *. clearbody b.
    exists (Some (f + b)). split; [done|]. cbn.
    rewrite Hbit in Hset by lia.
    destruct (Z.ltb_spec (f mod 64 + b) 64), (Z.ltb_spec (f + b) fin); cbn in Hset; try done.
    split; [lia|]. split; [done|]. intros g Hg.
    specialize (Hlow (g - f) ltac:(lia)). rewrite Hbit in Hlow by lia.
    replace (f + (g - f)) with g in Hlow by lia.
    destruct (Z.ltb_spec (f mod 64 + (g - f)) 64), (Z.ltb_spec g fin); cbn in Hlow; (done || lia).
Qed.

Lemma first_used_in_spec a f len :
  words_ok (bitmap a) -> 0 <= f -> 0 <= len ->
  exists r, first_used_in a f len = Ok r /\ scan_result (bitmap a) f (f + len) r.
Proof.
  intros. pose proof (frame_word_bit f ltac:(lia)).
  apply first_used_loop_spec; [done|done|Z.to_euclidean_division_equations; lia|].
  rewrite Z2Nat.id by (Z.to_euclidean_division_equations; lia).
  Z.to_euclidean_division_equations. lia.
Qed.

(** ** What an update of the bitmap does to the invariant *)

(** The bookkeeping of the code only touches counters. *)
Lemma note_alloc_fields a b n :
  bitmap (note_alloc a b n) = bitmap a /\ total_frames (note_alloc a b n) = total_frames a /\
  free_frames (note_alloc a b n) = free_frames a /\ hint (note_alloc a b n) = hint a /\
  usable_total (note_alloc a b n) = usable_total a /\ high_water (note_alloc a b n) = high_water a.
Proof. unfold note_alloc. by destruct (trace a). Qed.

Lemma note_high_water_fields a :
  bitmap (note_high_water a) = bitmap a /\ total_frames (note_high_water a) = total_frames a /\
  free_frames (note_high_water a) = free_frames a /\ hint (note_high_water a) = hint a.
Proof. unfold note_high_water. by case_if. Qed.

(** Building a well-formed allocator [a'] whose free set is the one of [a]
    changed by [S]. *)
Lemma wf_update a a' (S' : gset Z) :
  wf a ->
  total_frames a' = total_frames a ->
  zlen (bitmap a') = zlen (bitmap a) ->
  words_ok (bitmap a') ->
  (forall f, total_frames a <= f < 64 * zlen (bitmap a) -> used (bitmap a') f = used (bitmap a) f) ->
  (forall f, f ∈ S' <-> 0 <= f < total_frames a /\ used (bitmap a') f = false) ->
  free_frames a' = Z.of_nat (size S') ->
  0 <= hint a' <= zlen (bitmap a) ->
  (forall f, 0 <= f < 64 * hint a' -> used (bitmap a') f = true) ->
  wf a' /\ free_set a' = S'.
Proof.
  intros Hwf Ht Hl Hw Htail HS Hfree Hhint Hfull.
  assert (E : free_set a' = S').
  { apply set_eq. intros f. rewrite elem_of_free_set, HS, Ht. done. }
  split; [|done]. split; rewrite ?Ht, ?Hl, ?E; try done; try apply Hwf.
  intros f Hf. rewrite Htail by done. by apply (wf_tail _ Hwf).
Qed.

(** The frames of a window as a set. *)
Definition window (f n : Z) : gset Z := list_to_set (zrange f (f + n)).

Lemma elem_of_window f n g : g ∈ window f n <-> f <= g < f + n.
Proof. unfold window. by rewrite elem_of_list_to_set, elem_of_zrange. Qed.

Lemma size_window f n : 0 <= n -> Z.of_nat (size (window f n)) = n.
Proof.
  intros. unfold window. rewrite size_list_to_set by apply NoDup_seqZ.
  unfold zrange. rewrite length_seqZ. lia.
Qed.

Lemma size_minus (X Y : gset Z) :
  Y ⊆ X -> Z.of_nat (size (X ∖ Y)) = Z.of_nat (size X) - Z.of_nat (size Y).
Proof. intros H. rewrite size_difference by done. pose proof (subseteq_size _ _ H). lia. Qed.

(** ** Single-frame operations *)

Lemma allocate_scan_spec a ws :
  wf a -> (forall w, w ∈ ws -> 0 <= w < zlen (bitmap a)) ->
  match allocate_scan a ws with
  | (Ok p, a') =>
      exists f l1 w l2,
        p = f * PAGE_SIZE /\ f ∈ free_set a /\ ws = l1 ++ w :: l2 /\ f / 64 = w /\
        (forall v, v ∈ l1 -> at_ 0 (bitmap a) v = U64_MAX) /\
        (forall g, 64 * w <= g < f -> used (bitmap a) g = true) /\
        bitmap a' = set_frame true (bitmap a) f /\ total_frames a' = total_frames a /\
        free_frames a' = free_frames a - 1 /\ hint a' = w
  | (Err OutOfMemory, a') => a' = a /\ forall w, w ∈ ws -> at_ 0 (bitmap a) w = U64_MAX
  | _ => False
  end.
Proof.
  intros Hwf. induction ws as [|w ws IH]; intros Hws; cbn [allocate_scan].
  - split; [done|]. intros w Hw. by apply not_elem_of_nil in Hw.
  - destruct (Z.eqb_spec (at_ 0 (bitmap a) w) U64_MAX) as [E|E].
    + specialize (IH (fun v Hv => Hws v (list_elem_of_further _ _ _ Hv))).
      destruct (allocate_scan a ws) as [[p|[]| |] a']; try done.
      * destruct IH as (f & l1 & v & l2 & -> & ? & -> & ? & Hl1 & ?).
        exists f, (w :: l1), v, l2. destruct_and!. split_and!; try done.
        intros u [->|Hu]%elem_of_cons; [done|by apply Hl1].
      * destruct IH as [-> IH]. split; [done|].
        intros v [->|Hv]%elem_of_cons; [done|by apply IH].
    + assert (Hw : 0 <= w < zlen (bitmap a)) by (apply Hws, list_elem_of_here).
      destruct (trailing_ones_spec _ (words_ok_at _ w (wf_words _ Hwf)) E) as (Hb & Hz & Hlow).
      set (b := trailing_ones _) in *. clearbody b.
      assert (Hdiv : (w * 64 + b) / 64 = w) by (Z.to_euclidean_division_equations; lia).
      assert (Hmod : (w * 64 + b) mod 64 = b) by (Z.to_euclidean_division_equations; lia).
      assert (Hu : used (bitmap a) (w * 64 + b) = false) by (unfold used; by rewrite Hdiv, Hmod).
      destruct (Z.leb_spec (total_frames a) (w * 64 + b)) as [Hge|Hlt].
      { rewrite (wf_tail _ Hwf) in Hu by lia. done. }
      exists (w * 64 + b), [], w, ws.
      destruct (note_high_water_fields
        (set_free_frames (set_bitmap a (upd (bitmap a) w (bit_set (at_ 0 (bitmap a) w) b))) (free_frames a - 1)))
        as (F1 & F2 & F3 & F4).
      split_and!; try done.
      * apply elem_of_free_set. split; [lia|done].
      * intros v Hv. by apply not_elem_of_nil in Hv.
      * intros g Hg. unfold used.
        replace (g / 64) with w by (Z.to_euclidean_division_equations; lia).
        apply Hlow. Z.to_euclidean_division_equations; lia.
      * cbn. rewrite F1. cbn. unfold set_frame. by rewrite Hdiv, Hmod.
Qed.

Lemma used_full_word bm w f : at_ 0 bm w = U64_MAX -> 0 <= f -> f / 64 = w -> used bm f = true.
Proof.
  intros E Hf <-. unfold used. rewrite E. apply testbit_u64_max.
  pose proof (frame_word_bit f Hf). lia.
Qed.

(** The scan from the hint passes every word below the one it stops at: all frames
    below the one it takes are used. *)
Lemma scan_below a f l1 w l2 :
  wf a -> zrange (hint a) (zlen (bitmap a)) ++ zrange 0 (hint a) = l1 ++ w :: l2 -> f / 64 = w ->
  0 <= f / 64 < zlen (bitmap a) ->
  (forall v, v ∈ l1 -> at_ 0 (bitmap a) v = U64_MAX) ->
  (forall g, 64 * w <= g < f -> used (bitmap a) g = true) ->
  forall g, 0 <= g < f -> used (bitmap a) g = true.
Proof.
  intros Hwf Hws Hw Hin Hl1 Hlow g Hg. pose proof (wf_hint _ Hwf) as Hh.
  destruct (decide (g < 64 * hint a)); [apply (wf_full _ Hwf); lia|].
  destruct (decide (64 * w <= g)); [apply Hlow; lia|].
  assert (hint a <= g / 64 < w) by (Z.to_euclidean_division_equations; lia).
  apply (used_full_word _ (g / 64)); [|lia|done]. apply Hl1.
  apply list_elem_of_lookup. exists (Z.to_nat (g / 64 - hint a)).
  assert (Hidx : forall i, 0 <= i < zlen (bitmap a) - hint a ->
            (l1 ++ w :: l2) !! Z.to_nat i = Some (hint a + i)).
  { intros i Hi. rewrite <- Hws. apply lookup_app_l_Some, lookup_seqZ. lia. }
  destruct (decide (g / 64 - hint a < zlen l1)) as [Hlt|Hge].
  - specialize (Hidx (g / 64 - hint a) ltac:(lia)).
    rewrite lookup_app_l in Hidx by (unfold zlen in Hlt; lia). rewrite Hidx. f_equal. lia.
  - specialize (Hidx (zlen l1) ltac:(pose proof (zlen_nonneg l1); lia)).
    unfold zlen in Hidx at 1. rewrite Nat2Z.id, list_lookup_middle in Hidx by done.
    simplify_eq. lia.
Qed.

(** [allocate] hands out the lowest free frame, or reports that none is left. *)
Lemma allocate_spec a :
  wf a ->
  match allocate a with
  | (Ok p, a') =>
      exists f, p = f * PAGE_SIZE /\ f ∈ free_set a /\ (forall g, g ∈ free_set a -> f <= g) /\
        total_frames a' = total_frames a /\ wf a' /\ free_set a' = free_set a ∖ {[f]}
  | (Err OutOfMemory, a') => a' = a /\ free_set a = ∅
  | _ => False
  end.
Proof.
  intros Hwf. unfold allocate, allocate_inner. pose proof (wf_hint _ Hwf) as Hh.
  pose proof (allocate_scan_spec a (zrange (hint a) (zlen (bitmap a)) ++ zrange 0 (hint a)) Hwf) as H.
  destruct (allocate_scan _ _) as [[p|[]| |] a'].
  2:{ destruct H as [-> H].
      { intros w. rewrite elem_of_app, !elem_of_zrange. lia. }
      split; [done|]. apply set_eq. intros f. split; [|done].
      intros [Hf Hu]%elem_of_free_set. pose proof (wf_in_bitmap _ _ Hwf Hf).
      rewrite (used_full_word _ (f / 64) f) in Hu; [done| |lia|done].
      apply H. rewrite elem_of_app, !elem_of_zrange. lia. }
  all: try (apply H; intros w; rewrite elem_of_app, !elem_of_zrange; lia).
  destruct H as (f & l1 & w & l2 & -> & Hf & Hws & Hw & Hl1 & Hlow & Hbm & Ht & Hfr & Hhint).
  { intros w. rewrite elem_of_app, !elem_of_zrange. lia. }
  apply elem_of_free_set in Hf as [Hf Hu].
  pose proof (wf_in_bitmap _ _ Hwf Hf) as Hin.
  pose proof (scan_below a f l1 w l2 Hwf Hws Hw Hin Hl1 Hlow) as Hbelow.
  destruct (note_alloc_fields a' (f * PAGE_SIZE) 1) as (F1 & F2 & F3 & F4 & _).
  exists f. split; [done|]. split; [by apply elem_of_free_set|]. split.
  { intros g [Hg Hug]%elem_of_free_set. apply Z.nlt_ge. intros ?.
    rewrite Hbelow in Hug by lia. done. }
  rewrite F2, Ht. split; [done|].
  apply (wf_update a); rewrite ?F1, ?F2, ?F3, ?F4, ?Hbm, ?Ht, ?Hhint; try done.
  - apply zlen_set_frame.
  - apply words_ok_set_frame; [lia|]. apply Hwf.
  - intros g Hg. rewrite used_set_frame by lia. destruct (Z.eqb_spec f g); [lia|done].
  - intros g. rewrite elem_of_difference, elem_of_singleton, elem_of_free_set.
    split.
    + intros [[Hg Hug] Hne]. rewrite used_set_frame by lia.
      destruct (Z.eqb_spec f g); (done || lia).
    + intros [Hg Hug]. rewrite used_set_frame in Hug by lia.
      destruct (Z.eqb_spec f g); [done|]. split; [done|lia].
  - rewrite Hfr, (wf_free _ Hwf), size_minus, size_singleton; [lia|].
    apply singleton_subseteq_l. by apply elem_of_free_set.
  - lia.
  - intros g Hg. rewrite used_set_frame by lia. destruct (Z.eqb_spec f g); [done|].
    apply Hbelow. Z.to_euclidean_division_equations; lia.
Qed.

(** [free] returns a used frame to the pool, and detects a double free. *)
Lemma free_spec a p :
  wf a -> 0 <= p ->
  let f := p / PAGE_SIZE in
  match free a p with
  | (Ok _, a') =>
      f < total_frames a /\ (f ∉ free_set a) /\
      total_frames a' = total_frames a /\ wf a' /\ free_set a' = free_set a ∪ {[f]}
  | (Err DoubleFree, a') =>
      f ∈ free_set a /\ total_frames a' = total_frames a /\ wf a' /\ free_set a' = free_set a /\
      double_frees a' = double_frees a + 1
  | (Err OutOfBounds, a') => total_frames a <= f /\ a' = a
  | _ => False
  end.
Proof.
  intros Hwf Hp f. assert (Hf0 : 0 <= f) by (apply Z.div_pos; [done|by cbv]).
  unfold free. fold f. destruct (Z.leb_spec (total_frames a) f) as [|Hlt]; [done|].
  change (Z.testbit (at_ 0 (bitmap a) (f / 64)) (f mod 64)) with (used (bitmap a) f).
  destruct (used (bitmap a) f) eqn:Hu; cbn [negb].
  2:{ split; [by apply elem_of_free_set|]. split; [done|].
      split; [|done]. destruct Hwf. by split. }
  assert (Hnf : f ∉ free_set a) by (rewrite elem_of_free_set, Hu; intros [? ?]; done).
  pose proof (wf_in_bitmap _ _ Hwf (conj Hf0 Hlt)) as Hin.
  split; [done|]. split; [done|].
  change (upd _ _ _) with (set_frame false (bitmap a) f).
  set (a1 := set_free_frames (set_bitmap a (set_frame false (bitmap a) f)) _).
  set (a2 := if f / 64 <? hint a1 then _ else _).
  assert (Ha2 : bitmap a2 = set_frame false (bitmap a) f /\ total_frames a2 = total_frames a /\
    free_frames a2 = free_frames a + 1 /\ hint a2 = Z.min (hint a) (f / 64)).
  { unfold a2. case_if; cbn in *; repeat split; lia. }
  clearbody a2. destruct Ha2 as (E1 & E2 & E3 & E4). split; [done|].
  pose proof (wf_hint _ Hwf).
  apply (wf_update a); rewrite ?E1, ?E2, ?E3, ?E4; try done.
  - apply zlen_set_frame.
  - by apply words_ok_set_frame, Hwf.
  - intros g Hg. rewrite used_set_frame by lia. destruct (Z.eqb_spec f g); [lia|done].
  - intros g. rewrite elem_of_union, elem_of_singleton, elem_of_free_set. split.
    + intros [[Hg Hug]| ->]; rewrite used_set_frame by lia;
        case_if; (done || lia).
    + intros [Hg Hug]. rewrite used_set_frame in Hug by lia.
      destruct (Z.eqb_spec f g); [by right|by left].
  - rewrite (wf_free _ Hwf), size_union by (by apply disjoint_singleton_r). rewrite size_singleton. lia.
  - lia.
  - intros g Hg. rewrite used_set_frame by lia. destruct (Z.eqb_spec f g) as [->|].
    + pose proof (frame_word_bit g ltac:(lia)). lia.
    + apply (wf_full _ Hwf). lia.
Qed.

(** ** Contiguous runs *)

Lemma mark_run_spec a f n :
  wf a -> 0 < n -> window f n ⊆ free_set a ->
  total_frames (mark_run a f n) = total_frames a /\
  wf (mark_run a f n) /\ free_set (mark_run a f n) = free_set a ∖ window f n.
Proof.
  intros Hwf Hn Hwin.
  assert (Hall : forall g, f <= g < f + n -> 0 <= g < total_frames a /\ used (bitmap a) g = false).
  { intros g Hg. apply elem_of_free_set, Hwin, elem_of_window. lia. }
  pose proof (Hall f ltac:(lia)) as [? _]. pose proof (Hall (f + n - 1) ltac:(lia)) as [? _].
  pose proof (wf_in_bitmap a (f + n - 1) Hwf ltac:(lia)).
  pose proof (frame_word_bit (f + n - 1) ltac:(lia)).
  pose proof (fun g => mark_window (bitmap a) f n g ltac:(lia) ltac:(lia) ltac:(lia) (wf_words _ Hwf)) as Hm.
  unfold mark_run.
  match goal with |- context [note_high_water ?x] => set (a1 := x) end.
  destruct (note_alloc_fields (note_high_water a1) (f * PAGE_SIZE) n) as (F1 & F2 & F3 & F4 & _).
  destruct (note_high_water_fields a1) as (G1 & G2 & G3 & G4).
  rewrite F2, G2. split; [done|].
  apply (wf_update a); rewrite ?F1, ?F2, ?F3, ?F4, ?G1, ?G2, ?G3, ?G4; cbn [bitmap total_frames a1 set_bitmap set_free_frames free_frames hint]; try done.
  - by apply (Hm 0).
  - by apply (Hm 0).
  - intros g Hg. destruct (Hm g ltac:(lia)) as (_ & _ & ->).
    destruct (Z.leb_spec f g), (Z.ltb_spec g (f + n)); cbn; (done || lia).
  - intros g. rewrite elem_of_difference, elem_of_window, elem_of_free_set. split.
    + intros [[Hg Hug] Hne]. split; [done|]. destruct (Hm g ltac:(lia)) as (_ & _ & ->).
      destruct (Z.leb_spec f g), (Z.ltb_spec g (f + n)); cbn; (done || lia).
    + intros [Hg Hug]. destruct (Hm g ltac:(lia)) as (_ & _ & E). rewrite E in Hug.
      destruct (Z.leb_spec f g), (Z.ltb_spec g (f + n)); cbn in Hug; try done;
        (split; [done|lia]).
  - rewrite (wf_free _ Hwf), size_minus by done. rewrite size_window by lia. done.
  - apply Hwf.
  - intros g Hg. destruct (Hm g ltac:(lia)) as (_ & _ & ->).
    case_if; [done|]. by apply (wf_full _ Hwf).
Qed.

(** The least candidate after a frame [p] below [total], or a panic when it
    leaves [usize]: what [next] has to compute.  Candidates are at most [gap]
    apart. *)
Record next_ok (total gap : Z) (cand : Z -> Prop) (next : Z -> outcome FrameError Z) : Prop := mkNextOk {
  next_cand : forall p g, 0 <= p < total -> next p = Ok g -> cand g /\ p < g <= p + gap;
  next_least : forall p g h, 0 <= p < total -> next p = Ok g -> cand h -> p < h -> g <= h;
  next_panics : forall p, 0 <= p < total ->
    is_ok (next p) = true \/ next p = Panic /\ U64_MAX < p + gap;
}.

(** [f] starts a free run of [n] frames. *)
Definition fits (S : gset Z) (n f : Z) : Prop := window f n ⊆ S.

Lemma run_loop_spec gap cand next n a fuel f :
  next_ok (total_frames a) gap cand next -> wf a -> 0 < n -> 0 <= f -> cand f ->
  f = 0 \/ n <= total_frames a /\ f < total_frames a + gap ->
  (1 <= fuel)%nat -> total_frames a - f + 1 < Z.of_nat fuel ->
  (forall g, cand g -> fits (free_set a) n g -> f <= g) ->
  match run_loop next fuel a n f with
  | (Ok p, a') =>
      exists g, p = g * PAGE_SIZE /\ cand g /\ fits (free_set a) n g /\
        (forall h, cand h -> fits (free_set a) n h -> g <= h) /\
        total_frames a' = total_frames a /\ wf a' /\ free_set a' = free_set a ∖ window g n
  | (Err OutOfMemory, a') => a' = a /\ forall g, cand g -> ~ fits (free_set a) n g
  | (Panic, a') => a' = a /\ (U64_MAX < n \/ U64_MAX < 2 * total_frames a + gap)
  | _ => False
  end.
Proof.
  intros Hnext Hwf Hn. revert f. induction fuel as [|fuel IH]; intros f Hf Hc Hb H1 Hfuel Hleast; [lia|].
  cbn [run_loop]. unfold add64 at 1. destruct (Z.leb_spec (f + n) U64_MAX) as [Hu|Hu]; cbn [obind]; [|split; [done|lia]].
  destruct (Z.leb_spec (f + n) (total_frames a)) as [Hle|Hgt].
  - destruct (first_used_in_spec a f n (wf_words _ Hwf) Hf ltac:(lia)) as (r & -> & Hr).
    destruct r as [p|]; cbn in Hr; cbn [obind].
    + destruct Hr as (Hp & Hup & _).
      destruct (next_panics _ _ _ _ Hnext p ltac:(lia)) as [Hok|[E Hbig]]; [|rewrite E; split; [done|lia]].
      destruct (next p) as [q| | |] eqn:E; try done. cbn [obind].
      destruct (next_cand _ _ _ _ Hnext p q ltac:(lia) E) as [Hcq Hq].
      apply IH; [lia|done|lia|lia|lia|].
      intros g Hg Hfit. pose proof (Hleast g Hg Hfit).
      apply (next_least _ _ _ _ Hnext p q g); [lia|done|done|]. apply Z.nle_gt. intros Hgp.
      assert (Hin : p ∈ free_set a) by (apply Hfit, elem_of_window; lia).
      apply elem_of_free_set in Hin as [_ Hin]. congruence.
    + assert (Hfit : fits (free_set a) n f).
      { intros g Hg%elem_of_window. apply elem_of_free_set. split; [lia|]. by apply Hr. }
      exists f. repeat split; try done; by apply mark_run_spec.
  - split; [done|]. intros g Hg Hfit. pose proof (Hleast g Hg Hfit).
    assert (Hin : g + n - 1 ∈ free_set a) by (apply Hfit, elem_of_window; lia).
    apply elem_of_free_set in Hin as [? _]. lia.
Qed.

Lemma next_ok_succ total : next_ok total 1 (fun g => 0 <= g) (fun p => add64 p 1).
Proof.
  unfold add64. split; intros p *; destruct (Z.leb_spec (p + 1) U64_MAX); intros; simplify_eq; cbn; try lia; auto.
Qed.

Lemma next_ok_align total al :
  0 < al -> next_ok total al (fun g => 0 <= g /\ (al | g))
    (fun p => let? x := add64 p 1 in mul64 (div_ceil x al) al).
Proof.
  intros Hal. unfold add64, mul64. split.
  - intros p g Hp. pose proof (div_ceil_spec (p + 1) al Hal ltac:(lia)).
    case_if; [|done]. cbn [obind]. case_if; [|done]. intros [= <-].
    split; [|lia]. split; [lia|]. apply Z.divide_factor_r.
  - intros p q g Hp E [Hg [k ->]] Hlt. case_in E; [|done]. cbn [obind] in E. case_in E; [|done]. injection E as <-.
    pose proof (div_ceil_spec (p + 1) al Hal ltac:(lia)).
    assert (div_ceil (p + 1) al < k + 1) by (apply (Z.mul_lt_mono_pos_r al); lia).
    apply Z.mul_le_mono_nonneg_r; lia.
  - intros p Hp. pose proof (div_ceil_spec (p + 1) al Hal ltac:(lia)).
    case_if; cbn [obind]; [|right; split; [done|lia]]. case_if; [by left|right; split; [done|lia]].
Qed.

(** ** Refinement of the abstract allocator *)

(** The operations of the allocator's interface; [Ok] of [free] carries the
    address that was freed. *)
Inductive op :=
| OpAllocate
| OpContiguous (count : Z)
| OpAligned (count align : Z)
| OpFree (phys : Z).

(** The arguments are [usize]/[u64] values. *)
Definition op_typed (o : op) : Prop :=
  match o with
  | OpAllocate => True
  | OpContiguous n => 0 <= n
  | OpAligned n al => 0 <= n /\ 0 <= al
  | OpFree p => 0 <= p
  end.

Definition exec (a : FrameAllocator) (o : op) : outcome FrameError Z * FrameAllocator :=
  match o with
  | OpAllocate => allocate a
  | OpContiguous n => allocate_contiguous a n
  | OpAligned n al => allocate_aligned a n al
  | OpFree p =>
      match free a p with
      | (Ok _, a') => (Ok p, a')
      | (Err e, a') => (Err e, a')
      | (Panic, a') => (Panic, a')
      | (OutOfFuel, a') => (OutOfFuel, a')
      end
  end.

(** The arguments for which a sum or a product of the search leaves [usize]. *)
Definition overflows (total : Z) (o : op) : Prop :=
  match o with
  | OpContiguous n => U64_MAX < n \/ U64_MAX < 2 * total + 1
  | OpAligned n al => U64_MAX < n \/ U64_MAX < 2 * total + al
  | _ => False
  end.

(** The specification: [S] is the set of free frames among [0 .. total - 1]. *)
Inductive spec (total : Z) (S : gset Z) : op -> outcome FrameError Z -> gset Z -> Prop :=
| spec_allocate f :
    f ∈ S -> (forall g, g ∈ S -> f <= g) ->
    spec total S OpAllocate (Ok (f * PAGE_SIZE)) (S ∖ {[f]})
| spec_allocate_oom :
    S = ∅ -> spec total S OpAllocate (Err OutOfMemory) S
| spec_contiguous n f :
    0 < n -> 0 <= f -> fits S n f -> (forall g, 0 <= g -> fits S n g -> f <= g) ->
    spec total S (OpContiguous n) (Ok (f * PAGE_SIZE)) (S ∖ window f n)
| spec_contiguous_oom n :
    0 < n -> (forall g, 0 <= g -> ~ fits S n g) ->
    spec total S (OpContiguous n) (Err OutOfMemory) S
| spec_contiguous_zero :
    spec total S (OpContiguous 0) (Err OutOfBounds) S
| spec_aligned n al f :
    0 < n -> 0 < al -> 0 <= f -> (al | f) -> fits S n f ->
    (forall g, 0 <= g -> (al | g) -> fits S n g -> f <= g) ->
    spec total S (OpAligned n al) (Ok (f * PAGE_SIZE)) (S ∖ window f n)
| spec_aligned_oom n al :
    0 < n -> 0 < al -> (forall g, 0 <= g -> (al | g) -> ~ fits S n g) ->
    spec total S (OpAligned n al) (Err OutOfMemory) S
| spec_aligned_zero n al :
    n = 0 \/ al = 0 -> spec total S (OpAligned n al) (Err OutOfBounds) S
| spec_free p :
    p / PAGE_SIZE < total -> p / PAGE_SIZE ∉ S ->
    spec total S (OpFree p) (Ok p) (S ∪ {[p / PAGE_SIZE]})
| spec_free_double p :
    p / PAGE_SIZE ∈ S -> spec total S (OpFree p) (Err DoubleFree) S
| spec_free_oob p :
    total <= p / PAGE_SIZE -> spec total S (OpFree p) (Err OutOfBounds) S
| spec_overflow o :
    overflows total o -> spec total S o Panic S.

Lemma run_fuel_enough a : wf a -> (1 <= run_fuel a)%nat /\ total_frames a - 0 + 1 < Z.of_nat (run_fuel a).
Proof. intros [? _ _ _ _ _ _]. unfold run_fuel. lia. Qed.

Lemma exec_sound a o :
  wf a -> op_typed o ->
  let '(r, a') := exec a o in
  spec (total_frames a) (free_set a) o r (free_set a') /\
  total_frames a' = total_frames a /\ wf a'.
Proof.
  intros Hwf Ho. destruct (run_fuel_enough a Hwf) as [Hf1 Hf2].
  destruct o as [|n|n al|p]; cbn [exec op_typed] in *.
  - pose proof (allocate_spec a Hwf) as H.
    destruct (allocate a) as [[p|[]| |] a']; try done.
    + destruct H as (f & -> & ? & ? & ? & ? & ->). split; [by constructor|done].
    + destruct H as [-> ?]. split; [by constructor|done].
  - unfold allocate_contiguous. destruct (Z.eqb_spec n 0) as [->|Hn]; [split; [constructor|done]|].
    pose proof (run_loop_spec _ _ _ n a (run_fuel a) 0 (next_ok_succ _) Hwf ltac:(lia) ltac:(lia)
      ltac:(cbn; lia) ltac:(by left) Hf1 Hf2 ltac:(done)) as H.
    destruct (run_loop _ _ _ _ _) as [[p|[]| |] a']; try done.
    + destruct H as (f & -> & ? & ? & ? & ? & ? & ->). split; [|done]. constructor; (done || lia).
    + destruct H as [-> ?]. split; [|done]. constructor; (done || lia).
    + destruct H as [-> ?]. split; [by constructor|done].
  - unfold allocate_aligned. destruct (Z.eqb_spec n 0) as [->|Hn], (Z.eqb_spec al 0) as [->|Hal];
      cbn [orb]; try (split; [constructor; tauto|done]).
    pose proof (run_loop_spec _ _ _ n a (run_fuel a) 0 (next_ok_align _ al ltac:(lia)) Hwf ltac:(lia)
      ltac:(lia) ltac:(split; [lia|apply Z.divide_0_r]) ltac:(by left) Hf1 Hf2 ltac:(intros ? []; done)) as H.
    destruct (run_loop _ _ _ _ _) as [[p|[]| |] a']; try done.
    + destruct H as (f & -> & [? ?] & ? & ? & ? & ? & ->). split; [|done].
      constructor; try (done || lia). auto.
    + destruct H as [-> ?]. split; [|done]. constructor; try (done || lia). auto.
    + destruct H as [-> ?]. split; [by constructor|done].
  - pose proof (free_spec a p Hwf Ho) as H. cbn zeta in H.
    destruct (free a p) as [[u|[]| |] a']; try done.
    + destruct H as (? & ? & ? & ? & ->). split; [by constructor|done].
    + destruct H as (? & ? & ? & -> & _). split; [by constructor|done].
    + destruct H as [? ->]. split; [by constructor|done].
Qed.

(** ** Construction from the firmware memory map *)

Lemma set_frames_range u bm lo hi g :
  0 <= lo -> hi <= 64 * zlen bm -> words_ok bm -> 0 <= g ->
  let bm' := foldl (set_frame u) bm (zrange lo hi) in
  words_ok bm' /\ zlen bm' = zlen bm /\
  used bm' g = if (lo <=? g) && (g <? hi) then u else used bm g.
Proof.
  intros Hlo. destruct (decide (hi <= lo)) as [Hle|Hgt].
  { intros _ Hok Hg. rewrite zrange_nil by done. cbn. split_and!; [done..|].
    destruct (Z.leb_spec lo g), (Z.ltb_spec g hi); cbn; (done || lia). }
  replace hi with (lo + (hi - lo)) by lia.
  generalize (hi - lo) as n, (ltac:(lia) : 0 <= hi - lo). clear hi Hgt.
  intros n Hn. revert bm g. revert n Hn. refine (natlike_ind _ _ _).
  - intros bm g Hlen Hok Hg. rewrite zrange_nil by lia. cbn. split_and!; [done..|].
    destruct (Z.leb_spec lo g), (Z.ltb_spec g (lo + 0)); cbn; (done || lia).
  - intros n Hn IH bm g Hlen Hok Hg. unfold Z.succ in *. rewrite Z.add_assoc, zrange_snoc by lia.
    rewrite foldl_app. cbn [foldl].
    destruct (IH bm g ltac:(lia) Hok Hg) as (IH1 & IH2 & IH3).
    set (bm1 := foldl _ bm (zrange lo (lo + n))) in *. clearbody bm1.
    pose proof (frame_word_bit (lo + n) ltac:(lia)).
    split_and!; [by apply words_ok_set_frame; [lia|]|by rewrite zlen_set_frame|].
    rewrite used_set_frame, IH3 by lia.
    destruct (Z.eqb_spec (lo + n) g), (Z.leb_spec lo g), (Z.ltb_spec g (lo + n)),
      (Z.ltb_spec g (lo + n + 1)); cbn; (done || lia).
Qed.

(** The shape every intermediate allocator of [from_regions] has. *)
Record shaped (a : FrameAllocator) : Prop := mkShaped {
  sh_total : 0 <= total_frames a;
  sh_len : zlen (bitmap a) = div_ceil (total_frames a) 64;
  sh_words : words_ok (bitmap a);
  sh_tail : forall f, total_frames a <= f < 64 * zlen (bitmap a) -> used (bitmap a) f = true;
  sh_hint : hint a = 0;
}.

(** The frames a byte range covers, as [set_range] rounds it. *)
Definition in_range (start len f : Z) : Prop :=
  start / PAGE_SIZE <= f < start / PAGE_SIZE + len / PAGE_SIZE.

#[global] Instance in_range_dec start len f : Decision (in_range start len f).
Proof. unfold in_range. apply _. Defined.

Lemma set_range_spec a start len u :
  shaped a -> 0 <= start ->
  shaped (set_range a start len u) /\
  total_frames (set_range a start len u) = total_frames a /\
  forall f, 0 <= f < total_frames a ->
    used (bitmap (set_range a start len u)) f =
      if decide (in_range start len f) then u else used (bitmap a) f.
Proof.
  intros [Ht Hl Hw Htail Hh] Hs. unfold set_range.
  pose proof (div_ceil_spec (total_frames a) 64 ltac:(lia) Ht).
  assert (0 <= start / PAGE_SIZE) by (apply Z.div_pos; [done|by cbv]).
  set (lo := start / PAGE_SIZE) in *.
  set (hi := Z.min (lo + len / PAGE_SIZE) (total_frames a)).
  pose proof (fun g => set_frames_range u (bitmap a) lo hi g ltac:(lia) ltac:(lia) Hw) as Hm.
  split; [split; cbn; try done|split; [done|]].
  - destruct (Hm 0 ltac:(lia)) as (_ & -> & _). done.
  - by apply (Hm 0).
  - intros f. destruct (Hm 0 ltac:(lia)) as (_ & -> & _). intros Hf.
    destruct (Hm f ltac:(lia)) as (_ & _ & ->).
    destruct (Z.leb_spec lo f), (Z.ltb_spec f hi); cbn; (lia || by apply Htail).
  - intros f Hf. cbn. destruct (Hm f ltac:(lia)) as (_ & _ & ->).
    unfold in_range. fold lo.
    destruct (decide _), (Z.leb_spec lo f), (Z.ltb_spec f hi); cbn; (done || lia).
Qed.

(** Region [r] covers frame [f]. *)
Definition covers (u : bool) (rs : list MemoryRegion) (f : Z) : Prop :=
  Exists (fun r => mr_usable r = u /\ in_range (mr_start r) (mr_len r) f) rs.

#[global] Instance covers_dec u rs f : Decision (covers u rs f).
Proof. unfold covers. apply _. Defined.

Lemma mark_regions_spec u a rs :
  shaped a -> Forall (fun r => 0 <= mr_start r) rs ->
  shaped (mark_regions u a rs) /\
  total_frames (mark_regions u a rs) = total_frames a /\
  forall f, 0 <= f < total_frames a ->
    used (bitmap (mark_regions u a rs)) f =
      if decide (covers (negb u) rs f) then u else used (bitmap a) f.
Proof.
  unfold mark_regions. intros Hsh Hrs. revert a Hsh.
  induction Hrs as [|r rs Hr Hrs IH]; intros a Hsh; cbn.
  { split; [done|]. split; [done|]. intros f Hf.
    rewrite decide_False; [done|]. by intros ?%Exists_nil. }
  destruct (eqb (mr_usable r) (negb u)) eqn:E; cbn.
  - apply eqb_prop in E.
    destruct (set_range_spec a (mr_start r) (mr_len r) u Hsh Hr) as (S1 & S2 & S3).
    destruct (IH _ S1) as (I1 & I2 & I3). rewrite S2 in I2, I3.
    split; [done|]. split; [done|]. intros f Hf. rewrite I3, S3 by done.
    repeat case_decide; try done; exfalso; unfold covers in *;
      rewrite ?Exists_cons in *; tauto.
  - apply eqb_false_iff in E. destruct (IH _ Hsh) as (I1 & I2 & I3).
    split; [done|]. split; [done|]. intros f Hf. rewrite I3 by done.
    repeat case_decide; try done; exfalso; unfold covers in *;
      rewrite ?Exists_cons in *; tauto.
Qed.

Lemma shaped_new n : 0 <= n -> shaped (new n).
Proof.
  intros Hn. pose proof (div_ceil_spec n 64 ltac:(lia) Hn).
  split; cbn; try done.
  - apply zlen_zrepeat. lia.
  - unfold words_ok, zrepeat. apply Forall_replicate. ulia.
  - rewrite zlen_zrepeat by lia. intros f Hf. unfold used.
    rewrite at_zrepeat by (Z.to_euclidean_division_equations; lia).
    apply testbit_u64_max. Z.to_euclidean_division_equations; lia.
Qed.

Lemma used_new n f : 0 <= f < n -> used (bitmap (new n)) f = true.
Proof.
  intros Hf. pose proof (div_ceil_spec n 64 ltac:(lia) ltac:(lia)). unfold used. cbn.
  rewrite at_zrepeat by (Z.to_euclidean_division_equations; lia).
  apply testbit_u64_max. Z.to_euclidean_division_equations; lia.
Qed.

Lemma recount_spec a :
  free_frames (recount a) = Z.of_nat (size (free_set a)).
Proof.
  unfold recount, free_set. cbn. generalize (NoDup_seqZ 0 (total_frames a - 0)).
  fold (zrange 0 (total_frames a)). generalize (zrange 0 (total_frames a)) as l. intros l Hnd.
  rewrite size_list_to_set by by apply NoDup_filter.
  change (Z.of_nat (length (filter (fun f => used (bitmap a) f = false) l)))
    with (0 + Z.of_nat (length (filter (fun f => used (bitmap a) f = false) l))) at 1.
  generalize 0 as acc. induction Hnd as [|f l Hf Hnd IH]; intros acc; [cbn; lia|].
  cbn [foldl]. rewrite IH, filter_cons. destruct (used (bitmap a) f) eqn:E; cbn [negb].
  - by rewrite decide_False.
  - rewrite decide_True by done. cbn [length]. lia.
Qed.

Lemma highest_usable_ok rs acc :
  0 <= acc ->
  Forall (fun r => 0 <= mr_start r /\ 0 <= mr_len r /\ mr_start r + mr_len r <= U64_MAX) rs ->
  exists h, highest_usable rs acc = Ok h /\ acc <= h <= Z.max acc U64_MAX /\
    Forall (fun r => mr_usable r = true -> mr_start r + mr_len r <= h) rs.
Proof.
  intros Hacc Hrs. revert acc Hacc. induction Hrs as [|r rs Hr Hrs IH]; intros acc Hacc; cbn.
  { exists acc. split; [done|]. split; [lia|done]. }
  destruct (mr_usable r) eqn:E.
  - unfold add64. destruct (Z.leb_spec (mr_start r + mr_len r) U64_MAX); [|lia]. cbn.
    destruct (IH (Z.max acc (mr_start r + mr_len r)) ltac:(lia)) as (h & -> & ? & ?).
    exists h. split; [done|]. split; [lia|]. constructor; [lia|done].
  - destruct (IH acc Hacc) as (h & -> & ? & ?).
    exists h. split; [done|]. split; [lia|]. constructor; [congruence|done].
Qed.

Lemma from_regions_sound rs reserve_below :
  Forall (fun r => 0 <= mr_start r /\ 0 <= mr_len r /\ mr_start r + mr_len r <= U64_MAX) rs ->
  0 <= reserve_below ->
  exists a,
    from_regions rs reserve_below = Ok a /\ wf a /\
    (exists h, total_frames a = h / PAGE_SIZE /\ h <= U64_MAX /\
       forall r, r ∈ rs -> mr_usable r = true -> mr_start r + mr_len r <= h) /\
    (forall f, f ∈ free_set a <->
       0 <= f < total_frames a /\ covers true rs f /\ ~ covers false rs f /\
       reserve_below / PAGE_SIZE <= f) /\
    free_frames a = Z.of_nat (size (free_set a)) /\
    usable_total a = free_frames a.
Proof.
  intros Hrs Hrb. unfold from_regions.
  destruct (highest_usable_ok rs 0 ltac:(lia) Hrs) as (h & -> & Hh & Hmax). cbn [obind].
  assert (Hrs' : Forall (fun r => 0 <= mr_start r) rs).
  { eapply Forall_impl; [exact Hrs|]. intros r (? & _). done. }
  assert (Ht : 0 <= h / PAGE_SIZE) by (apply Z.div_pos; [lia|by cbv]).
  destruct (mark_regions_spec false (new (h / PAGE_SIZE)) rs (shaped_new _ Ht) Hrs') as (A1 & A2 & A3).
  destruct (mark_regions_spec true _ rs A1 Hrs') as (B1 & B2 & B3).
  destruct (set_range_spec _ 0 reserve_below true B1 ltac:(lia)) as (C1 & C2 & C3).
  set (a3 := set_range _ 0 reserve_below true) in *.
  rewrite B2, A2 in C2, C3. rewrite A2 in B3.
  change (total_frames (new (h / PAGE_SIZE))) with (h / PAGE_SIZE) in *.
  exists (set_usable_total (recount a3) (free_frames (recount a3))).
  assert (Hfs : free_set (set_usable_total (recount a3) (free_frames (recount a3))) = free_set a3) by done.
  assert (Hmem : forall f, f ∈ free_set a3 <->
    0 <= f < total_frames a3 /\ covers true rs f /\ ~ covers false rs f /\ reserve_below / PAGE_SIZE <= f).
  { intros f. rewrite elem_of_free_set, C2. split.
    - intros [Hf Hu]. rewrite C3, B3, A3 in Hu by done.
      rewrite used_new in Hu by done. unfold in_range in Hu.
      change (0 / PAGE_SIZE) with 0 in Hu.
      repeat case_decide; try done. split_and!; try done; lia.
    - intros (Hf & Hc1 & Hc2 & Hlow). split; [done|]. rewrite C3, B3, A3 by done.
      rewrite decide_False by (unfold in_range; change (0 / PAGE_SIZE) with 0; lia).
      rewrite decide_False by done. by rewrite decide_True. }
  split; [done|]. split.
  - destruct C1 as [D1 D2 D3 D4 D5].
    split; rewrite ?Hfs; try done; [apply recount_spec| |].
    + change (0 <= hint a3 <= zlen (bitmap a3)). rewrite D5. split; [done|apply zlen_nonneg].
    + change (forall f, 0 <= f < 64 * hint a3 -> used (bitmap a3) f = true).
      rewrite D5. intros; lia.
  - split; [exists h; split; [exact C2|]; split; [unfold U64_MAX in *; lia|rewrite Forall_forall in Hmax; exact Hmax]|].
    rewrite Hfs. split; [apply Hmem|]. split; [apply recount_spec|done].
Qed.

(** ** Outstanding allocations never overlap *)

Fixpoint run (a : FrameAllocator) (ops : list op) : list (outcome FrameError Z) * FrameAllocator :=
  match ops with
  | [] => ([], a)
  | o :: os =>
      let '(r, a1) := exec a o in
      let '(rs, a2) := run a1 os in
      (r :: rs, a2)
  end.

(** The frames an operation that returned [r] handed to its caller. *)
Definition granted (o : op) (r : outcome FrameError Z) : gset Z :=
  match o, r with
  | OpAllocate, Ok p => {[p / PAGE_SIZE]}
  | OpContiguous n, Ok p => window (p / PAGE_SIZE) n
  | OpAligned n _, Ok p => window (p / PAGE_SIZE) n
  | _, _ => ∅
  end.

(** The frame an operation gave back. *)
Definition released (o : op) (r : outcome FrameError Z) : gset Z :=
  match o, r with
  | OpFree p, Ok _ => {[p / PAGE_SIZE]}
  | _, _ => ∅
  end.

Lemma page_div f : f * PAGE_SIZE / PAGE_SIZE = f.
Proof. apply Z.div_mul. by cbv. Qed.

(** One step: granted frames were free and no longer are; only a release
    makes a frame free. *)
Lemma spec_step total S o r S' :
  spec total S o r S' ->
  granted o r ⊆ S /\ granted o r ## S' /\ forall f, f ∈ S' -> f ∈ S \/ f ∈ released o r.
Proof.
  intros H. destruct H as [| | | | | | | | | | |o Hb]; [..|by destruct o; set_solver]; cbn; rewrite ?page_div; unfold fits in *; set_solver.
Qed.

(** A frame that is in use is granted again only after a release. *)
Lemma regrant a ops rs a' j oj rj f :
  wf a -> Forall op_typed ops -> run a ops = (rs, a') -> f ∉ free_set a ->
  ops !! j = Some oj -> rs !! j = Some rj -> f ∈ granted oj rj ->
  exists k ok rk, (k < j)%nat /\ ops !! k = Some ok /\ rs !! k = Some rk /\ f ∈ released ok rk.
Proof.
  intros Hwf Hops. revert a rs j Hwf. induction Hops as [|o ops Ho Hops IH];
    intros a rs j Hwf Hrun Hf Hoj Hrj Hfj; [done|]. cbn in Hrun.
  pose proof (exec_sound a o Hwf Ho) as Hstep. destruct (exec a o) as [r a1].
  destruct (run a1 ops) as [rs' a2] eqn:E. simplify_eq.
  destruct Hstep as (Hspec & _ & Hwf1). apply spec_step in Hspec as (H1 & H2 & H3).
  destruct j as [|j]; cbn in Hoj, Hrj; simplify_eq; [by apply H1 in Hfj|].
  destruct (decide (f ∈ free_set a1)) as [Hin|Hin].
  - apply H3 in Hin as [Hin|Hin]; [done|]. exists 0%nat, o, r. split; [lia|done].
  - destruct (IH a1 rs' j Hwf1 E Hin Hoj Hrj Hfj) as (k & ok & rk & ? & ? & ? & ?).
    exists (S k), ok, rk. split; [lia|done].
Qed.

(** Every frame has a [u64] address, as [from_regions] provides. *)
Definition sized (a : FrameAllocator) : Prop := total_frames a * PAGE_SIZE <= U64_MAX.

(** [usize] arguments, with an alignment of at most [2^63] frames. *)
Definition usize_args (o : op) : Prop :=
  match o with
  | OpContiguous n => n <= U64_MAX
  | OpAligned n al => n <= U64_MAX /\ al <= 2 ^ 63
  | _ => True
  end.

Lemma spec_returns total S o r S' :
  0 <= total -> total * PAGE_SIZE <= U64_MAX -> usize_args o -> spec total S o r S' -> returns r.
Proof.
  intros H0 Hs Ho H. destruct H as [| | | | | | | | | | |o Hb]; try by split.
  exfalso. unfold PAGE_SIZE, U64_MAX in *. destruct o; cbn in *; unfold U64_MAX in *; lia.
Qed.

(** C10: every operation of the bitmap allocator, on every branch, does exactly
    what the free-set specification says (lowest frame, first fit, first
    aligned fit, exact double-free detection), never loops, and keeps the
    allocator well formed.  The searches compute in [usize]: they panic only
    for an alignment (or a number of frames) so large that a sum leaves the
    type, and not at all for [usize] arguments with an alignment of at most
    [2^63] frames on an allocator whose frames have [u64] addresses. *)
Theorem exec_refines a o :
  wf a -> op_typed o ->
  let '(r, a') := exec a o in
  spec (total_frames a) (free_set a) o r (free_set a') /\
  total_frames a' = total_frames a /\ wf a' /\
  (sized a -> usize_args o -> returns r).
Proof.
  intros Hwf Ho. pose proof (exec_sound a o Hwf Ho) as H. destruct (exec a o) as [r a'].
  destruct H as (H1 & H2 & H3). split_and!; try done. intros Hs Hu.
  by apply (spec_returns _ _ _ _ _ (wf_total _ Hwf) Hs Hu H1).
Qed.

(** An alignment near [usize::MAX] overflows the round-up of the search. *)
Lemma huge_alignment_panics :
  fst (exec (mkFA [1] 64 63 64 0 0 None 0) (OpAligned 1 U64_MAX)) = Panic.
Proof. by vm_compute. Qed.

(** Bytes of a region, bytes of a frame. *)
Definition in_region (r : MemoryRegion) (b : Z) : Prop := mr_start r <= b < mr_start r + mr_len r.
Definition in_frame (f b : Z) : Prop := f * PAGE_SIZE <= b < (f + 1) * PAGE_SIZE.

Definition page_aligned (r : MemoryRegion) : Prop := (PAGE_SIZE | mr_start r) /\ (PAGE_SIZE | mr_len r).

Lemma in_range_bytes r f :
  page_aligned r ->
  (in_range (mr_start r) (mr_len r) f <-> forall b, in_frame f b -> in_region r b) /\
  (~ in_range (mr_start r) (mr_len r) f <-> forall b, in_frame f b -> ~ in_region r b).
Proof.
  intros [[s Es] [l El]]. unfold in_range, in_region, in_frame, PAGE_SIZE in *. rewrite Es, El, !Z.div_mul by done.
  split; split.
  - intros H b Hb. lia.
  - intros H. pose proof (H (f * 4096) ltac:(lia)). lia.
  - intros H b Hb. lia.
  - intros H Hr. apply (H (f * 4096)); lia.
Qed.

(** C11: from any firmware map of page-aligned regions that end below [2^64], and
    a page-aligned amount of low memory to reserve, [from_regions] returns a
    well-formed allocator whose frames have [u64] addresses.  A frame is free
    exactly when all its bytes are in one usable region, none of them is in an
    unusable region, and it lies above the reserved low memory; the free counter
    and the installed-RAM figure are the number of those frames. *)
Theorem from_regions_spec rs reserve_below :
  Forall (fun r => 0 <= mr_start r /\ 0 <= mr_len r /\ mr_start r + mr_len r <= U64_MAX) rs ->
  Forall page_aligned rs -> 0 <= reserve_below -> (PAGE_SIZE | reserve_below) ->
  exists a,
    from_regions rs reserve_below = Ok a /\ wf a /\ sized a /\
    (forall f, f ∈ free_set a <->
       (exists r, r ∈ rs /\ mr_usable r = true /\ forall b, in_frame f b -> in_region r b) /\
       (forall r b, r ∈ rs -> mr_usable r = false -> in_frame f b -> ~ in_region r b) /\
       (forall b, in_frame f b -> reserve_below <= b)) /\
    free_frames a = Z.of_nat (size (free_set a)) /\
    usable_total a = free_frames a.
Proof.
  intros Hrs Hal Hrb [k Hk]. destruct (from_regions_sound rs reserve_below Hrs Hrb) as (a & E & Hwf & Ht & Hf & Hc & Hu).
  exists a. rewrite Forall_forall in Hrs, Hal. split_and!; try done.
  - destruct Ht as (h & Et & Hh & _). unfold sized. rewrite Et. pose proof (Z.mul_div_le h PAGE_SIZE ltac:(done)). lia.
  - intros f. rewrite Hf. unfold covers. rewrite !Exists_exists. rewrite Hk, Z.div_mul by done. split.
    + intros (Hft & (r & Hr & Hus & Hin) & Hno & Hlow). split_and!.
      * exists r. split_and!; try done. by apply (in_range_bytes r f (Hal r Hr)).
      * intros r' b Hr' Hus' Hb. apply (proj2 (in_range_bytes r' f (Hal r' Hr'))); [|done]. intros Hin'. apply Hno. eauto.
      * intros b Hb. unfold in_frame, PAGE_SIZE in *. lia.
    + intros ((r & Hr & Hus & Hin) & Hno & Hlow).
      pose proof (Hin (f * PAGE_SIZE) ltac:(unfold in_frame, PAGE_SIZE; lia)) as B1.
      pose proof (Hin (f * PAGE_SIZE + 4095) ltac:(unfold in_frame, PAGE_SIZE; lia)) as B2.
      split; [|split; [|split]].
      * destruct (Hrs r Hr) as (? & ? & ?). destruct Ht as (h & -> & _ & Hh). pose proof (Hh r Hr Hus).
        unfold in_region, PAGE_SIZE in *. Z.to_euclidean_division_equations; lia.
      * exists r. split_and!; try done. by apply (in_range_bytes r f (Hal r Hr)).
      * intros (r' & Hr' & Hus' & Hin'). revert Hin'. apply (proj2 (in_range_bytes r' f (Hal r' Hr'))). intros b. by apply Hno.
      * pose proof (Hlow (f * PAGE_SIZE) ltac:(unfold in_frame, PAGE_SIZE; lia)). unfold PAGE_SIZE in *. lia.
Qed.

(** A reserved region that is not page-aligned loses its last page: both its start
    and its length are rounded down. *)
Lemma unaligned_region_leaks :
  let rs := [mkRegion 0 16384 true; mkRegion 2048 6144 false] in
  is_ok (let? a := from_regions rs 0 in if decide (1 ∈ free_set a) then Ok tt else Err OutOfMemory) = true /\
  in_region (mkRegion 2048 6144 false) 4096 /\ in_frame 1 4096.
Proof. split; [by vm_compute|]. unfold in_region, in_frame, PAGE_SIZE. cbn. lia. Qed.

(** C12: over any sequence of allocator calls, a frame granted twice was freed
    in between: two outstanding allocations never share a frame. *)
Theorem grants_disjoint a ops rs a' i j oi oj ri rj f :
  wf a -> Forall op_typed ops -> run a ops = (rs, a') ->
  (i < j)%nat -> ops !! i = Some oi -> ops !! j = Some oj ->
  rs !! i = Some ri -> rs !! j = Some rj ->
  f ∈ granted oi ri -> f ∈ granted oj rj ->
  exists k ok rk, (i < k < j)%nat /\ ops !! k = Some ok /\ rs !! k = Some rk /\ f ∈ released ok rk.
Proof.
  intros Hwf Hops. revert a rs i j Hwf. induction Hops as [|o ops Ho Hops IH];
    intros a rs i j Hwf Hrun Hij Hoi Hoj Hri Hrj Hfi Hfj; [done|]. cbn in Hrun.
  pose proof (exec_sound a o Hwf Ho) as Hstep. destruct (exec a o) as [r a1].
  destruct (run a1 ops) as [rs' a2] eqn:E. simplify_eq.
  destruct Hstep as (Hspec & _ & Hwf1). apply spec_step in Hspec as (H1 & H2 & H3).
  destruct j as [|j]; [lia|]. cbn in Hoj, Hrj. destruct i as [|i]; cbn in *.
  - simplify_eq.
    destruct (regrant a1 ops rs' a' j oj rj f Hwf1 Hops E) as (k & ok & rk & ? & ? & ? & ?); try done.
    { intros Hin. by apply (H2 f). }
    exists (S k), ok, rk. split; [lia|done].
  - destruct (IH a1 rs' i j Hwf1 E ltac:(lia) Hoi Hoj Hri Hrj Hfi Hfj) as (k & ok & rk & ? & ? & ? & ?).
    exists (S k), ok, rk. split; [lia|done].
Qed.

(** ** Witnesses: a machine with 1 MiB reserved and 64 KiB of RAM above it *)

Definition demo_map : list MemoryRegion :=
  [mkRegion 0 1048576 false; mkRegion 1048576 65536 true].

Definition demo : FrameAllocator :=
  match from_regions demo_map 1048576 with Ok a => a | _ => new 0 end.

Lemma demo_map_ok :
  Forall (fun r => 0 <= mr_start r /\ 0 <= mr_len r /\ mr_start r + mr_len r <= U64_MAX) demo_map.
Proof. repeat constructor; cbn; ulia. Qed.

Lemma demo_wf : wf demo.
Proof.
  unfold demo. destruct (from_regions_sound demo_map 1048576 demo_map_ok ltac:(lia)) as (a & -> & H & _).
  done.
Qed.

Lemma from_regions_spec_witness :
  exists a, from_regions demo_map 1048576 = Ok a /\ free_frames a = 16.
Proof.
  destruct (from_regions_spec demo_map 1048576 demo_map_ok) as (a & E & _);
    [repeat constructor; apply Z.mod_divide; done|lia|by apply Z.mod_divide|].
  exists a. split; [exact E|]. revert E. vm_compute. by intros [= <-].
Defined.

Lemma exec_refines_witness :
  fst (exec demo (OpAligned 4 8)) = Ok (256 * PAGE_SIZE) /\
  wf (snd (exec demo (OpAligned 4 8))).
Proof.
  split; [by vm_compute|].
  pose proof (exec_refines demo (OpAligned 4 8) demo_wf ltac:(cbn; lia)) as H.
  destruct (exec demo (OpAligned 4 8)) as [r a']. apply H.
Defined.

Definition demo_ops : list op :=
  [OpContiguous 3; OpFree (257 * PAGE_SIZE); OpAllocate].

Lemma grants_disjoint_witness :
  exists k ok rk, (0 < k < 2)%nat /\ demo_ops !! k = Some ok /\
    fst (run demo demo_ops) !! k = Some rk /\ 257 ∈ released ok rk.
Proof.
  apply (grants_disjoint demo demo_ops (fst (run demo demo_ops)) (snd (run demo demo_ops))
           0 2 (OpContiguous 3) OpAllocate (Ok (256 * PAGE_SIZE)) (Ok (257 * PAGE_SIZE)) 257).
  - exact demo_wf.
  - repeat constructor; cbn; unfold PAGE_SIZE; lia.
  - by destruct (run demo demo_ops).
  - lia.
  - done.
  - done.
  - by vm_compute.
  - by vm_compute.
  - cbn [granted]. rewrite page_div. apply elem_of_window. lia.
  - cbn [granted]. rewrite page_div. apply elem_of_singleton. done.
Defined.

End Frame.
