(* ===== verification/Swap.v ===== *)
(** EuroMM, swapping ([src/crates/euromm/src/swap.rs]).

    The swap-slot allocator and the CLOCK (second-chance) page-replacement
    policy.  Slot and ring positions are [nat] (a [usize] that only indexes a
    [Vec]); frame addresses are [Z]. *)

From S2P Require Import Prelude.

Module Swap.

(** ** Swap slots *)

Record SwapArea := mkSwap {
  used : list bool;
  used_count : Z;
}.

Definition new (slots : nat) : SwapArea := mkSwap (replicate slots false) 0.

(** [iter().position(p)] *)
Fixpoint position {A} (p : A -> bool) (l : list A) : option nat :=
  match l with
  | [] => None
  | x :: l' => if p x then Some 0%nat else S <$> position p l'
  end.

Definition alloc (a : SwapArea) : option nat * SwapArea :=
  match position negb (used a) with
  | None => (None, a)
  | Some s => (Some s, mkSwap (<[s := true]> (used a)) (used_count a + 1))
  end.

Definition free (a : SwapArea) (slot : nat) : SwapArea :=
  match used a !! slot with
  | Some true => mkSwap (<[slot := false]> (used a)) (used_count a - 1)
  | _ => a
  end.

Definition capacity (a : SwapArea) : Z := zlen (used a).
Definition free_count (a : SwapArea) : Z := zlen (used a) - used_count a.

(** ** CLOCK *)

Record Page := mkPage {
  frame : Z;
  referenced : bool;
}.

Record Clock := mkClock {
  pages : list Page;
  hand : nat;
}.

Definition clock_new : Clock := mkClock [] 0.

Definition insert (c : Clock) (f : Z) : Clock :=
  mkClock (pages c ++ [mkPage f true]) (hand c).

Definition touch (c : Clock) (f : Z) : Clock :=
  match position (fun p => frame p =? f) (pages c) with
  | Some i => mkClock (alter (fun p => mkPage (frame p) true) i (pages c)) (hand c)
  | None => c
  end.

Definition clear (p : Page) : Page := mkPage (frame p) false.

(** The sweep of [evict]; [fuel] counts the iterations left.  When it runs out
    the code takes the page under the hand. *)
Fixpoint evict_loop (fuel : nat) (c : Clock) : outcome unit Z * Clock :=
  match fuel with
  | O =>
      let idx := (hand c mod length (pages c))%nat in
      match pages c !! idx with
      | Some v => (Ok (frame v), mkClock (delete idx (pages c)) (hand c))
      | None => (Panic, c)
      end
  | S fuel' =>
      let h := if (length (pages c) <=? hand c)%nat then 0%nat else hand c in
      match pages c !! h with
      | None => (Panic, c)
      | Some p =>
          if referenced p then
            evict_loop fuel' (mkClock (<[h := clear p]> (pages c)) (S h))
          else
            let ps := delete h (pages c) in
            (Ok (frame p), mkClock ps (if (length ps <=? h)%nat then 0%nat else h))
      end
  end.

Definition evict (c : Clock) : option (outcome unit Z) * Clock :=
  match pages c with
  | [] => (None, c)
  | _ => let '(r, c') := evict_loop (length (pages c) * 2) c in (Some r, c')
  end.

(** ** Slots: lowest free slot, exact count *)

Lemma position_Some {A} (p : A -> bool) (l : list A) (i : nat) :
  position p l = Some i <->
  (exists x, l !! i = Some x /\ p x = true) /\ forall j y, (j < i)%nat -> l !! j = Some y -> p y = false.
Proof.
  revert i. induction l as [|x l IH]; intros i; cbn.
  { split; [done|]. intros [(? & ? & _) _]. done. }
  destruct (p x) eqn:E.
  - split.
    + intros [= <-]. split; [by exists x|]. intros; lia.
    + intros [(y & Hy & Hp) H]. destruct i as [|i]; [done|].
      specialize (H 0%nat x ltac:(lia) eq_refl). congruence.
  - rewrite fmap_Some. split.
    + intros (k & Hk & ->). apply IH in Hk as [Hk Hlt]. split; [done|].
      intros [|j] y Hj Hy; cbn in Hy; [by simplify_eq|]. apply (Hlt j); [lia|done].
    + intros [(y & Hy & Hp) H]. destruct i as [|i]; cbn in Hy; [simplify_eq; congruence|].
      exists i. split; [|done]. apply IH. split; [by exists y|].
      intros j z Hj Hz. apply (H (S j)); [lia|done].
Qed.

Lemma position_None {A} (p : A -> bool) (l : list A) :
  position p l = None <-> forall i x, l !! i = Some x -> p x = false.
Proof.
  induction l as [|x l IH]; cbn; [done|]. destruct (p x) eqn:E.
  - split; [done|]. intros H. specialize (H 0%nat x eq_refl). congruence.
  - rewrite fmap_None, IH. split.
    + intros H [|i] y Hy; cbn in Hy; [by simplify_eq|by eapply H].
    + intros H i y Hy. by apply (H (S i)).
Qed.

(** Slots in use. *)
Definition count_used (l : list bool) : Z := zlen (List.filter (fun b : bool => b) l).

Definition swap_wf (a : SwapArea) : Prop := used_count a = count_used (used a).

Lemma count_used_insert (l : list bool) (i : nat) (b b' : bool) :
  l !! i = Some b ->
  count_used (<[i := b']> l) = count_used l - (if b then 1 else 0) + (if b' then 1 else 0).
Proof.
  unfold count_used. revert i. induction l as [|x l IH]; intros [|i] H; [done..| |].
  - cbn in H. simplify_eq. change (<[0%nat := b']> (b :: l)) with (b' :: l).
    destruct b, b'; cbn [List.filter]; rewrite ?zlen_cons; lia.
  - change (<[S i := b']> (x :: l)) with (x :: <[i := b']> l).
    specialize (IH i H). destruct x; cbn [List.filter]; rewrite ?zlen_cons, IH; lia.
Qed.

Lemma swap_ops_sound a slot :
  swap_wf a ->
  (match alloc a with
   | (Some s, a') =>
       used a !! s = Some false /\
       (forall j, (j < s)%nat -> used a !! j = Some true) /\
       used a' = <[s := true]> (used a) /\ swap_wf a'
   | (None, a') => a' = a /\ forall j b, used a !! j = Some b -> b = true
   end) /\
  swap_wf (free a slot) /\
  (forall j, j <> slot -> used (free a slot) !! j = used a !! j) /\
  (forall b, used a !! slot = Some b -> used (free a slot) !! slot = Some false).
Proof.
  intros Hwf. split; [|split; [|split]].
  - unfold alloc. destruct (position negb (used a)) as [s|] eqn:E.
    + apply position_Some in E as [(x & Hx & Hn) Hlt]. destruct x; [done|].
      split; [done|]. split.
      * intros j Hj. assert (s < length (used a))%nat by (by eapply lookup_lt_Some).
        destruct (lookup_lt_is_Some_2 (used a) j ltac:(lia)) as [y Hy].
        specialize (Hlt j y Hj Hy). by destruct y.
      * split; [done|]. unfold swap_wf in *. cbn.
        rewrite (count_used_insert _ _ false true) by done. lia.
    + split; [done|]. intros j b Hj. rewrite position_None in E.
      specialize (E j b Hj). by destruct b.
  - unfold free. destruct (used a !! slot) as [[]|] eqn:E; try done.
    unfold swap_wf in *. cbn. rewrite (count_used_insert _ _ true false) by done. lia.
  - intros j Hj. unfold free. destruct (used a !! slot) as [[]|]; try done.
    cbn. by apply list_lookup_insert_ne.
  - intros b Hb. unfold free. rewrite Hb. destruct b; [|done].
    cbn. apply list_lookup_insert_eq. by eapply lookup_lt_Some.
Qed.

(** ** The clock as a ring *)

(** The pages in the order the hand will visit them. *)
Definition ring (c : Clock) : list Page :=
  let h := if (length (pages c) <=? hand c)%nat then 0%nat else hand c in
  drop h (pages c) ++ take h (pages c).

(** Second chance, as a policy on the ring: the victim is the first page whose
    bit is clear, the referenced pages before it lose their bit and move to the
    back; with every bit set the first page is the victim after all. *)
Fixpoint second_chance (skipped r : list Page) : option (Z * list Page) :=
  match r with
  | [] =>
      match skipped with
      | [] => None
      | p :: ps => Some (frame p, clear <$> ps)
      end
  | p :: r' =>
      if referenced p then second_chance (skipped ++ [p]) r'
      else Some (frame p, r' ++ (clear <$> skipped))
  end.

(** The page under the hand splits the vector into what the hand passed and
    what is ahead of it. *)
Lemma ring_split c p r :
  ring c = p :: r ->
  exists l1 l2, pages c = l1 ++ p :: l2 /\ r = l2 ++ l1 /\
    (if (length (pages c) <=? hand c)%nat then 0%nat else hand c) = length l1.
Proof.
  unfold ring. set (h := if (length (pages c) <=? hand c)%nat then 0%nat else hand c). intros H.
  assert (Hh : (h < length (pages c))%nat).
  { unfold h. destruct (pages c) as [|q qs] eqn:E; [by rewrite drop_nil, take_nil in H|].
    destruct (Nat.leb_spec (length (q :: qs)) (hand c)); cbn in *; lia. }
  destruct (lookup_lt_is_Some_2 _ _ Hh) as [q Hq].
  clearbody h. rewrite (drop_S _ _ _ Hq) in H. cbn in H. simplify_eq.
  exists (take h (pages c)), (drop (S h) (pages c)).
  split; [by rewrite take_drop_middle|]. split; [done|]. rewrite length_take. lia.
Qed.

Lemma ring_mid l1 p l2 : ring (mkClock (l1 ++ p :: l2) (length l1)) = p :: l2 ++ l1.
Proof.
  unfold ring. cbn. rewrite length_app. cbn.
  destruct (Nat.leb_spec (length l1 + S (length l2)) (length l1)); [lia|].
  by rewrite drop_app_length, take_app_length.
Qed.

(** The hand moved past the last page wraps to the first one. *)
Lemma ring_next l1 l2 :
  ring (mkClock (l1 ++ l2) (length l1)) = l2 ++ l1.
Proof.
  destruct l2 as [|p l2]; [|by rewrite ring_mid]. rewrite app_nil_r. unfold ring. cbn.
  destruct (Nat.leb_spec (length l1) (length l1)); [|lia].
  by rewrite drop_0, take_0, app_nil_r.
Qed.

Lemma evict_loop_sound fuel c skipped r :
  ring c = r ++ (clear <$> skipped) -> skipped ++ r <> [] -> (length r < fuel)%nat ->
  exists v r', second_chance skipped r = Some (v, r') /\
    fst (evict_loop fuel c) = Ok v /\ ring (snd (evict_loop fuel c)) = r'.
Proof.
  revert c skipped r. induction fuel as [|fuel IH]; intros c skipped r Hr Hne Hfuel; [lia|].
  assert (exists p q, ring c = p :: q) as (p & q & Hpq).
  { destruct r, skipped; cbn in *; try done; rewrite Hr; eauto. }
  destruct (ring_split c p q Hpq) as (l1 & l2 & Hpages & -> & Hh).
  cbn [evict_loop]. rewrite Hh, Hpages, (list_lookup_middle l1 l2 p (length l1) eq_refl).
  rewrite (insert_app_r_alt l1), Nat.sub_diag by lia. cbn [base.insert list_insert].
  assert (Hdel : delete (length l1) (l1 ++ p :: l2) = l1 ++ l2) by apply delete_middle.
  assert (Hend : ring (mkClock (l1 ++ l2) (if (length (l1 ++ l2) <=? length l1)%nat then 0%nat else length l1))
            = l2 ++ l1).
  { rewrite <- (ring_next l1 l2). unfold ring. cbn. rewrite length_app.
    destruct (Nat.leb_spec (length l1 + length l2) (length l1)).
    - by destruct (Nat.leb_spec (length l1 + length l2) 0).
    - destruct (Nat.leb_spec (length l1 + length l2) (length l1)); [lia|done]. }
  destruct r as [|p0 r0]; cbn [second_chance].
  - destruct skipped as [|s ss]; [done|]. cbn in Hr. rewrite Hpq in Hr. simplify_eq.
    cbn [referenced clear]. eexists _, _. split; [done|]. split; [done|]. cbn [snd].
    by rewrite Hdel, Hend.
  - cbn in Hr. rewrite Hpq in Hr. injection Hr as -> Hq. destruct (referenced p0) eqn:Eref.
    + apply IH; [|by destruct skipped|cbn in Hfuel; lia].
      rewrite cons_middle, app_assoc. replace (S (length l1)) with (length (l1 ++ [clear p0]))
        by (rewrite length_app; cbn; lia).
      rewrite ring_next, app_assoc, Hq, fmap_app, <- app_assoc. done.
    + eexists _, _. split; [done|]. split; [done|]. cbn [snd]. by rewrite Hdel, Hend.
Qed.

(** [evict] as a policy on the ring: the first unreferenced page goes, the pages it
    passed lose their bit. *)
Lemma evict_second_chance c :
  match second_chance [] (ring c) with
  | None => pages c = [] /\ evict c = (None, c)
  | Some (v, r') => fst (evict c) = Some (Ok v) /\ ring (snd (evict c)) = r'
  end.
Proof.
  unfold evict. destruct (pages c) as [|p ps] eqn:E.
  - assert (ring c = []) as ->; [|done]. unfold ring. by rewrite E, drop_nil, take_nil.
  - assert (Hlen : length (ring c) = length (pages c)).
    { unfold ring. rewrite length_app, length_drop, length_take. lia. }
    destruct (evict_loop_sound (length (p :: ps) * 2) c [] (ring c)) as (v & r' & -> & H1 & H2).
    + by rewrite app_nil_r.
    + intros H. cbn in H. by rewrite H, E in Hlen.
    + rewrite Hlen, E. cbn. lia.
    + destruct (evict_loop _ c) as [o c']. cbn in *. by rewrite H1.
Qed.

(** C13 Paging is exact.  The swap-slot allocator hands out the lowest free slot and
    refuses only when every slot is taken, [free] clears exactly its own slot, and
    the occupancy counter stays equal to the number of taken slots.  [evict] always
    returns (its sweep bound of twice the ring is never the reason it stops), and as
    a policy on the ring it is exactly second chance: the first unreferenced page
    goes out and the pages it passed lose their bit. *)
Theorem swap_correct a slot c :
  swap_wf a ->
  ((match alloc a with
    | (Some s, a') =>
        used a !! s = Some false /\
        (forall j, (j < s)%nat -> used a !! j = Some true) /\
        used a' = <[s := true]> (used a) /\ swap_wf a'
    | (None, a') => a' = a /\ forall j b, used a !! j = Some b -> b = true
    end) /\
   swap_wf (free a slot) /\
   (forall j, j <> slot -> used (free a slot) !! j = used a !! j) /\
   (forall b, used a !! slot = Some b -> used (free a slot) !! slot = Some false)) /\
  (match second_chance [] (ring c) with
   | None => pages c = [] /\ evict c = (None, c)
   | Some (v, r') => fst (evict c) = Some (Ok v) /\ ring (snd (evict c)) = r'
   end).
Proof. intros Ha. split; [by apply swap_ops_sound|apply evict_second_chance]. Qed.

Lemma swap_correct_witness :
  fst (alloc (mkSwap [true; false; true] 2)) = Some 1%nat /\
  swap_wf (free (mkSwap [true; false; true] 2) 0).
Proof.
  split; [done|].
  refine (proj1 (proj2 (proj1 (swap_correct (mkSwap [true; false; true] 2) 0 (mkClock [] 0) _)))). by vm_compute.
Defined.
End Swap.
