(* ===== verification/AuditRing.v ===== *)
(** The lock-free audit ring of EuroIPC ([src/crates/euroipc/src/lib.rs],
    [AuditRing]).

    A writer claims a ticket with one [fetch_add], marks the slot odd, stores the
    record word by word and marks it even; a reader accepts a record only if the
    sequence word is the even one of the ticket before and after it read the
    words.  [push] and [recent] are the code run without interruption; [rstep]
    interleaves the single loads and stores of a writer and a reader (in a
    sequentially consistent order, which the fences of the code ask for). *)

From S2P Require Import Prelude.

Module AuditRing.

(** ** Data *)

Inductive AuditEvent :=
| Claimed (pid port : Z) (restricted : bool)
| Sent (sender port owner len : Z)
| Refused (sender port : Z).

#[global] Instance AuditEvent_eq_dec : EqDecision AuditEvent.
Proof. solve_decision. Defined.

Definition RING : Z := 64.

(** A slot is the words [seq, stamp, kind, a, b, c, d]. *)
Record AuditRing := mkRing {
  head : Z;
  slots : list (list Z);
}.

Definition new : AuditRing := mkRing 0 (zrepeat (zrepeat 0 7) RING).

Definition b2z (b : bool) : Z := if b then 1 else 0.

(** The words of a record after its sequence number. *)
Definition words (stamp : Z) (ev : AuditEvent) : list Z :=
  match ev with
  | Claimed pid port r => [stamp; 1; pid; port; 0; b2z r]
  | Sent sender port owner len => [stamp; 2; sender; port; owner; len]
  | Refused sender port => [stamp; 3; sender; port; 0; 0]
  end.

(** [b as u32] *)
Definition as_u32 (v : Z) : Z := v mod 2 ^ 32.

Definition unwords (ws : list Z) : Z * AuditEvent :=
  let w i := at_ 0 ws i in
  (w 0,
   if w 1 =? 1 then Claimed (w 2) (as_u32 (w 3)) (negb (w 5 =? 0))
   else if w 1 =? 3 then Refused (w 2) (as_u32 (w 3))
   else Sent (w 2) (as_u32 (w 3)) (w 4) (w 5)).

(** ** Operations *)

Definition slot_of (ticket : Z) : Z := ticket mod RING.

Definition word (r : AuditRing) (ticket i : Z) : Z := at_ 0 (at_ [] (slots r) (slot_of ticket)) i.

Definition store_word (r : AuditRing) (ticket i v : Z) : AuditRing :=
  let j := slot_of ticket in
  mkRing (head r) (upd (slots r) j (upd (at_ [] (slots r) j) i v)).

(** The stores of a push, in program order. *)
Definition stores (ticket stamp : Z) (ev : AuditEvent) : list (Z * Z) :=
  (0, 2 * ticket + 1) :: zip (zrange 1 7) (words stamp ev) ++ [(0, 2 * ticket + 2)].

Definition claim_ticket (r : AuditRing) : AuditRing := mkRing (head r + 1) (slots r).

Definition push (r : AuditRing) (stamp : Z) (ev : AuditEvent) : AuditRing :=
  foldl (fun r '(i, v) => store_word r (head r - 1) i v) (claim_ticket r) (stores (head r) stamp ev).

(** One ticket of [recent], uninterrupted. *)
Definition read_ticket (r : AuditRing) (ticket : Z) : list (Z * AuditEvent) :=
  if word r ticket 0 =? 2 * ticket + 2
  then [unwords (map (word r ticket) (zrange 1 7))]
  else [].

Definition recent (r : AuditRing) (n : Z) : list (Z * AuditEvent) :=
  let n := Z.min (Z.min n (head r)) RING in
  concat (map (read_ticket r) (zrange (head r - n) (head r))).

(** The fields have the widths of the source. *)
Definition event_typed (ev : AuditEvent) : Prop :=
  match ev with
  | Claimed _ port _ | Sent _ port _ _ | Refused _ port => is_u32 port
  end.

(** ** Interleaved execution *)

Inductive reader :=
| Idle
| Reading (ticket seq : Z) (ws : list Z).

(** [writer] holds the ticket and the stores still to be done of the push in
    progress; [log] is the history of pushes, by ticket. *)
Record rstate := mkState {
  ring : AuditRing;
  writer : option (Z * list (Z * Z));
  rd : reader;
  log : list (Z * AuditEvent);
}.

Definition finish (t : Z) (rest : list (Z * Z)) : option (Z * list (Z * Z)) :=
  match rest with [] => None | _ => Some (t, rest) end.

(** One load or store; the label is a record the reader accepts, with its
    ticket. *)
Inductive rstep : rstate -> option (Z * (Z * AuditEvent)) -> rstate -> Prop :=
| w_claim r k l stamp ev :
    event_typed ev ->
    rstep (mkState r None k l) None
      (mkState (claim_ticket r) (Some (head r, stores (head r) stamp ev)) k (l ++ [(stamp, ev)]))
| w_store r t i v rest k l :
    rstep (mkState r (Some (t, (i, v) :: rest)) k l) None (mkState (store_word r t i v) (finish t rest) k l)
| r_skip r w l t :
    0 <= t < head r -> word r t 0 <> 2 * t + 2 ->
    rstep (mkState r w Idle l) None (mkState r w Idle l)
| r_start r w l t :
    0 <= t < head r -> word r t 0 = 2 * t + 2 ->
    rstep (mkState r w Idle l) None (mkState r w (Reading t (2 * t + 2) []) l)
| r_load r w l t seq ws :
    zlen ws < 6 ->
    rstep (mkState r w (Reading t seq ws) l) None (mkState r w (Reading t seq (ws ++ [word r t (1 + zlen ws)])) l)
| r_reject r w l t seq ws :
    zlen ws = 6 -> word r t 0 <> seq ->
    rstep (mkState r w (Reading t seq ws) l) None (mkState r w Idle l)
| r_accept r w l t seq ws :
    zlen ws = 6 -> word r t 0 = seq ->
    rstep (mkState r w (Reading t seq ws) l) (Some (t, unwords ws)) (mkState r w Idle l).

Inductive reachable : rstate -> Prop :=
| reach_new : reachable (mkState new None Idle [])
| reach_step s o s' : reachable s -> rstep s o s' -> reachable s'.

(** ** Words and stores *)

Lemma zlen_words stamp ev : zlen (words stamp ev) = 6.
Proof. by destruct ev. Qed.

Lemma unwords_list st k a b c d :
  unwords [st; k; a; b; c; d] =
    (st, if k =? 1 then Claimed a (as_u32 b) (negb (d =? 0))
         else if k =? 3 then Refused a (as_u32 b) else Sent a (as_u32 b) c d).
Proof. done. Qed.

Lemma unwords_words stamp ev : event_typed ev -> unwords (words stamp ev) = (stamp, ev).
Proof.
  assert (Hp : forall p, is_u32 p -> as_u32 p = p) by (intros p Hp; apply Z.mod_small; ulia).
  intros Ht. destruct ev as [pid port []|sender port owner len|sender port]; cbn [words b2z];
    rewrite unwords_list, Hp by done; done.
Qed.

Lemma stores_first t stamp ev : stores t stamp ev !! 0%nat = Some (0, 2 * t + 1).
Proof. done. Qed.

Lemma stores_word t stamp ev k :
  (1 <= k < 7)%nat -> stores t stamp ev !! k = Some (Z.of_nat k, at_ 0 (words stamp ev) (Z.of_nat k - 1)).
Proof. intros Hk. do 7 (destruct k as [|k]; [first [lia|by destruct ev]|]). lia. Qed.

Lemma stores_last t stamp ev : stores t stamp ev !! 7%nat = Some (0, 2 * t + 2).
Proof. by destruct ev. Qed.

Lemma length_stores t stamp ev : length (stores t stamp ev) = 8%nat.
Proof. by destruct ev. Qed.

(** ** The invariant of the interleaving *)

Definition shaped (r : AuditRing) : Prop :=
  zlen (slots r) = RING /\ forall j, 0 <= j < RING -> zlen (at_ [] (slots r) j) = 7.

(** No ticket from [lo] on and below [bound] has the slot of [t0]. *)
Definition none_between (lo bound t0 : Z) : Prop := forall t, lo <= t < bound -> slot_of t <> slot_of t0.

(** The slot of ticket [t0] holds the whole record of its latest ticket below
    [bound], if there is one. *)
Definition quiet (r : AuditRing) (l : list (Z * AuditEvent)) (bound t0 : Z) : Prop :=
  (word r t0 0 = 0 /\ none_between 0 bound t0) \/
  exists t stamp ev, 0 <= t < bound /\ slot_of t = slot_of t0 /\ l !! Z.to_nat t = Some (stamp, ev) /\
    word r t0 0 = 2 * t + 2 /\ (forall i, 1 <= i <= 6 -> word r t0 i = at_ 0 (words stamp ev) (i - 1)) /\
    none_between (t + 1) bound t0.

(** [k] stores of ticket [t] are done. *)
Record writing (r : AuditRing) (l : list (Z * AuditEvent)) (t : Z) (rest : list (Z * Z)) : Prop := mkWriting {
  wr_last : t = zlen l - 1;
  wr_progress : exists stamp ev k, l !! Z.to_nat t = Some (stamp, ev) /\ (k < 8)%nat /\
    rest = drop k (stores t stamp ev) /\
    (k = 0%nat -> quiet r l t t) /\
    ((0 < k)%nat -> word r t 0 = 2 * t + 1 /\
       forall i, 1 <= i < Z.of_nat k -> word r t i = at_ 0 (words stamp ev) (i - 1));
}.

Record rinv (s : rstate) : Prop := mkRinv {
  ri_shape : shaped (ring s);
  ri_head : head (ring s) = zlen (log s);
  ri_typed : Forall (fun e => event_typed (snd e)) (log s);
  ri_slots t0 :
    match writer s with
    | None => quiet (ring s) (log s) (zlen (log s)) t0
    | Some (t, rest) => slot_of t <> slot_of t0 -> quiet (ring s) (log s) t t0
    end;
  ri_writer :
    match writer s with
    | None => True
    | Some (t, rest) => writing (ring s) (log s) t rest
    end;
  ri_reader :
    match rd s with
    | Idle => True
    | Reading t seq ws =>
        0 <= t < zlen (log s) /\ seq = 2 * t + 2 /\ zlen ws <= 6 /\ seq <= word (ring s) t 0 /\
        (word (ring s) t 0 = seq -> exists stamp ev, log s !! Z.to_nat t = Some (stamp, ev) /\
           ws = take (length ws) (words stamp ev))
    end;
}.

Lemma slot_bound t : 0 <= slot_of t < RING.
Proof. apply Z.mod_pos_bound. done. Qed.

Lemma word_store_same r t i v t0 :
  shaped r -> 0 <= i < 7 -> slot_of t = slot_of t0 -> word (store_word r t i v) t0 i = v.
Proof.
  intros [Hl Hs] Hi E. unfold word, store_word. cbn [slots]. rewrite E. pose proof (slot_bound t0).
  rewrite at_upd_eq by lia. rewrite at_upd_eq; [done|]. by rewrite Hs.
Qed.

Lemma word_store_other r t i v t0 i0 :
  shaped r -> 0 <= i < 7 -> 0 <= i0 -> slot_of t <> slot_of t0 \/ i <> i0 ->
  word (store_word r t i v) t0 i0 = word r t0 i0.
Proof.
  intros [Hl Hs] Hi Hi0 Hne. unfold word, store_word. cbn [slots]. pose proof (slot_bound t0). pose proof (slot_bound t).
  destruct (decide (slot_of t = slot_of t0)) as [E|E].
  - rewrite E, at_upd_eq by lia. destruct Hne; [done|]. by rewrite at_upd_ne by lia.
  - by rewrite at_upd_ne by lia.
Qed.

Lemma shaped_store r t i v : shaped r -> shaped (store_word r t i v).
Proof.
  intros [Hl Hs]. unfold store_word. split; cbn [slots]; [by rewrite zlen_upd|]. intros j Hj.
  pose proof (slot_bound t). destruct (decide (j = slot_of t)) as [->|Hne].
  - rewrite at_upd_eq by lia. rewrite zlen_upd. auto.
  - rewrite at_upd_ne by lia. auto.
Qed.

Lemma ring_shaped_new : shaped new.
Proof.
  split; [done|]. intros j Hj. unfold new. cbn [slots]. rewrite at_zrepeat by done. done.
Qed.

Lemma word_new t i : word new t i = 0.
Proof.
  unfold word, new. cbn [slots]. rewrite at_zrepeat by apply slot_bound. unfold at_, zrepeat.
  destruct (decide (Z.to_nat i < 7)%nat); [apply nth_lookup_Some, lookup_replicate_2; lia|].
  apply nth_overflow. rewrite length_replicate. lia.
Qed.

(** Stores to other slots, and longer histories, keep a slot quiet. *)
Lemma quiet_store r l b t i v t0 :
  shaped r -> 0 <= i < 7 -> slot_of t <> slot_of t0 -> quiet r l b t0 -> quiet (store_word r t i v) l b t0.
Proof.
  intros Hr Hi Hne [[H0 Hn]|(t1 & stamp & ev & Ht & Es & El & Hw & Hws & Hn)]; unfold quiet.
  - left. by rewrite word_store_other by (auto; lia).
  - right. exists t1, stamp, ev. rewrite word_store_other by (auto; lia). split_and!; try done; try lia.
    intros i' Hi'. rewrite word_store_other by (auto; lia). auto.
Qed.

Lemma quiet_grow r l e b t0 : quiet r l b t0 -> quiet r (l ++ [e]) b t0.
Proof.
  intros [H0|(t1 & stamp & ev & Ht & Es & El & Hrest)]; [by left|right].
  exists t1, stamp, ev. do 2 (split; [done|]). split; [by apply lookup_app_l_Some|done].
Qed.

Lemma none_between_succ lo b t0 : slot_of b <> slot_of t0 -> none_between lo b t0 -> none_between lo (b + 1) t0.
Proof. intros Hb Hn t Ht. destruct (decide (t = b)) as [->|]; [done|]. apply Hn. lia. Qed.

Lemma quiet_succ r l b t0 : slot_of b <> slot_of t0 -> quiet r l b t0 -> quiet r l (b + 1) t0.
Proof.
  intros Hb [[H0 Hn]|(t1 & stamp & ev & Ht & Es & El & Hw & Hws & Hn)]; [left|right].
  - split; [done|by apply none_between_succ].
  - exists t1, stamp, ev. split_and!; try done; try lia. by apply none_between_succ.
Qed.

Lemma quiet_slot r l b t t0 : slot_of t = slot_of t0 -> quiet r l b t -> quiet r l b t0.
Proof. intros E. unfold quiet, none_between, word. by rewrite E. Qed.

(** A slot whose sequence word is the even one of ticket [t] holds its record. *)
Lemma whole_record s t :
  rinv s -> 0 <= t -> word (ring s) t 0 = 2 * t + 2 ->
  exists stamp ev, log s !! Z.to_nat t = Some (stamp, ev) /\
    forall i, 1 <= i <= 6 -> word (ring s) t i = at_ 0 (words stamp ev) (i - 1).
Proof.
  intros HI Ht Hw.
  assert (Hq : exists b, quiet (ring s) (log s) b t).
  { pose proof (ri_slots _ HI t) as Hs. pose proof (ri_writer _ HI) as Hwr. destruct (writer s) as [[tw rest]|]; [|eauto].
    destruct (decide (slot_of tw = slot_of t)) as [E|E]; [|eauto].
    destruct Hwr as [_ (stamp & ev & k & _ & _ & _ & H0 & H1)]. destruct k as [|k].
    - exists tw. by apply (quiet_slot _ _ _ tw), H0.
    - destruct H1 as [H1 _]; [lia|]. unfold word in *. rewrite E in H1. lia. }
  destruct Hq as (b & [[H0 _]|(t1 & stamp & ev & _ & _ & El & Hw1 & Hws & _)]); [lia|].
  assert (t1 = t) as -> by lia. eauto.
Qed.

(** Where the [m]th store of a record goes, and what it stores. *)
Lemma store_shape t stamp ev m i v :
  stores t stamp ev !! m = Some (i, v) -> (m < 8)%nat ->
  0 <= i < 7 /\ (m = 0%nat -> i = 0 /\ v = 2 * t + 1) /\ (m = 7%nat -> i = 0 /\ v = 2 * t + 2) /\
  ((1 <= m < 7)%nat -> i = Z.of_nat m /\ v = at_ 0 (words stamp ev) (i - 1)).
Proof.
  intros Est Hm. destruct (decide (m = 0%nat)) as [->|]; [rewrite stores_first in Est; injection Est as <- <-; lia|].
  destruct (decide (m = 7%nat)) as [->|]; [rewrite stores_last in Est; injection Est as <- <-; lia|].
  rewrite stores_word in Est by lia. injection Est as <- <-. by split_and!; try lia.
Qed.

(** A reader holds an even sequence word.  The sequence word of a slot only grows,
    and it is odd while the other words of the slot are stored. *)
Lemma reader_store r t i v t' seq (P : Prop) :
  shaped r -> 0 <= i < 7 -> 0 <= t' -> seq = 2 * t' + 2 ->
  (i = 0 -> word r t 0 = 0 \/ word r t 0 < v) -> (i <> 0 -> word r t 0 = 2 * t + 1) ->
  seq <= word r t' 0 -> (word r t' 0 = seq -> P) ->
  seq <= word (store_word r t i v) t' 0 /\ (word (store_word r t i v) t' 0 = seq -> P).
Proof.
  intros Hr Hi Ht' -> Hgrow Hodd Hle Hsame.
  destruct (decide (slot_of t = slot_of t')) as [E|E]; [|by rewrite word_store_other by (auto; lia)].
  assert (word r t' 0 = word r t 0) as Hw by (unfold word; by rewrite E).
  destruct (decide (i = 0)) as [->|Hi0].
  - rewrite word_store_same by done. destruct (Hgrow eq_refl); lia.
  - rewrite word_store_other by (auto; lia). specialize (Hodd Hi0). lia.
Qed.

Lemma writer_store_inv r t i v rest k l :
  rinv (mkState r (Some (t, (i, v) :: rest)) k l) -> rinv (mkState (store_word r t i v) (finish t rest) k l).
Proof.
  intros HI. pose proof HI as [Hshape Hhead Hty Hslots [Hlast (stamp & ev & m & El & Hm & Erest & H0 & H1)] Hrd].
  cbn [ring writer rd log] in *.
  assert (Est : stores t stamp ev !! m = Some (i, v) /\ rest = drop (S m) (stores t stamp ev)).
  { split.
    - rewrite <- (Nat.add_0_r m), <- lookup_drop, <- Erest. done.
    - change (S m) with (1 + m)%nat. rewrite Nat.add_comm, <- drop_drop, <- Erest. done. }
  destruct Est as [Est Er]. pose proof (length_stores t stamp ev) as Hlen.
  destruct (store_shape _ _ _ _ _ _ Est) as (Hi & Hm0 & Hm7 & Hmid); [lia|].
  assert (Hpos : 0 <= t) by (apply lookup_lt_Some in El; unfold zlen in Hlast; lia).
  assert (Hold : m = 0%nat -> word r t 0 = 0 \/ word r t 0 <= 2 * t).
  { intros Em. destruct (H0 Em) as [[? _]|(t1 & ? & ? & ? & _ & _ & Hw & _)]; [by left|right; lia]. }
  split; cbn [ring writer rd log].
  - by apply shaped_store.
  - done.
  - done.
  - intros t0. destruct (decide (m = 7%nat)) as [Em|Em].
    + rewrite Er, Em, drop_ge by lia. cbn [finish]. destruct (decide (slot_of t = slot_of t0)) as [E|E].
      * right. exists t, stamp, ev. destruct (Hm7 Em) as [-> ->]. destruct H1 as [_ H1]; [lia|].
        split_and!; try done; try lia.
        -- by apply word_store_same.
        -- intros i' Hi'. rewrite word_store_other by (auto; lia).
           replace (word r t0 i') with (word r t i') by (unfold word; by rewrite E). apply H1. lia.
        -- intros t1 Ht1. lia.
      * replace (zlen l) with (t + 1) by lia. apply quiet_succ; [done|]. apply quiet_store; auto.
    + destruct rest as [|x rest]; [apply (f_equal length) in Er; rewrite length_drop, Hlen in Er; cbn [length] in Er; lia|].
      cbn [finish]. intros E. apply quiet_store; auto.
  - destruct (decide (m = 7%nat)) as [Em|Em]; [by rewrite Er, Em, drop_ge by lia|].
    assert (Hf : finish t rest = Some (t, rest)).
    { destruct rest; [apply (f_equal length) in Er; rewrite length_drop, Hlen in Er; cbn [length] in Er; lia|done]. }
    rewrite Hf. split; [done|]. exists stamp, ev, (S m). split_and!; try done; try lia. intros _.
    destruct (decide (m = 0%nat)) as [Em0|Em0].
    + destruct (Hm0 Em0) as [-> ->]. split; [by apply word_store_same|]. lia.
    + destruct (Hmid ltac:(lia)) as [-> ->]. destruct H1 as [Hw H1]; [lia|].
      split; [by rewrite word_store_other by (auto; lia)|]. intros i' Hi'.
      destruct (decide (i' = Z.of_nat m)) as [->|]; [by apply word_store_same|].
      rewrite word_store_other by (auto; lia). apply H1. lia.
  - destruct k as [|t' seq ws]; [done|]. destruct Hrd as (Ht' & Eseq & Hws & Hle & Hsame). do 3 (split; [done|]).
    apply reader_store; try done; try lia.
Qed.

Lemma writer_claim_inv r k l stamp ev :
  event_typed ev -> rinv (mkState r None k l) ->
  rinv (mkState (claim_ticket r) (Some (head r, stores (head r) stamp ev)) k (l ++ [(stamp, ev)])).
Proof.
  intros Hev [Hshape Hhead Hty Hslots _ Hrd]. cbn [ring writer rd log] in *.
  pose proof (zlen_nonneg l) as Hn. split; cbn [ring writer rd log].
  - done.
  - cbn [claim_ticket head]. rewrite zlen_snoc. lia.
  - apply Forall_app. split; [done|by constructor].
  - intros t0 _. rewrite Hhead. exact (quiet_grow r l _ _ _ (Hslots t0)).
  - split; [rewrite zlen_snoc; lia|]. exists stamp, ev, 0%nat. split_and!; try done; try lia.
    + rewrite Hhead, lookup_app_r by (unfold zlen; lia). unfold zlen. by rewrite Nat2Z.id, Nat.sub_diag.
    + intros _. rewrite Hhead. exact (quiet_grow r l _ _ _ (Hslots (zlen l))).
  - destruct k as [|t' seq ws]; [done|]. destruct Hrd as (Ht' & Eseq & Hws & Hle & Hsame).
    rewrite zlen_snoc. split_and!; try done; try lia. intros E.
    destruct (Hsame E) as (st & ev' & El & Ews). exists st, ev'. split; [by apply lookup_app_l_Some|done].
Qed.

Lemma reader_inv s s' o :
  rinv s -> rstep s o s' -> ring s' = ring s -> writer s' = writer s -> log s' = log s ->
  rinv s' /\ forall t x, o = Some (t, x) -> log s !! Z.to_nat t = Some x.
Proof.
  intros HI Hs. pose proof HI as [Hshape Hhead Hty Hslots Hwr Hrd].
  inversion Hs as [|r t i v rest k l|r w l t Ht Hw|r w l t Ht Hw|r w l t seq ws Hl|r w l t seq ws Hl Hw|r w l t seq ws Hl Hw];
    subst; intros Er Ew El; cbn [ring writer rd log] in *; try done.
  - destruct rest; cbn in Ew; [done|]. injection Ew as _ Ew. apply (f_equal length) in Ew. cbn in Ew. lia.
  - split; [|done]. split; cbn [ring writer rd log]; try done. rewrite Hhead in Ht. split_and!; try done; try lia.
    intros _. destruct (whole_record _ t HI ltac:(lia) Hw) as (st & ev & E & _). exists st, ev. done.
  - split; [|done]. destruct Hrd as (Ht & Eseq & Hws & Hle & Hsame). split; cbn [ring writer rd log]; try done.
    rewrite zlen_snoc. split_and!; try done; try lia. intros E.
    destruct (Hsame E) as (st & ev & El' & Ews). exists st, ev. split; [done|].
    destruct (whole_record _ t HI ltac:(lia) ltac:(cbn; lia)) as (st' & ev' & E' & Hwords). cbn [log ring] in *.
    rewrite El' in E'. injection E' as <- <-. rewrite length_app. cbn [length]. rewrite Nat.add_1_r.
    rewrite (take_S_r _ _ (word r t (1 + zlen ws))); [by rewrite <- Ews|].
    rewrite Hwords by (pose proof (zlen_nonneg ws); lia). replace (1 + zlen ws - 1) with (zlen ws) by lia.
    rewrite <- (Nat2Z.id (length ws)). fold (zlen ws). apply lookup_at. rewrite zlen_words. pose proof (zlen_nonneg ws). lia.
  - split; [by split|]. destruct Hrd as (Ht & Eseq & Hws & Hle & Hsame). intros t' x [= <- <-].
    destruct (Hsame eq_refl) as (st & ev & El' & Ews). rewrite El'. f_equal.
    rewrite Ews, take_ge by (pose proof (zlen_words st ev); unfold zlen in *; lia). symmetry. apply unwords_words.
    rewrite Forall_forall in Hty. apply list_elem_of_lookup_2 in El'. apply (Hty _ El').
Qed.

Lemma rstep_inv s o s' :
  rinv s -> rstep s o s' -> rinv s' /\ forall t x, o = Some (t, x) -> log s !! Z.to_nat t = Some x.
Proof.
  intros HI Hs. inversion Hs; subst; try (by eapply reader_inv).
  - split; [by apply writer_claim_inv|done].
  - split; [by apply writer_store_inv|done].
Qed.

Lemma rinv_new : rinv (mkState new None Idle []).
Proof.
  split; cbn [ring writer rd log]; try done; [apply ring_shaped_new|].
  intros t0. left. split; [apply word_new|]. intros t Ht. change (zlen (@nil (Z * AuditEvent))) with 0 in Ht. lia.
Qed.

Lemma reachable_inv s : reachable s -> rinv s.
Proof. induction 1 as [|s o s' _ IH Hs]; [apply rinv_new|]. by eapply rstep_inv. Qed.

(** ** Uninterrupted execution *)

Definition push_all (l : list (Z * AuditEvent)) : AuditRing := foldl (fun r e => push r (fst e) (snd e)) new l.

Lemma stores_run r t st k l :
  rinv (mkState r (finish t st) k l) -> head r - 1 = t ->
  rinv (mkState (foldl (fun r '(i, v) => store_word r (head r - 1) i v) r st) None k l).
Proof.
  revert r. induction st as [|[i v] st IH]; intros r HI Ht; [done|]. cbn [foldl].
  apply IH; [|done]. rewrite Ht. by apply writer_store_inv.
Qed.

Lemma push_inv r l stamp ev :
  event_typed ev -> rinv (mkState r None Idle l) -> rinv (mkState (push r stamp ev) None Idle (l ++ [(stamp, ev)])).
Proof.
  intros Hev HI. unfold push. apply (stores_run _ (head r)); [|cbn; lia].
  by apply writer_claim_inv.
Qed.

Lemma push_all_inv l : Forall (fun e => event_typed (snd e)) l -> rinv (mkState (push_all l) None Idle l).
Proof.
  induction l as [|[stamp ev] l IH] using rev_ind; intros Hl; [apply rinv_new|].
  apply Forall_app in Hl as [Hl He]. rewrite Forall_singleton in He. unfold push_all. rewrite foldl_app. cbn [foldl fst snd].
  apply (push_inv (push_all l)); [exact He|by apply IH].
Qed.

Lemma slot_gap t t' : slot_of t = slot_of t' -> t < t' -> t + RING <= t'.
Proof.
  unfold slot_of, RING. intros E Hlt. pose proof (Z.div_mod t 64 ltac:(lia)). pose proof (Z.div_mod t' 64 ltac:(lia)). lia.
Qed.

(** A quiet ring holds the last [RING] records. *)
Lemma read_ticket_recent r l t :
  rinv (mkState r None Idle l) -> zlen l - RING <= t < zlen l -> 0 <= t ->
  exists e, l !! Z.to_nat t = Some e /\ read_ticket r t = [e].
Proof.
  intros HI Ht Hpos. pose proof (ri_slots _ HI t) as Hq. pose proof (ri_typed _ HI) as Hty.
  cbn [ring writer log] in Hq, Hty.
  destruct Hq as [[_ Hn]|(t1 & stamp & ev & Ht1 & Es & El & Hw & Hws & Hn)]; [by destruct (Hn t); [lia|]|].
  assert (t1 = t) as ->.
  { destruct (Z.lt_trichotomy t1 t) as [Hlt|[Heq|Hgt]]; [|done|].
    - exfalso. by apply (Hn t); [lia|].
    - pose proof (slot_gap t t1 (eq_sym Es) Hgt). lia. }
  exists (stamp, ev). split; [done|]. unfold read_ticket. rewrite Hw, Z.eqb_refl. f_equal.
  rewrite <- (unwords_words stamp ev).
  - f_equal. apply (list_eq_at 0); [by rewrite zlen_words|]. intros i Hi. change (zlen (map (word r t) (zrange 1 7))) with 6 in Hi.
    assert (Hi' : (map (word r t) (zrange 1 7)) !! Z.to_nat i = Some (word r t (1 + i))).
    { rewrite list_lookup_fmap. unfold zrange. rewrite lookup_seqZ_lt by lia. cbn. do 2 f_equal. lia. }
    rewrite (at_lookup _ _ _ _ Hi'), Hws by lia. f_equal. lia.
  - rewrite Forall_forall in Hty. apply list_elem_of_lookup_2 in El. apply (Hty _ El).
Qed.

Lemma concat_singletons {A} (g : Z -> list A) l lo k :
  0 <= lo -> lo + Z.of_nat k <= zlen l ->
  (forall t, lo <= t < lo + Z.of_nat k -> exists e, l !! Z.to_nat t = Some e /\ g t = [e]) ->
  concat (map g (zrange lo (lo + Z.of_nat k))) = take k (drop (Z.to_nat lo) l).
Proof.
  revert lo. induction k as [|k IH]; intros lo Hlo Hhi Hg; [by rewrite zrange_nil by lia|].
  rewrite zrange_cons by lia. cbn [map concat]. destruct (Hg lo) as (e & El & ->); [lia|].
  rewrite (drop_S _ _ _ El). cbn [take app]. f_equal.
  replace (lo + Z.of_nat (S k)) with (lo + 1 + Z.of_nat k) by lia.
  rewrite IH; [f_equal; f_equal; lia|lia|lia|]. intros t Ht. apply Hg. lia.
Qed.

Lemma recent_sound l n :
  Forall (fun e => event_typed (snd e)) l -> 0 <= n ->
  recent (push_all l) n = drop (length l - Z.to_nat (Z.min n RING))%nat l.
Proof.
  intros Hl Hn. pose proof (push_all_inv l Hl) as HI. unfold recent. pose proof (ri_head _ HI) as Hh. cbn [ring log] in Hh.
  rewrite Hh. pose proof (zlen_nonneg l) as Hpos. set (k := Z.min (Z.min n (zlen l)) RING). unfold RING in *.
  replace (zrange (zlen l - k) (zlen l)) with (zrange (zlen l - k) (zlen l - k + Z.of_nat (Z.to_nat k)))
    by (f_equal; lia).
  rewrite (concat_singletons _ l); [|lia|lia|intros t Ht; apply (read_ticket_recent _ l); [done|unfold RING; lia|lia]].
  rewrite take_ge by (rewrite length_drop; unfold zlen in *; lia). f_equal. unfold zlen in *. lia.
Qed.

(** ** The properties *)

(** C33 The audit ring gives whole records.  With one writer at a time and a reader
    interleaved with it load by load and store by store, a record the reader accepts
    under a ticket is exactly the record pushed under that ticket, with its
    timestamp.  Uninterrupted, the ring remembers the last 64 events: after any
    pushes, [recent n] returns the last [min n 64] of them, oldest first. *)
Theorem audit_ring_exact :
  (forall s s' t x, reachable s -> rstep s (Some (t, x)) s' -> log s !! Z.to_nat t = Some x) /\
  (forall l n, Forall (fun e => event_typed (snd e)) l -> 0 <= n ->
    recent (push_all l) n = drop (length l - Z.to_nat (Z.min n RING))%nat l).
Proof.
  split; [|exact recent_sound]. intros s s' t x Hr Hs. by apply (rstep_inv _ _ _ (reachable_inv _ Hr) Hs).
Qed.

(** One writer at a time is needed.  Writer A claims ticket 0, stores the odd mark
    and is delayed; 63 other pushes and writer B (ticket 64, the same slot)
    complete; A goes on.  Just before A's last store a reader accepts, for ticket
    64, a record that nobody pushed. *)
Definition lapped : AuditRing :=
  let a := take 7 (stores 0 1 (Sent 1 10 100 1000)) in
  let r := claim_ticket new in
  let r := foldl (fun r '(i, v) => store_word r 0 i v) r (take 1 a) in
  let r := foldl (fun r k => push r k (Refused k 9)) r (zrange 1 64) in
  let r := push r 64 (Sent 2 20 200 2000) in
  foldl (fun r '(i, v) => store_word r 0 i v) r (take 3 (drop 1 a)).

Lemma lapped_writer_tears : read_ticket lapped 64 = [(1, Sent 1 20 200 2000)].
Proof. by vm_compute. Qed.

(** ** Witnesses *)

Lemma reach_stores r t st l :
  reachable (mkState r (finish t st) Idle l) ->
  reachable (mkState (foldl (fun r '(i, v) => store_word r t i v) r st) None Idle l).
Proof.
  revert r. induction st as [|[i v] st IH]; intros r Hr; [done|]. cbn [foldl]. apply IH.
  eapply reach_step; [exact Hr|]. constructor.
Qed.

Lemma reach_loads r w l t seq ws k :
  zlen ws + Z.of_nat k <= 6 -> reachable (mkState r w (Reading t seq ws) l) ->
  exists ws', zlen ws' = zlen ws + Z.of_nat k /\ reachable (mkState r w (Reading t seq ws') l).
Proof.
  revert ws. induction k as [|k IH]; intros ws Hk Hr; [exists ws; split; [lia|done]|].
  destruct (IH (ws ++ [word r t (1 + zlen ws)])) as (ws' & E & Hr'); [rewrite zlen_snoc; lia| |].
  - eapply reach_step; [exact Hr|]. constructor. lia.
  - exists ws'. rewrite zlen_snoc in E. split; [lia|done].
Qed.

Lemma audit_ring_exact_witness :
  exists s s' t x, rstep s (Some (t, x)) s' /\ log s !! Z.to_nat t = Some x.
Proof.
  pose (ev := Sent 1 10 100 1000).
  assert (Hw : reachable (mkState (claim_ticket new) (finish 0 (stores 0 5 ev)) Idle [(5, ev)])).
  { eapply reach_step; [apply reach_new|]. apply (w_claim new Idle [] 5 ev). cbn. ulia. }
  apply reach_stores in Hw. set (r := foldl _ _ _) in Hw.
  destruct (reach_loads r None [(5, ev)] 0 2 [] 6) as (ws & Hl & Hr).
  - done.
  - eapply reach_step; [exact Hw|]. apply (r_start r None [(5, ev)] 0); [by vm_compute|by vm_compute].
  - eexists _, _, 0, (unwords ws).
    assert (Hs : rstep (mkState r None (Reading 0 2 ws) [(5, ev)]) (Some (0, unwords ws)) (mkState r None Idle [(5, ev)])).
    { apply r_accept; [exact Hl|by vm_compute]. }
    split; [exact Hs|]. exact (proj1 audit_ring_exact _ _ _ _ Hr Hs).
Defined.
End AuditRing.
