(* ===== verification/Ipc.v ===== *)
(** The EuroIPC port table ([src/crates/euroipc/src/lib.rs], [ChannelTable]).

    A channel is a shared object: the table holds references to channels, and a
    call that has looked its channel up keeps the reference while other calls
    register and unregister ports.  [send_with], [recv], [take] and the others
    are the code run alone; [micro] splits every call at its lock acquisitions
    and atomic accesses, and [sys] interleaves any number of calls. *)

From S2P Require Import Prelude AuditRing.
Import AuditRing.

Module Ipc.

(** ** Data *)

Definition ESRCH : Z := -3.
Definition EAGAIN : Z := -11.
Definition EPERM : Z := -1.
Definition MAX_QUEUE : Z := 256.
(** [eurolock::SHARDS] *)
Definition SHARDS : Z := 8.

(** A message and its sender. *)
Definition message : Type := Z * list Z.

Record Channel := mkChannel {
  port : Z;
  owner : Z;
  restricted : bool;
  only_from : Z;
  queue : list message;
}.

Inductive RecvError := NoPort | Empty.

Definition errno (e : RecvError) : Z := match e with NoPort => ESRCH | Empty => EAGAIN end.

(** [store] is the heap of channels; [table] the references in the table. *)
Record ChannelTable := mkTable {
  store : list Channel;
  table : list nat;
  audit : list AuditRing;
  sends : list Z;
  dropped_full : Z;
  refused_sender : Z;
}.

Definition new : ChannelTable :=
  mkTable [] [] (zrepeat AuditRing.new SHARDS) (zrepeat 0 SHARDS) 0 0.

Definition nobody : Channel := mkChannel 0 0 false 0 [].
Definition chan (t : ChannelTable) (id : nat) : Channel := nth id (store t) nobody.

Definition set_store (t : ChannelTable) (s : list Channel) : ChannelTable :=
  mkTable s (table t) (audit t) (sends t) (dropped_full t) (refused_sender t).
Definition set_table (t : ChannelTable) (l : list nat) : ChannelTable :=
  mkTable (store t) l (audit t) (sends t) (dropped_full t) (refused_sender t).

Definition on_chan (t : ChannelTable) (id : nat) (g : Channel -> Channel) : ChannelTable :=
  set_store t (alter g id (store t)).

(** Atomic counters wrap. *)
Definition bump (v : Z) : Z := (v + 1) mod 2 ^ 64.

Definition count_send (t : ChannelTable) (cpu : Z) : ChannelTable :=
  mkTable (store t) (table t) (audit t) (upd (sends t) cpu (bump (at_ 0 (sends t) cpu)))
    (dropped_full t) (refused_sender t).
Definition count_dropped (t : ChannelTable) : ChannelTable :=
  mkTable (store t) (table t) (audit t) (sends t) (bump (dropped_full t)) (refused_sender t).
Definition count_refused (t : ChannelTable) : ChannelTable :=
  mkTable (store t) (table t) (audit t) (sends t) (dropped_full t) (bump (refused_sender t)).

(** [cpu] is the shard of the calling core, [stamp] the reading of the clock. *)
Definition audit_event (t : ChannelTable) (cpu stamp : Z) (ev : AuditEvent) : ChannelTable :=
  mkTable (store t) (table t)
    (upd (audit t) cpu (push (at_ AuditRing.new (audit t) cpu) stamp ev))
    (sends t) (dropped_full t) (refused_sender t).

(** ** The calls *)

Definition by_port (t : ChannelTable) (p : Z) : option nat :=
  List.find (fun id => port (chan t id) =? p) (table t).
Definition by_owner (t : ChannelTable) (pid : Z) : option nat :=
  List.find (fun id => owner (chan t id) =? pid) (table t).

Definition new_channel (pid p : Z) (only : option Z) : Channel :=
  mkChannel p pid (match only with Some _ => true | None => false end) (default 0 only) [].

Definition insert_channel (t : ChannelTable) (c : Channel) : ChannelTable :=
  set_table (set_store t (store t ++ [c])) (table t ++ [length (store t)]).

Definition claim (cpu stamp pid p : Z) (only : option Z) (t : ChannelTable) : bool * ChannelTable :=
  if existsb (fun id => port (chan t id) =? p) (table t) then (false, t)
  else
    let c := new_channel pid p only in
    (true, audit_event (insert_channel t c) cpu stamp (Claimed pid p (restricted c))).

Definition register (cpu stamp pid p : Z) : ChannelTable -> bool * ChannelTable := claim cpu stamp pid p None.
Definition register_restricted (cpu stamp pid p only : Z) : ChannelTable -> bool * ChannelTable :=
  claim cpu stamp pid p (Some only).

Definition set_only (v : Z) (c : Channel) : Channel := mkChannel (port c) (owner c) (restricted c) v (queue c).
Definition set_restricted (c : Channel) : Channel := mkChannel (port c) (owner c) true (only_from c) (queue c).
Definition set_queue (q : list message) (c : Channel) : Channel :=
  mkChannel (port c) (owner c) (restricted c) (only_from c) q.

Definition set_only_from (p only : Z) (t : ChannelTable) : ChannelTable :=
  match by_port t p with
  | Some id => on_chan (on_chan t id (set_only only)) id set_restricted
  | None => t
  end.

(** Remove the first reference to a channel with port [p]. *)
Fixpoint remove_first (f : nat -> bool) (l : list nat) : list nat :=
  match l with
  | [] => []
  | x :: l' => if f x then l' else x :: remove_first f l'
  end.

Definition unregister (p : Z) (t : ChannelTable) : ChannelTable :=
  set_table t (remove_first (fun id => port (chan t id) =? p) (table t)).

(** Push on the queue of a channel, unless it is full. *)
Definition enqueue (t : ChannelTable) (id : nat) (m : message) : option ChannelTable :=
  let q := queue (chan t id) in
  if MAX_QUEUE <=? zlen q then None else Some (on_chan t id (set_queue (q ++ [m]))).

Definition send_with (cpu stamp sender p : Z) (data : list Z) (audit_it : bool) (t : ChannelTable)
  : outcome Z Z * ChannelTable :=
  match by_port t p with
  | None => (Err ESRCH, t)
  | Some id =>
      if restricted (chan t id) && negb (only_from (chan t id) =? sender) then
        (Err EPERM, audit_event (count_refused t) cpu stamp (Refused sender p))
      else
        match enqueue t id (sender, data) with
        | None => (Err EAGAIN, count_dropped t)
        | Some t1 =>
            let t2 := count_send t1 cpu in
            (Ok (zlen data),
             if audit_it then audit_event t2 cpu stamp (Sent sender p (owner (chan t id)) (zlen data)) else t2)
        end
  end.

Definition send (cpu stamp sender p : Z) (data : list Z) : ChannelTable -> outcome Z Z * ChannelTable :=
  send_with cpu stamp sender p data true.

Definition dequeue (t : ChannelTable) (id : nat) : option message * ChannelTable :=
  match queue (chan t id) with
  | [] => (None, t)
  | m :: q => (Some m, on_chan t id (set_queue q))
  end.

Definition take_ (p : Z) (t : ChannelTable) : option message * ChannelTable :=
  match by_port t p with
  | None => (None, t)
  | Some id => dequeue t id
  end.

Definition recv (pid : Z) (t : ChannelTable) : outcome RecvError message * ChannelTable :=
  match by_owner t pid with
  | None => (Err NoPort, t)
  | Some id =>
      let '(m, t') := dequeue t id in
      (match m with Some m => Ok m | None => Err Empty end, t')
  end.

Definition queued (t : ChannelTable) (p : Z) : option Z :=
  match by_port t p with Some id => Some (zlen (queue (chan t id))) | None => None end.

(** Stable sort by timestamp. *)
Fixpoint sort_insert (x : Z * AuditEvent) (l : list (Z * AuditEvent)) : list (Z * AuditEvent) :=
  match l with
  | [] => [x]
  | y :: l' => if fst y <=? fst x then y :: sort_insert x l' else x :: l
  end.
Definition sort_by_stamp (l : list (Z * AuditEvent)) : list (Z * AuditEvent) :=
  foldl (fun acc x => sort_insert x acc) [] l.

Definition audit_recent (t : ChannelTable) (n : Z) : list AuditEvent :=
  let all := sort_by_stamp (concat (map (fun r => recent r n) (audit t))) in
  map snd (drop (Z.to_nat (saturating_sub (zlen all) n)) all).

Definition total_sends (t : ChannelTable) : Z := foldr (fun v acc => (v + acc) mod 2 ^ 64) 0 (sends t).
Definition channels (t : ChannelTable) : Z := zlen (table t).

(** ** Interleaved calls *)

Inductive reply :=
| RBool (b : bool)
| RSend (r : outcome Z Z)
| RTake (r : option message)
| RRecv (r : outcome RecvError message)
| RUnit.

(** A call and how far it has come. *)
Inductive proc :=
| Claim (pid p : Z) (only : option Z)
| ClaimAudit (pid p : Z) (restr : bool)
| Restrict (p only : Z)
| RestrictFound (id : nat) (only : Z)
| RestrictStored (id : nat)
| Unregister (p : Z)
| Send (sender p : Z) (data : list Z) (audit_it : bool)
| SendFound (id : nat) (sender p : Z) (data : list Z) (audit_it : bool)
| SendRestricted (id : nat) (sender p : Z) (data : list Z) (audit_it : bool)
| SendAllowed (id : nat) (sender p : Z) (data : list Z) (audit_it : bool)
| SendRefused (sender p : Z)
| SendRefusedAudit (sender p : Z)
| SendFull
| SendQueued (id : nat) (sender p : Z) (data : list Z) (audit_it : bool)
| SendAudit (id : nat) (sender p : Z) (data : list Z)
| Take (p : Z)
| TakeFound (id : nat)
| Recv (pid : Z)
| RecvFound (id : nat)
| Done (r : reply).

Definition initial (p : proc) : bool :=
  match p with
  | Claim _ _ _ | Restrict _ _ | Unregister _ | Send _ _ _ _ | Take _ | Recv _ => true
  | _ => false
  end.

(** What happened to a channel. *)
Inductive label :=
| Created (id : nat) (only : option Z)
| Rerestricted (id : nat)
| Enqueued (id : nat) (m : message)
| Dequeued (id : nat) (m : message).

(** One atomic access or critical section. *)
Definition micro (cpu stamp : Z) (p : proc) (t : ChannelTable) : proc * ChannelTable * list label :=
  match p with
  | Claim pid p only =>
      if existsb (fun id => port (chan t id) =? p) (table t) then (Done (RBool false), t, [])
      else
        let c := new_channel pid p only in
        (ClaimAudit pid p (restricted c), insert_channel t c, [Created (length (store t)) only])
  | ClaimAudit pid p r => (Done (RBool true), audit_event t cpu stamp (Claimed pid p r), [])
  | Restrict p only =>
      match by_port t p with
      | Some id => (RestrictFound id only, t, [])
      | None => (Done RUnit, t, [])
      end
  | RestrictFound id only => (RestrictStored id, on_chan t id (set_only only), [Rerestricted id])
  | RestrictStored id => (Done RUnit, on_chan t id set_restricted, [])
  | Unregister p => (Done RUnit, unregister p t, [])
  | Send sender p data a =>
      match by_port t p with
      | Some id => (SendFound id sender p data a, t, [])
      | None => (Done (RSend (Err ESRCH)), t, [])
      end
  | SendFound id sender p data a =>
      if restricted (chan t id) then (SendRestricted id sender p data a, t, [])
      else (SendAllowed id sender p data a, t, [])
  | SendRestricted id sender p data a =>
      if only_from (chan t id) =? sender then (SendAllowed id sender p data a, t, [])
      else (SendRefused sender p, t, [])
  | SendAllowed id sender p data a =>
      match enqueue t id (sender, data) with
      | None => (SendFull, t, [])
      | Some t' => (SendQueued id sender p data a, t', [Enqueued id (sender, data)])
      end
  | SendRefused sender p => (SendRefusedAudit sender p, count_refused t, [])
  | SendRefusedAudit sender p => (Done (RSend (Err EPERM)), audit_event t cpu stamp (Refused sender p), [])
  | SendFull => (Done (RSend (Err EAGAIN)), count_dropped t, [])
  | SendQueued id sender p data a =>
      if a then (SendAudit id sender p data, count_send t cpu, [])
      else (Done (RSend (Ok (zlen data))), count_send t cpu, [])
  | SendAudit id sender p data =>
      (Done (RSend (Ok (zlen data))),
       audit_event t cpu stamp (Sent sender p (owner (chan t id)) (zlen data)), [])
  | Take p =>
      match by_port t p with
      | Some id => (TakeFound id, t, [])
      | None => (Done (RTake None), t, [])
      end
  | TakeFound id =>
      let '(m, t') := dequeue t id in
      (Done (RTake m), t', match m with Some m => [Dequeued id m] | None => [] end)
  | Recv pid =>
      match by_owner t pid with
      | Some id => (RecvFound id, t, [])
      | None => (Done (RRecv (Err NoPort)), t, [])
      end
  | RecvFound id =>
      let '(m, t') := dequeue t id in
      (Done (RRecv (match m with Some m => Ok m | None => Err Empty end)), t',
       match m with Some m => [Dequeued id m] | None => [] end)
  | Done r => (Done r, t, [])
  end.

(** The calls in progress, the table, and the history of the channels. *)
Inductive sys : list proc -> ChannelTable -> list label -> Prop :=
| sys_start : sys [] new []
| sys_call ps t tr p : sys ps t tr -> initial p = true -> sys (ps ++ [p]) t tr
| sys_step ps t tr i p cpu stamp p' t' ls :
    sys ps t tr -> ps !! i = Some p -> micro cpu stamp p t = (p', t', ls) -> sys (<[i := p']> ps) t' (tr ++ ls).

(** ** A call that is not interrupted *)

Fixpoint run (fuel : nat) (cpu stamp : Z) (p : proc) (t : ChannelTable) : proc * ChannelTable :=
  match fuel with
  | O => (p, t)
  | S k => match p with Done r => (Done r, t) | _ => let '(p', t', _) := micro cpu stamp p t in run k cpu stamp p' t' end
  end.

(** The longest call makes seven steps. *)
Definition CALL_STEPS : nat := 7.

(** What the call does when nothing interferes. *)
Definition direct (cpu stamp : Z) (p : proc) (t : ChannelTable) : reply * ChannelTable :=
  match p with
  | Claim pid p only => let '(b, t') := claim cpu stamp pid p only t in (RBool b, t')
  | Restrict p only => (RUnit, set_only_from p only t)
  | Unregister p => (RUnit, unregister p t)
  | Send sender p data a => let '(r, t') := send_with cpu stamp sender p data a t in (RSend r, t')
  | Take p => let '(m, t') := take_ p t in (RTake m, t')
  | Recv pid => let '(r, t') := recv pid t in (RRecv r, t')
  | _ => (RUnit, t)
  end.

Definition is_done (p : proc) : bool := match p with Done _ => true | _ => false end.

Lemma run_step k cpu stamp p t p' t' ls :
  is_done p = false -> micro cpu stamp p t = (p', t', ls) -> run (S k) cpu stamp p t = run k cpu stamp p' t'.
Proof. intros Hp E. destruct p; try done; cbn [run]; by rewrite E. Qed.

Lemma run_done k cpu stamp r t : run k cpu stamp (Done r) t = (Done r, t).
Proof. by destruct k. Qed.

(** The queue operations leave the other fields alone. *)
Lemma owner_enqueue t id m t1 : enqueue t id m = Some t1 -> owner (chan t1 id) = owner (chan t id).
Proof.
  unfold enqueue. case_if; [done|]. intros [= <-]. unfold chan, on_chan. cbn [set_store store].
  rewrite !nth_lookup, list_lookup_alter_eq. by destruct (store t !! id).
Qed.

(** The step of [p], after the tests that decide it. *)
Ltac go := erewrite run_step; [|done|cbn [micro]; repeat (first [rewrite_known | case_if]); reflexivity]
with rewrite_known := match goal with H : ?x = _ |- context [match ?x with _ => _ end] => rewrite H end.

Lemma run_direct cpu stamp p t :
  initial p = true ->
  run CALL_STEPS cpu stamp p t = (let '(r, t') := direct cpu stamp p t in (Done r, t')).
Proof.
  destruct p as [pid p only| |p only| | |p|sender p data a| | | | | | | | |p| |pid| |];
    intros Hi; try done; unfold CALL_STEPS; cbn [direct].
  - unfold claim. destruct (existsb _ (table t)) eqn:E; go; [by rewrite run_done|]. go. by rewrite run_done.
  - unfold set_only_from. destruct (by_port t p) as [id|] eqn:E; go; [|by rewrite run_done]. do 2 go. by rewrite run_done.
  - unfold send_with. destruct (by_port t p) as [id|] eqn:E; go; [|by rewrite run_done].
    destruct (restricted (chan t id)) eqn:Er; go; cbn [andb].
    + destruct (only_from (chan t id) =? sender) eqn:Eo; go; cbn [negb]; [|do 2 go; by rewrite run_done].
      destruct (enqueue t id (sender, data)) as [t1|] eqn:Eq; go; [|go; by rewrite run_done].
      destruct a; go; [|by rewrite run_done]. go. rewrite run_done.
      change (chan (count_send t1 cpu) id) with (chan t1 id). by rewrite (owner_enqueue _ _ _ _ Eq).
    + destruct (enqueue t id (sender, data)) as [t1|] eqn:Eq; go; [|go; by rewrite run_done].
      destruct a; go; [|by rewrite run_done]. go. rewrite run_done.
      change (chan (count_send t1 cpu) id) with (chan t1 id). by rewrite (owner_enqueue _ _ _ _ Eq).
  - unfold take_. destruct (by_port t p) as [id|] eqn:E; go; [|by rewrite run_done].
    destruct (dequeue t id) as [m t'] eqn:Eq. go. by rewrite run_done.
  - unfold recv. destruct (by_owner t pid) as [id|] eqn:E; go; [|by rewrite run_done].
    destruct (dequeue t id) as [m t'] eqn:Eq. go. by rewrite run_done.
Qed.

(** ** The invariant of the interleaving *)

Definition label_id (l : label) : nat :=
  match l with Created id _ | Rerestricted id | Enqueued id _ | Dequeued id _ => id end.

Definition enqueued (id : nat) (tr : list label) : list message :=
  omap (fun l => match l with Enqueued j m => if decide (j = id) then Some m else None | _ => None end) tr.
Definition dequeued (id : nat) (tr : list label) : list message :=
  omap (fun l => match l with Dequeued j m => if decide (j = id) then Some m else None | _ => None end) tr.

(** The channel a call refers to. *)
Definition proc_id (p : proc) : option nat :=
  match p with
  | RestrictFound id _ | RestrictStored id | SendFound id _ _ _ _ | SendRestricted id _ _ _ _
  | SendAllowed id _ _ _ _ | SendQueued id _ _ _ _ | SendAudit id _ _ _ | TakeFound id | RecvFound id => Some id
  | _ => None
  end.

Definition proc_ok (t : ChannelTable) (p : proc) : Prop :=
  forall id, proc_id p = Some id -> (id < length (store t))%nat.

Record sinv (ps : list proc) (t : ChannelTable) (tr : list label) : Prop := mkSinv {
  si_ports : NoDup (map (fun id => port (chan t id)) (table t));
  si_table : Forall (fun id => id < length (store t))%nat (table t);
  si_procs : Forall (proc_ok t) ps;
  si_trace : Forall (fun l => label_id l < length (store t))%nat tr;
  si_fifo id : enqueued id tr = dequeued id tr ++ queue (chan t id);
  si_cap id : zlen (queue (chan t id)) <= MAX_QUEUE;
  si_restricted id x : Created id (Some x) ∈ tr -> Rerestricted id ∉ tr ->
    restricted (chan t id) = true /\ only_from (chan t id) = x /\
    (forall m, Enqueued id m ∈ tr -> fst m = x) /\
    (forall sender p data a, SendAllowed id sender p data a ∈ ps -> sender = x);
}.

Lemma chan_on_chan t id g j :
  (id < length (store t))%nat -> chan (on_chan t id g) j = if decide (j = id) then g (chan t id) else chan t j.
Proof.
  intros Hid. unfold chan, on_chan. cbn [set_store store]. rewrite !nth_lookup. destruct (decide (j = id)) as [->|Hne].
  - rewrite list_lookup_alter_eq. destruct (lookup_lt_is_Some_2 _ _ Hid) as [c ->]. done.
  - by rewrite list_lookup_alter_ne.
Qed.

Lemma chan_insert t c j :
  chan (insert_channel t c) j = if decide (j = length (store t)) then c else chan t j.
Proof.
  unfold chan, insert_channel. cbn [set_table set_store store]. rewrite !nth_lookup.
  destruct (decide (j = length (store t))) as [->|Hne].
  - by rewrite lookup_app_r, Nat.sub_diag by lia.
  - destruct (decide (j < length (store t))%nat); [by rewrite lookup_app_l by lia|].
    rewrite !lookup_ge_None_2; [done|lia|rewrite length_app; cbn; lia].
Qed.

Lemma chan_out t j : (length (store t) <= j)%nat -> chan t j = nobody.
Proof. intros Hj. unfold chan. by apply nth_overflow. Qed.

Lemma enqueued_app id tr ls : enqueued id (tr ++ ls) = enqueued id tr ++ enqueued id ls.
Proof. apply omap_app. Qed.
Lemma dequeued_app id tr ls : dequeued id (tr ++ ls) = dequeued id tr ++ dequeued id ls.
Proof. apply omap_app. Qed.

Lemma elem_of_insert_or {A} (l : list A) i x y : x ∈ <[i := y]> l -> x = y \/ x ∈ l.
Proof.
  intros [k Hk]%list_elem_of_lookup. destruct (decide (k = i)) as [->|Hne].
  - destruct (decide (i < length l)%nat).
    + rewrite list_lookup_insert_eq in Hk by lia. injection Hk as ->. by left.
    + rewrite list_insert_ge in Hk by lia. right. by eapply list_elem_of_lookup_2.
  - rewrite list_lookup_insert_ne in Hk by done. right. by eapply list_elem_of_lookup_2.
Qed.

(** A step that leaves the queues, restrictions and ports alone. *)
Lemma sinv_same ps t tr i p' t' :
  sinv ps t tr ->
  length (store t') = length (store t) -> (forall j, chan t' j = chan t j) -> table t' `sublist_of` table t ->
  proc_ok t p' -> (forall id sender p data a, p' = SendAllowed id sender p data a ->
    restricted (chan t id) = true -> only_from (chan t id) = sender) ->
  sinv (<[i := p']> ps) t' tr.
Proof.
  intros [H1 H2 H3 H4 H5 H6 H7] El Ec Hsub Hp Ha. split.
  - rewrite (map_ext _ (fun id => port (chan t id))) by (intros; by rewrite Ec). eapply sublist_NoDup; [exact H1|].
    by apply (fmap_sublist (fun id => port (chan t id))).
  - rewrite El. rewrite Forall_forall in H2 |- *. intros id Hid. by eapply H2, elem_of_sublist.
  - unfold proc_ok. rewrite El. apply Forall_insert; done.
  - by rewrite El.
  - intros id. by rewrite Ec.
  - intros id. rewrite Ec. apply H6.
  - intros id x Hc Hr. rewrite Ec. destruct (H7 id x Hc Hr) as (R1 & R2 & R3 & R4). split_and!; try done.
    intros sender p data a [Hin|Hin]%elem_of_insert_or; [|by eapply R4].
    rewrite <- R2. symmetry. by eapply Ha.
Qed.

Lemma sinv_create ps t tr i pid p only p' :
  sinv ps t tr -> existsb (fun id => port (chan t id) =? p) (table t) = false -> proc_id p' = None ->
  sinv (<[i := p']> ps) (insert_channel t (new_channel pid p only)) (tr ++ [Created (length (store t)) only]).
Proof.
  intros [H1 H2 H3 H4 H5 H6 H7] Hnew Hp.
  set (c := new_channel pid p only). assert (El : length (store (insert_channel t c)) = S (length (store t))).
  { cbn. rewrite length_app. cbn. lia. }
  assert (Hold : forall j, (j < length (store t))%nat -> chan (insert_channel t c) j = chan t j).
  { intros j Hj. rewrite chan_insert. destruct (decide _); [lia|done]. }
  assert (Hq : forall j, queue (chan (insert_channel t c) j) = queue (chan t j)).
  { intros j. rewrite chan_insert. destruct (decide _) as [->|]; [|done]. by rewrite chan_out. }
  pose proof H2 as H2'. rewrite Forall_forall in H2'. split.
  - cbn [insert_channel set_table table]. rewrite map_app. cbn [map].
    rewrite (map_ext_in _ (fun id => port (chan t id))) by (intros id Hid%list_elem_of_In; by rewrite Hold by auto).
    apply NoDup_app. split; [done|]. split; [|apply NoDup_singleton]. intros x Hx ->%list_elem_of_singleton.
    apply list_elem_of_In, in_map_iff in Hx as (id & Ex & Hin). rewrite chan_insert in Ex.
    destruct (decide (length (store t) = length (store t))); [|done]. cbn in Ex.
    assert (existsb (fun id => port (chan t id) =? p) (table t) = true) by (apply existsb_exists; exists id; split; [done|lia]).
    congruence.
  - rewrite El. cbn [insert_channel set_table table]. apply Forall_app. split; [|constructor; [lia|constructor]].
    eapply Forall_impl; [exact H2|]. intros ? ?; cbv beta in *; lia.
  - apply Forall_insert; [|intros id Hid; by rewrite Hp in Hid]. eapply Forall_impl; [exact H3|].
    intros q Hq' id Hid. rewrite El. specialize (Hq' id Hid). lia.
  - rewrite El. apply Forall_app. split; [|constructor; [cbn; lia|constructor]]. eapply Forall_impl; [exact H4|]. intros ? ?; cbv beta in *; lia.
  - intros id. rewrite enqueued_app, dequeued_app, Hq. cbn. by rewrite !app_nil_r.
  - intros id. rewrite Hq. apply H6.
  - intros id x [Hc|Hc]%elem_of_app Hr.
    + assert (Hid : (id < length (store t))%nat) by (rewrite Forall_forall in H4; by apply H4 in Hc).
      rewrite Hold by done. destruct (H7 id x Hc) as (R1 & R2 & R3 & R4).
      { intros Hin. apply Hr, elem_of_app. by left. }
      split_and!; try done.
      * intros m [Hm|Hm]%elem_of_app; [auto|]. by apply list_elem_of_singleton in Hm.
      * intros sender q data a [Hin|Hin]%elem_of_insert_or; [|by eapply R4]. by subst p'.
    + apply list_elem_of_singleton in Hc as [= -> <-]. rewrite chan_insert.
      destruct (decide (length (store t) = length (store t))); [|done]. split_and!; try done.
      * intros m [Hm|Hm]%elem_of_app; [|by apply list_elem_of_singleton in Hm].
        rewrite Forall_forall in H4. apply H4 in Hm. cbn in Hm. lia.
      * intros sender q data a [Hin|Hin]%elem_of_insert_or; [by subst p'|].
        rewrite Forall_forall in H3. specialize (H3 _ Hin _ eq_refl). lia.
Qed.

(** A change of one channel that keeps its port. *)
Lemma sinv_change ps t tr i p' id g ls :
  sinv ps t tr -> (id < length (store t))%nat -> proc_id p' = None \/ proc_id p' = Some id ->
  (forall sender p data a, p' <> SendAllowed id sender p data a) ->
  port (g (chan t id)) = port (chan t id) ->
  Forall (fun l => label_id l = id /\ forall only, l <> Created id only) ls ->
  (forall j, j <> id -> enqueued j ls = [] /\ dequeued j ls = []) ->
  enqueued id tr ++ enqueued id ls = (dequeued id tr ++ dequeued id ls) ++ queue (g (chan t id)) ->
  zlen (queue (g (chan t id))) <= MAX_QUEUE ->
  (Rerestricted id ∈ ls \/
   (restricted (g (chan t id)) = true \/ restricted (g (chan t id)) = restricted (chan t id)) /\
   only_from (g (chan t id)) = only_from (chan t id) /\
   forall m, Enqueued id m ∈ ls -> restricted (chan t id) = true ->
     forall x, Created id (Some x) ∈ tr -> Rerestricted id ∉ tr -> fst m = x) ->
  sinv (<[i := p']> ps) (on_chan t id g) (tr ++ ls).
Proof.
  intros [H1 H2 H3 H4 H5 H6 H7] Hid Hp Hna Hport Hls Hoth Hq Hcap Hr.
  assert (El : length (store (on_chan t id g)) = length (store t)) by apply length_alter.
  assert (Ec : forall j, chan (on_chan t id g) j = if decide (j = id) then g (chan t id) else chan t j)
    by (intros; by apply chan_on_chan).
  assert (Hnc : forall j only, Created j only ∈ ls -> False).
  { intros j only Hin. rewrite Forall_forall in Hls. destruct (Hls _ Hin) as [Ej Hne]. cbn in Ej. subst j. by eapply Hne. }
  split.
  - rewrite (map_ext _ (fun id => port (chan t id))); [done|]. intros j. rewrite Ec. by destruct (decide _) as [->|].
  - by rewrite El.
  - apply Forall_insert; [|intros j Hj; rewrite El; destruct Hp as [Hp|Hp]; rewrite Hp in Hj; by simplify_eq].
    eapply Forall_impl; [exact H3|]. intros q Hq' j Hj. rewrite El. auto.
  - rewrite El. apply Forall_app. split; [done|]. eapply Forall_impl; [exact Hls|]. by intros l [-> _].
  - intros j. rewrite enqueued_app, dequeued_app, Ec. destruct (decide (j = id)) as [->|Hne]; [done|].
    destruct (Hoth j Hne) as [-> ->]. by rewrite !app_nil_r.
  - intros j. rewrite Ec. destruct (decide _); [done|apply H6].
  - intros j x [Hc|Hc]%elem_of_app Hnr; [|by destruct (Hnc _ _ Hc)].
    rewrite elem_of_app in Hnr. destruct (H7 j x Hc) as (R1 & R2 & R3 & R4); [tauto|]. rewrite Ec.
    assert (Hps : forall sender p data a, SendAllowed j sender p data a ∈ <[i:=p']> ps -> sender = x).
    { intros sender p data a [Hin|Hin]%elem_of_insert_or; [|by eapply R4]. subst p'. cbn in Hp.
      destruct Hp as [|[= ->]]; [done|]. by destruct (Hna sender p data a). }
    destruct (decide (j = id)) as [->|Hne].
    + destruct Hr as [?|(Hr1 & Hr2 & Hr3)]; [tauto|]. split_and!; try done; [by destruct Hr1 as [| ->]|congruence|].
      intros m [Hm|Hm]%elem_of_app; [auto|]. apply (Hr3 m Hm R1 x Hc). tauto.
    + split_and!; try done. intros m [Hm|Hm]%elem_of_app; [auto|]. rewrite Forall_forall in Hls.
      by destruct (Hls _ Hm) as [Em _].
Qed.

Lemma by_port_some t p id : by_port t p = Some id -> id ∈ table t.
Proof. intros [H _]%find_some. by apply list_elem_of_In. Qed.
Lemma by_owner_some t p id : by_owner t p = Some id -> id ∈ table t.
Proof. intros [H _]%find_some. by apply list_elem_of_In. Qed.

Lemma remove_first_sublist f l : remove_first f l `sublist_of` l.
Proof.
  induction l as [|x l IH]; [done|]. cbn. destruct (f x); [by apply sublist_cons|by apply sublist_skip].
Qed.

Lemma sinv_enqueue ps t tr i id sender p data a t' p' :
  sinv ps t tr -> ps !! i = Some (SendAllowed id sender p data a) -> enqueue t id (sender, data) = Some t' ->
  proc_id p' = Some id -> (forall s q d b, p' <> SendAllowed id s q d b) ->
  sinv (<[i := p']> ps) t' (tr ++ [Enqueued id (sender, data)]).
Proof.
  intros HI Hi. unfold enqueue. case_if; [done|]. intros [= <-] Hp Hna.
  pose proof (list_elem_of_lookup_2 _ _ _ Hi) as Hin.
  pose proof (si_procs _ _ _ HI) as Hps. rewrite Forall_forall in Hps. specialize (Hps _ Hin _ eq_refl).
  apply sinv_change; try done; [by right| | | | |].
  - by constructor.
  - intros j Hne. cbn. by destruct (decide (id = j)).
  - cbn. destruct (decide (id = id)); [|done]. rewrite (si_fifo _ _ _ HI), app_nil_r. by rewrite <- app_assoc.
  - cbn. rewrite zlen_snoc. lia.
  - right. cbn. split; [by right|]. split; [done|]. intros m [= ->]%list_elem_of_singleton Hr x Hc Hnr.
    destruct (si_restricted _ _ _ HI id x Hc Hnr) as (_ & _ & _ & R4). cbn. by eapply R4.
Qed.

Lemma sinv_dequeue ps t tr i id p p' m t' :
  sinv ps t tr -> ps !! i = Some p -> proc_id p = Some id -> dequeue t id = (m, t') -> proc_id p' = None ->
  sinv (<[i := p']> ps) t' (tr ++ match m with Some m => [Dequeued id m] | None => [] end).
Proof.
  intros HI Hi Hid E Hp. pose proof (list_elem_of_lookup_2 _ _ _ Hi) as Hin.
  pose proof (si_procs _ _ _ HI) as Hps. rewrite Forall_forall in Hps. specialize (Hps _ Hin _ Hid).
  unfold dequeue in E. destruct (queue (chan t id)) as [|m0 q] eqn:Eq; injection E as <- <-.
  - rewrite app_nil_r. apply (sinv_same ps t tr); try done; [by intros j; rewrite Hp|]. intros; by subst p'.
  - pose proof (si_cap _ _ _ HI id) as Hcap. rewrite Eq, zlen_cons in Hcap. apply sinv_change; try done; [by left|..].
    + intros ? ? ? ? ->. done.
    + by constructor.
    + intros j Hne. cbn. by destruct (decide (id = j)).
    + cbn. destruct (decide (id = id)); [|done]. rewrite (si_fifo _ _ _ HI), Eq, app_nil_r. by rewrite <- app_assoc.
    + cbn. lia.
    + right. cbn. split; [by right|]. split; [done|]. intros m Hm. by apply list_elem_of_singleton in Hm.
Qed.

Lemma sinv_step ps t tr i p cpu stamp p' t' ls :
  sinv ps t tr -> ps !! i = Some p -> micro cpu stamp p t = (p', t', ls) -> sinv (<[i := p']> ps) t' (tr ++ ls).
Proof.
  intros HI Hi. pose proof (list_elem_of_lookup_2 _ _ _ Hi) as Hin.
  pose proof (si_procs _ _ _ HI) as Hps. rewrite Forall_forall in Hps. specialize (Hps _ Hin).
  pose proof (si_table _ _ _ HI) as Htab. rewrite Forall_forall in Htab.
  assert (Hsame : forall p0 t0, length (store t0) = length (store t) -> (forall j, chan t0 j = chan t j) ->
    table t0 `sublist_of` table t -> (forall id, proc_id p0 = Some id -> proc_id p = Some id \/ id ∈ table t) ->
    (forall id s q d b, p0 = SendAllowed id s q d b -> restricted (chan t id) = true -> only_from (chan t id) = s) ->
    sinv (<[i := p0]> ps) t0 (tr ++ [])).
  { intros p0 t0 E1 E2 E3 E4 E5. rewrite app_nil_r. apply (sinv_same ps t tr); try done.
    intros id Hid. destruct (E4 id Hid); [by apply Hps|by apply Htab]. }
  assert (Hport : forall q id, by_port t q = Some id -> id ∈ table t) by (intros; by eapply by_port_some).
  assert (Hown : forall q id, by_owner t q = Some id -> id ∈ table t) by (intros; by eapply by_owner_some).
  destruct p as [pid p only|pid p r|p only|id only|id|p|sender p data a|id sender p data a|id sender p data a
    |id sender p data a|sender p|sender p| |id sender p data a|id sender p data|p|id|pid|id|r]; cbn [micro proc_id] in *.
  - destruct (existsb _ _) eqn:E; intros [= <- <- <-]; [by apply Hsame|]. by apply sinv_create.
  - intros [= <- <- <-]. by apply Hsame.
  - destruct (by_port t p) as [id|] eqn:E; intros [= <- <- <-]; apply Hsame; try done. intros ? [= <-]. eauto.
  - intros [= <- <- <-]. apply sinv_change; try done; [by apply Hps|by right|by constructor|..].
    + cbn. rewrite !app_nil_r. apply HI.
    + apply HI.
    + left. by left.
  - intros [= <- <- <-]. apply sinv_change; try done; [by apply Hps|by left|..].
    + cbn. rewrite !app_nil_r. apply HI.
    + apply HI.
    + right. cbn. split; [by left|]. split; [done|]. intros m Hm. by apply not_elem_of_nil in Hm.
  - intros [= <- <- <-]. apply Hsame; try done. apply remove_first_sublist.
  - destruct (by_port t p) as [id|] eqn:E; intros [= <- <- <-]; apply Hsame; try done. intros ? [= <-]. eauto.
  - destruct (restricted (chan t id)) eqn:E; intros [= <- <- <-]; apply Hsame; try done; [by left|by left|].
    intros id' ? ? ? ? [= -> _ _ _ _] E2. congruence.
  - destruct (Z.eqb_spec (only_from (chan t id)) sender) as [E|E]; intros [= <- <- <-]; apply Hsame; try done; [by left|].
    by intros id' ? ? ? ? [= -> -> _ _ _] _.
  - destruct (enqueue t id (sender, data)) as [t1|] eqn:E; intros [= <- <- <-]; [|by apply Hsame].
    by eapply sinv_enqueue.
  - intros [= <- <- <-]. by apply Hsame.
  - intros [= <- <- <-]. by apply Hsame.
  - intros [= <- <- <-]. by apply Hsame.
  - destruct a; intros [= <- <- <-]; apply Hsame; try done; by left.
  - intros [= <- <- <-]. by apply Hsame.
  - destruct (by_port t p) as [id|] eqn:E; intros [= <- <- <-]; apply Hsame; try done. intros ? [= <-]. eauto.
  - destruct (dequeue t id) as [m t0] eqn:E. intros [= <- <- <-]. by eapply sinv_dequeue.
  - destruct (by_owner t pid) as [id|] eqn:E; intros [= <- <- <-]; apply Hsame; try done. intros ? [= <-]. eauto.
  - destruct (dequeue t id) as [m t0] eqn:E. intros [= <- <- <-]. by eapply sinv_dequeue.
  - intros [= <- <- <-]. by apply Hsame.
Qed.

Lemma sinv_new : sinv [] new [].
Proof.
  assert (Hc : forall id, chan new id = nobody) by (intros id; apply chan_out; cbn; lia).
  split; [apply NoDup_nil; exact I|constructor|constructor|constructor|intros id; by rewrite Hc|intros id; by rewrite Hc|].
  intros id x Hx. by apply not_elem_of_nil in Hx.
Qed.

Lemma sys_inv ps t tr : sys ps t tr -> sinv ps t tr.
Proof.
  induction 1 as [|ps t tr p Hs IH Hp|ps t tr i p cpu stamp p' t' ls Hs IH Hi E]; [apply sinv_new| |by eapply sinv_step].
  destruct IH as [H1 H2 H3 H4 H5 H6 H7]. split; try done.
  - apply Forall_app. split; [done|]. constructor; [|constructor]. intros id Hid. by destruct p.
  - intros id x Hc Hr. destruct (H7 id x Hc Hr) as (R1 & R2 & R3 & R4). split_and!; try done.
    intros sender q data a [Hin|Hin]%elem_of_app; [by eapply R4|]. apply list_elem_of_singleton in Hin. by subst p.
Qed.

Lemma restricted_senders ps t tr id x m :
  sinv ps t tr -> Created id (Some x) ∈ tr -> Rerestricted id ∉ tr -> m ∈ enqueued id tr -> fst m = x.
Proof.
  intros Hs Hc Hr Hm. destruct (si_restricted _ _ _ Hs id x Hc Hr) as (_ & _ & R3 & _).
  apply R3. unfold enqueued in Hm. apply list_elem_of_omap in Hm as (l & Hl & El). destruct l; try done.
  destruct (decide (id0 = id)) as [->|]; [|done]. by injection El as ->.
Qed.

(** ** The properties *)

(** C35 Channels are bounded FIFO queues under any interleaving of calls: on every
    channel the messages accepted are the messages delivered, in the same order,
    followed by those still queued (none is lost, duplicated or reordered), a
    queue never holds more than 256 messages, and no two ports in the table have
    the same number.  A restricted port accepts messages only from the sender it was
    claimed for, as long as its restriction is not changed.  A call that no other
    call interferes with takes at most seven atomic steps and does what the
    operation of the same name does: the split of the calls into atomic steps adds
    no behaviour. *)
Theorem ipc_fifo ps t tr :
  sys ps t tr ->
  NoDup (map (fun id => port (chan t id)) (table t)) /\
  (forall id, enqueued id tr = dequeued id tr ++ queue (chan t id) /\ zlen (queue (chan t id)) <= MAX_QUEUE) /\
  (forall id x m, Created id (Some x) ∈ tr -> Rerestricted id ∉ tr -> m ∈ enqueued id tr -> fst m = x) /\
  (forall cpu stamp p, initial p = true ->
    run CALL_STEPS cpu stamp p t = (let '(r, t') := direct cpu stamp p t in (Done r, t'))).
Proof.
  intros Hs%sys_inv. pose proof Hs as [H1 _ _ _ H5 H6 _]. split; [done|]. split; [auto|]. split.
  - intros id x m. by apply (restricted_senders ps t tr).
  - intros cpu stamp p. apply run_direct.
Qed.

(** ** Witnesses *)

(** Process 7 claims port 80 for sender 9, which sends one message. *)
Lemma demo_sys : exists ps t, sys ps t [Created 0 (Some 9); Enqueued 0 (9, [1; 2])].
Proof.
  assert (H1 : sys [ClaimAudit 7 80 true] (insert_channel new (new_channel 7 80 (Some 9))) [Created 0 (Some 9)]).
  { apply (sys_step [Claim 7 80 (Some 9)] new [] 0 (Claim 7 80 (Some 9)) 0 0); [|done|done].
    apply (sys_call [] new [] (Claim 7 80 (Some 9))); [constructor|done]. }
  apply (sys_call _ _ _ (Send 9 80 [1; 2] false)) in H1; [|done]. cbn [app] in H1.
  pose proof (sys_step _ _ _ 1 _ 0 0 _ _ _ H1 eq_refl eq_refl) as H2.
  pose proof (sys_step _ _ _ 1 _ 0 0 _ _ _ H2 eq_refl eq_refl) as H3.
  pose proof (sys_step _ _ _ 1 _ 0 0 _ _ _ H3 eq_refl eq_refl) as H4.
  pose proof (sys_step _ _ _ 1 _ 0 0 _ _ _ H4 eq_refl eq_refl) as H5.
  eexists _, _. exact H5.
Qed.

Lemma ipc_fifo_witness : exists ps t tr, sys ps t tr /\ enqueued 0 tr = [(9, [1; 2])] /\
  enqueued 0 tr = dequeued 0 tr ++ queue (chan t 0) /\ forall m, m ∈ enqueued 0 tr -> fst m = 9.
Proof.
  destruct demo_sys as (ps & t & H). exists ps, t, [Created 0 (Some 9); Enqueued 0 (9, [1; 2])].
  split; [exact H|]. split; [reflexivity|]. destruct (ipc_fifo _ _ _ H) as (_ & Hq & Hr & _).
  split; [exact (proj1 (Hq 0%nat))|]. intros m Hm. apply (Hr 0%nat 9 m); [by left| |exact Hm].
  intros Hin. apply elem_of_cons in Hin as [Hin|Hin]; [done|]. by apply list_elem_of_singleton in Hin.
Defined.

End Ipc.
