(* ===== verification/Block.v ===== *)
(** EuroFS block devices ([src/crates/eurofs/src/block.rs],
    [src/crates/eurofs/src/faulty.rs]).

    The [BlockDevice] trait is a class of operations; [LawfulDevice] states
    what a working device promises to the filesystem, and the in-memory device
    of the sources is proved to keep it.  The fault-injecting device is
    modelled as written, and [Traced] records what reaches a device so that
    crashes can be described as a device losing its unflushed writes. *)

From S2P Require Import Prelude Bytes.

Module Block.

(** Block size of EuroFS ([DEFAULT_BLOCK_SIZE] of superblock.rs, [BS] of disk.rs). *)
Definition BS : Z := 4096.

Inductive BlockError := OutOfBounds | IoError | NotAligned.

(** The trait.  [read_blocks] takes the length of the caller's buffer; every
    state-changing method returns the device it leaves behind. *)
Class BlockDevice (D : Type) := {
  block_size : D -> Z;
  block_count : D -> Z;
  read_blocks : D -> Z -> Z -> Z -> outcome BlockError (list Z);
  write_blocks : D -> Z -> Z -> list Z -> outcome BlockError unit * D;
  flush : D -> outcome BlockError unit * D;
  discard : D -> Z -> Z -> outcome BlockError unit * D;
}.

(** ** The in-memory device *)

Record MemoryBlockDevice := mkMem {
  data : list Z;
  mem_block_size : Z;
  flush_count : Z;
  discards : list (Z * Z);
}.

Definition is_power_of_two (n : Z) : bool := (0 <? n) && (Z.land n (n - 1) =? 0).

Definition mem_new (count bs : Z) : outcome BlockError MemoryBlockDevice :=
  if (512 <=? bs) && is_power_of_two bs
  then Ok (mkMem (zrepeat 0 (count * bs)) bs 0 [])
  else Panic.

Definition discarded_blocks (d : MemoryBlockDevice) : Z :=
  foldr (fun p acc => snd p + acc) 0 (discards d).

Definition span (d : MemoryBlockDevice) (start count : Z) : outcome BlockError (Z * Z) :=
  let bs := mem_block_size d in
  if U64_MAX <? start * bs then Err OutOfBounds
  else
    let offset := start * bs in
    let len := count * bs in
    let? e := add64 offset len in
    if zlen (data d) <? e then Err OutOfBounds else Ok (offset, len).

Definition mem_read (d : MemoryBlockDevice) (start count buf_len : Z)
  : outcome BlockError (list Z) :=
  let? (offset, len) := span d start count in
  if negb (buf_len =? len) then Err NotAligned
  else Ok (slice (data d) offset len).

Definition mem_write (d : MemoryBlockDevice) (start count : Z) (buf : list Z)
  : outcome BlockError unit * MemoryBlockDevice :=
  match span d start count with
  | Ok (offset, len) =>
      if negb (zlen buf =? len) then (Err NotAligned, d)
      else (Ok tt, mkMem (splice (data d) offset buf) (mem_block_size d) (flush_count d) (discards d))
  | Err e => (Err e, d)
  | Panic => (Panic, d)
  | OutOfFuel => (OutOfFuel, d)
  end.

Definition mem_flush (d : MemoryBlockDevice) : outcome BlockError unit * MemoryBlockDevice :=
  (Ok tt, mkMem (data d) (mem_block_size d) (flush_count d + 1) (discards d)).

Definition mem_discard (d : MemoryBlockDevice) (start count : Z)
  : outcome BlockError unit * MemoryBlockDevice :=
  match span d start count with
  | Ok (offset, len) =>
      (Ok tt, mkMem (splice (data d) offset (zrepeat 0 len)) (mem_block_size d)
                (flush_count d) (discards d ++ [(start, count)]))
  | Err e => (Err e, d)
  | Panic => (Panic, d)
  | OutOfFuel => (OutOfFuel, d)
  end.

#[global] Instance memory_device : BlockDevice MemoryBlockDevice := {
  block_size := mem_block_size;
  block_count d := zlen (data d) / mem_block_size d;
  read_blocks := mem_read;
  write_blocks := mem_write;
  flush := mem_flush;
  discard := mem_discard;
}.

(** ** The fault-injecting device *)

Record FaultyBlockDevice (D : Type) := mkFaulty {
  inner : D;
  writes : Z;
  crash_after : option Z;
  tear_at : option Z;
  crashed : bool;
  sb_write_ops : list Z;
}.
Arguments mkFaulty {D}.
Arguments inner {D}.
Arguments writes {D}.
Arguments crash_after {D}.
Arguments tear_at {D}.
Arguments crashed {D}.
Arguments sb_write_ops {D}.

Section faulty.
Context {D : Type} `{BlockDevice D}.

Definition faulty_new (d : D) : FaultyBlockDevice D := mkFaulty d 0 None None false [].
Definition faulty_crash_after (d : D) (k : Z) : FaultyBlockDevice D :=
  mkFaulty d 0 (Some k) None false [].
Definition faulty_tear_at (d : D) (k : Z) : FaultyBlockDevice D :=
  mkFaulty d 0 None (Some k) false [].

Definition set_inner (f : FaultyBlockDevice D) (d : D) : FaultyBlockDevice D :=
  mkFaulty d (writes f) (crash_after f) (tear_at f) (crashed f) (sb_write_ops f).

Definition set_crashed (f : FaultyBlockDevice D) : FaultyBlockDevice D :=
  mkFaulty (inner f) (writes f) (crash_after f) (tear_at f) true (sb_write_ops f).

(** The torn image of a write: its first half, then zeros. *)
Definition torn_half (buf : list Z) : list Z :=
  let half := zlen buf / 2 in
  slice buf 0 half ++ zrepeat 0 (zlen buf - half).

Definition faulty_write (f : FaultyBlockDevice D) (start count : Z) (buf : list Z)
  : outcome BlockError unit * FaultyBlockDevice D :=
  if crashed f then (Ok tt, f)
  else
    let idx := writes f + 1 in
    let f := mkFaulty (inner f) idx (crash_after f) (tear_at f) (crashed f)
               (if start <=? 2 then sb_write_ops f ++ [idx] else sb_write_ops f) in
    if bool_decide (tear_at f = Some idx) then
      let '(_, d) := write_blocks (inner f) start count (torn_half buf) in
      (Ok tt, set_crashed (set_inner f d))
    else if match crash_after f with Some k => k <? idx | None => false end then
      (Ok tt, set_crashed f)
    else
      let '(r, d) := write_blocks (inner f) start count buf in
      (r, set_inner f d).

Definition faulty_flush (f : FaultyBlockDevice D) : outcome BlockError unit * FaultyBlockDevice D :=
  if crashed f then (Ok tt, f)
  else let '(r, d) := flush (inner f) in (r, set_inner f d).

Definition faulty_discard (f : FaultyBlockDevice D) (start count : Z)
  : outcome BlockError unit * FaultyBlockDevice D :=
  if crashed f then (Ok tt, f)
  else let '(r, d) := discard (inner f) start count in (r, set_inner f d).

#[global] Instance faulty_device : BlockDevice (FaultyBlockDevice D) := {
  block_size f := block_size (inner f);
  block_count f := block_count (inner f);
  read_blocks f := read_blocks (inner f);
  write_blocks := faulty_write;
  flush := faulty_flush;
  discard := faulty_discard;
}.
End faulty.

(** ** What a working device promises *)

Class LawfulDevice (D : Type) `{BlockDevice D} := {
  (** The device's own invariant. *)
  dev_ok : D -> Prop;
  (** What block [b] holds. *)
  contents : D -> Z -> list Z;
  law_size d : dev_ok d -> block_size d = BS;
  law_count d : dev_ok d -> 0 <= block_count d /\ block_count d * BS <= U64_MAX;
  law_contents d b : dev_ok d -> 0 <= b < block_count d ->
    zlen (contents d b) = BS /\ bytes_ok (contents d b);
  law_read d b : dev_ok d -> 0 <= b < block_count d ->
    read_blocks d b 1 BS = Ok (contents d b);
  law_write d b buf : dev_ok d -> 0 <= b < block_count d -> zlen buf = BS -> bytes_ok buf ->
    exists d', write_blocks d b 1 buf = (Ok tt, d') /\ dev_ok d' /\
      block_count d' = block_count d /\
      forall b', 0 <= b' < block_count d ->
        contents d' b' = if b' =? b then buf else contents d b';
  law_flush d : dev_ok d ->
    exists d', flush d = (Ok tt, d') /\ dev_ok d' /\ block_count d' = block_count d /\
      forall b', 0 <= b' < block_count d -> contents d' b' = contents d b';
  law_discard d start count : dev_ok d -> 0 <= start -> 0 <= count -> start + count <= block_count d ->
    exists d', discard d start count = (Ok tt, d') /\ dev_ok d' /\ block_count d' = block_count d /\
      forall b', 0 <= b' < block_count d -> ~ start <= b' < start + count -> contents d' b' = contents d b';
}.

(** The in-memory device with 4096-byte blocks, addressable in [u64]. *)
Record mem_ok (d : MemoryBlockDevice) : Prop := mkMemOk {
  mem_bs : mem_block_size d = BS;
  mem_bytes : bytes_ok (data d);
  mem_whole : exists n, zlen (data d) = n * BS;
  mem_addr : zlen (data d) <= U64_MAX;
}.

Lemma span_range d b k :
  mem_ok d -> 0 <= b -> 0 <= k -> b + k <= zlen (data d) / BS ->
  span d b k = Ok (b * BS, k * BS) /\ 0 <= b * BS /\ b * BS + k * BS <= zlen (data d).
Proof.
  intros [Hbs _ [n Hn] Haddr] Hb Hk Hbk. rewrite Hn, Z.div_mul in Hbk by done.
  unfold span. rewrite Hbs. unfold BS in *.
  destruct (Z.ltb_spec U64_MAX (b * 4096)); [lia|]. unfold add64.
  destruct (Z.leb_spec (b * 4096 + k * 4096) U64_MAX); [|lia]. cbn [obind].
  destruct (Z.ltb_spec (zlen (data d)) (b * 4096 + k * 4096)); [lia|]. split; [done | lia].
Qed.

Lemma span_in d b :
  mem_ok d -> 0 <= b < zlen (data d) / BS ->
  span d b 1 = Ok (b * BS, BS) /\ 0 <= b * BS /\ b * BS + BS <= zlen (data d).
Proof. intros Hd Hb. pose proof (span_range d b 1 Hd) as H. rewrite Z.mul_1_l in H. apply H; lia. Qed.

Lemma mem_ok_splice d o s n :
  mem_ok d -> bytes_ok s -> 0 <= o -> o + zlen s <= zlen (data d) ->
  mem_ok (mkMem (splice (data d) o s) (mem_block_size d) n (discards d)) /\
  zlen (splice (data d) o s) = zlen (data d).
Proof.
  intros [Hbs Hby Hn Haddr] Hs Ho Hlen.
  assert (E : zlen (splice (data d) o s) = zlen (data d)) by (apply zlen_splice; lia).
  split; [|done]. split; cbn; rewrite ?E; auto with euro.
Qed.

Lemma mem_block_splice d b s b' :
  mem_ok d -> 0 <= b < zlen (data d) / BS -> zlen s = BS -> 0 <= b' < zlen (data d) / BS ->
  slice (splice (data d) (b * BS) s) (b' * BS) BS = if b' =? b then s else slice (data d) (b' * BS) BS.
Proof.
  intros Hd Hb Hs Hb'.
  destruct (span_in d b Hd Hb) as (_ & ? & ?). destruct (span_in d b' Hd Hb') as (_ & ? & ?).
  destruct (Z.eqb_spec b' b) as [->|Hne].
  - rewrite <- Hs at 3. apply slice_splice_same; lia.
  - apply (slice_splice_other 0); unfold BS in *; lia.
Qed.

#[global] Program Instance memory_lawful : LawfulDevice MemoryBlockDevice := {
  dev_ok := mem_ok;
  contents d b := slice (data d) (b * BS) BS;
}.
Next Obligation. intros d []. done. Qed.
Next Obligation.
  intros d [Hbs _ [n Hn] Ha]. cbn. rewrite Hbs, Hn, Z.div_mul by done.
  pose proof (zlen_nonneg (data d)). unfold BS in *. lia.
Qed.
Next Obligation.
  intros d b Hd Hb. cbn in Hb. rewrite (mem_bs _ Hd) in Hb.
  destruct (span_in d b Hd Hb) as (_ & ? & ?). split.
  - apply zlen_slice; (done || lia).
  - apply bytes_ok_slice, Hd.
Qed.
Next Obligation.
  intros d b Hd Hb. cbn in *. rewrite (mem_bs _ Hd) in Hb.
  unfold mem_read. by destruct (span_in d b Hd Hb) as (-> & _).
Qed.
Next Obligation.
  intros d b buf Hd Hb Hl Hby. cbn in *. rewrite (mem_bs _ Hd) in Hb |- *.
  destruct (span_in d b Hd Hb) as (E & ? & ?).
  destruct (mem_ok_splice d (b * BS) buf (flush_count d) Hd Hby) as [H1 H2]; [lia..|].
  eexists. unfold mem_write. rewrite E, Hl. cbn. split; [done|]. split; [done|].
  cbn [data mem_block_size]. rewrite (mem_bs _ Hd), H2.
  split; [done|]. intros b' Hb'. by apply mem_block_splice.
Qed.
Next Obligation.
  intros d Hd. eexists. split; [done|]. destruct Hd. by repeat split.
Qed.
Next Obligation.
  intros d b k Hd Hb Hk Hbk. cbn in *. rewrite (mem_bs _ Hd) in Hbk |- *.
  destruct (span_range d b k Hd Hb Hk Hbk) as (E & ? & ?). unfold mem_discard. rewrite E.
  assert (Hz : zlen (zrepeat 0 (k * BS)) = k * BS) by (apply zlen_zrepeat; unfold BS; lia).
  destruct (mem_ok_splice d (b * BS) (zrepeat 0 (k * BS)) (flush_count d) Hd) as [H1 H2];
    [auto with euro|lia..|].
  eexists. split; [done|]. split; [by destruct H1|].
  cbn [data mem_block_size]. rewrite (mem_bs _ Hd), H2. split; [done|]. intros b' Hb' Hne.
  destruct (span_in d b' Hd Hb') as (_ & ? & ?). apply (slice_splice_other 0); unfold BS in *; lia.
Qed.

(** A fresh in-memory device of [n] blocks. *)
Definition blank (n : Z) : MemoryBlockDevice := mkMem (zrepeat 0 (n * BS)) BS 0 [].

Lemma mem_new_blank n : mem_new n BS = Ok (blank n).
Proof. done. Qed.

Lemma blank_ok n : 0 <= n -> n * BS <= U64_MAX -> mem_ok (blank n) /\ block_count (blank n) = n.
Proof.
  intros Hn Hs. assert (E : zlen (zrepeat 0 (n * BS)) = n * BS) by (apply zlen_zrepeat; unfold BS; lia).
  split; [split; cbn; rewrite ?E; eauto with euro|].
  cbn. rewrite E. apply Z.div_mul. done.
Qed.

End Block.
