(* ===== verification/Cache.v ===== *)
(** The block cache ([src/crates/eurofs/src/cache.rs]).

    A write-through cache of [capacity] slots in front of a [BlockDevice], with
    CLOCK eviction.  The sections the code runs under one lock are separate
    definitions, so that the sequential operations are their composition and
    the interleavings of concurrent readers are sequences of them.  Proved
    against the interface [LawfulDevice]: the cache answers every request as
    the device alone would, for any interleaving of readers. *)

From S2P Require Import Prelude Bytes Block.

Module Cache.
Import Block.

Record Slot := mkSlot {
  lba : Z;
  sdata : list Z;
  valid : bool;
  dirty : bool;
  refbit : bool;
}.

(** [dev], the two fields of [Cache] and the counters. *)
Record BlockCache (D : Type) := mkCache {
  dev : D;
  slots : list Slot;
  hand : nat;
  cache_bs : Z;
  hits : Z;
  misses : Z;
}.
Arguments mkCache {D}.
Arguments dev {D}.
Arguments slots {D}.
Arguments hand {D}.
Arguments cache_bs {D}.
Arguments hits {D}.
Arguments misses {D}.

Definition empty_slot : Slot := mkSlot U64_MAX [] false false false.

(** [iter().position(|s| s.valid && s.lba == lba)] *)
Definition holds (b : Z) (s : Slot) : bool := valid s && (lba s =? b).

Fixpoint position (f : Slot -> bool) (l : list Slot) : option nat :=
  match l with
  | [] => None
  | s :: l' => if f s then Some 0%nat else S <$> position f l'
  end.

Definition set_ref (r : bool) (s : Slot) : Slot := mkSlot (lba s) (sdata s) (valid s) (dirty s) r.

Section cache.
Context {D : Type} `{BlockDevice D}.

Definition new (d : D) (capacity : nat) : BlockCache D :=
  mkCache d (replicate (Nat.max capacity 1) empty_slot) 0 (block_size d) 0 0.

Definition set_slots (c : BlockCache D) (l : list Slot) : BlockCache D :=
  mkCache (dev c) l (hand c) (cache_bs c) (hits c) (misses c).
Definition set_dev (c : BlockCache D) (d : D) : BlockCache D :=
  mkCache d (slots c) (hand c) (cache_bs c) (hits c) (misses c).
Definition set_hand (c : BlockCache D) (h : nat) : BlockCache D :=
  mkCache (dev c) (slots c) h (cache_bs c) (hits c) (misses c).

Definition mark (i : nat) (r : bool) (c : BlockCache D) : BlockCache D :=
  set_slots c (alter (set_ref r) i (slots c)).
Definition count_hit (c : BlockCache D) : BlockCache D :=
  mkCache (dev c) (slots c) (hand c) (cache_bs c) ((hits c + 1) mod 2 ^ 64) (misses c).
Definition count_miss (c : BlockCache D) : BlockCache D :=
  mkCache (dev c) (slots c) (hand c) (cache_bs c) (hits c) ((misses c + 1) mod 2 ^ 64).

Definition slot (c : BlockCache D) (i : nat) : Slot := nth i (slots c) empty_slot.

(** The hit path of [read_block], under the read lock. *)
Definition probe (b : Z) (c : BlockCache D) : option (list Z) * BlockCache D :=
  match position (holds b) (slots c) with
  | Some i => (Some (sdata (slot c i)), count_hit (mark i true c))
  | None => (None, c)
  end.

(** The sweep of the clock hand. *)
Fixpoint evict_loop (fuel : nat) (c : BlockCache D) : outcome BlockError nat * BlockCache D :=
  match fuel with
  | O => (OutOfFuel, c)
  | S k =>
      let i := hand c in
      let c := set_hand c ((hand c + 1) mod length (slots c))%nat in
      if refbit (slot c i) then evict_loop k (mark i false c) else (Ok i, c)
  end.

Definition evict_index : ST (BlockCache D) BlockError nat := fun c =>
  match position (fun s => negb (valid s)) (slots c) with
  | Some i => (Ok i, c)
  | None => evict_loop (length (slots c) + 1) c
  end.

Definition dev_write (b : Z) (buf : list Z) : ST (BlockCache D) BlockError unit := fun c =>
  let '(r, d) := write_blocks (dev c) b 1 buf in (r, set_dev c d).

(** Evicting a slot and filling it, writing a dirty victim back first. *)
Definition place (b : Z) (buf : list Z) : ST (BlockCache D) BlockError unit :=
  let! victim := evict_index in
  let! s := sget (fun c => slot c victim) in
  let! _ := (if valid s && dirty s then dev_write (lba s) (sdata s) else sret tt) in
  smodify (fun c => set_slots c (<[victim := mkSlot b buf true false true]> (slots c))).

(** The first half of [load_miss], under the device lock. *)
Definition fetch (b : Z) : ST (BlockCache D) BlockError (list Z) := sgets (fun c => read_blocks (dev c) b 1 (cache_bs c)).

(** The second half of [load_miss], under the write lock. *)
Definition settle (b : Z) (buf : list Z) : ST (BlockCache D) BlockError (list Z) := fun c =>
  match position (holds b) (slots c) with
  | Some i => (Ok (sdata (slot c i)), count_hit (mark i true c))
  | None => (let! _ := place b buf in sret buf) (count_miss c)
  end.

Definition load_miss (b : Z) : ST (BlockCache D) BlockError (list Z) :=
  let! buf := fetch b in settle b buf.

Definition read_block (b : Z) : ST (BlockCache D) BlockError (list Z) := fun c =>
  match probe b c with
  | (Some buf, c') => (Ok buf, c')
  | (None, c') => load_miss b c'
  end.

(** The second half of [write_block], under the write lock. *)
Definition update (b : Z) (buf : list Z) : ST (BlockCache D) BlockError unit := fun c =>
  match position (holds b) (slots c) with
  | Some i =>
      (Ok tt, set_slots c (alter (fun s => mkSlot (lba s) buf (valid s) (dirty s) true) i (slots c)))
  | None => place b buf c
  end.

Definition write_block (b : Z) (buf : list Z) : ST (BlockCache D) BlockError unit :=
  let! _ := dev_write b buf in update b buf.

Definition write_back (i : nat) : ST (BlockCache D) BlockError unit :=
  let! s := sget (fun c => slot c i) in
  if valid s && dirty s then
    let! _ := dev_write (lba s) (sdata s) in
    smodify (fun c => set_slots c (alter (fun s => mkSlot (lba s) (sdata s) (valid s) false (refbit s)) i (slots c)))
  else sret tt.

Definition dev_flush : ST (BlockCache D) BlockError unit := fun c => let '(r, d) := flush (dev c) in (r, set_dev c d).

Definition cache_flush : ST (BlockCache D) BlockError unit := fun c =>
  (let! _ := sfor (seq 0 (length (slots c))) write_back in dev_flush) c.

Definition stats (c : BlockCache D) : Z * Z := (hits c, misses c).

(** ** The cache as a [BlockDevice]

    [read_blocks] takes a shared reference but changes the cache, so it is a
    state passing function here; [dst] is what the loop has copied so far. *)
Fixpoint read_loop (ks : list Z) (start : Z) (dst : list Z) : ST (BlockCache D) BlockError (list Z) :=
  match ks with
  | [] => sret dst
  | i :: ks' =>
      let! b := slift (add64 start i) in
      let! blk := read_block b in
      let! bs := sget cache_bs in
      if zlen blk <? bs then slift Panic
      else read_loop ks' start (dst ++ slice blk 0 bs)
  end.

Definition cache_read_blocks (start count buf_len : Z) : ST (BlockCache D) BlockError (list Z) :=
  let! bs := sget cache_bs in
  if negb (buf_len =? count * bs) then sthrow NotAligned
  else read_loop (zrange 0 count) start [].

Definition cache_write_blocks (start count : Z) (buf : list Z) : ST (BlockCache D) BlockError unit :=
  let! bs := sget cache_bs in
  if negb (zlen buf =? count * bs) then sthrow NotAligned
  else sfor (zrange 0 count) (fun i =>
    let! b := slift (add64 start i) in write_block b (slice buf (i * bs) bs)).

Definition invalidate (start count : Z) (s : Slot) : Slot :=
  if valid s && (start <=? lba s) && (lba s <? start + count)
  then mkSlot U64_MAX (sdata s) false false (refbit s) else s.

Definition cache_discard (start count : Z) : ST (BlockCache D) BlockError unit := fun c =>
  if existsb (fun s => valid s && (start <=? lba s)) (slots c) && (U64_MAX <? start + count) then (Panic, c)
  else
  let c := set_slots c (map (invalidate start count) (slots c)) in
  let '(r, d) := discard (dev c) start count in (r, set_dev c d).

(** ** Requests to a device, with and without the cache *)

Inductive request :=
| Read (start count : Z)
| Write (start count : Z) (buf : list Z)
| Flush
| Discard (start count : Z).

Inductive reply :=
| Data (r : outcome BlockError (list Z))
| Status (r : outcome BlockError unit).

Definition cached (q : request) (c : BlockCache D) : reply * BlockCache D :=
  match q with
  | Read s n => let '(r, c') := cache_read_blocks s n (n * BS) c in (Data r, c')
  | Write s n buf => let '(r, c') := cache_write_blocks s n buf c in (Status r, c')
  | Flush => let '(r, c') := cache_flush c in (Status r, c')
  | Discard s n => let '(r, c') := cache_discard s n c in (Status r, c')
  end.

(** The device alone, a block at a time. *)
Fixpoint read_each (d : D) (bs : list Z) : outcome BlockError (list Z) :=
  match bs with
  | [] => Ok []
  | b :: bs' => let? x := read_blocks d b 1 BS in let? r := read_each d bs' in Ok (x ++ r)
  end.

Definition write_each (s n : Z) (buf : list Z) : ST D BlockError unit :=
  sfor (zrange 0 n) (fun i d => write_blocks d (s + i) 1 (slice buf (i * BS) BS)).

Definition plain (q : request) (d : D) : reply * D :=
  match q with
  | Read s n => (Data (read_each d (zrange s (s + n))), d)
  | Write s n buf => let '(r, d') := write_each s n buf d in (Status r, d')
  | Flush => let '(r, d') := flush d in (Status r, d')
  | Discard s n => let '(r, d') := discard d s n in (Status r, d')
  end.

Fixpoint serve {S} (f : request -> S -> reply * S) (qs : list request) (s : S) : list reply * S :=
  match qs with
  | [] => ([], s)
  | q :: qs' => let '(r, s') := f q s in let '(rs, s'') := serve f qs' s' in (r :: rs, s'')
  end.

Definition request_ok (count : Z) (q : request) : Prop :=
  match q with
  | Read s n => 0 <= s /\ 0 <= n /\ s + n <= count
  | Write s n buf => 0 <= s /\ 0 <= n /\ s + n <= count /\ zlen buf = n * BS /\ bytes_ok buf
  | Flush => True
  | Discard s n => 0 <= s /\ 0 <= n /\ s + n <= count
  end.

(** ** Concurrent readers

    A reader is between two of the lock sections of [read_block]; a request
    that writes has the cache to itself ([&mut self]). *)
Inductive reader :=
| Start (b : Z)
| Missed (b : Z)
| Fetched (b : Z) (buf : list Z)
| Done (b : Z) (buf : list Z)
| Failed (b : Z).

Definition rstep (r : reader) (c : BlockCache D) : reader * BlockCache D :=
  match r with
  | Start b => match probe b c with (Some buf, c') => (Done b buf, c') | (None, c') => (Missed b, c') end
  | Missed b => match fetch b c with (Ok buf, c') => (Fetched b buf, c') | (_, c') => (Failed b, c') end
  | Fetched b buf => match settle b buf c with (Ok r, c') => (Done b r, c') | (_, c') => (Failed b, c') end
  | Done _ _ | Failed _ => (r, c)
  end.
End cache.

(** ** Positions and reference bits *)

Lemma position_some f l i : position f l = Some i -> exists s, l !! i = Some s /\ f s = true.
Proof.
  revert i. induction l as [|s l IH]; intros i Hi; [done|]. cbn in Hi. destruct (f s) eqn:E.
  - injection Hi as <-. eauto.
  - destruct (position f l) as [j|]; [|done]. injection Hi as <-. cbn. auto.
Qed.

Lemma position_none f l i s : position f l = None -> l !! i = Some s -> f s = false.
Proof.
  revert i. induction l as [|x l IH]; intros i Hp Hi; [done|]. cbn in Hp. destruct (f x) eqn:E; [done|].
  destruct (position f l); [done|]. destruct i; cbn in Hi; [congruence|eauto].
Qed.

Lemma lookup_alter_some (f : Slot -> Slot) (l : list Slot) (i j : nat) s :
  alter f i l !! j = Some s -> (i = j /\ exists s0, l !! j = Some s0 /\ s = f s0) \/ (i <> j /\ l !! j = Some s).
Proof.
  destruct (decide (i = j)) as [->|Hne].
  - rewrite list_lookup_alter_eq. destruct (l !! j) as [s0|]; [|done]. cbn. intros [= <-]. eauto.
  - rewrite list_lookup_alter_ne by done. auto.
Qed.

Fixpoint refs (l : list Slot) : nat :=
  match l with [] => 0%nat | s :: l' => ((if refbit s then 1 else 0) + refs l')%nat end.

Lemma refs_alter l i s :
  l !! i = Some s -> refbit s = true -> (refs (alter (set_ref false) i l) < refs l)%nat.
Proof.
  revert i. induction l as [|x l IH]; intros i Hi Hr; [done|]. destruct i as [|i]; cbn in Hi |- *.
  - injection Hi as ->. rewrite Hr. lia.
  - specialize (IH i Hi Hr). lia.
Qed.

Lemma refs_le l : (refs l <= length l)%nat.
Proof. induction l as [|s l IH]; cbn; [lia|]. destruct (refbit s); lia. Qed.

(** Two slot lists that differ in reference bits only. *)
Definition same_bodies (l l' : list Slot) : Prop := map (set_ref false) l = map (set_ref false) l'.

Lemma same_bodies_mark i r l : same_bodies l (alter (set_ref r) i l).
Proof.
  unfold same_bodies. revert i. induction l as [|x l IH]; intros i; [done|]. destruct i; cbn; f_equal; auto.
Qed.

Lemma same_bodies_lookup l l' i s' :
  same_bodies l l' -> l' !! i = Some s' -> exists s, l !! i = Some s /\ set_ref false s = set_ref false s'.
Proof.
  intros Hb Hs. assert (E : map (set_ref false) l !! i = Some (set_ref false s')).
  { rewrite Hb. by rewrite list_lookup_fmap, Hs. }
  rewrite list_lookup_fmap in E. destruct (l !! i) as [s|]; [|done]. cbn in E. injection E. intros. eexists. split; [done|].
  unfold set_ref. congruence.
Qed.

Lemma same_bodies_length l l' : same_bodies l l' -> length l = length l'.
Proof. intros E%(f_equal length). by rewrite !length_map in E. Qed.

Section coherence.
Context {D : Type} `{LawfulDevice D}.
Implicit Types (c : BlockCache D) (d : D).

(** The cache invariant: a valid slot is clean and holds what the device holds,
    and no block is cached twice. *)
Record coherent c : Prop := mkCoherent {
  ch_dev : dev_ok (dev c);
  ch_bs : cache_bs c = BS;
  ch_hand : (hand c < length (slots c))%nat;
  ch_slot i s : slots c !! i = Some s -> valid s = true ->
    dirty s = false /\ 0 <= lba s < block_count (dev c) /\ sdata s = contents (dev c) (lba s);
  ch_uniq i j s s' : slots c !! i = Some s -> slots c !! j = Some s' ->
    valid s = true -> valid s' = true -> lba s = lba s' -> i = j;
}.

Lemma coherent_new d n : dev_ok d -> coherent (new d n).
Proof.
  intros Hd. split; cbn [new dev cache_bs slots hand]; [done|by apply law_size|rewrite length_replicate; lia|..].
  - intros i s [-> _]%lookup_replicate. done.
  - intros i j s s' [-> _]%lookup_replicate. done.
Qed.

Lemma coherent_bodies c c' :
  coherent c -> dev c' = dev c -> cache_bs c' = cache_bs c -> (hand c' < length (slots c'))%nat ->
  same_bodies (slots c) (slots c') -> coherent c'.
Proof.
  intros [H1 H2 H3 H4 H5] Ed Eb Hh Hs. split; rewrite ?Ed, ?Eb; try done.
  - intros i s' Hi Hv. destruct (same_bodies_lookup _ _ _ _ Hs Hi) as (s & Hi' & E).
    injection E. intros. destruct (H4 i s Hi') as (? & ? & ?); [congruence|]. repeat split; congruence || lia.
  - intros i j s t Hi Hj Hv Hv' El.
    destruct (same_bodies_lookup _ _ _ _ Hs Hi) as (s1 & Hi' & E1).
    destruct (same_bodies_lookup _ _ _ _ Hs Hj) as (s2 & Hj' & E2).
    injection E1. injection E2. intros. apply (H5 i j s1 s2); congruence.
Qed.

Lemma coherent_mark c i r : coherent c -> coherent (mark i r c).
Proof.
  intros Hc. apply (coherent_bodies c); try done; [cbn; rewrite length_alter; apply Hc|apply same_bodies_mark].
Qed.

Lemma coherent_count_hit c : coherent c -> coherent (count_hit c).
Proof. intros []. by split. Qed.

Lemma coherent_count_miss c : coherent c -> coherent (count_miss c).
Proof. intros []. by split. Qed.

Lemma slot_lookup c i : (i < length (slots c))%nat -> slots c !! i = Some (slot c i).
Proof.
  intros Hi. destruct (lookup_lt_is_Some_2 _ _ Hi) as [s Hs]. unfold slot. by rewrite (nth_lookup_Some _ _ _ _ Hs).
Qed.

(** The clock hand stops after at most one sweep. *)
Lemma evict_loop_ok fuel c :
  coherent c -> (refs (slots c) < fuel)%nat ->
  exists i c', evict_loop fuel c = (Ok i, c') /\ coherent c' /\ dev c' = dev c /\
    (i < length (slots c'))%nat /\ same_bodies (slots c) (slots c').
Proof.
  revert c. induction fuel as [|k IH]; intros c Hc Hf; [lia|]. cbn [evict_loop].
  assert (Hn : (0 < length (slots c))%nat) by (pose proof (ch_hand _ Hc); lia).
  set (c1 := set_hand c _).
  assert (Hc1 : coherent c1).
  { apply (coherent_bodies c); try done. cbn. apply Nat.mod_upper_bound. lia. }
  destruct (refbit (slot c1 (hand c))) eqn:Er.
  - pose proof (ch_hand _ Hc) as Hh. change (slots c) with (slots c1) in Hh.
    pose proof (refs_alter _ _ _ (slot_lookup c1 _ Hh) Er) as Hr.
    destruct (IH (mark (hand c) false c1)) as (i & c' & E & H1 & H2 & H3 & H4).
    { by apply coherent_mark. } { change (slots c) with (slots c1) in Hf. unfold mark. cbn [slots set_slots]. lia. }
    exists i, c'. split_and!; try done. etransitivity; [apply same_bodies_mark|apply H4].
  - exists (hand c), c1. split_and!; try done. apply Hc.
Qed.

Lemma evict_index_ok c :
  coherent c ->
  exists i c', evict_index c = (Ok i, c') /\ coherent c' /\ dev c' = dev c /\
    (i < length (slots c'))%nat /\ same_bodies (slots c) (slots c').
Proof.
  intros Hc. unfold evict_index. destruct (position _ (slots c)) as [i|] eqn:E.
  - apply position_some in E as (s & Hs%lookup_lt_Some & _). by exists i, c.
  - apply evict_loop_ok; [done|]. pose proof (refs_le (slots c)). lia.
Qed.

(** No slot holds block [b]. *)
Definition absent (b : Z) (l : list Slot) : Prop := forall i s, l !! i = Some s -> valid s = true -> lba s <> b.

Lemma position_absent b l : position (holds b) l = None -> absent b l.
Proof.
  intros Hp i s Hi Hv E. pose proof (position_none _ _ _ _ Hp Hi) as Hf. unfold holds in Hf.
  rewrite Hv, E, Z.eqb_refl in Hf. done.
Qed.

Lemma place_ok b c :
  coherent c -> absent b (slots c) -> 0 <= b < block_count (dev c) ->
  exists c', place b (contents (dev c) b) c = (Ok tt, c') /\ coherent c' /\ dev c' = dev c.
Proof.
  intros Hc Ha Hb. destruct (evict_index_ok c Hc) as (i & c1 & E & H1 & Ed & Hi & Hs).
  unfold place. erewrite sbind_ok by exact E. cbn [sget sbind].
  pose proof (slot_lookup c1 i Hi) as Hl.
  assert (valid (slot c1 i) && dirty (slot c1 i) = false) as ->.
  { destruct (valid (slot c1 i)) eqn:Ev; [|done]. destruct (ch_slot _ H1 _ _ Hl Ev) as (-> & _). done. }
  cbn [sret smodify]. eexists. split; [done|]. split; [|exact Ed].
  assert (Ha1 : absent b (slots c1)).
  { intros j s Hj Hv El. destruct (same_bodies_lookup _ _ _ _ Hs Hj) as (s0 & Hj0 & E0). injection E0. intros.
    apply (Ha j s0 Hj0); congruence. }
  rewrite <- Ed in Hb |- *. destruct H1 as [K1 K2 K3 K4 K5]. split; cbn [dev cache_bs hand slots set_slots].
  - done.
  - done.
  - by rewrite length_insert.
  - intros j s Hj Hv. apply list_lookup_insert_Some in Hj as [(<- & <- & _)|(Hne & Hj)]; [done|by apply (K4 j)].
  - intros j k s s' Hj Hk Hv Hv' El.
    apply list_lookup_insert_Some in Hj as [(<- & <- & _)|(Hne & Hj)];
      apply list_lookup_insert_Some in Hk as [(<- & <- & _)|(Hne' & Hk)]; [done|..|by apply (K5 j k s s')].
    + by destruct (Ha1 k s' Hk Hv').
    + by destruct (Ha1 j s Hj Hv).
Qed.

(** What a read answers: the contents of the block. *)
Lemma probe_ok b c r c' :
  coherent c -> probe b c = (r, c') ->
  coherent c' /\ dev c' = dev c /\ (forall x, r = Some x -> x = contents (dev c) b).
Proof.
  intros Hc. unfold probe. destruct (position _ _) as [i|] eqn:E; intros [= <- <-]; [|done].
  split; [by apply coherent_count_hit, coherent_mark|]. split; [done|]. intros x [= <-].
  apply position_some in E as (s & Hi & Hh). apply andb_true_iff in Hh as [Hv Hb%Z.eqb_eq].
  unfold slot. rewrite (nth_lookup_Some _ _ _ _ Hi). destruct (ch_slot _ Hc _ _ Hi Hv) as (_ & _ & ->). by rewrite Hb.
Qed.

Lemma settle_ok b c :
  coherent c -> 0 <= b < block_count (dev c) ->
  exists c', settle b (contents (dev c) b) c = (Ok (contents (dev c) b), c') /\ coherent c' /\ dev c' = dev c.
Proof.
  intros Hc Hb. unfold settle. destruct (position (holds b) (slots c)) as [i|] eqn:E.
  - pose proof (probe_ok b c (Some (sdata (slot c i))) (count_hit (mark i true c)) Hc) as Hp.
    unfold probe in Hp. rewrite E in Hp. destruct (Hp eq_refl) as (H1 & H2 & H3).
    eexists. rewrite (H3 _ eq_refl). done.
  - destruct (place_ok b (count_miss c)) as (c' & E' & H1 & H2);
      [by apply coherent_count_miss|by apply position_absent|done|].
    exists c'. change (contents (dev c) b) with (contents (dev (count_miss c)) b).
    erewrite sbind_ok by exact E'. done.
Qed.

Lemma fetch_ok b c : coherent c -> 0 <= b < block_count (dev c) -> fetch b c = (Ok (contents (dev c) b), c).
Proof. intros Hc Hb. unfold fetch, sgets. by rewrite (ch_bs _ Hc), law_read by (done || apply Hc). Qed.

Lemma read_block_ok b c :
  coherent c -> 0 <= b < block_count (dev c) ->
  exists c', read_block b c = (Ok (contents (dev c) b), c') /\ coherent c' /\ dev c' = dev c.
Proof.
  intros Hc Hb. unfold read_block. destruct (probe b c) as [r c1] eqn:E.
  destruct (probe_ok _ _ _ _ Hc E) as (H1 & H2 & H3). destruct r as [x|].
  - exists c1. by rewrite (H3 x).
  - rewrite <- H2 in Hb |- *. unfold load_miss. erewrite sbind_ok by by apply fetch_ok. by apply settle_ok.
Qed.

Lemma coherent_dev c d' :
  coherent c -> dev_ok d' -> block_count d' = block_count (dev c) ->
  (forall i s, slots c !! i = Some s -> valid s = true -> contents d' (lba s) = contents (dev c) (lba s)) ->
  coherent (set_dev c d').
Proof.
  intros [H1 H2 H3 H4 H5] Hd Hn Hs. split; cbn [dev cache_bs hand slots set_dev]; try done.
  intros i s Hi Hv. destruct (H4 i s Hi Hv) as (? & ? & ->). rewrite Hn, (Hs i) by done. done.
Qed.

Lemma write_block_ok b buf c :
  coherent c -> 0 <= b < block_count (dev c) -> zlen buf = BS -> bytes_ok buf ->
  exists c' d', write_block b buf c = (Ok tt, c') /\ write_blocks (dev c) b 1 buf = (Ok tt, d') /\
    dev c' = d' /\ block_count d' = block_count (dev c) /\ coherent c'.
Proof.
  intros Hc Hb Hl Hby. destruct (law_write (dev c) b buf (ch_dev _ Hc) Hb Hl Hby) as (d' & Ew & Hd & Hn & Hcn).
  unfold write_block. erewrite sbind_ok by (unfold dev_write; by rewrite Ew). unfold update. cbn [slots set_dev].
  destruct (position (holds b) (slots c)) as [i|] eqn:E.
  - do 2 eexists. split; [done|]. split; [done|]. split; [done|]. split; [done|].
    apply position_some in E as (s & Hi & Hh). apply andb_true_iff in Hh as [Hv Hb'%Z.eqb_eq].
    destruct Hc as [K1 K2 K3 K4 K5]. split; cbn [dev cache_bs hand slots set_dev set_slots]; try done.
    + by rewrite length_alter.
    + intros j s' Hj Hv'. apply lookup_alter_some in Hj as [(-> & s0 & Hj & ->)|(Hne & Hj)].
      * rewrite Hj in Hi. injection Hi as ->. cbn [valid dirty lba sdata] in *. rewrite <- Hb' in *.
        destruct (K4 _ _ Hj Hv) as (-> & Hr & _). rewrite Hn, Hcn, Z.eqb_refl by done. done.
      * destruct (K4 _ _ Hj Hv') as (-> & Hr & ->). rewrite Hn, Hcn by done. split; [done|]. split; [done|].
        destruct (Z.eqb_spec (lba s') b); [|done]. destruct Hne. apply (K5 i j s s'); congruence.
    + intros j k s1 s2 Hj Hk Hv1 Hv2 El.
      apply lookup_alter_some in Hj as [(-> & s3 & Hj & ->)|(Hne & Hj)];
        apply lookup_alter_some in Hk as [(-> & s4 & Hk & ->)|(Hne' & Hk)]; cbn in *; eauto using K5.
  - assert (Hc1 : coherent (set_dev c d')).
    { apply coherent_dev; try done. intros j s Hj Hv. destruct (ch_slot _ Hc _ _ Hj Hv) as (_ & Hr & _).
      rewrite Hcn by done. destruct (Z.eqb_spec (lba s) b) as [Hx|]; [|done].
      by destruct (position_absent _ _ E j s Hj Hv). }
    assert (Ec : contents (dev (set_dev c d')) b = buf) by (cbn; rewrite Hcn, Z.eqb_refl by done; done).
    destruct (place_ok b (set_dev c d')) as (c' & E' & H1 & H2); [done|by apply position_absent|cbn; lia|].
    rewrite Ec in E'. exists c', d'. split_and!; done.
Qed.

Lemma read_loop_ok s a b dst c :
  coherent c -> 0 <= s -> 0 <= a <= b -> s + b <= block_count (dev c) ->
  exists r c', read_loop (zrange a b) s dst c = (Ok (dst ++ r), c') /\
    read_each (dev c) (zrange (s + a) (s + b)) = Ok r /\ coherent c' /\ dev c' = dev c.
Proof.
  intros Hc Hs Hab Hn. remember (Z.to_nat (b - a)) as k eqn:Ek. revert a dst c Hc Hab Hn Ek.
  induction k as [|k IH]; intros a dst c Hc Hab Hn Ek.
  - rewrite !zrange_nil by lia. exists [], c. cbn. by rewrite app_nil_r.
  - rewrite (zrange_cons a b), (zrange_cons (s + a) (s + b)) by lia. cbn [read_loop read_each].
    destruct (law_count _ (ch_dev _ Hc)) as [_ Hu].
    assert (Ea : add64 (E := BlockError) s a = Ok (s + a)).
    { unfold add64. destruct (Z.leb_spec (s + a) U64_MAX); [done|]. unfold BS in Hu. ulia. }
    unfold slift at 1. erewrite sbind_ok by (by rewrite Ea).
    destruct (read_block_ok (s + a) c Hc ltac:(lia)) as (c1 & E1 & H1 & H2).
    erewrite sbind_ok by exact E1. erewrite sbind_ok by done.
    destruct (law_contents _ (s + a) (ch_dev _ Hc) ltac:(lia)) as [Hz _].
    rewrite (ch_bs _ H1), Hz, slice_whole by done. cbn [Z.ltb]. change (BS <? BS) with false. cbn iota.
    destruct (IH (a + 1) (dst ++ contents (dev c) (s + a)) c1) as (r & c' & E & Er & H3 & H4);
      [done|lia|by rewrite H2|lia|].
    exists (contents (dev c) (s + a) ++ r), c'. rewrite E, <- app_assoc. split; [done|].
    rewrite law_read by (lia || apply Hc). cbn [obind]. rewrite H2 in Er.
    replace (s + a + 1) with (s + (a + 1)) by lia. rewrite Er. cbn [obind]. by rewrite H4.
Qed.

Lemma write_loop_ok s a b n buf c :
  coherent c -> 0 <= s -> 0 <= a <= b -> b <= n -> s + n <= block_count (dev c) -> zlen buf = n * BS -> bytes_ok buf ->
  exists c', sfor (zrange a b) (fun i => let! x := slift (add64 s i) in write_block x (slice buf (i * BS) BS)) c = (Ok tt, c') /\
    sfor (zrange a b) (fun i d => write_blocks d (s + i) 1 (slice buf (i * BS) BS)) (dev c) = (Ok tt, dev c') /\
    block_count (dev c') = block_count (dev c) /\ coherent c'.
Proof.
  intros Hc Hs Hab Hbn Hn Hz Hby. remember (Z.to_nat (b - a)) as k eqn:Ek. revert a c Hc Hab Hn Ek.
  induction k as [|k IH]; intros a c Hc Hab Hn Ek.
  - rewrite zrange_nil by lia. exists c. done.
  - rewrite zrange_cons by lia. cbn [sfor].
    destruct (law_count _ (ch_dev _ Hc)) as [_ Hu].
    assert (Ea : add64 (E := BlockError) s a = Ok (s + a)).
    { unfold add64. destruct (Z.leb_spec (s + a) U64_MAX); [done|]. unfold BS in Hu. ulia. }
    destruct (write_block_ok (s + a) (slice buf (a * BS) BS) c Hc ltac:(lia)) as (c1 & d1 & E1 & E2 & H1 & H2 & H3).
    { apply zlen_slice; unfold BS in *; nia. } { by apply bytes_ok_slice. }
    erewrite sbind_ok; [|unfold slift; erewrite sbind_ok by (by rewrite Ea); exact E1].
    erewrite (sbind_ok (fun d => write_blocks d (s + a) 1 (slice buf (a * BS) BS))) by exact E2.
    subst d1. rewrite <- H2 in Hn |- *. apply IH; (done || lia).
Qed.

Lemma write_back_clean i c : coherent c -> write_back i c = (Ok tt, c).
Proof.
  intros Hc. unfold write_back. cbn [sget sbind]. destruct (valid (slot c i) && dirty (slot c i)) eqn:E; [|done].
  apply andb_true_iff in E as [Hv Hd]. destruct (decide (i < length (slots c))%nat) as [Hi|Hi].
  - destruct (ch_slot _ Hc _ _ (slot_lookup c i Hi) Hv) as (? & _). congruence.
  - unfold slot in Hv. rewrite nth_overflow in Hv by lia. done.
Qed.

Lemma flush_ok c :
  coherent c ->
  exists c', cache_flush c = (Ok tt, c') /\ flush (dev c) = (Ok tt, dev c') /\
    block_count (dev c') = block_count (dev c) /\ coherent c'.
Proof.
  intros Hc. destruct (law_flush _ (ch_dev _ Hc)) as (d' & E & Hd & Hn & Hk). unfold cache_flush.
  assert (forall l : list nat, sfor l write_back c = (Ok tt, c)) as Hl.
  { induction l as [|i l IH]; [done|]. cbn [sfor]. by erewrite sbind_ok by by apply write_back_clean. }
  erewrite sbind_ok by apply Hl. unfold dev_flush. rewrite E. exists (set_dev c d').
  split_and!; try done. apply coherent_dev; try done. intros i s Hi Hv.
  destruct (ch_slot _ Hc _ _ Hi Hv) as (_ & Hr & _). by apply Hk.
Qed.

Lemma discard_ok b k c :
  coherent c -> 0 <= b -> 0 <= k -> b + k <= block_count (dev c) ->
  exists c', cache_discard b k c = (Ok tt, c') /\ discard (dev c) b k = (Ok tt, dev c') /\
    block_count (dev c') = block_count (dev c) /\ coherent c'.
Proof.
  intros Hc Hb Hk0 Hbk. destruct (law_discard _ b k (ch_dev _ Hc) Hb Hk0 Hbk) as (d' & E & Hd & Hn & Hk). unfold cache_discard.
  destruct (law_count _ (ch_dev _ Hc)) as [_ Hu].
  destruct (Z.ltb_spec U64_MAX (b + k)) as [Hx|_]; [unfold BS in Hu; ulia|]. rewrite andb_false_r.
  cbn [dev set_slots]. rewrite E. eexists. split; [done|]. split; [done|]. split; [done|].
  assert (Hi : forall i s, map (invalidate b k) (slots c) !! i = Some s -> valid s = true ->
    slots c !! i = Some s /\ ~ b <= lba s < b + k).
  { intros i s Hi Hv. rewrite list_lookup_fmap in Hi. destruct (slots c !! i) as [s0|] eqn:Es; [|done].
    injection Hi as <-. unfold invalidate in *. destruct (valid s0 && _ && _) eqn:Ei; [done|]. split; [done|].
    intros Hr. rewrite Hv in Ei. destruct (Z.leb_spec b (lba s0)), (Z.ltb_spec (lba s0) (b + k)); (done || lia). }
  destruct Hc as [K1 K2 K3 K4 K5]. split; cbn [dev cache_bs hand slots set_dev set_slots]; try done.
  - by rewrite length_map.
  - intros i s Hs Hv. destruct (Hi _ _ Hs Hv) as [Hs' Hne]. destruct (K4 _ _ Hs' Hv) as (-> & Hr & ->).
    rewrite Hn, Hk by done. done.
  - intros i j s s' Hs Hs' Hv Hv' El. destruct (Hi _ _ Hs Hv), (Hi _ _ Hs' Hv'). by apply (K5 i j s s').
Qed.

(** One request: the cache answers as the device does. *)
Lemma cached_plain q c :
  coherent c -> request_ok (block_count (dev c)) q ->
  exists r c', cached q c = (r, c') /\ plain q (dev c) = (r, dev c') /\
    block_count (dev c') = block_count (dev c) /\ coherent c'.
Proof.
  intros Hc. destruct q as [s n|s n buf| |s n]; cbn [request_ok cached plain].
  - intros (Hs & Hn & Hsn). destruct (read_loop_ok s 0 n [] c) as (r & c' & E & Er & H1 & H2); [done|lia..|].
    unfold cache_read_blocks. erewrite sbind_ok by done. rewrite (ch_bs _ Hc), Z.eqb_refl. cbn [negb]. rewrite E.
    replace (s + 0) with s in Er by lia. rewrite Er. do 2 eexists. split; [done|]. rewrite H2. done.
  - intros (Hs & Hn & Hsn & Hz & Hby). destruct (write_loop_ok s 0 n n buf c) as (c' & E1 & E2 & H1 & H2); [done|lia..|done|].
    unfold cache_write_blocks, write_each. erewrite sbind_ok by done. rewrite (ch_bs _ Hc), Hz, Z.eqb_refl. cbn [negb].
    rewrite E1, E2. eauto 10.
  - intros _. destruct (flush_ok c Hc) as (c' & E1 & E2 & H1 & H2). rewrite E1, E2. eauto 10.
  - intros (Hs & Hn & Hsn). destruct (discard_ok s n c Hc Hs Hn Hsn) as (c' & E1 & E2 & H1 & H2). rewrite E1, E2. eauto 10.
Qed.

Lemma serve_transparent qs c :
  coherent c -> Forall (request_ok (block_count (dev c))) qs ->
  exists rs c', serve cached qs c = (rs, c') /\ serve plain qs (dev c) = (rs, dev c') /\ coherent c'.
Proof.
  revert c. induction qs as [|q qs IH]; intros c Hc Hq; [by exists [], c|]. apply Forall_cons in Hq as [Hq Hqs].
  destruct (cached_plain q c Hc Hq) as (r & c1 & E1 & E2 & Hn & Hc1). rewrite <- Hn in Hqs.
  destruct (IH c1 Hc1 Hqs) as (rs & c' & E3 & E4 & Hc'). exists (r :: rs), c'.
  cbn [serve]. by rewrite E1, E2, E3, E4.
Qed.

(** ** Concurrent readers, exclusive writers *)

Inductive shared : BlockCache D -> list reader -> Prop :=
| sh_new d n : dev_ok d -> shared (new d n) []
| sh_call c rs b : shared c rs -> 0 <= b < block_count (dev c) -> shared c (rs ++ [Start b])
| sh_step c rs i r r' c' : shared c rs -> rs !! i = Some r -> rstep r c = (r', c') -> shared c' (<[i := r']> rs)
| sh_return c rs1 b buf rs2 : shared c (rs1 ++ Done b buf :: rs2) -> shared c (rs1 ++ rs2)
| sh_request c q : shared c [] -> request_ok (block_count (dev c)) q -> shared (snd (cached q c)) [].

Definition reader_ok (d : D) (r : reader) : Prop :=
  match r with
  | Start b | Missed b => 0 <= b < block_count d
  | Fetched b buf | Done b buf => 0 <= b < block_count d /\ buf = contents d b
  | Failed _ => False
  end.

Lemma rstep_ok r c r' c' :
  coherent c -> reader_ok (dev c) r -> rstep r c = (r', c') ->
  coherent c' /\ dev c' = dev c /\ reader_ok (dev c) r'.
Proof.
  intros Hc Hr. destruct r as [b|b|b buf|b buf|b]; cbn [reader_ok rstep] in *; try done.
  - destruct (probe b c) as [o c1] eqn:E. destruct (probe_ok _ _ _ _ Hc E) as (H1 & H2 & H3).
    destruct o; intros [= <- <-]; cbn; eauto.
  - rewrite fetch_ok by done. intros [= <- <-]. cbn. eauto.
  - destruct Hr as [Hb ->]. destruct (settle_ok b c Hc Hb) as (c1 & E & H1 & H2). rewrite E.
    intros [= <- <-]. cbn. eauto.
  - intros [= <- <-]. done.
Qed.

Lemma shared_inv c rs : shared c rs -> coherent c /\ Forall (reader_ok (dev c)) rs.
Proof.
  induction 1 as [d n Hd|c rs b _ [IH1 IH2] Hb|c rs i r r' c' _ [IH1 IH2] Hi Hs|c rs1 b buf rs2 _ [IH1 IH2]|c q _ [IH1 _] Hq].
  - split; [by apply coherent_new|done].
  - split; [done|]. apply Forall_app. split; [done|]. by apply Forall_singleton.
  - destruct (rstep_ok r c r' c') as (H1 & H2 & H3); [done|by apply (Forall_lookup_1 _ _ _ _ IH2 Hi)|done|].
    split; [done|]. rewrite H2. by apply Forall_insert.
  - split; [done|]. apply Forall_app in IH2 as [H1 H2]. apply Forall_cons in H2 as [_ H2]. by apply Forall_app.
  - destruct (cached_plain q c IH1 Hq) as (r & c' & E & _ & _ & H1). rewrite E. done.
Qed.

(** ** Theorems *)

Lemma serve_alone d n qs :
  dev_ok d -> Forall (request_ok (block_count d)) qs ->
  fst (serve cached qs (new d n)) = fst (serve plain qs d) /\
  dev (snd (serve cached qs (new d n))) = snd (serve plain qs d).
Proof.
  intros Hd Hq. destruct (serve_transparent qs (new d n)) as (rs & c & E1 & E2 & _); [by apply coherent_new|done|].
  change (dev (new d n)) with d in E2. by rewrite E1, E2.
Qed.

Lemma readers_coherent c rs :
  shared c rs ->
  (forall b buf, Done b buf ∈ rs -> read_blocks (dev c) b 1 BS = Ok buf) /\ (forall b, Failed b ∉ rs).
Proof.
  intros [Hc Hr]%shared_inv. rewrite Forall_forall in Hr. split.
  - intros b buf [Hb ->]%Hr. apply law_read; [apply Hc|done].
  - intros b Hb%Hr. done.
Qed.

(** C36 The cache is transparent: for any sequence of in-range requests (reads and
    writes and discards of several blocks, flushes) in front of a device that keeps
    its promises, every reply, and the device left behind, are those of the device
    without the cache; in particular eviction always ends and no write is lost.
    Concurrent readers are coherent: with any number of readers interleaved
    between the lock sections of [read_block] (a hit under the read lock, the
    device read, the insertion under the write lock) and writers that have the
    cache to themselves, a read that completes returns what the device holds, and
    no read of an existing block fails. *)
Theorem cache_transparent d n qs c rs :
  dev_ok d -> Forall (request_ok (block_count d)) qs -> shared c rs ->
  fst (serve cached qs (new d n)) = fst (serve plain qs d) /\
  dev (snd (serve cached qs (new d n))) = snd (serve plain qs d) /\
  (forall b buf, Done b buf ∈ rs -> read_blocks (dev c) b 1 BS = Ok buf) /\ (forall b, Failed b ∉ rs).
Proof.
  intros Hd Hq Hs. destruct (serve_alone d n qs Hd Hq). destruct (readers_coherent c rs Hs). by split_and!.
Qed.

(** Two writers of one block that are not serialised by the caller can leave the
    cache and the device different: the device keeps the second write and the
    cache the first. *)
Lemma concurrent_writers_diverge d b x y :
  dev_ok d -> 0 <= b < block_count d -> zlen x = BS -> zlen y = BS -> bytes_ok x -> bytes_ok y ->
  exists c1 c2 c3 c4,
    dev_write b x (new d 1) = (Ok tt, c1) /\ dev_write b y c1 = (Ok tt, c2) /\
    update b y c2 = (Ok tt, c3) /\ update b x c3 = (Ok tt, c4) /\
    fst (read_block b c4) = Ok x /\ contents (dev c4) b = y.
Proof.
  intros Hd Hb Hx Hy Bx By. destruct (law_write d b x Hd Hb Hx Bx) as (d1 & E1 & H1 & N1 & _).
  rewrite <- N1 in Hb. destruct (law_write d1 b y H1 Hb Hy By) as (d2 & E2 & H2 & N2 & C2).
  exists (set_dev (new d 1) d1), (set_dev (new d 1) d2),
    (mkCache d2 [mkSlot b y true false true] 0 (block_size d) 0 0),
    (mkCache d2 [mkSlot b x true false true] 0 (block_size d) 0 0).
  split; [unfold dev_write; cbn [dev new]; by rewrite E1|].
  split; [unfold dev_write; cbn [dev new set_dev]; by rewrite E2|].
  split; [done|]. unfold update, read_block, probe. cbn [slots position holds valid lba andb]. rewrite Z.eqb_refl.
  split; [done|]. split; [done|]. cbn [dev]. by rewrite C2, Z.eqb_refl.
Qed.
End coherence.

(** ** Witnesses *)

Lemma demo_requests : Forall (request_ok (block_count (blank 4)))
  [Write 1 2 (zrepeat 7 (2 * BS)); Read 0 3; Discard 1 2; Flush; Read 2 1].
Proof.
  destruct (blank_ok 4) as [_ E]; [done|done|]. rewrite E.
  apply Forall_cons_2; [|by repeat constructor]. cbn [request_ok].
  rewrite zlen_zrepeat by done. change (0 <= 1 /\ 0 <= 2 /\ 3 <= 4 /\ 2 * BS = 2 * BS /\ bytes_ok (zrepeat 7 (2 * BS))).
  split; [lia|]. split; [lia|]. split; [lia|]. split; [reflexivity|].
  unfold bytes_ok, zrepeat. apply Forall_replicate. ulia.
Qed.

(** Two readers miss on the same block and both insert it. *)
Lemma demo_shared : exists c rs buf, shared c rs /\ rs = [Done 2 buf; Done 2 buf] /\ dev c = blank 4.
Proof.
  destruct (blank_ok 4) as [Hd En]; [done|done|].
  assert (Hr : 0 <= 2 < block_count (dev (new (blank 4) 2))) by (cbn [new dev]; rewrite En; lia).
  pose proof (sh_new (blank 4) 2 Hd) as S. pose proof (coherent_new (blank 4) 2 Hd) as Hc.
  apply (sh_call _ _ 2) in S; [|done]. apply (sh_call _ _ 2) in S; [|done]. cbn [app] in S.
  apply (sh_step _ _ 0 (Start 2) (Missed 2) (new (blank 4) 2)) in S; [|done..]. cbn [insert list_insert] in S.
  apply (sh_step _ _ 1 (Start 2) (Missed 2) (new (blank 4) 2)) in S; [|done..]. cbn [insert list_insert] in S.
  eapply (sh_step _ _ 0) in S; [|done|cbn [rstep]; rewrite fetch_ok by done; reflexivity]. cbn [insert list_insert] in S.
  eapply (sh_step _ _ 1) in S; [|done|cbn [rstep]; rewrite fetch_ok by done; reflexivity]. cbn [insert list_insert] in S.
  destruct (settle_ok 2 (new (blank 4) 2) Hc Hr) as (c1 & E1 & H1 & D1).
  eapply (sh_step _ _ 0) in S; [|done|cbn [rstep]; rewrite E1; reflexivity]. cbn [insert list_insert] in S.
  rewrite <- (f_equal (fun d => contents d 2) D1) in S at 2. destruct (settle_ok 2 c1 H1 ltac:(by rewrite D1)) as (c2 & E2 & H2 & D2).
  eapply (sh_step _ _ 1) in S; [|done|cbn [rstep]; rewrite E2; reflexivity]. cbn [insert list_insert] in S.
  rewrite D1 in S. eexists c2, _, _. split; [exact S|]. split; [reflexivity|].
  rewrite D2. exact D1.
Qed.

Lemma cache_transparent_witness :
  (fst (serve cached [Write 1 2 (zrepeat 7 (2 * BS)); Read 0 3; Discard 1 2; Flush; Read 2 1] (new (blank 4) 1)) =
   fst (serve plain [Write 1 2 (zrepeat 7 (2 * BS)); Read 0 3; Discard 1 2; Flush; Read 2 1] (blank 4))) /\
  exists c buf, shared c [Done 2 buf; Done 2 buf] /\ dev c = blank 4 /\ read_blocks (blank 4) 2 1 BS = Ok buf.
Proof.
  destruct demo_shared as (c & rs & buf & S & -> & E).
  destruct (cache_transparent (blank 4) 1 _ c _ (proj1 (blank_ok 4 ltac:(done) ltac:(done))) demo_requests S) as (H1 & _ & H2 & _).
  split; [exact H1|]. exists c, buf. split; [exact S|]. split; [exact E|]. rewrite <- E. apply H2. apply list_elem_of_here.
Defined.
End Cache.
