(* ===== verification/BadBlocks.v ===== *)
(** The bad-block table ([src/crates/eurofs/src/badblocks.rs]): remapping of
    unreadable blocks to a pool of spare blocks, and its on-disk form. *)

From S2P Require Import Prelude Bytes.

Module BadBlocks.

Definition MAGIC : Z := 1111643136. (* 0x4242_5400 *)
Definition ENTRY : Z := 16.

Record Remap := mkRemap {
  bad : Z;
  spare : Z;
}.

Record BadBlockTable := mkTable {
  remaps : list Remap;
  spare_base : Z;
  spare_count : Z;
  spare_next : Z;
}.

Definition new (base count : Z) : BadBlockTable := mkTable [] base count 0.

(** [remaps.iter().find(|r| r.bad == lba)] *)
Definition lookup_bad (t : BadBlockTable) (lba : Z) : option Remap := find (fun r => bad r =? lba) (remaps t).

Definition translate (t : BadBlockTable) (lba : Z) : Z :=
  match lookup_bad t lba with Some r => spare r | None => lba end.

Definition is_bad (t : BadBlockTable) (lba : Z) : bool := existsb (fun r => bad r =? lba) (remaps t).

Definition mark_bad (lba : Z) (t : BadBlockTable) : outcome unit (option Z) * BadBlockTable :=
  match lookup_bad t lba with
  | Some r => (Ok (Some (spare r)), t)
  | None =>
      if spare_count t <=? spare_next t then (Ok None, t)
      else match add64 (E := unit) (spare_base t) (spare_next t) with
           | Ok s => (Ok (Some s), mkTable (remaps t ++ [mkRemap lba s]) (spare_base t) (spare_count t) (spare_next t + 1))
           | _ => (Panic, t)
           end
  end.

Definition bad_count (t : BadBlockTable) : Z := zlen (remaps t).

Definition spares_left (t : BadBlockTable) : outcome unit Z :=
  if spare_count t <? spare_next t then Panic else Ok (spare_count t - spare_next t).

(** [fold(0u32, |a, &x| a.wrapping_add(x as u32))] *)
Definition sum32 (b : list Z) : Z := foldl (fun a x => (a + x) mod 2 ^ 32) 0 b.

Definition encode_remap (r : Remap) : list Z := le_bytes 8 (bad r) ++ le_bytes 8 (spare r).

Definition body (t : BadBlockTable) : list Z :=
  le_bytes 4 MAGIC ++ le_bytes 4 (zlen (remaps t) mod 2 ^ 32) ++ le_bytes 8 (spare_base t) ++
  le_bytes 8 (spare_count t) ++ le_bytes 8 (spare_next t) ++ concat (map encode_remap (remaps t)).

Definition serialize (t : BadBlockTable) : list Z := body t ++ le_bytes 4 (sum32 (body t)).

Definition decode_remap (d : list Z) (i : Z) : Remap :=
  let o := 32 + i * ENTRY in mkRemap (rd_u64 d o) (rd_u64 d (o + 8)).

Definition deserialize (d : list Z) : option BadBlockTable :=
  if zlen d <? 32 + 4 then None
  else if negb (rd_u32 d 0 =? MAGIC) then None
  else
    let n := rd_u32 d 4 in
    let need := 32 + n * ENTRY + 4 in
    if zlen d <? need then None
    else if negb (sum32 (slice d 0 (need - 4)) =? rd_u32 d (need - 4)) then None
    else Some (mkTable (map (decode_remap d) (zrange 0 n)) (rd_u64 d 8) (rd_u64 d 16) (rd_u64 d 24)).

(** ** The table invariant *)

(** The spares handed out are the first of the pool, in order, and no block is
    remapped twice. *)
Record table_ok (t : BadBlockTable) : Prop := mkOk {
  tb_base : 0 <= spare_base t;
  tb_pool : spare_base t + spare_count t <= U64_MAX;
  tb_next : spare_next t = zlen (remaps t);
  tb_bound : spare_next t <= spare_count t;
  tb_spares : forall k r, remaps t !! k = Some r -> spare r = spare_base t + Z.of_nat k;
  tb_unique : NoDup (map bad (remaps t));
}.

(** [lba] is not one of the spare blocks. *)
Definition outside (t : BadBlockTable) (lba : Z) : Prop :=
  lba < spare_base t \/ spare_base t + spare_count t <= lba.

Lemma lookup_bad_some t lba r :
  lookup_bad t lba = Some r -> exists k, remaps t !! k = Some r /\ bad r = lba.
Proof.
  intros [Hin Hb%Z.eqb_eq]%find_some. apply list_elem_of_In, list_elem_of_lookup in Hin as [k Hk]. eauto.
Qed.

Lemma lookup_bad_none t lba : lookup_bad t lba = None <-> lba ∉ map bad (remaps t).
Proof.
  unfold lookup_bad. induction (remaps t) as [|r l IH]; cbn; [split; [by intros _ ?%elem_of_nil|done]|].
  rewrite not_elem_of_cons, <- IH. destruct (Z.eqb_spec (bad r) lba) as [->|Hne].
  - split; [done|]. by intros [? _].
  - split; [|by intros [_ ?]]. intros ->. done.
Qed.

Lemma is_bad_lookup t lba : is_bad t lba = bool_decide (is_Some (lookup_bad t lba)).
Proof.
  unfold is_bad, lookup_bad. induction (remaps t) as [|r l IH]; [done|]. cbn. destruct (bad r =? lba); [done|apply IH].
Qed.

Lemma find_snoc {A} (f : A -> bool) l x :
  find f (l ++ [x]) = match find f l with Some y => Some y | None => if f x then Some x else None end.
Proof. induction l as [|y l IH]; [done|]. cbn. by destruct (f y). Qed.

Lemma table_ok_new base count :
  0 <= base -> 0 <= count -> base + count <= U64_MAX -> table_ok (new base count).
Proof. intros. split; cbn; try done; try lia. constructor. Qed.

Lemma translate_in_pool t lba :
  table_ok t -> is_bad t lba = true -> spare_base t <= translate t lba < spare_base t + spare_next t.
Proof.
  intros Ht Hb. rewrite is_bad_lookup in Hb. apply bool_decide_eq_true in Hb as [r Hr].
  unfold translate. rewrite Hr. apply lookup_bad_some in Hr as (k & Hk & _). rewrite (tb_spares _ Ht k r Hk), (tb_next _ Ht).
  apply lookup_lt_Some in Hk. unfold zlen. lia.
Qed.

(** Distinct blocks of the volume are never redirected to the same block. *)
Lemma translate_injective t a b :
  table_ok t -> outside t a -> outside t b -> translate t a = translate t b -> a = b.
Proof.
  intros Ht Ha Hb E. pose proof (tb_bound _ Ht). pose proof (tb_next _ Ht).
  destruct (is_bad t a) eqn:Ea, (is_bad t b) eqn:Eb.
  - rewrite is_bad_lookup in Ea, Eb. apply bool_decide_eq_true in Ea as [r Hr], Eb as [s Hs].
    unfold translate in E. rewrite Hr, Hs in E.
    apply lookup_bad_some in Hr as (k & Hk & <-), Hs as (j & Hj & <-).
    rewrite (tb_spares _ Ht k r Hk), (tb_spares _ Ht j s Hj) in E. assert (k = j) as -> by lia. congruence.
  - pose proof (translate_in_pool t a Ht Ea). unfold translate in E at 2. rewrite is_bad_lookup in Eb.
    destruct (lookup_bad t b); [done|]. unfold outside in *. lia.
  - pose proof (translate_in_pool t b Ht Eb). unfold translate in E at 1. rewrite is_bad_lookup in Ea.
    destruct (lookup_bad t a); [done|]. unfold outside in *. lia.
  - rewrite is_bad_lookup in Ea, Eb. unfold translate in E.
    destruct (lookup_bad t a); [done|]. by destruct (lookup_bad t b).
Qed.

(** Marking a block, all branches. *)
Lemma mark_bad_sound t lba :
  table_ok t ->
  exists r t', mark_bad lba t = (Ok r, t') /\ table_ok t' /\
    spare_base t' = spare_base t /\ spare_count t' = spare_count t /\
    (forall x, x <> lba -> translate t' x = translate t x) /\
    match r with
    | Some s => translate t' lba = s /\ is_bad t' lba = true /\ (is_bad t lba = true -> t' = t)
    | None => t' = t /\ is_bad t lba = false /\ spares_left t = Ok 0
    end.
Proof.
  intros Ht. unfold mark_bad. destruct (lookup_bad t lba) as [r|] eqn:El.
  - do 2 eexists. split; [done|]. rewrite is_bad_lookup. unfold translate. rewrite El. by rewrite bool_decide_eq_true_2 by done.
  - destruct Ht as [T1 T2 T3 T4 T5 T6]. destruct (Z.leb_spec (spare_count t) (spare_next t)) as [Hx|Hx].
    + do 2 eexists. split; [done|]. split; [done|]. rewrite is_bad_lookup, El.
      split_and!; try done. unfold spares_left. destruct (Z.ltb_spec (spare_count t) (spare_next t)); [lia|]. f_equal. lia.
    + unfold add64. destruct (Z.leb_spec (spare_base t + spare_next t) U64_MAX); [|lia].
      do 2 eexists. split; [done|]. set (t' := mkTable _ _ _ _).
      assert (Hl : forall x, lookup_bad t' x = match lookup_bad t x with
        | Some r => Some r | None => if lba =? x then Some (mkRemap lba (spare_base t + spare_next t)) else None end).
      { intros x. unfold lookup_bad. subst t'. cbn [remaps]. by rewrite find_snoc. }
      split; [|rewrite is_bad_lookup; unfold translate; split; [done|]; split; [done|]; split].
      * split; subst t'; cbn [remaps spare_base spare_count spare_next]; rewrite ?zlen_snoc; try done; try lia.
        -- intros k r [Hk|[Hk [= <-]]]%lookup_snoc_Some; [apply T5, Hk|]. cbn. rewrite T3. unfold zlen. lia.
        -- rewrite map_app. apply NoDup_app. split; [done|]. split; [|apply NoDup_singleton].
           intros x Hx1 Hx2%list_elem_of_singleton. cbn in Hx2. subst x. by apply lookup_bad_none in El.
      * intros x Hx'. rewrite Hl. destruct (lookup_bad t x); [done|]. by destruct (Z.eqb_spec lba x).
      * rewrite Hl, El, Z.eqb_refl. split; [done|]. split; [done|]. rewrite is_bad_lookup, El. done.
Qed.

(** ** The serialised form *)

Record table_typed (t : BadBlockTable) : Prop := mkTyped {
  ty_base : is_u64 (spare_base t);
  ty_count : is_u64 (spare_count t);
  ty_next : is_u64 (spare_next t);
  ty_len : is_u32 (zlen (remaps t));
  ty_remaps : Forall (fun r => is_u64 (bad r) /\ is_u64 (spare r)) (remaps t);
}.

Lemma zlen_encode_remaps l : zlen (concat (map encode_remap l)) = zlen l * ENTRY.
Proof.
  induction l as [|r l IH]; [done|]. cbn [map concat]. unfold encode_remap at 1.
  rewrite !zlen_app, !zlen_le_bytes, IH, zlen_cons. unfold ENTRY. lia.
Qed.

Lemma zlen_body t : zlen (body t) = 32 + zlen (remaps t) * ENTRY.
Proof. unfold body. rewrite !zlen_app, !zlen_le_bytes, zlen_encode_remaps. lia. Qed.

Lemma sum32_bound b : is_u32 (sum32 b).
Proof.
  unfold sum32. assert (H : forall a, is_u32 a -> is_u32 (foldl (fun a x => (a + x) mod 2 ^ 32) a b)).
  { induction b as [|x b IH]; intros a Ha; [done|]. apply IH. pose proof (Z.mod_pos_bound (a + x) (2 ^ 32)). ulia. }
  apply H. ulia.
Qed.

(** A field of [n] bytes after [p]. *)
Lemma rd_after d p n v s o w :
  d = p ++ le_bytes n v ++ s -> o = zlen p -> w = Z.of_nat n -> 0 <= v < 256 ^ w -> le_val (slice d o w) = v.
Proof.
  intros -> -> -> Hv. rewrite slice_app_skip by lia. rewrite slice_app_here by (rewrite ?zlen_le_bytes; lia).
  by apply le_val_bytes.
Qed.

(** [rd_after p s]: the field lies between [p] and [s]. *)
Ltac field_after p s :=
  eapply (rd_after _ p _ _ s);
  [rewrite <- ?app_assoc; reflexivity|rewrite ?zlen_app, ?zlen_le_bytes; try done; try lia|done|ulia].

Lemma decode_remap_back p l s k r :
  zlen p = 32 -> l !! k = Some r -> is_u64 (bad r) -> is_u64 (spare r) ->
  decode_remap (p ++ concat (map encode_remap l) ++ s) (Z.of_nat k) = r.
Proof.
  intros Hp Hk H1 H2. rewrite <- (take_drop_middle l k r Hk) at 1. set (l1 := take k l). set (l2 := drop (S k) l).
  assert (Hl1 : zlen l1 = Z.of_nat k).
  { apply lookup_lt_Some in Hk. unfold zlen, l1. rewrite length_take. lia. }
  rewrite map_app, concat_app. cbn [map concat]. unfold encode_remap at 2.
  set (q := p ++ concat (map encode_remap l1)).
  assert (Hq : zlen q = 32 + Z.of_nat k * ENTRY) by (unfold q; rewrite zlen_app, zlen_encode_remaps; lia).
  set (tail := concat (map encode_remap l2) ++ s). unfold decode_remap, rd_u64. rewrite <- Hq.
  destruct r as [b sp]. cbn [bad spare] in *.
  replace (p ++ (concat (map encode_remap l1) ++ (le_bytes 8 b ++ le_bytes 8 sp) ++ concat (map encode_remap l2)) ++ s)
    with (q ++ le_bytes 8 b ++ le_bytes 8 sp ++ tail) by (unfold q, tail; by rewrite <- !app_assoc).
  f_equal.
  - field_after q (le_bytes 8 sp ++ tail).
  - field_after (q ++ le_bytes 8 b) tail.
Qed.

Lemma serialize_back t extra : table_typed t -> deserialize (serialize t ++ extra) = Some t.
Proof.
  intros [B1 B2 B3 B4 B5]. pose proof (zlen_nonneg (remaps t)). pose proof (zlen_nonneg extra).
  assert (Hd : zlen (serialize t ++ extra) = 32 + zlen (remaps t) * ENTRY + 4 + zlen extra).
  { unfold serialize. rewrite !zlen_app, zlen_body, zlen_le_bytes. lia. }
  assert (Hn : zlen (remaps t) mod 2 ^ 32 = zlen (remaps t)) by (apply Z.mod_small; ulia).
  unfold deserialize. rewrite Hd. unfold ENTRY at 1. destruct (Z.ltb_spec (32 + zlen (remaps t) * 16 + 4 + zlen extra) (32 + 4)); [lia|].
  set (rest := concat (map encode_remap (remaps t)) ++ le_bytes 4 (sum32 (body t)) ++ extra).
  assert (E : serialize t ++ extra = le_bytes 4 MAGIC ++ le_bytes 4 (zlen (remaps t)) ++ le_bytes 8 (spare_base t) ++
    le_bytes 8 (spare_count t) ++ le_bytes 8 (spare_next t) ++ rest).
  { unfold rest, serialize, body. rewrite Hn. by rewrite <- !app_assoc. }
  rewrite E. set (pre := le_bytes 4 MAGIC ++ le_bytes 4 (zlen (remaps t)) ++ le_bytes 8 (spare_base t) ++
    le_bytes 8 (spare_count t)) in *.
  set (d := le_bytes 4 MAGIC ++ _) in *.
  assert (rd_u32 d 0 = MAGIC) as ->.
  { unfold d. by eapply (rd_after _ [] 4 MAGIC _ 0 4). }
  assert (rd_u32 d 4 = zlen (remaps t)) as ->.
  { unfold d. field_after (le_bytes 4 MAGIC) (le_bytes 8 (spare_base t) ++ le_bytes 8 (spare_count t) ++ le_bytes 8 (spare_next t) ++ rest). }
  rewrite Z.eqb_refl. cbn [negb].
  destruct (Z.ltb_spec (32 + zlen (remaps t) * ENTRY + 4 + zlen extra) (32 + zlen (remaps t) * ENTRY + 4)); [lia|].
  replace (32 + zlen (remaps t) * ENTRY + 4 - 4) with (zlen (body t)) by (rewrite zlen_body; lia).
  assert (rd_u32 d (zlen (body t)) = sum32 (body t)) as ->.
  { rewrite <- E. unfold serialize. pose proof (sum32_bound (body t)). field_after (body t) extra. }
  assert (slice d 0 (zlen (body t)) = body t) as ->.
  { rewrite <- E. unfold serialize. rewrite <- app_assoc. apply slice_app_exact. }
  rewrite Z.eqb_refl. cbn [negb].
  assert (rd_u64 d 8 = spare_base t) as ->.
  { unfold d. field_after (le_bytes 4 MAGIC ++ le_bytes 4 (zlen (remaps t)))
      (le_bytes 8 (spare_count t) ++ le_bytes 8 (spare_next t) ++ rest). }
  assert (rd_u64 d 16 = spare_count t) as ->.
  { unfold d. field_after (le_bytes 4 MAGIC ++ le_bytes 4 (zlen (remaps t)) ++ le_bytes 8 (spare_base t))
      (le_bytes 8 (spare_next t) ++ rest). }
  assert (rd_u64 d 24 = spare_next t) as ->.
  { unfold d. field_after pre rest. }
  rewrite (map_zrange (decode_remap d) (remaps t)); [by destruct t|].
  intros k r Hk. pose proof (Forall_lookup_1 _ _ _ _ B5 Hk) as [].
  replace d with ((pre ++ le_bytes 8 (spare_next t)) ++ concat (map encode_remap (remaps t)) ++ le_bytes 4 (sum32 (body t)) ++ extra)
    by (unfold d, pre, rest; by rewrite <- !app_assoc).
  apply decode_remap_back; [|done..]. unfold pre. rewrite !zlen_app, !zlen_le_bytes. done.
Qed.
(** ** Theorems *)

(** C37 Remapping is sound: marking a block bad returns (no overflow of the pool
    addresses), redirects that block and no other, gives the same spare again for a
    block already marked, fails exactly when no spare is left, and keeps the
    table's invariant; two different blocks of the volume are never redirected to
    the same block; and a serialised table reads back as the same table, also when
    the device block it was read from is longer than the table. *)
Theorem bad_block_remap t lba :
  table_ok t ->
  (exists r t', mark_bad lba t = (Ok r, t') /\ table_ok t' /\
    (forall x, x <> lba -> translate t' x = translate t x) /\
    (forall s, r = Some s -> translate t' lba = s /\ (is_bad t lba = true -> t' = t)) /\
    (r = None <-> is_bad t lba = false /\ spares_left t = Ok 0)) /\
  (forall a b, outside t a -> outside t b -> translate t a = translate t b -> a = b) /\
  (forall extra, table_typed t -> deserialize (serialize t ++ extra) = Some t).
Proof.
  intros Ht. split; [|split; [eauto using translate_injective|intros extra; apply serialize_back]].
  destruct (mark_bad_sound t lba Ht) as (r & t' & E & Hk & _ & _ & Hx & Hr). exists r, t'.
  split_and!; try done.
  - intros s ->. destruct Hr as (? & _ & ?). done.
  - destruct r as [s|]; [|by destruct Hr]. destruct Hr as (Hs & Hb & Hi). split; [done|]. intros [Hf Hl].
    unfold mark_bad in E. rewrite is_bad_lookup in Hf. destruct (lookup_bad t lba); [done|].
    unfold spares_left in Hl. destruct (Z.ltb_spec (spare_count t) (spare_next t)); [done|]. injection Hl as Hl.
    destruct (Z.leb_spec (spare_count t) (spare_next t)); [done|lia].
Qed.

(** ** Witnesses *)

Definition demo : BadBlockTable := mkTable [mkRemap 7 1000; mkRemap 9 1001] 1000 2 2.

Lemma demo_ok : table_ok demo.
Proof.
  split; cbn; try done.
  - intros k r Hk. destruct k as [|[|k]]; by simplify_eq/=.
  - apply (bool_decide_unpack _). done.
Qed.

Lemma bad_block_remap_witness :
  table_ok demo /\ mark_bad 8 demo = (Ok None, demo) /\ mark_bad 9 demo = (Ok (Some 1001), demo) /\
  (forall a b, outside demo a -> outside demo b -> translate demo a = translate demo b -> a = b) /\
  deserialize (serialize demo ++ [1; 2; 3]) = Some demo.
Proof.
  split; [exact demo_ok|]. split; [reflexivity|]. split; [reflexivity|].
  destruct (bad_block_remap demo 8 demo_ok) as (_ & Hinj & Hser). split; [exact Hinj|]. apply Hser.
  split; [cbn; ulia|cbn; ulia|cbn; ulia|unfold zlen; cbn; ulia|]. repeat constructor; cbn; ulia.
Defined.
End BadBlocks.
