(* ===== verification/Crash.v ===== *)
(** Power failures.

    EuroFS calls [flush] as a write barrier ([src/crates/eurofs/src/block.rs],
    [src/crates/eurofs/src/superblock.rs]): a device may keep, drop or reorder
    the writes issued since the last flush.  [Traced] wraps a device and
    remembers, for every moment of an execution, the durable image and the
    writes still in flight; [survives] says which images a power failure at
    such a moment can leave: any subset of the writes in flight, each complete or
    torn.  The fault injection of
    [src/crates/eurofs/src/faulty.rs] (drop everything after write [k], tear
    write [k] in half) is a special case. *)

From S2P Require Import Prelude Bytes Block.
Import Block.

Module Crash.

(** What the blocks of a disk hold. *)
Definition image := Z -> list Z.

Definition upd_image (img : image) (b : Z) (c : list Z) : image :=
  fun b' => if b' =? b then c else img b'.

Inductive event :=
| Wrote (b : Z) (buf : list Z)
| Discarded (b : Z).

Definition target (e : event) : Z := match e with Wrote b _ => b | Discarded b => b end.

Definition block_like (c : list Z) : Prop := zlen c = BS /\ bytes_ok c.

(** What is assumed of the device when the power fails: [whole] are the blocks
    it never tears, [sector_valid] is the check a reader applies to the first
    sector of a block. *)
Record power := mkPower {
  whole : Z -> bool;
  sector_valid : list Z -> bool;
}.

(** A torn write leaves any bytes, except that a first sector which passes the
    reader's check is the old or the new one: tearing is detected. *)
Definition torn (pw : power) (old new c : list Z) : Prop :=
  block_like c /\
  (sector_valid pw (slice c 0 512) = true ->
   slice c 0 512 = slice old 0 512 \/ slice c 0 512 = slice new 0 512).

(** [survives pw img evs img']: [img] was durable, [evs] were in flight, and
    the power failure left [img'].  Every write in flight is lost, complete or
    torn; a discarded block may hold anything. *)
Inductive survives (pw : power) : image -> list event -> image -> Prop :=
| survives_nil img : survives pw img [] img
| survives_lost img e evs img' :
    survives pw img evs img' -> survives pw img (e :: evs) img'
| survives_done img b buf evs img' :
    survives pw (upd_image img b buf) evs img' -> survives pw img (Wrote b buf :: evs) img'
| survives_torn img b buf c evs img' :
    whole pw b = false -> torn pw (img b) buf c -> survives pw (upd_image img b c) evs img' ->
    survives pw img (Wrote b buf :: evs) img'
| survives_discard img b c evs img' :
    block_like c -> survives pw (upd_image img b c) evs img' ->
    survives pw img (Discarded b :: evs) img'.

(** A moment of an execution: the durable image and the writes in flight. *)
Definition moment := (image * list event)%type.

(** ** A device that is an image: what a remount after the failure sees *)

Record ImgDev := mkImg {
  img_of : image;
  img_count : Z;
}.

#[global] Instance image_device : BlockDevice ImgDev := {
  block_size _ := BS;
  block_count := img_count;
  read_blocks d start count buf_len :=
    if (0 <=? start) && (start <? img_count d) && (count =? 1) then
      if buf_len =? BS then Ok (img_of d start) else Err NotAligned
    else Err OutOfBounds;
  write_blocks d start count buf :=
    if (0 <=? start) && (start <? img_count d) && (count =? 1) then
      if zlen buf =? BS then (Ok tt, mkImg (upd_image (img_of d) start buf) (img_count d))
      else (Err NotAligned, d)
    else (Err OutOfBounds, d);
  flush d := (Ok tt, d);
  discard d start count := (Ok tt, d);
}.

Definition img_ok (d : ImgDev) : Prop :=
  (0 <= img_count d /\ img_count d * BS <= U64_MAX) /\ forall b, 0 <= b < img_count d -> block_like (img_of d b).

#[global] Program Instance image_lawful : LawfulDevice ImgDev := {
  dev_ok := img_ok;
  contents d b := img_of d b;
}.
Next Obligation. done. Qed.
Next Obligation. intros d [? ?]. done. Qed.
Next Obligation. intros d b [_ H] Hb. by apply H. Qed.
Next Obligation.
  intros d b [_ H] Hb. cbn in *.
  destruct (Z.leb_spec 0 b), (Z.ltb_spec b (img_count d)); try lia. done.
Qed.
Next Obligation.
  intros d b buf [Hc H] Hb Hl Hby. cbn in *.
  destruct (Z.leb_spec 0 b), (Z.ltb_spec b (img_count d)); try lia. cbn.
  rewrite Hl. cbn. eexists. split; [done|]. split; [|done].
  split; [done|]. cbn. intros b' Hb'. unfold upd_image. case_if; [by split|by apply H].
Qed.
Next Obligation. intros d Hd. by exists d. Qed.
Next Obligation. intros d b k Hd Hb Hk Hbk. by exists d. Qed.

(** ** The recording device *)

Record Traced (D : Type) := mkTraced {
  tr_dev : D;
  tr_base : image;
  tr_pending : list event;
  tr_points : list moment;
}.
Arguments mkTraced {D}.
Arguments tr_dev {D}.
Arguments tr_base {D}.
Arguments tr_pending {D}.
Arguments tr_points {D}.

Section traced.
Context {D : Type} `{LawfulDevice D}.

(** A device just powered on: everything it holds is durable. *)
Definition power_on (d : D) : Traced D := mkTraced d (contents d) [] [(contents d, [])].

Definition log_event (t : Traced D) (d : D) (e : event) : Traced D :=
  let pending := tr_pending t ++ [e] in
  mkTraced d (tr_base t) pending (tr_points t ++ [(tr_base t, pending)]).

Definition log_discards (t : Traced D) (d : D) (bs : list Z) : Traced D :=
  foldl (fun t b => log_event t d (Discarded b)) (mkTraced d (tr_base t) (tr_pending t) (tr_points t)) bs.

Lemma log_discards_dev t d bs : tr_dev (log_discards t d bs) = d.
Proof.
  unfold log_discards. assert (H1 : forall t, tr_dev t = d -> tr_dev (foldl (fun t b => log_event t d (Discarded b)) t bs) = d); [|by apply H1].
  induction bs as [|b bs IH]; intros t' Ht; [done|]. by apply IH.
Qed.

#[global] Instance traced_device : BlockDevice (Traced D) := {
  block_size t := block_size (tr_dev t);
  block_count t := block_count (tr_dev t);
  read_blocks t := read_blocks (tr_dev t);
  write_blocks t start count buf :=
    match write_blocks (tr_dev t) start count buf with
    | (Ok u, d) => (Ok u, log_event t d (Wrote start buf))
    | (r, d) => (r, mkTraced d (tr_base t) (tr_pending t) (tr_points t))
    end;
  flush t :=
    match flush (tr_dev t) with
    | (Ok u, d) => (Ok u, mkTraced d (contents d) [] (tr_points t ++ [(contents d, [])]))
    | (r, d) => (r, mkTraced d (tr_base t) (tr_pending t) (tr_points t))
    end;
  discard t start count :=
    match discard (tr_dev t) start count with
    | (Ok u, d) => (Ok u, log_discards t d (zrange start (start + count)))
    | (r, d) => (r, mkTraced d (tr_base t) (tr_pending t) (tr_points t))
    end;
}.

#[global] Program Instance traced_lawful : LawfulDevice (Traced D) := {
  dev_ok t := dev_ok (tr_dev t);
  contents t := contents (tr_dev t);
}.
Next Obligation. intros t Ht. by apply (law_size (tr_dev t)). Qed.
Next Obligation. intros t Ht. by apply (law_count (tr_dev t)). Qed.
Next Obligation. intros t b Ht Hb. by apply (law_contents (tr_dev t)). Qed.
Next Obligation. intros t b Ht Hb. by apply (law_read (tr_dev t)). Qed.
Next Obligation.
  intros t b buf Ht Hb Hl Hby. destruct (law_write (tr_dev t) b buf Ht Hb Hl Hby) as (d' & E & ?).
  eexists. cbn [write_blocks traced_device]. by rewrite E.
Qed.
Next Obligation.
  intros t Ht. destruct (law_flush (tr_dev t) Ht) as (d' & E & ?).
  eexists. cbn [flush traced_device]. by rewrite E.
Qed.
Next Obligation.
  intros t b k Ht Hb Hk Hbk. destruct (law_discard (tr_dev t) b k Ht Hb Hk Hbk) as (d' & E & ?).
  eexists. cbn [discard traced_device]. rewrite E. split; [done|]. cbn [block_count traced_device]. by rewrite log_discards_dev.
Qed.

(** ** One step of the recording device *)

Lemma traced_flush (t : Traced D) :
  dev_ok t ->
  exists t', flush t = (Ok tt, t') /\ dev_ok t' /\ block_count t' = block_count t /\
    (forall b, 0 <= b < block_count t -> contents t' b = contents t b) /\
    tr_base t' = contents t' /\ tr_pending t' = [] /\
    tr_points t' = tr_points t ++ [(contents t', [])].
Proof.
  intros Ht. destruct (law_flush (tr_dev t) Ht) as (d' & E & Hd & Hn & Hc).
  eexists. cbn [flush traced_device]. rewrite E. by split_and!.
Qed.

Lemma traced_write (t : Traced D) b buf :
  dev_ok t -> 0 <= b < block_count t -> zlen buf = BS -> bytes_ok buf ->
  exists t', write_blocks t b 1 buf = (Ok tt, t') /\ dev_ok t' /\ block_count t' = block_count t /\
    (forall b', 0 <= b' < block_count t ->
       contents t' b' = if b' =? b then buf else contents t b') /\
    tr_base t' = tr_base t /\ tr_pending t' = tr_pending t ++ [Wrote b buf] /\
    tr_points t' = tr_points t ++ [(tr_base t, tr_pending t ++ [Wrote b buf])].
Proof.
  intros Ht Hb Hl Hby. destruct (law_write (tr_dev t) b buf Ht Hb Hl Hby) as (d' & E & Hd & Hn & Hc).
  eexists. cbn [write_blocks traced_device]. rewrite E. by split_and!.
Qed.

Lemma traced_discard (t : Traced D) b :
  dev_ok t -> 0 <= b < block_count t ->
  exists t', discard t b 1 = (Ok tt, t') /\ dev_ok t' /\ block_count t' = block_count t /\
    (forall b', 0 <= b' < block_count t -> b' <> b -> contents t' b' = contents t b') /\
    tr_base t' = tr_base t /\ tr_pending t' = tr_pending t ++ [Discarded b] /\
    tr_points t' = tr_points t ++ [(tr_base t, tr_pending t ++ [Discarded b])].
Proof.
  intros Ht Hb. destruct (law_discard (tr_dev t) b 1 Ht) as (d' & E & Hd & Hn & Hc); [lia | lia | cbn in Hb; lia|].
  eexists. cbn [discard traced_device]. rewrite E, (zrange_cons b), (zrange_nil (b + 1)) by lia. split; [done|]. split_and!; try done. intros b' Hb' Hne. apply Hc; [done | lia].
Qed.
End traced.

(** ** Surviving images *)

(** A block no write in flight touches survives as it was. *)
Lemma survives_untouched pw img evs img' b :
  survives pw img evs img' -> Forall (fun e => target e <> b) evs -> img' b = img b.
Proof.
  induction 1 as [img|img e evs img' H IH|img b0 buf evs img' H IH|img b0 buf c evs img' Hw Ht H IH
                 |img b0 c evs img' Hc H IH]; intros Hf; [done|..];
    apply Forall_cons in Hf as [Hb Hf]; rewrite IH by done; [done|..];
    cbn in Hb; unfold upd_image; by destruct (Z.eqb_spec b b0).
Qed.

Lemma survives_app pw img evs1 evs2 img' :
  survives pw img (evs1 ++ evs2) img' <->
  exists mid, survives pw img evs1 mid /\ survives pw mid evs2 img'.
Proof.
  split.
  - revert img. induction evs1 as [|e evs1 IH]; intros img H; cbn in *.
    + exists img. split; [constructor|done].
    + inversion H; subst;
        match goal with H : survives _ _ (evs1 ++ evs2) _ |- _ => apply IH in H as (mid & ? & ?) end;
        exists mid; (split; [|done]); eauto using survives.
  - intros (mid & H1 & H2). induction H1; cbn; eauto using survives.
Qed.

Definition event_ok (e : event) : Prop :=
  match e with Wrote _ buf => block_like buf | Discarded _ => True end.

(** Surviving images hold blocks. *)
Lemma survives_like pw img evs img' b :
  survives pw img evs img' -> Forall event_ok evs -> block_like (img b) -> block_like (img' b).
Proof.
  assert (Hupd : forall (i : image) b0 c, block_like c -> block_like (i b) -> block_like (upd_image i b0 c b))
    by (intros i b0 c; unfold upd_image; by case_if).
  induction 1 as [img|img e evs img' H IH|img b0 buf evs img' H IH|img b0 buf c evs img' Hw [Ht _] H IH
                 |img b0 c evs img' Hc H IH]; intros Hf Hb; [done|..];
    apply Forall_cons in Hf as [He Hf]; auto.
Qed.

(** The code's own fault injection is one of these failures: a write torn in
    half keeps the first sector of the new block. *)
Lemma torn_half_torn pw old buf :
  zlen buf = BS -> bytes_ok buf -> torn pw old buf (torn_half buf).
Proof.
  intros Hl Hb. unfold torn_half. rewrite Hl. change (BS / 2) with 2048.
  assert (Hs : zlen (slice buf 0 2048) = 2048) by (apply zlen_slice; unfold BS in *; lia).
  split; [split|].
  - rewrite zlen_app, Hs, zlen_zrepeat; unfold BS; lia.
  - auto with euro.
  - intros _. right. rewrite slice_app_l by (rewrite Hs; lia).
    unfold slice. cbn [Z.to_nat]. rewrite !drop_0, take_take. f_equal.
Qed.

(** One write in flight. *)
Lemma survives_one pw img t buf img' :
  survives pw img [Wrote t buf] img' ->
  (forall b, b <> t -> img' b = img b) /\
  (img' t = img t \/ img' t = buf \/ (whole pw t = false /\ torn pw (img t) buf (img' t))).
Proof.
  assert (Hupd : forall (i : image) c b, b <> t -> upd_image i t c b = i b)
    by (intros; unfold upd_image; by destruct (Z.eqb_spec b t)).
  assert (Hat : forall (i : image) c, upd_image i t c t = c)
    by (intros; unfold upd_image; by rewrite Z.eqb_refl).
  intros H. inversion H as [|? ? ? ? H1|? ? ? ? ? H1|? ? ? ? ? ? Hw Ht H1|]; subst; inversion H1; subst;
    rewrite ?Hat; auto.
Qed.

Lemma survives_nothing pw img img' : survives pw img [] img' -> img' = img.
Proof. by inversion 1. Qed.

(** The moments between two states of a recording device satisfy [P]. *)
Definition moments {D} (t t' : Traced D) (P : moment -> Prop) : Prop :=
  exists new, tr_points t' = tr_points t ++ new /\ Forall P new.

Lemma moments_refl {D} (t : Traced D) P : moments t t P.
Proof. exists []. by rewrite app_nil_r. Qed.

Lemma moments_trans {D} (t1 t2 t3 : Traced D) P :
  moments t1 t2 P -> moments t2 t3 P -> moments t1 t3 P.
Proof.
  intros (n1 & E1 & F1) (n2 & E2 & F2). exists (n1 ++ n2).
  rewrite E2, E1, app_assoc. split; [done|]. by apply Forall_app.
Qed.

Lemma moments_one {D} (t t' : Traced D) m P :
  tr_points t' = tr_points t ++ [m] -> P m -> moments t t' P.
Proof. intros E Hm. exists [m]. split; [done|]. by constructor. Qed.

Lemma moments_impl {D} (t t' : Traced D) (P Q : moment -> Prop) :
  moments t t' P -> (forall m, P m -> Q m) -> moments t t' Q.
Proof. intros (n & E & F) HPQ. exists n. split; [done|]. by eapply Forall_impl. Qed.

End Crash.
