(* ===== verification/Checksum.v ===== *)
(** Integrity checksums ([src/crates/eurofs/src/checksum.rs]).

    XXH3 comes from the third-party crate [twox-hash]; the development is
    parametric in it.  The code relies on one documented fact: the hash is a
    function of the bytes with a 64-bit result.  No theorem assumes collision
    resistance. *)

From S2P Require Import Prelude Bytes.

Class Xxh3 := {
  xxh3_64 : list Z -> Z;
  xxh3_64_u64 b : is_u64 (xxh3_64 b);
}.

(** A concrete hash the witnesses evaluate: a positional sum, modulo 2^64. *)
Definition demo_hash (b : list Z) : Z :=
  foldl (fun h x => (h * 31 + x + 1) mod 18446744073709551616) 7 b.

Lemma demo_hash_u64 b : is_u64 (demo_hash b).
Proof.
  unfold demo_hash. assert (H : is_u64 7) by ulia. revert H. generalize 7.
  induction b as [|x b IH]; intros h Hh; cbn; [done|]. apply IH.
  pose proof (Z.mod_pos_bound (h * 31 + x + 1) 18446744073709551616). ulia.
Qed.

Definition demo_xxh3 : Xxh3 := {| xxh3_64 := demo_hash; xxh3_64_u64 := demo_hash_u64 |}.
