(* ===== verification/Fs.v ===== *)
(** The shared file-system vocabulary ([src/crates/eurofs/src/fs.rs]): error
    values, immutability flags, directory entries, snapshot descriptions and
    the scrub report.  Strings are their UTF-8 bytes. *)

From S2P Require Import Prelude Bytes.

Module Fs.

Inductive FsError :=
| NotFound
| NotADirectory
| NotAFile
| AlreadyExists
| PermissionDenied
| NoSpace
| InvalidPath
| IoError
| Corruption
| Unsupported
| NotEmpty
| QuotaExceeded.

#[global] Instance FsError_eq_dec : EqDecision FsError.
Proof. solve_decision. Defined.

Definition FLAG_IMMUTABLE : Z := 1.
Definition FLAG_APPEND_ONLY : Z := 2.
Definition FLAG_VERSIONED : Z := 4.

Definition SNAP_READONLY : Z := 0.
Definition SNAP_AUTO_ROLLBACK : Z := 1.

Record SnapshotInfo := mkInfo {
  info_id : Z;
  info_parent : Z;
  info_timestamp : Z;
  info_checkpoint_id : Z;
  info_flags : Z;
  info_label : list Z;
}.

Inductive EntryKind := File | Directory | Symlink.

#[global] Instance EntryKind_eq_dec : EqDecision EntryKind.
Proof. solve_decision. Defined.

Record DirEntry := mkEntry {
  entry_name : list Z;
  entry_kind : EntryKind;
  entry_size : Z;
  entry_mode : Z;
  entry_mtime : Z;
}.

#[global] Instance DirEntry_eq_dec : EqDecision DirEntry.
Proof. solve_decision. Defined.

(** The detail messages of an integrity check, with the values they print. *)
Inductive ScrubMessage :=
| SlotDegraded
| BothSlotsCorrupt
| DataMismatch (o : Z)
| ExtentOutside (o phys cnt : Z)
| CrossLink (b : Z)
| NotMarked (b : Z)
| InodeCorrupt (o blk : Z)
| SlotsRestored (healed : Z).

(** The report of an integrity check. *)
Record ScrubReport := mkReport {
  objects : Z;
  errors : Z;
  blocks_referenced : Z;
  superblock_ok : bool;
  bitmap_ok : bool;
  repaired : Z;
  data_verified : Z;
  data_unrecoverable : Z;
  messages : list ScrubMessage;
}.

End Fs.
