(* ===== verification/Utf8.v ===== *)
(** UTF-8 as the code uses it: [String::from_utf8], [String::from_utf8_lossy]
    and iteration over [chars()].  A string is its list of bytes. *)

From Stdlib Require Import Ascii String.
From S2P Require Import Prelude Bytes.

Module Utf8.

(** A string literal as its bytes. *)
Definition str (s : string) : list Z := map (fun c => Z.of_nat (nat_of_ascii c)) (list_ascii_of_string s).
Arguments str _%_string.

Definition is_cont (b : Z) : bool := Z.land b 192 =? 128.

Definition in_between (lo hi b : Z) : bool := (lo <=? b) && (b <=? hi).

(** The expected length of a sequence from its first byte; 0 for a byte that
    starts none. *)
Definition utf8_char_width (b : Z) : nat :=
  if b <? 128 then 1
  else if in_between 194 223 b then 2
  else if in_between 224 239 b then 3
  else if in_between 240 244 b then 4
  else 0.

(** The second byte of a three or four byte sequence. *)
Definition second_ok (b0 b1 : Z) : bool :=
  if b0 =? 224 then in_between 160 191 b1
  else if b0 =? 237 then in_between 128 159 b1
  else if b0 =? 240 then in_between 144 191 b1
  else if b0 =? 244 then in_between 128 143 b1
  else in_between 128 191 b1.

(** One step over the input: a whole character and its length, or an invalid
    prefix (the maximal subpart) and its length.  Bytes past the end read as
    0, which is no continuation byte. *)
Definition utf8_step (l : list Z) : bool * nat :=
  let get i := nth i l 0 in
  match utf8_char_width (get 0%nat) with
  | 1%nat => (true, 1%nat)
  | 2%nat => if is_cont (get 1%nat) then (true, 2%nat) else (false, 1%nat)
  | 3%nat =>
      if second_ok (get 0%nat) (get 1%nat) then
        if is_cont (get 2%nat) then (true, 3%nat) else (false, 2%nat)
      else (false, 1%nat)
  | 4%nat =>
      if second_ok (get 0%nat) (get 1%nat) then
        if is_cont (get 2%nat) then
          if is_cont (get 3%nat) then (true, 4%nat) else (false, 3%nat)
        else (false, 2%nat)
      else (false, 1%nat)
  | _ => (false, 1%nat)
  end.

(** The input cut into characters and invalid chunks. *)
Fixpoint chunks (fuel : nat) (l : list Z) : list (bool * list Z) :=
  match fuel, l with
  | S fuel', _ :: _ =>
      let '(v, n) := utf8_step l in
      (v, take n l) :: chunks fuel' (drop n l)
  | _, _ => []
  end.

Definition utf8_chunks (l : list Z) : list (bool * list Z) := chunks (length l) l.

Definition valid_utf8 (l : list Z) : bool := forallb fst (utf8_chunks l).

(** U+FFFD *)
Definition REPLACEMENT : list Z := [239; 191; 189].

Definition from_utf8_lossy (l : list Z) : list Z :=
  concat (map (fun c : bool * list Z => if fst c then snd c else REPLACEMENT) (utf8_chunks l)).

Definition from_utf8 (l : list Z) : option (list Z) :=
  if valid_utf8 l then Some l else None.

(** [s.chars().take(n).collect::<String>()] *)
Definition take_chars (n : nat) (l : list Z) : list Z :=
  concat (map snd (take n (utf8_chunks l))).

(** ** Facts *)

Lemma is_cont_nonzero b : is_cont b = true -> b <> 0.
Proof. by intros H ->. Qed.

Lemma second_ok_nonzero b0 b1 : second_ok b0 b1 = true -> b1 <> 0.
Proof. intros H ->. revert H. unfold second_ok, in_between. by repeat case_if. Qed.

Lemma nth_nonzero (l : list Z) i : nth i l 0 <> 0 -> (i < length l)%nat.
Proof. intros H. destruct (Nat.lt_ge_cases i (length l)); [done|]. by rewrite nth_overflow in H. Qed.

Lemma utf8_step_bounds l :
  l <> [] -> (1 <= snd (utf8_step l) <= length l)%nat.
Proof.
  intros Hl. assert (1 <= length l)%nat by (destruct l; cbn; [done|lia]).
  unfold utf8_step.
  assert (H2 : forall i, is_cont (nth i l 0) = true -> (i < length l)%nat)
    by (intros; by apply nth_nonzero, is_cont_nonzero).
  assert (H3 : forall i b, second_ok b (nth i l 0) = true -> (i < length l)%nat)
    by (intros i b Hb; by eapply nth_nonzero, second_ok_nonzero).
  repeat case_match; cbn; repeat match goal with
  | H : is_cont _ = true |- _ => apply H2 in H
  | H : second_ok _ _ = true |- _ => apply H3 in H
  end; lia.
Qed.

Lemma chunks_concat fuel l : (length l <= fuel)%nat -> concat (map snd (chunks fuel l)) = l.
Proof.
  revert l. induction fuel as [|fuel IH]; intros l Hf.
  - by destruct l; cbn in *; [|lia].
  - destruct l as [|b l']; [done|]. cbn [chunks]. set (l := b :: l') in *.
    pose proof (utf8_step_bounds l ltac:(done)) as Hb.
    destruct (utf8_step l) as [v n]. cbn [snd] in Hb. cbn [map concat snd].
    rewrite IH by (rewrite length_drop; lia). apply take_drop.
Qed.

(** Decoding valid UTF-8 is the identity. *)
Lemma from_utf8_lossy_valid l : valid_utf8 l = true -> from_utf8_lossy l = l.
Proof.
  intros Hv. unfold from_utf8_lossy. rewrite <- (chunks_concat (length l) l) at 2 by done.
  unfold valid_utf8, utf8_chunks in *. f_equal. apply map_ext_in. intros [v c] Hin.
  apply forallb_forall with (x := (v, c)) in Hv; [|done]. cbn in *. by rewrite Hv.
Qed.

End Utf8.
