(* ===== verification/Path.v ===== *)
(** Paths ([src/crates/eurofs/src/path.rs]): splitting into components, parent
    and file name, normalisation and joining, on the bytes of the string.  The
    theorem relates the five functions through the list of components. *)

From S2P Require Import Prelude.

Module Path.

Definition SLASH : Z := 47.

(** [path.split('/')] *)
Fixpoint split (p : list Z) : list (list Z) :=
  match p with
  | [] => [[]]
  | c :: r =>
      if c =? SLASH then [] :: split r
      else match split r with
           | s :: ss => (c :: s) :: ss
           | [] => [[c]]
           end
  end.

Definition nonempty (s : list Z) : bool := match s with [] => false | _ => true end.

Definition split_path (p : list Z) : list (list Z) := List.filter nonempty (split p).

(** [path.trim_end_matches('/')] *)
Fixpoint trim_end (p : list Z) : list Z :=
  match p with
  | [] => []
  | c :: r =>
      match trim_end r with
      | [] => if c =? SLASH then [] else [c]
      | t => c :: t
      end
  end.

(** [s.rfind('/')] *)
Fixpoint rfind (p : list Z) : option nat :=
  match p with
  | [] => None
  | c :: r =>
      match rfind r with
      | Some i => Some (S i)
      | None => if c =? SLASH then Some O else None
      end
  end.

Definition parent (p : list Z) : list Z :=
  let trimmed := trim_end p in
  match rfind trimmed with
  | Some O | None => [SLASH]
  | Some idx => take idx trimmed
  end.

Definition filename (p : list Z) : list Z :=
  let trimmed := trim_end p in
  match rfind trimmed with
  | Some idx => drop (S idx) trimmed
  | None => trimmed
  end.

Definition normalize (p : list Z) : list Z :=
  match split_path p with
  | [] => [SLASH]
  | components => concat (map (fun c => SLASH :: c) components)
  end.

Definition join (base name : list Z) : list Z := trim_end base ++ SLASH :: name.

(** ** Components *)

Definition no_slash (s : list Z) : Prop := SLASH ∉ s.

Lemma split_not_nil p : split p <> [].
Proof. destruct p as [|c r]; cbn; [done|]. case_if; [done|]. by destruct (split r). Qed.

Lemma split_app a b : split (a ++ SLASH :: b) = split a ++ split b.
Proof.
  induction a as [|c a IH]; [done|]. cbn [app split]. rewrite IH.
  case_if; [done|]. pose proof (split_not_nil a). by destruct (split a).
Qed.

Lemma split_path_app a b : split_path (a ++ SLASH :: b) = split_path a ++ split_path b.
Proof. unfold split_path. by rewrite split_app, List.filter_app. Qed.

Lemma split_no_slash s : no_slash s -> split s = [s].
Proof.
  unfold no_slash. induction s as [|c s IH]; intros H; [done|]. cbn.
  apply not_elem_of_cons in H as [Hc H]. rewrite IH by done. case_if; [congruence|done].
Qed.

Lemma split_path_single s : no_slash s -> s <> [] -> split_path s = [s].
Proof. intros H Hs. unfold split_path. rewrite split_no_slash by done. by destruct s. Qed.

Lemma split_path_nil : split_path [] = [].
Proof. done. Qed.

Lemma split_path_slash : split_path [SLASH] = [].
Proof. done. Qed.

Lemma split_path_cons p : split_path (SLASH :: p) = split_path p.
Proof. apply (split_path_app [] p). Qed.

(** Components are non-empty and contain no slash. *)
Lemma split_components p : Forall no_slash (split p).
Proof.
  induction p as [|c p IH]; cbn; [by repeat constructor; apply not_elem_of_nil|].
  case_if; [constructor; [apply not_elem_of_nil|done]|].
  destruct (split p) as [|s ss]; inversion IH; subst; repeat constructor; try done;
    apply not_elem_of_cons; split; (congruence || done || apply not_elem_of_nil).
Qed.

Lemma split_path_components p : Forall (fun s => no_slash s /\ s <> []) (split_path p).
Proof.
  apply Forall_forall. intros s Hs. unfold split_path in Hs.
  apply list_elem_of_In, filter_In in Hs as [Hs Hn]. apply list_elem_of_In in Hs. split.
  - pose proof (split_components p) as H. rewrite Forall_forall in H. by apply H.
  - by destruct s.
Qed.

Lemma split_path_concat cs :
  Forall (fun s => no_slash s /\ s <> []) cs ->
  split_path (concat (map (fun c => SLASH :: c) cs)) = cs.
Proof.
  induction 1 as [|c cs [Hc Hn] Hcs IH]; [done|]. cbn [map concat app].
  rewrite split_path_cons. destruct cs as [|c' cs'].
  - cbn [map concat]. by rewrite app_nil_r, split_path_single.
  - cbn [map concat app] in IH |- *. rewrite split_path_cons in IH.
    by rewrite split_path_app, split_path_single, IH.
Qed.

(** ** Trimming *)

Lemma trim_end_split p : split_path (trim_end p) = split_path p.
Proof.
  assert (H : forall p, p = trim_end p \/ exists n, p = trim_end p ++ replicate (S n) SLASH).
  { clear p. induction p as [|c p IH]; [by left|]. cbn [trim_end]. destruct (trim_end p) as [|d t] eqn:E.
    - destruct IH as [-> |[n ->]]; case_if; subst; cbn.
      + right. by exists O.
      + by left.
      + right. by exists (S n).
      + right. by exists n.
    - destruct IH as [-> |[n ->]]; [by left|right]. by exists n. }
  destruct (H p) as [<- |[n E]]; [done|]. rewrite E at 2. clear H E.
  induction n as [|n IH]; cbn [replicate] in *.
  - by rewrite split_path_app, split_path_nil, app_nil_r.
  - rewrite split_path_app, split_path_cons. by rewrite split_path_app in IH.
Qed.

Lemma trim_end_last p s : trim_end p <> s ++ [SLASH].
Proof.
  revert s. induction p as [|c p IH]; intros s; cbn; [by destruct s|].
  destruct (trim_end p) as [|d t] eqn:E.
  - case_if; [by destruct s|]. intros H. destruct s as [|? [|]]; cbn in H; simplify_eq.
  - destruct s as [|x s]; cbn; intros H; [done|]. injection H as _ H. by apply (IH s).
Qed.

Lemma rfind_None p : rfind p = None -> no_slash p.
Proof.
  induction p as [|c p IH]; cbn; [intros; apply not_elem_of_nil|].
  destruct (rfind p); [done|]. case_if; [done|]. intros _.
  apply not_elem_of_cons. split; [congruence|by apply IH].
Qed.

Lemma rfind_Some p i :
  rfind p = Some i ->
  p = take i p ++ SLASH :: drop (S i) p /\ no_slash (drop (S i) p).
Proof.
  revert i. induction p as [|c p IH]; cbn; intros i H; [done|].
  destruct (rfind p) as [j|] eqn:E.
  - injection H as <-. destruct (IH j eq_refl) as [E1 E2]. cbn. split; [by f_equal|done].
  - case_in H; [|done]. injection H as <-. subst. cbn. rewrite drop_0. split; [done|by apply rfind_None].
Qed.

(** The file name is the last component, the parent holds the others. *)
Lemma parent_filename p :
  no_slash (filename p) /\
  (filename p = [] -> split_path p = []) /\
  (filename p <> [] -> split_path p = split_path (parent p) ++ [filename p]).
Proof.
  unfold filename, parent. rewrite <- (trim_end_split p).
  pose proof (trim_end_last p) as Hlast. set (t := trim_end p) in *.
  destruct (rfind t) as [i|] eqn:E.
  - destruct (rfind_Some t i E) as [Et Hns]. split; [done|].
    assert (drop (S i) t <> []) as Hne.
    { intros Hnil. rewrite Hnil in Et. by apply (Hlast (take i t)). }
    split; [done|intros _]. rewrite Et at 1. rewrite split_path_app, (split_path_single (drop _ _)) by done.
    destruct i as [|i]; [|done]. by rewrite split_path_slash.
  - pose proof (rfind_None t E). split; [done|]. split; [by intros ->|].
    intros Hne. by rewrite split_path_single, split_path_slash.
Qed.

Lemma normalize_split p : split_path (normalize p) = split_path p.
Proof.
  unfold normalize. pose proof (split_path_components p) as H.
  destruct (split_path p) as [|c cs]; [done|]. by apply split_path_concat.
Qed.

(** ** Normal paths and their components *)

(** The normal form of a list of components. *)
Definition of_comps (cs : list (list Z)) : list Z :=
  match cs with
  | [] => [SLASH]
  | _ => concat (map (fun c => SLASH :: c) cs)
  end.

Definition comps_ok (cs : list (list Z)) : Prop := Forall (fun s => no_slash s /\ s <> []) cs.

Lemma normalize_comps p : normalize p = of_comps (split_path p).
Proof. unfold normalize. by destruct (split_path p). Qed.

Lemma split_of_comps cs : comps_ok cs -> split_path (of_comps cs) = cs.
Proof. intros H. destruct cs as [|c cs]; [done|]. by apply split_path_concat. Qed.

Lemma of_comps_inj cs cs' : comps_ok cs -> comps_ok cs' -> of_comps cs = of_comps cs' -> cs = cs'.
Proof. intros H H' E. rewrite <- (split_of_comps cs H), E. by apply split_of_comps. Qed.

Lemma normalize_of_comps cs : comps_ok cs -> normalize (of_comps cs) = of_comps cs.
Proof. intros H. by rewrite normalize_comps, split_of_comps. Qed.

Lemma of_comps_snoc cs c : of_comps (cs ++ [c]) = concat (map (fun c => SLASH :: c) cs) ++ SLASH :: c.
Proof.
  assert (E : concat (map (fun c => SLASH :: c) (cs ++ [c])) = concat (map (fun c => SLASH :: c) cs) ++ SLASH :: c).
  { rewrite map_app, concat_app. cbn. by rewrite app_nil_r. }
  destruct cs; [cbn; by rewrite app_nil_r|exact E].
Qed.

Lemma of_comps_root cs c : comps_ok (cs ++ [c]) -> of_comps (cs ++ [c]) <> [SLASH].
Proof.
  intros H E. apply (of_comps_inj _ []) in E; [by destruct cs|done|constructor].
Qed.

Lemma trim_end_app a x : x <> SLASH -> trim_end (a ++ [x]) = a ++ [x].
Proof.
  intros Hx. induction a as [|c a IH]; cbn; [by destruct (Z.eqb_spec x SLASH)|]. rewrite IH. by destruct a.
Qed.

Lemma trim_end_component a c : no_slash c -> c <> [] -> trim_end (a ++ c) = a ++ c.
Proof.
  intros Hc Hn. destruct (exists_last Hn) as (b & x & ->). rewrite app_assoc. apply trim_end_app.
  intros ->. apply Hc, elem_of_app. right. by apply list_elem_of_singleton.
Qed.

Lemma rfind_app a c : no_slash c -> rfind (a ++ SLASH :: c) = Some (length a).
Proof.
  intros Hc. induction a as [|x a IH]; cbn.
  - assert (rfind c = None) as ->; [|done]. unfold no_slash in Hc. induction c as [|y c IH]; [done|]. cbn.
    apply not_elem_of_cons in Hc as [Hy Hc]. rewrite IH by done. by destruct (Z.eqb_spec y SLASH).
  - by rewrite IH.
Qed.

Lemma comps_snoc cs c : comps_ok (cs ++ [c]) -> comps_ok cs /\ no_slash c /\ c <> [].
Proof. intros [H1 H2]%Forall_app. rewrite Forall_singleton in H2. done. Qed.

Lemma trim_comps cs c : comps_ok (cs ++ [c]) -> trim_end (of_comps (cs ++ [c])) = of_comps (cs ++ [c]).
Proof.
  intros (_ & Hc & Hn)%comps_snoc. rewrite of_comps_snoc.
  change (SLASH :: c) with ([SLASH] ++ c). rewrite app_assoc. by apply trim_end_component.
Qed.

Lemma parent_of_comps cs c : comps_ok (cs ++ [c]) -> parent (of_comps (cs ++ [c])) = of_comps cs.
Proof.
  intros H. pose proof (comps_snoc _ _ H) as (_ & Hc & _). unfold parent. rewrite trim_comps by done.
  rewrite of_comps_snoc, rfind_app by done. destruct cs as [|d cs]; [done|].
  destruct (length _) as [|n] eqn:E; [by destruct d|]. rewrite <- E. by rewrite take_app_length.
Qed.

Lemma filename_of_comps cs c : comps_ok (cs ++ [c]) -> filename (of_comps (cs ++ [c])) = c.
Proof.
  intros H. pose proof (comps_snoc _ _ H) as (_ & Hc & _). unfold filename. rewrite trim_comps by done.
  rewrite of_comps_snoc, rfind_app by done. rewrite cons_middle, app_assoc.
  rewrite drop_app_length'; [done|]. rewrite length_app. cbn. lia.
Qed.

Lemma join_of_comps cs c : comps_ok cs -> join (of_comps cs) c = of_comps (cs ++ [c]).
Proof.
  intros H. rewrite of_comps_snoc. unfold join. f_equal. destruct cs as [|d cs] using rev_ind; [done|].
  rewrite trim_comps by done. by destruct cs.
Qed.

(** The path functions agree on the components of a path: normalising keeps
    them and is idempotent, joining concatenates them, every component is
    non-empty and free of slashes, and a path is its parent's components
    followed by its file name (a path with an empty file name is the root). *)
Lemma path_components p name :
  split_path (normalize p) = split_path p /\
  normalize (normalize p) = normalize p /\
  split_path (join p name) = split_path p ++ split_path name /\
  Forall (fun s => no_slash s /\ s <> []) (split_path p) /\
  (filename p = [] -> split_path p = []) /\
  (filename p <> [] -> split_path p = split_path (parent p) ++ [filename p]).
Proof.
  destruct (parent_filename p) as (_ & H1 & H2).
  split_and!; auto using normalize_split, split_path_components.
  - unfold normalize at 1. rewrite normalize_split. done.
  - unfold join. by rewrite split_path_app, trim_end_split.
Qed.

End Path.
