(* ===== verification/Vfs.v ===== *)
(** The virtual filesystem ([src/crates/eurofs/src/vfs.rs]) and its concurrent
    form ([src/crates/eurofs/src/shared.rs]).

    The [FileSystem] trait is an interface: a method call is a value of [call],
    and a filesystem type implements [perform].  [Vfs] routes a call to the
    mounted filesystem with the longest matching mountpoint; the specification
    is an unordered table of mountpoints ([namespace]), which [Vfs] is proved to
    implement, and [SharedVfs], which keeps the filesystems in reference-counted
    cells, is proved to implement [Vfs]. *)

From stdpp Require Import gmap.
From S2P Require Import Prelude Fs.

Module Vfs.
Import Fs.

Definition path := list Z.
Definition SLASH : Z := 47.

(** ** The trait *)

(** The methods of one path. *)
Inductive path_method :=
| ReadFile
| WriteFile (data : list Z)
| RemoveFile
| CreateDir
| GetFlags
| SetFlags (flags : Z)
| CreateSymlink (target : path)
| Owner
| Chmod (mode : Z)
| Versions
| RestoreVersion (n : Z)
| Chown (uid : Z)
| ReadLink
| RemoveDir
| ListDir
| Exists
| Metadata
| AllocDebug.

(** The methods of a whole filesystem. *)
Inductive fs_method :=
| UidContext
| QuotaSet (uid limit : Z)
| QuotaInfo (uid : Z)
| QuotaList
| SnapshotCreate (label : list Z) (flags : Z)
| SnapshotList
| SnapshotRollback (id : Z)
| SnapshotDelete (id : Z)
| SpaceInfo
| Scrub
| Repair.

Inductive call (F : Type) :=
| At (m : path_method) (p : path)
| Whole (m : fs_method)
| Rename (old new : path)
| SetUidContext (uid : Z)
| SetClock (now : Z)
| Df
| MountFs (point : path) (fs : F)
| UmountFs (point : path)
| ListMounts.
Arguments At {F}.
Arguments Whole {F}.
Arguments Rename {F}.
Arguments SetUidContext {F}.
Arguments SetClock {F}.
Arguments Df {F}.
Arguments MountFs {F}.
Arguments UmountFs {F}.
Arguments ListMounts {F}.

Inductive reply :=
| RUnit (r : outcome FsError unit)
| RBytes (r : outcome FsError (list Z))
| RNum (r : outcome FsError Z)
| RPair (r : outcome FsError (Z * Z))
| RTriples (r : outcome FsError (list (Z * Z * Z)))
| REntries (r : outcome FsError (list DirEntry))
| REntry (r : outcome FsError DirEntry)
| RBool (b : bool)
| RSnapshots (l : list SnapshotInfo)
| RReport (r : ScrubReport)
| RText (t : option (list Z))
| RDf (l : list (path * (Z * Z)))
| RMounts (l : list path)
| RNone.

(** What a filesystem provides: its methods, and its space counters. *)
Class FileSystem (F : Type) := {
  perform : call F -> F -> reply * F;
  space_info : F -> Z * Z;
}.

(** The trait's required methods, and a filesystem that overrides nothing else. *)
Record Required (F : Type) := mkRequired {
  req_read_file : path -> F -> outcome FsError (list Z);
  req_write_file : path -> list Z -> F -> outcome FsError unit * F;
  req_remove_file : path -> F -> outcome FsError unit * F;
  req_create_dir : path -> F -> outcome FsError unit * F;
  req_list_dir : path -> F -> outcome FsError (list DirEntry);
  req_exists : path -> F -> bool;
  req_metadata : path -> F -> outcome FsError DirEntry;
  req_space_info : F -> Z * Z;
}.
Arguments mkRequired {F}.
Arguments req_read_file {F}.
Arguments req_write_file {F}.
Arguments req_remove_file {F}.
Arguments req_create_dir {F}.
Arguments req_list_dir {F}.
Arguments req_exists {F}.
Arguments req_metadata {F}.
Arguments req_space_info {F}.

Definition default_report : ScrubReport := mkReport 0 0 0 true true 0 0 0 [].

Definition default_perform {F} (R : Required F) (c : call F) (f : F) : reply * F :=
  match c with
  | At ReadFile p => (RBytes (req_read_file R p f), f)
  | At (WriteFile d) p => let '(r, f') := req_write_file R p d f in (RUnit r, f')
  | At RemoveFile p => let '(r, f') := req_remove_file R p f in (RUnit r, f')
  | At CreateDir p => let '(r, f') := req_create_dir R p f in (RUnit r, f')
  | At ListDir p => (REntries (req_list_dir R p f), f)
  | At Exists p => (RBool (req_exists R p f), f)
  | At Metadata p => (REntry (req_metadata R p f), f)
  | At GetFlags _ => (RNum (Ok 0), f)
  | At Owner _ => (RNum (Err Unsupported), f)
  | At Versions _ => (RTriples (Err Unsupported), f)
  | At ReadLink _ => (RBytes (Err Unsupported), f)
  | At AllocDebug _ => (RText None, f)
  | At (SetFlags _ | CreateSymlink _ | Chmod _ | RestoreVersion _ | Chown _ | RemoveDir) _ => (RUnit (Err Unsupported), f)
  | Whole UidContext => (RNum (Ok 0), f)
  | Whole (QuotaInfo _) => (RPair (Err Unsupported), f)
  | Whole QuotaList => (RTriples (Ok []), f)
  | Whole (SnapshotCreate _ _) => (RNum (Err Unsupported), f)
  | Whole SnapshotList => (RSnapshots [], f)
  | Whole (QuotaSet _ _ | SnapshotRollback _ | SnapshotDelete _) => (RUnit (Err Unsupported), f)
  | Whole SpaceInfo => (RPair (Ok (req_space_info R f)), f)
  | Whole (Scrub | Repair) => (RReport default_report, f)
  | Rename _ _ => (RUnit (Err Unsupported), f)
  | SetUidContext _ | SetClock _ => (RNone, f)
  | Df => (RDf [([SLASH], req_space_info R f)], f)
  | MountFs _ _ | UmountFs _ => (RUnit (Err Unsupported), f)
  | ListMounts => (RMounts [], f)
  end.

(** ** Routing *)

Definition starts_with (mp p : path) : bool := bool_decide (take (length mp) p = mp).

(** [path == mp || (path.starts_with(mp) && path.as_bytes().get(mp.len()) == Some(&b'/'))] *)
Definition path_under (mp p : path) : bool :=
  bool_decide (p = mp) || (starts_with mp p && bool_decide (p !! length mp = Some SLASH)).

Definition strip (mp p : path) : path :=
  match drop (length mp) p with
  | [] => [SLASH]
  | rest => rest
  end.

Record Mount (F : Type) := mkMount {
  point : path;
  fs : F;
}.
Arguments mkMount {F}.
Arguments point {F}.
Arguments fs {F}.

Record Vfs (F : Type) := mkVfs {
  root : F;
  mounts : list (Mount F);
}.
Arguments mkVfs {F}.
Arguments root {F}.
Arguments mounts {F}.

(** [sort_by_key(|m| Reverse(m.point.len()))], a stable sort. *)
Section sorting.
Context {A : Type} (key : A -> path).

Fixpoint sort_insert (m : A) (l : list A) : list A :=
  match l with
  | [] => [m]
  | x :: l' => if (length (key x) <=? length (key m))%nat then m :: l else x :: sort_insert m l'
  end.

Definition sort_longest_first (l : list A) : list A := foldr sort_insert [] l.

(** The first entry whose mountpoint contains [p], with its position. *)
Fixpoint first_under (p : path) (l : list A) : option (nat * A) :=
  match l with
  | [] => None
  | x :: l' =>
      if path_under (key x) p then Some (O, x)
      else match first_under p l' with Some (i, y) => Some (S i, y) | None => None end
  end.
End sorting.

Section vfs.
Context {F : Type} `{FileSystem F}.

Definition new (root : F) : Vfs F := mkVfs root [].

Definition retain_not (p : path) (l : list (Mount F)) : list (Mount F) :=
  List.filter (fun m => bool_decide (point m <> p)) l.

Definition mount (p : path) (f : F) (v : Vfs F) : Vfs F :=
  mkVfs (root v) (sort_longest_first point (retain_not p (mounts v) ++ [mkMount p f])).

Definition umount (p : path) (v : Vfs F) : bool * Vfs F :=
  let rest := retain_not p (mounts v) in
  (negb (length rest =? length (mounts v))%nat, mkVfs (root v) rest).

Definition mount_points (v : Vfs F) : list path := map point (mounts v).

Definition route (v : Vfs F) (p : path) : option nat * path :=
  match first_under point p (mounts v) with
  | Some (i, m) => (Some i, strip (point m) p)
  | None => (None, p)
  end.

(** [self.fs_mut(idx).method(..)] *)
Definition at_fs (idx : option nat) (c : call F) (v : Vfs F) : reply * Vfs F :=
  match idx with
  | None => let '(r, f) := perform c (root v) in (r, mkVfs f (mounts v))
  | Some i =>
      match mounts v !! i with
      | Some m => let '(r, f) := perform c (fs m) in (r, mkVfs (root v) (<[i := mkMount (point m) f]> (mounts v)))
      | None => (RNone, v)
      end
  end.

Definition everywhere (c : call F) (v : Vfs F) : Vfs F :=
  mkVfs (snd (perform c (root v))) (map (fun m => mkMount (point m) (snd (perform c (fs m)))) (mounts v)).

Definition vfs_df (v : Vfs F) : list (path * (Z * Z)) :=
  ([SLASH], space_info (root v)) :: map (fun m => (point m, space_info (fs m))) (mounts v).

Definition vfs_rename (old new : path) (v : Vfs F) : reply * Vfs F :=
  let '(a, oldp) := route v old in
  let '(b, newp) := route v new in
  if bool_decide (a = b) then at_fs a (Rename oldp newp) v else (RUnit (Err Unsupported), v).

Definition vfs_perform (c : call F) (v : Vfs F) : reply * Vfs F :=
  match c with
  | At m p => let '(idx, sub) := route v p in at_fs idx (At m sub) v
  | Whole m => at_fs None (Whole m) v
  | Rename old new => vfs_rename old new v
  | SetUidContext u => (RNone, everywhere (SetUidContext u) v)
  | SetClock n => (RNone, everywhere (SetClock n) v)
  | Df => (RDf (vfs_df v), v)
  | MountFs p f => (RUnit (Ok tt), mount p f v)
  | UmountFs p => let '(b, v') := umount p v in (RUnit (if b then Ok tt else Err NotFound), v')
  | ListMounts => (RMounts (mount_points v), v)
  end.

(** ** The concurrent form

    [cells] are the reference-counted mounts in the order of their creation (the
    root is the first, and an unmounted one stays while in use); the mount table
    holds their positions.  Each operation locks one cell at a time. *)
Record SharedVfs := mkShared {
  cells : list F;
  table : list (path * nat);
}.

Definition shared_new (root : F) : SharedVfs := mkShared [root] [].

(** [t.iter().position(|m| m.point == point).map(|i| t.remove(i))] *)
Fixpoint remove_point (p : path) (t : list (path * nat)) : bool * list (path * nat) :=
  match t with
  | [] => (false, [])
  | x :: t' =>
      if bool_decide (fst x = p) then (true, t')
      else let '(b, r) := remove_point p t' in (b, x :: r)
  end.

Definition shared_mount (p : path) (f : F) (s : SharedVfs) : SharedVfs :=
  mkShared (cells s ++ [f])
    (sort_longest_first fst (snd (remove_point p (table s)) ++ [(p, length (cells s))])).

Definition shared_umount (p : path) (s : SharedVfs) : bool * SharedVfs :=
  let '(b, t) := remove_point p (table s) in (b, mkShared (cells s) t).

Definition shared_route (s : SharedVfs) (p : path) : nat * path :=
  match first_under fst p (table s) with
  | Some (_, x) => (snd x, strip (fst x) p)
  | None => (O, p)
  end.

(** Locking a cell and running a method on its filesystem. *)
Definition on_cell (i : nat) (c : call F) (s : SharedVfs) : reply * SharedVfs :=
  match cells s !! i with
  | Some f => let '(r, f') := perform c f in (r, mkShared (<[i := f']> (cells s)) (table s))
  | None => (RNone, s)
  end.

Definition with_fs (p : path) (c : path -> call F) (s : SharedVfs) : reply * SharedVfs :=
  let '(i, sub) := shared_route s p in on_cell i (c sub) s.

Definition with_root (c : call F) (s : SharedVfs) : reply * SharedVfs := on_cell O c s.

Definition all_cells (s : SharedVfs) : list (path * nat) := ([SLASH], O) :: table s.

Definition same_mount (s : SharedVfs) (a b : path) : option (nat * path * path) :=
  let '(i, pa) := shared_route s a in
  let '(j, pb) := shared_route s b in
  if (i =? j)%nat then Some (i, pa, pb) else None.

Definition shared_rename (old new : path) (s : SharedVfs) : reply * SharedVfs :=
  match same_mount s old new with
  | Some (i, a, b) => on_cell i (Rename a b) s
  | None => (RUnit (Err Unsupported), s)
  end.

Definition shared_everywhere (c : call F) (s : SharedVfs) : SharedVfs :=
  foldl (fun s x => snd (on_cell (snd x) c s)) s (all_cells s).

Definition shared_df (s : SharedVfs) : list (path * (Z * Z)) :=
  omap (fun x => f ← cells s !! snd x; Some (fst x, space_info f)) (all_cells s).

(** [from_dyn]: whether a filesystem handed over as a trait object can join the
    table (always, for the kernel's [dyn FileSystem]). *)
Definition shared_perform (from_dyn : F -> option F) (c : call F) (s : SharedVfs) : reply * SharedVfs :=
  match c with
  | At m p => with_fs p (At m) s
  | Whole m => with_root (Whole m) s
  | Rename old new => shared_rename old new s
  | SetUidContext u => (RNone, shared_everywhere (SetUidContext u) s)
  | SetClock n => (RNone, shared_everywhere (SetClock n) s)
  | Df => (RDf (shared_df s), s)
  | MountFs p f =>
      match from_dyn f with
      | Some f' => (RUnit (Ok tt), shared_mount p f' s)
      | None => (RUnit (Err Unsupported), s)
      end
  | UmountFs p => let '(b, s') := shared_umount p s in (RUnit (if b then Ok tt else Err NotFound), s')
  | ListMounts => (RMounts (map fst (table s)), s)
  end.

(** [impl VfsMember for dyn FileSystem] *)
Definition dyn_from_dyn (f : F) : option F := Some f.

(** ** Specification: an unordered table of mountpoints *)
Record namespace := mkNs {
  ns_root : F;
  ns_table : gmap path F;
}.

(** Where the path [seen ++ rest] lies: the longest mountpoint that ends in [rest]
    where a component ends, and what follows it. *)
Fixpoint locate (t : gmap path F) (seen rest : path) : option (path * path) :=
  let here := if bool_decide (is_Some (t !! seen)) then Some (seen, rest) else None in
  match rest with
  | [] => here
  | c :: rest' =>
      match locate t (seen ++ [c]) rest' with
      | Some r => Some r
      | None => if c =? SLASH then here else None
      end
  end.

Definition ns_owner (n : namespace) (p : path) : option path := fst <$> locate (ns_table n) [] p.

(** What the owner sees: the rest of the path, and its root for the mountpoint. *)
Definition ns_inner (n : namespace) (p : path) : path :=
  match locate (ns_table n) [] p with
  | Some (_, []) => [SLASH]
  | Some (_, rest) => rest
  | None => p
  end.

Definition ns_at (o : option path) (c : call F) (n : namespace) : reply * namespace :=
  match o with
  | None => let '(r, f) := perform c (ns_root n) in (r, mkNs f (ns_table n))
  | Some mp =>
      match ns_table n !! mp with
      | Some f => let '(r, f') := perform c f in (r, mkNs (ns_root n) (<[mp := f']> (ns_table n)))
      | None => (RNone, n)
      end
  end.

Definition ns_perform (c : call F) (n : namespace) : reply * namespace :=
  match c with
  | At m p => ns_at (ns_owner n p) (At m (ns_inner n p)) n
  | Whole m => ns_at None (Whole m) n
  | Rename old new =>
      if bool_decide (ns_owner n old = ns_owner n new)
      then ns_at (ns_owner n old) (Rename (ns_inner n old) (ns_inner n new)) n
      else (RUnit (Err Unsupported), n)
  | SetUidContext _ | SetClock _ =>
      (RNone, mkNs (snd (perform c (ns_root n))) ((fun f => snd (perform c f)) <$> ns_table n))
  | Df => (RDf (([SLASH], space_info (ns_root n)) :: map (fun x => (fst x, space_info (snd x))) (map_to_list (ns_table n))), n)
  | MountFs p f => (RUnit (Ok tt), mkNs (ns_root n) (<[p := f]> (ns_table n)))
  | UmountFs p =>
      (RUnit (if bool_decide (is_Some (ns_table n !! p)) then Ok tt else Err NotFound),
       mkNs (ns_root n) (delete p (ns_table n)))
  | ListMounts => (RMounts (map fst (map_to_list (ns_table n))), n)
  end.
End vfs.
Arguments SharedVfs : clear implicits.
Arguments namespace : clear implicits.

(** The replies of an implementation and of the specification: equal, except that
    the mounts may be listed in another order. *)
Definition reply_equiv {F} (c : call F) (r r' : reply) : Prop :=
  match c, r, r' with
  | Df, RDf l, RDf l' => l ≡ₚ l'
  | ListMounts, RMounts l, RMounts l' => l ≡ₚ l'
  | _, _, _ => r = r'
  end.

(** A sequence of calls. *)
Fixpoint perform_all {S C} (f : C -> S -> reply * S) (cs : list C) (s : S) : list reply * S :=
  match cs with
  | [] => ([], s)
  | c :: cs' => let '(r, s') := f c s in let '(rs, s'') := perform_all f cs' s' in (r :: rs, s'')
  end.

(** ** Paths under a mountpoint *)

Lemma path_under_prefix mp p : path_under mp p = true -> mp = take (length mp) p /\ (length mp <= length p)%nat.
Proof.
  unfold path_under, starts_with. intros [->%bool_decide_eq_true|[E%bool_decide_eq_true _]%andb_true_iff]%orb_true_iff.
  - by rewrite firstn_all.
  - split; [done|]. apply (f_equal length) in E. rewrite length_take in E. lia.
Qed.

(** The end of a path, or the start of its next component. *)
Definition boundary (rest : path) : Prop := rest = [] \/ head rest = Some SLASH.

Lemma path_under_spec mp p : path_under mp p = true <-> exists rest, p = mp ++ rest /\ boundary rest.
Proof.
  unfold path_under, starts_with, boundary. rewrite orb_true_iff, andb_true_iff, !bool_decide_eq_true. split.
  - intros [-> |[E Hs]]; [exists []; rewrite app_nil_r; auto|]. exists (drop (length mp) p).
    split; [by rewrite <- E at 1; rewrite take_drop|]. right. rewrite head_lookup, lookup_drop, Nat.add_0_r. done.
  - intros (rest & -> & [-> |H]); [left; by rewrite app_nil_r|]. right. rewrite take_app_length. split; [done|].
    rewrite <- H, head_lookup. change (@lookup nat Z (list Z) _ (length mp) (mp ++ rest) = rest !! 0%nat). rewrite lookup_app_r, Nat.sub_diag by lia. done.
Qed.

Lemma path_under_same mp mp' p :
  path_under mp p = true -> path_under mp' p = true -> length mp = length mp' -> mp = mp'.
Proof. intros [E1 _]%path_under_prefix [E2 _]%path_under_prefix E. by rewrite E1, E2, E. Qed.

Section sorted.
Context {A : Type} (key : A -> path).

(** Longest mountpoint first. *)
Definition longest_first (l : list A) : Prop :=
  forall i j x y, (i < j)%nat -> l !! i = Some x -> l !! j = Some y -> (length (key y) <= length (key x))%nat.

Lemma longest_first_nil : longest_first [].
Proof. by intros i j x y _ Hi. Qed.

Lemma longest_first_cons x l :
  longest_first (x :: l) <-> longest_first l /\ Forall (fun y => (length (key y) <= length (key x))%nat) l.
Proof.
  split.
  - intros Hs. split; [intros i j a b Hij Hi Hj; by apply (Hs (S i) (S j) a b); [lia|..]|].
    apply Forall_lookup. intros i y Hi. by apply (Hs O (S i) x y); [lia|..].
  - intros [Hs Hx] [|i] [|j] a b Hij Hi Hj; try lia; cbn in *.
    + injection Hi as <-. apply (Forall_lookup_1 _ _ _ _ Hx Hj).
    + apply (Hs i j); (done || lia).
Qed.

Lemma sort_insert_perm x l : sort_insert key x l ≡ₚ x :: l.
Proof. induction l as [|y l IH]; [done|]. cbn. case_match; [done|]. rewrite IH. by constructor. Qed.

Lemma sort_perm l : sort_longest_first key l ≡ₚ l.
Proof. induction l as [|x l IH]; [done|]. cbn. by rewrite sort_insert_perm, IH. Qed.

Lemma sort_insert_sorted x l : longest_first l -> longest_first (sort_insert key x l).
Proof.
  induction l as [|y l IH]; intros Hl; cbn; [by apply longest_first_cons; split; [apply longest_first_nil|]|].
  destruct (Nat.leb_spec (length (key y)) (length (key x))) as [Hle|Hlt].
  - apply longest_first_cons. split; [done|]. apply longest_first_cons in Hl as [_ Hy]. constructor; [done|].
    eapply Forall_impl; [exact Hy|]. cbn. lia.
  - apply longest_first_cons in Hl as [Hl Hy]. apply longest_first_cons. split; [by apply IH|].
    rewrite sort_insert_perm. constructor; [lia|done].
Qed.

Lemma sort_sorted l : longest_first (sort_longest_first key l).
Proof. induction l as [|x l IH]; [apply longest_first_nil|]. by apply sort_insert_sorted. Qed.

Lemma longest_first_filter (f : A -> bool) l : longest_first l -> longest_first (List.filter f l).
Proof.
  induction l as [|x l IH]; intros Hl; [done|]. apply longest_first_cons in Hl as [Hl Hx]. cbn.
  destruct (f x); [|by apply IH]. apply longest_first_cons. split; [by apply IH|].
  apply Forall_forall. intros y [Hy _]%list_elem_of_In%filter_In. rewrite Forall_forall in Hx. by apply Hx, list_elem_of_In.
Qed.

Lemma first_under_some p l i x :
  first_under key p l = Some (i, x) ->
  l !! i = Some x /\ path_under (key x) p = true /\
  forall j y, (j < i)%nat -> l !! j = Some y -> path_under (key y) p = false.
Proof.
  revert i. induction l as [|y l IH]; intros i; [done|]. cbn. destruct (path_under (key y) p) eqn:E.
  - intros [= <- <-]. split_and!; try done. lia.
  - destruct (first_under key p l) as [[i' x']|]; [|done]. intros [= <- <-]. destruct (IH i' eq_refl) as (H1 & H2 & H3).
    split_and!; try done. intros [|j] z Hj Hz; cbn in Hz; [congruence|]. apply (H3 j); (done || lia).
Qed.

Lemma first_under_none p l : first_under key p l = None -> forall x, x ∈ l -> path_under (key x) p = false.
Proof.
  induction l as [|y l IH]; intros E x Hx; [by apply elem_of_nil in Hx|]. cbn in E.
  destruct (path_under (key y) p) eqn:Ey; [done|]. destruct (first_under key p l) as [[]|]; [done|].
  apply elem_of_cons in Hx as [->|Hx]; auto.
Qed.

(** The first match is the longest one. *)
Lemma first_under_longest p l i x y :
  longest_first l -> first_under key p l = Some (i, x) -> y ∈ l -> path_under (key y) p = true ->
  (length (key y) <= length (key x))%nat.
Proof.
  intros Hl Hf Hy Hu. destruct (first_under_some p l i x Hf) as (Hi & _ & Hn).
  apply list_elem_of_lookup in Hy as [j Hj]. destruct (decide (j < i)%nat) as [Hji|Hji].
  - rewrite (Hn j y Hji Hj) in Hu. done.
  - destruct (decide (i = j)) as [->|]; [by simplify_eq|]. apply (Hl i j); (done || lia).
Qed.
End sorted.

Section refinement.
Context {F : Type} `{FileSystem F}.
Implicit Types (v : Vfs F) (n : namespace F).

(** The invariant: sorted, and one mount per mountpoint. *)
Record vfs_ok v : Prop := mkVfsOk {
  vo_sorted : longest_first point (mounts v);
  vo_unique : NoDup (map point (mounts v));
}.

Definition pairs (l : list (Mount F)) : list (path * F) := map (fun m => (point m, fs m)) l.

Lemma fst_pairs l : (pairs l).*1 = map point l.
Proof. unfold pairs. rewrite <- list_fmap_compose. done. Qed.

Definition abs v : namespace F := mkNs (root v) (list_to_map (pairs (mounts v))).

Lemma abs_lookup v p f :
  vfs_ok v -> ns_table (abs v) !! p = Some f <-> exists m, m ∈ mounts v /\ point m = p /\ fs m = f.
Proof.
  intros [_ Hu]. cbn. rewrite <- elem_of_list_to_map by (by rewrite fst_pairs).
  unfold pairs. rewrite list_elem_of_fmap. naive_solver.
Qed.

Lemma locate_spec (t : gmap path F) seen rest :
  match locate t seen rest with
  | Some (mp, r) => is_Some (t !! mp) /\ mp ++ r = seen ++ rest /\ boundary r /\
      forall mp' r', is_Some (t !! mp') -> mp' ++ r' = seen ++ rest -> boundary r' -> (length mp' <= length mp)%nat
  | None => forall mp' r', is_Some (t !! mp') -> mp' ++ r' = seen ++ rest -> boundary r' -> (length mp' < length seen)%nat
  end.
Proof.
  revert seen. induction rest as [|c rest IH]; intros seen; cbn [locate].
  - case_bool_decide as Hm.
    + split; [done|]. split; [done|]. split; [by left|]. intros mp' r' _ E _. apply (f_equal length) in E. rewrite !length_app in E. simpl in E. lia.
    + intros mp' r' Hm' E _. pose proof (f_equal length E) as El. rewrite !length_app in El. simpl in El.
      destruct (decide (length mp' = length seen)); [|lia]. destruct r'; [|simpl in El; lia]. rewrite !app_nil_r in E. by subst.
  - specialize (IH (seen ++ [c])). destruct (locate t (seen ++ [c]) rest) as [[mp r]|].
    { rewrite <- app_assoc in IH. exact IH. }
    assert (Hlt : forall mp' r', is_Some (t !! mp') -> mp' ++ r' = seen ++ c :: rest -> boundary r' -> (length mp' <= length seen)%nat).
    { intros mp' r' Hm' E Hb. specialize (IH mp' r' Hm'). rewrite <- app_assoc, length_app in IH. specialize (IH E Hb). simpl in IH. lia. }
    assert (Heq : forall mp' r', mp' ++ r' = seen ++ c :: rest -> length mp' = length seen -> mp' = seen /\ r' = c :: rest).
    { intros mp' r' E El. by apply app_inj_1 in E. }
    destruct (Z.eqb_spec c SLASH) as [-> |Hc]; [case_bool_decide as Hm|].
    + split; [done|]. split; [done|]. split; [by right | done].
    + intros mp' r' Hm' E Hb. pose proof (Hlt mp' r' Hm' E Hb). destruct (decide (length mp' = length seen)) as [El|]; [|lia].
      by destruct (Heq mp' r' E El) as [-> _].
    + intros mp' r' Hm' E Hb. pose proof (Hlt mp' r' Hm' E Hb). destruct (decide (length mp' = length seen)) as [El|]; [|lia].
      destruct (Heq mp' r' E El) as [_ ->]. destruct Hb as [|[= ?]]; done.
Qed.

Lemma owner_spec (n : namespace F) p :
  match ns_owner n p with
  | Some mp => is_Some (ns_table n !! mp) /\ path_under mp p = true /\ ns_inner n p = strip mp p /\
      forall mp', is_Some (ns_table n !! mp') -> path_under mp' p = true -> (length mp' <= length mp)%nat
  | None => ns_inner n p = p /\ forall mp', is_Some (ns_table n !! mp') -> path_under mp' p = true -> False
  end.
Proof.
  unfold ns_owner, ns_inner. pose proof (locate_spec (ns_table n) [] p) as Hl. destruct (locate (ns_table n) [] p) as [[mp r]|]; cbn [fmap option_fmap option_map fst].
  - destruct Hl as (H1 & E & H3 & H4). simpl in E. subst p. split; [done|]. split; [apply path_under_spec; by exists r|].
    split; [unfold strip; rewrite drop_app_length; by destruct r|]. intros mp' Hm' (r' & E & Hb)%path_under_spec. by apply (H4 mp' r').
  - split; [done|]. intros mp' Hm' (r' & E & Hb)%path_under_spec. specialize (Hl mp' r' Hm' (eq_sym E) Hb). simpl in Hl. lia.
Qed.

Lemma route_owner v p :
  vfs_ok v ->
  match route v p with
  | (Some i, sub) => exists m, mounts v !! i = Some m /\ ns_owner (abs v) p = Some (point m) /\ ns_inner (abs v) p = sub
  | (None, sub) => ns_owner (abs v) p = None /\ ns_inner (abs v) p = sub
  end.
Proof.
  intros Hv. unfold route. pose proof (owner_spec (abs v) p) as Hl.
  destruct (first_under point p (mounts v)) as [[i m]|] eqn:E.
  - exists m. destruct (first_under_some _ _ _ _ _ E) as (Hi & Hu & _). split; [done|].
    assert (Hm : is_Some (ns_table (abs v) !! point m)).
    { exists (fs m). apply abs_lookup; [done|]. exists m. split; [by eapply list_elem_of_lookup_2|done]. }
    destruct (ns_owner _ _) as [mp|]; [|by destruct Hl as [_ Hl]; destruct (Hl _ Hm Hu)].
    destruct Hl as ([f Hf] & Hu' & Hin & Hmax). apply abs_lookup in Hf as (m' & Hm' & <- & _); [|done].
    pose proof (first_under_longest _ _ _ _ _ _ (vo_sorted _ Hv) E Hm' Hu'). specialize (Hmax _ Hm Hu).
    assert (point m' = point m) as <- by (eapply path_under_same; [done..|lia]). done.
  - destruct (ns_owner _ _) as [mp|]; [|by destruct Hl]. destruct Hl as ([f Hf] & Hu & _).
    apply abs_lookup in Hf as (m & Hm & <- & _); [|done]. rewrite (first_under_none _ _ _ E m Hm) in Hu. done.
Qed.

Lemma point_insert v i m f :
  mounts v !! i = Some m -> map point (<[i := mkMount (point m) f]> (mounts v)) = map point (mounts v).
Proof.
  intros Hi. apply list_eq. intros j.
  rewrite !list_lookup_fmap. destruct (decide (i = j)) as [<-|Hne].
  - by rewrite list_lookup_insert_eq, Hi by by eapply lookup_lt_Some.
  - by rewrite list_lookup_insert_ne.
Qed.

Lemma longest_first_points {A B} (k : A -> path) (k' : B -> path) l l' :
  map k l = map k' l' -> longest_first k l -> longest_first k' l'.
Proof.
  intros E Hl i j x y Hij Hi Hj.
  assert (Hm : forall i x, l' !! i = Some x -> exists a, l !! i = Some a /\ k a = k' x).
  { intros i0 x0 Hx. assert (E0 : map k l !! i0 = Some (k' x0)) by (by rewrite E, list_lookup_fmap, Hx).
    rewrite list_lookup_fmap in E0. destruct (l !! i0) as [a|]; [|done]. injection E0 as E0. eauto. }
  destruct (Hm i x Hi) as (a & Ha & <-), (Hm j y Hj) as (b & Hb & <-). by apply (Hl i j).
Qed.

Lemma vfs_ok_points v v' : map point (mounts v) = map point (mounts v') -> vfs_ok v -> vfs_ok v'.
Proof. intros E [H1 H2]. split; [by eapply longest_first_points|by rewrite <- E]. Qed.

Lemma abs_insert v i m f :
  vfs_ok v -> mounts v !! i = Some m ->
  abs (mkVfs (root v) (<[i := mkMount (point m) f]> (mounts v))) = mkNs (root v) (<[point m := f]> (ns_table (abs v))).
Proof.
  intros Hv Hi. unfold abs at 1. cbn [root mounts]. f_equal. apply map_eq. intros p. apply option_eq. intros g.
  set (v' := mkVfs (root v) (<[i := mkMount (point m) f]> (mounts v))).
  assert (Hv' : vfs_ok v') by (eapply vfs_ok_points; [|done]; symmetry; by apply point_insert).
  change (list_to_map _) with (ns_table (abs v')). rewrite (abs_lookup v' p g Hv').
  rewrite lookup_insert_Some, (abs_lookup v p g Hv). pose proof (vo_unique _ Hv) as Hu. split.
  - intros (m' & Hm' & <- & <-). subst v'. cbn [mounts] in Hm'. apply list_elem_of_lookup in Hm' as [j Hj].
    apply list_lookup_insert_Some in Hj as [(<- & <- & _)|(Hne & Hj)]; [by left|]. right. split.
    + intros E. apply Hne. eapply NoDup_lookup; [exact Hu|by rewrite list_lookup_fmap, Hi|by rewrite list_lookup_fmap, Hj; cbn; rewrite E].
    + exists m'. split; [by eapply list_elem_of_lookup_2|done].
  - intros [[<- <-]|[Hne (m' & Hm' & <- & <-)]]; subst v'; cbn [mounts].
    + exists (mkMount (point m) f). split; [|done]. eapply list_elem_of_lookup_2. apply list_lookup_insert_eq. by eapply lookup_lt_Some.
    + exists m'. split; [|done]. apply list_elem_of_lookup in Hm' as [j Hj]. apply (list_elem_of_lookup_2 _ j).
      rewrite list_lookup_insert_ne; [done|]. intros ->. congruence.
Qed.

Lemma at_fs_refines v i o c r v' :
  vfs_ok v -> at_fs i c v = (r, v') ->
  match i with
  | Some k => exists m, mounts v !! k = Some m /\ o = Some (point m)
  | None => o = None
  end ->
  vfs_ok v' /\ ns_at o c (abs v) = (r, abs v').
Proof.
  intros Hv E Ho. destruct i as [k|].
  - destruct Ho as (m & Hk & ->). unfold at_fs in E. rewrite Hk in E. unfold ns_at.
    assert (ns_table (abs v) !! point m = Some (fs m)) as ->.
    { apply abs_lookup; [done|]. exists m. split; [by eapply list_elem_of_lookup_2|done]. }
    destruct (perform c (fs m)) as [r0 f]. injection E as <- <-. split.
    + eapply vfs_ok_points; [|done]. symmetry. by apply point_insert.
    + by rewrite abs_insert.
  - subst o. unfold at_fs in E. unfold ns_at. cbn [abs ns_root]. destruct (perform c (root v)) as [r0 f].
    injection E as <- <-. split; [by destruct Hv|done].
Qed.

Lemma points_retain p (l : list (Mount F)) :
  map point (retain_not p l) = List.filter (fun q => bool_decide (q <> p)) (map point l).
Proof.
  unfold retain_not. induction l as [|m l IH]; [done|]. cbn. destruct (bool_decide (point m <> p)); cbn; by rewrite IH.
Qed.

Lemma nodup_retain p (l : list (Mount F)) : NoDup (map point l) -> NoDup (map point (retain_not p l)).
Proof. intros Hl. rewrite points_retain. by apply NoDup_ListNoDup, List.NoDup_filter, NoDup_ListNoDup. Qed.

Lemma elem_of_retain p (l : list (Mount F)) m : m ∈ retain_not p l <-> m ∈ l /\ point m <> p.
Proof. unfold retain_not. by rewrite !list_elem_of_In, filter_In, bool_decide_eq_true. Qed.

Lemma mount_refines p f v :
  vfs_ok v -> vfs_ok (mount p f v) /\ abs (mount p f v) = mkNs (root v) (<[p := f]> (ns_table (abs v))).
Proof.
  intros Hv. assert (Hv' : vfs_ok (mount p f v)).
  { split; cbn [mounts mount]; [apply sort_sorted|]. rewrite sort_perm, map_app. apply NoDup_app.
    split; [apply nodup_retain, Hv|]. split; [|apply NoDup_singleton].
    intros q Hq ->%list_elem_of_singleton. rewrite points_retain, list_elem_of_In, filter_In in Hq.
    destruct Hq as [_ Hq]. by apply bool_decide_eq_true in Hq. }
  split; [done|]. unfold abs at 1. cbn [root mount]. f_equal. apply map_eq. intros q. apply option_eq. intros g.
  change (list_to_map _) with (ns_table (abs (mount p f v))). rewrite abs_lookup by done.
  rewrite lookup_insert_Some, (abs_lookup v q g Hv). cbn [mounts mount].
  setoid_rewrite sort_perm. setoid_rewrite elem_of_app. setoid_rewrite list_elem_of_singleton.
  setoid_rewrite elem_of_retain. split.
  - intros (m & [[Hm Hne]| ->] & <- & <-); [right|left; done]. split; [done|eauto].
  - intros [[<- <-]|[Hne (m & Hm & <- & <-)]]; [eauto|]. exists m. split; [left; done|done].
Qed.

Lemma umount_refines p v b v' :
  vfs_ok v -> umount p v = (b, v') ->
  vfs_ok v' /\ b = bool_decide (is_Some (ns_table (abs v) !! p)) /\ abs v' = mkNs (root v) (delete p (ns_table (abs v))).
Proof.
  intros Hv [= <- <-]. assert (Hv' : vfs_ok (mkVfs (root v) (retain_not p (mounts v)))).
  { split; cbn [mounts]; [apply longest_first_filter, Hv|apply nodup_retain, Hv]. }
  split; [done|]. split.
  - destruct (Nat.eqb_spec (length (retain_not p (mounts v))) (length (mounts v))) as [E|E]; cbn [negb]; symmetry.
    + apply bool_decide_eq_false. intros [f (m & Hm & Hp & _)%(abs_lookup v p f Hv)].
      assert (Ef : retain_not p (mounts v) = mounts v).
      { clear -E. unfold retain_not in *. induction (mounts v) as [|m l IH]; [done|]. cbn in E |- *.
        destruct (bool_decide _); cbn in E; [by rewrite IH by lia|].
        pose proof (List.filter_length_le (fun m => bool_decide (point m <> p)) l). lia. }
      rewrite <- Ef in Hm. by apply elem_of_retain in Hm as [_ ?].
    + apply bool_decide_eq_true. destruct (decide (Forall (fun m => point m <> p) (mounts v))) as [Ha|Hn].
      * destruct E. f_equal. clear -Ha. unfold retain_not. induction Ha as [|m l Hm _ IH]; [done|]. cbn.
        rewrite bool_decide_eq_true_2 by done. by f_equal.
      * apply not_Forall_Exists, Exists_exists in Hn as (m & Hm & Hp); [|apply _]. apply dec_stable in Hp.
        exists (fs m). apply abs_lookup; [done|]. eauto.
  - unfold abs at 1. cbn [root]. f_equal. apply map_eq. intros q. apply option_eq. intros g.
    change (list_to_map _) with (ns_table (abs (mkVfs (root v) (retain_not p (mounts v))))). rewrite abs_lookup by done.
    rewrite lookup_delete_Some, (abs_lookup v q g Hv). cbn [mounts]. setoid_rewrite elem_of_retain. naive_solver.
Qed.

Lemma everywhere_refines c v :
  vfs_ok v -> vfs_ok (everywhere c v) /\
  abs (everywhere c v) = mkNs (snd (perform c (root v))) ((fun f => snd (perform c f)) <$> ns_table (abs v)).
Proof.
  intros Hv. split.
  - eapply vfs_ok_points; [|done]. cbn [mounts everywhere]. by rewrite map_map.
  - unfold abs. cbn [root mounts everywhere ns_table]. f_equal. rewrite <- list_to_map_fmap. f_equal.
    unfold pairs. rewrite map_map. rewrite <- list_fmap_compose. done.
Qed.

Ltac spec_done := split; [done|]; eexists; split; [first [eassumption|reflexivity]|done].

Lemma perform_refines c v r v' :
  vfs_ok v -> vfs_perform c v = (r, v') ->
  vfs_ok v' /\ exists r', ns_perform c (abs v) = (r', abs v') /\ reply_equiv c r r'.
Proof.
  intros Hv.
  destruct c as [m p|m|old new|u|u| |p f|p|]; cbn [vfs_perform ns_perform].
  - pose proof (route_owner v p Hv) as Hr. destruct (route v p) as [[i|] sub].
    + destruct Hr as (mt & Hi & -> & ->). intros E. eapply at_fs_refines in E as [H1 H2]; [|done|by exists mt]. spec_done.
    + destruct Hr as [-> ->]. intros E. eapply at_fs_refines in E as [H1 H2]; [|done..]. spec_done.
  - intros E. eapply at_fs_refines in E as [H1 H2]; [|done..]. spec_done.
  - unfold vfs_rename. pose proof (route_owner v old Hv) as Ho. pose proof (route_owner v new Hv) as Hn.
    destruct (route v old) as [a oldp], (route v new) as [b newp].
    assert (Hab : a = b <-> ns_owner (abs v) old = ns_owner (abs v) new).
    { destruct a as [i|], b as [j|].
      - destruct Ho as (m1 & Hi & -> & _), Hn as (m2 & Hj & -> & _). split; [intros [= <-]; congruence|].
        intros [= E]. f_equal. eapply NoDup_lookup; [apply Hv|by rewrite list_lookup_fmap, Hi|].
        rewrite list_lookup_fmap, Hj. cbn. by rewrite E.
      - destruct Ho as (m1 & _ & -> & _), Hn as [-> _]. done.
      - destruct Hn as (m1 & _ & -> & _), Ho as [-> _]. done.
      - destruct Ho as [-> _], Hn as [-> _]. done. }
    rewrite <- (bool_decide_ext _ _ Hab). case_bool_decide as E; [|intros [= <- <-]; spec_done]. subst b.
    intros E. eapply (at_fs_refines _ _ (ns_owner (abs v) old)) in E as [H1 H2]; [|done|].
    + split; [done|]. eexists. split; [|done]. rewrite <- H2. f_equal. f_equal; destruct a.
      * by destruct Ho as (? & _ & _ & ->).
      * by destruct Ho as [_ ->].
      * by destruct Hn as (? & _ & _ & ->).
      * by destruct Hn as [_ ->].
    + destruct a as [i|]; [destruct Ho as (mt & ? & ? & _); eauto|by destruct Ho].
  - intros [= <- <-]. destruct (everywhere_refines (SetUidContext u) v Hv) as [H1 H2]. rewrite H2. spec_done.
  - intros [= <- <-]. destruct (everywhere_refines (SetClock u) v Hv) as [H1 H2]. rewrite H2. spec_done.
  - intros [= <- <-]. split; [done|]. eexists. split; [done|]. cbn. constructor.
    rewrite map_to_list_to_map by (rewrite fst_pairs; apply Hv). unfold pairs. by rewrite map_map.
  - intros [= <- <-]. destruct (mount_refines p f v Hv) as [H1 H2]. rewrite H2. spec_done.
  - destruct (umount p v) as [b v1] eqn:Eu. intros [= <- <-]. destruct (umount_refines p v b v1 Hv Eu) as (H1 & -> & H2).
    rewrite H2. spec_done.
  - intros [= <- <-]. split; [done|]. eexists. split; [done|]. cbn.
    rewrite map_to_list_to_map by (rewrite fst_pairs; apply Hv). unfold pairs, mount_points. by rewrite map_map.
Qed.

Lemma perform_all_refines cs v rs v' :
  vfs_ok v -> perform_all vfs_perform cs v = (rs, v') ->
  vfs_ok v' /\ exists rs', perform_all ns_perform cs (abs v) = (rs', abs v') /\ Forall3 reply_equiv cs rs rs'.
Proof.
  revert v rs. induction cs as [|c cs IH]; intros v rs Hv; cbn; [intros [= <- <-]; eauto using Forall3|].
  destruct (vfs_perform c v) as [r v1] eqn:E1. destruct (perform_all vfs_perform cs v1) as [rs1 v2] eqn:E2.
  intros [= <- <-]. destruct (perform_refines _ _ _ _ Hv E1) as (Hv1 & r' & -> & Hr).
  destruct (IH _ _ Hv1 E2) as (Hv2 & rs' & -> & Hrs). eauto 10 using Forall3.
Qed.

(** ** The shared form implements the owned form *)

(** A table entry and the mount it stands for. *)
Definition entry_of (s : SharedVfs F) (x : path * nat) (m : Mount F) : Prop :=
  fst x = point m /\ cells s !! snd x = Some (fs m).

Record shares (s : SharedVfs F) v : Prop := mkShares {
  sv_root : cells s !! O = Some (root v);
  sv_mounts : Forall2 (entry_of s) (table s) (mounts v);
  sv_ids : NoDup (O :: map snd (table s));
}.

Lemma first_under_shared (R : path * nat -> Mount F -> Prop) p t l :
  (forall x m, R x m -> fst x = point m) -> Forall2 R t l ->
  match first_under fst p t, first_under point p l with
  | Some (i, x), Some (j, m) => i = j /\ t !! i = Some x /\ R x m
  | None, None => True
  | _, _ => False
  end.
Proof.
  intros Hk. induction 1 as [|x m t l Hx _ IH]; [done|]. cbn. rewrite <- (Hk x m Hx). destruct (path_under (fst x) p); [done|].
  destruct (first_under fst p t) as [[i y]|], (first_under point p l) as [[j z]|]; try done. by destruct IH as [-> ?].
Qed.

Lemma sort_insert_shared (R : path * nat -> Mount F -> Prop) x m t l :
  (forall x m, R x m -> fst x = point m) -> R x m -> Forall2 R t l ->
  Forall2 R (sort_insert fst x t) (sort_insert point m l).
Proof.
  intros Hk Hx. induction 1 as [|y z t l Hy Ht IH]; cbn; [by repeat constructor|].
  rewrite (Hk x m Hx), (Hk y z Hy). case_match; by repeat constructor.
Qed.

Lemma sort_shared (R : path * nat -> Mount F -> Prop) t l :
  (forall x m, R x m -> fst x = point m) -> Forall2 R t l ->
  Forall2 R (sort_longest_first fst t) (sort_longest_first point l).
Proof. intros Hk. induction 1; cbn; [constructor|by apply sort_insert_shared]. Qed.

Lemma entry_of_key s x m : entry_of s x m -> fst x = point m.
Proof. by intros []. Qed.

Lemma shared_route_vfs s v p :
  shares s v ->
  match route v p with
  | (Some i, sub) => exists x, table s !! i = Some x /\ shared_route s p = (snd x, sub)
  | (None, sub) => shared_route s p = (O, sub)
  end.
Proof.
  intros [_ Hm _]. unfold route, shared_route.
  pose proof (first_under_shared (entry_of s) p _ _ (entry_of_key s) Hm) as Hf.
  destruct (first_under fst p (table s)) as [[i x]|], (first_under point p (mounts v)) as [[j m]|]; try done.
  destruct Hf as (-> & Hx & Hk & _). exists x. by rewrite Hk.
Qed.

(** One locked operation on the cell of entry [i], or of the root. *)
Lemma on_cell_vfs s v i id c r v' :
  shares s v -> at_fs i c v = (r, v') ->
  match i with Some k => exists x, table s !! k = Some x /\ id = snd x | None => id = O end ->
  exists s', on_cell id c s = (r, s') /\ shares s' v'.
Proof.
  intros [Hr Hm Hn] E Hi. apply NoDup_cons in Hn as [H0 Hn].
  assert (Hne : forall k x, table s !! k = Some x -> snd x <> O).
  { intros k x Hk E0. apply H0. rewrite <- E0. apply list_elem_of_fmap. exists x. split; [done|by eapply list_elem_of_lookup_2]. }
  destruct i as [k|].
  - destruct Hi as (x & Hx & ->). destruct (Forall2_lookup_l _ _ _ _ _ Hm Hx) as (m & Hk & Hp & Hc).
    unfold at_fs in E. rewrite Hk in E. unfold on_cell. rewrite Hc. destruct (perform c (fs m)) as [r0 f].
    injection E as <- <-. eexists. split; [done|]. split; cbn [cells table root mounts].
    + rewrite list_lookup_insert_ne by by eapply Hne. done.
    + apply Forall2_same_length_lookup_2; [rewrite length_insert; by eapply Forall2_length|].
      intros j y z Hy Hz. apply list_lookup_insert_Some in Hz as [(<- & <- & _)|(Hjk & Hz)].
      * assert (y = x) as -> by congruence. split; [done|]. cbn. apply list_lookup_insert_eq. by eapply lookup_lt_Some.
      * destruct (Forall2_lookup_lr _ _ _ _ _ _ Hm Hy Hz) as [? Hcz]. split; [done|]. cbn.
        rewrite list_lookup_insert_ne; [done|]. intros Es. apply Hjk. eapply NoDup_lookup; [exact Hn|by rewrite list_lookup_fmap, Hx|].
        by rewrite list_lookup_fmap, Hy, Es.
    + apply NoDup_cons. done.
  - subst id. unfold at_fs in E. unfold on_cell. rewrite Hr. destruct (perform c (root v)) as [r0 f]. injection E as <- <-.
    eexists. split; [done|]. split; cbn [cells table root mounts].
    + apply list_lookup_insert_eq. by eapply lookup_lt_Some.
    + apply Forall2_same_length_lookup_2; [by eapply Forall2_length|]. intros j y z Hy Hz.
      destruct (Forall2_lookup_lr _ _ _ _ _ _ Hm Hy Hz) as [? Hcz]. split; [done|]. cbn.
      rewrite list_lookup_insert_ne; [done|]. symmetry. by eapply Hne.
    + apply NoDup_cons. done.
Qed.

(** Unmounting. *)
Lemma remove_point_vfs (R : path * nat -> Mount F -> Prop) p t l b t' :
  (forall x m, R x m -> fst x = point m) -> Forall2 R t l -> NoDup (map point l) -> remove_point p t = (b, t') ->
  Forall2 R t' (retain_not p l) /\ t' `sublist_of` t /\ b = negb (length (retain_not p l) =? length l)%nat.
Proof.
  intros Hk Hf. revert b t'. induction Hf as [|x m t l Hx Ht IH]; intros b t' Hn E; cbn in E; [by injection E as <- <-|].
  apply NoDup_cons in Hn as [Hm Hn]. unfold retain_not in *. cbn. rewrite (Hk x m Hx) in E. case_bool_decide as Ep.
  - injection E as <- <-. rewrite bool_decide_eq_false_2 by naive_solver.
    assert (Hl : List.filter (fun m => bool_decide (point m <> p)) l = l).
    { clear -Hm Ep. subst p. induction l as [|z l IH]; [done|]. cbn in *. apply not_elem_of_cons in Hm as [Hne Hm].
      rewrite bool_decide_eq_true_2 by congruence. by rewrite IH. }
    rewrite Hl. split; [done|]. split; [by constructor|]. symmetry. apply negb_true_iff, Nat.eqb_neq. lia.
  - rewrite bool_decide_eq_true_2 by done. destruct (remove_point p t) as [b0 r]. injection E as <- <-.
    destruct (IH _ _ Hn eq_refl) as (H1 & H2 & H3). split; [by constructor|]. split; [by constructor|]. by rewrite H3.
Qed.

(** Visiting every cell once. *)
Lemma foldl_on_cell c (xs : list (path * nat)) s :
  NoDup (map snd xs) ->
  let s' := foldl (fun s x => snd (on_cell (snd x) c s)) s xs in
  table s' = table s /\
  forall i, cells s' !! i = if bool_decide (i ∈ map snd xs) then (fun f => snd (perform c f)) <$> cells s !! i else cells s !! i.
Proof.
  revert s. induction xs as [|x xs IH]; intros s Hn; cbn; [done|]. apply NoDup_cons in Hn as [Hx Hn].
  destruct (IH (snd (on_cell (snd x) c s)) Hn) as [H1 H2].
  assert (Hc : table (snd (on_cell (snd x) c s)) = table s /\ forall i, cells (snd (on_cell (snd x) c s)) !! i =
    if bool_decide (i = snd x) then (fun f => snd (perform c f)) <$> cells s !! i else cells s !! i).
  { unfold on_cell. destruct (cells s !! snd x) as [f|] eqn:E.
    - destruct (perform c f) as [r f'] eqn:Ef. split; [done|]. intros i. cbn. case_bool_decide as Ei.
      + subst i. rewrite E, list_lookup_insert_eq by by eapply lookup_lt_Some. cbn. by rewrite Ef.
      + by rewrite list_lookup_insert_ne by done.
    - split; [done|]. intros i. cbn. case_bool_decide as Ei; [|done]. subst i. by rewrite E. }
  destruct Hc as [H3 H4]. split; [by rewrite H1|]. intros i. rewrite H2, H4.
  destruct (decide (i = snd x)) as [->|Hne].
  - rewrite (bool_decide_eq_false_2 (snd x ∈ map snd xs)) by done.
    rewrite !bool_decide_eq_true_2; [done|by left|done].
  - rewrite (bool_decide_eq_false_2 (i = snd x)) by done.
    rewrite (bool_decide_ext (i ∈ snd x :: map snd xs) (i ∈ map snd xs)); [done|]. rewrite elem_of_cons. naive_solver.
Qed.

Lemma everywhere_shared c s v : shares s v -> shares (shared_everywhere c s) (everywhere c v).
Proof.
  intros [Hr Hm Hn]. unfold shared_everywhere. destruct (foldl_on_cell c (all_cells s) s Hn) as [Ht Hc].
  set (s' := foldl _ s (all_cells s)) in *. split; cbn [root mounts everywhere].
  - rewrite Hc, bool_decide_eq_true_2, Hr by (by left). done.
  - rewrite Ht. apply Forall2_fmap_r. apply Forall2_same_length_lookup_2; [by eapply Forall2_length|].
    intros i x m Hx Hi. destruct (Forall2_lookup_lr _ _ _ _ _ _ Hm Hx Hi) as [Hk Hf]. split; [done|].
    rewrite Hc, bool_decide_eq_true_2, Hf; [done|]. right. apply list_elem_of_fmap. exists x. split; [done|by eapply list_elem_of_lookup_2].
  - by rewrite Ht.
Qed.

Lemma df_shared s v : shares s v -> shared_df s = vfs_df v.
Proof.
  intros [Hr Hm _]. unfold shared_df, all_cells, vfs_df. cbn. rewrite Hr. cbn. f_equal.
  induction Hm as [|x m t l [Hk Hf] _ IH]; [done|]. cbn. rewrite Hf. cbn. by rewrite Hk, IH.
Qed.

Lemma mount_shared p f s v : vfs_ok v -> shares s v -> shares (shared_mount p f s) (mount p f v).
Proof.
  intros Hv [Hr Hm Hn]. destruct (remove_point p (table s)) as [b t'] eqn:E.
  destruct (remove_point_vfs (entry_of s) p _ _ b t' (entry_of_key s) Hm (vo_unique _ Hv) E) as (H1 & H2 & _).
  pose proof (lookup_lt_Some _ _ _ Hr) as Hlen.
  assert (Hids : forall x, x ∈ table s -> (snd x < length (cells s))%nat).
  { intros x [k Hk]%list_elem_of_lookup. destruct (Forall2_lookup_l _ _ _ _ _ Hm Hk) as (m & _ & _ & Hc%lookup_lt_Some). done. }
  unfold shared_mount. rewrite E. split; cbn [cells table root mounts mount].
  - by rewrite lookup_app_l by done.
  - set (s' := mkShared _ _). apply (sort_shared (entry_of s')); [apply entry_of_key|]. apply Forall2_app.
    + eapply Forall2_impl; [exact H1|]. intros x m [Hk Hf]. split; [done|]. cbn. by apply lookup_app_l_Some.
    + constructor; [|constructor]. split; [done|]. cbn. by rewrite lookup_app_r, Nat.sub_diag by done.
  - rewrite sort_perm, map_app. cbn [map snd]. rewrite app_comm_cons. apply NoDup_app. apply NoDup_cons in Hn as [H0 Hn].
    assert (Hsub : map snd t' `sublist_of` map snd (table s)) by by apply fmap_sublist.
    split; [|split; [|apply NoDup_singleton]].
    + apply NoDup_cons. split; [|by eapply sublist_NoDup]. intros Hx. apply H0. by eapply elem_of_sublist.
    + intros i Hi ->%list_elem_of_singleton. apply elem_of_cons in Hi as [Hi|Hi]; [lia|].
      apply (elem_of_sublist _ _ _ Hi), list_elem_of_fmap in Hsub as (x & Ex & Hx). apply Hids in Hx. lia.
Qed.

Lemma shared_perform_vfs c s v r v' :
  vfs_ok v -> shares s v -> vfs_perform c v = (r, v') ->
  exists s', shared_perform dyn_from_dyn c s = (r, s') /\ shares s' v'.
Proof.
  intros Hv Hs. destruct c as [m p|m|old new|u|u| |p f|p|]; cbn [vfs_perform shared_perform].
  - unfold with_fs. pose proof (shared_route_vfs s v p Hs) as Hr. destruct (route v p) as [[i|] sub].
    + destruct Hr as (x & Hx & ->). intros E. eapply on_cell_vfs in E; eauto.
    + rewrite Hr. intros E. eapply on_cell_vfs in E; eauto.
  - intros E. unfold with_root. eapply on_cell_vfs in E; eauto.
  - unfold vfs_rename, shared_rename, same_mount.
    pose proof (shared_route_vfs s v old Hs) as Ho. pose proof (shared_route_vfs s v new Hs) as Hn.
    destruct (route v old) as [a oldp], (route v new) as [b newp]. pose proof (sv_ids _ _ Hs) as [H0 Hids]%NoDup_cons.
    assert (Hz : forall k x, table s !! k = Some x -> snd x <> O).
    { intros k x Hk E0. apply H0. rewrite <- E0. apply list_elem_of_fmap. exists x. split; [done|by eapply list_elem_of_lookup_2]. }
    destruct a as [i|], b as [j|].
    + destruct Ho as (x & Hx & ->), Hn as (y & Hy & ->). case_bool_decide as E.
      * injection E as <-. assert (y = x) as -> by congruence. rewrite Nat.eqb_refl.
        intros E. eapply on_cell_vfs in E; eauto.
      * intros [= <- <-]. destruct (Nat.eqb_spec (snd x) (snd y)) as [En|]; [|by eauto]. destruct E. f_equal.
        eapply NoDup_lookup; [exact Hids|by rewrite list_lookup_fmap, Hx|by rewrite list_lookup_fmap, Hy, En].
    + destruct Ho as (x & Hx & ->). rewrite Hn, bool_decide_eq_false_2 by done. intros [= <- <-].
      destruct (Nat.eqb_spec (snd x) 0) as [En|]; [by destruct (Hz _ _ Hx)|eauto].
    + destruct Hn as (x & Hx & ->). rewrite Ho, bool_decide_eq_false_2 by done. intros [= <- <-].
      destruct (Nat.eqb_spec 0 (snd x)) as [En|]; [by destruct (Hz _ _ Hx)|eauto].
    + rewrite Ho, Hn, bool_decide_eq_true_2 by done. cbn [Nat.eqb]. intros E. eapply on_cell_vfs in E; eauto.
  - intros [= <- <-]. eexists. split; [done|]. by apply everywhere_shared.
  - intros [= <- <-]. eexists. split; [done|]. by apply everywhere_shared.
  - intros [= <- <-]. rewrite (df_shared s v Hs). eauto.
  - intros [= <- <-]. eexists. split; [done|]. by apply mount_shared.
  - destruct (umount p v) as [b v1] eqn:Eu. intros [= <- <-]. injection Eu as <- <-. unfold shared_umount.
    destruct (remove_point p (table s)) as [b' t'] eqn:E. destruct Hs as [Hr Hm Hn].
    destruct (remove_point_vfs (entry_of s) p _ _ b' t' (entry_of_key s) Hm (vo_unique _ Hv) E) as (H1 & H2 & ->).
    eexists. split; [done|]. split; cbn [cells table root mounts]; [done| |].
    + eapply Forall2_impl; [exact H1|]. by intros x m [].
    + apply NoDup_cons in Hn as [H0 Hn]. assert (Hsub : map snd t' `sublist_of` map snd (table s)) by by apply fmap_sublist.
      apply NoDup_cons. split; [|by eapply sublist_NoDup]. intros Hx. apply H0. by eapply elem_of_sublist.
  - intros [= <- <-]. exists s. split; [|done]. do 2 f_equal. unfold mount_points. destruct Hs as [_ Hm _].
    induction Hm as [|x m t l [Hk _] _ IH]; [done|]. cbn. by rewrite Hk, IH.
Qed.

Lemma vfs_ok_new f : vfs_ok (new f).
Proof. split; [apply longest_first_nil|constructor]. Qed.

Lemma shares_new f : shares (shared_new f) (new f).
Proof. split; [done|constructor|apply NoDup_singleton]. Qed.

Lemma shared_all cs s v :
  vfs_ok v -> shares s v ->
  fst (perform_all (shared_perform dyn_from_dyn) cs s) = fst (perform_all vfs_perform cs v) /\
  shares (snd (perform_all (shared_perform dyn_from_dyn) cs s)) (snd (perform_all vfs_perform cs v)).
Proof.
  revert s v. induction cs as [|c cs IH]; intros s v Hv Hs; [done|]. cbn.
  destruct (vfs_perform c v) as [r v1] eqn:E1. destruct (shared_perform_vfs _ _ _ _ _ Hv Hs E1) as (s1 & -> & Hs1).
  destruct (perform_refines _ _ _ _ Hv E1) as (Hv1 & _). specialize (IH s1 v1 Hv1 Hs1).
  destruct (perform_all vfs_perform cs v1) as [rs2 v2], (perform_all _ cs s1) as [rs3 s3]. cbn in *. destruct IH as [-> ?]. done.
Qed.

(** ** A mounted filesystem is a filesystem of its own *)

Lemma path_under_nested p mp q :
  path_under p q = true -> path_under mp q = true -> (length p < length mp)%nat -> path_under p mp = true.
Proof.
  intros Hp Hm Hl. destruct (path_under_prefix _ _ Hm) as [Em Hlq]. destruct (path_under_prefix _ _ Hp) as [Ep _].
  unfold path_under in *. apply orb_true_iff in Hp as [->%bool_decide_eq_true|[_ Hs%bool_decide_eq_true]%andb_true_iff]; [lia|].
  apply orb_true_iff. right. apply andb_true_iff. unfold starts_with. rewrite !bool_decide_eq_true. split.
  - rewrite Em, take_take, Nat.min_l by lia. done.
  - rewrite Em. rewrite <- Hs. by apply lookup_take_lt.
Qed.

(** [p] is not a mountpoint, and nothing is mounted below it. *)
Definition clear_below (n : namespace F) (p : path) : Prop :=
  forall mp, is_Some (ns_table n !! mp) -> path_under p mp = false.

Lemma owner_of_mount n p f q :
  clear_below n p -> path_under p q = true -> ns_owner (mkNs (ns_root n) (<[p := f]> (ns_table n))) q = Some p.
Proof.
  intros Hc Hq. pose proof (owner_spec (mkNs (ns_root n) (<[p := f]> (ns_table n))) q) as Hl. cbn [ns_table] in Hl.
  assert (Hp : is_Some (<[p := f]> (ns_table n) !! p)) by (rewrite lookup_insert_eq; eauto).
  destruct (ns_owner _ _) as [mp|]; [|by destruct Hl as [_ Hl]; destruct (Hl p Hp Hq)]. destruct Hl as (Hm & Hu & _ & Hmax).
  specialize (Hmax p Hp Hq). f_equal. destruct (decide (mp = p)) as [|Hne]; [done|].
  rewrite lookup_insert_ne in Hm by done. destruct (decide (length p = length mp)) as [E|E].
  - by eapply path_under_same.
  - pose proof (path_under_nested p mp q Hq Hu ltac:(lia)) as Hx. rewrite (Hc mp Hm) in Hx. done.
Qed.

(** Method calls on paths below [p], as the mounted filesystem sees them. *)
Definition below (p : path) (cs : list (path_method * path)) : list (call F) := map (fun c => At (fst c) (snd c)) cs.
Definition stripped (p : path) (cs : list (path_method * path)) : list (call F) :=
  map (fun c => At (fst c) (strip p (snd c))) cs.

Lemma calls_below n p f cs :
  clear_below n p -> Forall (fun c => path_under p (snd c) = true) cs ->
  perform_all ns_perform (below p cs) (mkNs (ns_root n) (<[p := f]> (ns_table n))) =
  let '(rs, f') := perform_all perform (stripped p cs) f in (rs, mkNs (ns_root n) (<[p := f']> (ns_table n))).
Proof.
  intros Hc Hcs. revert f. induction Hcs as [|[m q] cs Hq _ IH]; intros f; [done|]. cbn [snd] in Hq.
  cbn [below stripped map perform_all fst snd]. cbn [ns_perform].
  pose proof (owner_spec (mkNs (ns_root n) (<[p := f]> (ns_table n))) q) as Ho.
  rewrite owner_of_mount in Ho |- * by done. destruct Ho as (_ & _ & -> & _). unfold ns_at. cbn [ns_table]. rewrite lookup_insert_eq.
  destruct (perform (At m (strip p q)) f) as [r f1]. cbn [ns_root]. rewrite insert_insert_eq. unfold below, stripped in IH.
  rewrite IH. by destruct (perform_all perform _ f1).
Qed.

Lemma replies_below p cs rs rs' : Forall3 reply_equiv (below p cs) rs rs' -> rs = rs'.
Proof.
  revert rs rs'. induction cs as [|c cs IH]; intros rs rs'; inversion 1; subst; [done|]. cbn in *. subst. f_equal. by apply IH.
Qed.

Lemma mount_alone v p g cs :
  vfs_ok v -> clear_below (abs v) p -> ns_table (abs v) !! p = None -> Forall (fun c => path_under p (snd c) = true) cs ->
  let '(rs, v') := perform_all vfs_perform (below p cs) (mount p g v) in
  rs = fst (perform_all perform (stripped p cs) g) /\ abs (snd (umount p v')) = abs v.
Proof.
  intros Hv Hc Hn Hcs. destruct (mount_refines p g v Hv) as [Hv1 Ea].
  destruct (perform_all vfs_perform (below p cs) (mount p g v)) as [rs v'] eqn:E.
  destruct (perform_all_refines _ _ _ _ Hv1 E) as (Hv' & rs' & E' & Heq). rewrite Ea in E'.
  change (root v) with (ns_root (abs v)) in E'. rewrite calls_below in E' by done.
  destruct (perform_all perform (stripped p cs) g) as [rs0 g'] eqn:Eg. injection E' as <- Er Et. split.
  - by apply replies_below in Heq.
  - destruct (umount p v') as [b v2] eqn:Eu. destruct (umount_refines p v' b v2 Hv' Eu) as (_ & _ & Ed). cbn [snd].
    rewrite Ed. unfold abs in Et, Er, Hn |- *. cbn [ns_table ns_root] in *. rewrite <- Et, <- Er. by rewrite delete_insert_id.
Qed.

(** ** Theorems *)

(** C38 The VFS implements an unordered table of mountpoints: for any sequence of
    calls (all path methods, whole-filesystem methods, renames, mounts and
    unmounts), every reply and the state reached are those of the specification
    in which a path belongs to the longest mountpoint that is a whole-component
    prefix of it, its method runs on that filesystem with the prefix removed, and
    a rename across filesystems is refused and changes nothing.  The concurrent
    VFS (mount table of reference-counted, individually locked filesystems)
    implements the owned one: it gives the same replies in the same order and
    holds the same filesystems. *)
Theorem vfs_refines f cs :
  (exists rs', perform_all ns_perform cs (mkNs f ∅) = (rs', abs (snd (perform_all vfs_perform cs (new f)))) /\
    Forall3 reply_equiv cs (fst (perform_all vfs_perform cs (new f))) rs') /\
  fst (perform_all (shared_perform dyn_from_dyn) cs (shared_new f)) = fst (perform_all vfs_perform cs (new f)) /\
  shares (snd (perform_all (shared_perform dyn_from_dyn) cs (shared_new f))) (snd (perform_all vfs_perform cs (new f))).
Proof.
  split; [|apply shared_all; [apply vfs_ok_new|apply shares_new]].
  destruct (perform_all vfs_perform cs (new f)) as [rs v] eqn:E.
  destruct (perform_all_refines cs (new f) rs v (vfs_ok_new f) E) as (_ & rs' & H1 & H2). eauto.
Qed.

(** A mounted filesystem is isolated: after any history, mounting a filesystem
    at [p] where nothing is mounted at or below it, calling any methods on paths
    below [p] and unmounting it gives the replies of that filesystem alone on the
    stripped paths, and leaves every other filesystem as it was. *)
Lemma mount_isolated f hist p g cs :
  let v := snd (perform_all vfs_perform hist (new f)) in
  clear_below (abs v) p -> Forall (fun c => path_under p (snd c) = true) cs ->
  let '(rs, v') := perform_all vfs_perform (below p cs) (mount p g v) in
  rs = fst (perform_all perform (stripped p cs) g) /\ abs (snd (umount p v')) = abs v.
Proof.
  intros v Hc Hcs. apply mount_alone; try done.
  - destruct (perform_all vfs_perform hist (new f)) as [rs0 v0] eqn:E.
    apply (proj1 (perform_all_refines hist (new f) rs0 v0 (vfs_ok_new f) E)).
  - apply eq_None_not_Some. intros Hs%Hc. unfold path_under in Hs. by rewrite bool_decide_eq_true_2 in Hs.
Qed.
End refinement.

(** ** Witnesses *)

(** A minimal filesystem: whole files by path. *)
Definition demo_perform (c : call (gmap path (list Z))) (f : gmap path (list Z)) : reply * gmap path (list Z) :=
  match c with
  | At ReadFile p => (RBytes match f !! p with Some d => Ok d | None => Err NotFound end, f)
  | At (WriteFile d) p => (RUnit (Ok tt), <[p := d]> f)
  | _ => (RNone, f)
  end.

#[local] Instance demo_filesystem : FileSystem (gmap path (list Z)) := {
  perform := demo_perform;
  space_info _ := (0, 0);
}.

(** [/m] and [/m/a]. *)
Definition demo_calls : list (path_method * path) := [(WriteFile [1; 2], [47; 109; 47; 97]); (ReadFile, [47; 109; 47; 97])].

Lemma mount_isolated_witness :
  let v := snd (perform_all vfs_perform [At (WriteFile [9]) [47; 109]] (new (∅ : gmap path (list Z)))) in
  clear_below (abs v) [47; 109] /\
  perform_all vfs_perform (below [47; 109] demo_calls) (mount [47; 109] ∅ v) =
    ([RUnit (Ok tt); RBytes (Ok [1; 2])], mkVfs {[ [47; 109] := [9] ]} [mkMount [47; 109] {[ [47; 97] := [1; 2] ]}]) /\
  abs (snd (umount [47; 109] (mkVfs {[ [47; 109] := [9] ]} [mkMount [47; 109] ({[ [47; 97] := [1; 2] ]} : gmap path (list Z))]))) = abs v.
Proof.
  set (v := snd (perform_all vfs_perform [At (WriteFile [9]) [47; 109]] (new (∅ : gmap path (list Z))))).
  assert (Hc : clear_below (abs v) [47; 109]) by (intros mp Hs; cbn in Hs; rewrite lookup_empty in Hs; by destruct Hs).
  split; [exact Hc|]. split; [reflexivity|].
  assert (Hd : Forall (fun c : path_method * path => path_under [47; 109] (snd c) = true) demo_calls) by by repeat constructor.
  exact (proj2 (mount_isolated ∅ [At (WriteFile [9]) [47; 109]] [47; 109] ∅ demo_calls Hc Hd)).
Defined.
End Vfs.
