(* ===== verification/RamDisk.v ===== *)
(** The in-memory filesystem ([src/crates/eurofs/src/ramdisk.rs]), an
    implementation of the [FileSystem] trait.  Paths are normalised and looked up
    in one map from full path to node; a directory node holds the names of its
    children. *)

From stdpp Require Import gmap.
From S2P Require Import Prelude Fs Path Vfs.

Module RamDisk.
Import Fs Path Vfs.

Inductive Node :=
| NFile (data : list Z)
| NDirectory (children : list (list Z)).

Record RamDisk := mkRam {
  nodes : gmap (list Z) Node;
  max_size : Z;
  used_size : Z;
}.

Definition new (max : Z) : RamDisk := mkRam {[ [47] := NDirectory [] ]} max 0.

(** Names in a [BTreeMap], in byte order. *)
Fixpoint name_cmp (a b : list Z) : comparison :=
  match a, b with
  | [], [] => Eq
  | [], _ => Lt
  | _, [] => Gt
  | x :: a', y :: b' => match x ?= y with Eq => name_cmp a' b' | c => c end
  end.

Fixpoint insert_name (x : list Z) (l : list (list Z)) : list (list Z) :=
  match l with
  | [] => [x]
  | y :: l' => match name_cmp x y with Lt => x :: l | Eq => l | Gt => y :: insert_name x l' end
  end.

Definition remove_name (x : list Z) (l : list (list Z)) : list (list Z) :=
  List.filter (fun y => bool_decide (y <> x)) l.

Definition set_nodes (d : RamDisk) (n : gmap (list Z) Node) : RamDisk := mkRam n (max_size d) (used_size d).
Definition set_used (d : RamDisk) (u : Z) : RamDisk := mkRam (nodes d) (max_size d) u.

Definition add_child (p name : list Z) (d : RamDisk) : RamDisk :=
  match nodes d !! p with
  | Some (NDirectory ch) => set_nodes d (<[p := NDirectory (insert_name name ch)]> (nodes d))
  | _ => d
  end.

Definition remove_child (p name : list Z) (d : RamDisk) : RamDisk :=
  match nodes d !! p with
  | Some (NDirectory ch) => set_nodes d (<[p := NDirectory (remove_name name ch)]> (nodes d))
  | _ => d
  end.

Definition read_file (p : list Z) (d : RamDisk) : outcome FsError (list Z) :=
  match nodes d !! normalize p with
  | Some (NFile x) => Ok x
  | Some (NDirectory _) => Err NotAFile
  | None => Err NotFound
  end.

(** The space check: the new value of [used_size]. *)
Definition reserve (norm data : list Z) (d : RamDisk) : outcome FsError RamDisk :=
  if max_size d <=? 0 then Ok d
  else
    let? old := match nodes d !! norm with
                | Some (NFile x) => Ok (zlen x)
                | Some (NDirectory _) => Err NotAFile
                | None => Ok 0
                end in
    let n := zlen data in
    let? s := add64 (used_size d) n in
    let projected := s - Z.min old (used_size d) in
    if (old <? n) && (max_size d <? projected) then Err NoSpace
    else if used_size d <? old then Panic
    else let? u := add64 (used_size d - old) n in Ok (set_used d u).

Definition parent_is_dir (p : list Z) (d : RamDisk) : outcome FsError unit :=
  match nodes d !! p with
  | Some (NDirectory _) => Ok tt
  | Some _ => Err NotADirectory
  | None => Err NotFound
  end.

Definition write_file (p data : list Z) (d : RamDisk) : outcome FsError unit * RamDisk :=
  let norm := normalize p in
  if bool_decide (norm = [47]) then (Err InvalidPath, d)
  else match reserve norm data d with
  | Ok d =>
      match parent_is_dir (parent norm) d with
      | Ok _ =>
          let is_new := negb (bool_decide (is_Some (nodes d !! norm))) in
          let d := set_nodes d (<[norm := NFile data]> (nodes d)) in
          (Ok tt, if is_new then add_child (parent norm) (filename norm) d else d)
      | Err e => (Err e, d)
      | Panic => (Panic, d)
      | OutOfFuel => (OutOfFuel, d)
      end
  | Err e => (Err e, d)
  | Panic => (Panic, d)
  | OutOfFuel => (OutOfFuel, d)
  end.

Definition remove_file (p : list Z) (d : RamDisk) : outcome FsError unit * RamDisk :=
  let norm := normalize p in
  match nodes d !! norm with
  | Some (NFile x) =>
      let d := set_used d (saturating_sub (used_size d) (zlen x)) in
      (Ok tt, remove_child (parent norm) (filename norm) (set_nodes d (delete norm (nodes d))))
  | Some (NDirectory _) => (Err NotAFile, d)
  | None => (Err NotFound, d)
  end.

Definition create_dir (p : list Z) (d : RamDisk) : outcome FsError unit * RamDisk :=
  let norm := normalize p in
  if bool_decide (norm = [47]) then (Ok tt, d)
  else if bool_decide (is_Some (nodes d !! norm)) then (Err AlreadyExists, d)
  else match parent_is_dir (parent norm) d with
  | Ok _ => (Ok tt, add_child (parent norm) (filename norm) (set_nodes d (<[norm := NDirectory []]> (nodes d))))
  | Err e => (Err e, d)
  | Panic => (Panic, d)
  | OutOfFuel => (OutOfFuel, d)
  end.

Definition node_entry (name : list Z) (n : Node) : DirEntry :=
  match n with
  | NFile x => mkEntry name File (zlen x) 420 0
  | NDirectory _ => mkEntry name Directory 0 493 0
  end.

Definition list_dir (p : list Z) (d : RamDisk) : outcome FsError (list DirEntry) :=
  let norm := normalize p in
  match nodes d !! norm with
  | Some (NDirectory ch) => Ok (omap (fun name => node_entry name <$> nodes d !! join norm name) ch)
  | Some _ => Err NotADirectory
  | None => Err NotFound
  end.

Definition exists_ (p : list Z) (d : RamDisk) : bool := bool_decide (is_Some (nodes d !! normalize p)).

Definition metadata (p : list Z) (d : RamDisk) : outcome FsError DirEntry :=
  let norm := normalize p in
  match nodes d !! norm with
  | Some n => Ok (node_entry (filename norm) n)
  | None => Err NotFound
  end.

Definition ram_space (d : RamDisk) : Z * Z :=
  if max_size d =? 0 then (U64_MAX, U64_MAX) else (max_size d, saturating_sub (max_size d) (used_size d)).

Definition ram_required : Required RamDisk :=
  mkRequired read_file write_file remove_file create_dir list_dir exists_ metadata ram_space.

#[global] Instance ram_filesystem : FileSystem RamDisk := {
  perform := default_perform ram_required;
  space_info := ram_space;
}.

(** [ensure_dir_exists]: the parent is shorter than the path, so the length bounds
    the recursion. *)
Fixpoint ensure_dir_exists (fuel : nat) (p : list Z) (d : RamDisk) : RamDisk :=
  if bool_decide (p = [47]) || exists_ p d then d
  else match fuel with
       | O => d
       | S k => snd (create_dir p (ensure_dir_exists k (parent p) d))
       end.

Definition populate (files : list (list Z * list Z)) (d : RamDisk) : RamDisk :=
  foldl (fun d f =>
    let norm := normalize (fst f) in
    snd (write_file norm (snd f) (ensure_dir_exists (length norm) (parent norm) d))) d files.

(** ** Stored bytes *)

Definition node_size (n : Node) : Z := match n with NFile x => zlen x | NDirectory _ => 0 end.

Definition total (m : gmap (list Z) Node) : Z := map_fold (fun _ n acc => node_size n + acc) 0 m.

Lemma total_insert_new m k n : m !! k = None -> total (<[k := n]> m) = node_size n + total m.
Proof. intros Hk. unfold total. rewrite map_fold_insert_L; [done| |done]. intros. lia. Qed.

Lemma total_delete m k n : m !! k = Some n -> total m = node_size n + total (delete k m).
Proof. intros Hk. unfold total. rewrite (map_fold_delete_L _ _ k n m); [done| |done]. intros. lia. Qed.

Lemma total_insert m k n o : m !! k = Some o -> total (<[k := n]> m) = total m - node_size o + node_size n.
Proof.
  intros Hk. rewrite <- insert_delete_eq, total_insert_new by apply lookup_delete_eq.
  rewrite (total_delete m k o Hk). lia.
Qed.

Lemma node_size_nonneg n : 0 <= node_size n.
Proof. destruct n; cbn; [apply zlen_nonneg|done]. Qed.

Lemma total_nonneg m : 0 <= total m.
Proof.
  unfold total. apply (map_fold_weak_ind (fun r _ => 0 <= r)); [done|]. intros k n m' r _ H.
  pose proof (node_size_nonneg n). lia.
Qed.

Lemma total_lookup m k n : m !! k = Some n -> node_size n <= total m.
Proof. intros Hk. rewrite (total_delete m k n Hk). pose proof (total_nonneg (delete k m)). lia. Qed.

(** ** The tree *)

Lemma elem_of_insert_name x l y : y ∈ insert_name x l <-> y = x \/ y ∈ l.
Proof.
  assert (Hc : forall a b, name_cmp a b = Eq -> a = b).
  { induction a as [|i a IH]; intros [|j b]; cbn; try done. destruct (Z.compare_spec i j) as [->| |]; try done.
    intros E. by rewrite (IH b E). }
  induction l as [|z l IH]; cbn; [by rewrite list_elem_of_singleton, elem_of_nil; naive_solver|].
  destruct (name_cmp x z) eqn:E.
  - apply Hc in E as ->. rewrite !elem_of_cons. naive_solver.
  - by rewrite !elem_of_cons.
  - rewrite !elem_of_cons, IH. naive_solver.
Qed.

Lemma elem_of_remove_name x l y : y ∈ remove_name x l <-> y ∈ l /\ y <> x.
Proof. unfold remove_name. by rewrite !list_elem_of_In, filter_In, bool_decide_eq_true. Qed.

(** Every node lies below its parents, and every child name has its node. *)
Record tree_ok (m : gmap (list Z) Node) : Prop := mkTree {
  tr_root : exists ch, m !! of_comps [] = Some (NDirectory ch);
  tr_keys k n : m !! k = Some n -> exists cs, comps_ok cs /\ k = of_comps cs;
  tr_parent cs c n : comps_ok (cs ++ [c]) -> m !! of_comps (cs ++ [c]) = Some n ->
    exists ch, m !! of_comps cs = Some (NDirectory ch) /\ c ∈ ch;
  tr_child cs ch c : comps_ok cs -> m !! of_comps cs = Some (NDirectory ch) -> c ∈ ch ->
    comps_ok (cs ++ [c]) /\ is_Some (m !! of_comps (cs ++ [c]));
}.

Lemma comps_ne cs c : comps_ok (cs ++ [c]) -> of_comps (cs ++ [c]) <> of_comps cs.
Proof.
  intros H E. apply of_comps_inj in E; [|done|apply (comps_snoc _ _ H)].
  apply (f_equal length) in E. rewrite length_app in E. cbn in E. lia.
Qed.

Lemma snoc_key_inj cs c cs' c' :
  comps_ok (cs ++ [c]) -> comps_ok (cs' ++ [c']) -> of_comps (cs ++ [c]) = of_comps (cs' ++ [c']) -> cs = cs' /\ c = c'.
Proof. intros H H' E. apply of_comps_inj in E; [|done..]. by apply app_inj_tail in E. Qed.

(** Adding a leaf below a directory. *)
Lemma tree_add m cs c ch n :
  tree_ok m -> comps_ok (cs ++ [c]) -> m !! of_comps cs = Some (NDirectory ch) -> m !! of_comps (cs ++ [c]) = None ->
  (forall ch', n = NDirectory ch' -> ch' = []) ->
  tree_ok (<[of_comps cs := NDirectory (insert_name c ch)]> (<[of_comps (cs ++ [c]) := n]> m)).
Proof.
  intros [T1 T2 T3 T4] Hc Hd Hn Hl. pose proof (comps_ne _ _ Hc) as Hne. pose proof (comps_snoc _ _ Hc) as (Hcs & _ & _).
  assert (Hup : forall cs' ch', comps_ok cs' -> m !! of_comps cs' = Some (NDirectory ch') ->
    exists ch'', (<[of_comps cs := NDirectory (insert_name c ch)]> (<[of_comps (cs ++ [c]) := n]> m)) !! of_comps cs' =
      Some (NDirectory ch'') /\ forall x, x ∈ ch' -> x ∈ ch'').
  { intros cs' ch' Hcs' Hm. destruct (decide (of_comps cs' = of_comps cs)) as [E|Hx].
    - rewrite E, lookup_insert_eq. assert (ch' = ch) as -> by congruence.
      eexists. split; [done|]. intros x Hx. apply elem_of_insert_name. by right.
    - exists ch'. rewrite !lookup_insert_ne by congruence. done. }
  split.
  - destruct T1 as [ch0 H0]. destruct (Hup [] ch0) as (ch'' & H1 & _); [constructor|done|]. eauto.
  - intros k x [[<- _]|[_ [[<- _]|[_ Hk]]%lookup_insert_Some]]%lookup_insert_Some; eauto.
  - intros cs' c' x Hc' Hk. destruct (decide (of_comps (cs' ++ [c']) = of_comps (cs ++ [c]))) as [E|Hx].
    + apply snoc_key_inj in E as [-> ->]; [|done..]. rewrite lookup_insert_eq. eexists. split; [done|].
      apply elem_of_insert_name. by left.
    + assert (Hin : is_Some (m !! of_comps (cs' ++ [c']))).
      { apply lookup_insert_Some in Hk as [[<- _]|[_ [[E _]|[_ Hk]]%lookup_insert_Some]]; [by eauto|congruence|by eauto]. }
      destruct Hin as [y Hy]. destruct (T3 _ _ _ Hc' Hy) as (ch' & Hp & Hin).
      destruct (Hup cs' ch') as (ch'' & H1 & H2); [apply (comps_snoc _ _ Hc')|done|]. eauto.
  - intros cs' ch' x Hcs' Hk Hx.
    assert (Hold : comps_ok (cs' ++ [x]) /\ is_Some (m !! of_comps (cs' ++ [x])) \/ cs' = cs /\ x = c).
    { apply lookup_insert_Some in Hk as [[E [= <-]]|[Hk1 [[E Ek]|[_ Hk]]%lookup_insert_Some]].
      - apply of_comps_inj in E as <-; [|done..]. apply elem_of_insert_name in Hx as [->|Hx]; [by right|left; eauto].
      - subst n. rewrite (Hl ch' eq_refl) in Hx. by apply elem_of_nil in Hx.
      - left. eauto. }
    destruct Hold as [[Hok [y Hy]]|[-> ->]].
    + split; [done|]. destruct (decide (of_comps (cs' ++ [x]) = of_comps cs)) as [->|]; [rewrite lookup_insert_eq; eauto|].
      rewrite lookup_insert_ne by done. destruct (decide (of_comps (cs' ++ [x]) = of_comps (cs ++ [c]))) as [->|].
      * rewrite lookup_insert_eq; eauto. * rewrite lookup_insert_ne by done. eauto.
    + split; [done|]. rewrite lookup_insert_ne, lookup_insert_eq by done. eauto.
Qed.

(** Overwriting a file. *)
Lemma tree_overwrite m k x y : tree_ok m -> m !! k = Some (NFile x) -> tree_ok (<[k := NFile y]> m).
Proof.
  intros [T1 T2 T3 T4] Hk.
  assert (Hd : forall q ch, m !! q = Some (NDirectory ch) -> <[k := NFile y]> m !! q = Some (NDirectory ch)).
  { intros q ch Hq. rewrite lookup_insert_ne; [done|congruence]. }
  assert (Hs : forall q, is_Some (<[k := NFile y]> m !! q) <-> is_Some (m !! q)).
  { intros q. rewrite lookup_insert_is_Some. destruct (decide (k = q)) as [<-|]; naive_solver. }
  split.
  - destruct T1 as [ch H]. eauto.
  - intros q n Hq. assert (Hq' : is_Some (m !! q)) by (apply Hs; eauto). destruct Hq' as [z Hz]. eauto.
  - intros cs c n Hc Hq. assert (Hq' : is_Some (m !! of_comps (cs ++ [c]))) by (apply Hs; eauto). destruct Hq' as [z Hz].
    destruct (T3 _ _ _ Hc Hz) as (ch & Hp & Hin). eauto.
  - intros cs ch c Hcs Hq Hc. apply lookup_insert_Some in Hq as [[_ ?]|[_ Hq]]; [done|]. rewrite Hs. eauto.
Qed.

(** Removing a file. *)
Lemma tree_remove m cs c ch x :
  tree_ok m -> comps_ok (cs ++ [c]) -> m !! of_comps (cs ++ [c]) = Some (NFile x) -> m !! of_comps cs = Some (NDirectory ch) ->
  tree_ok (<[of_comps cs := NDirectory (remove_name c ch)]> (delete (of_comps (cs ++ [c])) m)).
Proof.
  intros [T1 T2 T3 T4] Hc Hf Hd. pose proof (comps_ne _ _ Hc) as Hne. pose proof (comps_snoc _ _ Hc) as (Hcs & _ & _).
  set (m' := <[of_comps cs := _]> _).
  assert (Hkeep : forall q n, m !! q = Some n -> q <> of_comps (cs ++ [c]) -> q <> of_comps cs -> m' !! q = Some n).
  { intros q n Hq H1 H2. unfold m'. by rewrite lookup_insert_ne, lookup_delete_ne by done. }
  assert (Hback : forall q n, m' !! q = Some n -> q <> of_comps cs -> m !! q = Some n /\ q <> of_comps (cs ++ [c])).
  { intros q n Hq H2. unfold m' in Hq. rewrite lookup_insert_ne in Hq by done. by apply lookup_delete_Some in Hq as [? ?]. }
  assert (Hself : m' !! of_comps cs = Some (NDirectory (remove_name c ch))) by apply lookup_insert_eq.
  split.
  - destruct T1 as [ch0 H0]. destruct (decide (of_comps [] = of_comps cs)) as [E|Hx]; [rewrite E; eauto|].
    exists ch0. apply Hkeep; [done| |done]. intros E. congruence.
  - intros q n Hq. destruct (decide (q = of_comps cs)) as [->|Hx]; [eauto|]. destruct (Hback _ _ Hq Hx). eauto.
  - intros cs' c' n Hc' Hq.
    assert (Hold : is_Some (m !! of_comps (cs' ++ [c'])) /\ of_comps (cs' ++ [c']) <> of_comps (cs ++ [c])).
    { destruct (decide (of_comps (cs' ++ [c']) = of_comps cs)) as [E|Hx]; [rewrite E; split; [eauto|congruence]|].
      destruct (Hback _ _ Hq Hx). eauto. }
    destruct Hold as [[z Hz] Hnc]. destruct (T3 _ _ _ Hc' Hz) as (ch' & Hp & Hin).
    destruct (decide (of_comps cs' = of_comps cs)) as [E|Hx].
    + apply of_comps_inj in E as ->; [|apply (comps_snoc _ _ Hc')|done]. eexists. split; [done|].
      assert (ch' = ch) as -> by congruence. apply elem_of_remove_name. split; [done|]. intros ->. done.
    + exists ch'. split; [|done]. apply Hkeep; [done| |done]. congruence.
  - intros cs' ch' c' Hcs' Hq Hin. destruct (decide (of_comps cs' = of_comps cs)) as [E|Hx].
    + apply of_comps_inj in E as ->; [|done..]. rewrite Hself in Hq. injection Hq as <-.
      apply elem_of_remove_name in Hin as [Hin Hne']. destruct (T4 _ _ _ Hcs Hd Hin) as [Hok [z Hz]]. split; [done|].
      exists z. apply Hkeep; [done| |by apply comps_ne]. intros [_ ?]%snoc_key_inj; done.
    + destruct (Hback _ _ Hq Hx) as [Hq' _]. destruct (T4 _ _ _ Hcs' Hq' Hin) as [Hok [z Hz]]. split; [done|].
      destruct (decide (of_comps (cs' ++ [c']) = of_comps cs)) as [->|Hy]; [eauto|].
      exists z. apply Hkeep; [done| |done]. intros [-> _]%snoc_key_inj; done.
Qed.

(** ** Operations *)

(** A bounded disk: its tree is consistent and what it stores fits. *)
Record ram_ok (d : RamDisk) : Prop := mkRamOk {
  ro_tree : tree_ok (nodes d);
  ro_max : 0 < max_size d;
  ro_total : total (nodes d) <= used_size d;
  ro_used : used_size d <= max_size d;
}.

Lemma norm_cases p :
  normalize p = [47] \/
  exists cs c, comps_ok (cs ++ [c]) /\ normalize p = of_comps (cs ++ [c]) /\
    parent (normalize p) = of_comps cs /\ filename (normalize p) = c.
Proof.
  rewrite normalize_comps. pose proof (split_path_components p) as H.
  destruct (split_path p) as [|c cs] using rev_ind; [by left|right].
  exists cs, c. split; [done|]. split; [done|]. split; [by apply parent_of_comps|by apply filename_of_comps].
Qed.

Lemma ram_ok_new max : 0 < max -> ram_ok (new max).
Proof.
  intros Hm. split; cbn [new nodes max_size used_size]; try lia.
  - split.
    + exists []. by rewrite lookup_singleton_eq.
    + intros k n [<- _]%lookup_singleton_Some. exists []. split; [constructor|done].
    + intros cs c n Hc [E _]%lookup_singleton_Some. by destruct (of_comps_root _ _ Hc).
    + intros cs ch c _ [_ [= <-]]%lookup_singleton_Some Hc. by apply elem_of_nil in Hc.
  - unfold total. rewrite <- insert_empty, map_fold_insert_L, map_fold_empty by (try apply lookup_empty; intros; lia). cbn. lia.
Qed.

Lemma reserve_spec norm data d :
  ram_ok d -> max_size d + zlen data <= U64_MAX ->
  match reserve norm data d with
  | Ok d' => d' = set_used d (used_size d - (match nodes d !! norm with Some n => node_size n | None => 0 end) + zlen data) /\
      used_size d' <= max_size d /\ (forall ch, nodes d !! norm <> Some (NDirectory ch))
  | Err e => e = NotAFile \/ e = NoSpace
  | _ => False
  end.
Proof.
  intros [T M Ht Hu] Hd. unfold reserve. destruct (Z.leb_spec (max_size d) 0); [lia|]. pose proof (zlen_nonneg data).
  pose proof (total_nonneg (nodes d)).
  destruct (nodes d !! norm) as [[x|ch]|] eqn:E; cbn [obind]; [|by left|].
  - pose proof (total_lookup _ _ _ E) as Hx. pose proof (zlen_nonneg x). cbn [node_size] in Hx. unfold add64.
    destruct (Z.leb_spec (used_size d + zlen data) U64_MAX); [|lia]. cbn [obind]. rewrite Z.min_l by lia.
    destruct ((zlen x <? zlen data) && (max_size d <? used_size d + zlen data - zlen x)) eqn:Eb; [by right|].
    destruct (Z.ltb_spec (used_size d) (zlen x)); [lia|].
    destruct (Z.leb_spec (used_size d - zlen x + zlen data) U64_MAX); [|lia]. cbn [obind]. split; [done|]. split; [|done].
    cbn. apply andb_false_iff in Eb as [?%Z.ltb_ge|?%Z.ltb_ge]; lia.
  - unfold add64. destruct (Z.leb_spec (used_size d + zlen data) U64_MAX); [|lia]. cbn [obind]. rewrite Z.min_l by lia.
    destruct ((0 <? zlen data) && (max_size d <? used_size d + zlen data - 0)) eqn:Eb; [by right|].
    destruct (Z.ltb_spec (used_size d) 0); [lia|]. rewrite Z.sub_0_r.
    destruct (Z.leb_spec (used_size d + zlen data) U64_MAX); [|lia]. cbn [obind]. split; [done|]. split; [|done].
    cbn. apply andb_false_iff in Eb as [?%Z.ltb_ge|?%Z.ltb_ge]; lia.
Qed.

(** What a disk shows of a path. *)
Definition view (d : RamDisk) (p : list Z) : outcome FsError (list Z) * bool := (read_file p d, exists_ p d).

Lemma view_dirs d d' :
  (forall q, match nodes d !! q, nodes d' !! q with
             | Some (NFile x), Some (NFile y) => x = y
             | Some (NDirectory _), Some (NDirectory _) | None, None => True
             | _, _ => False end) ->
  forall p, view d' p = view d p.
Proof.
  intros H p. specialize (H (normalize p)). unfold view, read_file, exists_.
  destruct (nodes d !! normalize p) as [[]|], (nodes d' !! normalize p) as [[]|]; try done. by subst.
Qed.

(** Storing a node at a path whose parent is a directory. *)
Lemma store_leaf d cs c ch n u :
  ram_ok d -> comps_ok (cs ++ [c]) -> nodes d !! of_comps cs = Some (NDirectory ch) -> nodes d !! of_comps (cs ++ [c]) = None ->
  (forall ch', n = NDirectory ch' -> ch' = []) -> used_size d + node_size n <= u -> u <= max_size d ->
  let d' := add_child (of_comps cs) c (mkRam (<[of_comps (cs ++ [c]) := n]> (nodes d)) (max_size d) u) in
  ram_ok d' /\ nodes d' = <[of_comps cs := NDirectory (insert_name c ch)]> (<[of_comps (cs ++ [c]) := n]> (nodes d)) /\ max_size d' = max_size d.
Proof.
  intros [T M Ht Hu] Hc Hd Hn Hl H1 H2. pose proof (comps_ne _ _ Hc) as Hne. cbn zeta. unfold add_child. cbn [nodes].
  rewrite lookup_insert_ne, Hd by done. split; [|done]. split; cbn [nodes set_nodes max_size used_size]; [by apply tree_add|done| |done].
  rewrite (total_insert _ _ _ (NDirectory ch)) by (by rewrite lookup_insert_ne). rewrite total_insert_new by done. cbn [node_size]. lia.
Qed.

Lemma write_file_sound p data d :
  ram_ok d -> max_size d + zlen data <= U64_MAX ->
  exists r d', write_file p data d = (r, d') /\ returns r /\ ram_ok d' /\ max_size d' = max_size d /\
    (forall q, normalize q <> normalize p -> view d' q = view d q) /\
    if is_ok r then view d' p = (Ok data, true) else forall q, view d' q = view d q.
Proof.
  intros Hd Hz. assert (Hret : forall e, returns (Err e : outcome FsError unit)) by done. unfold write_file.
  destruct (norm_cases p) as [->|(cs & c & Hc & En & Ep & Ef)]; [rewrite bool_decide_eq_true_2 by done; by do 2 eexists|].
  rewrite bool_decide_eq_false_2 by (rewrite En; by apply of_comps_root).
  pose proof (reserve_spec (normalize p) data d Hd Hz) as Hr. destruct (reserve (normalize p) data d) as [d1|e| |]; [|by do 2 eexists|done..].
  destruct Hr as (-> & Hu & Hnd). destruct Hd as [T M Ht Hu0]. rewrite Ep, Ef, En in *.
  unfold parent_is_dir. cbn [nodes set_used]. pose proof (zlen_nonneg data). pose proof (total_nonneg (nodes d)).
  destruct (nodes d !! of_comps (cs ++ [c])) as [o|] eqn:Eo.
  - (* an existing file *)
    destruct o as [x|ch']; [|by destruct (Hnd ch')]. destruct (tr_parent _ T cs c _ Hc Eo) as (ch & -> & _).
    rewrite bool_decide_eq_true_2 by eauto. cbn [negb]. do 2 eexists. split; [done|]. split; [done|]. split; [|split; [done|split]].
    + split; cbn [nodes set_nodes set_used max_size used_size] in *; [by eapply tree_overwrite|done| |done].
      rewrite (total_insert _ _ _ _ Eo). cbn [node_size]. lia.
    + intros q Hq. unfold view, read_file, exists_. cbn [nodes set_nodes]. rewrite lookup_insert_ne by done. done.
    + cbn [is_ok]. unfold view, read_file, exists_. rewrite En. cbn [nodes set_nodes]. rewrite lookup_insert_eq. done.
  - destruct (nodes d !! of_comps cs) as [[x|ch]|] eqn:Ed.
    1, 3: do 2 eexists; split; [done|]; split; [done|]; split; [|by split_and!]; split; cbn in *; (done || lia).
    rewrite bool_decide_eq_false_2 by (by intros [? ?]). cbn [negb].
    destruct (store_leaf d cs c ch (NFile data) (used_size d - 0 + zlen data)) as (Hok & Enodes & Emax); try done.
    { cbn. lia. }
    set (d' := add_child _ _ _) in *. exists (Ok tt), d'. split; [done|]. split; [done|]. split; [exact Hok|]. split; [exact Emax|].
    pose proof (comps_ne _ _ Hc) as Hne. split.
    + intros q Hq. unfold view, read_file, exists_. rewrite Enodes. destruct (decide (of_comps cs = normalize q)) as [<-|Hx].
      * rewrite lookup_insert_eq, Ed. done.
      * rewrite !lookup_insert_ne by done. done.
    + cbn [is_ok]. unfold view, read_file, exists_. rewrite Enodes, En, lookup_insert_ne, lookup_insert_eq by done. done.
Qed.

Lemma create_dir_sound p d :
  ram_ok d ->
  exists r d', create_dir p d = (r, d') /\ returns r /\ ram_ok d' /\ max_size d' = max_size d /\
    (forall q, normalize q <> normalize p -> view d' q = view d q) /\
    if is_ok r then view d' p = (Err NotAFile, true) else d' = d.
Proof.
  intros Hd. unfold create_dir.
  destruct (norm_cases p) as [E|(cs & c & Hc & En & Ep & Ef)].
  { rewrite bool_decide_eq_true_2 by done. do 2 eexists. split_and!; try done. cbn. unfold view, read_file, exists_.
    destruct (tr_root _ (ro_tree _ Hd)) as [ch Hch]. rewrite E. change (of_comps []) with [47] in Hch. by rewrite Hch. }
  rewrite bool_decide_eq_false_2 by (rewrite En; by apply of_comps_root).
  destruct (nodes d !! normalize p) as [o|] eqn:Eo; [rewrite bool_decide_eq_true_2 by eauto; by do 2 eexists|].
  rewrite bool_decide_eq_false_2 by (by intros [? ?]). rewrite Ep, Ef, En in *. unfold parent_is_dir.
  destruct (nodes d !! of_comps cs) as [[x|ch]|] eqn:Ed; [by do 2 eexists| |by do 2 eexists].
  destruct (store_leaf d cs c ch (NDirectory []) (used_size d)) as (Hok & Enodes & Emax); try done.
  { by intros ? [= <-]. } { cbn. lia. } { apply Hd. }
  set (d' := add_child _ _ _) in *. exists (Ok tt), d'. split; [done|]. split; [done|]. split; [exact Hok|]. split; [exact Emax|].
  pose proof (comps_ne _ _ Hc) as Hne. cbn [is_ok]. unfold view, read_file, exists_. rewrite Enodes. split.
  - intros q Hq. destruct (decide (of_comps cs = normalize q)) as [<-|Hx].
    + rewrite lookup_insert_eq, Ed. done.
    + rewrite !lookup_insert_ne by done. done.
  - rewrite En, lookup_insert_ne, lookup_insert_eq by done. done.
Qed.

Lemma remove_file_sound p d :
  ram_ok d ->
  exists r d', remove_file p d = (r, d') /\ returns r /\ ram_ok d' /\ max_size d' = max_size d /\
    (forall q, normalize q <> normalize p -> view d' q = view d q) /\
    if is_ok r then view d' p = (Err NotFound, false) /\ is_ok (read_file p d) = true else d' = d.
Proof.
  intros Hd. unfold remove_file, read_file at 1. destruct (nodes d !! normalize p) as [[x|ch]|] eqn:Eo; [|by do 2 eexists..].
  destruct (norm_cases p) as [E|(cs & c & Hc & En & Ep & Ef)].
  { destruct (tr_root _ (ro_tree _ Hd)) as [ch Hch]. change (of_comps []) with [47] in Hch. congruence. }
  rewrite Ep, Ef, En in *. destruct Hd as [T M Ht Hu]. destruct (tr_parent _ T cs c _ Hc Eo) as (ch & Ed & _).
  pose proof (comps_ne _ _ Hc) as Hne. unfold remove_child. cbn [nodes set_nodes set_used].
  rewrite lookup_delete_ne, Ed by done. do 2 eexists. split; [done|]. split; [done|].
  pose proof (total_lookup _ _ _ Eo) as Hx. cbn [node_size] in Hx. pose proof (zlen_nonneg x). split; [|split; [done|]].
  - split; cbn [nodes set_nodes set_used max_size used_size]; [by eapply tree_remove|done| |unfold saturating_sub; lia].
    rewrite (total_insert _ _ _ (NDirectory ch)) by (by rewrite lookup_delete_ne).
    rewrite (total_delete _ _ _ Eo) in Ht. cbn [node_size] in *. unfold saturating_sub. lia.
  - unfold view, read_file, exists_. cbn [nodes set_nodes set_used is_ok]. rewrite En, ?Eo. split.
    + intros q Hq. destruct (decide (of_comps cs = normalize q)) as [<-|Hq'].
      * rewrite lookup_insert_eq, Ed. done.
      * rewrite lookup_insert_ne, lookup_delete_ne by done. done.
    + rewrite lookup_insert_ne, lookup_delete_eq by done. done.
Qed.

(** Sizes a caller can pass: a slice is at most what fits beside the disk in [u64]. *)
Definition call_ok (max : Z) (c : call RamDisk) : Prop :=
  match c with At (WriteFile d) _ => max + zlen d <= U64_MAX | _ => True end.

Lemma perform_ok c d : ram_ok d -> call_ok (max_size d) c -> ram_ok (snd (perform c d)) /\ max_size (snd (perform c d)) = max_size d.
Proof.
  intros Hd Hc. destruct c as [m p|m| | | | | | |]; try done; destruct m; try done; cbn in *.
  - destruct (write_file_sound p data d Hd Hc) as (r & d' & -> & _ & H1 & H2 & _). done.
  - destruct (remove_file_sound p d Hd) as (r & d' & -> & _ & H1 & H2 & _). done.
  - destruct (create_dir_sound p d Hd) as (r & d' & -> & _ & H1 & H2 & _). done.
Qed.

Lemma perform_all_ok cs d :
  ram_ok d -> Forall (call_ok (max_size d)) cs ->
  ram_ok (snd (perform_all perform cs d)) /\ max_size (snd (perform_all perform cs d)) = max_size d.
Proof.
  revert d. induction cs as [|c cs IH]; intros d Hd Hcs; [done|]. apply Forall_cons in Hcs as [Hc Hcs]. cbn [perform_all].
  destruct (perform_ok c d Hd Hc) as [H1 H2]. destruct (perform c d) as [r d1]. cbn [snd] in *. rewrite <- H2 in Hcs.
  destruct (IH d1 H1 Hcs) as [H3 H4]. destruct (perform_all perform cs d1) as [rs d2]. cbn [snd] in *. split; [done|congruence].
Qed.

(** ** Theorems *)

(** C39 The bounded ramdisk is correct over any history of calls: its nodes form a
    tree (every node below existing directories that list it, every listed name
    with its node), what it stores never exceeds its size, and the next write
    returns; if it succeeds the file reads back as written, if it fails nothing
    that can be read changes, and no other path is affected either way. *)
Theorem ramdisk_correct max hist p data :
  0 < max -> Forall (call_ok max) hist -> max + zlen data <= U64_MAX ->
  let d := snd (perform_all perform hist (new max)) in
  tree_ok (nodes d) /\ total (nodes d) <= max /\
  exists r d', write_file p data d = (r, d') /\ returns r /\ tree_ok (nodes d') /\
    (forall q, normalize q <> normalize p -> view d' q = view d q) /\
    if is_ok r then view d' p = (Ok data, true) else forall q, view d' q = view d q.
Proof.
  intros Hm Hh Hz d. destruct (perform_all_ok hist (new max) (ram_ok_new max Hm) Hh) as [Hd Ed]. fold d in Hd, Ed.
  cbn [max_size new] in Ed. rewrite <- Ed in Hz. destruct (write_file_sound p data d Hd Hz) as (r & d' & E & Hr & Hd' & _ & Hq & Hp).
  destruct Hd as [T M Ht Hu]. split; [done|]. split; [lia|]. exists r, d'. split_and!; try done. apply Hd'.
Qed.

(** A write that fails because the parent directory is missing has already
    charged the file's size. *)
Lemma failed_write_charges :
  fst (write_file [47; 97; 47; 98] [1; 2; 3] (new 10)) = Err NotFound /\
  used_size (snd (write_file [47; 97; 47; 98] [1; 2; 3] (new 10))) = 3 /\
  nodes (snd (write_file [47; 97; 47; 98] [1; 2; 3] (new 10))) = nodes (new 10).
Proof. done. Qed.

(** On an unbounded disk a write over a directory replaces it and orphans its
    children. *)
Lemma unbounded_write_over_directory :
  let d := snd (write_file [47; 97; 47; 98] [1] (snd (create_dir [47; 97] (new 0)))) in
  fst (write_file [47; 97] [2] d) = Ok tt /\
  read_file [47; 97; 47; 98] (snd (write_file [47; 97] [2] d)) = Ok [1] /\
  list_dir [47; 97] (snd (write_file [47; 97] [2] d)) = Err NotADirectory.
Proof. done. Qed.

(** ** Witness: [/a] is created, then [/a/b] written. *)
Lemma ramdisk_correct_witness :
  let d := snd (perform_all perform [At CreateDir [47; 97]] (new 10)) in
  fst (write_file [47; 97; 47; 98] [1; 2] d) = Ok tt /\ tree_ok (nodes d) /\ total (nodes d) <= 10.
Proof.
  split; [reflexivity|].
  destruct (ramdisk_correct 10 [At CreateDir [47; 97]] [47; 97; 47; 98] [1; 2] eq_refl) as (H1 & H2 & _).
  - constructor; [exact I|constructor].
  - unfold zlen. cbn. ulia.
  - exact (conj H1 H2).
Defined.
End RamDisk.
