(* ===== verification/BTree.v ===== *)
(** [BTreeMap] with integer keys: an association list in increasing key order,
    the order in which the standard library iterates. *)

From Stdlib Require Import Sorting.Sorted.
From S2P Require Import Prelude.

Module BTree.

Section map.
Context {V : Type}.
Implicit Types (m : list (Z * V)) (k : Z) (v : V).

Fixpoint bt_get m k : option V :=
  match m with
  | [] => None
  | (k', v) :: m' => if k =? k' then Some v else bt_get m' k
  end.

Fixpoint bt_insert m k v : list (Z * V) :=
  match m with
  | [] => [(k, v)]
  | (k', v') :: m' =>
      if k <? k' then (k, v) :: m
      else if k =? k' then (k, v) :: m'
      else (k', v') :: bt_insert m' k v
  end.

Fixpoint bt_remove m k : list (Z * V) :=
  match m with
  | [] => []
  | (k', v') :: m' => if k =? k' then m' else (k', v') :: bt_remove m' k
  end.

Definition bt_contains m k : bool := match bt_get m k with Some _ => true | None => false end.

Definition bt_of_list (l : list (Z * V)) : list (Z * V) :=
  foldl (fun m kv => bt_insert m (fst kv) (snd kv)) [] l.

(** Keys strictly increasing. *)
Definition bt_ok m : Prop := StronglySorted Z.lt (map fst m).

Lemma bt_ok_nil : bt_ok [].
Proof. constructor. Qed.

Lemma bt_ok_cons k v m : bt_ok ((k, v) :: m) <-> bt_ok m /\ Forall (fun kv => k < fst kv) m.
Proof.
  unfold bt_ok. cbn [map fst]. split.
  - inversion 1; subst. split; [done|]. by rewrite <- Forall_map.
  - intros [H1 H2]. constructor; [done|]. by rewrite Forall_map.
Qed.

Lemma bt_get_elem m k v : bt_ok m -> bt_get m k = Some v <-> (k, v) ∈ m.
Proof.
  induction m as [|[k' v'] m IH]; intros Hm; cbn.
  - split; [done|]. by intros ?%not_elem_of_nil.
  - apply bt_ok_cons in Hm as [Hm Hlt]. rewrite elem_of_cons.
    destruct (Z.eqb_spec k k') as [->|Hne].
    + split; [intros [= ->]; by left|]. intros [[= ->]|Hin]; [done|].
      rewrite Forall_forall in Hlt. apply Hlt in Hin. cbn in Hin. lia.
    + rewrite IH by done. naive_solver.
Qed.

Lemma bt_get_lt m k : Forall (fun kv => k < fst kv) m -> bt_get m k = None.
Proof.
  induction 1 as [|[k' v'] m Hk Hm IH]; cbn in *; [done|].
  destruct (Z.eqb_spec k k'); [lia|done].
Qed.

Lemma bt_get_insert m k v k' :
  bt_get (bt_insert m k v) k' = if k' =? k then Some v else bt_get m k'.
Proof.
  induction m as [|[k0 v0] m IH]; cbn; [done|].
  destruct (Z.ltb_spec k k0), (Z.eqb_spec k k0); subst; cbn; try lia.
  - done.
  - by destruct (Z.eqb_spec k' k0).
  - rewrite IH. destruct (Z.eqb_spec k' k0), (Z.eqb_spec k' k); try done. lia.
Qed.

Lemma bt_insert_elem m k v kv :
  kv ∈ bt_insert m k v -> kv = (k, v) \/ kv ∈ m.
Proof.
  induction m as [|[k0 v0] m IH]; cbn; [rewrite list_elem_of_singleton; auto|].
  repeat case_if; rewrite ?elem_of_cons; naive_solver.
Qed.

Lemma bt_insert_forall (P : Z * V -> Prop) m k v :
  P (k, v) -> Forall P m -> Forall P (bt_insert m k v).
Proof.
  rewrite !Forall_forall. intros Hk Hm kv Hin. apply bt_insert_elem in Hin as [->|]; auto.
Qed.

Lemma bt_ok_insert m k v : bt_ok m -> bt_ok (bt_insert m k v).
Proof.
  induction m as [|[k0 v0] m IH]; intros Hm; cbn.
  - apply bt_ok_cons. split; [done|constructor].
  - pose proof Hm as Hm0. apply bt_ok_cons in Hm as [Hm Hlt].
    destruct (Z.ltb_spec k k0); [|destruct (Z.eqb_spec k k0)].
    + apply bt_ok_cons. split; [done|]. constructor; [done|].
      eapply Forall_impl; [exact Hlt|]. intros [? ?]; cbn; lia.
    + subst. by apply bt_ok_cons.
    + apply bt_ok_cons. split; [by apply IH|]. apply bt_insert_forall; [cbn; lia|done].
Qed.

Lemma bt_remove_elem m k kv : bt_ok m -> kv ∈ bt_remove m k <-> kv ∈ m /\ fst kv <> k.
Proof.
  induction m as [|[k0 v0] m IH]; intros Hm; cbn.
  - split; [by intros ?%not_elem_of_nil|]. by intros [?%not_elem_of_nil _].
  - apply bt_ok_cons in Hm as [Hm Hlt]. rewrite Forall_forall in Hlt.
    destruct (Z.eqb_spec k k0) as [->|Hne].
    + rewrite elem_of_cons. split.
      * intros Hin. split; [by right|]. apply Hlt in Hin. lia.
      * intros [[->|Hin] Hk]; [done|done].
    + rewrite !elem_of_cons, IH by done. split.
      * intros [->|[? ?]]; cbn; [split; [by left|lia]|auto].
      * intros [[->|?] ?]; auto.
Qed.

Lemma bt_ok_remove m k : bt_ok m -> bt_ok (bt_remove m k).
Proof.
  induction m as [|[k0 v0] m IH]; intros Hm; [done|]. cbn.
  pose proof Hm as Hm0. apply bt_ok_cons in Hm as [Hm Hlt]. case_if; [done|].
  apply bt_ok_cons. split; [by apply IH|]. rewrite Forall_forall in Hlt |- *.
  intros kv Hin. apply bt_remove_elem in Hin as [? _]; [auto|done].
Qed.

Lemma bt_get_remove m k k' :
  bt_ok m -> bt_get (bt_remove m k) k' = if k' =? k then None else bt_get m k'.
Proof.
  induction m as [|[k0 v0] m IH]; intros Hm; cbn; [by case_if|].
  apply bt_ok_cons in Hm as [Hm Hlt].
  destruct (Z.eqb_spec k k0) as [->|Hne].
  - destruct (Z.eqb_spec k' k0); [subst; by apply bt_get_lt|done].
  - cbn. rewrite IH by done. destruct (Z.eqb_spec k' k0), (Z.eqb_spec k' k); try done. lia.
Qed.

Lemma bt_get_remove_ne m k k' : k' <> k -> bt_get (bt_remove m k) k' = bt_get m k'.
Proof.
  intros Hne. induction m as [|[k0 v0] m IH]; cbn; [done|].
  destruct (Z.eqb_spec k k0); subst; cbn; [by destruct (Z.eqb_spec k' k0)|by rewrite IH].
Qed.

Lemma bt_insert_perm m k v : bt_ok m -> bt_insert m k v ≡ₚ (k, v) :: bt_remove m k.
Proof.
  induction m as [|[k0 v0] m IH]; intros Hm; cbn; [done|].
  apply bt_ok_cons in Hm as [Hm Hlt].
  destruct (Z.ltb_spec k k0), (Z.eqb_spec k k0); subst; try lia; [|done|].
  - enough (bt_remove m k = m) as -> by done. clear IH Hm. induction Hlt as [|[k1 v1] m H1 Hlt IH]; cbn in *; [done|].
    destruct (Z.eqb_spec k k1); [lia|by rewrite IH].
  - rewrite IH by done. constructor.
Qed.

Lemma bt_insert_snoc m k v :
  Forall (fun kv => fst kv < k) m -> bt_insert m k v = m ++ [(k, v)].
Proof.
  induction 1 as [|[k0 v0] m Hk Hm IH]; cbn in *; [done|].
  destruct (Z.ltb_spec k k0), (Z.eqb_spec k k0); try lia. by rewrite IH.
Qed.

(** Inserting the entries of a map in order rebuilds it. *)
Lemma bt_of_list_sorted m : bt_ok m -> bt_of_list m = m.
Proof.
  intros Hm. unfold bt_of_list.
  assert (H : forall done_ todo, done_ ++ todo = m ->
    foldl (fun m kv => bt_insert m (fst kv) (snd kv)) done_ todo = m).
  { intros done_ todo. revert done_. induction todo as [|[k v] todo IH]; intros done_ E; cbn.
    - by rewrite app_nil_r in E.
    - rewrite bt_insert_snoc; [apply IH; by rewrite <- app_assoc|].
      subst m. clear IH. induction done_ as [|[k0 v0] d IH]; [constructor|].
      cbn [app] in Hm. apply bt_ok_cons in Hm as [Hm Hlt].
      apply Forall_app in Hlt as [_ Hlt]. apply Forall_cons in Hlt as [Hlt _].
      constructor; [done|by apply IH]. }
  by apply (H []).
Qed.

Lemma bt_of_list_ok l : bt_ok (bt_of_list l).
Proof.
  unfold bt_of_list. assert (H : bt_ok []) by constructor. revert H. generalize (@nil (Z * V)).
  induction l as [|[k v] l IH]; intros m Hm; cbn; [done|]. by apply IH, bt_ok_insert.
Qed.

Lemma bt_of_list_elem l kv : kv ∈ bt_of_list l -> kv ∈ l.
Proof.
  unfold bt_of_list.
  assert (H : forall m, kv ∈ foldl (fun m kv => bt_insert m (fst kv) (snd kv)) m l -> kv ∈ m \/ kv ∈ l).
  { induction l as [|[k v] l IH]; intros m; cbn; [auto|]. intros Hin.
    rewrite elem_of_cons. apply IH in Hin as [Hin|]; [|auto].
    apply bt_insert_elem in Hin as [->|]; auto. }
  intros Hin. apply H in Hin as [?%not_elem_of_nil|]; done.
Qed.
End map.

#[export] Hint Resolve bt_ok_nil bt_ok_insert bt_ok_remove bt_of_list_ok : euro.

End BTree.
