(* ===== verification/Superblock.v ===== *)
(** The EuroFS superblock ([src/crates/eurofs/src/superblock.rs]): its on-disk
    form, validation, and the A/B commit over two slots with a generation
    number.  The first theorems are the codec round trips; the others show that
    a commit cut short by a power failure leaves either the previous or the new
    superblock in force, and that self-healing restores both copies. *)

From S2P Require Import Prelude Bytes Block Crash Checksum Fs.
Import Block Crash.

Module Superblock.

Definition EUROFS_MAGIC : list Z := [69; 85; 82; 79; 70; 83; 48; 49].
Definition EUROFS_VERSION_MAJOR : Z := 0.
Definition EUROFS_VERSION_MINOR : Z := 1.
Definition SUPERBLOCK_BLOCK : Z := 1.
Definition SUPERBLOCK_BACKUP_BLOCK : Z := 2.
Definition DEFAULT_BLOCK_SIZE : Z := 4096.
Definition RESERVED_BLOCKS : Z := 16.

Record EuroFsSuperblock := mkSb {
  magic : list Z;
  version_major : Z;
  version_minor : Z;
  uuid : list Z;
  sb_block_size : Z;
  total_blocks : Z;
  free_blocks : Z;
  reserved_blocks : Z;
  created_at : Z;
  last_mounted : Z;
  last_written : Z;
  checkpoint_id : Z;
  checkpoint_block : Z;
  object_map_root : Z;
  extent_tree_root : Z;
  root_dir_oid : Z;
  encryption : Z;
  kdf_params : list Z;
  wrapped_key : list Z;
  checksum : Z;
  padding : list Z;
}.

(** Every field has the width of its Rust type. *)
Record sb_typed (s : EuroFsSuperblock) : Prop := mkSbTyped {
  ty_magic : zlen (magic s) = 8 /\ bytes_ok (magic s);
  ty_major : is_u16 (version_major s);
  ty_minor : is_u16 (version_minor s);
  ty_uuid : zlen (uuid s) = 16 /\ bytes_ok (uuid s);
  ty_bs : is_u32 (sb_block_size s);
  ty_total : is_u64 (total_blocks s);
  ty_free : is_u64 (free_blocks s);
  ty_reserved : is_u64 (reserved_blocks s);
  ty_created : is_u64 (created_at s);
  ty_mounted : is_u64 (last_mounted s);
  ty_written : is_u64 (last_written s);
  ty_ckpt : is_u64 (checkpoint_id s);
  ty_ckpt_block : is_u64 (checkpoint_block s);
  ty_root : is_u64 (object_map_root s);
  ty_extent : is_u64 (extent_tree_root s);
  ty_root_oid : is_u64 (root_dir_oid s);
  ty_enc : is_u8 (encryption s);
  ty_kdf : zlen (kdf_params s) = 64 /\ bytes_ok (kdf_params s);
  ty_key : zlen (wrapped_key s) = 48 /\ bytes_ok (wrapped_key s);
  ty_sum : is_u64 (checksum s);
  ty_pad : zlen (padding s) = 271 /\ bytes_ok (padding s);
}.

(** [offset_of!(EuroFsSuperblock, checksum)]: the struct is packed. *)
Definition OFF_SB_CHECKSUM : Z := 233.

(** The fields in order, little-endian and without gaps ([repr(C, packed)]). *)
Definition to_bytes (s : EuroFsSuperblock) : list Z :=
  magic s ++ le_bytes 2 (version_major s) ++ le_bytes 2 (version_minor s) ++
  uuid s ++ le_bytes 4 (sb_block_size s) ++
  le_bytes 8 (total_blocks s) ++ le_bytes 8 (free_blocks s) ++ le_bytes 8 (reserved_blocks s) ++
  le_bytes 8 (created_at s) ++ le_bytes 8 (last_mounted s) ++ le_bytes 8 (last_written s) ++
  le_bytes 8 (checkpoint_id s) ++ le_bytes 8 (checkpoint_block s) ++
  le_bytes 8 (object_map_root s) ++ le_bytes 8 (extent_tree_root s) ++
  le_bytes 8 (root_dir_oid s) ++ [encryption s] ++
  kdf_params s ++ wrapped_key s ++ le_bytes 8 (checksum s) ++ padding s.

Definition from_bytes (b : list Z) : EuroFsSuperblock := {|
  magic := slice b 0 8;
  version_major := rd_u16 b 8;
  version_minor := rd_u16 b 10;
  uuid := slice b 12 16;
  sb_block_size := rd_u32 b 28;
  total_blocks := rd_u64 b 32;
  free_blocks := rd_u64 b 40;
  reserved_blocks := rd_u64 b 48;
  created_at := rd_u64 b 56;
  last_mounted := rd_u64 b 64;
  last_written := rd_u64 b 72;
  checkpoint_id := rd_u64 b 80;
  checkpoint_block := rd_u64 b 88;
  object_map_root := rd_u64 b 96;
  extent_tree_root := rd_u64 b 104;
  root_dir_oid := rd_u64 b 112;
  encryption := at_ 0 b 120;
  kdf_params := slice b 121 64;
  wrapped_key := slice b 185 48;
  checksum := rd_u64 b 233;
  padding := slice b 241 271;
|}.

Definition set_checksum (s : EuroFsSuperblock) (c : Z) : EuroFsSuperblock :=
  mkSb (magic s) (version_major s) (version_minor s) (uuid s) (sb_block_size s)
    (total_blocks s) (free_blocks s) (reserved_blocks s) (created_at s) (last_mounted s)
    (last_written s) (checkpoint_id s) (checkpoint_block s) (object_map_root s)
    (extent_tree_root s) (root_dir_oid s) (encryption s) (kdf_params s) (wrapped_key s)
    c (padding s).

Section ops.
Context `{Xxh3}.

Definition compute_checksum (s : EuroFsSuperblock) : Z :=
  xxh3_64 (slice (to_bytes s) 0 OFF_SB_CHECKSUM).

Definition new_empty (total : Z) (u : list Z) (created : Z) : EuroFsSuperblock :=
  let sb := {|
    magic := EUROFS_MAGIC;
    version_major := EUROFS_VERSION_MAJOR;
    version_minor := EUROFS_VERSION_MINOR;
    uuid := u;
    sb_block_size := DEFAULT_BLOCK_SIZE;
    total_blocks := total;
    free_blocks := saturating_sub total RESERVED_BLOCKS;
    reserved_blocks := RESERVED_BLOCKS;
    created_at := created;
    last_mounted := 0;
    last_written := created;
    checkpoint_id := 1;
    checkpoint_block := 3;
    object_map_root := 11;
    extent_tree_root := 12;
    root_dir_oid := 1;
    encryption := 0;
    kdf_params := zrepeat 0 64;
    wrapped_key := zrepeat 0 48;
    checksum := 0;
    padding := zrepeat 0 271;
  |} in
  set_checksum sb (compute_checksum sb).

Definition is_valid (s : EuroFsSuperblock) : bool :=
  bool_decide (magic s = EUROFS_MAGIC)
  && (version_major s =? EUROFS_VERSION_MAJOR)
  && (512 <=? sb_block_size s)
  && is_power_of_two (sb_block_size s)
  && (checksum s =? compute_checksum s).

Section dev.
Context {D : Type} `{BlockDevice D}.

(** [&block[..512]] panics on a device with smaller blocks. *)
Definition read_slot {E} (d : D) (loc : Z) : outcome E (option EuroFsSuperblock) :=
  match read_blocks d loc 1 (block_size d) with
  | Ok block =>
      if zlen block <? 512 then Panic
      else
        let sb := from_bytes (slice block 0 512) in
        if is_valid sb then Ok (Some sb) else Ok None
  | Err _ => Ok None
  | Panic => Panic
  | OutOfFuel => OutOfFuel
  end.

Definition sb_block (d : D) (s : EuroFsSuperblock) : list Z :=
  splice (zrepeat 0 (block_size d)) 0 (to_bytes s).

Definition write_to (s : EuroFsSuperblock) : ST D BlockError unit :=
  let! _ := flush in
  let! ga := sgets (fun d => read_slot d SUPERBLOCK_BLOCK) in
  let! gb := sgets (fun d => read_slot d SUPERBLOCK_BACKUP_BLOCK) in
  let! block := sgets (fun d => if block_size d <? 512 then Panic else Ok (sb_block d s)) in
  let! _ :=
    match ga, gb with
    | None, None =>
        let! _ := (fun d => write_blocks d SUPERBLOCK_BLOCK 1 block) in
        (fun d => write_blocks d SUPERBLOCK_BACKUP_BLOCK 1 block)
    | _, _ =>
        let target :=
          match ga, gb with
          | None, _ => SUPERBLOCK_BLOCK
          | _, None => SUPERBLOCK_BACKUP_BLOCK
          | Some a, Some b =>
              if checkpoint_id a <=? checkpoint_id b then SUPERBLOCK_BLOCK
              else SUPERBLOCK_BACKUP_BLOCK
          end in
        (fun d => write_blocks d target 1 block)
    end in
  flush.

Definition degraded_slots {E} (d : D) : outcome E Z :=
  let? a := read_slot d SUPERBLOCK_BLOCK in
  let? b := read_slot d SUPERBLOCK_BACKUP_BLOCK in
  Ok ((if a is Some _ then 0 else 1) + (if b is Some _ then 0 else 1)).

Definition heal_slots : ST D BlockError Z :=
  let! a := sgets (fun d => read_slot d SUPERBLOCK_BLOCK) in
  let! b := sgets (fun d => read_slot d SUPERBLOCK_BACKUP_BLOCK) in
  let heal loc valid :=
    let! block := sgets (fun d => if block_size d <? 512 then Panic else Ok (sb_block d valid)) in
    let! _ := (fun d => write_blocks d loc 1 block) in
    let! _ := flush in
    sret 1 in
  match a, b with
  | Some valid, None => heal SUPERBLOCK_BACKUP_BLOCK valid
  | None, Some valid => heal SUPERBLOCK_BLOCK valid
  | _, _ => sret 0
  end.

(** The slot with the highest valid generation. *)
Definition read_from (d : D) : outcome Fs.FsError EuroFsSuperblock :=
  let? a := read_slot d SUPERBLOCK_BLOCK in
  let? b := read_slot d SUPERBLOCK_BACKUP_BLOCK in
  match a, b with
  | None, None => Err Fs.Corruption
  | None, Some y => Ok y
  | Some x, None => Ok x
  | Some x, Some y => if checkpoint_id x <? checkpoint_id y then Ok y else Ok x
  end.
End dev.
End ops.

(** ** Codec *)

(** Reduce projections of a literal superblock. *)
Tactic Notation "sb_proj" := cbn [magic version_major
    version_minor uuid sb_block_size total_blocks free_blocks reserved_blocks created_at
    last_mounted last_written checkpoint_id checkpoint_block object_map_root extent_tree_root
    root_dir_oid encryption kdf_params wrapped_key checksum padding].
Tactic Notation "sb_proj" "in" "*" := cbn [magic version_major
    version_minor uuid sb_block_size total_blocks free_blocks reserved_blocks created_at
    last_mounted last_written checkpoint_id checkpoint_block object_map_root extent_tree_root
    root_dir_oid encryption kdf_params wrapped_key checksum padding] in *.

(** Lengths of the chunks of [to_bytes]. *)
Ltac chunk_len :=
  rewrite ?zlen_app, ?zlen_cons, ?zlen_nil, ?zlen_le_bytes; lia.

(** A field of a concatenation of chunks. *)
Ltac chunk :=
  repeat (rewrite slice_app_skip by chunk_len);
  first [rewrite slice_app_here by chunk_len | rewrite slice_whole by chunk_len].

Lemma zlen_to_bytes s : sb_typed s -> zlen (to_bytes s) = 512.
Proof. intros []. unfold to_bytes. repeat rewrite zlen_app. rewrite !zlen_le_bytes, zlen_cons, zlen_nil. lia. Qed.

Lemma bytes_ok_to_bytes s : sb_typed s -> bytes_ok (to_bytes s).
Proof.
  intros []. unfold to_bytes.
  repeat apply bytes_ok_app; try apply bytes_ok_le; try tauto. by constructor.
Qed.

Lemma from_to_bytes s : sb_typed s -> from_bytes (to_bytes s) = s.
Proof.
  intros Hs. pose proof (zlen_to_bytes s Hs) as Hlen. destruct Hs, s. sb_proj in *.
  unfold from_bytes. rewrite at_slice1 by lia.
  unfold rd_u16, rd_u32, rd_u64, to_bytes.
  sb_proj.
  f_equal; chunk; try done; try (apply le_val_bytes; ulia).
Qed.

Lemma to_from_bytes b : zlen b = 512 -> bytes_ok b -> to_bytes (from_bytes b) = b.
Proof.
  intros Hl Hb. unfold to_bytes, from_bytes.
  sb_proj.
  unfold rd_u16, rd_u32, rd_u64.
  rewrite !le_bytes_val by (auto with euro || (rewrite zlen_slice; lia)).
  replace [at_ 0 b 120] with (slice b 120 1).
  - repeat (rewrite slice_join by lia; cbn [Z.add Pos.add Pos.succ Pos.add_carry]).
    rewrite <- (slice_all b) at 2. by rewrite Hl.
  - apply (list_eq_at 0); rewrite zlen_slice by lia; [done|].
    intros i Hi. replace i with 0 by lia. rewrite at_slice by lia. done.
Qed.

(** ** The two slots of an image *)

Section slots.
Context `{Xxh3}.

Definition slot_of (sector : list Z) : option EuroFsSuperblock :=
  let sb := from_bytes sector in if is_valid sb then Some sb else None.

Definition slot_in (img : image) (loc : Z) : option EuroFsSuperblock :=
  slot_of (slice (img loc) 0 512).

(** The superblock in force. *)
Definition in_force (a b : option EuroFsSuperblock) : option EuroFsSuperblock :=
  match a, b with
  | None, _ => b
  | Some x, None => Some x
  | Some x, Some y => if checkpoint_id x <? checkpoint_id y then Some y else Some x
  end.

Definition current (img : image) : option EuroFsSuperblock :=
  in_force (slot_in img SUPERBLOCK_BLOCK) (slot_in img SUPERBLOCK_BACKUP_BLOCK).

(** Two valid slots of one generation are copies of each other. *)
Definition same_generation_same (a b : option EuroFsSuperblock) : Prop :=
  forall x y, a = Some x -> b = Some y -> checkpoint_id x = checkpoint_id y -> x = y.

Definition copies_agree (img : image) : Prop :=
  same_generation_same (slot_in img SUPERBLOCK_BLOCK) (slot_in img SUPERBLOCK_BACKUP_BLOCK).

(** A power failure may tear the superblock sector itself; what it leaves
    there then fails validation. *)
Definition slot_power (wh : Z -> bool) : power :=
  mkPower wh (fun sector => is_valid (from_bytes sector)).

Definition is_slot (b : Z) : Prop := b = SUPERBLOCK_BLOCK \/ b = SUPERBLOCK_BACKUP_BLOCK.

Definition sb_head (s : EuroFsSuperblock) : list Z :=
  magic s ++ le_bytes 2 (version_major s) ++ le_bytes 2 (version_minor s) ++
  uuid s ++ le_bytes 4 (sb_block_size s) ++
  le_bytes 8 (total_blocks s) ++ le_bytes 8 (free_blocks s) ++ le_bytes 8 (reserved_blocks s) ++
  le_bytes 8 (created_at s) ++ le_bytes 8 (last_mounted s) ++ le_bytes 8 (last_written s) ++
  le_bytes 8 (checkpoint_id s) ++ le_bytes 8 (checkpoint_block s) ++
  le_bytes 8 (object_map_root s) ++ le_bytes 8 (extent_tree_root s) ++
  le_bytes 8 (root_dir_oid s) ++ [encryption s] ++ kdf_params s ++ wrapped_key s.

Lemma compute_checksum_head s : sb_typed s -> compute_checksum s = xxh3_64 (sb_head s).
Proof.
  intros Hs. unfold compute_checksum. f_equal.
  replace (to_bytes s) with (sb_head s ++ le_bytes 8 (checksum s) ++ padding s)
    by (unfold to_bytes, sb_head; by rewrite <- !app_assoc).
  destruct Hs. apply slice_app_here; [done|]. unfold sb_head, OFF_SB_CHECKSUM. chunk_len.
Qed.

Lemma sb_typed_set_checksum s c : sb_typed s -> is_u64 c -> sb_typed (set_checksum s c).
Proof. intros [] ?. by split. Qed.

(** Sealing a superblock with its checksum makes it valid. *)
Lemma sealed_valid s :
  sb_typed s -> magic s = EUROFS_MAGIC -> version_major s = EUROFS_VERSION_MAJOR ->
  512 <= sb_block_size s -> is_power_of_two (sb_block_size s) = true ->
  is_valid (set_checksum s (compute_checksum s)) = true.
Proof.
  intros Hs Hm Hv Hb Hp. unfold is_valid. sb_proj.
  unfold set_checksum at 1 2 3 4 5. sb_proj. rewrite Hm, Hv, Hp.
  rewrite bool_decide_eq_true_2 by done.
  rewrite !compute_checksum_head by (done || apply sb_typed_set_checksum; try done; apply xxh3_64_u64).
  rewrite (proj2 (Z.leb_le _ _) Hb). cbn [andb Z.eqb].
  apply Z.eqb_eq. done.
Qed.

Lemma from_bytes_typed b : zlen b = 512 -> bytes_ok b -> sb_typed (from_bytes b).
Proof.
  intros Hl Hb. unfold from_bytes.
  assert (forall o n, 0 <= o -> 0 <= n -> o + n <= 512 -> zlen (slice b o n) = n)
    by (intros; apply zlen_slice; lia).
  split; sb_proj; auto with euro; split; auto with euro lia.
Qed.

Lemma slot_of_to_bytes s : sb_typed s -> is_valid s = true -> slot_of (to_bytes s) = Some s.
Proof. intros Ht Hv. unfold slot_of. by rewrite from_to_bytes, Hv. Qed.

Lemma slot_in_typed img loc s :
  block_like (img loc) -> slot_in img loc = Some s -> sb_typed s /\ is_valid s = true.
Proof.
  intros [Hl Hb]. unfold slot_in, slot_of. cbv zeta. case_if; [|done]. intros [= <-].
  split; [|done]. apply from_bytes_typed; [|auto with euro].
  apply zlen_slice; unfold BS in Hl; lia.
Qed.

Lemma copies_agree_none img : slot_in img SUPERBLOCK_BLOCK = None -> copies_agree img.
Proof. intros E x y Hx. congruence. Qed.

Section block.
Context {D : Type} `{BlockDevice D}.

Lemma sb_block_spec (d : D) s :
  block_size d = BS -> sb_typed s ->
  block_like (sb_block d s) /\ slice (sb_block d s) 0 512 = to_bytes s.
Proof.
  intros Hd Hs. pose proof (zlen_to_bytes s Hs) as Hl. unfold sb_block. rewrite Hd.
  assert (zlen (zrepeat 0 BS) = BS) by (apply zlen_zrepeat; unfold BS; lia).
  split; [split|].
  - rewrite zlen_splice; unfold BS in *; lia.
  - auto using bytes_ok_to_bytes with euro.
  - rewrite <- Hl. apply slice_splice_same; unfold BS in *; lia.
Qed.
End block.

(** ** The choice of the slot *)

Definition oldest (a b : option EuroFsSuperblock) : Z :=
  match a, b with
  | None, _ => SUPERBLOCK_BLOCK
  | _, None => SUPERBLOCK_BACKUP_BLOCK
  | Some a, Some b =>
      if checkpoint_id a <=? checkpoint_id b then SUPERBLOCK_BLOCK
      else SUPERBLOCK_BACKUP_BLOCK
  end.

Lemma oldest_safe a b a' b' s :
  same_generation_same a b ->
  (forall c, in_force a b = Some c -> checkpoint_id c < checkpoint_id s) ->
  (if oldest a b =? SUPERBLOCK_BLOCK
   then b' = b /\ (a' = a \/ a' = None \/ a' = Some s)
   else a' = a /\ (b' = b \/ b' = None \/ b' = Some s)) ->
  (in_force a' b' = in_force a b \/ in_force a' b' = Some s) /\
  ((if oldest a b =? SUPERBLOCK_BLOCK then a' else b') = Some s -> in_force a' b' = Some s) /\
  same_generation_same a' b'.
Proof.
  unfold same_generation_same, oldest. intros Hag Hg Hw.
  destruct a as [a|], b as [b|]; cbn [in_force] in *;
    try (pose proof (Hag a b eq_refl eq_refl)); repeat (case_match; simplify_bool);
    try (exfalso; done); try (exfalso; lia); try (pose proof (Hg _ eq_refl)); clear Hg Hag;
    destruct Hw as [-> [-> | [-> | ->]]]; cbn [in_force]; repeat case_if;
    split_and!; intros; simplify_eq; try first [solve [auto]|lia];
    assert (a = b) as -> by (auto with lia); auto.
Qed.

(** Overwriting the oldest slot, completely or not at all or leaving it
    invalid, keeps the old superblock in force or puts the new one in force. *)
Lemma oldest_slot_safe img img' s t :
  copies_agree img ->
  (forall c, current img = Some c -> checkpoint_id c < checkpoint_id s) ->
  t = oldest (slot_in img SUPERBLOCK_BLOCK) (slot_in img SUPERBLOCK_BACKUP_BLOCK) ->
  (forall b, is_slot b -> b <> t -> slot_in img' b = slot_in img b) ->
  slot_in img' t = slot_in img t \/ slot_in img' t = None \/ slot_in img' t = Some s ->
  (current img' = current img \/ current img' = Some s) /\
  (slot_in img' t = Some s -> current img' = Some s) /\ copies_agree img'.
Proof.
  intros Hag Hg Et Hother Ht.
  pose proof (Hother SUPERBLOCK_BLOCK (or_introl eq_refl)) as H1.
  pose proof (Hother SUPERBLOCK_BACKUP_BLOCK (or_intror eq_refl)) as H2.
  pose proof (oldest_safe _ _ (slot_in img' SUPERBLOCK_BLOCK) (slot_in img' SUPERBLOCK_BACKUP_BLOCK)
    s Hag Hg) as Hold.
  rewrite <- Et in Hold.
  assert (is_slot t) as Hs by (rewrite Et; unfold oldest, is_slot; repeat case_match; auto).
  destruct (Z.eqb_spec t SUPERBLOCK_BLOCK) as [Et1|Et1].
  - rewrite Et1 in *. apply Hold. split; [|done]. apply H2. done.
  - assert (t = SUPERBLOCK_BACKUP_BLOCK) as Et2 by (destruct Hs; done).
    rewrite Et2 in *. apply Hold. split; [|done]. by apply H1.
Qed.

(** ** Commit and healing on a recording device *)

Section commit.
Context {D : Type} `{LawfulDevice D}.

Lemma read_slot_spec {E} (d : D) loc :
  dev_ok d -> 0 <= loc < block_count d ->
  read_slot (E := E) d loc = Ok (slot_in (contents d) loc).
Proof.
  intros Hd Hloc. unfold read_slot. rewrite (law_size d), (law_read d) by done.
  destruct (law_contents d loc Hd Hloc) as [Hl _]. rewrite Hl. change (BS <? 512) with false.
  unfold slot_in, slot_of. cbv iota zeta. by case_if.
Qed.

(** Which moments of a commit of [s] over the state [img] are safe. *)
Definition commit_safe (wh : Z -> bool) (n : Z) (img : image) (s : EuroFsSuperblock) (m : moment) : Prop :=
  forall img', survives (slot_power wh) m.1 m.2 img' ->
    (current img' = current img \/ current img' = Some s) /\ copies_agree img' /\
    (forall b, 0 <= b < n -> block_like (img' b)) /\
    forall b, 0 <= b < n -> ~ is_slot b -> img' b = img b.

Lemma slot_in_ext (i j : image) loc : i loc = j loc -> slot_in i loc = slot_in j loc.
Proof. intros E. unfold slot_in. by rewrite E. Qed.

Lemma current_ext (i j : image) :
  (forall b, is_slot b -> i b = j b) ->
  current i = current j /\ (copies_agree j -> copies_agree i).
Proof.
  intros E. unfold current, copies_agree, is_slot in *.
  rewrite !(slot_in_ext i j) by (apply E; auto). done.
Qed.

Lemma torn_slot x o w :
  (is_valid (from_bytes x) = true -> x = o \/ x = w) ->
  slot_of x = slot_of o \/ slot_of x = None \/ slot_of x = slot_of w.
Proof.
  intros Hx. destruct (is_valid (from_bytes x)) eqn:E.
  - destruct (Hx eq_refl) as [-> | ->]; auto.
  - right; left. unfold slot_of. by rewrite E.
Qed.

Lemma write_slot_moment wh (n : Z) (img img0 : image) s t buf :
  3 <= n -> sb_typed s -> is_valid s = true -> copies_agree img ->
  (forall c, current img = Some c -> checkpoint_id c < checkpoint_id s) ->
  (forall b, 0 <= b < n -> img0 b = img b) ->
  t = oldest (slot_in img SUPERBLOCK_BLOCK) (slot_in img SUPERBLOCK_BACKUP_BLOCK) ->
  slice buf 0 512 = to_bytes s -> block_like buf -> (forall b, 0 <= b < n -> block_like (img b)) ->
  commit_safe wh n img s (img0, [Wrote t buf]).
Proof.
  intros Hn Ht Hv Ha Hg Hext -> Hbuf Hlb Hli img' Hs. cbn [fst snd] in Hs.
  assert (Hlike : forall b, 0 <= b < n -> block_like (img' b)).
  { intros b Hb. eapply survives_like; [exact Hs|by constructor|]. rewrite Hext by done. auto. }
  apply survives_one in Hs as [Hother Hat].
  set (t := oldest _ _) in *.
  assert (is_slot t) as Hslot by (subst t; unfold oldest, is_slot; repeat case_match; auto).
  assert (0 <= t < n) by (unfold is_slot, SUPERBLOCK_BLOCK, SUPERBLOCK_BACKUP_BLOCK in Hslot; lia).
  assert (Hrange : forall b, is_slot b -> 0 <= b < n)
    by (unfold is_slot, SUPERBLOCK_BLOCK, SUPERBLOCK_BACKUP_BLOCK; lia).
  destruct (oldest_slot_safe img img' s t Ha Hg eq_refl) as (Hc & _ & Hca).
  - intros b Hb Hbt. apply slot_in_ext. rewrite Hother, Hext by auto. done.
  - unfold slot_in. destruct Hat as [E|[E|[_ [_ E]]]].
    + left. by rewrite E, Hext.
    + right; right. rewrite E, Hbuf. by apply slot_of_to_bytes.
    + cbn [sector_valid slot_power] in E.
      rewrite <- (slot_of_to_bytes s), <- Hbuf, <- (Hext t) by done. by apply torn_slot.
  - split_and!; [done..|]. intros b Hb Hnb. rewrite Hother by (intros ->; auto). by apply Hext.
Qed.

Lemma write_both_moment wh (n : Z) (img img0 : image) s buf :
  3 <= n -> sb_typed s -> is_valid s = true -> current img = None ->
  (forall b, 0 <= b < n -> img0 b = img b) -> slice buf 0 512 = to_bytes s ->
  block_like buf -> (forall b, 0 <= b < n -> block_like (img b)) ->
  commit_safe wh n img s
    (img0, [Wrote SUPERBLOCK_BLOCK buf; Wrote SUPERBLOCK_BACKUP_BLOCK buf]).
Proof.
  intros Hn Ht Hv Hc Hext Hbuf Hlb Hli img' Hs. cbn [fst snd] in Hs.
  assert (Hlike : forall b, 0 <= b < n -> block_like (img' b)).
  { intros b Hb. eapply survives_like; [exact Hs|by repeat apply Forall_cons_2|]. rewrite Hext by done. auto. }
  change [?a; ?b] with ([a] ++ [b]) in Hs. apply survives_app in Hs as (mid & S1 & S2).
  apply survives_one in S1 as [Ho1 Ha1], S2 as [Ho2 Ha2].
  assert (Hone : forall (i : image) c t, slot_in i t = None ->
      c = i t \/ c = buf \/ (wh t = false /\ torn (slot_power wh) (i t) buf c) ->
      slot_of (slice c 0 512) = None \/ slot_of (slice c 0 512) = Some s).
  { intros i c t Hi Hcase. rewrite <- (slot_of_to_bytes s), <- Hbuf by done.
    unfold slot_in in Hi. destruct Hcase as [-> |[-> |[_ [_ E]]]]; [auto|auto|].
    cbn [sector_valid slot_power] in E. apply torn_slot in E. rewrite Hi in E. destruct E as [E|[E|E]]; auto. }
  unfold current, is_slot, SUPERBLOCK_BLOCK, SUPERBLOCK_BACKUP_BLOCK in *.
  assert (slot_in img 1 = None /\ slot_in img 2 = None) as [N1 N2]
    by (unfold in_force in Hc; repeat case_match; done).
  assert (E1 : slot_in img' 1 = None \/ slot_in img' 1 = Some s).
  { unfold slot_in. rewrite Ho2 by done. apply (Hone img0 (mid 1) 1); [|done].
    rewrite (slot_in_ext _ img); [done|]. apply Hext. lia. }
  assert (E2 : slot_in img' 2 = None \/ slot_in img' 2 = Some s).
  { unfold slot_in. apply (Hone mid (img' 2) 2); [|done].
    rewrite (slot_in_ext _ img); [done|]. rewrite Ho1 by done. apply Hext. lia. }
  split; [|split; [|split; [exact Hlike|]]].
  - rewrite N1, N2. destruct E1 as [-> | ->], E2 as [-> | ->]; cbn; try case_if; auto.
  - unfold copies_agree, same_generation_same, SUPERBLOCK_BLOCK, SUPERBLOCK_BACKUP_BLOCK. intros a b Ea Eb _.
    rewrite Ea in E1. rewrite Eb in E2. destruct E1, E2; congruence.
  - intros b Hb Hnb. rewrite Ho2, Ho1 by (intros ->; tauto). by apply Hext.
Qed.

Lemma quiet_moment wh n (img img0 : image) s :
  copies_agree img -> 3 <= n -> (forall b, 0 <= b < n -> img0 b = img b) ->
  (forall b, 0 <= b < n -> block_like (img b)) ->
  commit_safe wh n img s (img0, []).
Proof.
  intros Ha Hn Hext Hli img' Hs. apply survives_nothing in Hs as ->. cbn [fst].
  destruct (current_ext img0 img) as [E1 E2].
  { intros b Hb. apply Hext. unfold is_slot, SUPERBLOCK_BLOCK, SUPERBLOCK_BACKUP_BLOCK in Hb. lia. }
  split; [auto|]. split; [auto|]. split; [|auto]. intros b Hb. rewrite Hext by done. auto.
Qed.

(** Both slots hold a valid superblock, or neither does. *)
Definition both_valid (img : image) : Prop :=
  slot_in img SUPERBLOCK_BLOCK <> None /\ slot_in img SUPERBLOCK_BACKUP_BLOCK <> None.

Definition same_validity (img : image) : Prop :=
  slot_in img SUPERBLOCK_BLOCK <> None <-> slot_in img SUPERBLOCK_BACKUP_BLOCK <> None.

(** A commit returns, puts the new superblock in force and durable, leaves every
    other block alone, and is safe at every moment. *)
Record commit_post (wh : Z -> bool) (t t' : Traced D) (s : EuroFsSuperblock) : Prop := mkCommitPost {
  cp_ok : dev_ok t';
  cp_count : block_count t' = block_count t;
  cp_current : current (contents t') = Some s;
  cp_agree : copies_agree (contents t');
  cp_both : same_validity (contents t) -> both_valid (contents t');
  cp_rest b : 0 <= b < block_count t -> ~ is_slot b -> contents t' b = contents t b;
  cp_base : tr_base t' = contents t';
  cp_pending : tr_pending t' = [];
  cp_moments : moments t t' (commit_safe wh (block_count t) (contents t) s);
}.

Lemma both_valid_after (img img' : image) s tg :
  is_slot tg -> same_validity img ->
  ~ (slot_in img SUPERBLOCK_BLOCK = None /\ slot_in img SUPERBLOCK_BACKUP_BLOCK = None) ->
  (forall b, is_slot b -> b <> tg -> slot_in img' b = slot_in img b) ->
  slot_in img' tg = Some s -> both_valid img'.
Proof.
  unfold same_validity, both_valid, is_slot. intros Hsl Hv Hn Ho Ht.
  assert (slot_in img SUPERBLOCK_BLOCK <> None /\ slot_in img SUPERBLOCK_BACKUP_BLOCK <> None) as [V1 V2].
  { destruct (slot_in img SUPERBLOCK_BLOCK), (slot_in img SUPERBLOCK_BACKUP_BLOCK); split; try done;
      destruct Hv as [Hv1 Hv2]; try (by apply Hv1); try (by apply Hv2); exfalso; by apply Hn. }
  destruct Hsl as [-> | ->]; split; rewrite ?Ht, ?Ho by (auto || done); done.
Qed.

Lemma commit_finish wh (t t1 t2 t3 : Traced D) s :
  dev_ok t -> 3 <= block_count t ->
  block_count t1 = block_count t -> block_count t2 = block_count t ->
  dev_ok t3 -> block_count t3 = block_count t2 ->
  (forall b, 0 <= b < block_count t -> contents t1 b = contents t b) ->
  (forall b, 0 <= b < block_count t2 -> contents t3 b = contents t2 b) ->
  (forall b, 0 <= b < block_count t -> ~ is_slot b -> contents t2 b = contents t1 b) ->
  tr_base t3 = contents t3 -> tr_pending t3 = [] ->
  tr_points t1 = tr_points t ++ [(contents t1, [])] ->
  tr_points t3 = tr_points t2 ++ [(contents t3, [])] ->
  copies_agree (contents t) -> copies_agree (contents t2) ->
  current (contents t2) = Some s ->
  (same_validity (contents t) -> both_valid (contents t2)) ->
  moments t1 t2 (commit_safe wh (block_count t) (contents t) s) ->
  commit_post wh t t3 s.
Proof.
  intros Hok0 Hn Hn1 Hn2 Hok Hn3 Hc1 Hc3 Hc2 Hb Hp Hp1 Hp3 Ha Ha2 Hcur Hboth Hm.
  assert (Hsl : forall b, is_slot b -> contents t3 b = contents t2 b).
  { intros b Hs. apply Hc3. unfold is_slot, SUPERBLOCK_BLOCK, SUPERBLOCK_BACKUP_BLOCK in Hs. lia. }
  destruct (current_ext (contents t3) (contents t2)) as [E1 E2]; [done|].
  split; auto; try congruence.
  - intros Hv. unfold both_valid. rewrite !(slot_in_ext (contents t3) (contents t2))
      by (apply Hsl; unfold is_slot; auto). by apply Hboth.
  - intros b Hr Hs. rewrite Hc3, Hc2, Hc1 by (done || lia). done.
  - eapply moments_trans; [|eapply moments_trans; [exact Hm|]].
    + eapply moments_one; [exact Hp1|]. apply quiet_moment; auto. intros b Hb'. by apply law_contents.
    + eapply moments_one; [exact Hp3|]. intros img' Hs. apply survives_nothing in Hs as ->.
      cbn [fst]. split; [right; by rewrite E1|]. split; [auto|].
      split; [intros b Hr; apply law_contents; [done|lia]|].
      intros b Hr Hs. rewrite Hc3, Hc2, Hc1 by (done || lia). done.
Qed.

(** [write_to] after its barrier and its reads. *)
Lemma write_to_unfold (t t1 : Traced D) s :
  dev_ok t1 -> 3 <= block_count t1 -> flush t = (Ok tt, t1) ->
  let a := slot_in (contents t1) SUPERBLOCK_BLOCK in
  let b := slot_in (contents t1) SUPERBLOCK_BACKUP_BLOCK in
  write_to s t =
  sbind (if decide (a = None /\ b = None) then
           sbind (fun d => write_blocks d SUPERBLOCK_BLOCK 1 (sb_block t1 s))
             (fun _ d => write_blocks d SUPERBLOCK_BACKUP_BLOCK 1 (sb_block t1 s))
         else fun d => write_blocks d (oldest a b) 1 (sb_block t1 s))
    (fun _ => flush) t1.
Proof.
  intros Hok Hn Hf a b.
  unfold write_to. rewrite (sbind_ok _ _ _ _ _ Hf).
  assert (Hslots : forall b, is_slot b -> 0 <= b < block_count t1)
    by (unfold is_slot, SUPERBLOCK_BLOCK, SUPERBLOCK_BACKUP_BLOCK; lia).
  rewrite (sbind_gets _ _ _ a) by (apply read_slot_spec, Hslots; [done|by left]).
  rewrite (sbind_gets _ _ _ b) by (apply read_slot_spec, Hslots; [done|by right]).
  rewrite (sbind_gets _ _ _ (sb_block t1 s)) by (rewrite (law_size t1 Hok); done).
  clearbody a b.
  destruct a as [a|], b as [b|]; rewrite ?decide_True, ?decide_False by naive_solver; done.
Qed.

(** What a commit starts from: the device [t], and [t1] after the barrier. *)
Definition commit_ready (t t1 : Traced D) s : Prop :=
  dev_ok t /\ 3 <= block_count t /\ sb_typed s /\ is_valid s = true /\ copies_agree (contents t) /\
  (forall c, current (contents t) = Some c -> checkpoint_id c < checkpoint_id s) /\
  dev_ok t1 /\ block_count t1 = block_count t /\
  (forall b, 0 <= b < block_count t -> contents t1 b = contents t b) /\
  tr_base t1 = contents t1 /\ tr_pending t1 = [] /\ tr_points t1 = tr_points t ++ [(contents t1, [])].

Lemma slot_in_range (t : Traced D) b : 3 <= block_count t -> is_slot b -> 0 <= b < block_count t.
Proof. unfold is_slot, SUPERBLOCK_BLOCK, SUPERBLOCK_BACKUP_BLOCK. lia. Qed.

(** The first superblock of a device goes to both slots. *)
Lemma write_both_slots wh (t t1 : Traced D) s :
  commit_ready t t1 s ->
  slot_in (contents t) SUPERBLOCK_BLOCK = None -> slot_in (contents t) SUPERBLOCK_BACKUP_BLOCK = None ->
  exists t', sbind (sbind (fun d => write_blocks d SUPERBLOCK_BLOCK 1 (sb_block t1 s))
                     (fun _ d => write_blocks d SUPERBLOCK_BACKUP_BLOCK 1 (sb_block t1 s))) (fun _ => flush) t1 = (Ok tt, t') /\
    commit_post wh t t' s.
Proof.
  intros (Hok & Hn & Hty & Hv & Ha & Hg & Hok1 & Hn1 & Hc1 & Hb1 & Hp1 & Hm1) N1 N2.
  pose proof (slot_in_range t) as Hslots. destruct (sb_block_spec t1 s (law_size t1 Hok1) Hty) as [[Hbl Hbb] Hbs].
  assert (Hli : forall b, 0 <= b < block_count t -> block_like (contents t b)) by (intros; by apply law_contents).
  assert (Hlb : block_like (sb_block t1 s)) by by split.
  destruct (traced_write t1 SUPERBLOCK_BLOCK (sb_block t1 s)) as
    (t2 & E2 & Hok2 & Hn2 & Hc2 & Hb2 & Hp2 & Hm2); [done| |done|done|].
  { rewrite Hn1. apply Hslots; [done|]. left; done. }
  destruct (traced_write t2 SUPERBLOCK_BACKUP_BLOCK (sb_block t1 s)) as
    (t3 & E3 & Hok3 & Hn3 & Hc3 & Hb3 & Hp3 & Hm3); [done| |done|done|].
  { rewrite Hn2, Hn1. apply Hslots; [done|]. right; done. }
  destruct (traced_flush t3 Hok3) as (t4 & E4 & Hok4 & Hn4 & Hc4 & Hb4 & Hp4 & Hm4).
  exists t4. unfold sbind. rewrite E2, E3, E4. split; [done|].
  rewrite Hn1 in Hn2, Hc2. rewrite Hn2 in Hn3, Hc3.
  assert (S1 : slot_in (contents t3) SUPERBLOCK_BLOCK = Some s).
  { unfold slot_in. rewrite Hc3, Hc2 by (apply Hslots; [done|by left]).
    rewrite Z.eqb_refl. change (SUPERBLOCK_BLOCK =? SUPERBLOCK_BACKUP_BLOCK) with false.
    cbv iota. rewrite Hbs. by apply slot_of_to_bytes. }
  assert (S2 : slot_in (contents t3) SUPERBLOCK_BACKUP_BLOCK = Some s).
  { unfold slot_in. rewrite Hc3 by (apply Hslots; [done|by right]).
    rewrite Z.eqb_refl, Hbs. by apply slot_of_to_bytes. }
  apply (commit_finish wh t t1 t3 t4 s); try done.
  - intros b Hr Hs. rewrite Hc3, Hc2 by done. unfold is_slot in Hs.
    repeat case_if; first [done | exfalso; apply Hs; auto].
  - unfold copies_agree, same_generation_same. rewrite S1, S2. congruence.
  - unfold current. rewrite S1, S2. cbn. by case_if.
  - intros _. unfold both_valid. by rewrite S1, S2.
  - rewrite Hp1 in Hp2, Hm2. rewrite Hp2 in Hm3. rewrite Hb2, Hb1 in Hm3. rewrite Hb1 in Hm2.
    eapply moments_trans.
    + eapply moments_one; [exact Hm2|]. apply write_slot_moment; auto. by rewrite N1, N2.
    + eapply moments_one; [exact Hm3|]. apply write_both_moment; auto. unfold current. by rewrite N1, N2.
Qed.

(** Every later one goes to the older slot. *)
Lemma write_oldest_slot wh (t t1 : Traced D) s :
  commit_ready t t1 s ->
  ~ (slot_in (contents t) SUPERBLOCK_BLOCK = None /\ slot_in (contents t) SUPERBLOCK_BACKUP_BLOCK = None) ->
  let tg := oldest (slot_in (contents t) SUPERBLOCK_BLOCK) (slot_in (contents t) SUPERBLOCK_BACKUP_BLOCK) in
  exists t', sbind (fun d => write_blocks d tg 1 (sb_block t1 s)) (fun _ => flush) t1 = (Ok tt, t') /\ commit_post wh t t' s.
Proof.
  intros (Hok & Hn & Hty & Hv & Ha & Hg & Hok1 & Hn1 & Hc1 & Hb1 & Hp1 & Hm1) Hnone tg.
  pose proof (slot_in_range t) as Hslots. destruct (sb_block_spec t1 s (law_size t1 Hok1) Hty) as [[Hbl Hbb] Hbs].
  assert (Hli : forall b, 0 <= b < block_count t -> block_like (contents t b)) by (intros; by apply law_contents).
  assert (Hlb : block_like (sb_block t1 s)) by by split.
  assert (is_slot tg) as Hsl by (subst tg; unfold oldest, is_slot; repeat case_match; auto).
  destruct (traced_write t1 tg (sb_block t1 s)) as
    (t2 & E2 & Hok2 & Hn2 & Hc2 & Hb2 & Hp2 & Hm2); [done| |done|done|].
  { rewrite Hn1. by apply Hslots. }
  destruct (traced_flush t2 Hok2) as (t3 & E3 & Hok3 & Hn3 & Hc3 & Hb3 & Hp3 & Hm3).
  exists t3. unfold sbind. rewrite E2, E3. split; [done|]. rewrite Hn1 in Hn2, Hc2.
  assert (Hother : forall b, is_slot b -> b <> tg -> slot_in (contents t2) b = slot_in (contents t) b).
  { intros b Hb Hbt. apply slot_in_ext. rewrite Hc2, Hc1 by auto. by case_if. }
  assert (Hnew : slot_in (contents t2) tg = Some s).
  { unfold slot_in. rewrite Hc2, Z.eqb_refl, Hbs by auto. by apply slot_of_to_bytes. }
  destruct (oldest_slot_safe (contents t) (contents t2) s tg) as (_ & Hcur & Hag); auto.
  apply (commit_finish wh t t1 t2 t3 s); try done.
  - intros b Hr Hs. rewrite Hc2 by done. case_if; [by subst b|done].
  - by apply Hcur.
  - intros Hsv. apply (both_valid_after (contents t) (contents t2) s tg); auto.
  - rewrite Hp1, Hb1 in Hm2. eapply moments_one; [exact Hm2|]. by apply write_slot_moment.
Qed.

Lemma write_to_sound wh (t : Traced D) s :
  dev_ok t -> 3 <= block_count t -> sb_typed s -> is_valid s = true ->
  copies_agree (contents t) ->
  (forall c, current (contents t) = Some c -> checkpoint_id c < checkpoint_id s) ->
  exists t', write_to s t = (Ok tt, t') /\ commit_post wh t t' s.
Proof.
  intros Hok Hn Hty Hv Ha Hg.
  destruct (traced_flush t Hok) as (t1 & E1 & Hok1 & Hn1 & Hc1 & Hb1 & Hp1 & Hm1).
  assert (commit_ready t t1 s) as Hready by by split_and!.
  rewrite (write_to_unfold t t1 s) by (done || lia). cbv zeta.
  rewrite !(slot_in_ext (contents t1) (contents t)) by (apply Hc1, slot_in_range; [done|]; unfold is_slot; auto).
  case_decide as Hnone; [destruct Hnone; by apply write_both_slots|by apply write_oldest_slot].
Qed.

(** Healing. *)
Record heal_post (wh : Z -> bool) (t t' : Traced D) : Prop := mkHealPost {
  hp_ok : dev_ok t';
  hp_count : block_count t' = block_count t;
  hp_current : current (contents t') = current (contents t);
  hp_agree : copies_agree (contents t');
  hp_rest b : 0 <= b < block_count t -> ~ is_slot b -> contents t' b = contents t b;
  hp_base b : 0 <= b < block_count t -> tr_base t' b = contents t' b;
  hp_pending : tr_pending t' = [];
  hp_both : current (contents t) <> None ->
    slot_in (contents t') SUPERBLOCK_BLOCK <> None /\
    slot_in (contents t') SUPERBLOCK_BACKUP_BLOCK <> None;
  hp_moments s : current (contents t) = Some s ->
    moments t t' (commit_safe wh (block_count t) (contents t) s);
}.

Definition other_slot (loc : Z) : Z :=
  if loc =? SUPERBLOCK_BLOCK then SUPERBLOCK_BACKUP_BLOCK else SUPERBLOCK_BLOCK.

(** One slot invalid, the other [s]: whatever ends up in the invalid one, [s]
    stays in force. *)
Lemma healing_safe (img img' : image) loc s :
  is_slot loc -> slot_in img loc = None -> slot_in img (other_slot loc) = Some s ->
  slot_in img' (other_slot loc) = Some s ->
  slot_in img' loc = None \/ slot_in img' loc = Some s ->
  current img = Some s /\ current img' = Some s /\ copies_agree img'.
Proof.
  unfold current, copies_agree, same_generation_same, other_slot.
  intros [-> | ->]; cbn [Z.eqb Pos.eqb SUPERBLOCK_BLOCK SUPERBLOCK_BACKUP_BLOCK];
    intros -> -> -> [-> | ->]; cbn; repeat case_if; split_and!; congruence.
Qed.

Lemma heal_one wh (t : Traced D) loc s :
  dev_ok t -> 3 <= block_count t -> tr_pending t = [] ->
  (forall b, 0 <= b < block_count t -> tr_base t b = contents t b) ->
  is_slot loc -> slot_in (contents t) loc = None ->
  slot_in (contents t) (other_slot loc) = Some s ->
  exists t2 t', write_blocks t loc 1 (sb_block t s) = (Ok tt, t2) /\ flush t2 = (Ok tt, t') /\
    heal_post wh t t'.
Proof.
  intros Hok Hn Hp Hb Hl HN HS.
  assert (Hslots : forall b, is_slot b -> 0 <= b < block_count t)
    by (unfold is_slot, SUPERBLOCK_BLOCK, SUPERBLOCK_BACKUP_BLOCK; lia).
  assert (Hother : is_slot (other_slot loc) /\ other_slot loc <> loc).
  { unfold other_slot, is_slot. destruct Hl as [-> | ->]; cbn; auto. }
  destruct Hother as [Hos Hol].
  destruct (slot_in_typed (contents t) (other_slot loc) s) as [Hty Hv]; [|done|].
  { apply law_contents; auto. }
  destruct (sb_block_spec t s (law_size t Hok) Hty) as [[Hbl Hbb] Hbs].
  destruct (traced_write t loc (sb_block t s)) as
    (t2 & E2 & Hok2 & Hn2 & Hc2 & Hb2 & Hp2 & Hm2); auto.
  destruct (traced_flush t2 Hok2) as (t3 & E3 & Hok3 & Hn3 & Hc3 & Hb3 & Hp3 & Hm3).
  exists t2, t3. split_and!; [done..|]. rewrite Hn2 in Hn3, Hc3. rewrite Hp in Hp2, Hm2. cbn in Hp2, Hm2.
  assert (C : forall b, 0 <= b < block_count t ->
            contents t3 b = if b =? loc then sb_block t s else contents t b)
    by (intros; rewrite Hc3, Hc2; done).
  assert (So : forall i : image, i (other_slot loc) = contents t (other_slot loc) ->
            slot_in i (other_slot loc) = Some s) by (intros; by rewrite (slot_in_ext _ (contents t))).
  assert (Ss : slot_in (contents t3) loc = Some s).
  { unfold slot_in. rewrite C, Z.eqb_refl, Hbs by auto. by apply slot_of_to_bytes. }
  assert (So3 : slot_in (contents t3) (other_slot loc) = Some s).
  { apply So. rewrite C by auto. by case_if. }
  destruct (healing_safe (contents t) (contents t3) loc s) as (C0 & C3 & A3); auto.
  split; auto; try congruence.
  - intros b Hr Hs. rewrite C by done. case_if; [by subst b|done].
  - intros _. destruct Hl as [-> | ->];
      [change (other_slot SUPERBLOCK_BLOCK) with SUPERBLOCK_BACKUP_BLOCK in So3
      |change (other_slot SUPERBLOCK_BACKUP_BLOCK) with SUPERBLOCK_BLOCK in So3]; split; congruence.
  - rewrite C0. intros ? [= <-]. eapply moments_trans; (eapply moments_one; [eassumption|]).
    + intros img' Hs. cbn [fst snd] in Hs.
      assert (Hlike : forall b, 0 <= b < block_count t -> block_like (img' b)).
      { intros b Hr. eapply survives_like; [exact Hs|by repeat constructor|].
        rewrite Hb by done. by apply law_contents. }
      apply survives_one in Hs as [Ho Hat].
      destruct (healing_safe (contents t) img' loc s) as (_ & C' & A'); auto.
      * apply So. rewrite Ho, Hb by auto. done.
      * unfold slot_in in *. destruct Hat as [-> |[-> |[_ [_ E]]]].
        -- left. by rewrite Hb by auto.
        -- right. rewrite Hbs. by apply slot_of_to_bytes.
        -- cbn [sector_valid slot_power] in E. apply torn_slot in E.
           rewrite Hb, HN, Hbs, slot_of_to_bytes in E by auto. tauto.
      * split; [auto|]. split; [done|]. split; [done|].
        intros b Hr Hs. rewrite Ho by (by intros ->). by apply Hb.
    + intros img' Hs. apply survives_nothing in Hs as ->. cbn [fst]. split; [auto|]. split; [done|].
      split; [intros b Hr; apply law_contents; [done|lia]|].
      intros b Hr Hs. rewrite C by done. case_if; [by subst b|done].
Qed.

Lemma heal_slots_sound wh (t : Traced D) :
  dev_ok t -> 3 <= block_count t -> tr_pending t = [] ->
  (forall b, 0 <= b < block_count t -> tr_base t b = contents t b) ->
  copies_agree (contents t) ->
  exists k t', heal_slots t = (Ok k, t') /\ heal_post wh t t'.
Proof.
  intros Hok Hn Hp Hb Ha.
  assert (Hslots : forall b, is_slot b -> 0 <= b < block_count t)
    by (unfold is_slot, SUPERBLOCK_BLOCK, SUPERBLOCK_BACKUP_BLOCK; lia).
  unfold heal_slots.
  rewrite (sbind_gets _ _ _ (slot_in (contents t) SUPERBLOCK_BLOCK))
    by (apply read_slot_spec, Hslots; [done|by left]).
  rewrite (sbind_gets _ _ _ (slot_in (contents t) SUPERBLOCK_BACKUP_BLOCK))
    by (apply read_slot_spec, Hslots; [done|by right]).
  assert (Hsame : (slot_in (contents t) SUPERBLOCK_BLOCK <> None <->
                   slot_in (contents t) SUPERBLOCK_BACKUP_BLOCK <> None) -> heal_post wh t t).
  { intros E. split; auto using moments_refl. unfold current.
    destruct (slot_in _ SUPERBLOCK_BLOCK), (slot_in _ SUPERBLOCK_BACKUP_BLOCK); cbn; clear -E; naive_solver. }
  assert (Hheal : forall loc s, is_slot loc -> slot_in (contents t) loc = None ->
      slot_in (contents t) (other_slot loc) = Some s ->
      exists k t', sbind (sgets (fun d : Traced D => if block_size d <? 512 then Panic else Ok (sb_block d s)))
        (fun block => sbind (fun d => write_blocks d loc 1 block)
          (fun _ => sbind flush (fun _ => sret 1))) t = (Ok k, t') /\ heal_post wh t t').
  { intros loc s H1' H2' H3'.
    destruct (heal_one wh t loc s) as (t2 & t3 & E2 & E3 & Hpost); auto.
    exists 1, t3. split; [|done].
    rewrite (sbind_gets _ _ _ (sb_block t s)) by (rewrite (law_size t Hok); done).
    by rewrite (sbind_ok _ _ _ _ _ E2), (sbind_ok _ _ _ _ _ E3). }
  destruct (slot_in _ SUPERBLOCK_BLOCK) as [a|] eqn:Ea, (slot_in _ SUPERBLOCK_BACKUP_BLOCK) as [b|] eqn:Eb.
  - exists 0, t. split; [done|]. by apply Hsame.
  - apply Hheal; [by right|done|]. by change (other_slot SUPERBLOCK_BACKUP_BLOCK) with SUPERBLOCK_BLOCK.
  - apply Hheal; [by left|done|]. by change (other_slot SUPERBLOCK_BLOCK) with SUPERBLOCK_BACKUP_BLOCK.
  - exists 0, t. split; [done|]. by apply Hsame.
Qed.

Lemma read_from_spec (d : D) :
  dev_ok d -> 3 <= block_count d ->
  read_from d = match current (contents d) with Some s => Ok s | None => Err Fs.Corruption end.
Proof.
  intros Hok Hn. unfold read_from, current.
  rewrite !read_slot_spec by (done || unfold SUPERBLOCK_BLOCK, SUPERBLOCK_BACKUP_BLOCK; lia). cbn [obind].
  destruct (slot_in _ SUPERBLOCK_BLOCK), (slot_in _ SUPERBLOCK_BACKUP_BLOCK); cbn; try case_if; done.
Qed.

Lemma degraded_slots_spec {E} (d : D) :
  dev_ok d -> 3 <= block_count d ->
  degraded_slots (E := E) d = Ok
    ((if slot_in (contents d) SUPERBLOCK_BLOCK is Some _ then 0 else 1) +
     (if slot_in (contents d) SUPERBLOCK_BACKUP_BLOCK is Some _ then 0 else 1)).
Proof.
  intros Hok Hn. unfold degraded_slots.
  by rewrite !read_slot_spec by (done || unfold SUPERBLOCK_BLOCK, SUPERBLOCK_BACKUP_BLOCK; lia).
Qed.
End commit.
End slots.

(** ** The properties *)

(** The 512-byte on-disk form of a superblock decodes to the superblock it
    was made from, every 512-byte buffer is the on-disk form of what it decodes
    to, and a freshly made superblock passes validation. *)
Lemma superblock_roundtrip `{Xxh3} s b total u now :
  sb_typed s -> zlen b = 512 -> bytes_ok b ->
  is_u64 total -> is_u64 now -> zlen u = 16 -> bytes_ok u ->
  from_bytes (to_bytes s) = s /\ zlen (to_bytes s) = 512 /\
  to_bytes (from_bytes b) = b /\ sb_typed (from_bytes b) /\
  is_valid (new_empty total u now) = true /\ sb_typed (new_empty total u now).
Proof.
  intros Hs Hl Hb Ht Hn Hu Hub.
  set (sb := mkSb EUROFS_MAGIC 0 1 u 4096 total (saturating_sub total 16) 16 now 0 now 1 3 11 12 1 0
    (zrepeat 0 64) (zrepeat 0 48) 0 (zrepeat 0 271)).
  assert (sb_typed sb).
  { unfold saturating_sub, EUROFS_MAGIC in *. split; cbn; try ulia; split; auto with euro.
    repeat constructor; ulia. }
  split_and!; auto using from_to_bytes, zlen_to_bytes, to_from_bytes, from_bytes_typed.
  - by apply sealed_valid.
  - apply sb_typed_set_checksum; [done|apply xxh3_64_u64].
Qed.

(** C18 Committing a superblock with a higher generation returns, puts it in
    force and makes it durable without touching any other block; and if the
    power fails at any moment of the commit, with writes lost, reordered or
    torn, a reader finds the old or the new superblock in force, all other
    blocks being those of the state before the commit. *)
Theorem write_to_crash_safe `{Xxh3} `{LawfulDevice D} wh (t : Traced D) s :
  dev_ok t -> 3 <= block_count t -> sb_typed s -> is_valid s = true ->
  copies_agree (contents t) ->
  (forall c, current (contents t) = Some c -> checkpoint_id c < checkpoint_id s) ->
  exists t', write_to s t = (Ok tt, t') /\ commit_post wh t t' s /\ read_from t' = Ok s.
Proof.
  intros Hok Hn Hty Hv Ha Hg.
  destruct (write_to_sound wh t s Hok Hn Hty Hv Ha Hg) as (t' & E & Hp).
  exists t'. split; [done|]. split; [done|]. destruct Hp as [Hok' Hn' Hc' _ _ _ _ _ _].
  rewrite read_from_spec by (done || lia). by rewrite Hc'.
Qed.

(** C19 Self-healing of the two slots returns, keeps the superblock in force,
    leaves no slot invalid if one was valid, touches no other block, and keeps
    the superblock in force at every moment at which the power may fail. *)
Theorem heal_slots_safe `{Xxh3} `{LawfulDevice D} wh (t : Traced D) :
  dev_ok t -> 3 <= block_count t -> tr_pending t = [] ->
  (forall b, 0 <= b < block_count t -> tr_base t b = contents t b) ->
  copies_agree (contents t) ->
  exists k t', heal_slots t = (Ok k, t') /\ heal_post wh t t' /\
    (current (contents t) <> None -> degraded_slots (E := Fs.FsError) t' = Ok 0).
Proof.
  intros Hok Hn Hp Hb Ha. destruct (heal_slots_sound wh t Hok Hn Hp Hb Ha) as (k & t' & E & Hpost).
  exists k, t'. split; [done|]. split; [done|]. intros Hc.
  destruct Hpost as [Hok' Hn' _ _ _ _ _ Hboth _]. rewrite degraded_slots_spec by (done || lia).
  destruct (Hboth Hc). by repeat case_match.
Qed.

(** ** Witnesses *)

Section witness.
#[local] Existing Instance demo_xxh3.

Definition demo_sb : EuroFsSuperblock := new_empty 3 (zrepeat 7 16) 5.

Lemma demo_sb_ok : sb_typed demo_sb /\ is_valid demo_sb = true.
Proof.
  split; [|by vm_compute].
  split; vm_compute; try (split; congruence); (split; [done|]); repeat constructor; congruence.
Qed.

Definition demo_dev : Traced MemoryBlockDevice := power_on (blank 3).

Lemma demo_dev_ok : dev_ok demo_dev /\ block_count demo_dev = 3.
Proof. apply (blank_ok 3); done. Qed.

Lemma demo_dev_empty : current (contents demo_dev) = None /\ copies_agree (contents demo_dev).
Proof.
  assert (slot_in (contents demo_dev) SUPERBLOCK_BLOCK = None) as E by by vm_compute.
  split; [by vm_compute|exact (copies_agree_none _ E)].
Qed.

Lemma superblock_roundtrip_witness :
  from_bytes (to_bytes demo_sb) = demo_sb /\ is_valid (new_empty 3 (zrepeat 7 16) 5) = true.
Proof.
  destruct (superblock_roundtrip demo_sb (zrepeat 0 512) 3 (zrepeat 7 16) 5)
    as (E & _ & _ & _ & V & _);
    [apply demo_sb_ok|by vm_compute|apply bytes_ok_zrepeat|ulia|ulia|by vm_compute
    |apply Forall_replicate; ulia|].
  split; [exact E|exact V].
Defined.

Lemma write_to_crash_safe_witness :
  exists t', write_to demo_sb demo_dev = (Ok tt, t') /\ read_from t' = Ok demo_sb.
Proof.
  destruct demo_dev_ok as [Hok Hn]. destruct demo_sb_ok as [Ht Hv]. destruct demo_dev_empty as [Hc Ha].
  destruct (write_to_crash_safe (fun _ => false) demo_dev demo_sb) as (t' & E & _ & R);
    [done|lia|done|done|done|by rewrite Hc|].
  exists t'. split; [exact E|exact R].
Defined.

(** The backup slot holds the superblock, the other one is torn. *)
Definition demo_torn : Traced MemoryBlockDevice :=
  power_on (mkMem (zrepeat 0 (2 * BS) ++ to_bytes demo_sb ++ zrepeat 0 (BS - 512)) BS 0 []).

Lemma demo_torn_ok :
  dev_ok demo_torn /\ block_count demo_torn = 3 /\
  current (contents demo_torn) = Some demo_sb /\ copies_agree (contents demo_torn).
Proof.
  assert (E1 : slot_in (contents demo_torn) SUPERBLOCK_BLOCK = None) by by vm_compute.
  refine (conj _ (conj _ (conj _ _)));
    [|by vm_compute|by vm_compute|exact (copies_agree_none _ E1)].
  split.
  - reflexivity.
  - apply bytes_ok_app; [apply bytes_ok_zrepeat|].
    apply bytes_ok_app; [apply bytes_ok_to_bytes, demo_sb_ok|apply bytes_ok_zrepeat].
  - exists 3. by vm_compute.
  - vm_compute. congruence.
Qed.

Lemma heal_slots_safe_witness :
  exists k t', heal_slots demo_torn = (Ok k, t') /\ degraded_slots (E := Fs.FsError) t' = Ok 0.
Proof.
  destruct demo_torn_ok as (Hok & Hn & Hc & Ha).
  destruct (heal_slots_safe (fun _ => false) demo_torn) as (k & t' & E & _ & R);
    [done|lia|done|done|done|].
  exists k, t'. split; [exact E|]. apply R. by rewrite Hc.
Defined.
End witness.

End Superblock.
