(* ===== verification/Layout.v ===== *)
(** The on-disk formats of [src/crates/eurofs/src/disk.rs]: inode blocks,
    directory entries, the object-map table, the snapshot table and the quota
    table, each with its encoder and decoder, and the round-trip theorems. *)

From S2P Require Import Prelude Bytes Block Checksum Fs Utf8 BTree.
Import Block Fs Utf8 BTree.

Module Layout.

Definition INODE_MAGIC : Z := 1162234190. (* 0x4546_494E *)
Definition ROOT_OID : Z := 1.

Definition OFF_MAGIC : Z := 0.
Definition OFF_UID : Z := 4.
Definition OFF_OID : Z := 8.
Definition OFF_PARENT : Z := 16.
Definition OFF_TYPE : Z := 24.
Definition OFF_FLAGS : Z := 28.
Definition OFF_MODE : Z := 26.
Definition OFF_SIZE : Z := 32.
Definition OFF_INLINE_LEN : Z := 40.
Definition OFF_EXTENT_COUNT : Z := 44.
Definition OFF_MTIME : Z := 48.
Definition OFF_DATA_CHECKSUM : Z := 56.
Definition OFF_EXTENTS : Z := 64.
Definition MAX_EXTENTS : Z := 8.
Definition OFF_INLINE : Z := 192.
Definition OFF_CHECKSUM : Z := 4088.
Definition INLINE_CAP : Z := 3896.

Definition TYPE_FILE : Z := 1.
Definition TYPE_DIR : Z := 2.
Definition TYPE_SYMLINK : Z := 3.
Definition SYMLINK_MAX_HOPS : Z := 40.

Definition DIRENT_SIZE : Z := 64.
Definition DIRENT_NAME_CAP : Z := 48.

(** The writes of a loop [for (i, x) in l.iter().enumerate()]. *)
Fixpoint fields_from {A} (mk : Z -> A -> list field) (i : Z) (l : list A) : list field :=
  match l with
  | [] => []
  | x :: l' => mk i x ++ fields_from mk (i + 1) l'
  end.

(** ** Inodes *)

Record Inode := mkInode {
  oid : Z;
  iparent : Z;
  otype : Z;
  flags : Z;
  uid : Z;
  mode : Z;
  size : Z;
  mtime : Z;
  data_checksum : Z;
  extents : list (Z * Z);
  inline : list Z;
}.

Definition inode_new (o p t now : Z) : Inode :=
  {| oid := o; iparent := p; otype := t; flags := 0; uid := 0;
     mode := if t =? TYPE_DIR then 493 else 420;
     size := 0; mtime := now; data_checksum := 0; extents := []; inline := [] |}.

Definition extent_fields (i : Z) (e : Z * Z) : list field :=
  let o := OFF_EXTENTS + i * 16 in
  [(o, u64f (fst e)); (o + 8, u32f (snd e))].

(** The writes of [Inode::encode] before the checksum, in order. *)
Definition inode_fields (n : Inode) : list field :=
  [ (OFF_MAGIC, u32f INODE_MAGIC);
    (OFF_UID, u32f (uid n));
    (OFF_OID, u64f (oid n));
    (OFF_PARENT, u64f (iparent n));
    (OFF_TYPE, u8f (otype n));
    (OFF_FLAGS, u32f (flags n));
    (OFF_MODE, u16f (mode n));
    (OFF_SIZE, u64f (size n));
    (OFF_MTIME, u64f (mtime n));
    (OFF_DATA_CHECKSUM, u64f (data_checksum n));
    (OFF_INLINE_LEN, u32f (zlen (inline n)));
    (OFF_EXTENT_COUNT, u32f (zlen (extents n))) ]
  ++ fields_from extent_fields 0 (extents n)
  ++ (if inline n is [] then [] else [(OFF_INLINE, inline n)]).

(** [b[o..o+n]] panics past the end of the block. *)
Definition fits (n : Z) (f : field) : bool := fst f + zlen (snd f) <=? n.

Section codec.
Context `{Xxh3}.

Definition encode (n : Inode) : outcome FsError (list Z) :=
  let fs := inode_fields n in
  if forallb (fits BS) fs then
    let b := put_all (zrepeat 0 BS) fs in
    let csum := xxh3_64 (slice b 0 OFF_CHECKSUM) in
    Ok (put b (OFF_CHECKSUM, u64f csum))
  else Panic.

Definition decode (b : list Z) : outcome FsError Inode :=
  if negb (rd_u32 b OFF_MAGIC =? INODE_MAGIC) then Err Corruption
  else if negb (rd_u64 b OFF_CHECKSUM =? xxh3_64 (slice b 0 OFF_CHECKSUM)) then Err Corruption
  else
    let inline_len := rd_u32 b OFF_INLINE_LEN in
    let ext_count := rd_u32 b OFF_EXTENT_COUNT in
    if MAX_EXTENTS <? ext_count then Err Corruption
    else
      let exts := map (fun i => (rd_u64 b (OFF_EXTENTS + i * 16), rd_u32 b (OFF_EXTENTS + i * 16 + 8)))
                    (zrange 0 ext_count) in
      if zlen b <? OFF_INLINE + inline_len then Panic
      else Ok {|
        oid := rd_u64 b OFF_OID;
        iparent := rd_u64 b OFF_PARENT;
        otype := at_ 0 b OFF_TYPE;
        flags := rd_u32 b OFF_FLAGS;
        uid := rd_u32 b OFF_UID;
        mode := rd_u16 b OFF_MODE;
        size := rd_u64 b OFF_SIZE;
        mtime := rd_u64 b OFF_MTIME;
        data_checksum := rd_u64 b OFF_DATA_CHECKSUM;
        extents := exts;
        inline := slice b OFF_INLINE inline_len;
      |}.
End codec.

(** Widths of the fields, and what fits one block. *)
Record inode_ok (n : Inode) : Prop := mkInodeOk {
  io_oid : is_u64 (oid n);
  io_parent : is_u64 (iparent n);
  io_type : is_u8 (otype n);
  io_flags : is_u32 (flags n);
  io_uid : is_u32 (uid n);
  io_mode : is_u16 (mode n);
  io_size : is_u64 (size n);
  io_mtime : is_u64 (mtime n);
  io_sum : is_u64 (data_checksum n);
  io_extents : Forall (fun e => is_u64 (fst e) /\ is_u32 (snd e)) (extents n);
  io_count : zlen (extents n) <= MAX_EXTENTS;
  io_inline : bytes_ok (inline n);
  io_inline_len : zlen (inline n) <= INLINE_CAP;
}.

(** ** Directory entries *)

Definition dirent : Type := list Z * Z * Z.

Definition dirent_fields (i : Z) (e : dirent) : list field :=
  let '(name, o, t) := e in
  let off := i * DIRENT_SIZE in
  let n := Z.min (zlen name) DIRENT_NAME_CAP in
  [ (off, u64f o); (off + 8, u8f t); (off + 9, u8f n); (off + 16, slice name 0 n) ].

Definition encode_dir_entries (entries : list dirent) : list Z :=
  put_all (zrepeat 0 (zlen entries * DIRENT_SIZE)) (fields_from dirent_fields 0 entries).

(** The loop of [read_dir_entries] over the directory's data. *)
Definition parse_dirent (data : list Z) (i : Z) : list dirent :=
  let o := i * DIRENT_SIZE in
  let id := rd_u64 data o in
  let t := at_ 0 data (o + 8) in
  let name_len := at_ 0 data (o + 9) in
  if negb (id =? 0) && (name_len <=? DIRENT_NAME_CAP)
  then [(from_utf8_lossy (slice data (o + 16) name_len), id, t)]
  else [].

Definition parse_dir (data : list Z) : list dirent :=
  concat (map (parse_dirent data) (zrange 0 (zlen data / DIRENT_SIZE))).

(** A name the directory can hold: [check_name] passed. *)
Record dirent_ok (e : dirent) : Prop := mkDirentOk {
  de_name : valid_utf8 (fst (fst e)) = true;
  de_len : zlen (fst (fst e)) <= DIRENT_NAME_CAP;
  de_bytes : bytes_ok (fst (fst e));
  de_oid : is_u64 (snd (fst e)) /\ snd (fst e) <> 0;
  de_type : is_u8 (snd e);
}.

(** ** The object map *)

Definition objmap_fields (i : Z) (e : Z * Z) : list field :=
  let o := 8 + i * 16 in
  [(o, u64f (fst e)); (o + 8, u64f (snd e))].

Definition objmap_blocks (m : list (Z * Z)) : Z :=
  Z.max (div_ceil (8 + zlen m * 16) BS) 1.

Definition encode_objmap (m : list (Z * Z)) : list Z :=
  put_all (zrepeat 0 (objmap_blocks m * BS))
    ((0, u64f (zlen m)) :: fields_from objmap_fields 0 m).

(** The entries in the table, bounded by what is present as data. *)
Definition table_entries (data : list Z) : list (Z * Z) :=
  let max_entries := saturating_sub (zlen data) 8 / 16 in
  let count := Z.min (rd_u64 data 0) max_entries in
  map (fun i => (rd_u64 data (8 + i * 16), rd_u64 data (8 + i * 16 + 8))) (zrange 0 count).

Definition decode_objmap (data : list Z) : list (Z * Z) := bt_of_list (table_entries data).

(** ** The snapshot table *)

Definition SNAPSHOT_TABLE_BLOCK : Z := 8.
Definition SNAPSHOT_MAGIC : Z := 1397116499. (* 0x5346_4E53 *)
Definition QUOTA_TABLE_BLOCK : Z := 9.
Definition QUOTA_MAGIC : Z := 1096044869. (* 0x4154_5145 *)
Definition QUOTA_ENTRY_LEN : Z := 12.
Definition MAX_QUOTA_ENTRIES : Z := 340.
Definition MAX_SNAPSHOTS : Z := 32.
Definition SNAP_ENTRY_LEN : Z := 80.

Record SnapshotEntry := mkSnap {
  sn_id : Z;
  sn_parent : Z;
  sn_timestamp : Z;
  sn_objmap_root : Z;
  sn_map_blocks : Z;
  sn_checkpoint_id : Z;
  sn_flags : Z;
  sn_label : list Z;
}.

Definition snapshot_fields (i : Z) (s : SnapshotEntry) : list field :=
  let o := 8 + i * SNAP_ENTRY_LEN in
  [ (o, u64f (sn_id s));
    (o + 8, u64f (sn_parent s));
    (o + 16, u64f (sn_timestamp s));
    (o + 24, u64f (sn_objmap_root s));
    (o + 32, u64f (sn_map_blocks s));
    (o + 40, u64f (sn_checkpoint_id s));
    (o + 48, u32f (sn_flags s));
    (o + 52, slice (sn_label s) 0 (Z.min (zlen (sn_label s)) 28)) ].

Definition encode_snapshots (l : list SnapshotEntry) : list Z :=
  put_all (zrepeat 0 BS)
    ((0, u32f SNAPSHOT_MAGIC) :: (4, u32f (Z.min (zlen l) MAX_SNAPSHOTS)) ::
     fields_from snapshot_fields 0 (take (Z.to_nat MAX_SNAPSHOTS) l)).

(** The label ends at its first zero byte. *)
Fixpoint until_zero (l : list Z) : list Z :=
  match l with
  | [] => []
  | b :: l' => if b =? 0 then [] else b :: until_zero l'
  end.

Definition parse_snapshot (b : list Z) (i : Z) : SnapshotEntry :=
  let o := 8 + i * SNAP_ENTRY_LEN in
  {| sn_id := rd_u64 b o;
     sn_parent := rd_u64 b (o + 8);
     sn_timestamp := rd_u64 b (o + 16);
     sn_objmap_root := rd_u64 b (o + 24);
     sn_map_blocks := rd_u64 b (o + 32);
     sn_checkpoint_id := rd_u64 b (o + 40);
     sn_flags := rd_u32 b (o + 48);
     sn_label := from_utf8_lossy (until_zero (slice b (o + 52) 28)) |}.

(** [None]: not a snapshot table. *)
Definition decode_snapshots (b : list Z) : option (list SnapshotEntry) :=
  if rd_u32 b 0 =? SNAPSHOT_MAGIC then
    Some (map (parse_snapshot b) (zrange 0 (Z.min (rd_u32 b 4) MAX_SNAPSHOTS)))
  else None.

(** ** The quota table *)

Definition quota_fields (i : Z) (e : Z * Z) : list field :=
  let o := 8 + i * QUOTA_ENTRY_LEN in
  [(o, u32f (fst e)); (o + 4, u64f (snd e))].

Definition encode_quota (m : list (Z * Z)) : list Z :=
  put_all (zrepeat 0 BS)
    ((0, u32f QUOTA_MAGIC) :: (4, u32f (Z.min (zlen m) MAX_QUOTA_ENTRIES)) ::
     fields_from quota_fields 0 (take (Z.to_nat MAX_QUOTA_ENTRIES) m)).

Definition parse_quota (b : list Z) (i : Z) : Z * Z :=
  let o := 8 + i * QUOTA_ENTRY_LEN in (rd_u32 b o, rd_u64 b (o + 4)).

Definition decode_quota (b : list Z) : option (list (Z * Z)) :=
  if rd_u32 b 0 =? QUOTA_MAGIC then
    let count := Z.min (rd_u32 b 4) MAX_QUOTA_ENTRIES in
    Some (bt_of_list
      (List.filter (fun e : Z * Z => negb (fst e =? 0) && negb (snd e =? 0))
        (map (parse_quota b) (zrange 0 count))))
  else None.

(** ** Reading a table back *)

Lemma le_val_u16f v : is_u16 v -> le_val (u16f v) = v.
Proof. intros. apply le_val_bytes. ulia. Qed.
Lemma le_val_u32f v : is_u32 v -> le_val (u32f v) = v.
Proof. intros. apply le_val_bytes. ulia. Qed.
Lemma le_val_u64f v : is_u64 v -> le_val (u64f v) = v.
Proof. intros. apply le_val_bytes. ulia. Qed.

Lemma at_u8f v : at_ 0 (u8f v) 0 = v.
Proof. done. Qed.

(** Solve side conditions on literal fields. *)
Ltac flia :=
  unfold inside, apart, fits, OFF_MAGIC, OFF_UID, OFF_OID, OFF_PARENT, OFF_TYPE, OFF_FLAGS, OFF_MODE,
    OFF_SIZE, OFF_INLINE_LEN, OFF_EXTENT_COUNT, OFF_MTIME, OFF_DATA_CHECKSUM, OFF_EXTENTS in *;
  cbn [fst snd] in *;
  autorewrite with zlen in *; lia.

(** [Forall] over a literal list of fields. *)
Ltac fields_lia :=
  cbn [drop]; repeat first [apply Forall_nil_2 | apply Forall_cons_2]; flia.

(** The bytes of a literal list of fields. *)
Ltac fields_bytes :=
  repeat match goal with
  | |- Forall _ (_ :: _) => apply Forall_cons_2
  | |- Forall _ [] => apply Forall_nil_2
  end; cbn [snd]; auto with euro.

Section tables.
Context {A : Type}.
Implicit Types (mk : Z -> A -> list field) (l : list A).

Lemma fields_from_app mk i l1 l2 :
  fields_from mk i (l1 ++ l2) = fields_from mk i l1 ++ fields_from mk (i + zlen l1) l2.
Proof.
  revert i. induction l1 as [|x l1 IH]; intros i; cbn [fields_from app].
  - by rewrite zlen_nil, Z.add_0_r.
  - rewrite IH, app_assoc, zlen_cons. do 2 f_equal. lia.
Qed.

Lemma fields_from_forall (P : field -> Prop) mk i l :
  (forall j x, i <= j < i + zlen l -> x ∈ l -> Forall P (mk j x)) -> Forall P (fields_from mk i l).
Proof.
  revert i. induction l as [|x l IH]; intros i H; cbn [fields_from]; [constructor|].
  rewrite zlen_cons in H. pose proof (zlen_nonneg l).
  apply Forall_app. split; [apply H; [lia|by left]|].
  apply IH. intros j y Hj Hy. apply H; [lia|by right].
Qed.

(** Entry [i] lies in its own window of [stride] bytes. *)
Definition windowed (base stride : Z) mk : Prop :=
  forall j x, Forall (fun f : field => base + j * stride <= fst f /\
    fst f + zlen (snd f) <= base + (j + 1) * stride) (mk j x).

Lemma windowed_inside base stride mk n l :
  windowed base stride mk -> 0 <= base -> 0 <= stride -> base + zlen l * stride <= n ->
  Forall (inside n) (fields_from mk 0 l).
Proof.
  intros Hw Hb Hs Hn. apply fields_from_forall. intros j x Hj _.
  eapply Forall_impl; [apply Hw|]. intros f [Hf1 Hf2]. unfold inside.
  assert ((j + 1) * stride <= zlen l * stride) by (apply Z.mul_le_mono_nonneg_r; lia).
  assert (0 <= j * stride) by (apply Z.mul_nonneg_nonneg; lia). lia.
Qed.

(** A field of entry [k] reads back. *)
Lemma table_field base stride mk (b : list Z) hs l k x n f o w :
  windowed base stride mk -> 0 <= stride -> 0 <= base ->
  Forall (inside (zlen b)) hs -> base + zlen l * stride <= zlen b ->
  l !! k = Some x -> mk (Z.of_nat k) x !! n = Some f ->
  Forall (apart f) (drop (S n) (mk (Z.of_nat k) x)) ->
  fst f = o -> zlen (snd f) = w ->
  slice (put_all b (hs ++ fields_from mk 0 l)) o w = snd f.
Proof.
  intros Hw Hs Hb Hhs Hl Hk Hn Hap Ho Hwd.
  pose proof (windowed_inside base stride mk (zlen b) l Hw Hb Hs Hl) as Hin.
  pose proof (take_drop_middle l k x Hk) as El. pose proof (take_drop_middle _ n f Hn) as Em.
  assert (Hlen : zlen (take k l) = Z.of_nat k).
  { unfold zlen. rewrite length_take. apply lookup_lt_Some in Hk. lia. }
  rewrite <- El in Hin |- *. rewrite fields_from_app in Hin |- *. rewrite Hlen, Z.add_0_l in *.
  cbn [fields_from] in *. rewrite <- Em in Hin |- *. rewrite <- app_assoc in Hin |- *.
  cbn [app] in *. rewrite !app_assoc. rewrite app_assoc in Hin.
  apply slice_put_all; [|  |done|done].
  - rewrite !Forall_app, !Forall_cons, !Forall_app in *. tauto.
  - apply Forall_app. split; [done|]. apply fields_from_forall. intros j y Hj _.
    eapply Forall_impl; [apply Hw|]. intros g [Hg1 Hg2].
    assert (f ∈ mk (Z.of_nat k) x) as Hf by by eapply list_elem_of_lookup_2.
    pose proof (Hw (Z.of_nat k) x) as Hfw. rewrite Forall_forall in Hfw. apply Hfw in Hf.
    unfold apart. left.
    assert ((Z.of_nat k + 1) * stride <= j * stride) by (apply Z.mul_le_mono_nonneg_r; lia). lia.
Qed.

(** A header field reads back: the entries lie behind it. *)
Lemma table_header base stride mk (b : list Z) hs l n f o w :
  windowed base stride mk -> 0 <= stride -> 0 <= base ->
  Forall (fun g => inside base g) hs -> base + zlen l * stride <= zlen b ->
  hs !! n = Some f -> Forall (apart f) (drop (S n) hs) ->
  fst f = o -> zlen (snd f) = w ->
  slice (put_all b (hs ++ fields_from mk 0 l)) o w = snd f.
Proof.
  intros Hw Hs Hb Hhs Hl Hn Hap Ho Hwd. pose proof (zlen_nonneg l).
  pose proof (windowed_inside base stride mk (zlen b) l Hw Hb Hs Hl) as Hin.
  pose proof (take_drop_middle _ n f Hn) as Em.
  assert (Hf : inside base f) by (rewrite Forall_forall in Hhs; by eapply Hhs, list_elem_of_lookup_2).
  assert (Hhs' : Forall (inside (zlen b)) hs).
  { eapply Forall_impl; [exact Hhs|]. unfold inside.
    assert (0 <= zlen l * stride) by (apply Z.mul_nonneg_nonneg; lia). lia. }
  rewrite <- Em in Hhs' |- *. rewrite <- app_assoc. cbn [app].
  apply slice_put_all; [|  |done|done].
  - rewrite !Forall_app, !Forall_cons, !Forall_app in *. tauto.
  - apply Forall_app. split; [done|]. apply fields_from_forall. intros j y Hj _.
    eapply Forall_impl; [apply Hw|]. intros g [Hg1 Hg2]. unfold apart, inside in *. left.
    assert (0 <= j * stride) by (apply Z.mul_nonneg_nonneg; lia). lia.
Qed.

End tables.

(** Directories. *)
Lemma zlen_name_field (name : list Z) m :
  0 <= m -> zlen (slice name 0 (Z.min (zlen name) m)) = Z.min (zlen name) m.
Proof. intros. apply zlen_slice; pose proof (zlen_nonneg name); lia. Qed.

Lemma dirent_windowed : windowed 0 DIRENT_SIZE dirent_fields.
Proof.
  intros j [[name o] t]. unfold dirent_fields, DIRENT_SIZE, DIRENT_NAME_CAP.
  pose proof (zlen_name_field name 48 ltac:(lia)).
  repeat constructor; cbn [fst snd]; autorewrite with zlen; lia.
Qed.

Lemma zlen_encode_dir es : zlen (encode_dir_entries es) = zlen es * DIRENT_SIZE.
Proof.
  pose proof (zlen_nonneg es). unfold encode_dir_entries.
  assert (E : zlen (zrepeat 0 (zlen es * DIRENT_SIZE)) = zlen es * DIRENT_SIZE)
    by (apply zlen_zrepeat; unfold DIRENT_SIZE; lia).
  rewrite zlen_put_all; [done|]. rewrite E. eapply windowed_inside; [apply dirent_windowed|..];
    unfold DIRENT_SIZE; lia.
Qed.

Lemma dirent_back es k e n f o w :
  es !! k = Some e -> dirent_fields (Z.of_nat k) e !! n = Some f ->
  Forall (apart f) (drop (S n) (dirent_fields (Z.of_nat k) e)) ->
  fst f = o -> zlen (snd f) = w ->
  slice (encode_dir_entries es) o w = snd f.
Proof.
  intros Hk Hn Hap Ho Hw. pose proof (zlen_nonneg es). unfold encode_dir_entries.
  eapply (table_field 0 DIRENT_SIZE dirent_fields _ []); try eassumption; try done.
  - apply dirent_windowed.
  - rewrite zlen_zrepeat; unfold DIRENT_SIZE; lia.
Qed.

Lemma parse_dirent_back es k e :
  Forall dirent_ok es -> es !! k = Some e -> parse_dirent (encode_dir_entries es) (Z.of_nat k) = [e].
Proof.
  intros Hok Hk. pose proof (Forall_lookup_1 _ _ _ _ Hok Hk) as [Hv Hl Hb [Ho Ho0] Ht].
  pose proof (zlen_encode_dir es) as Hlen. pose proof (lookup_lt_Some _ _ _ Hk) as Hlt.
  assert (Z.of_nat k + 1 <= zlen es) by (unfold zlen; lia). clear Hlt.
  destruct e as [[name id] t]. cbn [fst snd] in *.
  pose proof (zlen_nonneg name). unfold DIRENT_SIZE, DIRENT_NAME_CAP in *.
  assert (E : zlen (slice name 0 (Z.min (zlen name) 48)) = zlen name) by (rewrite zlen_slice; lia).
  assert (Hback : forall n f o w, dirent_fields (Z.of_nat k) (name, id, t) !! n = Some f ->
      Forall (apart f) (drop (S n) (dirent_fields (Z.of_nat k) (name, id, t))) ->
      fst f = o -> zlen (snd f) = w -> slice (encode_dir_entries es) o w = snd f)
    by (intros; by eapply dirent_back).
  unfold dirent_fields, DIRENT_SIZE, DIRENT_NAME_CAP in Hback.
  unfold parse_dirent, rd_u64, DIRENT_SIZE, DIRENT_NAME_CAP.
  rewrite (at_slice1 _ (Z.of_nat k * 64 + 8)), (at_slice1 _ (Z.of_nat k * 64 + 9)) by lia.
  rewrite (Hback 0%nat _ _ 8 eq_refl) by (try done; fields_lia).
  rewrite (Hback 1%nat _ (Z.of_nat k * 64 + 8) 1 eq_refl) by (try done; fields_lia).
  rewrite (Hback 2%nat _ (Z.of_nat k * 64 + 9) 1 eq_refl) by (try done; fields_lia).
  cbn [fst snd]. rewrite le_val_u64f, !at_u8f by done.
  destruct (Z.eqb_spec id 0); [done|]. destruct (Z.leb_spec (Z.min (zlen name) 48) 48); [|lia].
  cbn [negb andb].
  rewrite (Hback 3%nat _ _ (Z.min (zlen name) 48) eq_refl) by (try done; cbn [snd]; lia).
  cbn [snd]. rewrite Z.min_l by lia. by rewrite slice_all, from_utf8_lossy_valid.
Qed.

Lemma parse_dir_back es : Forall dirent_ok es -> parse_dir (encode_dir_entries es) = es.
Proof.
  intros Hok. unfold parse_dir. rewrite zlen_encode_dir, Z.div_mul by done.
  rewrite (map_ext_in _ (fun i => [at_ ([], 0, 0) es i])).
  - transitivity (map (at_ ([], 0, 0) es) (zrange 0 (zlen es))).
    + induction (zrange 0 (zlen es)) as [|i r IH]; [done|]. cbn. by rewrite IH.
    + apply map_zrange. intros k x Hk. apply at_lookup. by rewrite Nat2Z.id.
  - intros i Hi. apply list_elem_of_In, elem_of_zrange in Hi.
    rewrite <- (Z2Nat.id i) by lia. apply parse_dirent_back; [done|].
    rewrite Z2Nat.id by lia. apply lookup_at. lia.
Qed.

(** The object map. *)
Lemma objmap_windowed : windowed 8 16 objmap_fields.
Proof. intros j [o b]. unfold objmap_fields. cbn [fst snd]. repeat constructor; flia. Qed.

Lemma objmap_blocks_spec m :
  1 <= objmap_blocks m /\ 8 + zlen m * 16 <= objmap_blocks m * BS < 8 + zlen m * 16 + BS.
Proof.
  pose proof (zlen_nonneg m). unfold objmap_blocks.
  pose proof (div_ceil_spec (8 + zlen m * 16) BS ltac:(done) ltac:(lia)). unfold BS in *. lia.
Qed.

Lemma objmap_image_len m : zlen (zrepeat 0 (objmap_blocks m * BS)) = objmap_blocks m * BS.
Proof. pose proof (objmap_blocks_spec m). apply zlen_zrepeat. unfold BS in *. lia. Qed.

Lemma zlen_encode_objmap m : zlen (encode_objmap m) = objmap_blocks m * BS.
Proof.
  unfold encode_objmap. pose proof (objmap_image_len m) as E. pose proof (objmap_blocks_spec m) as [? ?].
  pose proof (zlen_nonneg m).
  rewrite zlen_put_all; [done|]. rewrite E. constructor; [flia|].
  eapply windowed_inside; [apply objmap_windowed|lia..].
Qed.

Lemma bytes_ok_encode_objmap m : bytes_ok (encode_objmap m).
Proof.
  apply bytes_ok_put_all; [auto with euro|]. apply Forall_cons_2; [cbn [snd]; auto with euro|].
  apply fields_from_forall. intros j x _ _. unfold objmap_fields. fields_bytes.
Qed.

Lemma table_entries_back m :
  is_u64 (zlen m) -> Forall (fun e => is_u64 (fst e) /\ is_u64 (snd e)) m ->
  table_entries (encode_objmap m) = m.
Proof.
  intros Hn Hm. unfold table_entries. rewrite zlen_encode_objmap.
  pose proof (objmap_blocks_spec m) as [Hb1 Hb2]. pose proof (objmap_image_len m) as E.
  pose proof (zlen_nonneg m).
  assert (Hc : rd_u64 (encode_objmap m) 0 = zlen m).
  { unfold rd_u64, encode_objmap. change (?f :: fields_from ?mk ?i ?l) with ([f] ++ fields_from mk i l).
    rewrite (table_header 8 16 objmap_fields _ _ _ 0 (0, u64f (zlen m)) 0 8);
      try apply objmap_windowed; try done; try fields_lia.
    apply le_val_u64f. ulia. }
  rewrite Hc. unfold saturating_sub. rewrite Z.min_l.
  2: { apply Z.div_le_lower_bound; lia. }
  apply map_zrange. intros k [o b] Hk.
  pose proof (Forall_lookup_1 _ _ _ _ Hm Hk) as [Ho Hbk]. cbn [fst snd] in *.
  assert (Hback : forall n f off w, objmap_fields (Z.of_nat k) (o, b) !! n = Some f ->
      Forall (apart f) (drop (S n) (objmap_fields (Z.of_nat k) (o, b))) ->
      fst f = off -> zlen (snd f) = w -> slice (encode_objmap m) off w = snd f).
  { intros n f off w H1 H2 H3 H4. unfold encode_objmap.
    change (?f :: fields_from ?mk ?i ?l) with ([f] ++ fields_from mk i l).
    eapply (table_field 8 16 objmap_fields); eauto using objmap_windowed; try done; try lia.
    rewrite E. fields_lia. }
  unfold objmap_fields in Hback. cbn [fst snd] in Hback. unfold rd_u64.
  rewrite (Hback 0%nat _ (8 + Z.of_nat k * 16) 8 eq_refl) by (try done; fields_lia).
  rewrite (Hback 1%nat _ (8 + Z.of_nat k * 16 + 8) 8 eq_refl) by (try done; fields_lia).
  cbn [snd]. by rewrite !le_val_u64f.
Qed.

(** Quotas. *)
Lemma quota_windowed : windowed 8 QUOTA_ENTRY_LEN quota_fields.
Proof. intros j [o b]. unfold quota_fields, QUOTA_ENTRY_LEN. cbn [fst snd]. repeat constructor; flia. Qed.

Definition quota_ok (m : list (Z * Z)) : Prop :=
  bt_ok m /\ zlen m <= MAX_QUOTA_ENTRIES /\
  Forall (fun e => is_u32 (fst e) /\ is_u64 (snd e) /\ fst e <> 0 /\ snd e <> 0) m.

Lemma take_all {A} (l : list A) n : zlen l <= n -> take (Z.to_nat n) l = l.
Proof. intros. apply take_ge. unfold zlen in *. lia. Qed.

Lemma quota_back m : quota_ok m -> decode_quota (encode_quota m) = Some m.
Proof.
  intros (Hm & Hn & Hf). pose proof (zlen_nonneg m).
  assert (E : zlen (zrepeat 0 BS) = BS) by (apply zlen_zrepeat; done).
  unfold MAX_QUOTA_ENTRIES in *.
  set (hs := ((0, u32f QUOTA_MAGIC) :: (4, u32f (Z.min (zlen m) 340)) :: []) : list field).
  assert (Henc : encode_quota m = put_all (zrepeat 0 BS) (hs ++ fields_from quota_fields 0 m)).
  { unfold encode_quota, MAX_QUOTA_ENTRIES. by rewrite take_all by lia. }
  assert (Hhs : Forall (fun g => inside 8 g) hs) by (subst hs; fields_lia).
  unfold decode_quota, rd_u32, MAX_QUOTA_ENTRIES. rewrite Henc.
  rewrite (table_header 8 QUOTA_ENTRY_LEN quota_fields _ hs _ 0 (0, u32f QUOTA_MAGIC) 0 4);
    try apply quota_windowed; try done; try (subst hs; unfold QUOTA_ENTRY_LEN; rewrite ?E; unfold BS; fields_lia).
  rewrite (table_header 8 QUOTA_ENTRY_LEN quota_fields _ hs _ 1 (4, u32f (Z.min (zlen m) 340)) 4 4);
    try apply quota_windowed; try done; try (subst hs; unfold QUOTA_ENTRY_LEN; rewrite ?E; unfold BS; fields_lia).
  cbn [snd]. rewrite !le_val_u32f by (unfold QUOTA_MAGIC; ulia). rewrite Z.eqb_refl.
  replace (Z.min (Z.min (zlen m) 340) 340) with (zlen m) by lia.
  rewrite map_zrange.
  - f_equal. rewrite <- (bt_of_list_sorted m Hm) at 2. f_equal.
    clear -Hf. induction Hf as [|[u l] m (_ & _ & H1 & H2) Hf IH]; [done|]. cbn in *.
    destruct (Z.eqb_spec u 0), (Z.eqb_spec l 0); try done. cbn. by rewrite IH.
  - intros k [u l] Hk. pose proof (Forall_lookup_1 _ _ _ _ Hf Hk) as (Hu & Hl & _).
    cbn [fst snd] in *.
    assert (Hback : forall n f off w, quota_fields (Z.of_nat k) (u, l) !! n = Some f ->
        Forall (apart f) (drop (S n) (quota_fields (Z.of_nat k) (u, l))) ->
        fst f = off -> zlen (snd f) = w ->
        slice (put_all (zrepeat 0 BS) (hs ++ fields_from quota_fields 0 m)) off w = snd f).
    { intros n f off w H1 H2 H3 H4.
      eapply (table_field 8 QUOTA_ENTRY_LEN quota_fields); eauto using quota_windowed; try done.
      - eapply Forall_impl; [exact Hhs|]. unfold inside. rewrite E. unfold BS. lia.
      - rewrite E. unfold QUOTA_ENTRY_LEN, BS. lia. }
    revert Hback. generalize (put_all (zrepeat 0 BS) (hs ++ fields_from quota_fields 0 m)).
    intros tbl Hback.
    unfold quota_fields in Hback. cbn [fst snd] in Hback. unfold parse_quota, rd_u32, rd_u64.
    rewrite (Hback 0%nat _ (8 + Z.of_nat k * QUOTA_ENTRY_LEN) 4 eq_refl) by (try done; fields_lia).
    rewrite (Hback 1%nat _ (8 + Z.of_nat k * QUOTA_ENTRY_LEN + 4) 8 eq_refl) by (try done; fields_lia).
    cbn [snd]. by rewrite le_val_u32f, le_val_u64f.
Qed.

(** Snapshots.  The table keeps 28 bytes of the label. *)
Definition stored_label (label : list Z) : list Z :=
  from_utf8_lossy (until_zero (slice label 0 (Z.min (zlen label) 28))).

Definition stored_snapshot (s : SnapshotEntry) : SnapshotEntry :=
  mkSnap (sn_id s) (sn_parent s) (sn_timestamp s) (sn_objmap_root s) (sn_map_blocks s)
    (sn_checkpoint_id s) (sn_flags s) (stored_label (sn_label s)).

Record snapshot_ok (s : SnapshotEntry) : Prop := mkSnapOk {
  so_id : is_u64 (sn_id s);
  so_parent : is_u64 (sn_parent s);
  so_time : is_u64 (sn_timestamp s);
  so_root : is_u64 (sn_objmap_root s);
  so_blocks : is_u64 (sn_map_blocks s);
  so_ckpt : is_u64 (sn_checkpoint_id s);
  so_flags : is_u32 (sn_flags s);
}.

Lemma until_zero_pad l n : until_zero (l ++ zrepeat 0 n) = until_zero l.
Proof.
  induction l as [|b l IH]; cbn.
  - unfold zrepeat. by destruct (Z.to_nat n).
  - by rewrite IH.
Qed.

Lemma until_zero_id l : Forall (fun b => b <> 0) l -> until_zero l = l.
Proof. induction 1 as [|b l Hb Hl IH]; [done|]. cbn. by case_if; [|rewrite IH]. Qed.

Lemma slice_zrepeat {A} (x : A) m o n : 0 <= o -> 0 <= n -> o + n <= m -> slice (zrepeat x m) o n = zrepeat x n.
Proof.
  intros. unfold slice, zrepeat. rewrite drop_replicate, take_replicate. f_equal. lia.
Qed.

Lemma snapshot_windowed : windowed 8 SNAP_ENTRY_LEN snapshot_fields.
Proof.
  intros j s. unfold snapshot_fields, SNAP_ENTRY_LEN. cbn [fst snd].
  pose proof (zlen_name_field (sn_label s) 28 ltac:(lia)).
  repeat constructor; flia.
Qed.

(** The bytes of entry [k] behind its label were never written. *)
Lemma snapshot_label_tail hs l k s :
  let n := Z.min (zlen (sn_label s)) 28 in
  Forall (fun g => inside 8 g) hs -> zlen l <= MAX_SNAPSHOTS -> l !! k = Some s ->
  let o := 8 + Z.of_nat k * SNAP_ENTRY_LEN in
  slice (put_all (zrepeat 0 BS) (hs ++ fields_from snapshot_fields 0 l)) (o + 52 + n) (28 - n)
  = zrepeat 0 (28 - n).
Proof.
  intros n Hhs Hl Hk o. pose proof (zlen_nonneg (sn_label s)). pose proof (zlen_nonneg l).
  assert (E : zlen (zrepeat 0 BS) = BS) by (apply zlen_zrepeat; done).
  pose proof (lookup_lt_Some _ _ _ Hk) as Hlt. assert (Z.of_nat k < zlen l) by (unfold zlen; lia).
  assert (En : zlen (slice (sn_label s) 0 n) = n) by (apply zlen_name_field; lia).
  pose proof (windowed_inside 8 SNAP_ENTRY_LEN snapshot_fields BS l snapshot_windowed) as Hin.
  unfold MAX_SNAPSHOTS, SNAP_ENTRY_LEN, BS in *.
  rewrite slice_put_all_apart; rewrite ?E; try lia.
  - apply slice_zrepeat; lia.
  - apply Forall_app. split; [eapply Forall_impl; [exact Hhs|]; unfold inside; lia|].
    apply Hin; lia.
  - apply Forall_app. split; [eapply Forall_impl; [exact Hhs|]; unfold inside; lia|].
    rewrite <- (take_drop_middle l k s Hk), fields_from_app. cbn [fields_from].
    assert (Et : zlen (take k l) = Z.of_nat k) by (unfold zlen; rewrite length_take; lia).
    rewrite Et, Z.add_0_l. pose proof snapshot_windowed as Hw. unfold windowed, SNAP_ENTRY_LEN in Hw.
    apply Forall_app. split; [|apply Forall_app; split].
    + apply fields_from_forall. intros j x Hj _. eapply Forall_impl; [apply Hw|]. intros f [? ?]. lia.
    + unfold snapshot_fields, SNAP_ENTRY_LEN. fold n.
      repeat match goal with |- Forall _ (_ :: _) => apply Forall_cons_2 | |- Forall _ [] => constructor end;
        cbn [fst snd]; autorewrite with zlen; lia.
    + apply fields_from_forall. intros j x Hj _. eapply Forall_impl; [apply Hw|]. intros f [? ?]. lia.
Qed.

Lemma snapshots_back l :
  zlen l <= MAX_SNAPSHOTS -> Forall snapshot_ok l ->
  decode_snapshots (encode_snapshots l) = Some (map stored_snapshot l).
Proof.
  intros Hn Hf. pose proof (zlen_nonneg l).
  assert (E : zlen (zrepeat 0 BS) = BS) by (apply zlen_zrepeat; done).
  unfold MAX_SNAPSHOTS in *.
  set (hs := ((0, u32f SNAPSHOT_MAGIC) :: (4, u32f (Z.min (zlen l) 32)) :: []) : list field).
  assert (Henc : encode_snapshots l = put_all (zrepeat 0 BS) (hs ++ fields_from snapshot_fields 0 l)).
  { unfold encode_snapshots, MAX_SNAPSHOTS. by rewrite take_all by lia. }
  assert (Hhs : Forall (fun g => inside 8 g) hs) by (subst hs; fields_lia).
  unfold decode_snapshots, rd_u32, MAX_SNAPSHOTS. rewrite Henc.
  rewrite (table_header 8 SNAP_ENTRY_LEN snapshot_fields _ hs _ 0 (0, u32f SNAPSHOT_MAGIC) 0 4);
    try apply snapshot_windowed; try done; try (subst hs; unfold SNAP_ENTRY_LEN; rewrite ?E; unfold BS; fields_lia).
  rewrite (table_header 8 SNAP_ENTRY_LEN snapshot_fields _ hs _ 1 (4, u32f (Z.min (zlen l) 32)) 4 4);
    try apply snapshot_windowed; try done; try (subst hs; unfold SNAP_ENTRY_LEN; rewrite ?E; unfold BS; fields_lia).
  cbn [snd]. rewrite !le_val_u32f by (unfold SNAPSHOT_MAGIC; ulia). rewrite Z.eqb_refl. f_equal.
  replace (Z.min (Z.min (zlen l) 32) 32) with (zlen (map stored_snapshot l))
    by (unfold zlen in *; rewrite length_map; lia).
  apply map_zrange. intros k s' Hk. rewrite list_lookup_fmap in Hk.
  destruct (l !! k) as [s|] eqn:Ek; [|done]. injection Hk as <-.
  pose proof (Forall_lookup_1 _ _ _ _ Hf Ek) as [].
  pose proof (snapshot_label_tail hs l k s Hhs Hn Ek) as Htail. cbv zeta in Htail.
  assert (Hback : forall n f off w, snapshot_fields (Z.of_nat k) s !! n = Some f ->
      Forall (apart f) (drop (S n) (snapshot_fields (Z.of_nat k) s)) ->
      fst f = off -> zlen (snd f) = w ->
      slice (put_all (zrepeat 0 BS) (hs ++ fields_from snapshot_fields 0 l)) off w = snd f).
  { intros n f off w H1 H2 H3 H4.
    eapply (table_field 8 SNAP_ENTRY_LEN snapshot_fields); eauto using snapshot_windowed; try done.
    - eapply Forall_impl; [exact Hhs|]. unfold inside. rewrite E. unfold BS. lia.
    - rewrite E. unfold SNAP_ENTRY_LEN, BS. lia. }
  clear Henc. set (tbl := put_all (zrepeat 0 BS) (hs ++ _)) in *. clearbody tbl.
  set (o := 8 + Z.of_nat k * SNAP_ENTRY_LEN) in *.
  unfold snapshot_fields in Hback. fold o in Hback.
  pose proof (zlen_name_field (sn_label s) 28 ltac:(lia)) as En. pose proof (zlen_nonneg (sn_label s)).
  unfold parse_snapshot, rd_u32, rd_u64, stored_snapshot. fold o.
  rewrite (Hback 0%nat _ o 8 eq_refl) by (try done; fields_lia).
  rewrite (Hback 1%nat _ (o + 8) 8 eq_refl) by (try done; fields_lia).
  rewrite (Hback 2%nat _ (o + 16) 8 eq_refl) by (try done; fields_lia).
  rewrite (Hback 3%nat _ (o + 24) 8 eq_refl) by (try done; fields_lia).
  rewrite (Hback 4%nat _ (o + 32) 8 eq_refl) by (try done; fields_lia).
  rewrite (Hback 5%nat _ (o + 40) 8 eq_refl) by (try done; fields_lia).
  rewrite (Hback 6%nat _ (o + 48) 4 eq_refl) by (try done; fields_lia).
  cbn [snd]. rewrite !le_val_u64f, le_val_u32f by done. f_equal. unfold stored_label. f_equal.
  set (n := Z.min (zlen (sn_label s)) 28) in *.
  assert (0 <= o) by (unfold o, SNAP_ENTRY_LEN; lia).
  replace (slice tbl (o + 52) 28) with (slice tbl (o + 52) n ++ slice tbl (o + 52 + n) (28 - n))
    by (rewrite slice_join by lia; f_equal; lia).
  rewrite Htail, until_zero_pad. by rewrite (Hback 7%nat _ (o + 52) n eq_refl) by (try done; fields_lia).
Qed.

(** Inodes. *)
Lemma extent_windowed : windowed 64 16 extent_fields.
Proof. intros j [o b]. unfold extent_fields, OFF_EXTENTS. cbn [fst snd]. repeat constructor; flia. Qed.

Definition inode_header (n : Inode) : list field := take 12 (inode_fields n).

Definition inline_fields (n : Inode) : list field :=
  if inline n is [] then [] else [(OFF_INLINE, inline n)].

Lemma inode_fields_split n :
  inode_fields n = (inode_header n ++ fields_from extent_fields 0 (extents n)) ++ inline_fields n.
Proof. rewrite <- app_assoc. done. Qed.

Section inode.
Context `{Xxh3}.
Variable n : Inode.
Hypothesis Hn : inode_ok n.

Let z : list Z := zrepeat 0 BS.
Let front : list field := inode_header n ++ fields_from extent_fields 0 (extents n).
Let body : list Z := put_all z (inode_fields n).
Let enc : list Z := put body (OFF_CHECKSUM, u64f (xxh3_64 (slice body 0 OFF_CHECKSUM))).

Lemma z_len : zlen z = BS.
Proof. apply zlen_zrepeat. done. Qed.

Lemma inode_header_inside : Forall (inside 64) (inode_header n).
Proof. unfold inode_header, inode_fields. cbn [take app]. fields_lia. Qed.

Lemma front_inside : Forall (inside 192) front.
Proof.
  destruct Hn. unfold MAX_EXTENTS in *. apply Forall_app. split.
  - eapply Forall_impl; [apply inode_header_inside|]. unfold inside. lia.
  - eapply windowed_inside; [apply extent_windowed|lia..].
Qed.

Lemma inline_inside : Forall (inside 4088) (inline_fields n).
Proof.
  destruct Hn. unfold inline_fields, INLINE_CAP, OFF_INLINE in *.
  destruct (inline n); [constructor|]. constructor; [|constructor]. unfold inside. cbn [fst snd]. lia.
Qed.

Lemma inode_fields_inside : Forall (inside 4088) (inode_fields n).
Proof.
  rewrite inode_fields_split. apply Forall_app. split; [|apply inline_inside].
  eapply Forall_impl; [apply front_inside|]. unfold inside. lia.
Qed.

Lemma body_len : zlen body = BS.
Proof.
  unfold body. rewrite zlen_put_all; [apply z_len|]. rewrite z_len.
  eapply Forall_impl; [apply inode_fields_inside|]. unfold inside, BS. lia.
Qed.

Lemma enc_len : zlen enc = BS.
Proof. unfold enc. rewrite zlen_put; rewrite body_len; [done|]. unfold BS, OFF_CHECKSUM. flia. Qed.

Lemma encode_eq : encode n = Ok enc.
Proof.
  unfold encode. assert (forallb (fits BS) (inode_fields n) = true) as ->; [|done].
  apply forallb_forall. intros f Hf. apply list_elem_of_In in Hf.
  pose proof inode_fields_inside as Hin. rewrite Forall_forall in Hin. apply Hin in Hf as [? ?].
  unfold fits. apply Z.leb_le. unfold BS. lia.
Qed.

(** The bytes before the inline data. *)
Lemma enc_front o w :
  0 <= o -> 0 <= w -> o + w <= 192 -> slice enc o w = slice (put_all z front) o w.
Proof.
  intros. pose proof z_len as Hz. pose proof body_len as Hb. unfold enc, put. cbn [fst snd].
  rewrite (slice_splice_other 0); [|unfold OFF_CHECKSUM; autorewrite with zlen; unfold BS in *; lia..].
  unfold body. rewrite inode_fields_split, put_all_app. fold front.
  assert (Hf : zlen (put_all z front) = BS).
  { rewrite zlen_put_all; [done|]. rewrite Hz. eapply Forall_impl; [apply front_inside|].
    unfold inside, BS. lia. }
  apply slice_put_all_apart; try rewrite Hf; unfold BS; try lia.
  - eapply Forall_impl; [apply inline_inside|]. unfold inside. lia.
  - unfold inline_fields, OFF_INLINE. destruct (inline n); constructor; [cbn; lia|constructor].
Qed.

Lemma enc_header i f o w :
  inode_header n !! i = Some f -> Forall (apart f) (drop (S i) (inode_header n)) ->
  fst f = o -> zlen (snd f) = w -> slice enc o w = snd f.
Proof.
  intros Hi Hap Ho Hw.
  assert (inside 64 f) as [? ?].
  { pose proof inode_header_inside as Hin. rewrite Forall_forall in Hin.
    by eapply Hin, list_elem_of_lookup_2. }
  pose proof (zlen_nonneg (snd f)). pose proof (zlen_nonneg (extents n)).
  rewrite enc_front by lia. destruct Hn. unfold MAX_EXTENTS in *.
  eapply (table_header 64 16 extent_fields); try eassumption; try done.
  - apply extent_windowed.
  - apply inode_header_inside.
  - rewrite z_len. unfold BS. lia.
Qed.

Lemma enc_extent k e i f o w :
  extents n !! k = Some e -> extent_fields (Z.of_nat k) e !! i = Some f ->
  Forall (apart f) (drop (S i) (extent_fields (Z.of_nat k) e)) ->
  fst f = o -> zlen (snd f) = w -> slice enc o w = snd f.
Proof.
  intros Hk Hi Hap Ho Hw. destruct Hn. unfold MAX_EXTENTS in *.
  pose proof (lookup_lt_Some _ _ _ Hk). assert (Z.of_nat k < 8) by (unfold zlen in *; lia).
  assert (f ∈ extent_fields (Z.of_nat k) e) as Hf by by eapply list_elem_of_lookup_2.
  pose proof (extent_windowed (Z.of_nat k) e) as Hwin. rewrite Forall_forall in Hwin.
  apply Hwin in Hf as [? ?]. pose proof (zlen_nonneg (snd f)).
  rewrite enc_front by lia.
  eapply (table_field 64 16 extent_fields); try eassumption; try done.
  - apply extent_windowed.
  - eapply Forall_impl; [apply inode_header_inside|]. unfold inside. rewrite z_len. unfold BS. lia.
  - rewrite z_len. unfold BS. lia.
Qed.

Lemma enc_inline : slice enc OFF_INLINE (zlen (inline n)) = inline n.
Proof.
  destruct (inline n) as [|x l] eqn:E; [done|]. rewrite <- E.
  unfold enc, body. rewrite inode_fields_split.
  change (put (put_all ?b ?fs) ?f) with (put_all (put_all b fs) [f]). rewrite <- put_all_app.
  rewrite <- app_assoc. unfold inline_fields at 1. rewrite E at 1. cbn [app].
  apply (slice_put_all z front (OFF_INLINE, inline n)); [|  |done|done].
  - pose proof z_len as Hz. rewrite Hz. apply Forall_app. split.
    + eapply Forall_impl; [apply front_inside|]. unfold inside, BS. lia.
    + pose proof inline_inside as Hin. unfold inline_fields in Hin. rewrite E in Hin.
      apply Forall_cons in Hin as [Hin _]. rewrite <- E in Hin.
      constructor; [|constructor; [|constructor]]; unfold inside, BS, OFF_CHECKSUM in *.
      * lia.
      * cbn [fst snd]. autorewrite with zlen. lia.
  - destruct Hn. unfold INLINE_CAP in *. constructor; [|constructor].
    unfold apart, OFF_INLINE, OFF_CHECKSUM. cbn [fst snd]. lia.
Qed.

Lemma enc_checksum : rd_u64 enc OFF_CHECKSUM = xxh3_64 (slice enc 0 OFF_CHECKSUM).
Proof.
  pose proof body_len as Hb. unfold rd_u64, enc, put. cbn [fst snd].
  set (c := xxh3_64 _).
  rewrite <- (zlen_u64f c), slice_splice_same
    by (rewrite ?zlen_u64f; unfold OFF_CHECKSUM, BS in *; lia).
  rewrite le_val_u64f by apply xxh3_64_u64. unfold c. f_equal. symmetry.
  apply (slice_splice_other 0); unfold OFF_CHECKSUM, BS in *; rewrite ?zlen_u64f; lia.
Qed.

Lemma enc_bytes : bytes_ok enc.
Proof.
  destruct Hn. unfold enc, put. apply bytes_ok_splice; [unfold body|cbn; auto with euro].
  apply bytes_ok_put_all; [apply bytes_ok_zrepeat|]. rewrite inode_fields_split. repeat apply Forall_app_2.
  - unfold inode_header, inode_fields. cbn [take app]. fields_bytes.
  - apply fields_from_forall. intros j x _ _. unfold extent_fields. fields_bytes.
  - unfold inline_fields. destruct (inline n) eqn:E; [constructor|]. constructor; [done|constructor].
Qed.

Lemma enc_decode : decode enc = Ok n.
Proof.
  pose proof enc_len as Hlen. pose proof enc_inline as Hin. pose proof enc_checksum as Hsum.
  destruct Hn as [H1 H2 H3 H4 H5 H6 H7 H8 H9 He Hc Hb Hi].
  pose proof (zlen_nonneg (inline n)). pose proof (zlen_nonneg (extents n)).
  assert (Hh : forall i f o w, inode_header n !! i = Some f ->
    Forall (apart f) (drop (S i) (inode_header n)) ->
    fst f = o -> zlen (snd f) = w -> slice enc o w = snd f) by (intros; by eapply enc_header).
  assert (He' : forall k e i f o w, extents n !! k = Some e -> extent_fields (Z.of_nat k) e !! i = Some f ->
    Forall (apart f) (drop (S i) (extent_fields (Z.of_nat k) e)) ->
    fst f = o -> zlen (snd f) = w -> slice enc o w = snd f) by (intros; by eapply enc_extent).
  clearbody enc. unfold inode_header, inode_fields in Hh. cbn [take app] in Hh.
  unfold MAX_EXTENTS, INLINE_CAP, OFF_INLINE, BS in *.
  assert (Hmagic : rd_u32 enc OFF_MAGIC = INODE_MAGIC).
  { unfold rd_u32. rewrite (Hh 0%nat _ OFF_MAGIC 4 eq_refl) by (try done; fields_lia). done. }
  assert (Hil : rd_u32 enc OFF_INLINE_LEN = zlen (inline n)).
  { unfold rd_u32. rewrite (Hh 10%nat _ OFF_INLINE_LEN 4 eq_refl) by (try done; fields_lia).
    apply le_val_u32f. ulia. }
  assert (Hec : rd_u32 enc OFF_EXTENT_COUNT = zlen (extents n)).
  { unfold rd_u32. rewrite (Hh 11%nat _ OFF_EXTENT_COUNT 4 eq_refl) by (try done; fields_lia).
    apply le_val_u32f. ulia. }
  unfold decode. rewrite Hmagic, Hsum, Hil, Hec, !Z.eqb_refl. cbn [negb].
  unfold MAX_EXTENTS, OFF_INLINE in *. rewrite Hlen.
  destruct (Z.ltb_spec 8 (zlen (extents n))); [lia|].
  destruct (Z.ltb_spec 4096 (192 + zlen (inline n))); [lia|].
  rewrite Hin, (at_slice1 enc OFF_TYPE) by (unfold OFF_TYPE; lia).
  unfold rd_u16, rd_u32, rd_u64.
  rewrite (Hh 1%nat _ OFF_UID 4 eq_refl) by (try done; fields_lia).
  rewrite (Hh 2%nat _ OFF_OID 8 eq_refl) by (try done; fields_lia).
  rewrite (Hh 3%nat _ OFF_PARENT 8 eq_refl) by (try done; fields_lia).
  rewrite (Hh 4%nat _ OFF_TYPE 1 eq_refl) by (try done; fields_lia).
  rewrite (Hh 5%nat _ OFF_FLAGS 4 eq_refl) by (try done; fields_lia).
  rewrite (Hh 6%nat _ OFF_MODE 2 eq_refl) by (try done; fields_lia).
  rewrite (Hh 7%nat _ OFF_SIZE 8 eq_refl) by (try done; fields_lia).
  rewrite (Hh 8%nat _ OFF_MTIME 8 eq_refl) by (try done; fields_lia).
  rewrite (Hh 9%nat _ OFF_DATA_CHECKSUM 8 eq_refl) by (try done; fields_lia).
  cbn [snd]. rewrite !le_val_u64f, !le_val_u32f, le_val_u16f, at_u8f by done.
  rewrite map_zrange; [by destruct n|].
  intros k [o b] Hk. pose proof (Forall_lookup_1 _ _ _ _ He Hk) as [Ho Hbk]. cbn [fst snd] in *.
  rewrite (He' k _ 0%nat _ (OFF_EXTENTS + Z.of_nat k * 16) 8 Hk eq_refl)
    by (try done; unfold extent_fields; fields_lia).
  rewrite (He' k _ 1%nat _ (OFF_EXTENTS + Z.of_nat k * 16 + 8) 4 Hk eq_refl)
    by (try done; unfold extent_fields; fields_lia).
  cbn [fst snd]. by rewrite le_val_u64f, le_val_u32f.
Qed.

Lemma encode_decode :
  exists b, encode n = Ok b /\ zlen b = BS /\ bytes_ok b /\ decode b = Ok n.
Proof. exists enc. eauto using encode_eq, enc_len, enc_bytes, enc_decode. Qed.
End inode.

(** What a decoded block can hold. *)
Lemma decode_typed `{Xxh3} b n :
  decode b = Ok n -> zlen b = BS -> bytes_ok b ->
  is_u64 (oid n) /\ is_u64 (iparent n) /\ is_u8 (otype n) /\ is_u32 (flags n) /\ is_u32 (uid n) /\
  is_u16 (mode n) /\ is_u64 (size n) /\ is_u64 (mtime n) /\ is_u64 (data_checksum n) /\
  Forall (fun e => is_u64 (fst e) /\ is_u32 (snd e)) (extents n) /\ zlen (extents n) <= MAX_EXTENTS /\
  bytes_ok (inline n).
Proof.
  intros E Hl Hb. unfold decode in E. repeat case_in E; try done. injection E as <-.
  cbn [oid iparent otype flags uid mode size mtime data_checksum extents inline].
  pose proof (rd_u32_bound b OFF_EXTENT_COUNT Hb) as Hc.
  split_and!; auto with euro; try apply rd_u64_bound; try apply rd_u32_bound; try apply rd_u16_bound;
    try apply bytes_ok_at; auto with euro.
  - apply Forall_forall. intros e He. apply list_elem_of_fmap in He as (i & -> & _). cbn. auto with euro.
  - unfold zlen. rewrite length_map. unfold zrange. rewrite length_seqZ. ulia.
Qed.

Lemma stored_snapshot_id s :
  valid_utf8 (sn_label s) = true -> zlen (sn_label s) <= 28 -> Forall (fun b => b <> 0) (sn_label s) ->
  stored_snapshot s = s.
Proof.
  intros Hv Hl Hz. destruct s as [a b c d e f g label]. unfold stored_snapshot, stored_label. cbn in *.
  f_equal. rewrite Z.min_l by lia. by rewrite slice_all, until_zero_id, from_utf8_lossy_valid.
Qed.

(** ** The properties *)

(** C32 What EuroFS writes it reads back.  An inode with at most eight extents and
    at most 3896 bytes of inline data encodes, without a panic, to one 4096-byte
    block that passes the magic and checksum tests and decodes to the same inode.
    The object map, the quota table and the snapshot table read back from
    their blocks as what was written; of a snapshot label the table keeps the
    first 28 bytes, up to a zero byte.  A directory whose names fit an entry and
    are valid UTF-8 reads back from its data as the same entries, in order. *)
Theorem layout_roundtrip `{Xxh3} n m q l es :
  inode_ok n -> bt_ok m -> is_u64 (zlen m) -> Forall (fun e => is_u64 (fst e) /\ is_u64 (snd e)) m ->
  quota_ok q -> zlen l <= MAX_SNAPSHOTS -> Forall snapshot_ok l -> Forall dirent_ok es ->
  (exists b, encode n = Ok b /\ zlen b = BS /\ bytes_ok b /\ decode b = Ok n) /\
  decode_objmap (encode_objmap m) = m /\
  decode_quota (encode_quota q) = Some q /\
  decode_snapshots (encode_snapshots l) = Some (map stored_snapshot l) /\
  parse_dir (encode_dir_entries es) = es.
Proof.
  intros Hi Hm Hn Hf Hq Hl Hs He. split_and!; auto using encode_decode, quota_back, snapshots_back, parse_dir_back.
  unfold decode_objmap. rewrite table_entries_back by done. by apply bt_of_list_sorted.
Qed.

(** ** Witnesses *)

Definition demo_inode : Inode := mkInode 7 1 1 2 1000 420 9000 5 77 [(20, 2); (40, 1)] [].

(** ["a"] and ["b.txt"] *)
Definition demo_dir : list dirent := [([97], 2, 2); ([98; 46; 116; 120; 116], 3, 1)].

Lemma layout_roundtrip_witness :
  (exists b, @encode demo_xxh3 demo_inode = Ok b /\ @decode demo_xxh3 b = Ok demo_inode) /\
  decode_objmap (encode_objmap [(1, 20); (2, 30)]) = [(1, 20); (2, 30)] /\
  decode_quota (encode_quota [(1000, 50)]) = Some [(1000, 50)] /\
  decode_snapshots (encode_snapshots [mkSnap 1 4 5 20 1 4 0 [97]]) = Some [mkSnap 1 4 5 20 1 4 0 [97]] /\
  parse_dir (encode_dir_entries demo_dir) = demo_dir.
Proof.
  destruct (@layout_roundtrip demo_xxh3 demo_inode [(1, 20); (2, 30)] [(1000, 50)] [mkSnap 1 4 5 20 1 4 0 [97]] demo_dir)
    as ((b & Eb & _ & _ & Db) & E1 & E2 & E3 & E4).
  - split; cbn; try ulia; forall_lia; first [by vm_compute | constructor].
  - apply (bt_of_list_ok [(1, 20); (2, 30)]).
  - done.
  - forall_lia.
  - split; [apply (bt_of_list_ok [(1000, 50)])|split; [done|forall_lia]].
  - done.
  - forall_lia. split; cbn; ulia.
  - unfold demo_dir. forall_lia; split; cbn; unfold bytes_ok; forall_lia; by vm_compute.
  - split_and!; [by exists b|exact E1|exact E2|exact E3|exact E4].
Defined.

End Layout.
