(* ===== verification/Typed.v ===== *)
(** Widths: what EuroFS reads from a disk of bytes is made of bytes and machine
    integers, and what it writes is made of whole blocks of bytes. *)

From S2P Require Import Prelude Bytes Block Crash Checksum Fs Utf8 Path BTree Layout.
Import Block Crash Fs Utf8 Layout.

Module Typed.

(** ** Strings *)

Lemma chunks_bytes fuel l : bytes_ok l -> Forall (fun c => bytes_ok (snd c)) (chunks fuel l).
Proof.
  revert l. induction fuel as [|fuel IH]; intros l Hl; cbn [chunks]; [constructor|].
  destruct l as [|b l']; [constructor|]. destruct (utf8_step (b :: l')) as [v n].
  constructor; [by apply Forall_take|]. by apply IH, Forall_drop.
Qed.

Lemma bytes_ok_concat ls : Forall bytes_ok ls -> bytes_ok (concat ls).
Proof. induction 1; cbn; [constructor|]. by apply bytes_ok_app. Qed.

Lemma bytes_ok_lossy l : bytes_ok l -> bytes_ok (from_utf8_lossy l).
Proof.
  intros Hl. apply bytes_ok_concat, Forall_map. eapply Forall_impl; [apply (chunks_bytes (length l) l Hl)|].
  intros [[] c] Hc; [done|]. cbn. unfold REPLACEMENT, bytes_ok. forall_lia.
Qed.

Lemma bytes_ok_take_chars n l : bytes_ok l -> bytes_ok (take_chars n l).
Proof. intros Hl. apply bytes_ok_concat, Forall_map, Forall_take. by apply chunks_bytes. Qed.

Lemma bytes_ok_until_zero l : bytes_ok l -> bytes_ok (until_zero l).
Proof. induction 1 as [|b l Hb Hl IH]; cbn; [constructor|]. case_if; by constructor. Qed.

(** ** Paths *)

Lemma trim_end_sub p : exists n, Path.trim_end p = take n p.
Proof.
  induction p as [|c p (n & IH)]; [by exists O|]. cbn [Path.trim_end].
  destruct (Path.trim_end p) as [|d t] eqn:E; [case_if|].
  - by exists O.
  - by exists 1%nat.
  - exists (S n). cbn. by rewrite <- IH.
Qed.

Lemma bytes_ok_trim_end p : bytes_ok p -> bytes_ok (Path.trim_end p).
Proof. intros Hp. destruct (trim_end_sub p) as [n ->]. by apply Forall_take. Qed.

Lemma bytes_ok_slash : bytes_ok [Path.SLASH].
Proof. unfold Path.SLASH, bytes_ok. forall_lia. Qed.

Lemma bytes_ok_filename p : bytes_ok p -> bytes_ok (Path.filename p).
Proof.
  intros Hp%bytes_ok_trim_end. unfold Path.filename. destruct (Path.rfind _); [by apply Forall_drop|done].
Qed.

Lemma bytes_ok_parent p : bytes_ok p -> bytes_ok (Path.parent p).
Proof.
  intros Hp%bytes_ok_trim_end. unfold Path.parent. destruct (Path.rfind _) as [[|i]|];
    [apply bytes_ok_slash|by apply Forall_take|apply bytes_ok_slash].
Qed.

#[export] Hint Resolve bytes_ok_lossy bytes_ok_take_chars bytes_ok_filename bytes_ok_parent bytes_ok_slash : euro.

(** ** Tables *)

Lemma encode_quota_like m : block_like (encode_quota m).
Proof.
  set (l := take (Z.to_nat MAX_QUOTA_ENTRIES) m).
  assert (E : zlen (zrepeat 0 BS) = BS) by (apply zlen_zrepeat; done).
  assert (Hl : zlen l <= 340) by (unfold l, zlen; rewrite length_take; unfold MAX_QUOTA_ENTRIES; lia).
  unfold encode_quota. fold l. split.
  - rewrite zlen_put_all; [done|]. rewrite E. apply Forall_cons_2; [unfold BS; flia|]. apply Forall_cons_2; [unfold BS; flia|].
    eapply windowed_inside; [apply quota_windowed|lia|unfold QUOTA_ENTRY_LEN; lia|unfold QUOTA_ENTRY_LEN, BS; lia].
  - apply bytes_ok_put_all; [auto with euro|]. apply Forall_cons_2; [cbn [snd]; auto with euro|].
    apply Forall_cons_2; [cbn [snd]; auto with euro|].
    apply fields_from_forall. intros j x _ _. unfold quota_fields. fields_bytes.
Qed.

Lemma encode_snapshots_like l : Forall (fun s => bytes_ok (sn_label s)) l -> block_like (encode_snapshots l).
Proof.
  intros Hb. apply (Forall_take _ (Z.to_nat MAX_SNAPSHOTS)) in Hb. unfold encode_snapshots.
  set (l' := take (Z.to_nat MAX_SNAPSHOTS) l) in *.
  assert (E : zlen (zrepeat 0 BS) = BS) by (apply zlen_zrepeat; done).
  assert (Hl : zlen l' <= 32) by (unfold l', zlen; rewrite length_take; unfold MAX_SNAPSHOTS; lia). split.
  - rewrite zlen_put_all; [done|]. rewrite E. apply Forall_cons_2; [unfold BS; flia|]. apply Forall_cons_2; [unfold BS; flia|].
    eapply windowed_inside; [apply snapshot_windowed|lia|unfold SNAP_ENTRY_LEN; lia|unfold SNAP_ENTRY_LEN, BS; lia].
  - apply bytes_ok_put_all; [auto with euro|]. apply Forall_cons_2; [cbn [snd]; auto with euro|].
    apply Forall_cons_2; [cbn [snd]; auto with euro|].
    apply fields_from_forall. intros j x _ Hx. rewrite Forall_forall in Hb. unfold snapshot_fields. fields_bytes.
Qed.

Lemma parse_snapshot_typed b i : bytes_ok b -> snapshot_ok (parse_snapshot b i) /\ bytes_ok (sn_label (parse_snapshot b i)).
Proof.
  intros Hb. split; [split; cbn; auto with euro|]. cbn. apply bytes_ok_lossy, bytes_ok_until_zero. auto with euro.
Qed.

(** ** Directories *)

Record dirent_typed (e : dirent) : Prop := mkDirentTyped {
  dt_name : bytes_ok (fst (fst e));
  dt_oid : is_u64 (snd (fst e)) /\ snd (fst e) <> 0;
  dt_type : is_u8 (snd e);
}.

Lemma bytes_ok_encode_dir es : Forall dirent_typed es -> bytes_ok (encode_dir_entries es).
Proof.
  intros He. apply bytes_ok_put_all; [auto with euro|]. apply fields_from_forall. intros j [[name o] t] _ Hx.
  rewrite Forall_forall in He. apply He in Hx as [Hn Ho Ht]. cbn [fst snd] in *. unfold dirent_fields, DIRENT_NAME_CAP.
  pose proof (zlen_nonneg name). assert (is_u8 (Z.min (zlen name) 48)) by ulia. fields_bytes.
Qed.

Lemma parse_dir_typed data : bytes_ok data -> Forall dirent_typed (parse_dir data).
Proof.
  intros Hd. unfold parse_dir. apply Forall_concat, Forall_map, Forall_forall. intros i _.
  unfold parse_dirent. cbv zeta. destruct (Z.eqb_spec (rd_u64 data (i * DIRENT_SIZE)) 0); cbn [negb andb]; [constructor|].
  case_if; constructor; [|constructor]. split; cbn [fst snd]; auto with euro.
Qed.

End Typed.
