(* ===== verification/EuroFs.v ===== *)
(** The on-disk file system EuroFS ([src/crates/eurofs/src/disk.rs]): state, block
    allocator, object map, snapshot and quota tables, commit, format and mount,
    copy-on-write of objects, directories, path resolution and every operation
    of the [FileSystem] interface.  This file holds the executable model; its
    properties are proved in the files that follow. *)

From stdpp Require Import gmap.
From S2P Require Import Prelude Bytes Block Checksum Fs Utf8 Path BTree Superblock Layout.
Import Block Fs Utf8 BTree Superblock Layout.

Module EuroFs.

(** [Vec::try_reserve_exact]: whether the allocator can provide a buffer of [n]
    bytes.  The standard library refuses more than [isize::MAX] bytes. *)
Class Heap := {
  can_reserve : Z -> bool;
  can_reserve_max n : 9223372036854775807 < n -> can_reserve n = false;
}.

(** ** State *)

Record EuroFs (D : Type) := mkFs {
  dev : D;
  sb : EuroFsSuperblock;
  objmap : list (Z * Z);
  used : list bool;
  next_oid : Z;
  now : Z;
  snapshots : list SnapshotEntry;
  next_snap_id : Z;
  pending_trim : list Z;
  path_cache : gmap (list Z) Z;
  extents_cache : list (Z * list (Z * Z));
  ctx_uid : Z;
  quota_limits : list (Z * Z);
  usage : list (Z * Z);
}.
Arguments mkFs {D}.
Arguments dev {D}.
Arguments sb {D}.
Arguments objmap {D}.
Arguments used {D}.
Arguments next_oid {D}.
Arguments now {D}.
Arguments snapshots {D}.
Arguments next_snap_id {D}.
Arguments pending_trim {D}.
Arguments path_cache {D}.
Arguments extents_cache {D}.
Arguments ctx_uid {D}.
Arguments quota_limits {D}.
Arguments usage {D}.

Section fs.
Context `{Xxh3} `{Heap} {D : Type} `{BlockDevice D}.

Definition FsM (A : Type) : Type := ST (EuroFs D) FsError A.

Definition set_dev (f : EuroFs D) (v : D) : EuroFs D :=
  mkFs v (sb f) (objmap f) (used f) (next_oid f) (now f) (snapshots f) (next_snap_id f) (pending_trim f) (path_cache f) (extents_cache f) (ctx_uid f) (quota_limits f) (usage f).
Definition set_sb (f : EuroFs D) (v : EuroFsSuperblock) : EuroFs D :=
  mkFs (dev f) v (objmap f) (used f) (next_oid f) (now f) (snapshots f) (next_snap_id f) (pending_trim f) (path_cache f) (extents_cache f) (ctx_uid f) (quota_limits f) (usage f).
Definition set_objmap (f : EuroFs D) (v : list (Z * Z)) : EuroFs D :=
  mkFs (dev f) (sb f) v (used f) (next_oid f) (now f) (snapshots f) (next_snap_id f) (pending_trim f) (path_cache f) (extents_cache f) (ctx_uid f) (quota_limits f) (usage f).
Definition set_used (f : EuroFs D) (v : list bool) : EuroFs D :=
  mkFs (dev f) (sb f) (objmap f) v (next_oid f) (now f) (snapshots f) (next_snap_id f) (pending_trim f) (path_cache f) (extents_cache f) (ctx_uid f) (quota_limits f) (usage f).
Definition set_next_oid (f : EuroFs D) (v : Z) : EuroFs D :=
  mkFs (dev f) (sb f) (objmap f) (used f) v (now f) (snapshots f) (next_snap_id f) (pending_trim f) (path_cache f) (extents_cache f) (ctx_uid f) (quota_limits f) (usage f).
Definition set_now (f : EuroFs D) (v : Z) : EuroFs D :=
  mkFs (dev f) (sb f) (objmap f) (used f) (next_oid f) v (snapshots f) (next_snap_id f) (pending_trim f) (path_cache f) (extents_cache f) (ctx_uid f) (quota_limits f) (usage f).
Definition set_snapshots (f : EuroFs D) (v : list SnapshotEntry) : EuroFs D :=
  mkFs (dev f) (sb f) (objmap f) (used f) (next_oid f) (now f) v (next_snap_id f) (pending_trim f) (path_cache f) (extents_cache f) (ctx_uid f) (quota_limits f) (usage f).
Definition set_next_snap_id (f : EuroFs D) (v : Z) : EuroFs D :=
  mkFs (dev f) (sb f) (objmap f) (used f) (next_oid f) (now f) (snapshots f) v (pending_trim f) (path_cache f) (extents_cache f) (ctx_uid f) (quota_limits f) (usage f).
Definition set_pending_trim (f : EuroFs D) (v : list Z) : EuroFs D :=
  mkFs (dev f) (sb f) (objmap f) (used f) (next_oid f) (now f) (snapshots f) (next_snap_id f) v (path_cache f) (extents_cache f) (ctx_uid f) (quota_limits f) (usage f).
Definition set_path_cache (f : EuroFs D) (v : gmap (list Z) Z) : EuroFs D :=
  mkFs (dev f) (sb f) (objmap f) (used f) (next_oid f) (now f) (snapshots f) (next_snap_id f) (pending_trim f) v (extents_cache f) (ctx_uid f) (quota_limits f) (usage f).
Definition set_extents_cache (f : EuroFs D) (v : list (Z * list (Z * Z))) : EuroFs D :=
  mkFs (dev f) (sb f) (objmap f) (used f) (next_oid f) (now f) (snapshots f) (next_snap_id f) (pending_trim f) (path_cache f) v (ctx_uid f) (quota_limits f) (usage f).
Definition set_ctx_uid (f : EuroFs D) (v : Z) : EuroFs D :=
  mkFs (dev f) (sb f) (objmap f) (used f) (next_oid f) (now f) (snapshots f) (next_snap_id f) (pending_trim f) (path_cache f) (extents_cache f) v (quota_limits f) (usage f).
Definition set_quota_limits (f : EuroFs D) (v : list (Z * Z)) : EuroFs D :=
  mkFs (dev f) (sb f) (objmap f) (used f) (next_oid f) (now f) (snapshots f) (next_snap_id f) (pending_trim f) (path_cache f) (extents_cache f) (ctx_uid f) v (usage f).
Definition set_usage (f : EuroFs D) (v : list (Z * Z)) : EuroFs D :=
  mkFs (dev f) (sb f) (objmap f) (used f) (next_oid f) (now f) (snapshots f) (next_snap_id f) (pending_trim f) (path_cache f) (extents_cache f) (ctx_uid f) (quota_limits f) v.

(** A device operation; every device error is reported as [IoError]. *)
Definition on_dev {A} (m : ST D BlockError A) : FsM A :=
  fun f => let '(r, d) := m (dev f) in (omap_err (fun _ => IoError) r, set_dev f d).

Definition buffer_for (sz : Z) : outcome FsError unit :=
  if can_reserve sz then Ok tt else Err NoSpace.

(** ** Block input and output *)

Definition read_block (f : EuroFs D) (blk : Z) : outcome FsError (list Z) :=
  omap_err (fun _ => IoError) (read_blocks (dev f) blk 1 BS).

Definition write_block (blk : Z) (data : list Z) : FsM unit :=
  on_dev (fun d => write_blocks d blk 1 data).

(** ** Allocator *)

Fixpoint first_free (l : list bool) (i : Z) : option Z :=
  match l with
  | [] => None
  | u :: l' => if u then first_free l' (i + 1) else Some i
  end.

Definition alloc_block : FsM Z :=
  fun f =>
    match first_free (used f) 0 with
    | Some i => (Ok i, set_used f (upd (used f) i true))
    | None => (Err NoSpace, f)
    end.

(** The first [j < count] with [used[i + j]]. *)
Fixpoint run_break (u : list bool) (i : Z) (count : nat) (j : Z) : option Z :=
  match count with
  | O => None
  | S c => if at_ true u (i + j) then Some j else run_break u i c (j + 1)
  end.

Fixpoint contiguous_loop (fuel : nat) (u : list bool) (count i : Z) : outcome FsError Z :=
  match fuel with
  | O => OutOfFuel
  | S fuel' =>
      if i + count <=? zlen u then
        match run_break u i (Z.to_nat count) 0 with
        | Some j => contiguous_loop fuel' u count (i + j + 1)
        | None => Ok i
        end
      else Err NoSpace
  end.

Definition mark_one (u : list bool) (b : Z) : list bool :=
  if b <? zlen u then upd u b true else u.

(** [for b in lo..hi { if b < n { used[b] = true } }] *)
Definition mark_range (u : list bool) (lo hi : Z) : list bool :=
  foldl mark_one u (zrange lo hi).

Definition alloc_contiguous (count : Z) : FsM Z :=
  if count =? 0 then sthrow IoError
  else fun f =>
    match contiguous_loop (S (S (length (used f)))) (used f) count 0 with
    | Ok i => (Ok i, set_used f (mark_range (used f) i (i + count)))
    | Err e => (Err e, f)
    | Panic => (Panic, f)
    | OutOfFuel => (OutOfFuel, f)
    end.

Definition free_count (f : EuroFs D) : Z := zlen (List.filter negb (used f)).

(** The blocks of an extent list, block numbers saturating. *)
Definition extent_blocks (exts : list (Z * Z)) : list Z :=
  concat (map (fun e : Z * Z =>
    map (fun k => saturating_add64 (fst e) k) (zrange 0 (snd e))) exts).

Definition mark_all (u : list bool) (bs : list Z) : list bool := foldl mark_one u bs.

Definition mark_used (bs : list Z) : FsM unit :=
  smodify (fun f => set_used f (mark_all (used f) bs)).

(** The blocks [root + b] for [b] in [bs], concatenated. *)
Fixpoint read_table (f : EuroFs D) (root : Z) (bs : list Z) : outcome FsError (list Z) :=
  match bs with
  | [] => Ok []
  | b :: bs' =>
      let? blk := add64 root b in
      let? buf := read_block f blk in
      let? rest := read_table f root bs' in
      Ok (buf ++ rest)
  end.

(** One entry of the pinned table: its inode block and the inode's extents. *)
Definition mark_entry (e : Z * Z) : FsM unit :=
  let! _ := mark_used [snd e] in
  fun f =>
    match read_block f (snd e) with
    | Ok ib =>
        match decode ib with
        | Ok inode => mark_used (extent_blocks (extents inode)) f
        | Err _ => (Ok tt, f)
        | Panic => (Panic, f)
        | OutOfFuel => (OutOfFuel, f)
        end
    | Err _ => (Ok tt, f)
    | Panic => (Panic, f)
    | OutOfFuel => (OutOfFuel, f)
    end.

Definition mark_state_blocks (objmap_root map_blocks : Z) : FsM unit :=
  let! _ := mark_used (zrange objmap_root (saturating_add64 objmap_root map_blocks)) in
  fun f =>
    match read_table f objmap_root (zrange 0 map_blocks) with
    | Ok data =>
        if zlen data <? 8 then (Ok tt, f)
        else sfor (table_entries data) mark_entry f
    | Err _ => (Ok tt, f)
    | Panic => (Panic, f)
    | OutOfFuel => (OutOfFuel, f)
    end.

(** The extents of a live object: from the cache, else from its inode. *)
Definition object_extents (o blk : Z) : FsM (list (Z * Z)) :=
  fun f =>
    match bt_get (extents_cache f) o with
    | Some e => (Ok e, f)
    | None =>
        match read_block f blk with
        | Ok buf =>
            match decode buf with
            | Ok inode =>
                (Ok (extents inode), set_extents_cache f (bt_insert (extents_cache f) o (extents inode)))
            | Err e => (Err e, f)
            | Panic => (Panic, f)
            | OutOfFuel => (OutOfFuel, f)
            end
        | Err e => (Err e, f)
        | Panic => (Panic, f)
        | OutOfFuel => (OutOfFuel, f)
        end
    end.

Definition mark_object (e : Z * Z) : FsM unit :=
  let! _ := mark_used [snd e] in
  let! exts := object_extents (fst e) (snd e) in
  mark_used (extent_blocks exts).

Definition set_sb_free (s : EuroFsSuperblock) (n : Z) : EuroFsSuperblock :=
  mkSb (magic s) (version_major s) (version_minor s) (uuid s) (sb_block_size s)
    (total_blocks s) n (reserved_blocks s) (created_at s) (last_mounted s)
    (last_written s) (checkpoint_id s) (checkpoint_block s) (object_map_root s)
    (extent_tree_root s) (root_dir_oid s) (encryption s) (kdf_params s) (wrapped_key s)
    (checksum s) (padding s).

Definition trim (prev : list bool) : FsM unit :=
  let! pending := sget pending_trim in
  let! _ := smodify (fun f => set_pending_trim f []) in
  let! _ := sfor pending (fun b =>
      fun f =>
        if (b <? zlen (used f)) && negb (at_ false (used f) b)
        then signore (on_dev (fun d => discard d b 1)) f
        else (Ok tt, f)) in
  smodify (fun f =>
    set_pending_trim f
      (List.filter (fun i => at_ false prev i && negb (at_ true (used f) i))
        (zrange 0 (zlen (used f))))).

(** The blocks in use: the reserved ones, the object-map table, the live objects
    and everything a snapshot pins. *)
Definition rebuild_bitmap : FsM unit :=
  let! _ := smodify (fun f => set_used f (map (fun _ => false) (used f))) in
  let! _ := smodify (fun f => set_used f (mark_range (used f) 0 (Z.min RESERVED_BLOCKS (zlen (used f))))) in
  let! s := sget sb in
  let! map_end := slift (add64 (object_map_root s) (extent_tree_root s)) in
  let! _ := mark_used (zrange (object_map_root s) map_end) in
  let! objs := sget objmap in
  let! _ := sfor objs mark_object in
  let! snaps := sget snapshots in
  sfor snaps (fun sn => mark_state_blocks (sn_objmap_root sn) (sn_map_blocks sn)).

Definition rebuild_allocator_trim (emit_trim : bool) : FsM unit :=
  let! prev := sget used in
  let! _ := rebuild_bitmap in
  let! _ := smodify (fun f => set_sb f (set_sb_free (sb f) (free_count f))) in
  if emit_trim then trim prev else sret tt.

Definition rebuild_allocator : FsM unit := rebuild_allocator_trim false.

(** ** Snapshot and quota tables *)

Definition load_snapshots : FsM unit :=
  fun f =>
    match read_block f SNAPSHOT_TABLE_BLOCK with
    | Ok buf =>
        match decode_snapshots buf with
        | Some l =>
            let f' := set_snapshots f l in
            match add64 (E := FsError) (foldl Z.max 0 (map sn_id l)) 1 with
            | Ok id => (Ok tt, set_next_snap_id f' id)
            | _ => (Panic, f')
            end
        | None => (Ok tt, f)
        end
    | Err _ => (Ok tt, f)
    | Panic => (Panic, f)
    | OutOfFuel => (OutOfFuel, f)
    end.

Definition save_snapshots : FsM unit :=
  let! l := sget snapshots in
  let! _ := write_block SNAPSHOT_TABLE_BLOCK (encode_snapshots l) in
  signore (on_dev flush).

Definition data_blocks_of (n : Inode) : Z := foldr (fun (e : Z * Z) acc => snd e + acc) 0 (extents n).

Definition usage_add (u blocks : Z) : FsM unit :=
  if 0 <? blocks then
    let! m := sget usage in
    let! v := slift (add64 (default 0 (bt_get m u)) blocks) in
    smodify (fun f => set_usage f (bt_insert (usage f) u v))
  else sret tt.

Definition usage_sub (u blocks : Z) : FsM unit :=
  if 0 <? blocks then
    smodify (fun f =>
      match bt_get (usage f) u with
      | Some v => set_usage f (bt_insert (usage f) u (saturating_sub v blocks))
      | None => f
      end)
  else sret tt.

Definition load_quota : FsM unit :=
  fun f =>
    match read_block f QUOTA_TABLE_BLOCK with
    | Ok buf =>
        match decode_quota buf with
        | Some m => (Ok tt, set_quota_limits f m)
        | None => (Ok tt, f)
        end
    | Err _ => (Ok tt, f)
    | Panic => (Panic, f)
    | OutOfFuel => (OutOfFuel, f)
    end.

Definition save_quota : FsM unit :=
  let! m := sget quota_limits in
  let! _ := write_block QUOTA_TABLE_BLOCK (encode_quota m) in
  signore (on_dev flush).

Definition read_inode (f : EuroFs D) (o : Z) : outcome FsError Inode :=
  match bt_get (objmap f) o with
  | None => Err NotFound
  | Some blk => let? buf := read_block f blk in decode buf
  end.

Definition rebuild_usage : FsM unit :=
  let! _ := smodify (fun f => set_usage f []) in
  let! m := sget objmap in
  sfor (map fst m) (fun o f =>
    match read_inode f o with
    | Ok inode => usage_add (uid inode) (data_blocks_of inode) f
    | Err _ => (Ok tt, f)
    | Panic => (Panic, f)
    | OutOfFuel => (OutOfFuel, f)
    end).

(** ** Object map and commit *)

Definition load_objmap : FsM unit :=
  let! s := sget sb in
  let! data := sgets (fun f =>
    read_table f (object_map_root s) (zrange 0 (Z.max (extent_tree_root s) 1))) in
  smodify (fun f => set_objmap f (decode_objmap data)).

Definition write_objmap : FsM (Z * Z) :=
  let! m := sget objmap in
  let blocks_needed := objmap_blocks m in
  let data := encode_objmap m in
  let! root := alloc_contiguous blocks_needed in
  let! _ := sfor (zrange 0 blocks_needed) (fun b => write_block (root + b) (slice data (b * BS) BS)) in
  sret (root, blocks_needed).

(** The superblock of the next checkpoint, sealed. *)
Definition next_sb (s : EuroFsSuperblock) (root blocks ckpt written free : Z) : EuroFsSuperblock :=
  let s' := mkSb (magic s) (version_major s) (version_minor s) (uuid s) (sb_block_size s)
    (total_blocks s) free (reserved_blocks s) (created_at s) (last_mounted s)
    written ckpt (checkpoint_block s) root blocks (root_dir_oid s) (encryption s)
    (kdf_params s) (wrapped_key s) (checksum s) (padding s) in
  set_checksum s' (compute_checksum s').

Definition set_sb_map (s : EuroFsSuperblock) (root blocks : Z) : EuroFsSuperblock :=
  mkSb (magic s) (version_major s) (version_minor s) (uuid s) (sb_block_size s)
    (total_blocks s) (free_blocks s) (reserved_blocks s) (created_at s) (last_mounted s)
    (last_written s) (checkpoint_id s) (checkpoint_block s) root
    blocks (root_dir_oid s) (encryption s) (kdf_params s) (wrapped_key s)
    (checksum s) (padding s).

Definition commit : FsM unit :=
  let! (root, blocks) := write_objmap in
  let! _ := smodify (fun f => set_sb f (set_sb_map (sb f) root blocks)) in
  let! ckpt := sgets (fun f => add64 (checkpoint_id (sb f)) 1) in
  let! _ := smodify (fun f => set_sb f (next_sb (sb f) root blocks ckpt (now f) (free_count f))) in
  let! s := sget sb in
  let! _ := on_dev (write_to s) in
  rebuild_allocator_trim true.

(** ** Objects *)

Fixpoint read_all (f : EuroFs D) (bs : list Z) : outcome FsError (list Z) :=
  match bs with
  | [] => Ok []
  | b :: bs' =>
      let? buf := read_block f b in
      let? rest := read_all f bs' in
      Ok (buf ++ rest)
  end.

Definition read_data (f : EuroFs D) (n : Inode) : outcome FsError (list Z) :=
  let? out :=
    match extents n with
    | [] => Ok (inline n)
    | _ =>
        let? _ := buffer_for (size n) in
        let? all := read_all f (extent_blocks (extents n)) in
        Ok (slice all 0 (size n))
    end in
  if negb (data_checksum n =? 0) && negb (xxh3_64 out =? data_checksum n)
  then Err Corruption
  else Ok out.

Definition forget_object (o : Z) : FsM unit :=
  smodify (fun f =>
    set_extents_cache (set_objmap f (bt_remove (objmap f) o)) (bt_remove (extents_cache f) o)).

(** The inode with its content replaced. *)
Definition with_data (n : Inode) (data : list Z) (exts : list (Z * Z)) (inl : list Z) : Inode :=
  mkInode (oid n) (iparent n) (otype n) (flags n) (uid n) (mode n)
    (zlen data) (mtime n) (xxh3_64 data) exts inl.

(** Block [b] of the data, padded with zeros. *)
Definition data_block (data : list Z) (b : Z) : list Z :=
  let s := slice data (b * BS) BS in s ++ zrepeat 0 (BS - zlen s).

(** The quota test of [write_object]. *)
Definition quota_allows (f : EuroFs D) (u old_uid old_blocks new_blocks : Z) : outcome FsError unit :=
  if negb (u =? 0) then
    match bt_get (quota_limits f) u with
    | Some limit =>
        let cur := default 0 (bt_get (usage f) u) in
        let base := if old_uid =? u then saturating_sub cur old_blocks else cur in
        let? total := add64 base new_blocks in
        if limit <? total then Err QuotaExceeded else Ok tt
    | None => Ok tt
    end
  else Ok tt.

(** The content of an object: inline when it is small, else in a run of new
    blocks. *)
Definition store_data (n : Inode) (data : list Z) : FsM Inode :=
  if zlen data <=? INLINE_CAP then sret (with_data n data [] data)
  else
    let nblocks := div_ceil (zlen data) BS in
    if U32_MAX <? nblocks then sthrow NoSpace
    else
      let! start := alloc_contiguous nblocks in
      let! _ := sfor (zrange 0 nblocks) (fun b => write_block (start + b) (data_block data b)) in
      sret (with_data n data [(start, nblocks)] []).

(** The inode in a new block, and the object map pointing to it. *)
Definition store_inode (n : Inode) : FsM unit :=
  let! blk := alloc_block in
  let! enc := slift (encode n) in
  let! _ := write_block blk enc in
  let! _ := smodify (fun f => set_objmap f (bt_insert (objmap f) (oid n) blk)) in
  smodify (fun f => set_extents_cache f (bt_insert (extents_cache f) (oid n) (extents n))).

Definition write_object (n : Inode) (data : list Z) : FsM unit :=
  let! (old_blocks, old_uid) := sgets (fun f =>
    match bt_get (objmap f) (oid n) with
    | Some _ => let? old := read_inode f (oid n) in Ok (data_blocks_of old, uid old)
    | None => Ok (0, uid n)
    end) in
  let new_blocks := if zlen data <=? INLINE_CAP then 0 else div_ceil (zlen data) BS in
  let! _ := sgets (fun f => quota_allows f (uid n) old_uid old_blocks new_blocks) in
  let! n' := store_data n data in
  let! _ := store_inode n' in
  let! _ := usage_sub old_uid old_blocks in
  usage_add (uid n) new_blocks.

(** ** Directories *)

Definition check_name (name : list Z) : outcome FsError unit :=
  if DIRENT_NAME_CAP <? zlen name then Err InvalidPath else Ok tt.

Definition read_dir_entries (f : EuroFs D) (dir_oid : Z) : outcome FsError (list dirent) :=
  let? inode := read_inode f dir_oid in
  if negb (otype inode =? TYPE_DIR) then Err NotADirectory
  else
    let? data := read_data f inode in
    Ok (parse_dir data).

Definition name_of (e : dirent) : list Z := fst (fst e).
Definition oid_of (e : dirent) : Z := snd (fst e).
Definition type_of (e : dirent) : Z := snd e.

Definition find_entry (es : list dirent) (name : list Z) : option (Z * Z) :=
  match List.find (fun e => bool_decide (name_of e = name)) es with
  | Some e => Some (oid_of e, type_of e)
  | None => None
  end.

Definition read_symlink_target (f : EuroFs D) (o : Z) : outcome FsError (list Z) :=
  let? inode := read_inode f o in
  if negb (otype inode =? TYPE_SYMLINK) then Err InvalidPath
  else
    let? bytes := read_data f inode in
    match from_utf8 bytes with Some t => Ok t | None => Err Corruption end.

Definition starts_with_slash (p : list Z) : bool :=
  match p with c :: _ => c =? Path.SLASH | [] => false end.

(** The loop of [resolve_follow] from directory [cur] over the components left;
    [budget] counts the symlink hops still allowed. *)
Fixpoint walk (f : EuroFs D) (follow_final : bool) (budget : nat)
  : Z -> list (list Z) -> Z -> outcome FsError (Z * Z) :=
  fix go (cur : Z) (comps : list (list Z)) (hops : Z) {struct comps} :=
    match comps with
    | [] => Ok (cur, hops)
    | c :: rest =>
        let? entries := read_dir_entries f cur in
        match find_entry entries c with
        | None => Err NotFound
        | Some (o, t) =>
            if (t =? TYPE_SYMLINK) && (negb (bool_decide (rest = [])) || follow_final) then
              if SYMLINK_MAX_HOPS <? hops + 1 then Err InvalidPath
              else
                let? target := read_symlink_target f o in
                match budget with
                | O => OutOfFuel
                | S b =>
                    walk f follow_final b
                      (if starts_with_slash target then ROOT_OID else cur)
                      (Path.split_path target ++ rest) (hops + 1)
                end
            else go o rest hops
        end
    end.

Definition WALK_BUDGET : nat := 40.

Definition PATH_CACHE_CAP : Z := 1024.

Definition resolve_follow (path : list Z) (follow_final : bool) : FsM Z :=
  fun f =>
    match (if follow_final then path_cache f !! path else None) with
    | Some o => (Ok o, f)
    | None =>
        match walk f follow_final WALK_BUDGET ROOT_OID (Path.split_path path) 0 with
        | Ok (cur, hops) =>
            if follow_final && (hops =? 0) then
              let c := if PATH_CACHE_CAP <=? Z.of_nat (base.size (path_cache f)) then ∅ else path_cache f in
              (Ok cur, set_path_cache f (<[path := cur]> c))
            else (Ok cur, f)
        | Err e => (Err e, f)
        | Panic => (Panic, f)
        | OutOfFuel => (OutOfFuel, f)
        end
    end.

Definition resolve (path : list Z) : FsM Z := resolve_follow path true.

Definition allowed (f : EuroFs D) (n : Inode) (want : Z) : bool :=
  if ctx_uid f =? 0 then true
  else
    let triple :=
      if uid n =? ctx_uid f then Z.land (Z.shiftr (mode n) 6) 7 else Z.land (mode n) 7 in
    Z.land triple want =? want.

Definition check_access (path : list Z) (want : Z) : FsM unit :=
  let! o := resolve path in
  let! inode := sgets (fun f => read_inode f o) in
  sgets (fun f => if allowed f inode want then Ok tt else Err PermissionDenied).

Definition check_parent_write (path : list Z) : FsM unit :=
  let par := Path.parent path in
  let par := if bool_decide (par = []) then [Path.SLASH] else par in
  check_access par 2.

Definition rewrite_dir (dir_oid : Z) (entries : list dirent) : FsM unit :=
  let! inode := sgets (fun f => read_inode f dir_oid) in
  let data := encode_dir_entries entries in
  let fresh := mkInode (oid inode) (iparent inode) (otype inode) (flags inode) (uid inode)
                 (mode inode) 0 (mtime inode) (data_checksum inode) [] [] in
  write_object fresh data.

(** [self.exists(path)] *)
Definition exists_ (path : list Z) : FsM bool :=
  fun f =>
    match resolve path f with
    | (Ok _, f') => (Ok true, f')
    | (Err _, f') => (Ok false, f')
    | (Panic, f') => (Panic, f')
    | (OutOfFuel, f') => (OutOfFuel, f')
    end.

(** [self.read_inode(oid).ok()] *)
Definition inode_opt (f : EuroFs D) (o : Z) : outcome FsError (option Inode) :=
  match read_inode f o with
  | Ok n => Ok (Some n)
  | Err _ => Ok None
  | Panic => Panic
  | OutOfFuel => OutOfFuel
  end.

Fixpoint map_outcome {A B} (g : A -> outcome FsError B) (l : list A) : outcome FsError (list B) :=
  match l with
  | [] => Ok []
  | x :: l' => let? y := g x in let? r := map_outcome g l' in Ok (y :: r)
  end.

Definition list_dir_internal (path : list Z) : FsM (list DirEntry) :=
  let! o := resolve path in
  let! entries := sgets (fun f => read_dir_entries f o) in
  sgets (fun f => map_outcome (fun e =>
    let? inode := inode_opt f (oid_of e) in
    let '(sz, mt) := match inode with Some i => (Layout.size i, mtime i) | None => (0, 0) end in
    Ok (mkEntry (name_of e) (if type_of e =? TYPE_DIR then Directory else File) sz 384 mt)) entries).

Definition list_dir (path : list Z) : FsM (list DirEntry) :=
  let! _ := check_access path 4 in
  let! o := resolve path in
  let! entries := sgets (fun f => read_dir_entries f o) in
  sgets (fun f => map_outcome (fun e =>
    let? inode := inode_opt f (oid_of e) in
    let t := type_of e in
    let '(sz, md, mt) :=
      match inode with
      | Some i => (if t =? TYPE_FILE then Layout.size i else 0, mode i, mtime i)
      | None => (0, if t =? TYPE_DIR then 493 else 420, 0)
      end in
    Ok (mkEntry (name_of e)
          (if t =? TYPE_DIR then Directory else if t =? TYPE_SYMLINK then Symlink else File)
          sz md mt)) entries).

(** [left] is [17 - hops]. *)
Fixpoint dir_versioned_loop (left : nat) (f : EuroFs D) (dir_oid : Z) : outcome FsError bool :=
  match inode_opt f dir_oid with
  | Ok (Some inode) =>
      if negb (Z.land (flags inode) FLAG_VERSIONED =? 0) then Ok true
      else if dir_oid =? ROOT_OID then Ok false
      else match left with
           | O => Ok false
           | S l => dir_versioned_loop l f (iparent inode)
           end
  | Ok None => Ok false
  | Err e => Err e
  | Panic => Panic
  | OutOfFuel => OutOfFuel
  end.

Definition dir_versioned (f : EuroFs D) (dir_oid : Z) : outcome FsError bool :=
  dir_versioned_loop 17 f dir_oid.

(** ** File versions *)

(** ["/.versions"] *)
Definition VERSIONS_DIR : list Z := [47; 46; 118; 101; 114; 115; 105; 111; 110; 115].
Definition MAX_VERSIONS : Z := 8.

Fixpoint trim_start (p : list Z) : list Z :=
  match p with
  | c :: r => if c =? Path.SLASH then trim_start r else p
  | [] => []
  end.

(** Slashes become [%]. *)
Definition version_key (path : list Z) : list Z :=
  map (fun c => if c =? Path.SLASH then 37 else c) (trim_start path).

Definition key_dir_of (path : list Z) : list Z := VERSIONS_DIR ++ Path.SLASH :: version_key path.

(** Decimal digits of a [u32]. *)
Fixpoint digits (fuel : nat) (n : Z) (acc : list Z) : list Z :=
  match fuel with
  | O => acc
  | S fuel' =>
      let acc' := (48 + n mod 10) :: acc in
      if n / 10 =? 0 then acc' else digits fuel' (n / 10) acc'
  end.

Definition show_u32 (n : Z) : list Z := digits 10 n [].

(** [str::parse::<u32>] on the digits after an optional plus sign. *)
Fixpoint parse_digits (acc : Z) (l : list Z) : option Z :=
  match l with
  | [] => Some acc
  | c :: l' =>
      if (48 <=? c) && (c <=? 57) then
        let v := acc * 10 + (c - 48) in
        if U32_MAX <? v then None else parse_digits v l'
      else None
  end.

Definition parse_u32 (l : list Z) : option Z :=
  match l with
  | [] => None
  | c :: l' =>
      if c =? 43 then match l' with [] => None | _ => parse_digits 0 l' end
      else parse_digits 0 l
  end.

(** The number of a version file name ["v<n>"]. *)
Definition version_number (name : list Z) : option Z :=
  match name with
  | c :: n => if c =? 118 then parse_u32 n else None
  | [] => None
  end.

Definition version_numbers (es : list DirEntry) : list Z :=
  omap (fun e => version_number (entry_name e)) es.

Fixpoint sort_insert (x : Z) (l : list Z) : list Z :=
  match l with
  | [] => [x]
  | y :: l' => if x <=? y then x :: l else y :: sort_insert x l'
  end.

Definition sort_unstable (l : list Z) : list Z := foldr sort_insert [] l.

Definition version_path (key_dir : list Z) (n : Z) : list Z :=
  key_dir ++ Path.SLASH :: 118 :: show_u32 n.

Definition add_u32 (a b : Z) : outcome FsError Z :=
  if a + b <=? U32_MAX then Ok (a + b) else Panic.

Fixpoint starts_with (p prefix : list Z) : bool :=
  match prefix, p with
  | [], _ => true
  | x :: prefix', y :: p' => (x =? y) && starts_with p' prefix'
  | _ :: _, [] => false
  end.

(** ** Operations that change the tree *)

Definition position_of (P : dirent -> bool) (es : list dirent) : option nat :=
  match list_find (fun e => P e = true) es with
  | Some (i, _) => Some i
  | None => None
  end.

Definition remove_at {A} (i : nat) (l : list A) : list A := take i l ++ drop (S i) l.

Definition named (name : list Z) (e : dirent) : bool := bool_decide (name_of e = name).

Definition clear_path_cache : FsM unit := smodify (fun f => set_path_cache f ∅).

Definition remove_file (path : list Z) : FsM unit :=
  let! _ := check_parent_write path in
  let! parent_oid := resolve (Path.parent path) in
  let name := Path.filename path in
  let! entries := sgets (fun f => read_dir_entries f parent_oid) in
  match position_of (fun e => named name e && ((type_of e =? TYPE_FILE) || (type_of e =? TYPE_SYMLINK))) entries with
  | None => sthrow NotFound
  | Some pos =>
      let o := default 0 (oid_of <$> entries !! pos) in
      let! inode := sgets (fun f => read_inode f o) in
      if negb (Z.land (flags inode) (Z.lor FLAG_IMMUTABLE FLAG_APPEND_ONLY) =? 0)
      then sthrow PermissionDenied
      else
        let! _ := usage_sub (uid inode) (data_blocks_of inode) in
        let! _ := forget_object o in
        let! _ := rewrite_dir parent_oid (remove_at pos entries) in
        let! _ := clear_path_cache in
        commit
  end.

(** [let o = self.next_oid; self.next_oid += 1;] *)
Definition fresh_oid : FsM Z :=
  let! o := sget next_oid in
  let! o' := slift (add64 o 1) in
  let! _ := smodify (fun f => set_next_oid f o') in
  sret o.

Definition set_inode_uid (n : Inode) (u : Z) : Inode :=
  mkInode (oid n) (iparent n) (otype n) (flags n) u (mode n) (Layout.size n) (mtime n)
    (data_checksum n) (extents n) (inline n).

Definition create_dir (path : list Z) : FsM unit :=
  let! cu := sget ctx_uid in
  let! _ := if negb (cu =? 0) then check_parent_write path else sret tt in
  let! parent_oid := resolve (Path.parent path) in
  let name := Path.filename path in
  if bool_decide (name = []) then sret tt
  else
    let! _ := slift (check_name name) in
    let! entries := sgets (fun f => read_dir_entries f parent_oid) in
    if existsb (named name) entries then sthrow AlreadyExists
    else
      let! o := fresh_oid in
      let! t := sget now in
      let! _ := write_object (set_inode_uid (inode_new o parent_oid TYPE_DIR t) cu) [] in
      let! _ := rewrite_dir parent_oid (entries ++ [(name, o, TYPE_DIR)]) in
      let! _ := commit in
      smodify (fun f => set_path_cache f (<[path := o]> (path_cache f))).

(** [save_version_inner], given the writer for the version file. *)
Definition save_version_inner (write : list Z -> list Z -> FsM unit)
    (path old_data : list Z) (old_mtime : Z) : FsM unit :=
  let! e := exists_ VERSIONS_DIR in
  let! _ := if negb e then create_dir VERSIONS_DIR else sret tt in
  let key_dir := key_dir_of path in
  let! e := exists_ key_dir in
  let! _ := if negb e then create_dir key_dir else sret tt in
  let! existing := list_dir key_dir in
  let nums := sort_unstable (version_numbers existing) in
  let! next := slift (match last nums with Some n => add_u32 n 1 | None => Ok 1 end) in
  let! clock := sget now in
  let! _ := smodify (fun f => set_now f old_mtime) in
  let! _ := fun f =>
    let '(r, f') := write (version_path key_dir next) old_data f in (r, set_now f' clock) in
  if MAX_VERSIONS <? zlen nums + 1 then
    sfor (take (Z.to_nat (zlen nums + 1 - MAX_VERSIONS)) nums)
      (fun n => signore (remove_file (version_path key_dir n)))
  else sret tt.

Definition save_version (write : list Z -> list Z -> FsM unit)
    (path old_data : list Z) (old_mtime : Z) : FsM unit :=
  let! saved_uid := sget ctx_uid in
  let! _ := smodify (fun f => set_ctx_uid f 0) in
  fun f =>
    let '(r, f') := save_version_inner write path old_data old_mtime f in
    (r, set_ctx_uid f' saved_uid).

(** The path a write through a symlink is redirected to. *)
Definition redirect (parent_path target : list Z) : list Z :=
  if starts_with_slash target then target
  else if bool_decide (parent_path = []) || bool_decide (parent_path = [Path.SLASH])
  then Path.SLASH :: target
  else parent_path ++ Path.SLASH :: target.

(** Is [old] a prefix of [data]? *)
Definition extends (data old : list Z) : bool :=
  (zlen old <=? zlen data) && bool_decide (slice data 0 (zlen old) = old).

(** The checks on an existing file before it is overwritten, and the flags,
    owner and mode it keeps. *)
Definition check_overwrite (write : list Z -> list Z -> FsM unit)
    (path : list Z) (parent_oid o : Z) (data : list Z) : FsM (Z * Z * Z) :=
  let! old := sgets (fun f => read_inode f o) in
  let! _ := sgets (fun f => if allowed f old 2 then Ok tt else Err PermissionDenied) in
  let! versioned :=
    if starts_with path VERSIONS_DIR then sret false
    else if negb (Z.land (flags old) FLAG_VERSIONED =? 0) then sret true
    else sgets (fun f => dir_versioned f parent_oid) in
  let! _ :=
    if (versioned : bool) then
      let! old_data := sgets (fun f => read_data f old) in
      if bool_decide (old_data = data) then sret tt
      else save_version write path old_data (mtime old)
    else sret tt in
  if negb (Z.land (flags old) FLAG_IMMUTABLE =? 0) then sthrow PermissionDenied
  else
    let! _ :=
      if negb (Z.land (flags old) FLAG_APPEND_ONLY =? 0) then
        let! old_data := sgets (fun f => read_data f old) in
        if extends data old_data then sret tt else sthrow PermissionDenied
      else sret tt in
    sret (flags old, uid old, mode old).

Definition file_inode (o p t fl u : Z) (m : option Z) : Inode :=
  let n := inode_new o p TYPE_FILE t in
  mkInode o p TYPE_FILE fl u (default (mode n) m) 0 t 0 [] [].

(** [fuel] bounds the recursion: at most 40 symlink hops, then the write of one
    version file. *)
Fixpoint write_file_impl (fuel : nat) (path data : list Z) (depth : Z) : FsM unit :=
  match fuel with
  | O => slift OutOfFuel
  | S fuel' =>
      let parent_path := Path.parent path in
      let name := Path.filename path in
      if bool_decide (name = []) then sthrow InvalidPath
      else
        let! _ := slift (check_name name) in
        let! parent_oid := resolve parent_path in
        let! entries := sgets (fun f => read_dir_entries f parent_oid) in
        match find_entry entries name with
        | Some (o, t) =>
            if t =? TYPE_DIR then sthrow NotAFile
            else if t =? TYPE_SYMLINK then
              if SYMLINK_MAX_HOPS <=? depth then sthrow InvalidPath
              else
                let! target := sgets (fun f => read_symlink_target f o) in
                write_file_impl fuel' (redirect parent_path target) data (depth + 1)
            else
              let! (fl, u, m) :=
                check_overwrite (fun p d => write_file_impl fuel' p d 0) path parent_oid o data in
              let! t := sget now in
              let! _ := write_object (file_inode o parent_oid t fl u (Some m)) data in
              commit
        | None =>
            let! pdir := sgets (fun f => read_inode f parent_oid) in
            let! _ := sgets (fun f => if allowed f pdir 2 then Ok tt else Err PermissionDenied) in
            let! o := fresh_oid in
            let! u := sget ctx_uid in
            let! t := sget now in
            let! _ := write_object (file_inode o parent_oid t 0 u None) data in
            let! _ := rewrite_dir parent_oid (entries ++ [(name, o, TYPE_FILE)]) in
            commit
        end
  end.

Definition WRITE_FUEL : nat := 42.

Definition write_file (path data : list Z) : FsM unit := write_file_impl WRITE_FUEL path data 0.

Definition read_file (path : list Z) : FsM (list Z) :=
  let! o := resolve path in
  let! inode := sgets (fun f => read_inode f o) in
  if negb (otype inode =? TYPE_FILE) then sthrow NotAFile
  else
    let! _ := sgets (fun f => if allowed f inode 4 then Ok tt else Err PermissionDenied) in
    sgets (fun f => read_data f inode).

Definition create_symlink (path target : list Z) : FsM unit :=
  let! parent_oid := resolve (Path.parent path) in
  let name := Path.filename path in
  if bool_decide (name = []) then sthrow InvalidPath
  else
    let! _ := slift (check_name name) in
    let! entries := sgets (fun f => read_dir_entries f parent_oid) in
    if existsb (named name) entries then sthrow AlreadyExists
    else
      let! o := fresh_oid in
      let! t := sget now in
      let! u := sget ctx_uid in
      let! _ := write_object (set_inode_uid (inode_new o parent_oid TYPE_SYMLINK t) u) target in
      let! _ := rewrite_dir parent_oid (entries ++ [(name, o, TYPE_SYMLINK)]) in
      commit.

Definition read_link (path : list Z) : FsM (list Z) :=
  let! o := resolve_follow path false in
  sgets (fun f => read_symlink_target f o).

(** The anti-loop walk of [rename] from the new parent up to the root. *)
Fixpoint ancestor_loop (fuel : nat) (f : EuroFs D) (o w : Z) : outcome FsError unit :=
  match fuel with
  | O => OutOfFuel
  | S fuel' =>
      if w =? o then Err InvalidPath
      else if w =? ROOT_OID then Ok tt
      else
        let? inode := read_inode f w in
        ancestor_loop fuel' f o (iparent inode)
  end.

Definition ancestor_fuel (f : EuroFs D) : nat := S (S (length (objmap f))).

Definition set_inode_parent (n : Inode) (p : Z) : Inode :=
  mkInode (oid n) p (otype n) (flags n) (uid n) (mode n) (Layout.size n) (mtime n)
    (data_checksum n) (extents n) (inline n).

Definition rename_entry (new_name : list Z) (e : dirent) : dirent := (new_name, oid_of e, type_of e).

Definition rename (old new : list Z) : FsM unit :=
  let! _ := check_parent_write old in
  let! _ := check_parent_write new in
  let! old_parent := resolve (Path.parent old) in
  let old_name := Path.filename old in
  let! new_parent := resolve (Path.parent new) in
  let new_name := Path.filename new in
  if bool_decide (old_name = []) || bool_decide (new_name = []) then sthrow InvalidPath
  else
    let! _ := slift (check_name new_name) in
    let! src := sgets (fun f => read_dir_entries f old_parent) in
    match find_entry src old_name with
    | None => sthrow NotFound
    | Some (o, t) =>
        let! _ :=
          if t =? TYPE_FILE then
            let! inode := sgets (fun f => read_inode f o) in
            if negb (Z.land (flags inode) (Z.lor FLAG_IMMUTABLE FLAG_APPEND_ONLY) =? 0)
            then sthrow PermissionDenied else sret tt
          else sret tt in
        let! _ :=
          if t =? TYPE_DIR then sgets (fun f => ancestor_loop (ancestor_fuel f) f o new_parent)
          else sret tt in
        let finish :=
          let! _ := clear_path_cache in commit in
        if old_parent =? new_parent then
          let rename_in entries :=
            match position_of (named old_name) entries with
            | None => sthrow NotFound
            | Some pos =>
                let! _ := rewrite_dir old_parent (alter (rename_entry new_name) pos entries) in
                finish
            end in
          match position_of (named new_name) src with
          | Some tp =>
              let target := src !! tp in
              let t_oid := default 0 (oid_of <$> target) in
              if t_oid =? o then sret tt
              else if default 0 (type_of <$> target) =? TYPE_DIR then sthrow AlreadyExists
              else
                let! _ := forget_object t_oid in
                rename_in (remove_at tp src)
          | None => rename_in src
          end
        else
          let! to := sgets (fun f => read_dir_entries f new_parent) in
          let move_into to :=
            let! _ :=
              if t =? TYPE_DIR then
                let! inode := sgets (fun f => read_inode f o) in
                let n := set_inode_parent inode new_parent in
                let! data := sgets (fun f => read_data f n) in
                write_object n data
              else sret tt in
            let! _ := rewrite_dir old_parent (List.filter (fun e => negb (named old_name e)) src) in
            let! _ := rewrite_dir new_parent (to ++ [(new_name, o, t)]) in
            finish in
          match position_of (named new_name) to with
          | Some tp =>
              let target := to !! tp in
              if default 0 (type_of <$> target) =? TYPE_DIR then sthrow AlreadyExists
              else
                let! _ := forget_object (default 0 (oid_of <$> target)) in
                move_into (remove_at tp to)
          | None => move_into to
          end
    end.

Definition remove_dir (path : list Z) : FsM unit :=
  let! _ := check_parent_write path in
  let! o := resolve path in
  if o =? ROOT_OID then sthrow InvalidPath
  else
    let! inode := sgets (fun f => read_inode f o) in
    if negb (otype inode =? TYPE_DIR) then sthrow NotADirectory
    else
      let! es := sgets (fun f => read_dir_entries f o) in
      if negb (bool_decide (es = [])) then sthrow NotEmpty
      else
        let! _ := usage_sub (uid inode) (data_blocks_of inode) in
        let! parent_oid := resolve (Path.parent path) in
        let name := Path.filename path in
        let! entries := sgets (fun f => read_dir_entries f parent_oid) in
        match position_of (fun e => named name e && (type_of e =? TYPE_DIR)) entries with
        | None => sthrow NotFound
        | Some pos =>
            let! _ := forget_object o in
            let! _ := rewrite_dir parent_oid (remove_at pos entries) in
            let! _ := clear_path_cache in
            commit
        end.

(** ** Metadata *)

Definition set_uid_context (u : Z) : FsM unit := smodify (fun f => set_ctx_uid f u).
Definition set_clock (t : Z) : FsM unit := smodify (fun f => set_now f t).

Definition owner (path : list Z) : FsM Z :=
  let! o := resolve path in
  let! inode := sgets (fun f => read_inode f o) in
  sret (uid inode).

Definition get_flags (path : list Z) : FsM Z :=
  let! o := resolve path in
  let! inode := sgets (fun f => read_inode f o) in
  sret (flags inode).

Definition set_inode_mode (n : Inode) (m : Z) : Inode :=
  mkInode (oid n) (iparent n) (otype n) (flags n) (uid n) m (Layout.size n) (mtime n)
    (data_checksum n) (extents n) (inline n).

Definition set_inode_flags (n : Inode) (fl : Z) : Inode :=
  mkInode (oid n) (iparent n) (otype n) fl (uid n) (mode n) (Layout.size n) (mtime n)
    (data_checksum n) (extents n) (inline n).

Definition chmod (path : list Z) (m : Z) : FsM unit :=
  let! o := resolve path in
  let! inode := sgets (fun f => read_inode f o) in
  let! cu := sget ctx_uid in
  if negb (cu =? 0) && negb (cu =? uid inode) then sthrow PermissionDenied
  else if negb (Z.land (flags inode) FLAG_IMMUTABLE =? 0) then sthrow PermissionDenied
  else
    let! data := sgets (fun f => read_data f inode) in
    let! _ := write_object (set_inode_mode inode (Z.land m 4095)) data in
    commit.

Definition chown (path : list Z) (u : Z) : FsM unit :=
  let! o := resolve path in
  let! inode := sgets (fun f => read_inode f o) in
  if negb (Z.land (flags inode) FLAG_IMMUTABLE =? 0) then sthrow PermissionDenied
  else if uid inode =? u then sret tt
  else
    let! data := sgets (fun f => read_data f inode) in
    let! _ := write_object (set_inode_uid inode u) data in
    commit.

(** [flags & !FLAG_VERSIONED == 0] on [u32]. *)
Definition only_versioned (fl : Z) : bool := Z.land fl (Z.lxor U32_MAX FLAG_VERSIONED) =? 0.

Definition set_flags (path : list Z) (fl : Z) : FsM unit :=
  let! o := resolve path in
  let! inode := sgets (fun f => read_inode f o) in
  if negb (otype inode =? TYPE_FILE)
     && negb ((otype inode =? TYPE_DIR) && only_versioned fl)
  then sthrow NotAFile
  else
    let! data := sgets (fun f => read_data f inode) in
    let! _ := write_object (set_inode_flags inode fl) data in
    commit.

Definition metadata (path : list Z) : FsM DirEntry :=
  let! o := resolve path in
  let! n := sgets (fun f => read_inode f o) in
  sret (mkEntry (Path.filename path)
    (if otype n =? TYPE_DIR then Directory else if otype n =? TYPE_SYMLINK then Symlink else File)
    (Layout.size n) (mode n) (mtime n)).

Definition space_info (f : EuroFs D) : Z * Z := (zlen (used f) * BS, free_count f * BS).

(** ** Versions *)

(** Descending by version number. *)
Fixpoint version_insert (x : Z * Z * Z) (l : list (Z * Z * Z)) : list (Z * Z * Z) :=
  match l with
  | [] => [x]
  | y :: l' => if fst (fst y) <=? fst (fst x) then x :: l else y :: version_insert x l'
  end.

Definition versions (path : list Z) : FsM (list (Z * Z * Z)) :=
  let! e := exists_ path in
  let! _ := if (e : bool) then check_access path 4 else sret tt in
  fun f =>
    match list_dir_internal (key_dir_of path) f with
    | (Ok entries, f') =>
        let l := omap (fun e =>
          match version_number (entry_name e) with
          | Some n => Some (n, entry_size e, entry_mtime e)
          | None => None
          end) entries in
        (Ok (foldr version_insert [] l), f')
    | (Err _, f') => (Ok [], f')
    | (Panic, f') => (Panic, f')
    | (OutOfFuel, f') => (OutOfFuel, f')
    end.

Definition restore_version (path : list Z) (n : Z) : FsM unit :=
  let! saved := sget ctx_uid in
  let! _ := smodify (fun f => set_ctx_uid f 0) in
  let! data := fun f =>
    let '(r, f') := read_file (version_path (key_dir_of path) n) f in (r, set_ctx_uid f' saved) in
  write_file path data.

(** ** Quotas *)

Definition quota_set (u limit_blocks : Z) : FsM unit :=
  if u =? 0 then sthrow PermissionDenied
  else
    let! m := sget quota_limits in
    let! _ :=
      if limit_blocks =? 0 then smodify (fun f => set_quota_limits f (bt_remove (quota_limits f) u))
      else if (MAX_QUOTA_ENTRIES <=? zlen m) && negb (bt_contains m u) then sthrow NoSpace
      else smodify (fun f => set_quota_limits f (bt_insert (quota_limits f) u limit_blocks)) in
    save_quota.

Definition quota_info (f : EuroFs D) (u : Z) : Z * Z :=
  (default 0 (bt_get (usage f) u), default 0 (bt_get (quota_limits f) u)).

Definition quota_list (f : EuroFs D) : list (Z * Z * Z) :=
  let uids := sort_unstable (map fst (quota_limits f) ++ map fst (usage f)) in
  let uids := List.filter (fun u => negb (u =? 0)) (List.nodup Z.eq_dec uids) in
  map (fun u => (u, default 0 (bt_get (usage f) u), default 0 (bt_get (quota_limits f) u))) uids.

(** ** Snapshots *)

Definition max_oid (m : list (Z * Z)) : Z :=
  match last m with Some (o, _) => o | None => ROOT_OID end.

Definition snapshot_create (label : list Z) (fl : Z) : FsM Z :=
  let! l := sget snapshots in
  if MAX_SNAPSHOTS <=? zlen l then sthrow NoSpace
  else
    let! _ := commit in
    let! id := sget next_snap_id in
    let! id' := slift (add64 id 1) in
    let! _ := smodify (fun f => set_next_snap_id f id') in
    let! _ := smodify (fun f =>
      set_snapshots f (snapshots f ++
        [mkSnap id (checkpoint_id (sb f)) (now f) (object_map_root (sb f)) (extent_tree_root (sb f))
          (checkpoint_id (sb f)) fl (take_chars 28 label)])) in
    let! _ := save_snapshots in
    sret id.

Definition snapshot_list (f : EuroFs D) : list SnapshotInfo :=
  map (fun s => mkInfo (sn_id s) (sn_parent s) (sn_timestamp s) (sn_checkpoint_id s) (sn_flags s) (sn_label s))
    (snapshots f).

Definition snapshot_rollback (id : Z) : FsM unit :=
  let! l := sget snapshots in
  match List.find (fun s => sn_id s =? id) l with
  | None => sthrow NotFound
  | Some snap =>
      let! _ := smodify (fun f => set_sb f (set_sb_map (sb f) (sn_objmap_root snap) (sn_map_blocks snap))) in
      let! _ := load_objmap in
      let! m := sget objmap in
      let! o := slift (add64 (max_oid m) 1) in
      let! _ := smodify (fun f => set_next_oid f o) in
      let! _ := clear_path_cache in
      let! _ := smodify (fun f => set_extents_cache f []) in
      let! _ := rebuild_usage in
      commit
  end.

Definition snapshot_delete (id : Z) : FsM unit :=
  let! l := sget snapshots in
  let l' := List.filter (fun s => negb (sn_id s =? id)) l in
  let! _ := smodify (fun f => set_snapshots f l') in
  if zlen l' =? zlen l then sthrow NotFound
  else
    let! _ := save_snapshots in
    commit.

(** ** Scrub and repair *)

Record scrub_state := mkScrub { report : ScrubReport; referenced : list bool }.

(** At most eight messages are kept. *)
Definition push_message (m : ScrubMessage) (l : list ScrubMessage) : list ScrubMessage :=
  if zlen l <? 8 then l ++ [m] else l.

Definition report_error (m : ScrubMessage) (r : ScrubReport) : ScrubReport :=
  mkReport (objects r) (errors r + 1) (blocks_referenced r) (superblock_ok r) (bitmap_ok r)
    (repaired r) (data_verified r) (data_unrecoverable r) (push_message m (messages r)).

Definition report_unmarked (b : Z) (r : ScrubReport) : ScrubReport :=
  mkReport (objects r) (errors r) (blocks_referenced r) (superblock_ok r) false
    (repaired r) (data_verified r) (data_unrecoverable r) (push_message (NotMarked b) (messages r)).

Definition report_object (r : ScrubReport) : ScrubReport :=
  mkReport (objects r + 1) (errors r) (blocks_referenced r) (superblock_ok r) (bitmap_ok r)
    (repaired r) (data_verified r) (data_unrecoverable r) (messages r).

Definition report_blocks (n : Z) (r : ScrubReport) : ScrubReport :=
  mkReport (objects r) (errors r) (blocks_referenced r + n) (superblock_ok r) (bitmap_ok r)
    (repaired r) (data_verified r) (data_unrecoverable r) (messages r).

Definition report_verified (r : ScrubReport) : ScrubReport :=
  mkReport (objects r) (errors r) (blocks_referenced r) (superblock_ok r) (bitmap_ok r)
    (repaired r) (data_verified r + 1) (data_unrecoverable r) (messages r).

Definition report_unrecoverable (r : ScrubReport) : ScrubReport :=
  mkReport (objects r) (errors r) (blocks_referenced r) (superblock_ok r) (bitmap_ok r)
    (repaired r) (data_verified r) (data_unrecoverable r + 1) (messages r).

Definition scrub_block (f : EuroFs D) (st : scrub_state) (b : Z) : scrub_state :=
  let '(mkScrub r ref) := st in
  if zlen ref <=? b then st
  else
    let r := if at_ false ref b then report_error (CrossLink b) r else r in
    let r := if at_ false (used f) b then r else report_unmarked b r in
    mkScrub r (upd ref b true).

Definition scrub_extent (f : EuroFs D) (o : Z) (st : scrub_state) (e : Z * Z) : outcome FsError scrub_state :=
  let '(mkScrub r ref) := st in
  let r := report_blocks (snd e) r in
  let? e_end := add64 (fst e) (snd e) in
  if block_count (dev f) <? e_end then Ok (mkScrub (report_error (ExtentOutside o (fst e) (snd e)) r) ref)
  else Ok (foldl (scrub_block f) (mkScrub r ref) (zrange (fst e) e_end)).

Fixpoint fold_outcome {A S} (g : S -> A -> outcome FsError S) (s : S) (l : list A) : outcome FsError S :=
  match l with
  | [] => Ok s
  | x :: l' => let? s' := g s x in fold_outcome g s' l'
  end.

Definition scrub_data (f : EuroFs D) (o : Z) (n : Inode) (r : ScrubReport) : outcome FsError ScrubReport :=
  if negb (data_checksum n =? 0) then
    match read_data f n with
    | Ok _ => Ok (report_verified r)
    | Err _ => Ok (report_unrecoverable (report_error (DataMismatch o) r))
    | Panic => Panic
    | OutOfFuel => OutOfFuel
    end
  else Ok r.

Definition scrub_object (f : EuroFs D) (st : scrub_state) (e : Z * Z) : outcome FsError scrub_state :=
  let '(mkScrub r ref) := st in
  let r := report_object r in
  let ref := if snd e <? zlen ref then upd ref (snd e) true else ref in
  match read_inode f (fst e) with
  | Ok n =>
      let? r := scrub_data f (fst e) n r in
      fold_outcome (scrub_extent f (fst e)) (mkScrub r ref) (extents n)
  | Err _ => Ok (mkScrub (report_error (InodeCorrupt (fst e) (snd e)) r) ref)
  | Panic => Panic
  | OutOfFuel => OutOfFuel
  end.

Definition scrub (f : EuroFs D) : outcome FsError ScrubReport :=
  let? degraded := degraded_slots (dev f) in
  let r0 :=
    if degraded =? 0 then mkReport 0 0 0 true true 0 0 0 []
    else if degraded =? 1 then mkReport 0 1 0 true true 0 0 0 [SlotDegraded]
    else mkReport 0 1 0 false true 0 0 0 [BothSlotsCorrupt] in
  let? st := fold_outcome (scrub_object f) (mkScrub r0 (map (fun _ => false) (used f))) (objmap f) in
  Ok (report st).

Definition repair : FsM ScrubReport :=
  let! healed := fun f =>
    match heal_slots (dev f) with
    | (Ok k, d) => (Ok k, set_dev f d)
    | (Err _, d) => (Ok 0, set_dev f d)
    | (Panic, d) => (Panic, set_dev f d)
    | (OutOfFuel, d) => (OutOfFuel, set_dev f d)
    end in
  let! r := sgets scrub in
  sret (mkReport (objects r) (errors r) (blocks_referenced r) (superblock_ok r) (bitmap_ok r)
    healed (data_verified r) (data_unrecoverable r)
    (if 0 <? healed then messages r ++ [SlotsRestored healed] else messages r)).

(** ** Format and mount *)

Definition blank_fs (d : D) (s : EuroFsSuperblock) (t : Z) : EuroFs D :=
  mkFs d s [] (zrepeat false (block_count d)) (ROOT_OID + 1) t [] 1 [] ∅ [] 0 [] [].

(** The file system a consuming constructor returns. *)
Definition returned (r : outcome FsError unit * EuroFs D) : outcome FsError (EuroFs D) :=
  match r with
  | (Ok _, f) => Ok f
  | (Err e, _) => Err e
  | (Panic, _) => Panic
  | (OutOfFuel, _) => OutOfFuel
  end.

Definition format_body (t : Z) : FsM unit :=
  let! _ := smodify (fun f => set_used f (mark_range (used f) 0 (Z.min RESERVED_BLOCKS (zlen (used f))))) in
  let! blk := alloc_block in
  let! enc := slift (encode (inode_new ROOT_OID ROOT_OID TYPE_DIR t)) in
  let! _ := write_block blk enc in
  let! _ := smodify (fun f => set_objmap f (bt_insert (objmap f) ROOT_OID blk)) in
  commit.

Definition format (d : D) (u : list Z) (t : Z) : outcome FsError (EuroFs D) :=
  if negb (block_size d =? BS) then Panic
  else returned (format_body t (blank_fs d (new_empty (block_count d) u t) t)).

Definition mount_body : FsM unit :=
  let! _ := load_objmap in
  let! _ := load_snapshots in
  let! _ := rebuild_allocator in
  let! _ := load_quota in
  let! _ := rebuild_usage in
  let! m := sget objmap in
  let! o := slift (add64 (max_oid m) 1) in
  let! _ := smodify (fun f => set_next_oid f o) in
  let! degraded := sgets (fun f => degraded_slots (dev f)) in
  if degraded =? 1 then signore (on_dev heal_slots) else sret tt.

Definition mount (d : D) (t : Z) : outcome FsError (EuroFs D) :=
  if negb (block_size d =? BS) then Panic
  else
    let? s := read_from d in
    returned (mount_body (blank_fs d s t)).

End fs.

End EuroFs.
