(* ===== verification/Alloc.v ===== *)
(** The block allocator of EuroFS ([alloc_block], [alloc_contiguous] and the
    marking loops of [src/crates/eurofs/src/disk.rs]): first fit, exact marking,
    termination. *)

From stdpp Require Import gmap.
From S2P Require Import Prelude Bytes Block Checksum Fs BTree Superblock Layout EuroFs.
Import Block Fs BTree Superblock Layout EuroFs.

Module Alloc.

(** Block [i] is marked in the bitmap. *)
Definition marked (u : list bool) (i : Z) : Prop := at_ false u i = true.

#[global] Instance marked_dec u i : Decision (marked u i).
Proof. unfold marked. apply _. Defined.

Lemma marked_bound u i : marked u i -> i < zlen u.
Proof.
  unfold marked. intros H. destruct (Z.lt_ge_cases i (zlen u)); [done|].
  by rewrite at_default in H.
Qed.

(** The two defaults agree inside the bitmap. *)
Lemma at_true u i : 0 <= i < zlen u -> at_ true u i = true <-> marked u i.
Proof.
  intros Hi. unfold marked. pose proof (lookup_at true u i Hi) as E1.
  pose proof (lookup_at false u i Hi) as E2. rewrite E1 in E2. injection E2 as ->. done.
Qed.

Lemma zlen_mark_one u b : zlen (mark_one u b) = zlen u.
Proof. unfold mark_one. case_if; [apply zlen_upd|done]. Qed.

Lemma zlen_mark_all u bs : zlen (mark_all u bs) = zlen u.
Proof.
  unfold mark_all. revert u. induction bs as [|b bs IH]; intros u; [done|]. cbn.
  by rewrite IH, zlen_mark_one.
Qed.

Lemma marked_one u b i :
  0 <= b -> 0 <= i -> marked (mark_one u b) i <-> marked u i \/ (i = b /\ i < zlen u).
Proof.
  intros Hb Hi. unfold mark_one, marked. case_if.
  - destruct (decide (i = b)) as [->|Hne].
    + rewrite at_upd_eq by lia. intuition lia.
    + rewrite at_upd_ne by lia. intuition lia.
  - intuition lia.
Qed.

Lemma marked_all u bs i :
  Forall (fun b => 0 <= b) bs -> 0 <= i ->
  marked (mark_all u bs) i <-> marked u i \/ (i ∈ bs /\ i < zlen u).
Proof.
  intros Hbs Hi. unfold mark_all. revert u. induction Hbs as [|b bs Hb Hbs IH]; intros u; cbn.
  - rewrite elem_of_nil. tauto.
  - rewrite IH, marked_one, zlen_mark_one, elem_of_cons by done. tauto.
Qed.

Lemma marked_range u lo hi i :
  0 <= lo -> 0 <= i ->
  marked (mark_range u lo hi) i <-> marked u i \/ (lo <= i < hi /\ i < zlen u).
Proof.
  intros Hlo Hi. change (mark_range u lo hi) with (mark_all u (zrange lo hi)).
  rewrite marked_all, elem_of_zrange; [done| |done].
  apply Forall_forall. intros b Hb%elem_of_zrange. lia.
Qed.

Lemma zlen_mark_range u lo hi : zlen (mark_range u lo hi) = zlen u.
Proof. apply zlen_mark_all. Qed.

(** ** Single blocks *)

Lemma at_cons_0 {A} (d x : A) l : at_ d (x :: l) 0 = x.
Proof. done. Qed.

Lemma at_cons_S {A} (d x : A) l i : 0 <= i -> at_ d (x :: l) (i + 1) = at_ d l i.
Proof. intros. unfold at_. by rewrite Z2Nat.inj_add, Nat.add_1_r by lia. Qed.

Lemma first_free_spec u i :
  match first_free u i with
  | Some j => i <= j < i + zlen u /\ ~ marked u (j - i) /\ (forall k, 0 <= k < j - i -> marked u k)
  | None => forall k, 0 <= k < zlen u -> marked u k
  end.
Proof.
  revert i. induction u as [|[|] u IH]; intros i; cbn [first_free].
  - intros k Hk. unfold zlen in Hk. cbn in Hk. lia.
  - specialize (IH (i + 1)). rewrite zlen_cons.
    assert (Hstep : forall k, 0 <= k -> (k = 0 \/ marked u (k - 1)) -> marked (true :: u) k).
    { intros k Hk [->|Hm]; [done|]. destruct (decide (k = 0)) as [->|]; [done|].
      unfold marked in *. replace k with (k - 1 + 1) by lia. rewrite at_cons_S by lia. done. }
    destruct (first_free u (i + 1)) as [j|].
    + destruct IH as (Hj & Hf & Hlt). split_and!; [lia|lia| |].
      * unfold marked in *. replace (j - i) with (j - (i + 1) + 1) by lia. rewrite at_cons_S by lia. done.
      * intros k Hk. apply Hstep; [lia|]. destruct (decide (k = 0)); [by left|right]. apply Hlt. lia.
    + intros k Hk. apply Hstep; [lia|]. destruct (decide (k = 0)); [by left|right]. apply IH. lia.
  - rewrite zlen_cons. pose proof (zlen_nonneg u). split_and!; [lia|lia| |intros; lia].
    by rewrite Z.sub_diag.
Qed.

(** ** Runs *)

Lemma run_break_spec u i c j :
  match run_break u i c j with
  | Some k => j <= k < j + Z.of_nat c /\ at_ true u (i + k) = true
  | None => forall k, j <= k < j + Z.of_nat c -> at_ true u (i + k) = false
  end.
Proof.
  revert j. induction c as [|c IH]; intros j; cbn [run_break]; [intros; lia|].
  destruct (at_ true u (i + j)) eqn:E.
  - split; [lia|done].
  - specialize (IH (j + 1)). destruct (run_break u i c (j + 1)) as [k|].
    + split; [lia|tauto].
    + intros k Hk. destruct (decide (k = j)) as [->|]; [done|]. apply IH. lia.
Qed.

(** A free run of [count] blocks at [i]. *)
Definition free_run (u : list bool) (count i : Z) : Prop :=
  0 <= i /\ i + count <= zlen u /\ forall b, i <= b < i + count -> ~ marked u b.

Lemma contiguous_loop_spec fuel u count i :
  0 < count -> 0 <= i -> zlen u - i < Z.of_nat fuel -> (1 <= fuel)%nat ->
  (forall k, 0 <= k < i -> ~ free_run u count k) ->
  match contiguous_loop fuel u count i with
  | Ok k => free_run u count k /\ (forall k', 0 <= k' < k -> ~ free_run u count k')
  | Err e => e = NoSpace /\ forall k, ~ free_run u count k
  | _ => False
  end.
Proof.
  intros Hc. revert i. induction fuel as [|fuel IH]; intros i Hi Hf Hf1 Hbefore; [lia|].
  cbn [contiguous_loop]. case_if.
  - pose proof (run_break_spec u i (Z.to_nat count) 0) as Hrun.
    destruct (run_break u i (Z.to_nat count) 0) as [j|].
    + destruct Hrun as [Hj Hm]. rewrite at_true in Hm by lia. apply IH; [lia..|].
      intros k Hk Hfree. destruct (decide (k < i)); [by apply (Hbefore k); [lia|]|].
      destruct Hfree as (_ & _ & Hnone). apply (Hnone (i + j)); [lia|done].
    + split; [|done]. split_and!; [lia|lia|]. intros b Hb Hm.
      specialize (Hrun (b - i) ltac:(lia)). replace (i + (b - i)) with b in Hrun by lia.
      rewrite <- at_true in Hm by lia. congruence.
  - split; [done|]. intros k Hfree. destruct (decide (k < i)).
    + destruct Hfree as (? & ? & ?). by apply (Hbefore k); [lia|].
    + destruct Hfree as (? & ? & ?). lia.
Qed.

Section alloc.
Context `{Xxh3} `{Heap} {D : Type} `{BlockDevice D}.
Implicit Types f : EuroFs D.

Lemma alloc_block_sound f :
  match alloc_block f with
  | (Ok i, f') => 0 <= i < zlen (used f) /\ ~ marked (used f) i /\
      (forall k, 0 <= k < i -> marked (used f) k) /\ f' = set_used f (upd (used f) i true)
  | (Err e, f') => e = NoSpace /\ f' = f /\ forall k, 0 <= k < zlen (used f) -> marked (used f) k
  | _ => False
  end.
Proof.
  unfold alloc_block. pose proof (first_free_spec (used f) 0) as Hs.
  destruct (first_free (used f) 0) as [i|].
  - destruct Hs as (Hi & Hf & Hlt). rewrite !Z.sub_0_r in *. done.
  - done.
Qed.

Lemma alloc_contiguous_sound f count :
  0 < count ->
  match alloc_contiguous count f with
  | (Ok i, f') => free_run (used f) count i /\ (forall k, 0 <= k < i -> ~ free_run (used f) count k) /\
      f' = set_used f (mark_range (used f) i (i + count))
  | (Err e, f') => e = NoSpace /\ f' = f /\ forall k, ~ free_run (used f) count k
  | _ => False
  end.
Proof.
  intros Hc. unfold alloc_contiguous. destruct (Z.eqb_spec count 0); [lia|].
  pose proof (contiguous_loop_spec (S (S (length (used f)))) (used f) count 0 Hc) as Hs.
  unfold zlen in Hs at 1. specialize (Hs ltac:(lia) ltac:(lia) ltac:(lia) ltac:(intros; lia)).
  destruct (contiguous_loop _ _ _ _) as [i|e| |]; [|destruct Hs as [-> ?]; done|done|done].
  destruct Hs as [Hs1 Hs2]. done.
Qed.
End alloc.

(** Both allocators are first fit and total: [alloc_block] returns the lowest
    free block, [alloc_contiguous] the lowest run of free blocks of the length
    asked for, each marks exactly what it returns, and [NoSpace] is returned
    exactly when no free block, respectively no free run, exists. *)
Lemma allocators_first_fit `{Xxh3} `{Heap} `{BlockDevice D} (f : EuroFs D) count :
  0 < count ->
  match alloc_block f with
  | (Ok i, f') =>
      free_run (used f) 1 i /\ (forall k, 0 <= k < i -> ~ free_run (used f) 1 k) /\
      (forall b, 0 <= b -> marked (used f') b <-> marked (used f) b \/ b = i)
  | (Err e, f') => e = NoSpace /\ f' = f /\ forall k, ~ free_run (used f) 1 k
  | _ => False
  end /\
  match alloc_contiguous count f with
  | (Ok i, f') =>
      free_run (used f) count i /\ (forall k, 0 <= k < i -> ~ free_run (used f) count k) /\
      (forall b, 0 <= b -> marked (used f') b <-> marked (used f) b \/ i <= b < i + count)
  | (Err e, f') => e = NoSpace /\ f' = f /\ forall k, ~ free_run (used f) count k
  | _ => False
  end.
Proof.
  intros Hc. split.
  - pose proof (alloc_block_sound f) as Hs. destruct (alloc_block f) as [[i|e| |] f']; try done.
    + destruct Hs as (Hi & Hf & Hlt & ->). split_and!.
      * split_and!; [lia|lia|]. intros b Hb. by replace b with i by lia.
      * intros k Hk (_ & _ & Hn). apply (Hn k); [lia|]. by apply Hlt.
      * intros b Hb. unfold marked. cbn [set_used used]. destruct (decide (b = i)) as [->|Hne].
        -- rewrite at_upd_eq by lia. tauto.
        -- rewrite at_upd_ne by lia. tauto.
    + destruct Hs as (-> & -> & Hall). split_and!; [done..|]. intros k (? & ? & Hn).
      apply (Hn k); [lia|]. apply Hall. lia.
  - pose proof (alloc_contiguous_sound f count Hc) as Hs.
    destruct (alloc_contiguous count f) as [[i|e| |] f']; try done.
    destruct Hs as (Hf & Hlt & ->). split_and!; [done..|]. intros b Hb. cbn [set_used used].
    destruct Hf as (? & ? & ?). rewrite marked_range by lia. intuition lia.
Qed.

(** Three reserved blocks, a free one, a used one, then two free ones. *)
Definition demo_bitmap : list bool := [true; true; true; false; true; false; false].

Lemma allocators_first_fit_witness :
  free_run demo_bitmap 1 3 /\ free_run demo_bitmap 2 5.
Proof.
  pose (f := set_used (blank_fs (D := MemoryBlockDevice) (blank 7) demo_sb 0) demo_bitmap).
  destruct (@allocators_first_fit demo_xxh3 (Build_Heap (fun _ => false) (fun _ _ => eq_refl))
    MemoryBlockDevice _ f 2 ltac:(lia)) as [H1 H2].
  split; [exact (proj1 H1)|exact (proj1 H2)].
Defined.

End Alloc.
