(* ===== verification/Cow.v ===== *)
(** Checkpoints and the copy-on-write invariant of EuroFS.

    A checkpoint is a committed superblock with the object map it points to and
    the snapshots in the table.  [holds] says that an image of the disk carries
    a checkpoint intact; [Inv] is the invariant of the mounted file system
    ([src/crates/eurofs/src/disk.rs]): the checkpoint in force is intact, all its
    blocks are marked in the allocator, the tree in memory is decodable and made
    of marked, pairwise distinct blocks, and every write in flight lies outside
    the checkpoint.  [safe] is the notion of a computation that keeps [Inv] and
    passes only through moments at which a power failure leaves a checkpoint. *)

From stdpp Require Import gmap.
From S2P Require Import Prelude Bytes Block Crash Checksum Fs BTree Superblock Layout EuroFs Alloc.
Import Block Crash Fs BTree Superblock Layout EuroFs Alloc.

Module Cow.

(** The data area of a disk of [n] blocks. *)
Definition in_area (n b : Z) : Prop := RESERVED_BLOCKS <= b < n.

Section images.
Context `{Xxh3}.
Implicit Types (img : image) (m : list (Z * Z)) (n : Z).

(** ** The blocks of a tree *)

Definition inode_blocks img (blk : Z) : list Z :=
  match decode (img blk) with Ok i => extent_blocks (extents i) | _ => [] end.

Definition object_blocks img (e : Z * Z) : list Z := snd e :: inode_blocks img (snd e).

Definition map_blocks img m : list Z := concat (map (object_blocks img) m).

(** The content of an object, as [read_data] assembles it. *)
Definition content img (i : Inode) : list Z :=
  match extents i with
  | [] => inline i
  | _ => slice (concat (map img (extent_blocks (extents i)))) 0 (Layout.size i)
  end.

Record inode_sound n img (i : Inode) : Prop := mkSound {
  is_extents : Forall (fun x : Z * Z => 0 < snd x /\ fst x + snd x <= n) (extents i);
  is_data : data_checksum i <> 0 -> xxh3_64 (content img i) = data_checksum i;
}.

Record object_ok n img (e : Z * Z) : Prop := mkObjectOk {
  ob_oid : 1 <= fst e < U64_MAX;
  ob_inode : exists i, decode (img (snd e)) = Ok i /\ oid i = fst e;
  ob_area : Forall (in_area n) (object_blocks img e);
  ob_sound i : decode (img (snd e)) = Ok i -> inode_sound n img i;
}.

Record map_ok n img m : Prop := mkMapOk {
  mo_sorted : bt_ok m;
  mo_objects : Forall (object_ok n img) m;
  mo_nodup : NoDup (map_blocks img m);
}.

(** The object-map table of [nb] blocks at [root]. *)
Definition table img (root nb : Z) : list Z := concat (map (fun b => img (root + b)) (zrange 0 nb)).

Definition state_blocks img (root nb : Z) m : list Z := zrange root (root + nb) ++ map_blocks img m.

Record state_ok n img (root nb : Z) m : Prop := mkStateOk {
  st_root : RESERVED_BLOCKS <= root;
  st_nb : 1 <= nb;
  st_end : root + nb <= n;
  st_table : table_entries (table img root nb) = m;
  st_map : map_ok n img m;
}.

(** What is read through a tree: the inodes and the blocks of their data. *)
Definition view img m : list (Z * outcome FsError Inode * list (list Z)) :=
  map (fun e : Z * Z => (fst e, decode (img (snd e)), map img (inode_blocks img (snd e)))) m.

Lemma elem_of_map_blocks img m b :
  b ∈ map_blocks img m <-> exists e, e ∈ m /\ b ∈ object_blocks img e.
Proof.
  unfold map_blocks. rewrite list_elem_of_In, in_concat. split.
  - intros (l & Hl & Hb). apply in_map_iff in Hl as (e & <- & He). exists e.
    by rewrite !list_elem_of_In.
  - intros (e & He & Hb). exists (object_blocks img e). rewrite <- !list_elem_of_In.
    split; [|done]. by apply list_elem_of_In, in_map, list_elem_of_In.
Qed.

Lemma elem_of_state_blocks img root nb m b :
  b ∈ state_blocks img root nb m <-> root <= b < root + nb \/ b ∈ map_blocks img m.
Proof. unfold state_blocks. by rewrite elem_of_app, elem_of_zrange. Qed.

(** ** Images that agree on the blocks of a tree *)

Definition agree (bs : list Z) img img' : Prop := forall b, b ∈ bs -> img' b = img b.

Lemma object_blocks_ext img img' e :
  img' (snd e) = img (snd e) -> object_blocks img' e = object_blocks img e.
Proof. intros E. unfold object_blocks, inode_blocks. by rewrite E. Qed.

Lemma map_agree_inode img img' m e :
  agree (map_blocks img m) img img' -> e ∈ m -> img' (snd e) = img (snd e).
Proof. intros Ha He. apply Ha, elem_of_map_blocks. exists e. split; [done|by left]. Qed.

Lemma map_blocks_ext img img' m :
  agree (map_blocks img m) img img' -> map_blocks img' m = map_blocks img m.
Proof.
  intros Ha. unfold map_blocks. f_equal. apply map_ext_in. intros e He.
  apply object_blocks_ext. by eapply map_agree_inode, list_elem_of_In.
Qed.

Lemma content_ext img img' i :
  agree (extent_blocks (extents i)) img img' -> content img' i = content img i.
Proof.
  intros Ha. unfold content. destruct (extents i); [done|]. do 2 f_equal. apply map_ext_in.
  intros b Hb%list_elem_of_In. by apply Ha.
Qed.

Lemma object_ok_ext n img img' e :
  agree (object_blocks img e) img img' -> object_ok n img e -> object_ok n img' e.
Proof.
  intros Ha [H1 H2 H3 H4]. assert (E : img' (snd e) = img (snd e)) by (apply Ha; by left).
  split; [done|by rewrite E|by rewrite (object_blocks_ext img)|].
  intros i Hi. rewrite E in Hi. destruct (H4 i Hi) as [Hx Hd]. split; [done|].
  rewrite (content_ext img); [done|]. intros b Hb. apply Ha. right. unfold inode_blocks. by rewrite Hi.
Qed.

Lemma map_ok_ext n img img' m :
  agree (map_blocks img m) img img' -> map_ok n img m -> map_ok n img' m.
Proof.
  intros Ha [H1 H2 H3]. split; [done| |by rewrite (map_blocks_ext img)].
  rewrite Forall_forall in H2 |- *. intros e He. eapply object_ok_ext; [|by apply H2].
  intros b Hb. apply Ha, elem_of_map_blocks. by exists e.
Qed.

Lemma view_ext img img' m :
  agree (map_blocks img m) img img' -> view img' m = view img m.
Proof.
  intros Ha. unfold view. apply map_ext_in. intros e He%list_elem_of_In.
  pose proof (map_agree_inode _ _ _ _ Ha He) as E. rewrite E.
  assert (inode_blocks img' (snd e) = inode_blocks img (snd e)) as ->
    by (unfold inode_blocks; by rewrite E).
  f_equal. apply map_ext_in. intros b Hb%list_elem_of_In. apply Ha, elem_of_map_blocks.
  exists e. split; [done|by right].
Qed.

Lemma table_ext img img' root nb :
  (forall b, root <= b < root + nb -> img' b = img b) -> table img' root nb = table img root nb.
Proof.
  intros Ha. unfold table. f_equal. apply map_ext_in. intros b Hb%list_elem_of_In%elem_of_zrange.
  apply Ha. lia.
Qed.

Lemma state_agree_split img img' root nb m :
  agree (state_blocks img root nb m) img img' ->
  (forall b, root <= b < root + nb -> img' b = img b) /\ agree (map_blocks img m) img img'.
Proof.
  intros Ha. split; intros b Hb; apply Ha, elem_of_state_blocks; auto.
Qed.

Lemma state_blocks_ext img img' root nb m :
  agree (state_blocks img root nb m) img img' ->
  state_blocks img' root nb m = state_blocks img root nb m.
Proof. intros [_ Ha]%state_agree_split. unfold state_blocks. by rewrite (map_blocks_ext img). Qed.

Lemma state_ok_ext n img img' root nb m :
  agree (state_blocks img root nb m) img img' -> state_ok n img root nb m -> state_ok n img' root nb m.
Proof.
  intros [Ht Ha]%state_agree_split [H1 H2 H3 H4 H5]. split; try done.
  - by rewrite (table_ext img).
  - by eapply map_ok_ext.
Qed.

Lemma map_ok_area n img m : map_ok n img m -> Forall (in_area n) (map_blocks img m).
Proof.
  intros [_ Ho _]. apply Forall_forall. intros b (e & He & Hb)%elem_of_map_blocks.
  rewrite Forall_forall in Ho. apply Ho in He as [_ _ Ha]. rewrite Forall_forall in Ha. by apply Ha.
Qed.

Lemma state_ok_area n img root nb m :
  state_ok n img root nb m -> Forall (in_area n) (state_blocks img root nb m).
Proof.
  intros [H1 H2 H3 H4 H5]. apply Forall_app. split; [|by apply map_ok_area].
  apply Forall_forall. intros b Hb%elem_of_zrange. unfold in_area. lia.
Qed.

(** ** Checkpoints *)

Record checkpoint := mkCk {
  ck_sb : EuroFsSuperblock;
  ck_map : list (Z * Z);
  ck_snaps : list (SnapshotEntry * list (Z * Z));
  ck_img : image;
}.

Definition snap_blocks img (p : SnapshotEntry * list (Z * Z)) : list Z :=
  state_blocks img (sn_objmap_root (fst p)) (sn_map_blocks (fst p)) (snd p).

Definition ck_live (ck : checkpoint) : list Z :=
  state_blocks (ck_img ck) (object_map_root (ck_sb ck)) (extent_tree_root (ck_sb ck)) (ck_map ck).

Definition ck_blocks (ck : checkpoint) : list Z :=
  ck_live ck ++ concat (map (snap_blocks (ck_img ck)) (ck_snaps ck)).

(** The fields of the superblock that validation looks at. *)
Record sb_static (s : EuroFsSuperblock) : Prop := mkStatic {
  ss_typed : sb_typed s;
  ss_magic : magic s = EUROFS_MAGIC;
  ss_major : version_major s = EUROFS_VERSION_MAJOR;
  ss_bs : sb_block_size s = DEFAULT_BLOCK_SIZE;
}.

Record ck_ok n (ck : checkpoint) : Prop := mkCkOk {
  co_sb : sb_static (ck_sb ck);
  co_live : state_ok n (ck_img ck) (object_map_root (ck_sb ck)) (extent_tree_root (ck_sb ck)) (ck_map ck);
  co_snaps : Forall (fun p => state_ok n (ck_img ck) (sn_objmap_root (fst p)) (sn_map_blocks (fst p)) (snd p))
               (ck_snaps ck);
  co_entries : Forall (fun p => snapshot_ok (fst p) /\ sn_id (fst p) < U64_MAX) (ck_snaps ck);
  co_count : zlen (ck_snaps ck) <= MAX_SNAPSHOTS;
}.

(** A snapshot up to its label, of which the table keeps 28 bytes. *)
Definition unlabelled (s : SnapshotEntry) : SnapshotEntry :=
  mkSnap (sn_id s) (sn_parent s) (sn_timestamp s) (sn_objmap_root s) (sn_map_blocks s)
    (sn_checkpoint_id s) (sn_flags s) [].

Definition same_snap (s : SnapshotEntry) (p : SnapshotEntry * list (Z * Z)) : Prop :=
  unlabelled s = unlabelled (fst p).

(** The snapshots a mount finds in the table block. *)
Definition snaps_on img : list SnapshotEntry :=
  default [] (decode_snapshots (img SNAPSHOT_TABLE_BLOCK)).

Record holds n (ck : checkpoint) img : Prop := mkHolds {
  ho_like b : 0 <= b < n -> block_like (img b);
  ho_current : current img = Some (ck_sb ck);
  ho_copies : copies_agree img;
  ho_snaps : snaps_on img = map fst (ck_snaps ck);
  ho_blocks : agree (ck_blocks ck) (ck_img ck) img;
}.

Lemma elem_of_ck_blocks ck b :
  b ∈ ck_blocks ck <-> b ∈ ck_live ck \/ exists p, p ∈ ck_snaps ck /\ b ∈ snap_blocks (ck_img ck) p.
Proof.
  unfold ck_blocks. rewrite elem_of_app. f_equiv.
  rewrite list_elem_of_In, in_concat. split.
  - intros (l & Hl & Hb). apply in_map_iff in Hl as (p & <- & Hp). exists p. by rewrite !list_elem_of_In.
  - intros (p & Hp & Hb). exists (snap_blocks (ck_img ck) p). rewrite <- !list_elem_of_In.
    split; [|done]. by apply list_elem_of_In, in_map, list_elem_of_In.
Qed.

Lemma ck_ok_area n ck : ck_ok n ck -> Forall (in_area n) (ck_blocks ck).
Proof.
  intros [_ Hl Hs _ _]. apply Forall_forall. intros b [Hb|(p & Hp & Hb)]%elem_of_ck_blocks.
  - apply state_ok_area in Hl. rewrite Forall_forall in Hl. by apply Hl.
  - rewrite Forall_forall in Hs. apply Hs, state_ok_area in Hp. rewrite Forall_forall in Hp. by apply Hp.
Qed.

(** Moving a checkpoint to another image that holds its blocks. *)
Definition ck_on (ck : checkpoint) img : checkpoint := mkCk (ck_sb ck) (ck_map ck) (ck_snaps ck) img.

Lemma holds_live n ck img :
  ck_ok n ck -> holds n ck img ->
  state_ok n img (object_map_root (ck_sb ck)) (extent_tree_root (ck_sb ck)) (ck_map ck) /\
  view img (ck_map ck) = view (ck_img ck) (ck_map ck).
Proof.
  intros Hok Hh.
  assert (Ha : agree (ck_live ck) (ck_img ck) img).
  { intros b Hb. apply (ho_blocks _ _ _ Hh), elem_of_ck_blocks. auto. }
  split; [eapply state_ok_ext; [exact Ha|apply Hok]|].
  apply view_ext. apply state_agree_split in Ha as [_ Ha]. done.
Qed.

Lemma holds_snap n ck img p :
  ck_ok n ck -> holds n ck img -> p ∈ ck_snaps ck ->
  state_ok n img (sn_objmap_root (fst p)) (sn_map_blocks (fst p)) (snd p) /\
  snap_blocks img p = snap_blocks (ck_img ck) p.
Proof.
  intros [_ _ Hs _ _] Hh Hp. rewrite Forall_forall in Hs. specialize (Hs p Hp).
  assert (Ha : agree (snap_blocks (ck_img ck) p) (ck_img ck) img).
  { intros b Hb. apply (ho_blocks _ _ _ Hh), elem_of_ck_blocks. eauto. }
  split; [eapply state_ok_ext; [exact Ha|done]|]. by apply state_blocks_ext.
Qed.

Lemma ck_on_blocks n ck img : ck_ok n ck -> holds n ck img -> ck_blocks (ck_on ck img) = ck_blocks ck.
Proof.
  intros Hok Hh. unfold ck_blocks, ck_live. cbn [ck_on ck_sb ck_map ck_snaps ck_img]. f_equal.
  - apply state_blocks_ext. intros b Hb. apply (ho_blocks _ _ _ Hh), elem_of_ck_blocks. auto.
  - f_equal. apply map_ext_in. intros p Hp%list_elem_of_In. by eapply holds_snap.
Qed.

Lemma ck_on_ok n ck img : ck_ok n ck -> holds n ck img -> ck_ok n (ck_on ck img).
Proof.
  intros Hok Hh. pose proof Hok as [H1 H2 H3 H4 H5]. split; cbn; try done.
  - by apply holds_live.
  - rewrite Forall_forall. intros p Hp. by eapply holds_snap.
Qed.

(** The parts of an image a checkpoint depends on. *)
Definition ck_cares (ck : checkpoint) (b : Z) : Prop :=
  is_slot b \/ b = SNAPSHOT_TABLE_BLOCK \/ b ∈ ck_blocks ck.

Lemma holds_ext n ck img img' :
  (forall b, 0 <= b < n -> block_like (img' b)) ->
  (forall b, ck_cares ck b -> img' b = img b) -> holds n ck img -> holds n ck img'.
Proof.
  intros Hl Hc [H1 H2 H3 H4 H5].
  destruct (current_ext img' img) as [E1 E2]; [intros b Hb; apply Hc; by left|].
  split; [done|congruence|auto| |].
  - unfold snaps_on in *. rewrite Hc; [done|]. right; by left.
  - intros b Hb. rewrite Hc by (right; by right). by apply H5.
Qed.
End images.

(** ** The mounted file system *)

(** The blocks that a power failure is assumed not to tear.  Only the snapshot table
    needs it, which is written in place and carries no checksum. *)
Class WholeBlocks := whole_block : Z -> bool.

Section inv.
Context {HX : Xxh3} {HH : Heap} {HW : WholeBlocks} {D : Type} {HD : BlockDevice D} {HL : LawfulDevice D}.
Implicit Types (f : EuroFs (Traced D)) (ck : checkpoint).

Definition eurofs_power : power := slot_power whole_block.

Definition disk f : image := contents (dev f).
Definition nblocks f : Z := zlen (used f).

Record Inv f ck : Prop := mkInv {
  i_dev : dev_ok (dev f);
  i_len : block_count (dev f) = nblocks f;
  i_ck : ck_ok (nblocks f) ck;
  i_holds : holds (nblocks f) ck (disk f);
  i_both : both_valid (disk f);
  i_ck_used : Forall (marked (used f)) (ck_blocks ck);
  i_reserved b : 0 <= b < RESERVED_BLOCKS -> marked (used f) b;
  i_map : map_ok (nblocks f) (disk f) (objmap f);
  i_map_used : Forall (marked (used f)) (map_blocks (disk f) (objmap f));
  i_cache o blk e : bt_get (objmap f) o = Some blk -> bt_get (extents_cache f) o = Some e ->
    exists i, decode (disk f blk) = Ok i /\ e = extents i;
  i_snaps : Forall2 same_snap (snapshots f) (ck_snaps ck);
  i_sb : sb_static (sb f);
  i_gen : checkpoint_id (sb f) = checkpoint_id (ck_sb ck);
  i_pending : Forall (fun e => event_ok e /\ 0 <= target e < nblocks f /\ ~ ck_cares ck (target e))
                (tr_pending (dev f));
  i_base b : 0 <= b < nblocks f -> b ∉ map target (tr_pending (dev f)) -> tr_base (dev f) b = disk f b;
  i_base_like b : 0 <= b < nblocks f -> block_like (tr_base (dev f) b);
  i_now : is_u64 (now f);
  i_next : 2 <= next_oid f <= U64_MAX;
  i_ctx : is_u32 (ctx_uid f);
  i_next_snap : 1 <= next_snap_id f <= U64_MAX;
  i_labels : Forall (fun s => bytes_ok (sn_label s)) (snapshots f);
}.

(** At this moment a power failure leaves one of the checkpoints [ks]. *)
Definition moment_ok (n : Z) (ks : list checkpoint) (mo : moment) : Prop :=
  forall img', survives eurofs_power (fst mo) (snd mo) img' ->
    exists k, k ∈ ks /\ ck_ok n k /\ holds n k img'.

Lemma moment_ok_incl n ks ks' mo : ks ⊆ ks' -> moment_ok n ks mo -> moment_ok n ks' mo.
Proof. intros Hk Hm img' Hs. destruct (Hm img' Hs) as (k & ? & ? & ?). exists k. auto. Qed.

(** The invariant makes the present moment safe. *)
Lemma inv_moment f ck :
  Inv f ck -> moment_ok (nblocks f) [ck] (tr_base (dev f), tr_pending (dev f)).
Proof.
  intros HI img' Hs. exists ck. split; [by left|]. split; [apply HI|].
  pose proof (i_ck _ _ HI) as Hok. pose proof (ck_ok_area _ _ Hok) as Harea. rewrite Forall_forall in Harea.
  pose proof (i_pending _ _ HI) as Hp. rewrite Forall_forall in Hp.
  pose proof (marked_bound _ _ (i_reserved _ _ HI 15 ltac:(unfold RESERVED_BLOCKS; lia))) as Hn.
  apply (holds_ext _ _ (disk f)); [| |apply HI].
  - intros b Hb. eapply survives_like; [exact Hs| |by apply (i_base_like _ _ HI)].
    apply Forall_forall. intros e He. by apply Hp.
  - intros b Hb. cbn [fst snd] in Hs.
    assert (Hr : 0 <= b < nblocks f).
    { unfold nblocks. destruct Hb as [[-> | ->]|[->|Hb]];
        unfold SUPERBLOCK_BLOCK, SUPERBLOCK_BACKUP_BLOCK, SNAPSHOT_TABLE_BLOCK; try lia.
      apply Harea in Hb. unfold in_area, RESERVED_BLOCKS, nblocks in Hb. lia. }
    rewrite (survives_untouched _ _ _ _ b Hs).
    + apply (i_base _ _ HI); [done|]. intros (e & -> & He)%list_elem_of_fmap.
      apply Hp in He as (_ & _ & Hc). done.
    + apply Forall_forall. intros e He Eb. apply Hp in He as (_ & _ & Hc). by rewrite Eb in Hc.
Qed.

(** ** Safe computations *)

(** From [f] with checkpoint [ck] to [f'] with checkpoint [ck'], passing only
    through moments that leave [ck] or one of the checkpoints [ks] committed on
    the way, the last of which is [ck']. *)
Record step f ck (ks : list checkpoint) f' ck' : Prop := mkStep {
  sp_inv : Inv f' ck';
  sp_last : last (ck :: ks) = Some ck';
  sp_count : nblocks f' = nblocks f;
  sp_moments : moments (dev f) (dev f') (moment_ok (nblocks f) (ck :: ks));
}.

Lemma step_refl f ck : Inv f ck -> step f ck [] f ck.
Proof. intros HI. split; try done. apply moments_refl. Qed.

Lemma last_app_cons {A} (x : A) l1 y l2 : last (x :: l1) = Some y -> last (x :: l1 ++ l2) = last (y :: l2).
Proof.
  intros E. destruct l2 as [|z l2].
  - by rewrite app_nil_r.
  - change (x :: l1 ++ z :: l2) with ((x :: l1) ++ z :: l2).
    rewrite last_app. change (y :: z :: l2) with ([y] ++ z :: l2). rewrite last_app.
    by destruct (last (z :: l2)) eqn:E2; [|apply last_None in E2].
Qed.

Lemma step_trans f1 ck1 ks1 f2 ck2 ks2 f3 ck3 :
  step f1 ck1 ks1 f2 ck2 -> step f2 ck2 ks2 f3 ck3 -> step f1 ck1 (ks1 ++ ks2) f3 ck3.
Proof.
  intros [I1 L1 N1 M1] [I2 L2 N2 M2]. split; [done| |congruence|].
  - rewrite (last_app_cons _ _ _ _ L1). done.
  - eapply moments_trans; eapply moments_impl.
    + exact M1.
    + intros mo. apply moment_ok_incl. intros k. rewrite !elem_of_cons, elem_of_app. tauto.
    + exact M2.
    + intros mo. rewrite N1. apply moment_ok_incl. intros k. rewrite !elem_of_cons, elem_of_app.
      intros [->|]; [|tauto].
      assert (ck2 ∈ ck1 :: ks1) as Hin by (by apply last_Some_elem_of in L1).
      apply elem_of_cons in Hin. tauto.
Qed.

Lemma step_memory f ck f' : Inv f' ck -> dev f' = dev f -> nblocks f' = nblocks f -> step f ck [] f' ck.
Proof. intros HI E En. split; try done. rewrite E. apply moments_refl. Qed.

(** [m] keeps the invariant on every disk of [n] blocks, whatever it returns, and
    its results satisfy [Q]. *)
Definition safe {A} (n : Z) (m : FsM A) (Q : A -> Prop) : Prop :=
  forall f ck, Inv f ck -> nblocks f = n ->
    exists ks ck', step f ck ks (snd (m f)) ck' /\ forall a, fst (m f) = Ok a -> Q a.

(** [m] keeps the invariant and commits nothing. *)
Definition stays {A} (n : Z) (m : FsM A) (Q : A -> Prop) : Prop :=
  forall f ck, Inv f ck -> nblocks f = n ->
    step f ck [] (snd (m f)) ck /\ forall a, fst (m f) = Ok a -> Q a.

Section safe.
Context {n : Z}.

Lemma stays_safe {A} (m : FsM A) (Q : A -> Prop) : stays n m Q -> safe n m Q.
Proof. intros Hm f ck HI Hn. exists [], ck. by apply Hm. Qed.

Lemma safe_bind {A B} (m : FsM A) (k : A -> FsM B) (P : A -> Prop) (Q : B -> Prop) :
  safe n m P -> (forall a, P a -> safe n (k a) Q) -> safe n (sbind m k) Q.
Proof.
  intros Hm Hk f ck HI Hn. destruct (Hm f ck HI Hn) as (ks & ck' & Hs & Hp). unfold sbind.
  destruct (m f) as [[a|e| |] f']; cbn [fst snd] in *.
  - destruct (Hk a (Hp a eq_refl) f' ck' (sp_inv _ _ _ _ _ Hs)) as (ks2 & ck2 & Hs2 & Hp2).
    { rewrite <- Hn. apply Hs. }
    exists (ks ++ ks2), ck2. split; [by eapply step_trans|done].
  - exists ks, ck'. by split.
  - exists ks, ck'. by split.
  - exists ks, ck'. by split.
Qed.

Lemma stays_bind {A B} (m : FsM A) (k : A -> FsM B) (P : A -> Prop) (Q : B -> Prop) :
  stays n m P -> (forall a, P a -> stays n (k a) Q) -> stays n (sbind m k) Q.
Proof.
  intros Hm Hk f ck HI Hn. destruct (Hm f ck HI Hn) as [Hs Hp]. unfold sbind.
  destruct (m f) as [[a|e| |] f']; cbn [fst snd] in *; [|done..].
  destruct (Hk a (Hp a eq_refl) f' ck (sp_inv _ _ _ _ _ Hs)) as [Hs2 Hp2].
  { rewrite <- Hn. apply Hs. }
  split; [exact (step_trans _ _ _ _ _ _ _ _ Hs Hs2)|done].
Qed.

Lemma stays_weaken {A} (m : FsM A) (P Q : A -> Prop) : stays n m P -> (forall a, P a -> Q a) -> stays n m Q.
Proof. intros Hm HPQ f ck HI Hn. destruct (Hm f ck HI Hn) as [Hs Hp]. auto. Qed.

Lemma stays_pure {A} (m : FsM A) (Q : A -> Prop) :
  (forall f, snd (m f) = f) -> (forall f ck a, Inv f ck -> nblocks f = n -> fst (m f) = Ok a -> Q a) -> stays n m Q.
Proof.
  intros Hm HQ f ck HI Hn. rewrite Hm. split; [by apply step_refl|]. intros a E. by eapply HQ.
Qed.

Lemma stays_ret {A} (a : A) (Q : A -> Prop) : Q a -> stays n (sret a) Q.
Proof. intros Hq. apply stays_pure; [done|]. by intros f ck a' _ _ [= <-]. Qed.

Lemma stays_throw {A} e (Q : A -> Prop) : stays n (sthrow e) Q.
Proof. by apply stays_pure. Qed.

Lemma stays_lift {A} (o : outcome FsError A) (Q : A -> Prop) :
  (forall a, o = Ok a -> Q a) -> stays n (slift o) Q.
Proof. intros Ho. apply stays_pure; [done|]. intros f ck a _ _ E. by apply Ho. Qed.

Lemma stays_gets {A} (g : EuroFs (Traced D) -> outcome FsError A) (Q : A -> Prop) :
  (forall f ck a, Inv f ck -> nblocks f = n -> g f = Ok a -> Q a) -> stays n (sgets g) Q.
Proof. intros Hg. by apply stays_pure. Qed.

Lemma stays_get {A} (g : EuroFs (Traced D) -> A) (Q : A -> Prop) :
  (forall f ck, Inv f ck -> nblocks f = n -> Q (g f)) -> stays n (sget g) Q.
Proof. intros Hg. apply stays_pure; [done|]. intros f ck a HI Hn [= <-]. by eapply Hg. Qed.

Lemma stays_modify (g : EuroFs (Traced D) -> EuroFs (Traced D)) :
  (forall f ck, Inv f ck -> Inv (g f) ck /\ dev (g f) = dev f /\ used (g f) = used f) ->
  stays n (smodify g) (fun _ => True).
Proof.
  intros Hg f ck HI _. destruct (Hg f ck HI) as (HI' & E & En).
  split; [|done]. apply step_memory; [done|done|]. unfold nblocks. cbn. by rewrite En.
Qed.

Lemma safe_ignore {A} (m : FsM A) (P : A -> Prop) : safe n m P -> safe n (signore m) (fun _ => True).
Proof.
  intros Hm f ck HI Hn. destruct (Hm f ck HI Hn) as (ks & ck' & Hs & _). exists ks, ck'. unfold signore.
  by destruct (m f) as [[a|e| |] f'].
Qed.

Lemma safe_for {A} (l : list A) (body : A -> FsM unit) (P : A -> Prop) :
  Forall P l -> (forall x, P x -> safe n (body x) (fun _ => True)) -> safe n (sfor l body) (fun _ => True).
Proof.
  intros Hl Hb. induction Hl as [|x l Hx Hl IH]; cbn; [by apply stays_safe, stays_ret|].
  eapply safe_bind; [by apply Hb|]. by intros _ _.
Qed.

(** A change of the state in memory after [m], whatever [m] returned. *)
Lemma safe_finally {A} (m : FsM A) (g : EuroFs (Traced D) -> EuroFs (Traced D)) (Q : A -> Prop) :
  safe n m Q -> (forall f ck, Inv f ck -> Inv (g f) ck /\ dev (g f) = dev f /\ used (g f) = used f) ->
  safe n (fun f => let '(r, f') := m f in (r, g f')) Q.
Proof.
  intros Hm Hg f ck HI Hn. destruct (Hm f ck HI Hn) as (ks & ck' & Hs & HQ).
  destruct (m f) as [r f'] eqn:E. cbn [fst snd] in *.
  destruct (Hg f' ck' (sp_inv _ _ _ _ _ Hs)) as (HI' & E1 & E2). exists (ks ++ []), ck'. split; [|done].
  eapply step_trans; [exact Hs|]. apply step_memory; [done|done|]. unfold nblocks. by rewrite E2.
Qed.
End safe.

(** ** Changes of the in-memory state *)

Lemma inv_path_cache f ck v : Inv f ck -> Inv (set_path_cache f v) ck.
Proof. by intros []. Qed.
Lemma inv_usage f ck v : Inv f ck -> Inv (set_usage f v) ck.
Proof. by intros []. Qed.
Lemma inv_quota f ck v : Inv f ck -> Inv (set_quota_limits f v) ck.
Proof. by intros []. Qed.
Lemma inv_pending_trim f ck v : Inv f ck -> Inv (set_pending_trim f v) ck.
Proof. by intros []. Qed.
Lemma inv_now f ck v : is_u64 v -> Inv f ck -> Inv (set_now f v) ck.
Proof. intros Hv []. by split. Qed.
Lemma inv_ctx f ck v : is_u32 v -> Inv f ck -> Inv (set_ctx_uid f v) ck.
Proof. intros Hv []. by split. Qed.
Lemma inv_next_oid f ck v : 2 <= v <= U64_MAX -> Inv f ck -> Inv (set_next_oid f v) ck.
Proof. intros Hv []. by split. Qed.
Lemma inv_next_snap f ck v : 1 <= v <= U64_MAX -> Inv f ck -> Inv (set_next_snap_id f v) ck.
Proof. intros Hv []. by split. Qed.
Lemma inv_sb f ck v :
  sb_static v -> checkpoint_id v = checkpoint_id (sb f) -> Inv f ck -> Inv (set_sb f v) ck.
Proof. intros Hv Hg []. split; try done. cbn [set_sb sb]. congruence. Qed.

Lemma inv_used f ck u :
  zlen u = nblocks f -> (forall b, 0 <= b -> marked (used f) b -> marked u b) -> Inv f ck -> Inv (set_used f u) ck.
Proof.
  intros Hl Hm HI.
  assert (Hall : forall bs, Forall (in_area (nblocks f)) bs -> Forall (marked (used f)) bs -> Forall (marked u) bs).
  { intros bs. rewrite !Forall_forall. intros Ha Hb b Hin. apply Hm; [|auto].
    apply Ha in Hin. unfold in_area, RESERVED_BLOCKS in Hin. lia. }
  pose proof (Hall _ (ck_ok_area _ _ (i_ck _ _ HI)) (i_ck_used _ _ HI)) as Hck.
  pose proof (Hall _ (map_ok_area _ _ _ (i_map _ _ HI)) (i_map_used _ _ HI)) as Hmp.
  destruct HI. unfold nblocks in *. split; unfold nblocks; cbn [set_used dev used objmap extents_cache
    snapshots sb now next_oid ctx_uid next_snap_id]; rewrite ?Hl; try done; auto.
  intros b Hb. apply Hm; [lia|auto].
Qed.

Lemma inv_clear_cache f ck : Inv f ck -> Inv (set_extents_cache f []) ck.
Proof. intros []. by split. Qed.

Lemma map_blocks_sub img m m' : (forall e, e ∈ m' -> e ∈ m) -> map_blocks img m' ⊆ map_blocks img m.
Proof. intros Hs b (e & He & Hb)%elem_of_map_blocks. apply elem_of_map_blocks. eauto. Qed.

Lemma bt_remove_sublist {V} (m : list (Z * V)) k : bt_remove m k `sublist_of` m.
Proof.
  induction m as [|[k0 v0] m IH]; cbn; [constructor|]. case_if; [by apply sublist_cons|by apply sublist_skip].
Qed.

Lemma map_blocks_sublist img m m' : m' `sublist_of` m -> map_blocks img m' `sublist_of` map_blocks img m.
Proof.
  induction 1 as [|e m' m Hs IH|e m' m Hs IH]; unfold map_blocks in *; cbn [map concat]; [done|..].
  - by apply sublist_app.
  - by apply sublist_inserts_l.
Qed.

Lemma map_ok_remove n img m o : map_ok n img m -> map_ok n img (bt_remove m o).
Proof.
  intros [H1 H2 H3]. split; [auto with euro| |].
  - rewrite Forall_forall in *. intros e He. apply bt_remove_elem in He as [? _]; auto.
  - eapply sublist_NoDup; [exact H3|]. apply map_blocks_sublist, bt_remove_sublist.
Qed.

Lemma inv_forget f ck o :
  Inv f ck -> Inv (set_extents_cache (set_objmap f (bt_remove (objmap f) o)) (bt_remove (extents_cache f) o)) ck.
Proof.
  intros HI. pose proof (i_map _ _ HI) as Hm.
  assert (Hsub : map_blocks (disk f) (bt_remove (objmap f) o) ⊆ map_blocks (disk f) (objmap f)).
  { apply map_blocks_sub. intros e He. by apply bt_remove_elem in He as [? _]; [|apply Hm]. }
  destruct HI. split; try done; cbn [set_extents_cache set_objmap objmap extents_cache] in *.
  - by apply map_ok_remove.
  - rewrite Forall_forall in *. auto.
  - intros o' blk e Ho He. rewrite bt_get_remove in Ho by apply Hm.
    destruct (Z.eqb_spec o' o); [done|]. rewrite bt_get_remove_ne in He by done. eauto.
Qed.

(** ** Writing outside the protected blocks *)

(** A block of the disk that no checkpoint and no live object needs. *)
Definition spare f ck (b : Z) : Prop :=
  0 <= b < nblocks f /\ ~ ck_cares ck b /\ b ∉ map_blocks (disk f) (objmap f).

Lemma inv_size f ck : Inv f ck -> RESERVED_BLOCKS <= nblocks f.
Proof.
  intros HI. pose proof (marked_bound _ _ (i_reserved _ _ HI 15 ltac:(unfold RESERVED_BLOCKS; lia))).
  unfold nblocks, RESERVED_BLOCKS. lia.
Qed.

(** Free blocks are spare. *)
Lemma unmarked_spare f ck b :
  Inv f ck -> 0 <= b < nblocks f -> ~ marked (used f) b -> spare f ck b /\ RESERVED_BLOCKS <= b.
Proof.
  intros HI Hb Hm.
  assert (RESERVED_BLOCKS <= b).
  { destruct (Z.lt_ge_cases b RESERVED_BLOCKS); [|lia]. exfalso. apply Hm, (i_reserved _ _ HI). lia. }
  split; [|done]. split; [done|]. split.
  - intros [[-> | ->]|[->|Hin]]; unfold SUPERBLOCK_BLOCK, SUPERBLOCK_BACKUP_BLOCK, SNAPSHOT_TABLE_BLOCK,
      RESERVED_BLOCKS in *; try lia.
    pose proof (i_ck_used _ _ HI) as Hu. rewrite Forall_forall in Hu. auto.
  - intros Hin. pose proof (i_map_used _ _ HI) as Hu. rewrite Forall_forall in Hu. auto.
Qed.

(** The invariant after the contents of spare blocks changed on the device. *)
Lemma inv_dev f ck t' :
  Inv f ck -> dev_ok t' -> block_count t' = block_count (dev f) ->
  (forall b, 0 <= b < nblocks f -> ~ spare f ck b -> contents t' b = disk f b) ->
  tr_base t' = tr_base (dev f) ->
  (exists e, event_ok e /\ tr_pending t' = tr_pending (dev f) ++ [e] /\ spare f ck (target e) /\
     forall b, 0 <= b < nblocks f -> b <> target e -> contents t' b = disk f b) ->
  Inv (set_dev f t') ck.
Proof.
  intros HI Hok Hn Hsame Hbase (e & He & Hp & Hspare & Hother).
  assert (Hlike : forall b, 0 <= b < nblocks f -> block_like (contents t' b)).
  { intros b Hb. apply law_contents; [done|]. rewrite Hn, (i_len _ _ HI). done. }
  assert (Hcares : forall b, ck_cares ck b -> 0 <= b < nblocks f).
  { intros b Hb. pose proof (inv_size _ _ HI) as Hs. pose proof (ck_ok_area _ _ (i_ck _ _ HI)) as Ha.
    rewrite Forall_forall in Ha. unfold RESERVED_BLOCKS in Hs.
    destruct Hb as [[-> | ->]|[->|Hb]];
      unfold SUPERBLOCK_BLOCK, SUPERBLOCK_BACKUP_BLOCK, SNAPSHOT_TABLE_BLOCK; try lia.
    apply Ha in Hb. unfold in_area, RESERVED_BLOCKS in Hb. lia. }
  assert (Hkeep : forall b, ck_cares ck b -> contents t' b = disk f b).
  { intros b Hb. apply Hsame; [auto|]. by intros (_ & Hc & _). }
  assert (Hmapk : agree (map_blocks (disk f) (objmap f)) (disk f) (contents t')).
  { intros b Hb. pose proof (map_ok_area _ _ _ (i_map _ _ HI)) as Ha. rewrite Forall_forall in Ha.
    apply Hsame; [|by intros (_ & _ & Hc)]. apply Ha in Hb. unfold in_area, RESERVED_BLOCKS in Hb. lia. }
  assert (Hslot : forall b, is_slot b -> contents t' b = disk f b) by (intros b Hb; apply Hkeep; by left).
  pose proof HI as []. split; unfold disk, nblocks in *;
    cbn [set_dev dev used objmap extents_cache snapshots sb now next_oid ctx_uid next_snap_id]; try done.
  - congruence.
  - eapply holds_ext; eauto.
  - unfold both_valid. rewrite !(slot_in_ext (contents t') (contents (dev f)))
      by (apply Hslot; unfold is_slot; auto). done.
  - by eapply map_ok_ext.
  - by rewrite (map_blocks_ext (contents (dev f))).
  - intros o blk ex Ho Hex. rewrite (Hmapk blk); [eauto|].
    apply elem_of_map_blocks. exists (o, blk). split; [|by left].
    apply bt_get_elem in Ho; [done|]. by destruct i_map0.
  - rewrite Hp. apply Forall_app. split; [done|]. constructor; [|constructor].
    destruct Hspare as (? & ? & ?). done.
  - intros b Hb Hnin. rewrite Hp, map_app, elem_of_app in Hnin. cbn [map] in Hnin.
    rewrite list_elem_of_singleton in Hnin. rewrite Hbase, Hother by tauto. apply i_base0; tauto.
  - intros b Hb. rewrite Hbase. auto.
Qed.

(** The step to a state whose moment is the only new one. *)
Lemma step_dev f ck t' :
  Inv (set_dev f t') ck -> tr_base t' = tr_base (dev f) ->
  tr_points t' = tr_points (dev f) ++ [(tr_base (dev f), tr_pending t')] ->
  step f ck [] (set_dev f t') ck.
Proof.
  intros HI Hb Hp. split; try done. eapply moments_one; [exact Hp|].
  pose proof (inv_moment _ _ HI) as Hm. cbn [set_dev dev] in Hm. by rewrite Hb in Hm.
Qed.

Lemma write_spare f ck b buf :
  Inv f ck -> spare f ck b -> block_like buf ->
  exists t', write_block b buf f = (Ok tt, set_dev f t') /\ step f ck [] (set_dev f t') ck /\
    forall b', 0 <= b' < nblocks f -> contents t' b' = if b' =? b then buf else disk f b'.
Proof.
  intros HI Hs [Hl Hby]. pose proof Hs as (Hb & Hc & Hm). pose proof (i_len _ _ HI) as Hlen.
  destruct (traced_write (dev f) b buf) as (t' & E & Hok & Hn & Hcont & Hbase & Hp & Hpts);
    [apply HI|by rewrite Hlen|done|done|].
  rewrite Hlen in Hcont. exists t'. unfold write_block, on_dev. rewrite E. split; [done|].
  assert (HI' : Inv (set_dev f t') ck).
  { apply inv_dev; try done.
    - intros b' Hb' Hns. rewrite Hcont by done. case_if; [|done]. subst. done.
    - exists (Wrote b buf). split_and!; try done. cbn [target]. intros b' Hb' Hne.
      rewrite Hcont by done. by case_if. }
  split; [|done]. apply step_dev; [done|done|]. by rewrite Hp.
Qed.

Lemma discard_spare f ck b :
  Inv f ck -> spare f ck b ->
  exists t', on_dev (fun d => discard d b 1) f = (Ok tt, set_dev f t') /\ step f ck [] (set_dev f t') ck /\
    forall b', 0 <= b' < nblocks f -> b' <> b -> contents t' b' = disk f b'.
Proof.
  intros HI Hs. pose proof Hs as (Hb & Hc & Hm). pose proof (i_len _ _ HI) as Hlen.
  destruct (traced_discard (dev f) b) as (t' & E & Hok & Hn & Hcont & Hbase & Hp & Hpts);
    [apply HI|by rewrite Hlen|].
  rewrite Hlen in Hcont. exists t'. unfold on_dev. rewrite E. split; [done|].
  assert (HI' : Inv (set_dev f t') ck).
  { apply inv_dev; try done.
    - intros b' Hb' Hns. apply Hcont; [done|]. by intros ->.
    - exists (Discarded b). by split_and!. }
  split; [|done]. apply step_dev; [done|done|]. by rewrite Hp.
Qed.

(** Writing a run of spare blocks. *)
Lemma write_run f ck start (g : Z -> list Z) (l : list Z) :
  Inv f ck -> NoDup l -> Forall (fun b => spare f ck (start + b)) l -> (forall b, b ∈ l -> block_like (g b)) ->
  exists t', sfor l (fun b => write_block (start + b) (g b)) f = (Ok tt, set_dev f t') /\
    step f ck [] (set_dev f t') ck /\
    (forall b, b ∈ l -> contents t' (start + b) = g b) /\
    (forall b, 0 <= b < nblocks f -> (forall b', b' ∈ l -> b <> start + b') -> contents t' b = disk f b).
Proof.
  intros HI Hnd. revert f HI. induction Hnd as [|x l Hx Hnd IH]; intros f HI Hs Hg; cbn [sfor].
  - exists (dev f). destruct f. split_and!; try done; [by apply step_refl|]. by intros b ?%not_elem_of_nil.
  - apply Forall_cons in Hs as [Hsx Hs].
    destruct (write_spare f ck (start + x) (g x) HI Hsx) as (t1 & E1 & S1 & C1); [apply Hg; by left|].
    rewrite (sbind_ok _ _ _ _ _ E1).
    assert (Hspare : forall b, spare f ck b -> spare (set_dev f t1) ck b).
    { intros b (Hb & Hc & Hm). split; [done|]. split; [done|]. cbn [set_dev objmap].
      unfold disk. cbn [set_dev dev]. rewrite (map_blocks_ext (disk f)); [done|].
      intros b' Hb'. pose proof (map_ok_area _ _ _ (i_map _ _ HI)) as Ha. rewrite Forall_forall in Ha.
      rewrite C1 by (apply Ha in Hb'; unfold in_area, RESERVED_BLOCKS in Hb'; lia).
      case_if; [|done]. subst. by destruct Hsx as (_ & _ & Hsx). }
    destruct (IH (set_dev f t1)) as (t2 & E2 & S2 & C2 & C3).
    { apply S1. }
    { eapply Forall_impl; [exact Hs|]. auto. }
    { intros b Hb. apply Hg. by right. }
    exists t2. change (set_dev (set_dev f t1) t2) with (set_dev f t2) in E2, S2.
    split; [done|]. split; [exact (step_trans _ _ _ _ _ _ _ _ S1 S2)|]. split.
    + intros b Hb. apply elem_of_cons in Hb as [->|Hb]; [|by apply C2].
      rewrite C3; [|by apply Hsx|].
      * unfold disk. cbn [set_dev dev]. rewrite C1 by apply Hsx. by rewrite Z.eqb_refl.
      * intros b' Hb' E. by replace x with b' in Hx by lia.
    + intros b Hb Hne. rewrite C3; [|done|].
      * unfold disk. cbn [set_dev dev]. rewrite C1 by done. case_if; [|done].
        exfalso. by apply (Hne x); [left|].
      * intros b' Hb'. apply Hne. by right.
Qed.

(** ** Allocation *)

(** Blocks just allocated and not yet in use. *)
Definition fresh f ck (bs : list Z) : Prop :=
  NoDup bs /\ Forall (fun b => spare f ck b /\ marked (used f) b /\ in_area (nblocks f) b) bs.

Lemma alloc_run f ck count :
  Inv f ck -> 0 < count ->
  match alloc_contiguous count f with
  | (Ok i, f') => exists u, f' = set_used f u /\ step f ck [] f' ck /\ fresh f' ck (zrange i (i + count)) /\
      RESERVED_BLOCKS <= i /\ i + count <= nblocks f /\
      (forall b, 0 <= b -> marked u b <-> marked (used f) b \/ i <= b < i + count) /\
      (forall b, i <= b < i + count -> ~ marked (used f) b)
  | (Err e, f') => e = NoSpace /\ f' = f
  | _ => False
  end.
Proof.
  intros HI Hc. pose proof (alloc_contiguous_sound f count Hc) as Ha.
  destruct (alloc_contiguous count f) as [[i|e| |] f']; try done; [|by destruct Ha as (? & ? & _)].
  destruct Ha as ((Hi & Hn & Hfree) & _ & ->). eexists. split; [done|].
  set (u := mark_range (used f) i (i + count)).
  assert (Hu : forall b, 0 <= b -> marked u b <-> marked (used f) b \/ i <= b < i + count).
  { intros b Hb. unfold u. rewrite marked_range by lia. unfold nblocks in Hn. intuition lia. }
  assert (Hres : RESERVED_BLOCKS <= i).
  { apply (unmarked_spare f ck i HI); [unfold nblocks; lia|]. apply Hfree. lia. }
  split; [|split; [split; [apply NoDup_seqZ|]|by split_and!]].
  - apply step_memory; [|done|apply zlen_mark_range]. apply inv_used; [apply zlen_mark_range| |done].
    intros b Hb Hm. apply Hu; auto.
  - apply Forall_forall. intros b Hb%elem_of_zrange. cbn [set_used used].
    assert (En : nblocks (set_used f u) = nblocks f) by apply zlen_mark_range.
    destruct (unmarked_spare f ck b HI) as [(? & ? & ?) ?]; [unfold nblocks; lia|by apply Hfree|].
    split; [|split; [apply Hu; lia|]].
    + split; [by rewrite En|done].
    + unfold in_area. rewrite En. unfold nblocks. lia.
Qed.

Lemma alloc_one f ck :
  Inv f ck ->
  match alloc_block f with
  | (Ok i, f') => exists u, f' = set_used f u /\ step f ck [] f' ck /\ fresh f' ck [i] /\
      in_area (nblocks f) i /\ (forall b, 0 <= b -> marked u b <-> marked (used f) b \/ b = i) /\
      ~ marked (used f) i
  | (Err e, f') => e = NoSpace /\ f' = f
  | _ => False
  end.
Proof.
  intros HI. pose proof (alloc_block_sound f) as Ha.
  destruct (alloc_block f) as [[i|e| |] f']; try done; [|by destruct Ha as (? & ? & _)].
  destruct Ha as (Hi & Hfree & _ & ->). eexists. split; [done|].
  set (u := upd (used f) i true).
  assert (Hu : forall b, 0 <= b -> marked u b <-> marked (used f) b \/ b = i).
  { intros b Hb. unfold u, marked. destruct (decide (b = i)) as [->|Hne].
    - rewrite at_upd_eq by done. intuition.
    - rewrite at_upd_ne by lia. intuition. }
  assert (En : nblocks (set_used f u) = nblocks f) by apply zlen_upd.
  destruct (unmarked_spare f ck i HI Hi Hfree) as [(? & ? & ?) Hres].
  assert (Harea : in_area (nblocks f) i) by (unfold in_area, nblocks; lia).
  split; [|split; [split; [apply NoDup_singleton|]|done]].
  - apply step_memory; [|done|done]. apply inv_used; [apply zlen_upd| |done].
    intros b Hb Hm. apply Hu; auto.
  - apply Forall_singleton. cbn [set_used used]. rewrite En.
    split; [|split; [apply Hu; [lia|by right]|done]]. split; [by rewrite En|done].
Qed.

Lemma fresh_dev f ck t' bs :
  map_blocks (contents t') (objmap f) = map_blocks (disk f) (objmap f) ->
  fresh f ck bs -> fresh (set_dev f t') ck bs.
Proof.
  intros E [Hnd Hf]. split; [done|]. eapply Forall_impl; [exact Hf|]. intros b ((Hb & Hc & Hm) & ? & ?).
  split; [|done]. split; [done|]. split; [done|]. unfold disk. cbn [set_dev dev objmap]. by rewrite E.
Qed.
End inv.

End Cow.
