(* ===== verification/Objects.v ===== *)
(** Writing objects ([write_object] of [src/crates/eurofs/src/disk.rs]): the new
    inode and data go to free blocks, the object map in memory is redirected to
    them, and the checkpoint on disk is left alone. *)

From stdpp Require Import gmap.
From S2P Require Import Prelude Bytes Block Crash Checksum Fs BTree Superblock Layout EuroFs Alloc Cow.
Import Block Crash Fs BTree Superblock Layout EuroFs Alloc Cow.

Module Objects.

Section objects.
Context {HX : Xxh3} {HH : Heap} {HW : WholeBlocks} {D : Type} {HD : BlockDevice D} {HL : LawfulDevice D}.
Implicit Types (f : EuroFs (Traced D)) (ck : checkpoint).

(** ** Content *)

(** How [data] lies on the disk. *)
Inductive stored (img : image) (data : list Z) : list (Z * Z) -> list Z -> Prop :=
| stored_inline : zlen data <= INLINE_CAP -> stored img data [] data
| stored_run start :
    INLINE_CAP < zlen data -> RESERVED_BLOCKS <= start -> start + div_ceil (zlen data) BS <= U64_MAX ->
    div_ceil (zlen data) BS <= U32_MAX ->
    (forall b, 0 <= b < div_ceil (zlen data) BS -> img (start + b) = data_block data b) ->
    stored img data [(start, div_ceil (zlen data) BS)] [].

Lemma data_block_like data b : bytes_ok data -> block_like (data_block data b).
Proof.
  intros Hd. unfold data_block. pose proof (zlen_slice_le data (b * BS) BS ltac:(unfold BS; lia)) as Hs.
  split; [|auto with euro]. rewrite zlen_app, zlen_zrepeat; lia.
Qed.

Lemma nblocks_u64 f ck : Inv f ck -> nblocks f * BS <= U64_MAX.
Proof. intros HI. rewrite <- (i_len _ _ HI). apply law_count, HI. Qed.

Lemma extent_blocks_one start nb : start + nb <= U64_MAX -> extent_blocks [(start, nb)] = zrange start (start + nb).
Proof.
  intros Hb. unfold extent_blocks. cbn [map concat fst snd]. rewrite app_nil_r. unfold zrange.
  replace (start + nb - start) with nb by lia. rewrite Z.sub_0_r.
  replace (seqZ start nb) with (seqZ (start + 0) nb) by (f_equal; lia). rewrite <- (fmap_add_seqZ start 0 nb).
  apply map_ext_in. intros k Hk%list_elem_of_In%elem_of_seqZ. unfold saturating_add64. lia.
Qed.

Lemma concat_slices {A} (data : list A) k :
  0 <= k -> k * BS <= zlen data -> concat (map (fun b => slice data (b * BS) BS) (zrange 0 k)) = slice data 0 (k * BS).
Proof.
  intros Hk. pattern k. apply natlike_ind; [by rewrite slice_0|clear k Hk|done].
  intros k Hk IH Hl. unfold Z.succ in *.
  rewrite zrange_snoc, map_app, concat_app, IH by (unfold BS in *; lia). cbn [map concat]. rewrite app_nil_r.
  pose proof (slice_join data 0 (k * BS) BS) as Hj. rewrite Z.add_0_l in Hj. rewrite Hj by (unfold BS in *; lia).
  f_equal. lia.
Qed.

Lemma data_block_padded data nb b :
  0 <= b < nb -> zlen data <= nb * BS -> data_block data b = slice (data ++ zrepeat 0 (nb * BS - zlen data)) (b * BS) BS.
Proof.
  intros Hb Hl. pose proof (zlen_nonneg data). unfold data_block.
  assert (Hs : zlen (slice data (b * BS) BS) = Z.max 0 (Z.min BS (zlen data - b * BS))).
  { unfold zlen, slice in *. rewrite length_take, length_drop. unfold BS in *. lia. }
  apply (list_eq_at 0).
  - rewrite zlen_app, Hs, zlen_zrepeat by (unfold BS; lia). symmetry.
    rewrite zlen_slice; rewrite ?zlen_app, ?zlen_zrepeat by lia; unfold BS in *; lia.
  - intros i Hi. rewrite zlen_app, zlen_zrepeat in Hi by (unfold BS in *; lia).
    rewrite at_slice by (rewrite ?zlen_app, ?zlen_zrepeat by lia; unfold BS in *; lia).
    unfold at_, slice, zlen, zrepeat in *. rewrite !nth_lookup.
    destruct (decide (b * BS + i < Z.of_nat (length data))).
    + rewrite !lookup_app_l by (rewrite ?length_take, ?length_drop; unfold BS in *; lia).
      rewrite lookup_take_lt, lookup_drop by (unfold BS in *; lia). do 2 f_equal. unfold BS in *. lia.
    + rewrite !lookup_app_r by (rewrite ?length_take, ?length_drop; unfold BS in *; lia).
      rewrite !lookup_replicate_2 by (rewrite ?length_take, ?length_drop in *; unfold BS in *; lia). done.
Qed.

(** Stored data is what a reader of the object gets. *)
Lemma stored_content img n data exts inl :
  stored img data exts inl -> content img (with_data n data exts inl) = data.
Proof.
  destruct 1 as [|start Hi Hr Hend Hu Hd]; [done|]. unfold content. cbn [with_data extents Layout.size].
  pose proof (div_ceil_spec (zlen data) BS ltac:(unfold BS; lia) (zlen_nonneg _)) as Hdiv.
  set (nb := div_ceil (zlen data) BS) in *. rewrite extent_blocks_one by done. unfold zrange.
  replace (start + nb - start) with nb by lia. replace (seqZ start nb) with (seqZ (start + 0) nb) by (f_equal; lia).
  rewrite <- (fmap_add_seqZ start 0 nb). change (fmap (M := list)) with (@map Z Z). rewrite map_map.
  rewrite (map_ext_in _ (fun b => slice (data ++ zrepeat 0 (nb * BS - zlen data)) (b * BS) BS)).
  - pose proof (concat_slices (data ++ zrepeat 0 (nb * BS - zlen data)) nb) as Hc. unfold zrange in Hc.
    rewrite Z.sub_0_r in Hc. pose proof (zlen_nonneg data).
    rewrite Hc by (rewrite ?zlen_app, ?zlen_zrepeat by lia; unfold BS in *; lia).
    rewrite (slice_whole (data ++ _)) by (rewrite ?zlen_app, ?zlen_zrepeat by lia; lia).
    by rewrite slice_app_l, slice_all by lia.
  - intros b Hb%list_elem_of_In%elem_of_seqZ. rewrite Hd by lia. apply data_block_padded; lia.
Qed.

(** The states from [f] in which only new blocks were written. *)
Definition grows f f' : Prop :=
  forall b, 0 <= b -> marked (used f) b -> marked (used f') b /\ disk f' b = disk f b.

Lemma grows_trans f1 f2 f3 : grows f1 f2 -> grows f2 f3 -> grows f1 f3.
Proof.
  intros H1 H2 b Hb Hm. destruct (H1 b Hb Hm) as [Hm2 E]. destruct (H2 b Hb Hm2) as [Hm3 E2].
  split; [done|congruence].
Qed.

Lemma store_data_spec f ck n data :
  Inv f ck -> bytes_ok data ->
  exists r t u, store_data n data f = (r, set_used (set_dev f t) u) /\
    step f ck [] (set_used (set_dev f t) u) ck /\ grows f (set_used (set_dev f t) u) /\
    match r with
    | Ok n' => exists exts inl, n' = with_data n data exts inl /\ stored (contents t) data exts inl /\
        fresh (set_used (set_dev f t) u) ck (extent_blocks exts)
    | Err e => e = NoSpace
    | _ => False
    end.
Proof.
  intros HI Hd. assert (Hsame : set_used (set_dev f (dev f)) (used f) = f) by by destruct f.
  assert (Hrefl : grows f f) by (intros b; done). unfold store_data.
  destruct (Z.leb_spec (zlen data) INLINE_CAP) as [Hle|Hgt].
  { exists (Ok (with_data n data [] data)), (dev f), (used f). rewrite Hsame.
    split; [done|]. split; [by apply step_refl|]. split; [done|]. exists [], data.
    split; [done|]. split; [by constructor|]. split; [apply NoDup_nil; exact I|constructor]. }
  destruct (Z.ltb_spec U32_MAX (div_ceil (zlen data) BS)).
  { exists (Err NoSpace), (dev f), (used f). rewrite Hsame. split; [done|]. split; [by apply step_refl|done]. }
  pose proof (div_ceil_spec (zlen data) BS ltac:(unfold BS; lia) (zlen_nonneg _)) as Hdiv.
  assert (Hnb : 0 < div_ceil (zlen data) BS) by (unfold INLINE_CAP, BS in *; lia).
  set (nb := div_ceil (zlen data) BS) in *.
  pose proof (alloc_run f ck nb HI Hnb) as Ha. unfold sbind at 1.
  destruct (alloc_contiguous nb f) as [[i|e| |] f1] eqn:E; try done.
  2:{ destruct Ha as [-> ->]. exists (Err NoSpace), (dev f), (used f). rewrite Hsame.
      split; [done|]. split; [by apply step_refl|done]. }
  destruct Ha as (u & -> & S1 & [Hnd Hfresh] & Hres & Hn & Hu & Hfree).
  destruct (write_run (set_used f u) ck i (data_block data) (zrange 0 nb)) as (t & Et & St & Ht & Hother).
  { apply S1. }
  { apply NoDup_seqZ. }
  { apply Forall_forall. intros b Hb%elem_of_zrange. rewrite Forall_forall in Hfresh.
    apply Hfresh, elem_of_zrange. lia. }
  { intros b _. by apply data_block_like. }
  rewrite (sbind_ok _ _ _ _ _ Et).
  exists (Ok (with_data n data [(i, nb)] [])), t, u.
  change (set_dev (set_used f u) t) with (set_used (set_dev f t) u) in *.
  split; [done|]. split; [exact (step_trans _ _ _ _ _ _ _ _ S1 St)|]. split.
  - intros b Hb Hm. split; [cbn [used set_used]; apply Hu; auto|].
    unfold disk. cbn [dev set_used set_dev]. pose proof (marked_bound _ _ Hm) as Hbd. apply Hother.
    + rewrite (sp_count _ _ _ _ _ S1). done.
    + intros b' Hb'%elem_of_zrange ->. apply (Hfree (i + b')); [lia|done].
  - pose proof (nblocks_u64 _ _ HI) as Hlim. unfold BS in Hlim.
    assert (Hend : i + nb <= U64_MAX) by (unfold U64_MAX in *; lia).
    exists [(i, nb)], []. split; [done|]. split.
    + constructor; try done. intros b Hb. apply Ht, elem_of_zrange. lia.
    + rewrite extent_blocks_one by done. apply (fresh_dev (set_used f u)); [|by split].
      apply map_blocks_ext. intros b Hb. pose proof (map_ok_area _ _ _ (i_map _ _ (sp_inv _ _ _ _ _ S1))) as Har.
      rewrite Forall_forall in Har, Hfresh. apply Hother.
      * apply Har in Hb. unfold in_area, RESERVED_BLOCKS in Hb. lia.
      * intros b' Hb'%elem_of_zrange ->. destruct (Hfresh (i + b')) as ((_ & _ & Hnot) & _); [|done].
        apply elem_of_zrange. lia.
Qed.

(** ** Inodes *)

Lemma map_blocks_insert img (m : list (Z * Z)) o blk :
  bt_ok m -> map_blocks img (bt_insert m o blk) ≡ₚ object_blocks img (o, blk) ++ map_blocks img (bt_remove m o).
Proof.
  intros Hm. pose proof (bt_insert_perm m o blk Hm) as Hp. unfold map_blocks.
  apply (Permutation_map (object_blocks img)) in Hp.
  change (object_blocks img (o, blk) ++ concat (map (object_blocks img) (bt_remove m o)))
    with (concat (map (object_blocks img) ((o, blk) :: bt_remove m o))).
  rewrite <- !flat_map_concat_map. by apply Permutation_flat_map, bt_insert_perm.
Qed.

Lemma inv_insert f ck i blk :
  Inv f ck -> fresh f ck (blk :: extent_blocks (extents i)) -> decode (disk f blk) = Ok i -> 1 <= oid i < U64_MAX ->
  inode_sound (nblocks f) (disk f) i ->
  Inv (set_extents_cache (set_objmap f (bt_insert (objmap f) (oid i) blk))
        (bt_insert (extents_cache f) (oid i) (extents i))) ck.
Proof.
  intros HI [Hnd Hfresh] Hdec Hoid Hsound. pose proof (i_map _ _ HI) as Hm.
  assert (Eb : object_blocks (disk f) (oid i, blk) = blk :: extent_blocks (extents i)).
  { unfold object_blocks, inode_blocks. cbn [snd]. by rewrite Hdec. }
  pose proof (map_blocks_insert (disk f) (objmap f) (oid i) blk (mo_sorted _ _ _ Hm)) as Hp. rewrite Eb in Hp.
  pose proof (map_ok_remove _ _ _ (oid i) Hm) as Hr.
  assert (Hsub : map_blocks (disk f) (bt_remove (objmap f) (oid i)) ⊆ map_blocks (disk f) (objmap f)).
  { apply map_blocks_sub. intros e He. by apply bt_remove_elem in He as [? _]; [|apply Hm]. }
  rewrite Forall_forall in Hfresh. pose proof (i_map_used _ _ HI) as Hu. rewrite Forall_forall in Hu.
  assert (Hmap : map_ok (nblocks f) (disk f) (bt_insert (objmap f) (oid i) blk)).
  { split.
    - apply bt_ok_insert, Hm.
    - apply bt_insert_forall; [|apply Hm]. split; [done|by exists i| |by intros j [= <-]%(eq_trans (eq_sym Hdec))].
      rewrite Eb. apply Forall_forall. intros b Hb. by apply Hfresh.
    - rewrite Hp. apply NoDup_app. split; [done|]. split; [|apply Hr].
      intros b Hb Hin. apply Hfresh in Hb as ((_ & _ & Hno) & _). auto. }
  pose proof HI as []. split; try done; cbn [set_extents_cache set_objmap objmap extents_cache] in *.
  - apply Forall_forall. intros b Hb. rewrite Hp in Hb. apply elem_of_app in Hb as [Hb|Hb]; [|by apply Hu, Hsub].
    by apply Hfresh.
  - intros o blk' e. rewrite !bt_get_insert. case_if; [|by apply i_cache0]. intros [= <-] [= <-]. by exists i.
Qed.

Definition placed f (t : Traced D) (u : list bool) (n : Inode) (blk : Z) : EuroFs (Traced D) :=
  set_extents_cache (set_objmap (set_used (set_dev f t) u) (bt_insert (objmap f) (oid n) blk))
    (bt_insert (extents_cache f) (oid n) (extents n)).

Lemma store_inode_spec f ck n :
  Inv f ck -> inode_ok n -> 1 <= oid n < U64_MAX -> fresh f ck (extent_blocks (extents n)) ->
  inode_sound (nblocks f) (disk f) n ->
  store_inode n f = (Err NoSpace, f) \/
  exists t u blk, store_inode n f = (Ok tt, placed f t u n blk) /\ step f ck [] (placed f t u n blk) ck /\
    grows f (placed f t u n blk) /\ 0 <= blk /\ ~ marked (used f) blk /\ decode (contents t blk) = Ok n.
Proof.
  intros HI Hn Hoid [Hnd Hfresh] Hsound. unfold store_inode. unfold sbind at 1.
  pose proof (alloc_one f ck HI) as Ha.
  destruct (alloc_block f) as [[blk|e| |] f1] eqn:E; try done; [|left; by destruct Ha as [-> ->]].
  right. destruct Ha as (u & -> & S1 & [_ Hblk] & Harea & Hu & Hfree). apply Forall_singleton in Hblk as (Hsp & Hmk & Har).
  destruct (encode_decode n Hn) as (enc & Eenc & Hlen & Hby & Hdec).
  rewrite (sbind_ok _ _ _ _ _ E), (sbind_ok (slift (encode n)) _ _ enc (set_used f u)) by (unfold slift; by rewrite Eenc).
  destruct (write_spare (set_used f u) ck blk enc) as (t & Et & St & Hc); [apply S1|done|by split|].
  rewrite (sbind_ok _ _ _ _ _ Et). exists t, u, blk.
  assert (En : nblocks (set_used f u) = nblocks f) by apply S1. rewrite En in Hc.
  assert (Hdisk : contents t blk = enc) by (rewrite Hc, Z.eqb_refl by (by rewrite <- En; apply Hsp); done).
  assert (Hne : forall b, b ∈ extent_blocks (extents n) -> b <> blk).
  { intros b Hb ->. rewrite Forall_forall in Hfresh. by apply Hfresh in Hb as (_ & ? & _). }
  assert (Hfr : fresh (set_dev (set_used f u) t) ck (blk :: extent_blocks (extents n))).
  { apply fresh_dev.
    - apply map_blocks_ext. intros b Hb. pose proof (map_ok_area _ _ _ (i_map _ _ HI)) as Hma.
      rewrite Forall_forall in Hma. rewrite Hc by (apply Hma in Hb; unfold in_area, RESERVED_BLOCKS in Hb; lia).
      case_if; [|done]. subst. by destruct Hsp as (_ & _ & Hno).
    - split; [apply NoDup_cons; split; [|done]; intros Hin; by apply (Hne blk)|]. constructor; [done|].
      rewrite Forall_forall in Hfresh |- *. intros b Hb. destruct (Hfresh b Hb) as ((Hb1 & Hb2 & Hb3) & Hb4 & Hb5).
      rewrite En. split; [split; [by rewrite En|done]|]. split; [|done]. apply Hu; [lia|by left]. }
  split; [done|]. split.
  - eapply (step_trans _ _ [] _ _ []); [exact S1|]. eapply (step_trans _ _ [] _ _ []); [exact St|].
    apply step_memory; [|done|done].
    apply (inv_insert (set_dev (set_used f u) t) ck n blk); try done; [apply St|unfold disk; cbn [set_dev dev]; by rewrite Hdisk|].
    change (nblocks (set_dev (set_used f u) t)) with (nblocks (set_used f u)). rewrite En.
    destruct Hsound as [Hx Hd]. split; [done|]. rewrite (content_ext (disk f)); [done|]. intros b Hb.
    unfold disk at 1. cbn [set_dev dev]. rewrite Forall_forall in Hfresh.
    rewrite Hc by by apply Hfresh. pose proof (Hne b Hb). by case_if.
  - split; [|split; [unfold in_area, RESERVED_BLOCKS in Harea; lia|by rewrite Hdisk]].
    intros b Hb Hm. split; [apply Hu; auto|]. change (disk (placed f t u n blk) b) with (contents t b).
    rewrite Hc by (split; [done|apply (marked_bound _ _ Hm)]). case_if; [by subst|done].
Qed.

(** ** Whole objects *)

(** The fields of an inode a caller of [write_object] chooses. *)
Record inode_typed (n : Inode) : Prop := mkTyped {
  it_oid : 1 <= oid n < U64_MAX;
  it_parent : is_u64 (iparent n);
  it_type : is_u8 (otype n);
  it_flags : is_u32 (flags n);
  it_uid : is_u32 (uid n);
  it_mode : is_u16 (mode n);
  it_mtime : is_u64 (mtime n);
}.

Lemma with_data_ok img n data exts inl :
  inode_typed n -> bytes_ok data -> is_u64 (zlen data) -> stored img data exts inl ->
  inode_ok (with_data n data exts inl).
Proof.
  intros [] Hd Hl Hs. assert (is_u64 (oid n)) by ulia.
  split; cbn [with_data oid iparent otype flags uid mode Layout.size mtime data_checksum extents inline];
    try done; try apply xxh3_64_u64; destruct Hs; try done.
  - constructor; [|constructor]. cbn [fst snd]. unfold RESERVED_BLOCKS in *.
    pose proof (div_ceil_spec (zlen data) BS ltac:(unfold BS; lia) (zlen_nonneg _)).
    unfold BS, INLINE_CAP in *. ulia.
  - constructor.
Qed.

Lemma usage_sub_spec f v b : exists us, usage_sub v b f = (Ok tt, set_usage f us).
Proof.
  assert (Hsame : set_usage f (usage f) = f) by by destruct f. unfold usage_sub. case_if.
  - unfold smodify. destruct (bt_get (usage f) v) eqn:E; [by eexists|]. exists (usage f). by rewrite Hsame.
  - exists (usage f). by rewrite Hsame.
Qed.

Lemma usage_add_spec f v b :
  exists r us, usage_add v b f = (r, set_usage f us) /\ (r = Ok tt \/ r = Panic).
Proof.
  assert (Hsame : set_usage f (usage f) = f) by by destruct f. unfold usage_add. case_if.
  - unfold sbind at 1. unfold sget at 1. unfold sbind at 1. unfold slift at 1. unfold add64. case_if.
    + eexists _, _. split; [done|by left].
    + exists Panic, (usage f). rewrite Hsame. split; [done|by right].
  - exists (Ok tt), (usage f). rewrite Hsame. split; [done|by left].
Qed.

(** [f'] is [f] with the object [n] replaced and its content set to [data]. *)
Definition wrote f (n : Inode) (data : list Z) f' : Prop :=
  exists t u blk exts inl us,
    f' = set_usage (placed f t u (with_data n data exts inl) blk) us /\ 0 <= blk /\ ~ marked (used f) blk /\
    decode (contents t blk) = Ok (with_data n data exts inl) /\ stored (contents t) data exts inl.

Lemma stored_agree img img' data exts inl :
  (forall b, b ∈ extent_blocks exts -> img' b = img b) -> stored img data exts inl -> stored img' data exts inl.
Proof.
  intros Ha Hs. destruct Hs as [|start]; constructor; try done. intros b Hb. rewrite Ha; [auto|].
  rewrite extent_blocks_one by done. apply elem_of_zrange. lia.
Qed.

Lemma fresh_marked f ck bs b : fresh f ck bs -> b ∈ bs -> 0 <= b /\ marked (used f) b.
Proof.
  intros [_ Hf] Hb. rewrite Forall_forall in Hf. apply Hf in Hb as (_ & ? & Ha).
  split; [|done]. unfold in_area, RESERVED_BLOCKS in Ha. lia.
Qed.

Lemma stored_sound f ck n data exts inl :
  fresh f ck (extent_blocks exts) -> stored (disk f) data exts inl ->
  inode_sound (nblocks f) (disk f) (with_data n data exts inl).
Proof.
  intros [_ Hf] Hs. split; [|intros _; by rewrite stored_content].
  destruct Hs as [|start Hi Hr Hend Hu Hd]; constructor; [|constructor]. cbn [fst snd].
  pose proof (div_ceil_spec (zlen data) BS ltac:(unfold BS; lia) (zlen_nonneg _)) as Hdiv.
  assert (0 < div_ceil (zlen data) BS) by (unfold INLINE_CAP, BS in *; lia). split; [done|].
  rewrite extent_blocks_one, Forall_forall in Hf by done.
  destruct (Hf (start + div_ceil (zlen data) BS - 1)) as (_ & _ & Ha); [apply elem_of_zrange; lia|].
  unfold in_area in Ha. lia.
Qed.

Lemma store_object_spec f ck n data :
  Inv f ck -> inode_typed n -> bytes_ok data -> is_u64 (zlen data) ->
  exists r f', (let! n' := store_data n data in store_inode n') f = (r, f') /\
    step f ck [] f' ck /\ grows f f' /\
    match r with
    | Ok _ => forall us, wrote f n data (set_usage f' us)
    | Err e => e = NoSpace
    | _ => False
    end.
Proof.
  intros HI Hn Hd Hl. destruct (store_data_spec f ck n data HI Hd) as (r & t & u & E & S1 & G1 & Hr).
  unfold sbind at 1. rewrite E. destruct r as [n'|e| |]; try done; [|subst e; by eexists _, _].
  destruct Hr as (exts & inl & -> & Hst & Hfr). set (f1 := set_used (set_dev f t) u) in *.
  pose proof (with_data_ok _ _ _ _ _ Hn Hd Hl Hst) as Hok.
  destruct (store_inode_spec f1 ck (with_data n data exts inl) (sp_inv _ _ _ _ _ S1) Hok) as
    [E2|(t2 & u2 & blk & E2 & S2 & G2 & Hb & Hfree & Hdec)]; [apply Hn|done|by eapply stored_sound|..]; rewrite E2.
  - by eexists _, _.
  - eexists (Ok tt), _. split; [done|]. split; [exact (step_trans _ _ _ _ _ _ _ _ S1 S2)|].
    split; [by eapply grows_trans|]. intros us. exists t2, u2, blk, exts, inl, us.
    split; [done|]. split; [done|]. split; [intros Hm; apply Hfree; by apply G1|]. split; [done|].
    eapply stored_agree; [|exact Hst]. intros b Hin. destruct (fresh_marked _ _ _ _ Hfr Hin) as [Hb0 Hm].
    apply (G2 b Hb0 Hm).
Qed.

Lemma write_object_spec f ck n data :
  Inv f ck -> inode_typed n -> bytes_ok data -> is_u64 (zlen data) ->
  exists r f', write_object n data f = (r, f') /\
    step f ck [] f' ck /\ grows f f' /\ (r = Ok tt -> wrote f n data f').
Proof.
  intros HI Hn Hd Hl. unfold write_object. unfold sbind at 1. unfold sgets at 1.
  match goal with |- context [match ?o with Ok _ => _ | _ => _ end] => destruct o as [[ob ou]|e| |] end;
    try (eexists _, f; split; [done|]; split; [by apply step_refl|]; split; [by intros b|done]).
  set (nb := if zlen data <=? INLINE_CAP then 0 else div_ceil (zlen data) BS).
  unfold sbind at 1. unfold sgets at 1.
  destruct (quota_allows f (uid n) ou ob nb) as [[]|e| |];
    try (eexists _, f; split; [done|]; split; [by apply step_refl|]; split; [by intros b|done]).
  destruct (store_object_spec f ck n data HI Hn Hd Hl) as (r & f' & E & S1 & G1 & Hr).
  rewrite <- (sbind_assoc (store_data n data) store_inode
    (fun _ => let! _ := usage_sub ou ob in usage_add (uid n) nb)), (sbind_run _ _ _ _ _ E).
  destruct r as [[]|e| |]; try done; [|by eexists _, _].
  destruct (usage_sub_spec f' ou ob) as (us & Eu). rewrite (sbind_ok _ _ _ _ _ Eu).
  destruct (usage_add_spec (set_usage f' us) (uid n) nb) as (r & us' & Ea & Hres). rewrite Ea.
  exists r, (set_usage f' us'). split; [done|].
  split; [|by split; [|intros _; apply Hr]].
  apply (step_trans f ck [] f' ck [] (set_usage f' us') ck); [done|].
  apply step_memory; [|done|done]. apply inv_usage, S1.
Qed.
End objects.
End Objects.
