(* ===== verification/Rebuild.v ===== *)
(** The block allocator of EuroFS as it is rebuilt after every commit and at every
    mount ([rebuild_allocator] and [mark_state_blocks] of
    [src/crates/eurofs/src/disk.rs]): the bitmap marks the reserved blocks, the
    object-map table, the live tree and the blocks of the snapshots, and nothing
    else. *)

From stdpp Require Import gmap.
From S2P Require Import Prelude Bytes Block Crash Checksum Fs BTree Superblock Layout EuroFs Alloc Cow.
Import Block Crash Fs BTree Superblock Layout EuroFs Alloc Cow.

Module Rebuild.

Section rebuild.
Context {HX : Xxh3} {HH : Heap} {HW : WholeBlocks} {D : Type} {HD : BlockDevice D} {HL : LawfulDevice D}.
Implicit Types (f : EuroFs D).

Definition img f : image := contents (dev f).

(** ** Reading *)

Lemma read_block_spec f b : dev_ok (dev f) -> 0 <= b < block_count (dev f) -> read_block f b = Ok (img f b).
Proof. intros Hok Hb. unfold read_block. by rewrite law_read. Qed.

Lemma read_table_spec f root bs :
  dev_ok (dev f) -> Forall (fun b => 0 <= root + b < block_count (dev f)) bs ->
  read_table f root bs = Ok (concat (map (fun b => img f (root + b)) bs)).
Proof.
  intros Hok. pose proof (law_count _ Hok) as Hn. unfold BS in Hn.
  induction 1 as [|b bs Hb Hbs IH]; cbn [read_table map concat]; [done|].
  unfold add64. destruct (Z.leb_spec (root + b) U64_MAX); [|unfold U64_MAX in *; lia].
  cbn [obind]. rewrite read_block_spec by done. cbn [obind]. by rewrite IH.
Qed.

(** ** Marking *)

Lemma mark_all_app u l1 l2 : mark_all (mark_all u l1) l2 = mark_all u (l1 ++ l2).
Proof. unfold mark_all. by rewrite foldl_app. Qed.

(** The cache of extents agrees with the inodes on disk. *)
Definition cache_ok f : Prop :=
  forall o blk e, bt_get (objmap f) o = Some blk -> bt_get (extents_cache f) o = Some e ->
    exists i, decode (img f blk) = Ok i /\ e = extents i.

Lemma mark_object_spec f e :
  dev_ok (dev f) -> cache_ok f -> object_ok (block_count (dev f)) (img f) e -> e ∈ objmap f -> bt_ok (objmap f) ->
  exists c, mark_object e f = (Ok tt, set_extents_cache (set_used f (mark_all (used f) (object_blocks (img f) e))) c) /\
    cache_ok (set_extents_cache f c).
Proof.
  intros Hok Hc [_ (i & Hi & Hoid) Ha] He Hm. destruct e as [o blk]. cbn [fst snd] in *.
  assert (Hget : bt_get (objmap f) o = Some blk) by by apply bt_get_elem.
  apply Forall_cons in Ha as [Hblk _]. unfold in_area, RESERVED_BLOCKS in Hblk. cbn [snd] in Hblk.
  assert (Eb : object_blocks (img f) (o, blk) = [blk] ++ extent_blocks (extents i)).
  { unfold object_blocks, inode_blocks. cbn [snd]. by rewrite Hi. }
  unfold mark_object, mark_used, smodify. cbn [fst snd]. unfold sbind, object_extents.
  cbn [set_used extents_cache]. rewrite Eb, <- mark_all_app.
  destruct (bt_get (extents_cache f) o) as [e|] eqn:Ec.
  - destruct (Hc _ _ _ Hget Ec) as (i' & Hi' & ->). rewrite Hi in Hi'. injection Hi' as <-.
    exists (extents_cache f). split; [by destruct f|]. by destruct f.
  - rewrite (read_block_spec (set_used f _)) by (first [exact Hok|cbn [set_used dev]; lia]).
    change (img (set_used f (mark_all (used f) [blk])) blk) with (img f blk). rewrite Hi.
    eexists. split; [done|]. intros o' blk' e'. cbn [set_extents_cache objmap extents_cache].
    rewrite bt_get_insert. case_if; [|apply Hc]. subst. rewrite Hget. intros [= <-] [= <-]. by exists i.
Qed.

Lemma mark_objects_spec f es :
  dev_ok (dev f) -> cache_ok f -> Forall (object_ok (block_count (dev f)) (img f)) es -> es ⊆ objmap f ->
  bt_ok (objmap f) ->
  exists c, sfor es mark_object f =
    (Ok tt, set_extents_cache (set_used f (mark_all (used f) (map_blocks (img f) es))) c) /\
    cache_ok (set_extents_cache f c).
Proof.
  revert f. induction es as [|e es IH]; intros f Hok Hc Ho Hsub Hm.
  - exists (extents_cache f). split; by destruct f.
  - apply Forall_cons in Ho as [Hoe Hos]. cbn [sfor].
    destruct (mark_object_spec f e) as (c & E & Hc1); auto; [apply Hsub; by left|].
    rewrite (sbind_ok _ _ _ _ _ E).
    destruct (IH (set_extents_cache (set_used f (mark_all (used f) (object_blocks (img f) e))) c))
      as (c2 & E2 & Hc2); auto; [intros x Hx; apply Hsub; by right|].
    rewrite E2. exists c2. split; [|done]. cbn [set_extents_cache set_used used]. by rewrite mark_all_app.
Qed.

Lemma mark_entries_spec f n es :
  dev_ok (dev f) -> n = block_count (dev f) -> Forall (object_ok n (img f)) es ->
  sfor es mark_entry f = (Ok tt, set_used f (mark_all (used f) (map_blocks (img f) es))).
Proof.
  intros Hok ->. revert f Hok. induction es as [|[o blk] es IH]; intros f Hok Ho; [by destruct f|].
  apply Forall_cons in Ho as [[_ (i & Hi & Hoid) Ha] Hos]. cbn [fst snd] in *.
  apply Forall_cons in Ha as [Hblk _]. unfold in_area, RESERVED_BLOCKS in Hblk. cbn [snd] in Hblk.
  assert (E : mark_entry (o, blk) f = (Ok tt, set_used f (mark_all (used f) (object_blocks (img f) (o, blk))))).
  { unfold mark_entry, mark_used, smodify, sbind. cbn [snd].
    rewrite (read_block_spec (set_used f _)) by (first [exact Hok|cbn [set_used dev]; lia]).
    change (img (set_used f (mark_all (used f) [blk])) blk) with (img f blk). rewrite Hi.
    cbn [set_used used]. rewrite mark_all_app. unfold object_blocks, inode_blocks. cbn [snd]. by rewrite Hi. }
  cbn [sfor]. rewrite (sbind_ok _ _ _ _ _ E), IH by done. cbn [set_used used]. by rewrite mark_all_app.
Qed.

Lemma zlen_table i root nb :
  0 <= nb -> (forall b, root <= b < root + nb -> zlen (i b) = BS) -> zlen (table i root nb) = nb * BS.
Proof.
  intros Hnb. pattern nb. apply natlike_ind; [done| |done]. clear nb Hnb. intros nb Hnb IH Hlen.
  unfold table, Z.succ in *. rewrite zrange_snoc, map_app, concat_app, zlen_app by lia.
  rewrite IH by (intros; apply Hlen; lia). cbn [map concat]. rewrite app_nil_r, Hlen by lia. lia.
Qed.

Lemma mark_state_blocks_spec f root nb m :
  dev_ok (dev f) -> state_ok (block_count (dev f)) (img f) root nb m ->
  mark_state_blocks root nb f = (Ok tt, set_used f (mark_all (used f) (state_blocks (img f) root nb m))).
Proof.
  intros Hok [H1 H2 H3 H4 H5]. pose proof (law_count _ Hok) as Hn. unfold BS in Hn.
  assert (Esat : saturating_add64 root nb = root + nb) by (unfold saturating_add64, U64_MAX in *; lia).
  unfold mark_state_blocks, mark_used, smodify, sbind. rewrite Esat.
  set (f1 := set_used f _).
  rewrite (read_table_spec f1) by (first [exact Hok|apply Forall_forall; intros b Hb%elem_of_zrange;
    cbn [f1 set_used dev]; unfold RESERVED_BLOCKS in *; lia]).
  change (concat (map (fun b => img f1 (root + b)) (zrange 0 nb))) with (table (img f) root nb).
  assert (Hl : zlen (table (img f) root nb) = nb * BS).
  { apply zlen_table; [lia|]. intros b Hb. apply law_contents; [done|]. unfold RESERVED_BLOCKS in *. lia. }
  rewrite Hl. destruct (Z.ltb_spec (nb * BS) 8); [unfold BS in *; lia|]. rewrite H4.
  rewrite (mark_entries_spec f1 (block_count (dev f))) by (first [exact Hok|done|apply H5]).
  subst f1. cbn [set_used used]. unfold state_blocks. by rewrite <- mark_all_app.
Qed.

Definition pinned (i : image) (snaps : list (SnapshotEntry * list (Z * Z))) : list Z :=
  concat (map (snap_blocks i) snaps).

Definition same_place (s : SnapshotEntry) (p : SnapshotEntry * list (Z * Z)) : Prop :=
  sn_objmap_root s = sn_objmap_root (fst p) /\ sn_map_blocks s = sn_map_blocks (fst p).

Definition snap_ok (n : Z) (i : image) (p : SnapshotEntry * list (Z * Z)) : Prop :=
  state_ok n i (sn_objmap_root (fst p)) (sn_map_blocks (fst p)) (snd p).

Lemma mark_snapshots_spec f l snaps :
  dev_ok (dev f) -> Forall2 same_place l snaps -> Forall (snap_ok (block_count (dev f)) (img f)) snaps ->
  sfor l (fun sn => mark_state_blocks (sn_objmap_root sn) (sn_map_blocks sn)) f =
  (Ok tt, set_used f (mark_all (used f) (pinned (img f) snaps))).
Proof.
  intros Hok Hl. revert f Hok. induction Hl as [|s p l snaps [Hr Hb] Hl IH]; intros f Hok Hs; [by destruct f|].
  apply Forall_cons in Hs as [Hp Hs]. cbn [sfor]. rewrite Hr, Hb.
  rewrite (sbind_ok _ _ _ _ _ (mark_state_blocks_spec f _ _ (snd p) Hok Hp)), IH by done.
  cbn [set_used used]. unfold pinned. cbn [map concat]. by rewrite mark_all_app.
Qed.

(** The blocks in use once [m] is the live tree. *)
Definition in_use (i : image) (root nb : Z) (m : list (Z * Z))
    (snaps : list (SnapshotEntry * list (Z * Z))) (b : Z) : Prop :=
  0 <= b < RESERVED_BLOCKS \/ b ∈ state_blocks i root nb m \/ b ∈ pinned i snaps.

Lemma pinned_area n i snaps : Forall (snap_ok n i) snaps -> Forall (in_area n) (pinned i snaps).
Proof.
  intros Hs. apply Forall_forall. intros b Hb. unfold pinned in Hb.
  apply list_elem_of_In, in_concat in Hb as (l & Hl & Hb). apply in_map_iff in Hl as (p & <- & Hp).
  rewrite Forall_forall in Hs. apply list_elem_of_In in Hp, Hb. apply Hs, state_ok_area in Hp.
  rewrite Forall_forall in Hp. by apply Hp.
Qed.

Lemma marked_none {A} (l : list A) b : ~ marked (map (fun _ => false) l) b.
Proof.
  unfold marked, at_. rewrite nth_lookup, list_lookup_fmap. by destruct (l !! Z.to_nat b).
Qed.

Lemma rebuild_bitmap_spec f snaps :
  dev_ok (dev f) -> block_count (dev f) = zlen (used f) -> RESERVED_BLOCKS <= zlen (used f) -> cache_ok f ->
  state_ok (block_count (dev f)) (img f) (object_map_root (sb f)) (extent_tree_root (sb f)) (objmap f) ->
  Forall2 same_place (snapshots f) snaps -> Forall (snap_ok (block_count (dev f)) (img f)) snaps ->
  exists u c, rebuild_bitmap f = (Ok tt, set_extents_cache (set_used f u) c) /\ zlen u = zlen (used f) /\
    cache_ok (set_extents_cache f c) /\
    forall b, 0 <= b -> marked u b <->
      in_use (img f) (object_map_root (sb f)) (extent_tree_root (sb f)) (objmap f) snaps b.
Proof.
  intros Hok Hn Hres Hc Hst Hsame Hsn. pose proof (law_count _ Hok) as Hcnt. unfold BS in Hcnt.
  pose proof Hst as [R1 R2 R3 R4 R5].
  assert (Hadd : add64 (E := FsError) (object_map_root (sb f)) (extent_tree_root (sb f)) =
    Ok (object_map_root (sb f) + extent_tree_root (sb f))).
  { unfold add64. destruct (Z.leb_spec (object_map_root (sb f) + extent_tree_root (sb f)) U64_MAX); [done|].
    unfold U64_MAX in *; lia. }
  set (u0 := map (fun _ => false) (used f)). set (root := object_map_root (sb f)) in *.
  set (nb := extent_tree_root (sb f)) in *.
  assert (Hl0 : zlen u0 = zlen (used f)) by (unfold u0, zlen; by rewrite length_map).
  set (u1 := mark_all (mark_range u0 0 RESERVED_BLOCKS) (zrange root (root + nb))).
  assert (E1 : rebuild_bitmap f =
    (let! _ := sfor (objmap f) mark_object in
     let! snaps := sget snapshots in
     sfor snaps (fun sn => mark_state_blocks (sn_objmap_root sn) (sn_map_blocks sn))) (set_used f u1)).
  { unfold rebuild_bitmap, mark_used. unfold sbind at 1 2 3 4 5 6, smodify, sget at 1 2, slift.
    cbn [set_used sb objmap]. fold root nb. rewrite Hadd. cbn [set_used used]. fold u0. rewrite Hl0, Z.min_l by done. done. }
  rewrite E1.
  destruct (mark_objects_spec (set_used f u1) (objmap f)) as (c & E2 & Hc2); [done|done|apply R5|done|apply R5|].
  rewrite (sbind_ok _ _ _ _ _ E2). cbn [set_used used]. unfold sbind, sget. cbn [set_extents_cache set_used snapshots].
  rewrite (mark_snapshots_spec _ _ snaps); [|exact Hok|done|exact Hsn].
  eexists _, c. split; [done|]. change (used (set_extents_cache ?g ?v)) with (used g). cbn [set_used used].
  change (img (set_used f u1)) with (img f).
  change (img (set_extents_cache (set_used (set_used f u1) ?u) c)) with (img f).
  split; [unfold u1; by rewrite !zlen_mark_all, zlen_mark_range, Hl0|]. split; [done|].
  intros b Hb. rewrite mark_all_app. unfold u1. rewrite mark_all_app, app_assoc.
  change (zrange root (root + nb) ++ map_blocks (img f) (objmap f)) with (state_blocks (img f) root nb (objmap f)).
  pose proof (state_ok_area _ _ _ _ _ Hst) as Ha1. pose proof (pinned_area _ _ _ Hsn) as Ha2.
  assert (Ha : Forall (in_area (zlen (used f))) (state_blocks (img f) root nb (objmap f) ++ pinned (img f) snaps)).
  { rewrite <- Hn. by apply Forall_app. }
  rewrite marked_all; [| |done].
  2:{ eapply Forall_impl; [exact Ha|]. unfold in_area, RESERVED_BLOCKS. lia. }
  rewrite marked_range, zlen_mark_range, Hl0 by lia. unfold in_use. rewrite elem_of_app.
  rewrite Forall_forall in Ha. specialize (Ha b). rewrite elem_of_app in Ha. unfold in_area in Ha.
  pose proof (marked_none (used f) b) as Hno. fold u0 in Hno.
  unfold RESERVED_BLOCKS in *. clear -Ha Hno Hb Hres. intuition lia.
Qed.
End rebuild.
End Rebuild.
