(* ===== verification/Commit.v ===== *)
(** The commit of EuroFS ([commit], [write_objmap], [trim] of
    [src/crates/eurofs/src/disk.rs] and [write_to] of
    [src/crates/eurofs/src/superblock.rs]): the object map is written to free
    blocks, the superblock switches to it in one step, and the allocator is
    rebuilt.  At every moment a power failure leaves the checkpoint before or
    the one after. *)

From stdpp Require Import gmap.
From S2P Require Import Prelude Bytes Block Crash Checksum Fs BTree Superblock Layout EuroFs Alloc Cow Objects Rebuild.
Import Block Crash Fs BTree Superblock Layout EuroFs Alloc Cow Objects Rebuild.

Module Commit.

Section commit.
Context {HX : Xxh3} {HH : Heap} {HW : WholeBlocks} {D : Type} {HD : BlockDevice D} {HL : LawfulDevice D}.
Implicit Types (f : EuroFs (Traced D)) (ck : checkpoint).

(** ** The allocator after a commit *)

(** Nothing in use is discarded. *)
Definition keeps f (t : Traced D) : Prop := forall b, 0 <= b -> marked (used f) b -> contents t b = disk f b.

Lemma trim_loop f ck l :
  Inv f ck ->
  exists t, sfor l (fun b => fun g : EuroFs (Traced D) =>
      if (b <? zlen (used g)) && negb (at_ false (used g) b)
      then signore (on_dev (fun d => discard d b 1)) g else (Ok tt, g)) f = (Ok tt, set_dev f t) /\
    step f ck [] (set_dev f t) ck /\ keeps f t.
Proof.
  revert f. induction l as [|b l IH]; intros f HI.
  - exists (dev f). split; [by destruct f|]. split; [|by intros b]. destruct f. by apply step_refl.
  - cbn [sfor]. destruct ((b <? zlen (used f)) && negb (at_ false (used f) b)) eqn:E.
    2:{ unfold sbind at 1. rewrite E. by apply IH. }
    apply andb_true_iff in E as [Hb Hm]. apply Z.ltb_lt in Hb. apply negb_true_iff in Hm.
    assert (0 <= b) as Hb0.
    { destruct (Z.lt_ge_cases b 0); [|done]. pose proof (i_reserved _ _ HI 0 ltac:(unfold RESERVED_BLOCKS; lia)) as Hr.
      unfold marked, at_ in *. replace (Z.to_nat b) with (Z.to_nat 0) in Hm by lia. congruence. }
    destruct (unmarked_spare f ck b HI) as [Hs _]; [unfold nblocks; lia|unfold marked; congruence|].
    destruct (discard_spare f ck b HI Hs) as (t1 & E1 & S1 & K1).
    assert (Ei : signore (on_dev (fun d : Traced D => discard d b 1)) f = (Ok tt, set_dev f t1)).
    { unfold signore. by rewrite E1. }
    destruct (IH (set_dev f t1)) as (t2 & E2 & S2 & K2); [apply S1|].
    exists t2. split; [|split; [exact (step_trans _ _ _ _ _ _ _ _ S1 S2)|]].
    + unfold sbind at 1. destruct (Z.ltb_spec b (zlen (used f))); [|lia]. rewrite Hm. cbn [andb negb]. by rewrite Ei.
    + intros b' Hb' Hm'. rewrite K2 by done. unfold disk. cbn [set_dev dev]. apply K1.
      * split; [done|]. apply (marked_bound _ _ Hm').
      * intros ->. unfold marked in Hm'. congruence.
Qed.

Lemma trim_spec f ck prev :
  Inv f ck ->
  exists t pt, trim prev f = (Ok tt, set_pending_trim (set_dev f t) pt) /\
    step f ck [] (set_pending_trim (set_dev f t) pt) ck /\ keeps f t.
Proof.
  intros HI. destruct (trim_loop (set_pending_trim f []) ck (pending_trim f)) as (t & E & S1 & K).
  { by apply inv_pending_trim. }
  exists t. eexists. split; [|split; [|exact K]].
  - unfold trim. unfold sbind at 1. unfold sget at 1. unfold sbind at 1. unfold smodify at 1.
    rewrite (sbind_ok _ _ _ _ _ E). done.
  - eapply (step_trans _ _ [] _ _ []); [|eapply (step_trans _ _ [] _ _ []); [exact S1|]].
    + apply step_memory; [by apply inv_pending_trim|done|done].
    + apply step_memory; [|done|done]. change (set_pending_trim (set_dev f t) ?p) with
        (set_pending_trim (set_dev (set_pending_trim f []) t) p). apply inv_pending_trim, S1.
Qed.

(** The state in memory is the checkpoint in force. *)
Definition clean f ck : Prop :=
  objmap f = ck_map ck /\ object_map_root (sb f) = object_map_root (ck_sb ck) /\
  extent_tree_root (sb f) = extent_tree_root (ck_sb ck).

(** What the bitmap marks when it is exact. *)
Definition exact_bitmap f ck : Prop :=
  forall b, 0 <= b -> marked (used f) b <-> b < RESERVED_BLOCKS \/ b ∈ ck_blocks ck.

Lemma same_snap_place l snaps : Forall2 same_snap l snaps -> Forall2 same_place l snaps.
Proof.
  intros Hl. eapply Forall2_impl; [exact Hl|]. intros s p E.
  by split; [apply (f_equal sn_objmap_root) in E|apply (f_equal sn_map_blocks) in E].
Qed.

Lemma free_count_bound f : 0 <= free_count f <= zlen (used f).
Proof.
  unfold free_count, zlen. pose proof (filter_length_le negb (used f)). lia.
Qed.

Lemma sb_static_free s v : sb_static s -> is_u64 v -> sb_static (set_sb_free s v).
Proof. intros [[] ? ? ?] Hv. split; [|done..]. by split. Qed.

Lemma rebuild_spec f ck emit :
  Inv f ck -> clean f ck ->
  exists t u c s pt f',
    f' = set_pending_trim (set_sb (set_extents_cache (set_used (set_dev f t) u) c) s) pt /\
    rebuild_allocator_trim emit f = (Ok tt, f') /\ step f ck [] f' ck /\ clean f' ck /\ exact_bitmap f' ck /\
    free_blocks s = free_count f' /\ checkpoint_id s = checkpoint_id (sb f) /\
    forall b, b ∈ ck_blocks ck -> contents t b = disk f b.
Proof.
  intros HI (Hmap & Hroot & Hnb). pose proof (inv_size _ _ HI) as Hsize.
  destruct (holds_live _ _ _ (i_ck _ _ HI) (i_holds _ _ HI)) as [Hlive _].
  destruct (rebuild_bitmap_spec f (ck_snaps ck)) as (u & c & E & Hlen & Hcache & Hu).
  { apply HI. } { apply HI. } { done. } { exact (i_cache _ _ HI). }
  { rewrite Hmap, Hroot, Hnb, (i_len _ _ HI). exact Hlive. }
  { apply same_snap_place, HI. }
  { apply Forall_forall. intros p Hp. unfold snap_ok. rewrite (i_len _ _ HI).
    by apply (holds_snap _ _ _ _ (i_ck _ _ HI) (i_holds _ _ HI) Hp). }
  rewrite Hmap, Hroot, Hnb in Hu.
  assert (Hexact : forall b, 0 <= b -> marked u b <-> b < RESERVED_BLOCKS \/ b ∈ ck_blocks ck).
  { intros b Hb. rewrite Hu by done. unfold in_use.
    rewrite <- (ck_on_blocks _ _ _ (i_ck _ _ HI) (i_holds _ _ HI)). unfold ck_blocks, ck_live, pinned.
    cbn [ck_on ck_sb ck_map ck_snaps ck_img]. rewrite elem_of_app. change (img f) with (disk f). intuition lia. }
  set (s := set_sb_free (sb f) (free_count (set_used f u))).
  set (f1 := set_sb (set_extents_cache (set_used f u) c) s).
  assert (Hall : Forall (marked u) (ck_blocks ck)).
  { apply Forall_forall. intros b Hb. pose proof (ck_ok_area _ _ (i_ck _ _ HI)) as Ha.
    rewrite Forall_forall in Ha. specialize (Ha b Hb). unfold in_area, RESERVED_BLOCKS in Ha. apply Hexact; [lia|auto]. }
  assert (HI1 : Inv f1 ck).
  { pose proof (nblocks_u64 _ _ HI) as Hlim. unfold BS in Hlim.
    assert (Hs : sb_static s).
    { apply sb_static_free; [apply HI|]. pose proof (free_count_bound (set_used f u)) as Hf. cbn [set_used used] in Hf.
      unfold nblocks in *. ulia. }
    pose proof HI as []. unfold f1, nblocks in *.
    split; unfold nblocks; cbn [set_sb set_extents_cache set_used dev used objmap extents_cache snapshots sb now
      next_oid ctx_uid next_snap_id]; rewrite ?Hlen; try done.
    - intros b Hb. apply Hexact; [lia|]. left. lia.
    - rewrite Hmap in *. rewrite Forall_forall in Hall |- *. intros b Hb. apply Hall.
      rewrite <- (ck_on_blocks _ _ _ i_ck0 i_holds0). apply elem_of_ck_blocks. left. apply elem_of_state_blocks. by right. }
  assert (S1 : step f ck [] f1 ck) by (by apply step_memory).
  assert (E1 : rebuild_allocator_trim emit f = (if emit then trim (used f) else sret tt) f1).
  { unfold rebuild_allocator_trim. unfold sbind at 1. unfold sget at 1. rewrite (sbind_ok _ _ _ _ _ E). done. }
  assert (Hckm : forall b, b ∈ ck_blocks ck -> 0 <= b /\ marked u b).
  { intros b Hb. rewrite Forall_forall in Hall. split; [|auto]. pose proof (ck_ok_area _ _ (i_ck _ _ HI)) as Ha.
    rewrite Forall_forall in Ha. specialize (Ha b Hb). unfold in_area, RESERVED_BLOCKS in Ha. lia. }
  rewrite E1. destruct emit.
  - destruct (trim_spec f1 ck (used f) HI1) as (t & pt & E2 & S2 & K).
    exists t, u, c, s, pt. eexists. split; [done|]. split; [exact E2|].
    split; [exact (step_trans _ _ _ _ _ _ _ _ S1 S2)|]. split; [done|]. split; [exact Hexact|]. split; [done|]. split; [done|].
    intros b Hb. destruct (Hckm b Hb). by apply K.
  - exists (dev f), u, c, s, (pending_trim f), f1. split; [by destruct f|]. split; [done|]. split; [done|].
    split; [done|]. split; [exact Hexact|]. done.
Qed.

(** ** Switching to a new checkpoint *)

Lemma nodup_bound n (l : list Z) : NoDup l -> Forall (in_area n) l -> zlen l <= Z.max 0 n.
Proof.
  intros Hnd Ha. assert (Hs : l ⊆+ zrange 0 n).
  { apply NoDup_submseteq; [done|]. intros b Hb. rewrite Forall_forall in Ha. apply Ha in Hb.
    apply elem_of_zrange. unfold in_area, RESERVED_BLOCKS in Hb. lia. }
  apply submseteq_length in Hs. unfold zlen. unfold zrange in Hs. rewrite length_seqZ in Hs. lia.
Qed.

Lemma zlen_map_blocks i (m : list (Z * Z)) : zlen m <= zlen (map_blocks i m).
Proof.
  induction m as [|e m IH]; [done|]. unfold map_blocks in *. cbn [map concat].
  unfold object_blocks at 1. rewrite zlen_cons, zlen_app, zlen_cons.
  pose proof (zlen_nonneg (inode_blocks i (snd e))). lia.
Qed.

(** A tree is not larger than the disk, and its map can be stored. *)
Lemma map_ok_storable n i m :
  map_ok n i m -> 0 <= n -> n <= U64_MAX ->
  zlen m <= n /\ table_entries (encode_objmap m) = m.
Proof.
  intros Hm Hn Hmax. pose proof (map_ok_area _ _ _ Hm) as Ha.
  pose proof (nodup_bound _ _ (mo_nodup _ _ _ Hm) Ha) as Hb. pose proof (zlen_map_blocks i m) as Hl.
  split; [lia|]. pose proof (zlen_nonneg m). apply table_entries_back; [ulia|].
  apply Forall_forall. intros e He. pose proof (mo_objects _ _ _ Hm) as Ho. rewrite Forall_forall in Ho.
  destruct (Ho e He) as [Hoid _ Har]. apply Forall_cons in Har as [Har _].
  unfold in_area, RESERVED_BLOCKS in Har. ulia.
Qed.

(** What a superblock write over the mounted state leaves: the checkpoint of the
    tree in memory. *)
Definition next_ck f ck (s : EuroFsSuperblock) : checkpoint := mkCk s (objmap f) (ck_snaps ck) (disk f).

Section switch.
Variables (f : EuroFs (Traced D)) (ck : checkpoint) (s : EuroFsSuperblock) (t' : Traced D).
Hypothesis HI : Inv f ck.
Hypothesis Hstatic : sb_static s.
Hypothesis Hpost : commit_post whole_block (dev f) t' s.
Hypothesis Hstate : state_ok (nblocks f) (disk f) (object_map_root s) (extent_tree_root s) (objmap f).
Hypothesis Htable : Forall (marked (used f)) (zrange (object_map_root s) (object_map_root s + extent_tree_root s)).

Lemma area_rest b : in_area (nblocks f) b -> contents t' b = disk f b.
Proof.
  intros Hb. apply (cp_rest _ _ _ _ Hpost); rewrite ?(i_len _ _ HI);
    unfold in_area, is_slot, RESERVED_BLOCKS, SUPERBLOCK_BLOCK, SUPERBLOCK_BACKUP_BLOCK in *; lia.
Qed.

Lemma next_ck_ok : ck_ok (nblocks f) (next_ck f ck s).
Proof.
  pose proof (i_ck _ _ HI) as []. split; cbn [next_ck ck_sb ck_img ck_map ck_snaps]; try done.
  apply Forall_forall. intros p Hp. apply (holds_snap _ _ _ _ (i_ck _ _ HI) (i_holds _ _ HI) Hp).
Qed.

Lemma next_ck_pinned p : p ∈ ck_snaps ck -> snap_blocks (disk f) p = snap_blocks (ck_img ck) p.
Proof. intros Hp. apply (holds_snap _ _ _ _ (i_ck _ _ HI) (i_holds _ _ HI) Hp). Qed.

(** An image that agrees with the disk outside the superblock slots holds the
    checkpoint its slots say. *)
Lemma switch_holds i k :
  k = ck \/ k = next_ck f ck s -> current i = Some (ck_sb k) -> copies_agree i ->
  (forall b, 0 <= b < nblocks f -> block_like (i b)) ->
  (forall b, 0 <= b < nblocks f -> ~ is_slot b -> i b = disk f b) -> holds (nblocks f) k i.
Proof.
  intros Hk Hcur Hag Hlike Hrest. pose proof (i_holds _ _ HI) as Hh. pose proof (inv_size _ _ HI) as Hsize.
  assert (Harea : forall b, in_area (nblocks f) b -> i b = disk f b).
  { intros b Hb. apply Hrest; unfold in_area, is_slot, RESERVED_BLOCKS, SUPERBLOCK_BLOCK,
      SUPERBLOCK_BACKUP_BLOCK in *; lia. }
  assert (Hsn : map fst (ck_snaps k) = map fst (ck_snaps ck)) by (by destruct Hk as [-> | ->]).
  assert (Hb : forall b, b ∈ ck_blocks k -> disk f b = ck_img k b).
  { intros b Hb. destruct Hk as [-> | ->]; [by apply Hh|done]. }
  assert (Hok : ck_ok (nblocks f) k) by (destruct Hk as [-> | ->]; [apply HI|apply next_ck_ok]).
  split; try done.
  - rewrite Hsn, <- (ho_snaps _ _ _ Hh). unfold snaps_on. rewrite Hrest; [done| |].
    + unfold SNAPSHOT_TABLE_BLOCK, RESERVED_BLOCKS in *. lia.
    + unfold is_slot, SNAPSHOT_TABLE_BLOCK, SUPERBLOCK_BLOCK, SUPERBLOCK_BACKUP_BLOCK. lia.
  - intros b Hin. rewrite Harea; [auto|]. pose proof (ck_ok_area _ _ Hok) as Ha. rewrite Forall_forall in Ha. auto.
Qed.

Lemma switch_moment mo :
  commit_safe whole_block (block_count (dev f)) (contents (dev f)) s mo ->
  moment_ok (nblocks f) [ck; next_ck f ck s] mo.
Proof.
  intros Hmo i Hs. destruct (Hmo i Hs) as ([Hc|Hc] & Hag & Hlike & Hrest); rewrite (i_len _ _ HI) in *.
  - exists ck. split; [by left|]. split; [apply HI|]. apply switch_holds; auto.
    rewrite Hc. apply HI.
  - exists (next_ck f ck s). split; [right; by left|]. split; [apply next_ck_ok|]. apply switch_holds; auto.
Qed.

Lemma inv_switch : Inv (set_sb (set_dev f t') s) (next_ck f ck s).
Proof.
  assert (Hmapa : agree (map_blocks (disk f) (objmap f)) (disk f) (contents t')).
  { intros b Hb. apply area_rest. pose proof (map_ok_area _ _ _ (i_map _ _ HI)) as Ha. rewrite Forall_forall in Ha. auto. }
  assert (Hlike : forall b, 0 <= b < nblocks f -> block_like (contents t' b)).
  { intros b Hb. apply law_contents; [apply Hpost|]. by rewrite (cp_count _ _ _ _ Hpost), (i_len _ _ HI). }
  pose proof Hpost as [Pok Pn Pcur Pag Pboth Prest Pbase Ppend _]. pose proof (i_len _ _ HI) as Hlen. rewrite Hlen in Prest.
  pose proof HI as []. unfold nblocks in *.
  split; unfold nblocks, disk in *; cbn [set_sb set_dev dev used objmap extents_cache snapshots sb now
      next_oid ctx_uid next_snap_id]; try done.
  - congruence.
  - apply next_ck_ok.
  - apply switch_holds; auto.
  - apply Pboth. unfold same_validity. by destruct i_both0.
  - apply Forall_forall. intros b [Hb|(p & Hp & Hb)]%elem_of_ck_blocks; cbn [next_ck ck_snaps ck_img] in *.
    + apply elem_of_state_blocks in Hb as [Hb|Hb]; [rewrite Forall_forall in Htable|rewrite Forall_forall in i_map_used0]; [|auto].
      apply Htable, elem_of_zrange. done.
    + rewrite next_ck_pinned in Hb by done. rewrite Forall_forall in i_ck_used0.
      apply i_ck_used0, elem_of_ck_blocks. eauto.
  - by eapply map_ok_ext.
  - by rewrite (map_blocks_ext (contents (dev f))).
  - intros o blk ex Ho Hex. rewrite (Hmapa blk); [eauto|]. apply elem_of_map_blocks. exists (o, blk).
    split; [|by left]. apply bt_get_elem; [apply i_map0|done].
  - by rewrite Ppend.
  - by rewrite Pbase.
  - rewrite Pbase. auto.
Qed.

Lemma step_switch : step f ck [next_ck f ck s] (set_sb (set_dev f t') s) (next_ck f ck s).
Proof.
  split; [apply inv_switch|done|done|]. eapply moments_impl; [apply Hpost|]. apply switch_moment.
Qed.
End switch.

(** ** The commit *)

Lemma write_objmap_spec f ck :
  Inv f ck ->
  write_objmap f = (Err NoSpace, f) \/
  exists t u root, let nb := objmap_blocks (objmap f) in let f1 := set_used (set_dev f t) u in
    write_objmap f = (Ok (root, nb), f1) /\ step f ck [] f1 ck /\ grows f f1 /\
    state_ok (nblocks f) (contents t) root nb (objmap f) /\ Forall (marked u) (zrange root (root + nb)).
Proof.
  intros HI. destruct (objmap_blocks_spec (objmap f)) as [Hnb _]. set (nb := objmap_blocks (objmap f)) in *.
  pose proof (alloc_run f ck nb HI ltac:(lia)) as Ha. set (data := encode_objmap (objmap f)).
  assert (Eu : write_objmap f =
    (let! root := alloc_contiguous nb in
     let! _ := sfor (zrange 0 nb) (fun b => write_block (root + b) (slice data (b * BS) BS)) in
     sret (root, nb)) f) by done.
  destruct (alloc_contiguous nb f) as [[root|e| |] f1] eqn:E; rewrite (sbind_run _ _ _ _ _ E) in Eu; try done;
    [|left; by destruct Ha as [-> ->]].
  right. destruct Ha as (u & -> & S1 & [_ Hfresh] & Hres & Hn & Hu & Hfree). rewrite Forall_forall in Hfresh.
  destruct (write_run (set_used f u) ck root (fun b => slice data (b * BS) BS) (zrange 0 nb)) as (t & Et & St & Ht & Hother).
  { apply S1. }
  { apply NoDup_seqZ. }
  { apply Forall_forall. intros b Hb%elem_of_zrange. apply Hfresh, elem_of_zrange. lia. }
  { intros b Hb%elem_of_zrange. pose proof (zlen_encode_objmap (objmap f)) as Hl. fold data nb in Hl.
    split; [|apply bytes_ok_slice, bytes_ok_encode_objmap]. apply zlen_slice; unfold BS in *; nia. }
  rewrite (sbind_ok _ _ _ _ _ Et) in Eu. exists t, u, root. change (set_dev (set_used f u) t) with (set_used (set_dev f t) u) in *.
  assert (En : nblocks (set_used f u) = nblocks f) by apply S1. rewrite En in Hother.
  split; [done|]. split; [exact (step_trans _ _ _ _ _ _ _ _ S1 St)|]. split; [|split].
  - intros b Hb Hm. split; [cbn [used set_used]; apply Hu; auto|].
    unfold disk. cbn [dev set_used set_dev]. apply Hother; [split; [done|apply (marked_bound _ _ Hm)]|].
    intros b' Hb'%elem_of_zrange ->. apply (Hfree (root + b')); [lia|done].
  - pose proof (i_map _ _ (sp_inv _ _ _ _ _ St)) as Hm.
    change (nblocks (set_used (set_dev f t) u)) with (nblocks (set_used f u)) in Hm. rewrite En in Hm.
    split; try done. pose proof (nblocks_u64 _ _ HI) as Hlim. pose proof (inv_size _ _ HI) as Hsz.
    destruct (map_ok_storable _ _ _ Hm) as [_ Hst]; [unfold RESERVED_BLOCKS in *; lia|unfold BS, RESERVED_BLOCKS in *; lia|].
    cbn [set_used set_dev objmap] in Hst. rewrite <- Hst. f_equal. unfold table.
    transitivity (concat (map (fun b => slice data (b * BS) BS) (zrange 0 nb))).
    + f_equal. apply map_ext_in. intros b Hb%list_elem_of_In. by apply Ht.
    + pose proof (zlen_encode_objmap (objmap f)) as Hl. fold data nb in Hl.
      rewrite concat_slices by lia. rewrite <- Hl. apply slice_all.
  - apply Forall_forall. intros b Hb. by apply Hfresh in Hb as (_ & ? & _).
Qed.

Lemma next_sb_static s root nb ckpt written free :
  sb_static s -> is_u64 root -> is_u64 nb -> is_u64 ckpt -> is_u64 written -> is_u64 free ->
  sb_static (next_sb s root nb ckpt written free) /\ is_valid (next_sb s root nb ckpt written free) = true.
Proof.
  intros [[] Hm Hv Hb] H1 H2 H3 H4 H5. unfold next_sb.
  match goal with |- context [set_checksum ?x _] => set (s' := x) end.
  assert (Hty : sb_typed s') by by split. split; [split; try done; apply sb_typed_set_checksum; [done|]|].
  - unfold compute_checksum. apply xxh3_64_u64.
  - apply sealed_valid; try done; subst s'; cbn [sb_block_size]; rewrite Hb; [by unfold DEFAULT_BLOCK_SIZE|done].
Qed.

(** Outcome of a commit: the whole of [f] is on disk, or the disk still is the
    checkpoint [ck]. *)
Definition committed f ck f' ck' : Prop :=
  exists t u c s pt, f' = set_pending_trim (set_sb (set_extents_cache (set_used (set_dev f t) u) c) s) pt /\
    ck_map ck' = objmap f /\ ck_snaps ck' = ck_snaps ck /\ checkpoint_id s = checkpoint_id (sb f) + 1 /\
    clean f' ck' /\ exact_bitmap f' ck' /\ free_blocks s = free_count f' /\
    agree (map_blocks (disk f) (objmap f)) (disk f) (contents t).

(** The blocks the object map refers to are marked and lie in the data area. *)
Lemma map_block_marked f ck b :
  Inv f ck -> b ∈ map_blocks (disk f) (objmap f) -> 0 <= b /\ marked (used f) b /\ in_area (nblocks f) b.
Proof.
  intros HI Hb. pose proof (map_ok_area _ _ _ (i_map _ _ HI)) as Ha. pose proof (i_map_used _ _ HI) as Hu.
  rewrite Forall_forall in Ha, Hu. specialize (Ha b Hb). split; [unfold in_area, RESERVED_BLOCKS in Ha; lia|auto].
Qed.

Lemma sb_map_static s root nb : sb_static s -> is_u64 root -> is_u64 nb -> sb_static (set_sb_map s root nb).
Proof. intros [[] ? ? ?] Hroot Hnb. split; [|done..]. by split. Qed.

(** The superblock a commit writes is well formed. *)
Lemma commit_sb_ok f1 f2 ck root nb :
  Inv f1 ck -> f2 = set_sb f1 (set_sb_map (sb f1) root nb) -> is_u64 root -> is_u64 nb -> nblocks f1 <= U64_MAX ->
  checkpoint_id (sb f1) + 1 <= U64_MAX ->
  let s := next_sb (sb f2) root nb (checkpoint_id (sb f2) + 1) (now f2) (free_count f2) in
  sb_static s /\ is_valid s = true.
Proof.
  intros HI1 -> Hroot Hnb Hlim Hck.
  pose proof (sb_map_static _ _ _ (i_sb _ _ HI1) Hroot Hnb) as Hstat.
  apply next_sb_static; [exact Hstat|done|done| |exact (i_now _ _ HI1)|].
  - pose proof (ty_ckpt _ (ss_typed _ Hstat)). split; [|done]. cbn in *. ulia.
  - match goal with |- context [free_count ?f] => pose proof (free_count_bound f) as Hf end.
    cbn [set_sb used] in Hf. unfold nblocks in Hlim. ulia.
Qed.

Lemma commit_spec f ck :
  Inv f ck ->
  exists r f', commit f = (r, f') /\
    match r with
    | Ok _ => exists ck', step f ck [ck'] f' ck' /\ committed f ck f' ck'
    | Err e => e = NoSpace /\ f' = f
    | Panic => checkpoint_id (sb f) = U64_MAX /\ step f ck [] f' ck
    | OutOfFuel => False
    end.
Proof.
  intros HI. unfold commit. destruct (write_objmap_spec f ck HI) as [E|(t & u & root & E & S1 & G1 & Hst & Hmk)].
  { eexists _, f. unfold sbind at 1. rewrite E. done. }
  rewrite (sbind_ok _ _ _ _ _ E). cbv beta iota. set (nb := objmap_blocks (objmap f)) in *.
  set (f1 := set_used (set_dev f t) u) in *. pose proof (sp_inv _ _ _ _ _ S1) as HI1.
  assert (En : nblocks f1 = nblocks f) by apply S1.
  pose proof (nblocks_u64 _ _ HI) as Hlim. unfold BS in Hlim.
  assert (Hroot : is_u64 root /\ is_u64 nb).
  { destruct Hst as [R1 R2 R3 _ _]. unfold RESERVED_BLOCKS in *. ulia. }
  destruct Hroot as [Hroot Hnb].
  set (f2 := set_sb f1 (set_sb_map (sb f1) root nb)).
  unfold sbind at 1. unfold smodify at 1. fold f2. unfold sbind at 1. unfold sgets at 1. unfold add64.
  destruct (Z.leb_spec (checkpoint_id (sb f2) + 1) U64_MAX) as [Hck|Hck].
  2:{ eexists _, f2. split; [done|]. cbn in Hck. split.
      - pose proof (ty_ckpt _ (ss_typed _ (i_sb _ _ HI))). ulia.
      - eapply (step_trans _ _ [] _ _ []); [exact S1|]. apply step_memory; [|done|done]. apply inv_sb; [apply sb_map_static; [apply HI1|done|done]|done|done]. }
  set (s := next_sb (sb f2) root nb (checkpoint_id (sb f2) + 1) (now f2) (free_count f2)).
  destruct (commit_sb_ok f1 f2 ck root nb HI1 eq_refl Hroot Hnb) as [Hs Hv]; [rewrite En; ulia|exact Hck|].
  fold s in Hs, Hv. unfold sbind at 1. unfold smodify at 1. fold s. unfold sbind at 1. unfold sget at 1.
  cbn [set_sb sb]. destruct (write_to_sound whole_block (dev f1) s) as (t2 & E2 & Hpost).
  { apply HI1. }
  { rewrite (i_len _ _ HI1). pose proof (inv_size _ _ HI1). unfold RESERVED_BLOCKS in *. lia. }
  { apply Hs. }
  { done. }
  { apply (i_holds _ _ HI1). }
  { intros c Hc. pose proof (ho_current _ _ _ (i_holds _ _ HI1)) as Hcur. unfold disk in Hcur. rewrite Hc in Hcur.
    injection Hcur as ->. rewrite <- (i_gen _ _ HI1). cbn. lia. }
  assert (E3 : on_dev (write_to s) (set_sb f2 s) = (Ok tt, set_sb (set_dev f1 t2) s)).
  { unfold on_dev. change (dev (set_sb f2 s)) with (dev f1). by rewrite E2. }
  rewrite (sbind_ok _ _ _ _ _ E3).
  assert (S2 : step f1 ck [next_ck f1 ck s] (set_sb (set_dev f1 t2) s) (next_ck f1 ck s)).
  { apply step_switch; try done. by rewrite En. }
  set (f3 := set_sb (set_dev f1 t2) s) in *. set (ck' := next_ck f1 ck s) in *.
  destruct (rebuild_spec f3 ck' true (sp_inv _ _ _ _ _ S2)) as
    (t3 & u3 & c3 & s3 & pt & f' & Ef' & E4 & S3 & Hclean & Hexact & Hfree & Hid & Hkeep); [done|].
  rewrite E4. eexists _, f'. split; [done|]. exists ck'. split.
  - eapply (step_trans _ _ [] _ _ [ck']); [exact S1|]. exact (step_trans _ _ _ _ _ _ _ _ S2 S3).
  - exists t3, u3, c3, s3, pt. split; [done|]. split; [done|]. split; [done|]. split; [done|]. split; [done|]. split; [done|].
    split; [done|]. intros b Hb.
    destruct (map_block_marked _ _ _ HI Hb) as (Hb0 & Hbm & Hba). destruct (G1 b Hb0 Hbm) as [_ Eb].
    rewrite Hkeep.
    + unfold f3. change (disk (set_sb (set_dev f1 t2) s) b) with (contents t2 b).
      rewrite (area_rest f1 ck s t2) by (rewrite ?En; done). exact Eb.
    + apply elem_of_ck_blocks. left. apply elem_of_state_blocks. right.
      change (map_blocks (disk f1) (objmap f)) with (map_blocks (disk f1) (objmap f1)).
      rewrite (map_blocks_ext (disk f)); [done|]. intros b' Hb'.
      destruct (map_block_marked _ _ _ HI Hb') as (? & ? & _). by apply G1.
Qed.
End commit.
End Commit.
