(* ===== verification/Tables.v ===== *)
(** The tables EuroFS writes in place ([save_snapshots], [save_quota] of
    [src/crates/eurofs/src/disk.rs]) and the barrier behind them. *)

From stdpp Require Import gmap.
From S2P Require Import Prelude Bytes Block Crash Checksum Fs BTree Superblock Layout Typed EuroFs Alloc Cow Objects Rebuild Commit.
Import Block Crash Fs BTree Superblock Layout Typed EuroFs Alloc Cow Objects Rebuild Commit.

Module Tables.

Section tables.
Context {HX : Xxh3} {HH : Heap} {HW : WholeBlocks} {D : Type} {HD : BlockDevice D} {HL : LawfulDevice D}.
Implicit Types (f : EuroFs (Traced D)) (ck : checkpoint).

(** A checkpoint with another snapshot table. *)
Definition with_snaps ck (snaps : list (SnapshotEntry * list (Z * Z))) : checkpoint :=
  mkCk (ck_sb ck) (ck_map ck) snaps (ck_img ck).

Lemma with_snaps_same ck : with_snaps ck (ck_snaps ck) = ck.
Proof. by destruct ck. Qed.

Record snaps_fit n ck (snaps : list (SnapshotEntry * list (Z * Z))) : Prop := mkFit {
  sf_state : Forall (snap_ok n (ck_img ck)) snaps;
  sf_entries : Forall (fun p => snapshot_ok (fst p) /\ sn_id (fst p) < U64_MAX) snaps;
  sf_count : zlen snaps <= MAX_SNAPSHOTS;
  sf_blocks p : p ∈ snaps -> snap_blocks (ck_img ck) p ⊆ ck_blocks ck;
}.

Lemma with_snaps_ok n ck snaps : ck_ok n ck -> snaps_fit n ck snaps -> ck_ok n (with_snaps ck snaps).
Proof. intros [] []. by split. Qed.

Lemma with_snaps_blocks n ck snaps : snaps_fit n ck snaps -> ck_blocks (with_snaps ck snaps) ⊆ ck_blocks ck.
Proof.
  intros Hf b [Hb|(p & Hp & Hb)]%elem_of_ck_blocks.
  - apply elem_of_ck_blocks. by left.
  - by apply (sf_blocks _ _ _ Hf p Hp).
Qed.

Lemma own_snaps_fit n ck : ck_ok n ck -> snaps_fit n ck (ck_snaps ck).
Proof. intros []. split; try done. intros p Hp b Hb. apply elem_of_ck_blocks. eauto. Qed.

(** The invariant once everything is flushed and the snapshot table replaced. *)
Lemma inv_table f ck t' l snaps :
  Inv f ck -> dev_ok t' -> block_count t' = block_count (dev f) ->
  (forall b, 0 <= b < nblocks f -> b <> SNAPSHOT_TABLE_BLOCK -> contents t' b = disk f b) ->
  tr_base t' = contents t' -> tr_pending t' = [] ->
  snaps_fit (nblocks f) ck snaps -> snaps_on (contents t') = map fst snaps ->
  Forall2 same_snap l snaps -> Forall (fun s => bytes_ok (sn_label s)) l ->
  Inv (set_snapshots (set_dev f t') l) (with_snaps ck snaps).
Proof.
  intros HI Hok Hn Hc Hbase Hpend Hfit Hon Hl Hlab. pose proof (inv_size _ _ HI) as Hsize.
  pose proof (with_snaps_blocks _ _ _ Hfit) as Hsub.
  assert (Harea : forall b, in_area (nblocks f) b -> contents t' b = disk f b).
  { intros b Hb. apply Hc; unfold in_area, RESERVED_BLOCKS, SNAPSHOT_TABLE_BLOCK in *; lia. }
  assert (Hslot : forall b, is_slot b -> contents t' b = disk f b).
  { intros b Hb. apply Hc; unfold is_slot, RESERVED_BLOCKS, SNAPSHOT_TABLE_BLOCK, SUPERBLOCK_BLOCK,
      SUPERBLOCK_BACKUP_BLOCK in *; lia. }
  destruct (current_ext (contents t') (disk f) Hslot) as [Ecur Eag].
  assert (Hlike : forall b, 0 <= b < nblocks f -> block_like (contents t' b)).
  { intros b Hb. apply law_contents; [done|]. by rewrite Hn, (i_len _ _ HI). }
  assert (Hmapa : agree (map_blocks (disk f) (objmap f)) (disk f) (contents t')).
  { intros b Hb. apply Harea. pose proof (map_ok_area _ _ _ (i_map _ _ HI)) as Ha. rewrite Forall_forall in Ha. auto. }
  pose proof (ck_ok_area _ _ (i_ck _ _ HI)) as Hcka. rewrite Forall_forall in Hcka.
  pose proof HI as []. split; unfold disk, nblocks in *;
    cbn [set_snapshots set_dev dev used objmap extents_cache snapshots sb now next_oid ctx_uid next_snap_id]; try done.
  - congruence.
  - by apply with_snaps_ok.
  - pose proof i_holds0 as [H1 H2 H3 H4 H5]. split; try done; [by rewrite Ecur|by apply Eag|].
    intros b Hb. rewrite Harea by auto. apply H5. auto.
  - unfold both_valid. rewrite !(slot_in_ext (contents t') (contents (dev f)))
      by (apply Hslot; unfold is_slot; auto). done.
  - rewrite Forall_forall in i_ck_used0 |- *. auto.
  - by eapply map_ok_ext.
  - by rewrite (map_blocks_ext (contents (dev f))).
  - intros o blk ex Ho Hex. rewrite (Hmapa blk); [eauto|].
    apply elem_of_map_blocks. exists (o, blk). split; [|by left]. apply bt_get_elem in Ho; [done|]. by destruct i_map0.
  - by rewrite Hpend.
  - by rewrite Hbase.
  - rewrite Hbase. auto.
Qed.

(** ** The barrier *)

Lemma flush_spec f ck :
  Inv f ck ->
  exists t, on_dev flush f = (Ok tt, set_dev f t) /\ step f ck [] (set_dev f t) ck /\
    forall b, 0 <= b < nblocks f -> contents t b = disk f b.
Proof.
  intros HI. destruct (traced_flush (dev f)) as (t & E & Hok & Hn & Hc & Hb & Hp & Hpts); [apply HI|].
  rewrite (i_len _ _ HI) in Hc. exists t. unfold on_dev. rewrite E. split; [done|]. split; [|done].
  assert (HI' : Inv (set_dev f t) ck).
  { rewrite <- (with_snaps_same ck). replace (set_dev f t) with (set_snapshots (set_dev f t) (snapshots f)) by by destruct f.
    pose proof (inv_size _ _ HI). apply inv_table; try done; try apply HI.
    - auto.
    - apply own_snaps_fit, HI.
    - unfold snaps_on. rewrite Hc; [apply (i_holds _ _ HI)|]. unfold SNAPSHOT_TABLE_BLOCK, RESERVED_BLOCKS in *. lia. }
  split; [done|done|done|]. eapply moments_one; [exact Hpts|].
  pose proof (inv_moment _ _ HI') as Hm. cbn [set_dev dev] in Hm. by rewrite Hb, Hp in Hm.
Qed.

Lemma flush_ignored f ck :
  Inv f ck ->
  exists t, signore (on_dev flush) f = (Ok tt, set_dev f t) /\ step f ck [] (set_dev f t) ck /\
    forall b, 0 <= b < nblocks f -> contents t b = disk f b.
Proof.
  intros HI. destruct (flush_spec f ck HI) as (t & E & H). exists t. unfold signore. by rewrite E.
Qed.

(** ** Quotas *)

Lemma save_quota_spec f ck :
  Inv f ck ->
  exists t, save_quota f = (Ok tt, set_dev f t) /\ step f ck [] (set_dev f t) ck /\
    (forall b, 0 <= b < nblocks f -> b <> QUOTA_TABLE_BLOCK -> contents t b = disk f b) /\
    contents t QUOTA_TABLE_BLOCK = encode_quota (quota_limits f).
Proof.
  intros HI. pose proof (inv_size _ _ HI) as Hsize. unfold RESERVED_BLOCKS in Hsize.
  assert (Hs : spare f ck QUOTA_TABLE_BLOCK).
  { pose proof (ck_ok_area _ _ (i_ck _ _ HI)) as Ha. pose proof (map_ok_area _ _ _ (i_map _ _ HI)) as Hm.
    rewrite Forall_forall in Ha, Hm. unfold QUOTA_TABLE_BLOCK. split; [lia|]. split.
    - intros [[?|?]|[?|Hb]]; try done. apply Ha in Hb. unfold in_area, RESERVED_BLOCKS in Hb. lia.
    - intros Hb%Hm. unfold in_area, RESERVED_BLOCKS in Hb. lia. }
  destruct (write_spare f ck QUOTA_TABLE_BLOCK (encode_quota (quota_limits f)) HI Hs (encode_quota_like _))
    as (t1 & E1 & S1 & C1).
  destruct (flush_ignored (set_dev f t1) ck) as (t2 & E2 & S2 & C2); [apply S1|].
  exists t2. unfold save_quota. unfold sbind at 1. unfold sget at 1. rewrite (sbind_ok _ _ _ _ _ E1), E2.
  split; [done|]. split; [exact (step_trans _ _ _ _ _ _ _ _ S1 S2)|].
  assert (C : forall b, 0 <= b < nblocks f ->
    contents t2 b = if b =? QUOTA_TABLE_BLOCK then encode_quota (quota_limits f) else disk f b).
  { intros b Hb. rewrite C2 by done. unfold disk at 1. cbn [set_dev dev]. by apply C1. }
  split.
  - intros b Hb Hne. rewrite C by done. by case_if.
  - rewrite C, Z.eqb_refl; [done|]. unfold QUOTA_TABLE_BLOCK. lia.
Qed.

(** ** Snapshots *)

(** The table entries a list of snapshots is stored as, with their trees. *)
Definition resnap (l : list SnapshotEntry) (snaps : list (SnapshotEntry * list (Z * Z))) :=
  zip_with (fun s p => (stored_snapshot s, snd p)) l snaps.

Lemma resnap_fst l snaps : Forall2 same_snap l snaps -> map fst (resnap l snaps) = map stored_snapshot l.
Proof. induction 1; cbn; [done|]. by f_equal. Qed.

Lemma resnap_same l snaps : Forall2 same_snap l snaps -> Forall2 same_snap l (resnap l snaps).
Proof. induction 1; cbn; by constructor. Qed.

Lemma resnap_elem l snaps p' :
  Forall2 same_snap l snaps -> p' ∈ resnap l snaps ->
  exists p, p ∈ snaps /\ unlabelled (fst p') = unlabelled (fst p) /\ snd p' = snd p.
Proof.
  induction 1 as [|s p l snaps Hs Hl IH]; cbn; [by intros ?%not_elem_of_nil|]. intros [->|Hin]%elem_of_cons.
  - exists p. split; [by left|]. split; [|done]. exact Hs.
  - destruct (IH Hin) as (q & ? & ?). exists q. split; [by right|done].
Qed.

Lemma zlen_resnap l snaps : Forall2 same_snap l snaps -> zlen (resnap l snaps) = zlen snaps.
Proof. induction 1; [done|]. cbn [resnap zip_with]. rewrite !zlen_cons. unfold resnap in *. lia. Qed.

Lemma snapshot_ok_unlabelled s q : unlabelled s = unlabelled q -> snapshot_ok q -> snapshot_ok s.
Proof.
  intros E []. split;
    [apply (f_equal sn_id) in E|apply (f_equal sn_parent) in E|apply (f_equal sn_timestamp) in E
    |apply (f_equal sn_objmap_root) in E|apply (f_equal sn_map_blocks) in E|apply (f_equal sn_checkpoint_id) in E
    |apply (f_equal sn_flags) in E]; cbn in E; by rewrite E.
Qed.

Lemma resnap_fit n ck l snaps : Forall2 same_snap l snaps -> snaps_fit n ck snaps -> snaps_fit n ck (resnap l snaps).
Proof.
  intros Hl [F1 F2 F3 F4]. rewrite Forall_forall in F1, F2.
  assert (Hplace : forall p' p : SnapshotEntry * list (Z * Z), unlabelled (fst p') = unlabelled (fst p) ->
    sn_objmap_root (fst p') = sn_objmap_root (fst p) /\ sn_map_blocks (fst p') = sn_map_blocks (fst p) /\
    sn_id (fst p') = sn_id (fst p)).
  { intros p' p E. split; [by apply (f_equal sn_objmap_root) in E|].
    by split; [apply (f_equal sn_map_blocks) in E|apply (f_equal sn_id) in E]. }
  split; [| |by rewrite zlen_resnap|].
  - apply Forall_forall. intros p' Hp'. destruct (resnap_elem _ _ _ Hl Hp') as (p & Hp & Eu & Es).
    destruct (Hplace _ _ Eu) as (E1 & E2 & _). unfold snap_ok. rewrite E1, E2, Es. by apply F1.
  - apply Forall_forall. intros p' Hp'. destruct (resnap_elem _ _ _ Hl Hp') as (p & Hp & Eu & Es).
    destruct (F2 p Hp) as [Hok Hid]. destruct (Hplace _ _ Eu) as (_ & _ & ->). split; [|done].
    by eapply snapshot_ok_unlabelled.
  - intros p' Hp'. destruct (resnap_elem _ _ _ Hl Hp') as (p & Hp & Eu & Es).
    destruct (Hplace _ _ Eu) as (E1 & E2 & _). unfold snap_blocks. rewrite E1, E2, Es. by apply F4.
Qed.

Lemma save_snapshots_spec f ck l snaps :
  whole_block SNAPSHOT_TABLE_BLOCK = true ->
  Inv f ck -> snaps_fit (nblocks f) ck snaps -> Forall2 same_snap l snaps ->
  Forall (fun s => bytes_ok (sn_label s)) l ->
  let ck' := with_snaps ck (resnap l snaps) in
  exists t, save_snapshots (set_snapshots f l) = (Ok tt, set_snapshots (set_dev f t) l) /\
    step f ck [ck'] (set_snapshots (set_dev f t) l) ck' /\
    forall b, 0 <= b < nblocks f -> b <> SNAPSHOT_TABLE_BLOCK -> contents t b = disk f b.
Proof.
  intros Hwh HI Hfit0 Hsame0 Hlab ck'. subst ck'. pose proof (resnap_fst _ _ Hsame0) as Hl. symmetry in Hl.
  pose proof (resnap_same _ _ Hsame0) as Hsame. pose proof (resnap_fit _ _ _ _ Hsame0 Hfit0) as Hfit.
  generalize dependent (resnap l snaps). clear snaps Hfit0 Hsame0. intros snaps Hl Hsame Hfit. pose proof (inv_size _ _ HI) as Hsize. unfold RESERVED_BLOCKS in Hsize.
  pose proof (i_len _ _ HI) as Hlen. pose proof (encode_snapshots_like l Hlab) as [Hbl Hbb].
  assert (H8 : 0 <= SNAPSHOT_TABLE_BLOCK < nblocks f) by (unfold SNAPSHOT_TABLE_BLOCK; lia).
  assert (Hback : forall i, i SNAPSHOT_TABLE_BLOCK = encode_snapshots l -> snaps_on i = map fst snaps).
  { intros i Ei. unfold snaps_on. rewrite Ei, snapshots_back; [done| |].
    - pose proof (sf_count _ _ _ Hfit) as Hc. apply (f_equal length) in Hl. rewrite !length_map in Hl.
      unfold zlen in *. lia.
    - pose proof (sf_entries _ _ _ Hfit) as He. assert (He' : Forall snapshot_ok (map stored_snapshot l)).
      { rewrite Hl. apply Forall_map. eapply Forall_impl; [exact He|]. by intros p [? _]. }
      rewrite Forall_map in He'. eapply Forall_impl; [exact He'|]. by intros s []. }
  destruct (traced_write (dev f) SNAPSHOT_TABLE_BLOCK (encode_snapshots l))
    as (t1 & E1 & Hok1 & Hn1 & C1 & B1 & P1 & M1); [apply HI|by rewrite Hlen|done|done|].
  destruct (traced_flush t1 Hok1) as (t2 & E2 & Hok2 & Hn2 & C2 & B2 & P2 & M2).
  rewrite Hn1 in Hn2, C2. rewrite Hlen in C1, C2.
  assert (C : forall b, 0 <= b < nblocks f -> b <> SNAPSHOT_TABLE_BLOCK -> contents t2 b = disk f b).
  { intros b Hb Hne. rewrite C2, C1 by done. by case_if. }
  assert (HI' : Inv (set_snapshots (set_dev f t2) l) (with_snaps ck snaps)).
  { apply inv_table; try done. apply Hback. by rewrite C2, C1, Z.eqb_refl by done. }
  exists t2. split; [|split; [|done]].
  - unfold save_snapshots, write_block, signore, on_dev, sbind, sget. cbn [set_snapshots snapshots dev].
    rewrite E1. cbn [set_dev dev omap_err]. by rewrite E2.
  - split; [done|done|done|]. cbn [set_snapshots set_dev dev]. eapply moments_trans.
    + eapply moments_one; [exact M1|]. intros i Hs. cbn [fst snd] in Hs. apply survives_app in Hs as (mid & S1 & S2).
      destruct (inv_moment _ _ HI mid S1) as (k & Hk & Hkok & Hkh). apply list_elem_of_singleton in Hk as ->.
      apply survives_one in S2 as [Ho Hat].
      destruct Hat as [Ei|[Ei|[Hw _]]]; [| |cbn [whole eurofs_power slot_power] in Hw; congruence].
      * exists ck. split; [by left|]. split; [done|]. apply (holds_ext _ _ mid); [| |done].
        -- intros b Hb. destruct (decide (b = SNAPSHOT_TABLE_BLOCK)) as [->|]; [rewrite Ei|rewrite Ho by done]; by apply Hkh.
        -- intros b _. destruct (decide (b = SNAPSHOT_TABLE_BLOCK)) as [->|]; auto.
      * exists (with_snaps ck snaps). split; [right; by left|]. split; [by apply with_snaps_ok|].
        destruct (current_ext i mid) as [Ec Ea].
        { intros b Hb. apply Ho. unfold is_slot, SNAPSHOT_TABLE_BLOCK, SUPERBLOCK_BLOCK, SUPERBLOCK_BACKUP_BLOCK in *. lia. }
        pose proof Hkh as [K1 K2 K3 K4 K5]. split; [|by rewrite Ec|by apply Ea|by apply Hback|].
        -- intros b Hb. destruct (decide (b = SNAPSHOT_TABLE_BLOCK)) as [->|]; [by rewrite Ei|rewrite Ho by done; auto].
        -- intros b Hb. apply (with_snaps_blocks _ _ _ Hfit) in Hb. rewrite Ho; [by apply K5|].
           pose proof (ck_ok_area _ _ Hkok) as Ha. rewrite Forall_forall in Ha. apply Ha in Hb.
           unfold in_area, RESERVED_BLOCKS, SNAPSHOT_TABLE_BLOCK in *. lia.
    + eapply moments_one; [exact M2|]. pose proof (inv_moment _ _ HI') as Hm.
      cbn [set_snapshots set_dev dev] in Hm. rewrite B2, P2 in Hm.
      eapply moment_ok_incl; [|exact Hm]. intros k ->%list_elem_of_singleton. right. by left.
Qed.
End tables.
End Tables.
