(* ===== verification/Safety.v ===== *)
(** The building blocks of the operations of EuroFS.

    The results of the read operations are characterised as far as the writers
    need them ([known] inodes, typed directory entries, data that fits the
    disk), and each building block of the operations of
    [src/crates/eurofs/src/disk.rs] is shown to keep the copy-on-write
    invariant without committing anything ([stays]). *)

From stdpp Require Import gmap.
From S2P Require Import Prelude Bytes Block Crash Checksum Fs Utf8 Path BTree Superblock Layout Typed EuroFs Alloc Cow Objects Rebuild Commit Tables.
Import Block Crash Fs Utf8 BTree Superblock Layout Typed EuroFs Alloc Cow Objects Rebuild Commit Tables.

Module Safety.

(** The sizes of disk the operations are verified for. *)
Class DiskSize (n : Z) : Prop := disk_size : RESERVED_BLOCKS <= n /\ n * BS <= U64_MAX.

Section safety.
Context {HX : Xxh3} {HH : Heap} {HW : WholeBlocks} {D : Type} {HD : BlockDevice D} {HL : LawfulDevice D}.
Implicit Types (f : EuroFs (Traced D)) (ck : checkpoint).
Context (n : Z) {Hn : DiskSize n}.

(** ** What is read *)

(** An inode read from a disk of [n] blocks. *)
Record known (i : Inode) : Prop := mkKnown {
  kn_typed : inode_typed i;
  kn_inline : bytes_ok (inline i) /\ zlen (inline i) <= BS;
  kn_area : Forall (in_area n) (extent_blocks (extents i));
  kn_count : zlen (extent_blocks (extents i)) <= n;
}.

Definition fits_disk (data : list Z) : Prop := bytes_ok data /\ zlen data <= n * BS.

Lemma fits_u64 data : fits_disk data -> is_u64 (zlen data).
Proof using Hn. intros [_ Hl]. destruct Hn as [_ Hmax]. pose proof (zlen_nonneg data). ulia. Qed.

Lemma elem_of_concat_l {A} (x : A) l ls : x ∈ l -> l ∈ ls -> x ∈ concat ls.
Proof. rewrite !list_elem_of_In. intros. apply in_concat. eauto. Qed.

Lemma sublist_concat {A} (l : list A) ls : l ∈ ls -> l `sublist_of` concat ls.
Proof.
  induction ls as [|l' ls IH]; [by intros ?%not_elem_of_nil|]. intros [->|Hl]%elem_of_cons; cbn [concat].
  - by apply sublist_inserts_r.
  - by apply sublist_inserts_l, IH.
Qed.

Lemma inode_slice_len b i : decode b = Ok i -> zlen b = BS -> zlen (inline i) <= BS.
Proof.
  unfold decode. repeat case_match; try done. intros [= <-] Hb. cbn [inline].
  unfold slice. unfold zlen in *. rewrite length_take, length_drop. lia.
Qed.

(** The live object [o] and its inode. *)
Lemma live_inode f ck o blk :
  Inv f ck -> nblocks f = n -> bt_get (objmap f) o = Some blk ->
  exists i, decode (disk f blk) = Ok i /\ oid i = o /\ known i /\ in_area n blk /\
    object_blocks (disk f) (o, blk) = blk :: extent_blocks (extents i).
Proof using Type.
  intros HI En Hget. pose proof (i_map _ _ HI) as Hm. apply bt_get_elem in Hget; [|apply Hm].
  pose proof (mo_objects _ _ _ Hm) as Ho. rewrite Forall_forall in Ho.
  destruct (Ho _ Hget) as [Hoid (i & Hi & Eo) Ha]. cbn [fst snd] in *. rewrite En in Ha.
  assert (Eb : object_blocks (disk f) (o, blk) = blk :: extent_blocks (extents i)).
  { unfold object_blocks, inode_blocks. cbn [snd]. by rewrite Hi. }
  rewrite Eb in Ha. apply Forall_cons in Ha as [Hblk Ha].
  destruct (ho_like _ _ _ (i_holds _ _ HI) blk) as [Hlen Hby].
  { rewrite En. unfold in_area, RESERVED_BLOCKS in Hblk. lia. }
  destruct (decode_typed _ _ Hi Hlen Hby) as (? & ? & ? & ? & ? & ? & ? & ? & ? & _ & _ & ?).
  exists i. split; [done|]. split; [done|]. split; [|done]. split; [split; try done; lia|split; [done|]|done|].
  - by eapply inode_slice_len.
  - assert (Hnd : NoDup (blk :: extent_blocks (extents i))).
    { rewrite <- Eb. eapply sublist_NoDup; [apply (mo_nodup _ _ _ Hm)|]. unfold map_blocks.
      apply sublist_concat, list_elem_of_In, in_map, list_elem_of_In, Hget. }
    apply NoDup_cons in Hnd as [_ Hnd]. pose proof (nodup_bound n _ Hnd Ha) as Hb.
    pose proof (inv_size _ _ HI) as Hs. unfold RESERVED_BLOCKS in Hs. lia.
Qed.

Lemma read_inode_live f ck o i :
  Inv f ck -> nblocks f = n -> read_inode f o = Ok i ->
  exists blk, bt_get (objmap f) o = Some blk /\ decode (disk f blk) = Ok i /\ oid i = o /\ known i.
Proof using Type.
  intros HI En E. unfold read_inode in E. destruct (bt_get (objmap f) o) as [blk|] eqn:Hget; [|done].
  destruct (live_inode f ck o blk HI En Hget) as (i' & Hi & Eo & Hk & Ha & _).
  rewrite read_block_spec in E; [|apply HI|rewrite (i_len _ _ HI), En; unfold in_area, RESERVED_BLOCKS in Ha; lia].
  cbn [obind] in E. change (img f blk) with (disk f blk) in E. rewrite Hi in E. injection E as <-. eauto.
Qed.

Lemma stays_read_inode o : stays n (sgets (fun f => read_inode f o)) (fun i => known i /\ oid i = o).
Proof using Type.
  apply stays_gets. intros f ck i HI En E. by destruct (read_inode_live f ck o i HI En E) as (blk & _ & _ & ? & ?).
Qed.

Lemma read_all_spec f bs :
  dev_ok (dev f) -> Forall (fun b => 0 <= b < block_count (dev f)) bs ->
  read_all f bs = Ok (concat (map (disk f) bs)).
Proof using Type.
  intros Hok. induction 1 as [|b bs Hb Hbs IH]; cbn [read_all map concat]; [done|].
  rewrite read_block_spec by done. cbn [obind]. by rewrite IH.
Qed.

Lemma zlen_concat_blocks (i : image) bs :
  Forall (fun b => block_like (i b)) bs -> zlen (concat (map i bs)) = zlen bs * BS /\ bytes_ok (concat (map i bs)).
Proof using Type.
  induction 1 as [|b bs [Hl Hb] Hbs [IH1 IH2]]; cbn [map concat]; [split; [done|constructor]|].
  rewrite zlen_app, zlen_cons. split; [lia|by apply bytes_ok_app].
Qed.

Lemma read_data_fits f ck i data :
  Inv f ck -> nblocks f = n -> known i -> read_data f i = Ok data -> fits_disk data.
Proof using Hn.
  intros HI En [_ [Hin Hil] Ha Hc] E. unfold read_data in E. destruct Hn as [Hmin _].
  assert (Hr : Forall (fun b => 0 <= b < block_count (dev f)) (extent_blocks (extents i))).
  { eapply Forall_impl; [exact Ha|]. rewrite (i_len _ _ HI), En. unfold in_area, RESERVED_BLOCKS. lia. }
  assert (Hblk : Forall (fun b => block_like (disk f b)) (extent_blocks (extents i))).
  { eapply Forall_impl; [exact Hr|]. intros b Hb. apply law_contents; [apply HI|done]. }
  destruct (zlen_concat_blocks _ _ Hblk) as [Hl Hby].
  assert (Hout : forall out, (match extents i with
    | [] => Ok (inline i)
    | _ => let? _ := buffer_for (Layout.size i) in
           let? all := read_all f (extent_blocks (extents i)) in Ok (slice all 0 (Layout.size i)) end) = Ok out ->
    fits_disk out).
  { intros out. rewrite (read_all_spec f _ (i_dev _ _ HI) Hr). destruct (extents i).
    - intros [= <-]. split; [done|]. unfold RESERVED_BLOCKS, BS in *. lia.
    - unfold buffer_for. destruct (can_reserve _); [|done]. cbn [obind]. intros [= <-]. split; [by apply bytes_ok_slice|].
      assert (zlen (slice (concat (map (disk f) (extent_blocks (p :: l)))) 0 (Layout.size i))
        <= zlen (concat (map (disk f) (extent_blocks (p :: l))))).
      { rewrite slice_0. unfold zlen. rewrite length_take. lia. }
      unfold BS in *. lia. }
  match type of E with (let? out := ?o in _) = _ => destruct o as [out|?| |] eqn:Eo end; try done.
  cbn [obind] in E. case_in E; [done|]. injection E as <-. by apply Hout.
Qed.

Lemma stays_read_data i : known i -> stays n (sgets (fun f => read_data f i)) fits_disk.
Proof using Hn. intros Hk. apply stays_gets. intros f ck d HI En E. by eapply read_data_fits. Qed.

(** Directory entries that can be written back, with room for one more. *)
Definition dir_ok (es : list dirent) : Prop := Forall dirent_typed es /\ zlen es * DIRENT_SIZE <= n * BS.

Lemma zlen_parse_dir data : zlen (parse_dir data) * DIRENT_SIZE <= zlen data.
Proof using Type.
  unfold parse_dir. assert (H : forall l, zlen (concat (map (parse_dirent data) l)) <= zlen l).
  { induction l as [|x l IH]; [done|]. cbn [map concat]. rewrite zlen_app, zlen_cons.
    assert (zlen (parse_dirent data x) <= 1) by (unfold parse_dirent; by case_if). lia. }
  pose proof (zlen_nonneg data) as Hd. specialize (H (zrange 0 (zlen data / DIRENT_SIZE))).
  assert (zlen (zrange 0 (zlen data / DIRENT_SIZE)) = zlen data / DIRENT_SIZE).
  { unfold zlen at 1. unfold zrange. rewrite length_seqZ, Z.sub_0_r. apply Z2Nat.id, Z.div_pos; unfold DIRENT_SIZE; lia. }
  pose proof (Z.mul_div_le (zlen data) DIRENT_SIZE). unfold DIRENT_SIZE in *. lia.
Qed.

Lemma stays_read_dir o : stays n (sgets (fun f => read_dir_entries f o)) dir_ok.
Proof using Hn.
  apply stays_gets. intros f ck es HI En E. unfold read_dir_entries in E.
  destruct (read_inode f o) as [i|?| |] eqn:Ei; try done. cbn [obind] in E.
  destruct (read_inode_live f ck o i HI En Ei) as (_ & _ & _ & _ & Hk). case_in E; [done|].
  destruct (read_data f i) as [data|?| |] eqn:Ed; try done. injection E as <-.
  destruct (read_data_fits f ck i data HI En Hk Ed) as [Hb Hl].
  split; [by apply parse_dir_typed|]. pose proof (zlen_parse_dir data). lia.
Qed.

Lemma stays_read_symlink o : stays n (sgets (fun f => read_symlink_target f o)) bytes_ok.
Proof using Hn.
  apply stays_gets. intros f ck t HI En E. unfold read_symlink_target in E.
  destruct (read_inode f o) as [i|?| |] eqn:Ei; try done. cbn [obind] in E.
  destruct (read_inode_live f ck o i HI En Ei) as (_ & _ & _ & _ & Hk). case_in E; [done|].
  destruct (read_data f i) as [data|?| |] eqn:Ed; try done. cbn [obind] in E.
  destruct (read_data_fits f ck i data HI En Hk Ed) as [Hb _]. unfold from_utf8 in E.
  destruct (valid_utf8 data); [|done]. by injection E as <-.
Qed.

(** ** Building blocks *)

Lemma stays_write_object i data :
  inode_typed i -> bytes_ok data -> is_u64 (zlen data) -> stays n (write_object i data) (fun _ => True).
Proof using Type.
  intros Hi Hd Hl f ck HI _. destruct (write_object_spec f ck i data HI Hi Hd Hl) as (r & f' & E & S1 & _ & _).
  by rewrite E.
Qed.

(** Code that changes nothing but the path cache. *)
Definition quiet {A} (m : FsM A) : Prop := forall f : EuroFs (Traced D), exists c, snd (m f) = set_path_cache f c.

Lemma stays_quiet {A} (m : FsM A) : quiet m -> stays n m (fun _ => True).
Proof using Type.
  intros Hq f ck HI _. destruct (Hq f) as [c Ec]. rewrite Ec. split; [|done].
  apply step_memory; [by apply inv_path_cache|done|done].
Qed.

Lemma same_path_cache f : set_path_cache f (path_cache f) = f.
Proof using Type. by destruct f. Qed.

Lemma quiet_pure {A} (m : FsM A) : (forall f : EuroFs (Traced D), snd (m f) = f) -> quiet m.
Proof using Type. intros Hm f. exists (path_cache f). by rewrite same_path_cache. Qed.

Lemma quiet_bind {A B} (m : FsM A) (k : A -> FsM B) : quiet m -> (forall a, quiet (k a)) -> quiet (sbind m k).
Proof using Type.
  intros Hm Hk f. destruct (Hm f) as [c Ec]. unfold sbind. destruct (m f) as [[a|e| |] f']; cbn [snd] in *; subst f'; eauto.
  destruct (Hk a (set_path_cache f c)) as [c' Ec']. rewrite Ec'. by exists c'.
Qed.

Lemma quiet_resolve p b : quiet (resolve_follow p b).
Proof using Type.
  intros f. unfold resolve_follow. repeat case_match; cbn [snd]; eauto; exists (path_cache f); by rewrite same_path_cache.
Qed.

Lemma quiet_exists p : quiet (exists_ p).
Proof using Type.
  intros f. destruct (quiet_resolve p true f) as [c Ec]. unfold exists_, resolve in *.
  destruct (resolve_follow p true f) as [[] f']; cbn [snd] in *; eauto.
Qed.

Lemma quiet_check_access p w : quiet (check_access p w).
Proof using Type.
  apply quiet_bind; [apply quiet_resolve|]. intros o. apply quiet_bind; [by apply quiet_pure|]. intros i. by apply quiet_pure.
Qed.

Lemma quiet_list_dir p : quiet (list_dir p).
Proof using Type.
  apply quiet_bind; [apply quiet_check_access|]. intros _. apply quiet_bind; [apply quiet_resolve|]. intros o.
  apply quiet_bind; [by apply quiet_pure|]. intros es. by apply quiet_pure.
Qed.

Lemma quiet_list_dir_internal p : quiet (list_dir_internal p).
Proof using Type.
  apply quiet_bind; [apply quiet_resolve|]. intros o.
  apply quiet_bind; [by apply quiet_pure|]. intros es. by apply quiet_pure.
Qed.

Lemma stays_resolve p : stays n (resolve p) (fun _ => True).
Proof using Type. apply stays_quiet, quiet_resolve. Qed.

Lemma stays_parent_write p : stays n (check_parent_write p) (fun _ => True).
Proof using Type. apply stays_quiet, quiet_check_access. Qed.

Lemma stays_forget o : stays n (forget_object o) (fun _ => True).
Proof using Type. apply stays_modify. intros f ck HI. split; [by apply inv_forget|done]. Qed.

Lemma stays_usage_sub v b : stays n (usage_sub v b) (fun _ => True).
Proof using Type.
  intros f ck HI _. destruct (usage_sub_spec f v b) as [us ->]. split; [|done].
  apply step_memory; [by apply inv_usage|done|done].
Qed.

Lemma stays_usage_add v b : stays n (usage_add v b) (fun _ => True).
Proof using Type.
  intros f ck HI _. destruct (usage_add_spec f v b) as (r & us & -> & _). split; [|done].
  apply step_memory; [by apply inv_usage|done|done].
Qed.

Lemma stays_clear_path_cache : stays n clear_path_cache (fun _ => True).
Proof using Type. apply stays_modify. intros f ck HI. split; [by apply inv_path_cache|done]. Qed.

Lemma stays_fresh_oid : stays n fresh_oid (fun o => 1 <= o < U64_MAX).
Proof using Type.
  apply (stays_bind _ _ (fun o => 2 <= o <= U64_MAX)); [apply stays_get; intros f ck HI _; apply HI|]. intros o Ho.
  apply (stays_bind _ _ (fun o' => o' = o + 1 /\ o + 1 <= U64_MAX)).
  { apply stays_lift. intros o' E. unfold add64 in E. case_in E; [|done]. injection E as <-. by split. }
  intros o' [-> Ho']. eapply stays_bind.
  { apply stays_modify. intros f ck HI. split; [apply inv_next_oid; [lia|done]|done]. }
  intros _ _. apply stays_ret. lia.
Qed.

(** Directory entries that fit the disk after one was added. *)
Definition dir_room (es : list dirent) : Prop :=
  Forall dirent_typed es /\ zlen es * DIRENT_SIZE <= n * BS + DIRENT_SIZE.

Lemma stays_rewrite_dir o es : dir_room es -> stays n (rewrite_dir o es) (fun _ => True).
Proof using Hn.
  intros [Ht Hl]. eapply stays_bind; [apply stays_read_inode|]. intros i [[[] _ _ _] Eo].
  apply stays_write_object; [by split|by apply bytes_ok_encode_dir|].
  rewrite zlen_encode_dir. pose proof (zlen_nonneg es). destruct Hn as [_ Hmax]. unfold DIRENT_SIZE, BS in *. ulia.
Qed.

Lemma dir_ok_room es : dir_ok es -> dir_room es.
Proof using Type. intros [? ?]. split; [done|]. unfold DIRENT_SIZE in *. lia. Qed.

Lemma dir_room_snoc es e : dir_ok es -> dirent_typed e -> dir_room (es ++ [e]).
Proof using Type.
  intros [Hes Hl] He. split; [apply Forall_app; split; [done|by constructor]|].
  rewrite zlen_app, zlen_cons, zlen_nil. lia.
Qed.

Lemma dir_ok_sublist es es' : es' `sublist_of` es -> dir_ok es -> dir_ok es'.
Proof using Type.
  intros Hs [Ht Hl]. split.
  { rewrite Forall_forall in *. intros e He. eapply Ht, elem_of_sublist; eauto. }
  apply sublist_length in Hs. unfold zlen, DIRENT_SIZE in *. lia.
Qed.

Lemma remove_at_sublist {A} k (l : list A) : remove_at k l `sublist_of` l.
Proof using Type.
  unfold remove_at. rewrite <- (take_drop k l) at 3. apply sublist_app; [done|].
  replace (S k) with (k + 1)%nat by lia. rewrite <- drop_drop. apply sublist_drop.
Qed.

Lemma filter_sublist {A} (P : A -> bool) (l : list A) : List.filter P l `sublist_of` l.
Proof using Type.
  induction l as [|x l IH]; [done|]. cbn. case_if; [by apply sublist_skip|by apply sublist_cons].
Qed.

Lemma dirent_new name o t : bytes_ok name -> 1 <= o < U64_MAX -> is_u8 t -> dirent_typed (name, o, t).
Proof using Type. intros. split; cbn [fst snd]; [done|ulia|done]. Qed.

(** Reads whose result no writer depends on. *)
Lemma stays_any {A} (g : EuroFs (Traced D) -> outcome FsError A) : stays n (sgets g) (fun _ => True).
Proof using Type. by apply stays_gets. Qed.

Lemma stays_now : stays n (sget now) is_u64.
Proof using Type. apply stays_get. intros f ck HI _. apply HI. Qed.

Lemma stays_ctx : stays n (sget ctx_uid) is_u32.
Proof using Type. apply stays_get. intros f ck HI _. apply HI. Qed.

Lemma stays_set_now t : is_u64 t -> stays n (smodify (fun f => set_now f t)) (fun _ => True).
Proof using Type. intros Ht. apply stays_modify. intros f ck HI. split; [by apply inv_now|done]. Qed.

Lemma stays_set_ctx u : is_u32 u -> stays n (smodify (fun f => set_ctx_uid f u)) (fun _ => True).
Proof using Type. intros Hu. apply stays_modify. intros f ck HI. split; [by apply inv_ctx|done]. Qed.

Lemma new_inode_typed o p t k u :
  1 <= o < U64_MAX -> is_u64 p -> is_u8 k -> is_u64 t -> is_u32 u -> inode_typed (set_inode_uid (inode_new o p k t) u).
Proof using Type. intros. split; try done; cbn; try case_if; ulia. Qed.

(** The directory a path resolves to has a valid object number once its inode was
    read. *)
Lemma stays_read_dir_oid o :
  stays n (sgets (fun f => read_dir_entries f o)) (fun es => dir_ok es /\ is_u64 o).
Proof using Hn.
  apply stays_gets. intros f ck es HI En E. split.
  - destruct (stays_read_dir o f ck HI En) as [_ Hes]. by apply Hes.
  - unfold read_dir_entries in E. destruct (read_inode f o) as [i|?| |] eqn:Ei; try done.
    destruct (read_inode_live f ck o i HI En Ei) as (_ & _ & _ & Eo & [[] _ _ _]). ulia.
Qed.

Lemma stays_check_name name : stays n (slift (check_name name)) (fun _ => True).
Proof using Type. by apply stays_lift. Qed.

(** Strings of the version directory. *)
Lemma digits_bytes fuel k acc : bytes_ok acc -> bytes_ok (digits fuel k acc).
Proof using Type.
  revert k acc. induction fuel as [|fuel IH]; intros k acc Hacc; cbn [digits]; [done|].
  assert (Hb : bytes_ok (48 + k mod 10 :: acc)).
  { constructor; [|done]. pose proof (Z.mod_pos_bound k 10 ltac:(lia)). ulia. }
  case_if; [done|]. by apply IH.
Qed.

Lemma bytes_ok_versions_dir : bytes_ok VERSIONS_DIR.
Proof using Type. unfold VERSIONS_DIR, bytes_ok. forall_lia. Qed.

Lemma bytes_ok_key_dir p : bytes_ok p -> bytes_ok (key_dir_of p).
Proof using Type.
  intros Hp. unfold key_dir_of. apply bytes_ok_app; [apply bytes_ok_versions_dir|]. constructor; [done|].
  unfold version_key. apply Forall_map. assert (Ht : bytes_ok (trim_start p)).
  { induction Hp as [|c r Hc Hr IH]; cbn; [constructor|]. case_if; [done|by constructor]. }
  eapply Forall_impl; [exact Ht|]. cbn. intros c Hc. case_if; [done|done].
Qed.

Lemma bytes_ok_version_path d k : bytes_ok d -> bytes_ok (version_path d k).
Proof using Type.
  intros Hd. unfold version_path. apply bytes_ok_app; [done|]. constructor; [done|]. constructor; [done|].
  apply digits_bytes. constructor.
Qed.

Lemma bytes_ok_redirect p t : bytes_ok p -> bytes_ok t -> bytes_ok (redirect p t).
Proof using Type.
  intros Hp Ht. unfold redirect. case_if; [done|]. case_if; [by constructor|].
  apply bytes_ok_app; [done|]. by constructor.
Qed.

Lemma find_entry_typed es name o t : dir_ok es -> find_entry es name = Some (o, t) -> is_u64 o /\ o <> 0 /\ is_u8 t.
Proof using Type.
  intros [He _] E. unfold find_entry in E. destruct (List.find _ es) as [e|] eqn:Ef; [|done].
  apply find_some in Ef as [Hin%list_elem_of_In _]. rewrite Forall_forall in He. destruct (He e Hin) as [_ [? ?] ?].
  injection E as <- <-. done.
Qed.

Lemma dir_ok_alter es name k : dir_ok es -> bytes_ok name -> dir_ok (alter (rename_entry name) k es).
Proof using Type.
  intros [Ht Hl] Hb. split; [|unfold zlen in *; by rewrite length_alter]. rewrite Forall_lookup in Ht |- *. intros j e Hj.
  rewrite list_lookup_alter in Hj. case_decide; [|eauto]. destruct (es !! k) as [e0|] eqn:E; [|done].
  injection Hj as <-. destruct (Ht _ _ E). by split.
Qed.

Lemma known_new_parent i p : known i -> is_u64 p -> known (set_inode_parent i p).
Proof using Type. intros [[] ? ? ?] Hp. split; [by split|done..]. Qed.

Lemma quiet_read_link p : quiet (read_link p).
Proof using Type. apply quiet_bind; [apply quiet_resolve|]. intros o. by apply quiet_pure. Qed.

Lemma quiet_inode_of {A} p (g : Inode -> A) :
  quiet (let! o := resolve p in let! i := sgets (fun f : EuroFs (Traced D) => read_inode f o) in sret (g i)).
Proof using Type.
  apply quiet_bind; [apply quiet_resolve|]. intros o. apply quiet_bind; [by apply quiet_pure|]. intros i. by apply quiet_pure.
Qed.

Lemma quiet_versions p : quiet (versions p).
Proof using Type.
  apply quiet_bind; [apply quiet_exists|]. intros e.
  apply quiet_bind; [destruct e; [apply quiet_check_access|by apply quiet_pure]|]. intros _ f.
  destruct (quiet_list_dir_internal (key_dir_of p) f) as [c Ec].
  destruct (list_dir_internal (key_dir_of p) f) as [[] f']; cbn [snd] in *; eauto.
Qed.

(** Nothing to heal: both slots are valid. *)
Lemma heal_nothing f ck : Inv f ck -> heal_slots (dev f) = (Ok 0, dev f).
Proof using Type.
  intros HI. pose proof (inv_size _ _ HI) as Hs. pose proof (i_both _ _ HI) as [B1 B2].
  assert (Hr : forall b, is_slot b -> 0 <= b < block_count (dev f)).
  { rewrite (i_len _ _ HI). unfold is_slot, RESERVED_BLOCKS, SUPERBLOCK_BLOCK, SUPERBLOCK_BACKUP_BLOCK in *. lia. }
  unfold heal_slots. unfold disk in B1, B2.
  rewrite (sbind_gets _ _ _ (slot_in (contents (dev f)) SUPERBLOCK_BLOCK))
    by (apply read_slot_spec; [apply HI|apply Hr; by left]).
  rewrite (sbind_gets _ _ _ (slot_in (contents (dev f)) SUPERBLOCK_BACKUP_BLOCK))
    by (apply read_slot_spec; [apply HI|apply Hr; by right]).
  by destruct (slot_in _ SUPERBLOCK_BLOCK), (slot_in _ SUPERBLOCK_BACKUP_BLOCK).
Qed.

Lemma filter_same_snap (P : SnapshotEntry -> bool) l (snaps : list (SnapshotEntry * list (Z * Z))) :
  (forall s, P (unlabelled s) = P s) -> Forall2 same_snap l snaps ->
  Forall2 same_snap (List.filter P l) (List.filter (fun p => P (fst p)) snaps).
Proof using Type.
  intros HP. induction 1 as [|s p l snaps Hs Hl IH]; cbn [List.filter]; [constructor|].
  rewrite <- (HP s), <- (HP (fst p)), Hs. destruct (P (unlabelled (fst p))); [by constructor|done].
Qed.

Lemma rebuild_usage_frame f : exists r us, rebuild_usage f = (r, set_usage f us).
Proof using Type.
  unfold rebuild_usage. unfold sbind at 1. unfold smodify at 1. unfold sbind at 1. unfold sget at 1.
  cbn [set_usage objmap]. generalize (map fst (objmap f)) as l. generalize (@nil (Z * Z)) as us.
  intros us l. revert us. induction l as [|o l IH]; intros us; cbn [sfor]; [by eexists _, us|].
  unfold sbind at 1. destruct (read_inode (set_usage f us) o) as [i|e| |]; [|apply IH|by eexists _, us|by eexists _, us].
  destruct (usage_add_spec (set_usage f us) (uid i) (data_blocks_of i)) as (r & us' & -> & [-> | ->]);
    [apply IH|by eexists _, us'].
Qed.

Lemma stays_rebuild_usage : stays n rebuild_usage (fun _ => True).
Proof using Type.
  intros f ck HI _. destruct (rebuild_usage_frame f) as (r & us & ->). split; [|done].
  apply step_memory; [by apply inv_usage|done|done].
Qed.

Lemma max_oid_bound k i (m : list (Z * Z)) : map_ok k i m -> 1 <= max_oid m < U64_MAX.
Proof using Type.
  intros Hm. unfold max_oid. destruct (last m) as [[o b]|] eqn:E; [|unfold ROOT_OID; ulia].
  apply last_Some_elem_of in E. pose proof (mo_objects _ _ _ Hm) as Ho. rewrite Forall_forall in Ho. apply (Ho _ E).
Qed.

(** Loading the map of a tree that is intact on the disk. *)
Lemma load_objmap_spec {D'} `{LawfulDevice D'} (g : EuroFs D') k m :
  dev_ok (dev g) -> block_count (dev g) = k ->
  state_ok k (img g) (object_map_root (sb g)) (extent_tree_root (sb g)) m ->
  load_objmap g = (Ok tt, set_objmap g m).
Proof using Type.
  intros Hok Hk [R1 R2 R3 R4 R5]. unfold load_objmap. unfold sbind at 1. unfold sget at 1.
  rewrite Z.max_l by lia. unfold sbind at 1. unfold sgets at 1.
  rewrite read_table_spec; [|done|].
  - change (concat (map (fun b => img g (object_map_root (sb g) + b)) (zrange 0 (extent_tree_root (sb g)))))
      with (table (img g) (object_map_root (sb g)) (extent_tree_root (sb g))).
    unfold smodify, decode_objmap. rewrite R4, bt_of_list_sorted; [done|apply R5].
  - apply Forall_forall. intros b Hb%elem_of_zrange. rewrite Hk. unfold RESERVED_BLOCKS in *. lia.
Qed.

Lemma snapshot_lookup l (snaps : list (SnapshotEntry * list (Z * Z))) s :
  Forall2 same_snap l snaps -> s ∈ l -> exists p, p ∈ snaps /\ same_snap s p.
Proof using Type.
  induction 1 as [|s' p l snaps Hs Hl IH]; [by intros ?%not_elem_of_nil|]. intros [->|Hin]%elem_of_cons.
  - exists p. split; [by left|done].
  - destruct (IH Hin) as (q & ? & ?). exists q. split; [by right|done].
Qed.

Lemma inv_rollback f ck p s o :
  Inv f ck -> p ∈ ck_snaps ck -> sb_static s -> checkpoint_id s = checkpoint_id (sb f) -> 2 <= o <= U64_MAX ->
  Inv (set_extents_cache (set_path_cache (set_next_oid (set_objmap (set_sb f s) (snd p)) o) ∅) []) ck.
Proof using Type.
  intros HI Hp Hs Hg Ho. destruct (holds_snap _ _ _ p (i_ck _ _ HI) (i_holds _ _ HI) Hp) as [Hst Hsb].
  assert (Hsub : map_blocks (disk f) (snd p) ⊆ ck_blocks ck).
  { intros b Hb. apply elem_of_ck_blocks. right. exists p. split; [done|]. rewrite <- Hsb.
    apply elem_of_state_blocks. by right. }
  pose proof HI as []. split; unfold nblocks, disk in *;
    cbn [set_extents_cache set_path_cache set_next_oid set_objmap set_sb dev used objmap extents_cache snapshots sb now
      next_oid ctx_uid next_snap_id]; try done.
  - apply Hst.
  - rewrite Forall_forall in i_ck_used0 |- *. auto.
  - congruence.
Qed.

End safety.
End Safety.
