(* ===== verification/Ops.v ===== *)
(** The operations of EuroFS.

    Every operation of [src/crates/eurofs/src/disk.rs] is shown to keep the
    copy-on-write invariant on success, on every error path and on a panic, and
    to pass only through moments at which the disk holds a checkpoint.  The
    operations on directories and metadata are [atomic]: they commit nothing or
    exactly one checkpoint, the tree in memory.  A write of a versioned file
    commits several; when it returns, the tree in memory is on the disk
    ([settles]). *)

From stdpp Require Import gmap.
From S2P Require Import Prelude Bytes Block Crash Checksum Fs Utf8 Path BTree Superblock Layout Typed EuroFs Alloc Cow Objects Rebuild Commit Tables Safety.
Import Block Crash Fs Utf8 BTree Superblock Layout Typed EuroFs Alloc Cow Objects Rebuild Commit Tables Safety.

Module Ops.

Section ops.
Context {HX : Xxh3} {HH : Heap} {HW : WholeBlocks} {D : Type} {HD : BlockDevice D} {HL : LawfulDevice D}.
Implicit Types (f : EuroFs (Traced D)) (ck : checkpoint).
Context (n : Z) {Hn : DiskSize n}.

(** ** Completed operations *)

(** [settles]: when [m] returns, the tree in memory is the checkpoint on the disk.
    [tidy]: when [m] returns and this was so before, it is so again. *)
Definition settles {A} (m : FsM A) : Prop :=
  forall f ck, Inv f ck -> nblocks f = n ->
    exists ks ck', step f ck ks (snd (m f)) ck' /\ (is_ok (fst (m f)) = true -> clean (snd (m f)) ck').

Definition tidy {A} (m : FsM A) : Prop :=
  forall f ck, Inv f ck -> nblocks f = n ->
    exists ks ck', step f ck ks (snd (m f)) ck' /\ (clean f ck -> is_ok (fst (m f)) = true -> clean (snd (m f)) ck').

(** [atomic b m]: [m] commits nothing, or once, and then the tree in memory is on
    the disk.  With [b], it has committed when it returns. *)
Definition atomic (b : bool) {A} (m : FsM A) : Prop :=
  forall f ck, Inv f ck -> nblocks f = n -> exists r f', m f = (r, f') /\
    ((step f ck [] f' ck /\ (is_ok r = true -> b = false /\ (clean f ck -> clean f' ck))) \/
     (exists ck', step f ck [ck'] f' ck' /\ clean f' ck')).

Lemma atomic_settles {A} (m : FsM A) : atomic true m -> settles m.
Proof using Type.
  intros Hm f ck HI En. destruct (Hm f ck HI En) as (r & f' & -> & [[S1 Hc]|(ck' & S1 & Hc)]); cbn [fst snd].
  - exists [], ck. split; [done|]. intros Hok. by destruct (Hc Hok).
  - by exists [ck'], ck'.
Qed.

Lemma atomic_tidy b {A} (m : FsM A) : atomic b m -> tidy m.
Proof using Type.
  intros Hm f ck HI En. destruct (Hm f ck HI En) as (r & f' & -> & [[S1 Hc]|(ck' & S1 & Hc)]); cbn [fst snd].
  - exists [], ck. split; [done|]. intros Hcl Hok. by apply Hc.
  - by exists [ck'], ck'.
Qed.

Lemma settles_tidy {A} (m : FsM A) : settles m -> tidy m.
Proof using Type. intros Hm f ck HI En. destruct (Hm f ck HI En) as (ks & ck' & S1 & Hc). exists ks, ck'. auto. Qed.

Lemma tidy_safe {A} (m : FsM A) : tidy m -> safe n m (fun _ => True).
Proof using Type. intros Hm f ck HI En. destruct (Hm f ck HI En) as (ks & ck' & S1 & _). exists ks, ck'. auto. Qed.

Lemma settles_intro {A} (m : FsM A) :
  (forall f ck, Inv f ck -> nblocks f = n -> exists r f' ks ck', m f = (r, f') /\ step f ck ks f' ck' /\
     (is_ok r = true -> clean f' ck')) -> settles m.
Proof using Type.
  intros Hm f ck HI En. destruct (Hm f ck HI En) as (r & f' & ks & ck' & E & S1 & Hc). exists ks, ck'. by rewrite E.
Qed.

Lemma settles_bind {A B} (m : FsM A) (k : A -> FsM B) (P : A -> Prop) :
  safe n m P -> (forall a, P a -> settles (k a)) -> settles (sbind m k).
Proof using Type.
  intros Hm Hk f ck HI En. destruct (Hm f ck HI En) as (ks & ck' & S1 & Hp). unfold sbind.
  destruct (m f) as [[a|e| |] f']; cbn [fst snd] in *; [|by exists ks, ck'..].
  destruct (Hk a (Hp a eq_refl) f' ck' (sp_inv _ _ _ _ _ S1)) as (ks2 & ck2 & S2 & Hc).
  { rewrite <- En. apply S1. }
  exists (ks ++ ks2), ck2. split; [by eapply step_trans|done].
Qed.

Lemma settles_step {A B} (m : FsM A) (k : A -> FsM B) (P : A -> Prop) :
  stays n m P -> (forall a, P a -> settles (k a)) -> settles (sbind m k).
Proof using Type. intros Hm. by apply settles_bind, stays_safe. Qed.

Lemma safe_step {A B} (m : FsM A) (k : A -> FsM B) (P : A -> Prop) (Q : B -> Prop) :
  stays n m P -> (forall a, P a -> safe n (k a) Q) -> safe n (sbind m k) Q.
Proof using Type. intros Hm. by apply safe_bind, stays_safe. Qed.

Lemma atomic_step {A B} (m : FsM A) (k : A -> FsM B) (P : A -> Prop) :
  stays n m P -> (forall a, P a -> atomic true (k a)) -> atomic true (sbind m k).
Proof using Type.
  intros Hm Hk f ck HI En. destruct (Hm f ck HI En) as [S1 Hp].
  destruct (m f) as [r f'] eqn:E. rewrite (sbind_run _ _ _ _ _ E). cbn [fst snd] in *.
  destruct r as [a|e| |]; [|eexists _, _; split; [done|]; left; by split..].
  destruct (Hk a (Hp a eq_refl) f' ck (sp_inv _ _ _ _ _ S1)) as (r & f2 & E2 & Hr); [rewrite <- En; apply S1|].
  exists r, f2. split; [done|]. destruct Hr as [[S2 Hc]|(ck' & S2 & Hc)].
  - left. split; [exact (step_trans _ _ _ _ _ _ _ _ S1 S2)|]. intros Hok. by destruct (Hc Hok).
  - right. exists ck'. split; [exact (step_trans _ _ _ _ _ _ _ _ S1 S2)|done].
Qed.

Lemma quiet_clean f c ck : clean (set_path_cache f c) ck <-> clean f ck.
Proof using Type. done. Qed.

Lemma atomic_quiet {A} (m : FsM A) : quiet m -> atomic false m.
Proof using Type.
  intros Hq f ck HI En. destruct (Hq f) as [c Ec]. destruct (m f) as [r f']. cbn [snd] in Ec. subst f'.
  exists r, (set_path_cache f c). split; [done|]. left. split; [|done].
  apply step_memory; [by apply inv_path_cache|done|done].
Qed.

Lemma atomic_weaken {A} (m : FsM A) : atomic true m -> atomic false m.
Proof using Type.
  intros Hm f ck HI En. destruct (Hm f ck HI En) as (r & f' & E & Hr). exists r, f'. split; [done|].
  destruct Hr as [[S1 Hc]|Hr]; [|by right]. left. split; [done|]. intros Hok. by destruct (Hc Hok).
Qed.

Lemma atomic_step_quiet {A B} (m : FsM A) (k : A -> FsM B) (P : A -> Prop) :
  quiet m -> stays n m P -> (forall a, P a -> atomic false (k a)) -> atomic false (sbind m k).
Proof using Type.
  intros Hq Hm Hk f ck HI En. destruct (Hm f ck HI En) as [S1 Hp]. destruct (Hq f) as [c Ec].
  destruct (m f) as [r f'] eqn:E. rewrite (sbind_run _ _ _ _ _ E). cbn [fst snd] in *.
  destruct r as [a|e| |]; [|eexists _, _; split; [done|]; left; by split..].
  destruct (Hk a (Hp a eq_refl) f' ck (sp_inv _ _ _ _ _ S1)) as (r & f2 & E2 & Hr); [rewrite <- En; apply S1|].
  exists r, f2. split; [done|]. destruct Hr as [[S2 Hc]|(ck' & S2 & Hc)].
  - left. split; [exact (step_trans _ _ _ _ _ _ _ _ S1 S2)|]. intros Hok. destruct (Hc Hok) as [_ Hc'].
    split; [done|]. intros Hcl. apply Hc'. by rewrite Ec.
  - right. exists ck'. split; [exact (step_trans _ _ _ _ _ _ _ _ S1 S2)|done].
Qed.

(** The path cache may change after the commit. *)
Lemma atomic_then_quiet {A B} (m : FsM A) (k : A -> FsM B) :
  atomic true m -> (forall a, quiet (k a)) -> (forall a f, is_ok (fst (k a f)) = true) -> atomic true (sbind m k).
Proof using Type.
  intros Hm Hk Hok f ck HI En. destruct (Hm f ck HI En) as (r & f' & E & Hr). rewrite (sbind_run _ _ _ _ _ E).
  destruct r as [a|e| |]; [|by eexists _, _; split; [done|]; destruct Hr as [[S1 Hc]|Hr]; [left|right]..].
  destruct (Hk a f') as [c Ec]. destruct (k a f') as [r f2]. cbn [snd] in Ec. subst f2.
  exists r, (set_path_cache f' c). split; [done|].
  destruct Hr as [[S1 Hc]|(ck' & S1 & Hc)]; [by destruct (Hc eq_refl)|]. right. exists ck'. split; [|done].
  eapply (step_trans _ _ [ck'] _ _ []); [exact S1|]. apply step_memory; [by apply inv_path_cache, S1|done|done].
Qed.

Lemma atomic_throw b {A} e : atomic b (sthrow e : FsM A).
Proof using Type. intros f ck HI _. eexists _, f. split; [done|]. left. split; [by apply step_refl|done]. Qed.

Lemma atomic_ret {A} (a : A) : atomic false (sret a).
Proof using Type. apply atomic_quiet. by apply quiet_pure. Qed.

Lemma settles_throw {A} e : settles (sthrow e : FsM A).
Proof using Type. apply atomic_settles, atomic_throw. Qed.

Lemma atomic_commit : atomic true commit.
Proof using Type.
  intros f ck HI _. destruct (commit_spec f ck HI) as (r & f' & E & Hr). exists r, f'. split; [done|].
  destruct r as [[]|e| |]; [|left; destruct Hr as [_ ->]; by split; [apply step_refl|]|left; by destruct Hr|done].
  destruct Hr as (ck' & S1 & (? & ? & ? & ? & ? & _ & _ & _ & _ & Hc & _)). right. by exists ck'.
Qed.

(** ** Steps of the code *)

Ltac block :=
  first [ apply stays_resolve | apply stays_parent_write | apply stays_read_inode | apply stays_read_dir
        | apply stays_read_symlink | apply stays_forget | apply stays_usage_sub | apply stays_clear_path_cache
        | apply stays_fresh_oid | apply stays_now | apply stays_ctx | apply stays_throw | apply stays_any ];
  try exact _.

Ltac calm := first [ by apply quiet_pure | apply quiet_resolve | apply quiet_check_access ].

(** The sequence of the code, for whichever notion is proved. *)
Ltac next :=
  lazymatch goal with
  | |- stays _ _ _ => eapply stays_bind
  | |- safe _ _ _ => eapply safe_step
  | |- settles _ => eapply settles_step
  | |- atomic true _ => eapply atomic_step
  | |- atomic false _ => eapply atomic_step_quiet; [try calm| |]
  end.

(** One statement of the code, [x] being its result and [Hx] what is known of it. *)
Tactic Notation "stmt" simple_intropattern(x) simple_intropattern(Hx) := next; [block|intros x Hx].

Ltac fails :=
  lazymatch goal with
  | |- stays _ _ _ => apply stays_throw
  | |- safe _ _ _ => apply stays_safe, stays_throw
  | |- settles _ => apply settles_throw
  | |- atomic _ _ => apply atomic_throw
  end.

Ltac done_ :=
  lazymatch goal with
  | |- stays _ _ _ => by apply stays_ret
  | |- safe _ _ _ => by apply stays_safe, stays_ret
  | |- atomic false _ => apply atomic_ret
  end.

(** A condition of the code; a branch that only returns or fails is done. *)
Ltac branch := case_if; try done_; try fails.

(** ** Directories and files *)

Lemma atomic_create_dir p : bytes_ok p -> atomic false (create_dir p).
Proof using Hn.
  intros Hp. unfold create_dir. stmt u Hu.
  next; [case_if; calm|case_if; [apply stays_parent_write|by apply stays_ret]|intros _ _].
  stmt po _. branch. next; [apply stays_check_name|intros _ _].
  next; [apply (stays_read_dir_oid n)|intros es [Hes Hpo]].
  branch. apply atomic_weaken.
  stmt o Ho. stmt t Ht. next; [apply stays_write_object|intros _ _].
  { by apply new_inode_typed. } { constructor. } { done. }
  next; [apply (stays_rewrite_dir n), dir_room_snoc; [done|]|intros _ _].
  { apply dirent_new; [auto with euro|done|done]. }
  eapply atomic_then_quiet; [apply atomic_commit| |done]. intros _ f. by eexists.
Qed.

Lemma safe_create_dir p : bytes_ok p -> safe n (create_dir p) (fun _ => True).
Proof using Hn. intros Hp. by eapply tidy_safe, atomic_tidy, atomic_create_dir. Qed.

Lemma atomic_remove_file p : atomic true (remove_file p).
Proof using Hn.
  unfold remove_file. stmt x _. stmt po _. stmt es Hes. case_match; [|fails].
  stmt i Hi. branch. stmt y _. stmt z _.
  next; [apply (stays_rewrite_dir n), dir_ok_room|intros _ _].
  { eapply dir_ok_sublist; [apply remove_at_sublist|done]. }
  stmt w _. apply atomic_commit.
Qed.

Lemma safe_remove_file p : safe n (remove_file p) (fun _ => True).
Proof using Hn. eapply tidy_safe, atomic_tidy, atomic_remove_file. Qed.

Definition safe_writer (w : list Z -> list Z -> FsM unit) : Prop :=
  forall p d, bytes_ok p -> bytes_ok d -> is_u64 (zlen d) -> safe n (w p d) (fun _ => True).

Lemma safe_save_version w p d t :
  safe_writer w -> bytes_ok p -> fits_disk n d -> is_u64 t -> safe n (save_version w p d t) (fun _ => True).
Proof using Hn.
  intros Hw Hp Hd Ht. unfold save_version. stmt u Hu. next; [by apply stays_set_ctx|intros _ _].
  apply safe_finally; [|intros f ck HI; split; [by apply inv_ctx|done]].
  unfold save_version_inner. next; [apply stays_quiet, quiet_exists|intros e1 _].
  eapply safe_bind; [case_if; [apply safe_create_dir, bytes_ok_versions_dir|done_]|intros _ _].
  next; [apply stays_quiet, quiet_exists|intros e2 _].
  eapply safe_bind; [case_if; [by apply safe_create_dir, bytes_ok_key_dir|done_]|intros _ _].
  next; [apply stays_quiet, quiet_list_dir|intros es _].
  eapply (safe_step _ _ (fun _ => True)); [by apply stays_lift|intros k _]. stmt c Hc.
  next; [by apply stays_set_now|intros _ _].
  eapply (safe_bind _ _ (fun _ => True)); [|intros _ _].
  { apply safe_finally; [|intros f ck HI; split; [by apply inv_now|done]].
    apply Hw; [by apply bytes_ok_version_path, bytes_ok_key_dir|apply Hd|by eapply fits_u64]. }
  branch. eapply (safe_for _ _ (fun _ => True)); [by apply Forall_true|]. intros k' _.
  eapply safe_ignore, safe_remove_file.
Qed.

Lemma safe_check_overwrite w p po o d :
  safe_writer w -> bytes_ok p ->
  safe n (check_overwrite w p po o d) (fun '(fl, u, m) => (1 <= o < U64_MAX /\ is_u32 fl /\ is_u32 u /\ is_u16 m)).
Proof using Hn.
  intros Hw Hp. unfold check_overwrite. stmt i [Hi Eo]. stmt x _.
  eapply (safe_step _ _ (fun _ => True)); [repeat case_if; first [by apply stays_ret|apply stays_any]|intros v _].
  eapply (safe_bind _ _ (fun _ => True)); [|intros _ _].
  { destruct v; [|done_]. next; [by apply stays_read_data|intros od Hod].
    branch. apply safe_save_version; try done. apply Hi. }
  branch. eapply (safe_step _ _ (fun _ => True)); [|intros _ _].
  { branch. next; [by apply stays_read_data|intros od Hod]. branch. }
  apply stays_safe, stays_ret. destruct Hi as [[] _ _ _]. by rewrite <- Eo.
Qed.

Lemma settles_write_file_impl fuel p d depth :
  bytes_ok p -> bytes_ok d -> is_u64 (zlen d) -> settles (write_file_impl fuel p d depth).
Proof using Hn.
  revert p d depth. induction fuel as [|fuel IH]; intros p d depth Hp Hd Hl.
  { intros f ck HI _. exists [], ck. split; [by apply step_refl|done]. }
  cbn [write_file_impl]. branch. next; [apply stays_check_name|intros _ _].
  stmt po _. next; [apply (stays_read_dir_oid n)|intros es [Hes Hpo]]. destruct (find_entry es (Path.filename p)) as [[o t]|].
  - branch. case_if.
    + branch. stmt tg Htg. apply IH; try done. apply bytes_ok_redirect; [auto with euro|done].
    + eapply settles_bind; [apply safe_check_overwrite; [|done]|].
      { intros p' d' Hp' Hd' Hl'. by apply tidy_safe, settles_tidy, IH. }
      intros [[fl u] m] (Ho & Hfl & Hu & Hm). stmt t' Ht'.
      next; [apply stays_write_object; [|done|done]|intros _ _; apply atomic_settles, atomic_commit].
      split; cbn; try done.
  - stmt pd _. stmt x _. stmt o Ho. stmt u Hu. stmt t Ht.
    next; [apply stays_write_object; [|done|done]|intros _ _].
    { split; cbn; try done; ulia. }
    next; [apply (stays_rewrite_dir n), dir_room_snoc; [done|]|intros _ _; apply atomic_settles, atomic_commit].
    apply dirent_new; [auto with euro|done|done].
Qed.

Lemma settles_write_file p d : bytes_ok p -> bytes_ok d -> is_u64 (zlen d) -> settles (write_file p d).
Proof using Hn. apply settles_write_file_impl. Qed.

Lemma atomic_create_symlink p t : bytes_ok p -> bytes_ok t -> is_u64 (zlen t) -> atomic true (create_symlink p t).
Proof using Hn.
  intros Hp Ht Hl. unfold create_symlink. stmt po _. branch.
  next; [apply stays_check_name|intros _ _]. next; [apply (stays_read_dir_oid n)|intros es [Hes Hpo]]. branch.
  stmt o Ho. stmt c Hc. stmt u Hu. next; [apply stays_write_object; [|done|done]|intros _ _].
  { by apply new_inode_typed. }
  next; [apply (stays_rewrite_dir n), dir_room_snoc; [done|]|intros _ _; apply atomic_commit].
  apply dirent_new; [auto with euro|done|done].
Qed.

Definition move_dir (o np : Z) : FsM (D := Traced D) unit :=
  let! inode := sgets (fun f => read_inode f o) in
  let n := set_inode_parent inode np in
  let! data := sgets (fun f => read_data f n) in
  write_object n data.

Lemma stays_move_dir o np : is_u64 np -> stays n (move_dir o np) (fun _ => True).
Proof using Hn.
  intros Hnp. unfold move_dir. stmt i [Hi _]. pose proof (known_new_parent n i np Hi Hnp) as Hk.
  next; [by apply stays_read_data|intros d Hd].
  apply stays_write_object; [apply Hk|apply Hd|by eapply fits_u64].
Qed.

Lemma atomic_rename old new : bytes_ok new -> atomic false (rename old new).
Proof using Hn.
  intros Hnew. unfold rename. stmt a _. stmt b _. stmt po _. stmt np _. branch.
  next; [apply stays_check_name|intros _ _]. next; [apply (stays_read_dir_oid n)|intros src [Hsrc Hpo]].
  destruct (find_entry src (Path.filename old)) as [[o t]|] eqn:Ef; [|fails].
  destruct (find_entry_typed n _ _ _ _ Hsrc Ef) as (Ho & Ho0 & Ht).
  assert (Hfin : atomic true (let! _ := clear_path_cache in commit)).
  { stmt x _. apply atomic_commit. }
  assert (Hq : quiet (D := D) (if t =? TYPE_FILE then
      let! inode := sgets (fun f => read_inode f o) in
      if negb (Z.land (flags inode) (Z.lor FLAG_IMMUTABLE FLAG_APPEND_ONLY) =? 0) then sthrow PermissionDenied else sret tt
    else sret tt)).
  { case_if; [|calm]. apply quiet_bind; [calm|]. intros i. case_if; calm. }
  next; [exact Hq|by apply stays_quiet|intros _ _].
  next; [case_if; calm|by apply stays_quiet; case_if; calm|intros _ _].
  case_if.
  - assert (Hin : forall es, dir_ok n es -> atomic true
      match position_of (named (Path.filename old)) es with
      | None => sthrow NotFound
      | Some pos => let! _ := rewrite_dir po (alter (rename_entry (Path.filename new)) pos es) in
                    let! _ := clear_path_cache in commit
      end).
    { intros es Hes. destruct (position_of _ es); [|fails].
      next; [apply (stays_rewrite_dir n), dir_ok_room, dir_ok_alter; auto with euro|done]. }
    destruct (position_of (named (Path.filename new)) src) as [tp|]; [|by apply atomic_weaken, Hin].
    branch. branch. apply atomic_weaken. stmt x _.
    apply Hin. eapply dir_ok_sublist; [apply remove_at_sublist|done].
  - next; [apply (stays_read_dir_oid n)|intros to [Hto Hnp]].
    assert (Hin : forall es, dir_ok n es -> atomic true (
      let! _ := if t =? TYPE_DIR then move_dir o np else sret tt in
      let! _ := rewrite_dir po (List.filter (fun e => negb (named (Path.filename old) e)) src) in
      let! _ := rewrite_dir np (es ++ [(Path.filename new, o, t)]) in
      let! _ := clear_path_cache in commit)).
    { intros es Hes. next; [case_if; [by apply stays_move_dir|by apply stays_ret]|intros _ _].
      next; [apply (stays_rewrite_dir n), dir_ok_room|intros _ _].
      { eapply dir_ok_sublist; [apply filter_sublist|done]. }
      next; [apply (stays_rewrite_dir n), dir_room_snoc; [done|]|done]. split; cbn; auto with euro. }
    destruct (position_of (named (Path.filename new)) to) as [tp|]; [|by apply atomic_weaken, Hin].
    branch. apply atomic_weaken. stmt x _. apply Hin. eapply dir_ok_sublist; [apply remove_at_sublist|done].
Qed.

Lemma atomic_remove_dir p : atomic true (remove_dir p).
Proof using Hn.
  unfold remove_dir. stmt x _. stmt o _. branch. stmt i _. branch. stmt es _. branch. stmt y _. stmt po _.
  stmt es' Hes. case_match; [|fails]. stmt z _.
  next; [apply (stays_rewrite_dir n), dir_ok_room|intros _ _].
  { eapply dir_ok_sublist; [apply remove_at_sublist|done]. }
  stmt w _. apply atomic_commit.
Qed.

(** ** Metadata *)

(** Writing an object back with other metadata. *)
Lemma atomic_rewrite_object i i' :
  known n i -> inode_typed i' ->
  atomic true (let! data := sgets (fun f => read_data f i) in let! _ := write_object i' data in commit).
Proof using Hn.
  intros Hi Hi'. next; [by apply stays_read_data|intros d Hd].
  next; [apply stays_write_object; [done|apply Hd|by eapply fits_u64]|intros _ _; apply atomic_commit].
Qed.

Lemma atomic_chmod p m : is_u16 m -> atomic true (chmod p m).
Proof using Hn.
  intros Hm. unfold chmod. stmt o _. stmt i [Hi _]. stmt u _. branch. branch. apply atomic_rewrite_object; [done|].
  destruct Hi as [[] _ _ _]. split; try done. cbn [set_inode_mode mode].
  pose proof (Z.land_ones m 12 ltac:(lia)) as E. change (Z.ones 12) with 4095 in E. rewrite E.
  pose proof (Z.mod_pos_bound m (2 ^ 12) ltac:(lia)). unfold is_u16. lia.
Qed.

Lemma atomic_chown p u : is_u32 u -> atomic false (chown p u).
Proof using Hn.
  intros Hu. unfold chown. stmt o _. stmt i [Hi _]. branch. branch. apply atomic_weaken, atomic_rewrite_object; [done|].
  destruct Hi as [[] _ _ _]. by split.
Qed.

Lemma atomic_set_flags p fl : is_u32 fl -> atomic true (set_flags p fl).
Proof using Hn.
  intros Hfl. unfold set_flags. stmt o _. stmt i [Hi _]. branch. apply atomic_rewrite_object; [done|].
  destruct Hi as [[] _ _ _]. by split.
Qed.

Lemma stays_read_file p : stays n (read_file p) (fits_disk n).
Proof using Hn.
  unfold read_file. stmt o _. stmt i [Hi _]. branch. stmt x _. by apply stays_read_data.
Qed.

Lemma quiet_read_file p : quiet (D := D) (read_file p).
Proof using Type.
  unfold read_file. apply quiet_bind; [calm|]. intros o. apply quiet_bind; [calm|]. intros i. case_if; try calm.
  apply quiet_bind; [calm|]. intros _. calm.
Qed.

Lemma settles_restore_version p k : bytes_ok p -> settles (restore_version p k).
Proof using Hn.
  intros Hp. unfold restore_version. stmt u Hu. next; [by apply stays_set_ctx|intros _ _].
  eapply settles_bind.
  { apply safe_finally; [apply stays_safe, stays_read_file|]. intros f ck HI. split; [by apply inv_ctx|done]. }
  intros d Hd. apply settles_write_file; [done|apply Hd|by eapply fits_u64].
Qed.

Lemma atomic_quota_set u l : atomic false (quota_set u l).
Proof using Type.
  unfold quota_set. branch. next; [by apply (stays_get _ (fun _ => True))|intros m _].
  intros f ck HI En.
  assert (Hset : forall q, exists t, save_quota (set_quota_limits f q) = (Ok tt, set_dev (set_quota_limits f q) t) /\
    step f ck [] (set_dev (set_quota_limits f q) t) ck).
  { intros q. destruct (save_quota_spec (set_quota_limits f q) ck) as (t & E & S1 & _); [by apply inv_quota|].
    exists t. split; [done|]. eapply (step_trans _ _ []); [|exact S1]. apply step_memory; [by apply inv_quota|done|done]. }
  unfold sbind. repeat case_if; cbn [smodify sthrow];
    try (destruct (Hset (bt_insert (quota_limits f) u l)) as (t & -> & S1); eexists _, _; split; [done|]; left; by split);
    try (destruct (Hset (bt_remove (quota_limits f) u)) as (t & -> & S1); eexists _, _; split; [done|]; left; by split).
  eexists _, _. split; [done|]. left. by split; [apply step_refl|].
Qed.

Lemma atomic_repair : atomic false repair.
Proof using Type.
  intros f ck HI En. assert (E : exists r, repair f = (r, f)).
  { unfold repair, sbind, sgets. rewrite (heal_nothing _ _ HI).
    replace (set_dev f (dev f)) with f by by destruct f. destruct (scrub f); by eexists. }
  destruct E as [r ->]. exists r, f. split; [done|]. left. by split; [apply step_refl|].
Qed.

(** ** Snapshots *)

Lemma settles_snapshot_create label fl :
  whole_block SNAPSHOT_TABLE_BLOCK = true -> bytes_ok label -> is_u32 fl -> settles (snapshot_create label fl).
Proof using Type.
  intros Hwh Hlab Hfl. apply settles_intro. intros f ck HI En. unfold snapshot_create. unfold sbind at 1. unfold sget at 1.
  destruct (Z.leb_spec MAX_SNAPSHOTS (zlen (snapshots f))) as [Hmax|Hmax].
  { eexists _, f, [], ck. split; [done|]. split; [by apply step_refl|done]. }
  destruct (commit_spec f ck HI) as (r & f1 & E1 & Hr). rewrite (sbind_run _ _ _ _ _ E1).
  destruct r as [[]|e| |]; [|eexists _, f1, [], ck; destruct Hr as [_ ->]; by split_and!; [|apply step_refl|]
    |eexists _, f1, [], ck; by destruct Hr|done].
  destruct Hr as (ck1 & S1 & (t1 & u1 & c1 & s1 & pt1 & Ef1 & Hmap & Hsn & _ & Hclean & _)).
  pose proof (sp_inv _ _ _ _ _ S1) as HI1. unfold sbind at 1. unfold sget at 1. unfold sbind at 1. unfold slift at 1, add64.
  destruct (Z.leb_spec (next_snap_id f1 + 1) U64_MAX) as [Hid|Hid].
  2:{ eexists _, f1, [ck1], ck1. done. }
  pose proof (i_next_snap _ _ HI1) as Hns.
  set (f2 := set_next_snap_id f1 (next_snap_id f1 + 1)). unfold sbind at 1. unfold smodify at 1. fold f2.
  assert (HI2 : Inv f2 ck1) by (apply inv_next_snap; [lia|done]).
  set (sn := mkSnap (next_snap_id f1) (checkpoint_id (sb f2)) (now f2) (object_map_root (sb f2)) (extent_tree_root (sb f2))
          (checkpoint_id (sb f2)) fl (take_chars 28 label)).
  destruct (save_snapshots_spec f2 ck1 (snapshots f2 ++ [sn]) (ck_snaps ck1 ++ [(stored_snapshot sn, ck_map ck1)]))
    as (t & E & S2 & _).
  { done. }
  { done. }
  { pose proof (i_ck _ _ HI2) as Hck. pose proof (own_snaps_fit _ _ Hck) as [F1 F2 F3 F4].
    destruct Hclean as (C1 & C2 & C3). pose proof (i_sb _ _ HI2) as [[] _ _ _]. split.
    - apply Forall_app. split; [done|]. constructor; [|constructor]. unfold snap_ok. cbn [fst snd stored_snapshot sn_objmap_root sn_map_blocks sn].
      change (sb f2) with (sb f1). rewrite C2, C3. apply Hck.
    - apply Forall_app. split; [done|]. constructor; [|constructor]. cbn [fst stored_snapshot sn_id sn].
      split; [split; cbn; try done; [ulia|apply (i_now _ _ HI1)]|lia].
    - rewrite zlen_app, zlen_cons, zlen_nil, Hsn. pose proof (i_snaps _ _ HI) as Es. apply Forall2_length in Es.
      unfold zlen in *. lia.
    - intros p [Hp|Hp]%elem_of_app; [by apply F4|]. apply list_elem_of_singleton in Hp as ->. intros b Hb.
      apply elem_of_ck_blocks. left. unfold ck_live. unfold snap_blocks in Hb. cbn [fst snd stored_snapshot sn_objmap_root sn_map_blocks sn] in Hb.
      change (sb f2) with (sb f1) in Hb. by rewrite C2, C3 in Hb. }
  { apply Forall2_app; [apply (i_snaps _ _ HI2)|by repeat constructor]. }
  { apply Forall_app. split; [apply HI2|]. constructor; [|constructor]. cbn. by apply bytes_ok_take_chars. }
  unfold sbind at 1. unfold smodify at 1. change (next_snap_id f1) with (sn_id sn).
  rewrite (sbind_ok _ _ _ _ _ E). eexists _, _, _, _. split; [done|]. split.
  - eapply step_trans; [exact S1|]. eapply (step_trans _ _ []); [|exact S2]. by apply step_memory.
  - intros _. exact Hclean.
Qed.

Lemma settles_snapshot_delete id : whole_block SNAPSHOT_TABLE_BLOCK = true -> settles (snapshot_delete id).
Proof using Type.
  intros Hwh. apply settles_intro. intros f ck HI En. unfold snapshot_delete. unfold sbind at 1. unfold sget at 1.
  set (P := fun s => negb (sn_id s =? id)). set (l' := List.filter P (snapshots f)).
  unfold sbind at 1. unfold smodify at 1. destruct (Z.eqb_spec (zlen l') (zlen (snapshots f))) as [El|El].
  { eexists _, _, [], ck. split; [done|]. assert (l' = snapshots f) as ->.
    { assert (length l' = length (snapshots f)) as E by (unfold zlen in El; lia). clear -E. subst l'.
      induction (snapshots f) as [|s l IH]; [done|]. cbn in *. pose proof (filter_length_le P l).
      destruct (P s); cbn in *; [f_equal; apply IH; lia|lia]. }
    replace (set_snapshots f (snapshots f)) with f by by destruct f. split; [by apply step_refl|done]. }
  set (snaps := List.filter (fun p => P (fst p)) (ck_snaps ck)).
  destruct (save_snapshots_spec f ck l' snaps Hwh HI) as (t & E & S1 & _).
  { pose proof (own_snaps_fit _ _ (i_ck _ _ HI)) as [F1 F2 F3 F4].
    assert (Hin : forall p, p ∈ snaps -> p ∈ ck_snaps ck).
    { intros p Hp. apply list_elem_of_In, filter_In in Hp as [Hp _]. by apply list_elem_of_In. }
    rewrite Forall_forall in F1, F2. split; [apply Forall_forall; auto|apply Forall_forall; auto| |auto].
    unfold snaps. pose proof (filter_length_le (fun p => P (fst p)) (ck_snaps ck)). unfold zlen in *. lia. }
  { by apply filter_same_snap; [|apply HI]. }
  { apply Forall_forall. intros s Hs. apply list_elem_of_In, filter_In in Hs as [Hs _]. apply list_elem_of_In in Hs.
    pose proof (i_labels _ _ HI) as Hlab. rewrite Forall_forall in Hlab. auto. }
  rewrite (sbind_ok _ _ _ _ _ E).
  destruct (atomic_settles _ atomic_commit _ _ (sp_inv _ _ _ _ _ S1)) as (ks & ck' & S2 & Hc); [rewrite <- En; apply S1|].
  eexists _, _, _, ck'. split; [apply surjective_pairing|]. split; [exact (step_trans _ _ _ _ _ _ _ _ S1 S2)|exact Hc].
Qed.

Lemma atomic_snapshot_rollback id : atomic true (snapshot_rollback id).
Proof using Type.
  intros f ck HI En. unfold snapshot_rollback. unfold sbind at 1. unfold sget at 1.
  destruct (List.find _ (snapshots f)) as [sn|] eqn:Ef; [|eexists _, f; split; [done|]; left; split; [by apply step_refl|done]].
  apply find_some in Ef as [Hin%list_elem_of_In _].
  destruct (snapshot_lookup _ _ _ (i_snaps _ _ HI) Hin) as (p & Hp & Esame).
  destruct (holds_snap _ _ _ p (i_ck _ _ HI) (i_holds _ _ HI) Hp) as [Hst _].
  pose proof (f_equal sn_objmap_root Esame) as Er. pose proof (f_equal sn_map_blocks Esame) as Eb. cbn in Er, Eb.
  rewrite <- Er, <- Eb in Hst.
  assert (Hs : sb_static (set_sb_map (sb f) (sn_objmap_root sn) (sn_map_blocks sn))).
  { pose proof (co_entries _ _ (i_ck _ _ HI)) as He. rewrite Forall_forall in He. destruct (He p Hp) as [[] _].
    rewrite <- Er in *. rewrite <- Eb in *. pose proof (i_sb _ _ HI) as [[] ? ? ?]. split; [|done..]. by split. }
  unfold sbind at 1. unfold smodify at 1. set (f1 := set_sb f _).
  rewrite (sbind_ok _ _ _ _ _ (load_objmap_spec f1 (nblocks f) (snd p) (i_dev _ _ HI) (i_len _ _ HI) Hst)).
  unfold sbind at 1. unfold sget at 1. cbn [set_objmap objmap].
  pose proof (max_oid_bound _ _ _ (st_map _ _ _ _ _ Hst)) as Hmx. unfold sbind at 1. unfold slift at 1, add64.
  destruct (Z.leb_spec (max_oid (snd p) + 1) U64_MAX); [|ulia].
  unfold sbind at 1. unfold smodify at 1. unfold sbind at 1. unfold clear_path_cache, smodify at 1.
  unfold sbind at 1. unfold smodify at 1.
  pose proof (inv_rollback f ck p _ (max_oid (snd p) + 1) HI Hp Hs eq_refl ltac:(lia)) as HI1.
  fold f1 in HI1. set (f2 := set_extents_cache _ _) in *.
  assert (Hrest : atomic true (let! _ := rebuild_usage in commit)).
  { next; [apply stays_rebuild_usage|intros _ _; apply atomic_commit]. }
  destruct (Hrest f2 ck HI1 En) as (r & f' & E & Hr). exists r, f'. split; [exact E|].
  assert (S0 : step f ck [] f2 ck) by by apply step_memory.
  destruct Hr as [[S1 Hc]|(ck' & S1 & Hc)]; [left|right].
  - split; [exact (step_trans _ _ _ _ _ _ _ _ S0 S1)|]. intros Hok. by destruct (Hc Hok).
  - exists ck'. split; [exact (step_trans _ _ _ _ _ _ _ _ S0 S1)|done].
Qed.
End ops.
End Ops.
