(* ===== verification/Mount.v ===== *)
(** Mounting ([mount] of [src/crates/eurofs/src/disk.rs]): on any disk that holds a
    checkpoint intact, mounting succeeds, brings back exactly that checkpoint,
    establishes the invariant, and heals a damaged superblock slot safely. *)

From stdpp Require Import gmap.
From S2P Require Import Prelude Bytes Block Crash Checksum Fs Utf8 Path BTree Superblock Layout Typed EuroFs Alloc Cow Objects Rebuild Commit Tables Safety.
Import Block Crash Fs Utf8 BTree Superblock Layout Typed EuroFs Alloc Cow Objects Rebuild Commit Tables Safety.

Module Mount.

Section mount.
Context {HX : Xxh3} {HH : Heap} {HW : WholeBlocks} {D : Type} {HD : BlockDevice D} {HL : LawfulDevice D}.

(** ** Loading the tables *)

Lemma Forall2_fst {A B} (R : A -> A * B -> Prop) l : (forall p, R (fst p) p) -> Forall2 R (map fst l) l.
Proof. intros HR. induction l; cbn; by constructor. Qed.

Lemma load_snapshots_spec (f : EuroFs D) l :
  dev_ok (dev f) -> RESERVED_BLOCKS <= block_count (dev f) -> snapshots f = [] -> next_snap_id f = 1 ->
  snaps_on (img f) = l -> Forall (fun s => is_u64 (sn_id s) /\ sn_id s < U64_MAX) l ->
  exists id, load_snapshots f = (Ok tt, set_next_snap_id (set_snapshots f l) id) /\ 1 <= id <= U64_MAX.
Proof.
  intros Hok Hn Hs Hid Hon Hl. unfold load_snapshots.
  rewrite read_block_spec by (try done; unfold SNAPSHOT_TABLE_BLOCK, RESERVED_BLOCKS in *; lia).
  unfold snaps_on in Hon. destruct (decode_snapshots (img f SNAPSHOT_TABLE_BLOCK)) as [l'|]; cbn in Hon; subst l.
  - assert (Hmax : forall a, 0 <= a < U64_MAX -> 0 <= foldl Z.max a (map sn_id l') < U64_MAX).
    { induction Hl as [|s l [Hs1 Hs2] Hl IH]; intros a Ha; cbn; [done|]. apply IH. ulia. }
    specialize (Hmax 0 ltac:(ulia)). unfold add64.
    destruct (Z.leb_spec (foldl Z.max 0 (map sn_id l') + 1) U64_MAX); [|lia].
    eexists. split; [done|lia].
  - exists 1. split; [|ulia]. destruct f. cbn in *. by subst.
Qed.

Lemma load_quota_frame (f : EuroFs D) :
  dev_ok (dev f) -> RESERVED_BLOCKS <= block_count (dev f) -> exists q, load_quota f = (Ok tt, set_quota_limits f q).
Proof.
  intros Hok Hn. unfold load_quota.
  rewrite read_block_spec by (try done; unfold QUOTA_TABLE_BLOCK, RESERVED_BLOCKS in *; lia).
  destruct (decode_quota _); [by eexists|]. exists (quota_limits f). by destruct f.
Qed.

(** ** Rebuilding the usage *)

Lemma data_blocks_len i :
  Forall (fun e => is_u64 (fst e) /\ is_u32 (snd e)) (extents i) -> data_blocks_of i = zlen (extent_blocks (extents i)).
Proof.
  unfold data_blocks_of. induction (extents i) as [|[s c] es IH]; [done|]. intros [[_ Hc] Hes]%Forall_cons.
  unfold extent_blocks in *. cbn [foldr map concat fst snd] in *. rewrite zlen_app, <- IH by done.
  assert (zlen (map (fun k => saturating_add64 s k) (zrange 0 c)) = c) as ->; [|done].
  unfold zlen, zrange. rewrite length_map, length_seqZ. ulia.
Qed.

Definition usage_fits (n : Z) (us : list (Z * Z)) (left : Z) : Prop :=
  forall u, 0 <= default 0 (bt_get us u) /\ default 0 (bt_get us u) + left <= n.

Lemma rebuild_usage_ok (f : EuroFs D) n :
  dev_ok (dev f) -> block_count (dev f) = n -> n <= U64_MAX -> map_ok n (img f) (objmap f) ->
  exists us, rebuild_usage f = (Ok tt, set_usage f us).
Proof.
  intros Hok Hn Hmax Hm. unfold rebuild_usage. unfold sbind at 1. unfold smodify at 1. unfold sbind at 1.
  unfold sget at 1. cbn [set_usage objmap].
  assert (Hstart : usage_fits n [] (zlen (map_blocks (img f) (objmap f)))).
  { intros u. cbn. pose proof (nodup_bound n _ (mo_nodup _ _ _ Hm) (map_ok_area _ _ _ Hm)).
    pose proof (law_count _ Hok). pose proof (zlen_nonneg (map_blocks (img f) (objmap f))). lia. }
  assert (Hsub : objmap f ⊆ objmap f) by done. revert Hstart Hsub. generalize (@nil (Z * Z)) as us.
  generalize (objmap f) at 1 2 4 as es. induction es as [|[o blk] es IH]; intros us Hfit Hsub; cbn [map sfor fst].
  { by exists us. }
  assert (Hin : (o, blk) ∈ objmap f) by (apply Hsub; by left).
  pose proof (mo_objects _ _ _ Hm) as Ho. rewrite Forall_forall in Ho. destruct (Ho _ Hin) as [_ (i & Hi & _) Ha].
  cbn [snd] in Hi. assert (Eb : object_blocks (img f) (o, blk) = blk :: extent_blocks (extents i)).
  { unfold object_blocks, inode_blocks. cbn [snd]. by rewrite Hi. }
  rewrite Eb in Ha. apply Forall_cons in Ha as [Hblk _]. unfold in_area, RESERVED_BLOCKS in Hblk.
  assert (Er : read_inode (set_usage f us) o = Ok i).
  { unfold read_inode. cbn [set_usage objmap]. rewrite (proj2 (bt_get_elem _ _ _ (mo_sorted _ _ _ Hm)) Hin).
    rewrite read_block_spec by (first [exact Hok|cbn [set_usage dev]; lia]). exact Hi. }
  destruct (law_contents (dev f) blk Hok ltac:(lia)) as [Hlen Hby].
  destruct (decode_typed _ _ Hi Hlen Hby) as (_ & _ & _ & _ & _ & _ & _ & _ & _ & Hext & _).
  pose proof (data_blocks_len i Hext) as Ed. pose proof (zlen_nonneg (extent_blocks (extents i))) as Hnn.
  assert (Ez : zlen (map_blocks (img f) ((o, blk) :: es)) =
    1 + zlen (extent_blocks (extents i)) + zlen (map_blocks (img f) es)).
  { unfold map_blocks. cbn [map concat]. rewrite Eb, zlen_app, zlen_cons. lia. }
  rewrite Ez in Hfit. assert (Hsub' : es ⊆ objmap f) by (intros x Hx; apply Hsub; by right).
  assert (Hstep : exists us', usage_add (uid i) (data_blocks_of i) (set_usage f us) = (Ok tt, set_usage f us') /\
    usage_fits n us' (zlen (map_blocks (img f) es))).
  { unfold usage_add. destruct (Z.ltb_spec 0 (data_blocks_of i)).
    - unfold sbind at 1. unfold sget at 1. unfold sbind at 1. unfold slift at 1, add64. cbn [set_usage usage].
      pose proof (Hfit (uid i)) as Hu. pose proof (zlen_nonneg (map_blocks (img f) es)).
      destruct (Z.leb_spec (default 0 (bt_get us (uid i)) + data_blocks_of i) U64_MAX); [|lia].
      eexists. split; [done|]. intros u. rewrite bt_get_insert. specialize (Hfit u). case_if; cbn; subst; lia.
    - exists us. split; [done|]. intros u. specialize (Hfit u). lia. }
  destruct Hstep as (us' & Eu & Hfit'). unfold sbind at 1. rewrite Er, Eu. by apply IH.
Qed.
End mount.

Section establish.
Context {HX : Xxh3} {HH : Heap} {HW : WholeBlocks} {D : Type} {HD : BlockDevice D} {HL : LawfulDevice D}.
Implicit Types (f : EuroFs (Traced D)) (ck : checkpoint).

(** The invariant from the state a mount ends in. *)
Lemma inv_intro f ck :
  dev_ok (dev f) -> block_count (dev f) = nblocks f -> RESERVED_BLOCKS <= nblocks f ->
  ck_ok (nblocks f) ck -> holds (nblocks f) ck (disk f) -> both_valid (disk f) ->
  exact_bitmap f ck -> clean f ck -> cache_ok f -> Forall2 same_snap (snapshots f) (ck_snaps ck) ->
  sb_static (sb f) -> checkpoint_id (sb f) = checkpoint_id (ck_sb ck) ->
  tr_pending (dev f) = [] -> (forall b, 0 <= b < nblocks f -> tr_base (dev f) b = disk f b) ->
  is_u64 (now f) -> 2 <= next_oid f <= U64_MAX -> is_u32 (ctx_uid f) -> 1 <= next_snap_id f <= U64_MAX ->
  Forall (fun s => bytes_ok (sn_label s)) (snapshots f) -> Inv f ck.
Proof.
  intros Hok Hn Hsize Hck Hh Hboth Hexact (Hmap & _ & _) Hcache Hsn Hs Hg Hp Hb Hnow Hnext Hctx Hsid Hlab.
  destruct (holds_live _ _ _ Hck Hh) as [Hlive _]. pose proof (ck_ok_area _ _ Hck) as Ha. rewrite Forall_forall in Ha.
  assert (Hmk : Forall (marked (used f)) (ck_blocks ck)).
  { apply Forall_forall. intros b Hin. pose proof (Ha b Hin) as Hr. unfold in_area, RESERVED_BLOCKS in Hr.
    apply Hexact; [lia|by right]. }
  split; try done.
  - intros b Hbr. apply Hexact; [lia|left; lia].
  - rewrite Hmap. apply Hlive.
  - rewrite Hmap. rewrite Forall_forall in Hmk |- *. intros b Hin. apply Hmk.
    rewrite <- (ck_on_blocks _ _ _ Hck Hh). apply elem_of_ck_blocks. left. apply elem_of_state_blocks. by right.
  - by rewrite Hp.
  - intros b Hbr _. auto.
  - intros b Hbr. rewrite Hb by done. apply law_contents; [done|]. by rewrite Hn.
Qed.

(** The end of a mount: a damaged slot is healed. *)
Definition heal_step : FsM (D := Traced D) unit :=
  let! degraded := sgets (fun f => degraded_slots (dev f)) in
  if degraded =? 1 then signore (on_dev heal_slots) else sret tt.

(** What a mount has loaded before it looks at the superblock slots again. *)
Record loaded (d : Traced D) ck (t : Z) f : Prop := mkLoaded {
  ld_dev : dev f = d;
  ld_count : nblocks f = block_count d;
  ld_exact : exact_bitmap f ck;
  ld_clean : clean f ck;
  ld_cache : cache_ok f;
  ld_snaps : snapshots f = map fst (ck_snaps ck);
  ld_sb : sb_static (sb f);
  ld_gen : checkpoint_id (sb f) = checkpoint_id (ck_sb ck);
  ld_free : free_blocks (sb f) = free_count f;
  ld_now : now f = t;
  ld_next : 2 <= next_oid f <= U64_MAX;
  ld_ctx : ctx_uid f = 0;
  ld_sid : 1 <= next_snap_id f <= U64_MAX;
}.

Lemma loaded_frame d ck t f q us o :
  loaded d ck t f -> 2 <= o <= U64_MAX -> loaded d ck t (set_next_oid (set_usage (set_quota_limits f q) us) o).
Proof. intros []. by split. Qed.

Lemma mount_loads (d : Traced D) ck t :
  dev_ok d -> RESERVED_BLOCKS <= block_count d -> ck_ok (block_count d) ck -> holds (block_count d) ck (contents d) ->
  exists f, mount_body (blank_fs d (ck_sb ck) t) = heal_step f /\ loaded d ck t f.
Proof.
  intros Hok Hsize Hck Hh. set (n := block_count d) in *. pose proof (law_count _ Hok) as Hcnt. fold n in Hcnt.
  destruct (holds_live _ _ _ Hck Hh) as [Hlive _]. unfold mount_body.
  set (f0 := blank_fs d (ck_sb ck) t).
  rewrite (sbind_ok _ _ _ _ _ (load_objmap_spec f0 n (ck_map ck) Hok eq_refl Hlive)).
  set (f1 := set_objmap f0 (ck_map ck)).
  destruct (load_snapshots_spec f1 (map fst (ck_snaps ck))) as (id & E1 & Hid); try done; [apply Hh| |].
  { apply Forall_map. eapply Forall_impl; [exact (co_entries _ _ Hck)|]. intros p [[] ?]. by split. }
  rewrite (sbind_ok _ _ _ _ _ E1). set (f2 := set_next_snap_id (set_snapshots f1 _) id).
  assert (Hlen : zlen (used f2) = n) by (apply zlen_zrepeat; lia).
  destruct (rebuild_bitmap_spec f2 (ck_snaps ck)) as (u & c & E2 & Hul & Hcache & Hu); try done.
  { by rewrite Hlen. }
  { apply Forall2_fst. by split. }
  { apply Forall_forall. intros p Hp. by apply (holds_snap _ _ _ p Hck Hh). }
  set (f3 := set_sb (set_extents_cache (set_used f2 u) c) (set_sb_free (ck_sb ck) (free_count (set_used f2 u)))).
  assert (E3 : rebuild_allocator f2 = (Ok tt, f3)).
  { unfold rebuild_allocator, rebuild_allocator_trim. unfold sbind at 1. unfold sget at 1.
    rewrite (sbind_ok _ _ _ _ _ E2). done. }
  rewrite (sbind_ok _ _ _ _ _ E3).
  destruct (load_quota_frame f3) as [q E4]; [done|done|]. rewrite (sbind_ok _ _ _ _ _ E4).
  destruct (rebuild_usage_ok (set_quota_limits f3 q) n) as [us E5]; try done; [unfold BS in *; lia|apply Hlive|].
  rewrite (sbind_ok _ _ _ _ _ E5). unfold sbind at 1. unfold sget at 1.
  pose proof (max_oid_bound _ _ _ (st_map _ _ _ _ _ Hlive)) as Hmx.
  change (objmap (set_usage (set_quota_limits f3 q) us)) with (ck_map ck).
  unfold sbind at 1. unfold slift at 1, add64. destruct (Z.leb_spec (max_oid (ck_map ck) + 1) U64_MAX); [|lia].
  unfold sbind at 1. unfold smodify at 1.
  eexists. split; [done|]. apply loaded_frame; [|lia]. split; try done.
  - change (zlen u = n). by rewrite Hul.
  - intros b Hb. cbn [f3 set_sb set_extents_cache set_used used]. rewrite Hu by done. unfold in_use.
    rewrite <- (ck_on_blocks _ _ _ Hck Hh). unfold ck_blocks, ck_live, pinned.
    cbn [ck_on ck_sb ck_map ck_snaps ck_img]. rewrite elem_of_app. change (img f2) with (contents d). intuition lia.
  - apply sb_static_free; [apply Hck|]. pose proof (free_count_bound (set_used f2 u)) as Hf. cbn [set_used used] in Hf.
    unfold BS in *. ulia.
Qed.

Lemma snaps_on_typed (i : image) :
  bytes_ok (i SNAPSHOT_TABLE_BLOCK) -> Forall (fun s => bytes_ok (sn_label s)) (snaps_on i).
Proof.
  intros Hb. unfold snaps_on, decode_snapshots. case_if; [|constructor]. cbn [default].
  apply Forall_map, Forall_forall. intros k _. by apply parse_snapshot_typed.
Qed.

(** A change of the superblock slots that keeps the superblock in force keeps what
    the disk holds. *)
Lemma holds_slots n ck (i0 i : image) :
  RESERVED_BLOCKS <= n -> ck_ok n ck -> holds n ck i0 -> current i = Some (ck_sb ck) -> copies_agree i ->
  (forall b, 0 <= b < n -> block_like (i b)) -> (forall b, 0 <= b < n -> ~ is_slot b -> i b = i0 b) -> holds n ck i.
Proof.
  intros Hsize Hck Hh I1 I2 I3 I4. split; try done.
  - rewrite <- (ho_snaps _ _ _ Hh). unfold snaps_on. rewrite I4; [done| |];
      unfold SNAPSHOT_TABLE_BLOCK, RESERVED_BLOCKS, is_slot, SUPERBLOCK_BLOCK, SUPERBLOCK_BACKUP_BLOCK in *; lia.
  - intros b Hin. pose proof (ck_ok_area _ _ Hck) as Ha. rewrite Forall_forall in Ha. specialize (Ha b Hin).
    rewrite I4; [by apply Hh| |];
      unfold in_area, RESERVED_BLOCKS, is_slot, SUPERBLOCK_BLOCK, SUPERBLOCK_BACKUP_BLOCK in *; lia.
Qed.

(** What was loaded is a volume on any device that holds the same checkpoint. *)
Lemma loaded_inv (d t2 : Traced D) ck t f :
  RESERVED_BLOCKS <= block_count d -> ck_ok (block_count d) ck -> holds (block_count d) ck (contents d) -> is_u64 t ->
  loaded d ck t f -> dev_ok t2 -> block_count t2 = block_count d -> holds (block_count d) ck (contents t2) ->
  both_valid (contents t2) -> tr_pending t2 = [] -> (forall b, 0 <= b < block_count d -> tr_base t2 b = contents t2 b) ->
  (forall b, in_area (block_count d) b -> contents t2 b = contents d b) -> Inv (set_dev f t2) ck.
Proof.
  intros Hsize Hck Hh Ht [L1 L2 L3 L4 L5 L6 L7 L8 L9 L10 L11 L12 L13] T1 T2 T3 T4 T5 T6 T7. set (n := block_count d) in *.
  assert (Hl8 : Forall (fun s => bytes_ok (sn_label s)) (snapshots f)).
  { rewrite L6, <- (ho_snaps _ _ _ Hh). apply snaps_on_typed.
    destruct (ho_like _ _ _ Hh SNAPSHOT_TABLE_BLOCK) as [_ ?]; [|done]. unfold SNAPSHOT_TABLE_BLOCK, RESERVED_BLOCKS in *. lia. }
  apply inv_intro; unfold nblocks in *;
    cbn [set_dev dev used snapshots sb now next_oid ctx_uid next_snap_id]; rewrite ?L2, ?L10, ?L12; try done.
  - intros o blk e Ho He. destruct (L5 o blk e Ho He) as (i & Hi & Ee). exists i. split; [|done].
    unfold img in *. cbn [set_dev dev]. rewrite T7; [by rewrite L1 in Hi|].
    cbn [set_dev objmap] in Ho. destruct L4 as [L4 _]. rewrite L4 in Ho. destruct (holds_live _ _ _ Hck Hh) as [Hlive _].
    pose proof (map_ok_area _ _ _ (st_map _ _ _ _ _ Hlive)) as Ha. rewrite Forall_forall in Ha. apply Ha.
    apply bt_get_elem in Ho; [|apply Hlive]. apply elem_of_map_blocks. exists (o, blk). split; [done|by left].
  - rewrite L6. by apply Forall2_fst.
Qed.

(** A disk that holds the checkpoint [ck] mounts to it. *)
Lemma mount_sound (d : Traced D) ck t :
  dev_ok d -> RESERVED_BLOCKS <= block_count d -> ck_ok (block_count d) ck -> holds (block_count d) ck (contents d) ->
  tr_pending d = [] -> (forall b, 0 <= b < block_count d -> tr_base d b = contents d b) -> is_u64 t ->
  exists f, mount d t = Ok f /\ Inv f ck /\ clean f ck /\ exact_bitmap f ck /\ nblocks f = block_count d /\
    moments d (dev f) (moment_ok (block_count d) [ck]) /\ free_blocks (sb f) = free_count f /\
    ctx_uid f = 0 /\ now f = t.
Proof.
  intros Hok Hsize Hck Hh Hp Hb Ht. set (n := block_count d) in *.
  assert (H3 : 3 <= block_count d) by (fold n; unfold RESERVED_BLOCKS in *; lia).
  destruct (mount_loads d ck t Hok Hsize Hck Hh) as (f & E & Hld).
  unfold mount. rewrite (law_size d Hok). cbn [negb Z.eqb]. rewrite Z.eqb_refl. cbn [negb].
  rewrite (read_from_spec d Hok H3), (ho_current _ _ _ Hh). cbn [obind]. rewrite E. clear E.
  pose proof (fun t2 => loaded_inv d t2 ck t f Hsize Hck Hh Ht Hld) as Hgo. fold n in Hgo.
  pose proof Hld as [L1 L2 L3 L4 L5 L6 L7 L8 L9 L10 L11 L12 L13]. unfold heal_step.
  rewrite (sbind_gets _ _ _ ((if slot_in (contents d) SUPERBLOCK_BLOCK is Some _ then 0 else 1) +
     (if slot_in (contents d) SUPERBLOCK_BACKUP_BLOCK is Some _ then 0 else 1)))
    by (rewrite L1; by apply degraded_slots_spec).
  pose proof (ho_current _ _ _ Hh) as Hcur. case_if; cbn [returned sret].
  - destruct (heal_slots_sound whole_block d Hok H3 Hp Hb (ho_copies _ _ _ Hh)) as (k & t2 & E2 & Hpost).
    assert (E3 : signore (on_dev heal_slots) f = (Ok tt, set_dev f t2)).
    { unfold signore, on_dev. by rewrite L1, E2. }
    rewrite E3. cbn [returned]. exists (set_dev f t2). split; [done|].
    pose proof Hpost as [Q1 Q2 Q3 Q4 Q5 Q6 Q7 Q8 Q9]. fold n in Q2, Q5, Q6, Q9.
    assert (HI : Inv (set_dev f t2) ck).
    { apply Hgo; try done.
      - apply (holds_slots n ck (contents d)); try done; [by rewrite Q3|].
        intros b Hbr. apply law_contents; [done|]. by rewrite Q2.
      - apply Q8. by rewrite Hcur.
      - intros b Hbr. apply Q5; unfold in_area, is_slot, RESERVED_BLOCKS, SUPERBLOCK_BLOCK, SUPERBLOCK_BACKUP_BLOCK in *; lia. }
    split; [done|]. split; [done|]. split; [done|]. split; [done|]. split; [|done].
    eapply moments_impl; [exact (Q9 _ Hcur)|]. intros mo Hmo i Hs. destruct (Hmo i Hs) as (Hc & Hag & Hlike & Hrest).
    exists ck. split; [by left|]. split; [done|]. apply (holds_slots n ck (contents d)); try done. destruct Hc as [-> | ->]; done.
  - exists f. split; [done|]. assert (Hself : set_dev f d = f) by (rewrite <- L1; by destruct f).
    rewrite <- Hself at 1. split.
    { apply Hgo; try done. unfold current, in_force in Hcur. unfold both_valid.
      destruct (slot_in (contents d) SUPERBLOCK_BLOCK), (slot_in (contents d) SUPERBLOCK_BACKUP_BLOCK); done. }
    split; [done|]. split; [done|]. split; [done|]. split; [rewrite L1; apply moments_refl|done].
Qed.
End establish.
End Mount.
