(* ===== verification/Format.v ===== *)
(** Formatting ([format] of [src/crates/eurofs/src/disk.rs]): on a disk without a
    valid superblock it succeeds and establishes the invariant, with an empty
    root directory as the first checkpoint. *)

From stdpp Require Import gmap.
From S2P Require Import Prelude Bytes Block Crash Checksum Fs Utf8 Path BTree Superblock Layout Typed EuroFs Alloc Cow Objects Rebuild Commit Tables Safety Mount.
Import Block Crash Fs Utf8 BTree Superblock Layout Typed EuroFs Alloc Cow Objects Rebuild Commit Tables Safety Mount.

Module Format.

Section format.
Context {HX : Xxh3} {HH : Heap} {HW : WholeBlocks} {D : Type} {HD : BlockDevice D} {HL : LawfulDevice D}.
Implicit Types (f : EuroFs (Traced D)) (ck : checkpoint).

(** ** The allocator of an empty disk *)

(** A bitmap in which exactly the first [k] blocks are taken. *)
Definition prefix_used (u : list bool) (k : Z) : Prop := forall b, 0 <= b -> marked u b <-> b < k.

Lemma prefix_reserved n : RESERVED_BLOCKS <= n -> prefix_used (mark_range (zrepeat false n) 0 RESERVED_BLOCKS) RESERVED_BLOCKS.
Proof.
  intros Hn b Hb. rewrite marked_range, zlen_zrepeat by (unfold RESERVED_BLOCKS in *; lia).
  assert (~ marked (zrepeat false n) b).
  { unfold marked. destruct (Z.lt_ge_cases b n); [by rewrite at_zrepeat by lia|].
    rewrite at_default; [done|]. rewrite zlen_zrepeat; unfold RESERVED_BLOCKS in *; lia. }
  unfold RESERVED_BLOCKS in *. intuition lia.
Qed.

Lemma alloc_prefix f k :
  prefix_used (used f) k -> 0 <= k < zlen (used f) ->
  exists u, alloc_block f = (Ok k, set_used f u) /\ prefix_used u (k + 1) /\ zlen u = zlen (used f).
Proof.
  intros Hp Hk. pose proof (alloc_block_sound f) as Ha.
  destruct (alloc_block f) as [[i|e| |] f']; try done.
  - destruct Ha as (Hi & Hfree & Hfirst & ->). assert (i = k) as ->.
    { destruct (Hp i ltac:(lia)) as [_ Hpi]. destruct (Z.lt_ge_cases k i); [|destruct (Z.lt_ge_cases i k); [tauto|lia]].
      specialize (Hfirst k ltac:(lia)). apply Hp in Hfirst; lia. }
    eexists. split; [done|]. split; [|apply zlen_upd]. intros b Hb. unfold marked.
    destruct (decide (b = k)) as [->|Hne]; [rewrite at_upd_eq by done; intuition lia|].
    rewrite at_upd_ne by lia. fold (marked (used f) b). specialize (Hp b Hb). rewrite Hp. lia.
  - destruct Ha as (_ & _ & Hall). specialize (Hall k Hk). apply Hp in Hall; lia.
Qed.

Lemma alloc_run_prefix f k count :
  prefix_used (used f) k -> 0 <= k -> 0 < count -> k + count <= zlen (used f) ->
  exists u, alloc_contiguous count f = (Ok k, set_used f u) /\ prefix_used u (k + count) /\ zlen u = zlen (used f).
Proof.
  intros Hp Hk Hc Hle. pose proof (alloc_contiguous_sound f count Hc) as Ha.
  assert (Hrun : free_run (used f) count k).
  { split; [done|]. split; [done|]. intros b Hb Hm. apply Hp in Hm; lia. }
  destruct (alloc_contiguous count f) as [[i|e| |] f']; try done.
  - destruct Ha as ((Hi & Hn & Hfree) & Hfirst & ->). assert (i = k) as ->.
    { destruct (Z.lt_ge_cases k i); [exfalso; by apply (Hfirst k)|]. specialize (Hfree i ltac:(lia)).
      destruct (Z.lt_ge_cases i k); [|lia]. destruct Hfree. apply Hp; lia. }
    eexists. split; [done|]. split; [|apply zlen_mark_range]. intros b Hb.
    rewrite marked_range by lia. specialize (Hp b Hb). rewrite Hp. lia.
  - destruct Ha as (_ & _ & Hno). by destruct (Hno k).
Qed.

(** ** The first checkpoint *)

Definition root_inode (t : Z) : Inode := inode_new ROOT_OID ROOT_OID TYPE_DIR t.

Lemma root_inode_ok t : is_u64 t -> inode_ok (root_inode t).
Proof.
  intros Ht. split; cbn; try done; try constructor; unfold ROOT_OID, TYPE_DIR; try ulia; done.
Qed.

Lemma root_state n (i : image) t :
  18 <= n -> decode (i 16) = Ok (root_inode t) -> i 17 = encode_objmap [(ROOT_OID, 16)] ->
  state_ok n i 17 1 [(ROOT_OID, 16)].
Proof.
  intros Hn Hd Ht. split; unfold RESERVED_BLOCKS in *; try lia.
  - unfold table. cbn [map concat]. change (zrange 0 1) with [0]. cbn [map concat].
    change (17 + 0) with 17. rewrite app_nil_r, Ht.
    apply table_entries_back; [unfold zlen; cbn; ulia|]. constructor; [|constructor]. cbn. unfold ROOT_OID. ulia.
  - assert (Eb : object_blocks i (ROOT_OID, 16) = [16]).
    { unfold object_blocks, inode_blocks. cbn [snd]. rewrite Hd. done. }
    split.
    + apply bt_ok_cons. split; constructor.
    + constructor; [|constructor]. split; [cbn [fst]; unfold ROOT_OID; ulia| | |].
      * exists (root_inode t). done.
      * rewrite Eb. constructor; [|constructor]. unfold in_area, RESERVED_BLOCKS. lia.
      * intros j [= <-]%(eq_trans (eq_sym Hd)). split; [constructor|done].
    + unfold map_blocks. cbn [map concat]. rewrite Eb. apply NoDup_singleton.
Qed.

Lemma new_empty_static n u t :
  is_u64 n -> zlen u = 16 -> bytes_ok u -> is_u64 t -> sb_static (new_empty n u t).
Proof.
  intros Hn Hl Hu Ht. assert (Hty : sb_typed (new_empty n u t)).
  { unfold new_empty. apply sb_typed_set_checksum; [|unfold compute_checksum; apply xxh3_64_u64].
    split; cbn [magic version_major version_minor uuid sb_block_size total_blocks free_blocks reserved_blocks created_at
      last_mounted last_written checkpoint_id checkpoint_block object_map_root extent_tree_root root_dir_oid encryption
      kdf_params wrapped_key checksum padding]; try done;
      try (split; [rewrite zlen_zrepeat; lia|apply bytes_ok_zrepeat]).
    - split; [done|]. unfold EUROFS_MAGIC, bytes_ok. forall_lia.
    - unfold saturating_sub, RESERVED_BLOCKS. ulia. }
  by split.
Qed.

(** The blocks of the first two writes. *)
Lemma format_writes (d : Traced D) t enc :
  dev_ok d -> 18 <= block_count d -> zlen enc = BS -> bytes_ok enc -> decode enc = Ok (root_inode t) ->
  let m := [(ROOT_OID, 16)] in
  exists t1 t2, write_blocks d 16 1 enc = (Ok tt, t1) /\ write_blocks t1 17 1 (encode_objmap m) = (Ok tt, t2) /\
    dev_ok t2 /\ block_count t2 = block_count d /\
    state_ok (block_count d) (contents t2) 17 1 m /\ decode (contents t2 16) = Ok (root_inode t) /\
    forall b, 0 <= b < 16 -> contents t2 b = contents d b.
Proof.
  intros Hok Hn Hl Hb Hdec m.
  destruct (traced_write d 16 enc) as (t1 & E1 & Hok1 & Hn1 & C1 & _); [done|lia|done|done|].
  destruct (traced_write t1 17 (encode_objmap m)) as (t2 & E2 & Hok2 & Hn2 & C2 & _);
    [done|lia|by rewrite zlen_encode_objmap|apply bytes_ok_encode_objmap|].
  exists t1, t2. split; [done|]. split; [done|]. split; [done|]. rewrite Hn1 in Hn2, C2. split; [done|]. split; [|split].
  - apply (root_state _ _ t); [done| |].
    + by rewrite C2, C1 by lia.
    + by rewrite C2 by lia.
  - by rewrite C2, C1 by lia.
  - intros b Hbr. rewrite C2, C1 by lia. by destruct (Z.eqb_spec b 17), (Z.eqb_spec b 16); try lia.
Qed.

(** A state in memory as [format] builds it. *)
Record pristine f : Prop := mkPristine {
  pr_snaps : snapshots f = [];
  pr_cache : extents_cache f = [];
  pr_trim : pending_trim f = [];
  pr_now : is_u64 (now f);
  pr_next : next_oid f = 2;
  pr_sid : next_snap_id f = 1;
  pr_ctx : ctx_uid f = 0;
}.

(** The allocator is rebuilt and nothing is discarded. *)
Lemma first_rebuild f ck :
  pristine f -> dev_ok (dev f) -> block_count (dev f) = nblocks f -> RESERVED_BLOCKS <= nblocks f ->
  ck_ok (nblocks f) ck -> holds (nblocks f) ck (disk f) -> both_valid (disk f) -> ck_snaps ck = [] ->
  sb f = ck_sb ck -> objmap f = ck_map ck ->
  tr_pending (dev f) = [] -> (forall b, 0 <= b < nblocks f -> tr_base (dev f) b = disk f b) ->
  exists f', rebuild_allocator_trim true f = (Ok tt, f') /\ Inv f' ck /\ clean f' ck /\ exact_bitmap f' ck /\
    dev f' = dev f /\ nblocks f' = nblocks f /\ ctx_uid f' = 0 /\ now f' = now f.
Proof.
  intros [R1 R2 R3 R4 R5 R6 R7] Hok Hn Hsize Hck Hh Hboth Hs0 Hsb Hmap Hp Hb.
  destruct (holds_live _ _ _ Hck Hh) as [Hlive _]. unfold nblocks in *.
  destruct (rebuild_bitmap_spec f []) as (u & c & E4 & Hul & Hcache & Hu); try done.
  { intros o blk e _ He. by rewrite R2 in He. }
  { rewrite Hn, Hsb, Hmap. exact Hlive. }
  { rewrite R1. constructor. }
  set (g4 := set_extents_cache (set_used f u) c) in *. set (g5 := set_sb g4 (set_sb_free (sb f) (free_count g4))).
  assert (E5 : exists pt, rebuild_allocator_trim true f = (Ok tt, set_pending_trim g5 pt)).
  { unfold rebuild_allocator_trim. unfold sbind at 1. unfold sget at 1. rewrite (sbind_ok _ _ _ _ _ E4).
    unfold sbind at 1. unfold smodify at 1. unfold trim. unfold sbind at 1. unfold sget at 1.
    change (pending_trim (set_sb g4 (set_sb_free (sb g4) (free_count g4)))) with (pending_trim f). rewrite R3.
    by eexists. }
  destruct E5 as [pt E5]. rewrite E5. exists (set_pending_trim g5 pt). split; [done|].
  assert (Hexact : exact_bitmap (set_pending_trim g5 pt) ck).
  { intros b Hbr. change (used (set_pending_trim g5 pt)) with u. rewrite Hu by done. unfold in_use.
    rewrite <- (ck_on_blocks _ _ _ Hck Hh). unfold ck_blocks, ck_live. cbn [ck_on ck_sb ck_map ck_snaps ck_img].
    rewrite Hs0, Hsb, Hmap. unfold pinned. cbn [map concat]. rewrite app_nil_r, elem_of_nil.
    change (img f) with (disk f). intuition lia. }
  assert (Hclean : clean (set_pending_trim g5 pt) ck).
  { split; [done|]. cbn [set_pending_trim g5 set_sb sb]. by rewrite Hsb. }
  split; [|by rewrite R7 || done].
  pose proof (law_count _ Hok) as Hcnt. rewrite Hn in Hcnt. unfold BS in Hcnt.
  apply inv_intro; unfold nblocks; cbn [set_pending_trim g5 g4 set_sb set_extents_cache set_used dev used snapshots sb now
    next_oid ctx_uid next_snap_id]; rewrite ?Hul, ?R1, ?R5, ?R6, ?R7; try done; try ulia.
  - rewrite Hs0. constructor.
  - apply sb_static_free; [rewrite Hsb; apply Hck|]. pose proof (free_count_bound g4) as Hf.
    change (used g4) with u in Hf. ulia.
  - cbn. by rewrite Hsb.
Qed.

(** The commit that puts the first checkpoint on a disk without one. *)
Lemma first_commit f g n :
  write_objmap f = (Ok (17, 1), g) -> n = block_count (dev g) -> dev_ok (dev g) -> 18 <= n -> zlen (used g) = n ->
  current (contents (dev g)) = None -> decode_snapshots (contents (dev g) SNAPSHOT_TABLE_BLOCK) = None ->
  state_ok n (contents (dev g)) 17 1 (objmap g) -> pristine g -> sb_static (sb g) -> checkpoint_id (sb g) = 1 ->
  exists f' ck, commit f = (Ok tt, f') /\ Inv f' ck /\ clean f' ck /\ exact_bitmap f' ck /\ nblocks f' = n /\
    ck_map ck = objmap g /\ (forall b, in_area n b -> disk f' b = contents (dev g) b) /\ ctx_uid f' = 0 /\ now f' = now g.
Proof.
  intros Ew Hn Hok Hsize Hlen Hcur Hsnap Hst Hpr Hstat Hid.
  pose proof (law_count _ Hok) as Hcnt. rewrite <- Hn in Hcnt. unfold BS in Hcnt.
  unfold commit. rewrite (sbind_ok _ _ _ _ _ Ew). cbv beta iota. unfold sbind at 1. unfold smodify at 1.
  set (g1 := set_sb g (set_sb_map (sb g) 17 1)). unfold sbind at 1. unfold sgets at 1.
  change (checkpoint_id (sb g1)) with (checkpoint_id (sb g)). rewrite Hid.
  change (add64 (E := FsError) 1 1) with (Ok (E := FsError) 2).
  unfold sbind at 1. unfold smodify at 1. unfold sbind at 1. unfold sget at 1.
  set (s := next_sb (sb g1) 17 1 2 (now g1) (free_count g1)). cbn [set_sb sb].
  destruct (next_sb_static (sb g1) 17 1 2 (now g1) (free_count g1)) as [Hss Hsv]; try ulia.
  { pose proof Hstat as [[] ? ? ?]. split; [|done..]. split; try done; ulia. }
  { apply Hpr. }
  { pose proof (free_count_bound g1) as Hf. change (used g1) with (used g) in Hf. ulia. }
  fold s in Hss, Hsv.
  assert (N1 : slot_in (contents (dev g)) SUPERBLOCK_BLOCK = None).
  { unfold current, in_force in Hcur. repeat case_match; done. }
  assert (Hsame : same_validity (contents (dev g))).
  { unfold current, in_force in Hcur. unfold same_validity. repeat case_match; done. }
  destruct (write_to_sound whole_block (dev g) s) as (t3 & E3 & Hpost); try done;
    [lia|apply Hss|by apply copies_agree_none|by rewrite Hcur|].
  assert (Ew3 : on_dev (write_to s) (set_sb g1 s) = (Ok tt, set_sb (set_dev g t3) s)).
  { unfold on_dev. change (dev (set_sb g1 s)) with (dev g). by rewrite E3. }
  rewrite (sbind_ok _ _ _ _ _ Ew3). set (g3 := set_sb (set_dev g t3) s).
  pose proof Hpost as [Q1 Q2 Q3 Q4 Q5 Q6 Q7 Q8 _]. rewrite <- Hn in Q2, Q6.
  assert (Harea : forall b, in_area n b -> contents t3 b = contents (dev g) b).
  { intros b Hb. apply Q6; unfold in_area, is_slot, RESERVED_BLOCKS, SUPERBLOCK_BLOCK, SUPERBLOCK_BACKUP_BLOCK in *; lia. }
  assert (Hst3 : state_ok n (contents t3) 17 1 (objmap g)).
  { eapply state_ok_ext; [|exact Hst]. intros b Hb. apply Harea. apply state_ok_area in Hst.
    rewrite Forall_forall in Hst. auto. }
  set (ck := mkCk s (objmap g) [] (contents t3)).
  assert (En3 : nblocks g3 = n) by exact Hlen.
  destruct (first_rebuild g3 ck) as (f' & E & HI & Hcl & Hex & Hdev & Hnb & Hc & Hnw); rewrite ?En3; try done.
  { by destruct Hpr. }
  { unfold RESERVED_BLOCKS. lia. }
  { split; try done.
    - intros b Hb. apply law_contents; [done|]. change (dev g3) with t3. by rewrite Q2.
    - unfold snaps_on. cbn [ck ck_snaps map]. change (disk g3 SNAPSHOT_TABLE_BLOCK) with (contents t3 SNAPSHOT_TABLE_BLOCK).
      rewrite Q6; [by rewrite Hsnap| |]; unfold SNAPSHOT_TABLE_BLOCK, is_slot, SUPERBLOCK_BLOCK, SUPERBLOCK_BACKUP_BLOCK; lia. }
  { by apply Q5. }
  { intros b Hb. change (dev g3) with t3. by rewrite Q7. }
  rewrite E. exists f', ck. split; [done|]. split; [done|]. split; [done|]. split; [done|]. split; [congruence|].
  split; [done|]. split; [|by split]. intros b Hb. unfold disk. rewrite Hdev. by apply Harea.
Qed.

Lemma format_sound (d : Traced D) u t :
  dev_ok d -> 18 <= block_count d -> current (contents d) = None -> decode_snapshots (contents d SNAPSHOT_TABLE_BLOCK) = None ->
  zlen u = 16 -> bytes_ok u -> is_u64 t ->
  exists f ck, format d u t = Ok f /\ Inv f ck /\ clean f ck /\ exact_bitmap f ck /\ nblocks f = block_count d /\
    ck_map ck = [(ROOT_OID, 16)] /\ decode (disk f 16) = Ok (root_inode t) /\ ctx_uid f = 0 /\ now f = t.
Proof.
  intros Hok Hsize Hcur Hsnap Hul Hub Ht. pose proof (law_count _ Hok) as Hcnt. set (n := block_count d) in *.
  assert (Hn64 : is_u64 n) by (unfold BS in *; ulia).
  unfold format. rewrite (law_size d Hok), Z.eqb_refl. cbn [negb]. unfold format_body.
  set (f0 := blank_fs d (new_empty n u t) t). change (new_empty (block_count d) u t) with (new_empty n u t). fold f0.
  assert (Hl0 : zlen (used f0) = n) by (apply zlen_zrepeat; lia).
  unfold sbind at 1. unfold smodify at 1. rewrite Hl0, Z.min_l by (unfold RESERVED_BLOCKS; lia).
  set (f1 := set_used f0 _). assert (Hl1 : zlen (used f1) = n) by (by rewrite <- Hl0; apply zlen_mark_range).
  destruct (alloc_prefix f1 RESERVED_BLOCKS) as (u2 & E2 & P2 & L2);
    [apply prefix_reserved; unfold RESERVED_BLOCKS; fold n; lia|unfold RESERVED_BLOCKS; lia|].
  rewrite (sbind_ok _ _ _ _ _ E2). unfold RESERVED_BLOCKS in P2. change RESERVED_BLOCKS with 16.
  destruct (encode_decode (root_inode t) (root_inode_ok t Ht)) as (enc & Eenc & Hel & Heb & Hed).
  rewrite (sbind_ok (slift (encode (inode_new ROOT_OID ROOT_OID TYPE_DIR t))) _ _ enc (set_used f1 u2))
    by (unfold slift; f_equal; exact Eenc).
  destruct (format_writes d t enc Hok Hsize Hel Heb Hed) as (t1 & t2 & W1 & W2 & Hok2 & Hn2 & Hst & Hd16 & Hrest).
  fold n in Hn2, Hst. set (m := [(ROOT_OID, 16)]) in *.
  assert (Ew1 : write_block 16 enc (set_used f1 u2) = (Ok tt, set_dev (set_used f1 u2) t1)).
  { unfold write_block, on_dev. change (dev (set_used f1 u2)) with d. by rewrite W1. }
  rewrite (sbind_ok _ _ _ _ _ Ew1). unfold sbind at 1. unfold smodify at 1.
  set (f2 := set_objmap _ _). change (bt_insert [] ROOT_OID 16) with m in f2.
  destruct (alloc_run_prefix f2 17 1) as (u3 & E3 & P3 & L3); [exact P2|lia|lia|change (used f2) with u2; lia|].
  assert (Emap : write_objmap f2 = (Ok (17, 1), set_dev (set_used f2 u3) t2)).
  { unfold write_objmap. unfold sbind at 1. unfold sget at 1. change (objmap_blocks (objmap f2)) with 1.
    rewrite (sbind_ok _ _ _ _ _ E3). change (zrange 0 1) with [0]. cbn [sfor].
    unfold write_block, on_dev, sbind. change (dev (set_used f2 u3)) with t1.
    change (objmap f2) with m. rewrite (slice_whole (encode_objmap m)) by (try done; by rewrite zlen_encode_objmap).
    change (17 + 0) with 17. rewrite W2. done. }
  assert (Hslots : forall b, is_slot b -> contents t2 b = contents d b).
  { intros b Hb. apply Hrest. unfold is_slot, SUPERBLOCK_BLOCK, SUPERBLOCK_BACKUP_BLOCK in Hb. lia. }
  destruct (current_ext (contents t2) (contents d) Hslots) as [Ec _].
  destruct (first_commit f2 (set_dev (set_used f2 u3) t2) n Emap) as (f' & ck & E & HI & Hcl & Hex & Hnb & Hm & Har & Hc & Hnw);
    try done.
  { change (zlen u3 = n). rewrite L3. exact (eq_trans L2 Hl1). }
  { change (dev (set_dev (set_used f2 u3) t2)) with t2. by rewrite Ec. }
  { change (dev (set_dev (set_used f2 u3) t2)) with t2. rewrite Hrest; [done|unfold SNAPSHOT_TABLE_BLOCK; lia]. }
  { by apply new_empty_static. }
  rewrite E. cbn [returned]. exists f', ck. split_and!; try done. rewrite Har; [done|]. unfold in_area, RESERVED_BLOCKS. lia.
Qed.
End format.
End Format.
