(* ===== verification/Integrity.v ===== *)
(** Data integrity of EuroFS: what a read of a live object returns, and what the
    integrity check of [src/crates/eurofs/src/disk.rs] ([scrub]) reports on a
    file system that satisfies the copy-on-write invariant. *)

From stdpp Require Import gmap.
From S2P Require Import Prelude Bytes Block Crash Checksum Fs BTree Superblock Layout EuroFs Alloc Cow Objects Rebuild Commit Safety.
Import Block Crash Fs BTree Superblock Layout EuroFs Alloc Cow Objects Rebuild Commit Safety.

Module Integrity.

Section integrity.
Context {HX : Xxh3} {HH : Heap} {HW : WholeBlocks} {D : Type} {HD : BlockDevice D} {HL : LawfulDevice D}.
Implicit Types (f : EuroFs (Traced D)) (ck : checkpoint).

(** ** Reading an object *)

(** The object [o] is live, with inode [i] and content [data]. *)
Definition object_at f (o : Z) (i : Inode) (data : list Z) : Prop :=
  exists blk, bt_get (objmap f) o = Some blk /\ decode (disk f blk) = Ok i /\ content (disk f) i = data.

Lemma read_inode_at f ck o i data : Inv f ck -> object_at f o i data -> read_inode f o = Ok i.
Proof.
  intros HI (blk & Hg & Hd & _). unfold read_inode. rewrite Hg.
  destruct (live_inode _ f ck o blk HI eq_refl Hg) as (i' & Hi & _ & _ & Ha & _).
  rewrite read_block_spec; [|apply HI|rewrite (i_len _ _ HI); unfold in_area, RESERVED_BLOCKS in Ha; lia].
  done.
Qed.

Lemma object_at_sound f ck o i data :
  Inv f ck -> object_at f o i data -> known (nblocks f) i /\ inode_sound (nblocks f) (disk f) i.
Proof.
  intros HI (blk & Hg & Hd & _). destruct (live_inode _ f ck o blk HI eq_refl Hg) as (i' & Hi & _ & Hk & _).
  rewrite Hd in Hi. injection Hi as <-. split; [done|]. pose proof (i_map _ _ HI) as Hm.
  apply bt_get_elem in Hg; [|apply Hm]. pose proof (mo_objects _ _ _ Hm) as Ho. rewrite Forall_forall in Ho.
  by apply (Ho _ Hg).
Qed.

(** A read returns the content, unless the buffer cannot be allocated. *)
Lemma read_data_at f ck o i data :
  Inv f ck -> object_at f o i data ->
  read_data f i = (if bool_decide (extents i = []) || can_reserve (Layout.size i) then Ok data else Err NoSpace).
Proof.
  intros HI Ho. destruct (object_at_sound _ _ _ _ _ HI Ho) as [Hk [_ Hd]].
  destruct Ho as (blk & Hg & Hdec & Hc). unfold read_data, content in *.
  assert (Hr : Forall (fun b => 0 <= b < block_count (dev f)) (extent_blocks (extents i))).
  { eapply Forall_impl; [apply Hk|]. rewrite (i_len _ _ HI). unfold in_area, RESERVED_BLOCKS. lia. }
  rewrite (read_all_spec f _ (i_dev _ _ HI) Hr). unfold buffer_for.
  assert (Hsum : negb (data_checksum i =? 0) && negb (xxh3_64 data =? data_checksum i) = false).
  { destruct (Z.eqb_spec (data_checksum i) 0); [done|]. rewrite <- Hc, Hd by done. by rewrite Z.eqb_refl. }
  destruct (extents i).
  - cbn. rewrite <- Hc in Hsum |- *. by rewrite Hsum.
  - rewrite bool_decide_eq_false_2 by done. cbn [orb]. destruct (can_reserve _); [|done].
    cbn [obind]. rewrite Hc. by rewrite Hsum.
Qed.

(** ** The integrity check *)

(** Every file of the tree fits in a buffer. *)
Definition readable f : Prop :=
  forall o i data, object_at f o i data -> can_reserve (Layout.size i) = true.

Definition no_errors (r : ScrubReport) : Prop :=
  errors r = 0 /\ superblock_ok r = true /\ bitmap_ok r = true /\ data_unrecoverable r = 0 /\ messages r = [].

(** The reference bitmap has the size of the allocator's, and marks [bs]. *)
Definition refers f (ref : list bool) (bs : list Z) : Prop :=
  zlen ref = nblocks f /\ forall b, 0 <= b -> marked ref b <-> b ∈ bs.

Lemma refers_upd f ref bs b :
  refers f ref bs -> 0 <= b < nblocks f -> refers f (upd ref b true) (bs ++ [b]).
Proof.
  intros [Hl Hr] Hb. split; [by rewrite zlen_upd|]. intros c Hc. unfold marked.
  rewrite elem_of_app, list_elem_of_singleton. destruct (decide (c = b)) as [->|Hne].
  - rewrite at_upd_eq by lia. tauto.
  - rewrite at_upd_ne by lia. rewrite <- Hr by done. unfold marked. tauto.
Qed.

Lemma scrub_blocks_clean f r ref bs cs :
  refers f ref bs -> NoDup (bs ++ cs) -> Forall (marked (used f)) cs -> Forall (fun b => 0 <= b < nblocks f) cs ->
  exists ref', foldl (scrub_block f) (mkScrub r ref) cs = mkScrub r ref' /\ refers f ref' (bs ++ cs).
Proof.
  revert ref bs. induction cs as [|c cs IH]; intros ref bs Hr Hnd Hu Hc.
  { exists ref. by rewrite app_nil_r. }
  apply Forall_cons in Hu as [Hu1 Hu]. apply Forall_cons in Hc as [Hc1 Hc]. cbn [foldl scrub_block].
  destruct (Z.leb_spec (zlen ref) c); [destruct Hr; lia|]. rewrite Hu1.
  assert (at_ false ref c = false) as ->.
  { destruct (at_ false ref c) eqn:E; [|done]. apply Hr in E; [|lia]. apply NoDup_app in Hnd as (_ & Hnd & _).
    exfalso. apply (Hnd c E). by left. }
  change (c :: cs) with ([c] ++ cs) in Hnd |- *. rewrite (app_assoc bs [c] cs) in Hnd |- *. by apply IH; [apply refers_upd| |..].
Qed.

Lemma scrub_extents_clean f o exts r ref bs :
  block_count (dev f) = nblocks f -> nblocks f <= U64_MAX ->
  Forall (fun x : Z * Z => 0 < snd x /\ fst x + snd x <= nblocks f) exts ->
  Forall (fun b => 0 <= b < nblocks f) (extent_blocks exts) -> Forall (marked (used f)) (extent_blocks exts) ->
  refers f ref bs -> NoDup (bs ++ extent_blocks exts) -> no_errors r ->
  exists r' ref', fold_outcome (scrub_extent f o) (mkScrub r ref) exts = Ok (mkScrub r' ref') /\
    no_errors r' /\ objects r' = objects r /\ refers f ref' (bs ++ extent_blocks exts).
Proof.
  intros Hn Hmax Hx. revert r ref bs. induction Hx as [|[phys cnt] exts [Hcnt Hend] Hx IH]; intros r ref bs Ha Hu Hr Hnd Hok.
  { exists r, ref. cbn. by rewrite app_nil_r. }
  cbn [fst snd] in *. unfold extent_blocks in *. cbn [map concat] in *. fold (extent_blocks exts) in *.
  apply Forall_app in Ha as [Ha1 Ha]. apply Forall_app in Hu as [Hu1 Hu].
  pose proof (extent_blocks_one phys cnt ltac:(lia)) as Eb. unfold extent_blocks in Eb. cbn [map concat fst snd] in Eb.
  rewrite app_nil_r in Eb. cbn [fst snd] in *. rewrite Eb in *. rewrite app_assoc in Hnd |- *.
  cbn [fold_outcome scrub_extent fst snd]. unfold add64. destruct (Z.leb_spec (phys + cnt) U64_MAX); [|lia].
  cbn [obind]. destruct (Z.ltb_spec (block_count (dev f)) (phys + cnt)); [lia|].
  destruct (scrub_blocks_clean f (report_blocks cnt r) ref bs (zrange phys (phys + cnt))) as (ref' & -> & Hr'); try done.
  { by apply NoDup_app in Hnd as (Hnd & _ & _). }
  cbn [obind]. destruct (IH (report_blocks cnt r) ref' _ Ha Hu Hr' Hnd Hok) as (r' & ref2 & -> & ? & ? & ?).
  by exists r', ref2.
Qed.

Lemma scrub_object_clean f ck e r ref bs :
  Inv f ck -> readable f -> e ∈ objmap f -> refers f ref bs -> NoDup (bs ++ object_blocks (disk f) e) -> no_errors r ->
  exists r' ref', scrub_object f (mkScrub r ref) e = Ok (mkScrub r' ref') /\ no_errors r' /\
    objects r' = objects r + 1 /\ refers f ref' (bs ++ object_blocks (disk f) e).
Proof.
  intros HI Hread He Hr Hnd Hok. destruct e as [o blk]. pose proof (i_map _ _ HI) as Hm.
  assert (Hget : bt_get (objmap f) o = Some blk) by (apply bt_get_elem; [apply Hm|done]).
  destruct (live_inode _ f ck o blk HI eq_refl Hget) as (i & Hi & _ & Hk & Hblk & Eb).
  assert (Hat : object_at f o i (content (disk f) i)) by by exists blk.
  destruct (object_at_sound _ _ _ _ _ HI Hat) as [_ [Hx _]].
  pose proof (i_map_used _ _ HI) as Hu. rewrite Forall_forall in Hu.
  assert (Hu2 : Forall (marked (used f)) (extent_blocks (extents i))).
  { apply Forall_forall. intros b Hb. apply Hu, elem_of_map_blocks. exists (o, blk). split; [done|]. rewrite Eb. by right. }
  rewrite Eb in Hnd |- *. change (blk :: extent_blocks (extents i)) with ([blk] ++ extent_blocks (extents i)) in Hnd |- *.
  rewrite (app_assoc bs [blk]) in Hnd |- *. unfold in_area, RESERVED_BLOCKS in Hblk.
  pose proof Hr as [Hl _]. cbn [scrub_object fst snd].
  destruct (Z.ltb_spec blk (zlen ref)); [|lia].
  assert (Hr1 : refers f (upd ref blk true) (bs ++ [blk])) by (apply refers_upd; [done|lia]).
  rewrite (read_inode_at _ _ _ _ _ HI Hat).
  assert (Hs : exists r1, scrub_data f o i (report_object r) = Ok r1 /\ no_errors r1 /\ objects r1 = objects r + 1).
  { unfold scrub_data. rewrite (read_data_at _ _ _ _ _ HI Hat), (Hread _ _ _ Hat), orb_true_r. case_if; by eexists. }
  destruct Hs as (r1 & -> & Hok1 & Eo). cbn [obind].
  pose proof (nblocks_u64 _ _ HI) as Hmax.
  destruct (scrub_extents_clean f o (extents i) r1 (upd ref blk true) (bs ++ [blk])) as (r2 & ref2 & -> & H2 & H3 & H4); try done.
  - apply HI.
  - pose proof (inv_size _ _ HI). unfold RESERVED_BLOCKS, BS in *. lia.
  - eapply Forall_impl; [apply Hk|]. unfold in_area, RESERVED_BLOCKS. lia.
  - exists r2, ref2. by rewrite H3.
Qed.

Lemma scrub_objects_clean f ck l r ref bs :
  Inv f ck -> readable f -> l ⊆ objmap f -> refers f ref bs -> NoDup (bs ++ map_blocks (disk f) l) -> no_errors r ->
  exists st, fold_outcome (scrub_object f) (mkScrub r ref) l = Ok st /\ no_errors (report st) /\
    objects (report st) = objects r + zlen l.
Proof.
  intros HI Hread. revert r ref bs. induction l as [|e l IH]; intros r ref bs Hl Hr Hnd Hok.
  { exists (mkScrub r ref). split; [done|]. split; [done|]. cbn. rewrite zlen_nil. lia. }
  unfold map_blocks in Hnd. cbn [map concat] in Hnd. fold (map_blocks (disk f) l) in Hnd. rewrite app_assoc in Hnd.
  cbn [fold_outcome].
  destruct (scrub_object_clean f ck e r ref bs HI Hread) as (r1 & ref1 & -> & Hok1 & Eo & Hr1); try done.
  { apply Hl. by left. }
  { by apply NoDup_app in Hnd as (? & _ & _). }
  cbn [obind]. destruct (IH r1 ref1 _ ltac:(intros x Hx; apply Hl; by right) Hr1 Hnd Hok1) as (st & -> & ? & E).
  exists st. split; [done|]. split; [done|]. rewrite E, Eo, zlen_cons. lia.
Qed.

Lemma scrub_sound f ck :
  Inv f ck -> readable f -> exists r, scrub f = Ok r /\ no_errors r /\ objects r = zlen (objmap f).
Proof.
  intros HI Hread. unfold scrub. pose proof (inv_size _ _ HI) as Hsize. unfold RESERVED_BLOCKS in Hsize.
  rewrite degraded_slots_spec by (try apply HI; rewrite (i_len _ _ HI); lia).
  destruct (i_both _ _ HI) as [Hb1 Hb2]. fold (disk f). destruct (slot_in (disk f) SUPERBLOCK_BLOCK); [|done].
  destruct (slot_in (disk f) SUPERBLOCK_BACKUP_BLOCK); [|done]. change (0 + 0) with 0. cbn [obind Z.eqb].
  destruct (scrub_objects_clean f ck (objmap f) (mkReport 0 0 0 true true 0 0 0 []) (map (fun _ => false) (used f)) [])
    as (st & -> & Hok & Eo); try done.
  - split; [by unfold zlen, nblocks; rewrite length_map|]. intros b Hb. split; [|by intros ?%not_elem_of_nil].
    unfold marked, at_. rewrite nth_lookup, list_lookup_fmap. by destruct (used f !! Z.to_nat b).
  - apply HI.
  - exists (report st). cbn [obind]. split; [done|]. split; [done|]. cbn in Eo. lia.
Qed.
End integrity.
End Integrity.
