(* ===== verification/Recovery.v ===== *)
(** Crash recovery of EuroFS.

    The life of a volume: it is formatted, operations of
    [src/crates/eurofs/src/disk.rs] run on it, and at any moment of any
    operation the power may fail, after which the surviving image is mounted.
    The mount always succeeds and finds a consistent tree; if the interrupted
    operation commits once, it is the tree after it or the one that a failure
    just before it would have left. *)

From stdpp Require Import gmap.
From S2P Require Import Prelude Bytes Block Crash Checksum Fs Utf8 BTree Superblock Layout Typed EuroFs Alloc Cow Objects Rebuild Commit Tables Safety Ops Mount Format Integrity.
Import Block Crash Fs BTree Superblock Layout Typed EuroFs Alloc Cow Objects Rebuild Commit Tables Safety Ops Mount Format Integrity.

Module Recovery.

(** ** Operations *)

Inductive op :=
| WriteFile (p d : list Z)
| RemoveFile (p : list Z)
| CreateDir (p : list Z)
| RemoveDir (p : list Z)
| Rename (old new : list Z)
| CreateSymlink (p t : list Z)
| Chmod (p : list Z) (m : Z)
| Chown (p : list Z) (u : Z)
| SetFlags (p : list Z) (fl : Z)
| QuotaSet (u l : Z)
| RestoreVersion (p : list Z) (k : Z)
| SnapshotCreate (label : list Z) (fl : Z)
| SnapshotDelete (id : Z)
| SnapshotRollback (id : Z)
| Repair
| SetUid (u : Z)
| SetClock (t : Z)
| ReadFile (p : list Z)
| ListDir (p : list Z)
| Metadata (p : list Z)
| ReadLink (p : list Z)
| Versions (p : list Z).

(** The arguments have the types of the source. *)
Definition op_typed (o : op) : Prop :=
  match o with
  | WriteFile p d => bytes_ok p /\ bytes_ok d /\ is_u64 (zlen d)
  | CreateSymlink p t => bytes_ok p /\ bytes_ok t /\ is_u64 (zlen t)
  | CreateDir p | RestoreVersion p _ => bytes_ok p
  | Rename _ new => bytes_ok new
  | Chmod _ m => is_u16 m
  | Chown _ u | SetUid u => is_u32 u
  | SetFlags _ fl => is_u32 fl
  | SnapshotCreate label fl => bytes_ok label /\ is_u32 fl
  | SetClock t => is_u64 t
  | _ => True
  end.

(** The operations that commit at most once.  A write may first commit the
    version it preserves, the snapshot operations also write the table. *)
Definition single_commit (o : op) : bool :=
  match o with
  | WriteFile _ _ | RestoreVersion _ _ | SnapshotCreate _ _ | SnapshotDelete _ => false
  | _ => true
  end.

(** The operations that write the snapshot table. *)
Definition writes_table (o : op) : bool :=
  match o with SnapshotCreate _ _ | SnapshotDelete _ => true | _ => false end.

(** What a power failure does: writes are lost, reordered or torn.  Only while a
    snapshot is created or deleted is the block of the snapshot table not torn. *)
#[local] Instance any_torn : WholeBlocks := fun _ => false.
Definition whole_during (o : op) : WholeBlocks := fun b => writes_table o && (b =? SNAPSHOT_TABLE_BLOCK).
Definition power_during {HX : Xxh3} (o : op) : power := eurofs_power (HW := whole_during o).
Definition tearing {HX : Xxh3} : power := eurofs_power (HW := any_torn).

Section recovery.
Context {HX : Xxh3} {HH : Heap} {HW : WholeBlocks} {D : Type} {HD : BlockDevice D} {HL : LawfulDevice D}.
Implicit Types (f : EuroFs (Traced D)) (ck : checkpoint).

Definition drop_result {A} (m : FsM (D := Traced D) A) : FsM (D := Traced D) unit := let! _ := m in sret tt.

Definition exec (o : op) : FsM (D := Traced D) unit :=
  match o with
  | WriteFile p d => write_file p d
  | RemoveFile p => remove_file p
  | CreateDir p => create_dir p
  | RemoveDir p => remove_dir p
  | Rename old new => rename old new
  | CreateSymlink p t => create_symlink p t
  | Chmod p m => chmod p m
  | Chown p u => chown p u
  | SetFlags p fl => set_flags p fl
  | QuotaSet u l => quota_set u l
  | RestoreVersion p k => restore_version p k
  | SnapshotCreate label fl => drop_result (snapshot_create label fl)
  | SnapshotDelete id => snapshot_delete id
  | SnapshotRollback id => snapshot_rollback id
  | Repair => drop_result repair
  | SetUid u => set_uid_context u
  | SetClock t => set_clock t
  | ReadFile p => drop_result (read_file p)
  | ListDir p => drop_result (list_dir p)
  | Metadata p => drop_result (metadata p)
  | ReadLink p => drop_result (read_link p)
  | Versions p => drop_result (versions p)
  end.

Section steps.
Context (n : Z) {Hn : DiskSize n}.

Lemma drop_result_run {A} (m : FsM (D := Traced D) A) f :
  snd (drop_result m f) = snd (m f) /\ is_ok (fst (drop_result m f)) = is_ok (fst (m f)).
Proof. unfold drop_result, sbind. by destruct (m f) as [[] ?]. Qed.

Lemma atomic_drop b {A} (m : FsM (D := Traced D) A) : atomic n b m -> atomic n b (drop_result m).
Proof.
  intros Hm f ck HI En. destruct (Hm f ck HI En) as (r & f' & E & Hr). pose proof (drop_result_run m f) as [E1 E2].
  rewrite E in E1, E2. cbn [fst snd] in *. exists (fst (drop_result m f)), f'.
  rewrite E2. split; [rewrite <- E1; apply surjective_pairing|done].
Qed.

Lemma settles_drop {A} (m : FsM (D := Traced D) A) : settles n m -> settles n (drop_result m).
Proof.
  intros Hm f ck HI En. destruct (Hm f ck HI En) as (ks & ck' & S1 & Hc). pose proof (drop_result_run m f) as [-> ->].
  by exists ks, ck'.
Qed.

Lemma atomic_memory (m : FsM (D := Traced D) unit) g :
  (forall f, m f = (Ok tt, g f)) -> (forall f ck, Inv f ck -> Inv (g f) ck) ->
  (forall f, dev (g f) = dev f /\ used (g f) = used f /\ objmap (g f) = objmap f /\ sb (g f) = sb f) ->
  atomic n false m.
Proof.
  intros Em Hg He f ck HI En. destruct (He f) as (E1 & E2 & E3 & E4). exists (Ok tt), (g f). split; [apply Em|]. left.
  split; [apply step_memory; [by apply Hg|done|unfold nblocks; by rewrite E2]|].
  intros _. split; [done|]. unfold clean. by rewrite E3, E4.
Qed.

Lemma exec_atomic o : single_commit o = true -> op_typed o -> atomic n false (exec o).
Proof using Hn.
  destruct o; intros Hs Ht; try done; cbn [exec op_typed] in *.
  - by apply atomic_weaken, (atomic_remove_file n).
  - by apply (atomic_create_dir n).
  - by apply atomic_weaken, (atomic_remove_dir n).
  - by apply (atomic_rename n).
  - destruct Ht as (? & ? & ?). by apply atomic_weaken, (atomic_create_symlink n).
  - by apply atomic_weaken, (atomic_chmod n).
  - by apply (atomic_chown n).
  - by apply atomic_weaken, (atomic_set_flags n).
  - apply atomic_quota_set.
  - apply atomic_weaken, atomic_snapshot_rollback.
  - apply atomic_drop, atomic_repair.
  - apply (atomic_memory _ (fun f => set_ctx_uid f u)); [done| |done]. intros f ck HI. by apply inv_ctx.
  - apply (atomic_memory _ (fun f => set_now f t)); [done| |done]. intros f ck HI. by apply inv_now.
  - apply atomic_drop, atomic_quiet, quiet_read_file.
  - apply atomic_drop, atomic_quiet, quiet_list_dir.
  - apply atomic_drop, atomic_quiet, quiet_inode_of.
  - apply atomic_drop, atomic_quiet, quiet_read_link.
  - apply atomic_drop, atomic_quiet, quiet_versions.
Qed.

Lemma exec_tidy o :
  (writes_table o = true -> whole_block SNAPSHOT_TABLE_BLOCK = true) -> op_typed o -> tidy n (exec o).
Proof using Hn.
  intros Hwh Ht. destruct (single_commit o) eqn:Hs; [by eapply atomic_tidy, exec_atomic|].
  apply settles_tidy. destruct o; try done; cbn [exec op_typed] in *.
  - destruct Ht as (? & ? & ?). by apply settles_write_file.
  - by apply settles_restore_version.
  - destruct Ht. apply settles_drop, settles_snapshot_create; auto.
  - apply settles_snapshot_delete; auto.
Qed.
End steps.

(** ** Remounting *)

(** What is read through the tree in memory. *)
Definition tree f : list (Z * outcome FsError Inode * list (list Z)) := view (disk f) (objmap f).

(** The moments at which the power may fail during a run from [f] to [f']. *)
Definition moment_of f f' (mo : moment) : Prop :=
  mo = (tr_base (dev f), tr_pending (dev f)) \/
  exists new, tr_points (dev f') = tr_points (dev f) ++ new /\ mo ∈ new.

(** A mounted volume: the disk holds a checkpoint, and the tree in memory is sound. *)
Definition mounted f : Prop := exists ck, Inv f ck.

(** The tree in memory is the checkpoint on the disk. *)
Definition synced f : Prop := exists ck, Inv f ck /\ clean f ck.

Lemma disk_size_inv f ck : Inv f ck -> DiskSize (nblocks f).
Proof. intros HI. split; [by eapply inv_size|by eapply nblocks_u64]. Qed.

Lemma step_moment f ck ks f' ck' mo :
  Inv f ck -> step f ck ks f' ck' -> moment_of f f' mo -> moment_ok (nblocks f) (ck :: ks) mo.
Proof.
  intros HI [_ _ _ (new & En & Hall)] [->|(new' & En' & Hin)].
  - eapply moment_ok_incl; [|by apply inv_moment]. intros k ->%list_elem_of_singleton. by left.
  - rewrite En in En'. apply app_inv_head in En' as ->. rewrite Forall_forall in Hall. auto.
Qed.

Lemma clean_tree f ck : Inv f ck -> clean f ck -> tree f = view (ck_img ck) (ck_map ck).
Proof.
  intros HI (Em & _). unfold tree. rewrite Em. by apply (holds_live (nblocks f)), HI; apply HI.
Qed.
End recovery.

(** ** What survives a power failure *)

Section remount.
Context {HX : Xxh3} {HH : Heap}.

Definition remount (img : image) (n t : Z) : outcome FsError (EuroFs (Traced ImgDev)) :=
  mount (power_on (mkImg img n)) t.

Lemma remount_holds n k (img : image) t :
  DiskSize n -> ck_ok n k -> holds n k img -> is_u64 t ->
  exists g, remount img n t = Ok g /\ Inv g k /\ clean g k /\ nblocks g = n /\ tree g = view (ck_img k) (ck_map k).
Proof.
  intros [Hmin Hmax] Hk Hh Ht. set (d := power_on (mkImg img n)).
  assert (Hd : dev_ok d).
  { split; [cbn; unfold RESERVED_BLOCKS in *; lia|]. intros b Hb. by apply (ho_like _ _ _ Hh). }
  destruct (mount_sound d k t Hd Hmin Hk Hh eq_refl ltac:(done) Ht) as (g & E & HI & Hc & _ & En & _).
  exists g. split; [exact E|]. split; [done|]. split; [done|]. split; [exact En|]. by apply clean_tree.
Qed.

(** A failure at a safe moment is recovered from. *)
Lemma remount_moment {HW : WholeBlocks} n ks mo (img' : image) t :
  DiskSize n -> moment_ok n ks mo -> survives eurofs_power (fst mo) (snd mo) img' -> is_u64 t ->
  exists k g, k ∈ ks /\ remount img' n t = Ok g /\ Inv g k /\ clean g k /\ nblocks g = n /\
    tree g = view (ck_img k) (ck_map k).
Proof.
  intros Hn Hm Hs Ht. destruct (Hm img' Hs) as (k & Hk & Hok & Hh).
  destruct (remount_holds n k img' t Hn Hok Hh Ht) as (g & ? & ? & ? & ? & ?). by exists k, g.
Qed.

Section device.
Context {D : Type} {HD : BlockDevice D} {HL : LawfulDevice D}.
Implicit Types (f : EuroFs (Traced D)) (ck : checkpoint).


(** What a failure right now would leave. *)
Lemma inv_recovers f ck (img' : image) t :
  Inv f ck -> survives tearing (tr_base (dev f)) (tr_pending (dev f)) img' -> is_u64 t ->
  exists g, remount img' (nblocks f) t = Ok g /\ tree g = view (ck_img ck) (ck_map ck).
Proof.
  intros HI Hs Ht. pose proof (disk_size_inv _ _ HI) as Hn.
  destruct (remount_moment _ _ _ _ t Hn (inv_moment _ _ HI) Hs Ht) as (k & g & Hk & Eg & _ & _ & _ & Ev).
  apply list_elem_of_singleton in Hk as ->. by exists g.
Qed.

Lemma exec_before_or_after f o mo (img0 img' : image) t :
  mounted f -> op_typed o -> single_commit o = true ->
  survives tearing (tr_base (dev f)) (tr_pending (dev f)) img0 ->
  moment_of f (snd (exec o f)) mo -> survives tearing (fst mo) (snd mo) img' -> is_u64 t ->
  exists g0 g, remount img0 (nblocks f) t = Ok g0 /\ remount img' (nblocks f) t = Ok g /\
    (tree g = tree g0 \/ tree g = tree (snd (exec o f))) /\ (synced f -> tree g0 = tree f).
Proof.
  intros (ck & HI) Ho H1 Hs0 Hmo Hs Ht. pose proof (disk_size_inv _ _ HI) as Hn.
  destruct (inv_recovers f ck img0 t HI Hs0 Ht) as (g0 & E0 & V0).
  destruct (exec_atomic (nblocks f) o H1 Ho f ck HI eq_refl) as (r & f' & E & Hr). rewrite E in *. cbn [snd] in *.
  assert (Hsync : synced f -> tree g0 = tree f).
  { intros (ck1 & HI1 & Hc1). destruct (inv_recovers f ck1 img0 t HI1 Hs0 Ht) as (g1 & E1 & V1).
    rewrite E0 in E1. injection E1 as <-. by rewrite V1, (clean_tree _ _ HI1 Hc1). }
  destruct Hr as [[S1 _]|(ck' & S1 & Hc')]; pose proof (step_moment _ _ _ _ _ _ HI S1 Hmo) as Hm;
    destruct (remount_moment _ _ _ _ t Hn Hm Hs Ht) as (k & g & Hk & Eg & _ & _ & _ & Ev); exists g0, g;
    (split; [done|]); (split; [done|]); (split; [|done]).
  - apply list_elem_of_singleton in Hk as ->. left. congruence.
  - apply elem_of_cons in Hk as [->|Hk]; [left; congruence|]. apply list_elem_of_singleton in Hk as ->. right.
    rewrite Ev. symmetry. apply clean_tree; [apply S1|done].
Qed.

Lemma synced_recovers f (img' : image) t :
  synced f -> survives tearing (tr_base (dev f)) (tr_pending (dev f)) img' -> is_u64 t ->
  exists g, remount img' (nblocks f) t = Ok g /\ tree g = tree f.
Proof.
  intros (ck & HI & Hcl) Hs Ht. destruct (inv_recovers f ck img' t HI Hs Ht) as (g & E & Ev). exists g. split; [done|].
  by rewrite Ev, (clean_tree _ _ HI Hcl).
Qed.

(** After an operation, whether it succeeded or not. *)
Lemma exec_inv f ck o : Inv f ck -> op_typed o ->
  exists ck', Inv (snd (exec o f)) ck' /\ nblocks (snd (exec o f)) = nblocks f /\
    (is_ok (fst (exec o f)) = true -> clean f ck -> clean (snd (exec o f)) ck').
Proof.
  intros HI Ho. pose proof (disk_size_inv _ _ HI) as Hn. set (HW := whole_during o).
  assert (Hwh : writes_table o = true -> whole_block SNAPSHOT_TABLE_BLOCK = true) by (by destruct o).
  destruct (exec_tidy (nblocks f) o Hwh Ho f ck HI eq_refl) as (ks & ck' & [S1 _ S3 _] & Hc). exists ck'. auto.
Qed.

Lemma exec_synced f o : synced f -> op_typed o -> is_ok (fst (exec o f)) = true -> synced (snd (exec o f)).
Proof. intros (ck & HI & Hcl) Ho Hok. destruct (exec_inv f ck o HI Ho) as (ck' & HI' & _ & Hc). exists ck'. auto. Qed.

(** Removing a limit succeeds. *)
Lemma quota_unset_succeeds f u :
  synced f -> u <> 0 -> is_ok (fst (exec (QuotaSet u 0) f)) = true.
Proof.
  intros (ck & HI & _) Hu. cbn [exec]. unfold quota_set. destruct (Z.eqb_spec u 0); [done|].
  destruct (save_quota_spec (set_quota_limits f (bt_remove (quota_limits f) u)) ck) as (t & E & _); [by apply inv_quota|].
  unfold sbind, sget, smodify. cbn [Z.eqb]. by rewrite E.
Qed.

End device.

(** ** The life of a volume of [n] blocks *)

Inductive alive (n : Z) : EuroFs (Traced ImgDev) -> Prop :=
| alive_format (img : image) u t f :
    (forall b, 0 <= b < n -> block_like (img b)) -> current img = None ->
    decode_snapshots (img SNAPSHOT_TABLE_BLOCK) = None -> zlen u = 16 -> bytes_ok u -> is_u64 t ->
    format (power_on (mkImg img n)) u t = Ok f -> alive n f
| alive_op f o : alive n f -> op_typed o -> alive n (snd (exec o f))
| alive_failure f o mo (img' : image) t g :
    alive n f -> op_typed o -> moment_of f (snd (exec o f)) mo ->
    survives (power_during o) (fst mo) (snd mo) img' -> is_u64 t -> remount img' n t = Ok g -> alive n g.

Lemma format_img n (img : image) u t :
  18 <= n -> n * BS <= U64_MAX -> (forall b, 0 <= b < n -> block_like (img b)) -> current img = None ->
  decode_snapshots (img SNAPSHOT_TABLE_BLOCK) = None -> zlen u = 16 -> bytes_ok u -> is_u64 t ->
  exists f, format (power_on (mkImg img n)) u t = Ok f /\ synced f /\ nblocks f = n /\
    object_at f ROOT_OID (root_inode t) [] /\ zlen (objmap f) = 1 /\ ctx_uid f = 0 /\ now f = t.
Proof.
  intros Hmin Hmax Hl Hc Hs Hu Hub Ht.
  assert (Hd : dev_ok (power_on (mkImg img n))) by (split; [cbn; lia|done]).
  destruct (format_sound _ u t Hd Hmin Hc Hs Hu Hub Ht) as (f & ck & E & HI & Hcl & _ & En & Hm & Hr & Hctx & Hnow).
  exists f. split; [done|]. split; [by exists ck|]. split; [done|]. destruct Hcl as [Em _]. rewrite Hm in Em.
  rewrite Em. split; [|done]. exists 16. by rewrite Em.
Qed.

Lemma fresh_volume n (img : image) u t :
  18 <= n -> n * BS <= U64_MAX -> (forall b, 0 <= b < n -> block_like (img b)) -> current img = None ->
  decode_snapshots (img SNAPSHOT_TABLE_BLOCK) = None -> zlen u = 16 -> bytes_ok u -> is_u64 t ->
  exists f, alive n f /\ synced f /\ nblocks f = n.
Proof.
  intros. destruct (format_img n img u t) as (f & E & ? & ? & _); try done. exists f. split; [by eapply alive_format|done].
Qed.

End remount.

(** ** The properties *)

Section properties.
Context {HX : Xxh3} {HH : Heap}.


(** C2 Operations are atomic: if the power fails at any moment of an operation
    that commits at most once (all but a file write, the restoring of a version,
    and the creation and deletion of a snapshot), any write in flight being lost,
    reordered or torn, the remounted tree is the one that a failure right before
    the operation would have left, or the one after the operation.  On a
    synchronised volume (one on which every operation since the mount succeeded)
    the former is the tree before the operation. *)
Theorem operation_before_or_after `{LawfulDevice D} (f : EuroFs (Traced D)) o mo (img0 img' : image) t :
  mounted f -> op_typed o -> single_commit o = true ->
  survives tearing (tr_base (dev f)) (tr_pending (dev f)) img0 ->
  moment_of f (snd (exec o f)) mo -> survives tearing (fst mo) (snd mo) img' -> is_u64 t ->
  exists g0 g, remount img0 (nblocks f) t = Ok g0 /\ remount img' (nblocks f) t = Ok g /\
    (tree g = tree g0 \/ tree g = tree (snd (exec o f))) /\ (synced f -> tree g0 = tree f).
Proof. apply exec_before_or_after. Qed.

(** C3 Completed operations are durable: when an operation on a synchronised
    volume returns success, the volume is synchronised again, and whatever a
    power failure does to the writes in flight, the remounted tree is the tree
    the operation left in memory. *)
Theorem completed_operation_durable `{LawfulDevice D} (f : EuroFs (Traced D)) o (img' : image) t :
  synced f -> op_typed o -> is_ok (fst (exec o f)) = true ->
  survives tearing (tr_base (dev (snd (exec o f)))) (tr_pending (dev (snd (exec o f)))) img' -> is_u64 t ->
  synced (snd (exec o f)) /\
  exists g, remount img' (nblocks (snd (exec o f))) t = Ok g /\ tree g = tree (snd (exec o f)).
Proof.
  intros Hs Ho Hok Hsv Ht. pose proof (exec_synced f o Hs Ho Hok) as Hs'. split; [done|]. by apply synced_recovers.
Qed.

(** C5 Formatting: a device without a superblock and without a snapshot table is
    formatted successfully to a synchronised volume that holds the empty root
    directory and nothing else, and whose bitmap marks exactly the reserved
    blocks and the blocks in use. *)
Theorem format_creates_volume `{LawfulDevice D} (d : Traced D) u t :
  dev_ok d -> 18 <= block_count d -> current (contents d) = None ->
  decode_snapshots (contents d SNAPSHOT_TABLE_BLOCK) = None -> zlen u = 16 -> bytes_ok u -> is_u64 t ->
  exists f ck, format d u t = Ok f /\ Inv f ck /\ clean f ck /\ exact_bitmap f ck /\
    map fst (objmap f) = [ROOT_OID] /\ read_dir_entries f ROOT_OID = Ok [].
Proof.
  intros Hd Hmin Hc Hs Hu Hub Ht.
  destruct (format_sound d u t Hd Hmin Hc Hs Hu Hub Ht) as (f & ck & E & HI & Hcl & Hex & _ & Hm & Hr & _).
  exists f, ck. pose proof Hcl as [Em Hroots]. rewrite Hm in Em. do 4 (split; [done|]). split; [by rewrite Em|].
  assert (Hat : object_at f ROOT_OID (root_inode t) []) by (exists 16; by rewrite Em).
  unfold read_dir_entries. rewrite (read_inode_at _ _ _ _ _ HI Hat). cbn [obind root_inode inode_new otype].
  change (TYPE_DIR =? TYPE_DIR) with true. cbn [negb]. by rewrite (read_data_at _ _ _ _ _ HI Hat).
Qed.

(** C4 The commit: on success the tree in memory is the checkpoint on the disk, its
    content unchanged, its generation incremented, and the bitmap marks exactly
    the reserved blocks and those reachable from the checkpoint and its
    snapshots, as the superblock's free count says; the only error is [NoSpace],
    which changes nothing; it panics only when the generation counter is
    exhausted. *)
Theorem commit_correct `{LawfulDevice D} (f : EuroFs (Traced D)) ck :
  Inv f ck ->
  match commit f with
  | (Ok _, f') => exists ck', Inv f' ck' /\ clean f' ck' /\ exact_bitmap f' ck' /\ tree f' = tree f /\
      checkpoint_id (sb f') = checkpoint_id (sb f) + 1 /\ free_blocks (sb f') = free_count f'
  | (Err e, f') => e = NoSpace /\ f' = f
  | (Panic, f') => checkpoint_id (sb f) = U64_MAX /\ Inv f' ck
  | (OutOfFuel, _) => False
  end.
Proof.
  intros HI. destruct (commit_spec f ck HI) as (r & f' & -> & Hr). destruct r as [[]|e| |]; [|done|by destruct Hr as [? []]|done].
  destruct Hr as (ck' & S1 & (t & u & c & s & pt & -> & Hm & Hsn & Hg & Hcl & Hex & Hfree & Hag)).
  exists ck'. split; [apply S1|]. do 2 (split; [done|]). split; [|done]. by apply view_ext.
Qed.
End properties.

(** ** Witnesses: a fresh volume of 64 blocks *)

Section witness.
#[local] Existing Instance demo_xxh3.

Definition demo_heap : Heap := {|
  can_reserve n := n <=? 9223372036854775807;
  can_reserve_max n := fun Hn => proj2 (Z.leb_gt n 9223372036854775807) Hn
|}.
#[local] Existing Instance demo_heap.

Definition zero_img : image := fun _ => zrepeat 0 BS.

Definition demo_uuid : list Z := zrepeat 7 16.

Lemma zero_img_like b : block_like (zero_img b).
Proof. split; [by apply zlen_zrepeat|apply bytes_ok_zrepeat]. Qed.

Lemma zero_img_blank : current zero_img = None /\ decode_snapshots (zero_img SNAPSHOT_TABLE_BLOCK) = None.
Proof. split; by vm_compute. Qed.

Lemma demo_uuid_ok : zlen demo_uuid = 16 /\ bytes_ok demo_uuid.
Proof. split; [by vm_compute|apply Forall_replicate; ulia]. Qed.

Lemma demo_volume : exists f, alive 64 f /\ synced f /\ nblocks f = 64.
Proof.
  destruct zero_img_blank as [Hc Hs]. destruct demo_uuid_ok as [Hu Hub].
  apply (fresh_volume 64 zero_img demo_uuid 5 ltac:(lia) ltac:(by vm_compute) (fun b _ => zero_img_like b) Hc Hs Hu Hub).
  ulia.
Qed.

Lemma survives_lost_all pw img evs : survives pw img evs img.
Proof. induction evs; constructor; done. Qed.

(** ["/a"] *)
Definition demo_op : op := CreateDir [47; 97].

Lemma demo_op_typed : op_typed demo_op.
Proof. cbn. unfold bytes_ok. forall_lia. Qed.


Lemma operation_before_or_after_witness :
  exists f img' g, synced f /\ moment_of f (snd (exec demo_op f)) (img', tr_pending (dev f)) /\
    remount img' 64 9 = Ok g /\ (tree g = tree f \/ tree g = tree (snd (exec demo_op f))).
Proof.
  destruct demo_volume as (f & _ & Hs & En). exists f, (tr_base (dev f)).
  destruct (operation_before_or_after f demo_op (tr_base (dev f), tr_pending (dev f)) (tr_base (dev f)) (tr_base (dev f)) 9)
    as (g0 & g & _ & Eg & Hg & Hb);
    [destruct Hs as (ck & HI & _); exists ck; exact HI|apply demo_op_typed|reflexivity|apply survives_lost_all|by left|apply survives_lost_all|ulia|].
  exists g. split; [exact Hs|]. split; [by left|]. rewrite <- En. split; [exact Eg|]. rewrite (Hb Hs) in Hg. exact Hg.
Defined.

Lemma completed_operation_durable_witness :
  exists f img' g, synced f /\ synced (snd (exec (QuotaSet 1000 0) f)) /\
    remount img' (nblocks (snd (exec (QuotaSet 1000 0) f))) 9 = Ok g /\ tree g = tree (snd (exec (QuotaSet 1000 0) f)).
Proof.
  destruct demo_volume as (f & _ & Hs & _). exists f, (tr_base (dev (snd (exec (QuotaSet 1000 0) f)))).
  destruct (completed_operation_durable f (QuotaSet 1000 0) (tr_base (dev (snd (exec (QuotaSet 1000 0) f)))) 9)
    as (Hs' & g & Eg & Hg); [exact Hs|exact I|by apply quota_unset_succeeds|apply survives_lost_all|ulia|].
  exists g. split; [exact Hs|]. split; [exact Hs'|]. split; [exact Eg|exact Hg].
Defined.

Lemma format_creates_volume_witness :
  exists f, format (power_on (mkImg zero_img 64)) demo_uuid 5 = Ok f /\ read_dir_entries f ROOT_OID = Ok [].
Proof.
  destruct zero_img_blank as [Hc Hs]. destruct demo_uuid_ok as [Hu Hub].
  destruct (format_creates_volume (power_on (mkImg zero_img 64)) demo_uuid 5) as (f & ck & E & _ & _ & _ & _ & R);
    [|apply Z.leb_le; reflexivity|exact Hc|exact Hs|exact Hu|exact Hub|ulia|exists f; exact (conj E R)].
  split; [split; [cbn; lia|by vm_compute]|intros b _; apply zero_img_like].
Defined.

Lemma commit_correct_witness :
  exists f : EuroFs (Traced ImgDev), synced f /\ forall e f', commit f = (Err e, f') -> e = NoSpace /\ f' = f.
Proof.
  destruct demo_volume as (f & _ & Hs & _). exists f. split; [exact Hs|]. destruct Hs as (ck & HI & _). intros e f' E.
  pose proof (commit_correct f ck HI) as Hc. rewrite E in Hc. exact Hc.
Defined.
End witness.

(** ** The snapshot table *)

(** The table is written in place and has no checksum.  A write of a seventh snapshot
    of which the disk only stores the first sector leaves a table that is read back
    with seven snapshots, the last of which has no object map. *)
Definition demo_snap (k : Z) : SnapshotEntry := mkSnap k 4 5 20 1 4 0 [97].
Definition torn_table : list Z :=
  take 512 (encode_snapshots (map demo_snap (zrange 1 8))) ++ drop 512 (encode_snapshots (map demo_snap (zrange 1 7))).

Lemma demo_snap_labels a b : Forall (fun s => bytes_ok (sn_label s)) (map demo_snap (zrange a b)).
Proof. apply Forall_map, Forall_true. intros k. cbn. unfold bytes_ok. forall_lia. Qed.

Lemma torn_snapshot_table `{Xxh3} :
  torn tearing (encode_snapshots (map demo_snap (zrange 1 7))) (encode_snapshots (map demo_snap (zrange 1 8))) torn_table /\
  decode_snapshots torn_table = Some (map demo_snap (zrange 1 7) ++ [mkSnap 7 4 5 0 0 0 0 []]).
Proof.
  destruct (encode_snapshots_like _ (demo_snap_labels 1 7)) as [_ B1]. destruct (encode_snapshots_like _ (demo_snap_labels 1 8)) as [_ B2].
  split; [split|by vm_compute].
  - split; [by vm_compute|]. unfold bytes_ok, torn_table in *. apply Forall_app. split; [by apply Forall_take|by apply Forall_drop].
  - intros _. right. by vm_compute.
Qed.
End Recovery.
