(* ===== verification/Bits.v ===== *)
(** Bit streams of EuroFlate ([BitWriter] of [src/crates/euroflate/src/deflate.rs],
    [BitReader] of [src/crates/euroflate/src/inflate.rs]): the writer and the
    reader on machine words, and their meaning as lists of bits, least
    significant bit first. *)

From S2P Require Import Prelude Bytes.

Module Bits.

Inductive InflateError := UnexpectedEof | BadBlockType | BadStoredLen | BadCode | BadDistance | TooLarge.

(** ** The writer *)

Record BitWriter := mkW {
  out : list Z;
  wbits : Z;
  wnbits : Z;
}.

Definition w_new : BitWriter := mkW [] 0 0.

(** One turn of [while self.nbits >= 8]. *)
Definition drain (w : BitWriter) : BitWriter :=
  mkW (out w ++ [Z.land (wbits w) 255]) (Z.shiftr (wbits w) 8) (wnbits w - 8).

Definition write (value n : Z) (w : BitWriter) : BitWriter :=
  let mask := if n =? 0 then 0 else Z.shiftl 1 n - 1 in
  let bits := Z.lor (wbits w) (Z.shiftl (Z.land value mask) (wnbits w) mod 2 ^ 32) in
  let nbits := wnbits w + n in
  Nat.iter (Z.to_nat (nbits / 8)) drain (mkW (out w) bits nbits).

(** The bits of a Huffman code in reverse. *)
Definition reversed (code n : Z) : Z :=
  foldl (fun rev i => Z.lor rev (Z.shiftl (Z.land (Z.shiftr code i) 1) (n - 1 - i))) 0 (zrange 0 n).

Definition write_code (code n : Z) (w : BitWriter) : BitWriter := write (reversed code n) n w.

Definition finish (w : BitWriter) : list Z :=
  if 0 <? wnbits w then out w ++ [Z.land (wbits w) 255] else out w.

(** ** The reader *)

Record BitReader := mkR {
  rdata : list Z;
  pos : Z;
  rbits : Z;
  rnbits : Z;
}.

Definition r_new (data : list Z) : BitReader := mkR data 0 0 0.

(** [while self.nbits < n]; every turn adds eight bits, so [n] turns are enough. *)
Fixpoint need_loop (fuel : nat) (n : Z) (r : BitReader) : outcome InflateError unit * BitReader :=
  if n <=? rnbits r then (Ok tt, r)
  else match fuel with
  | O => (OutOfFuel, r)
  | S k =>
      match rdata r !! Z.to_nat (pos r) with
      | None => (Err UnexpectedEof, r)
      | Some b => need_loop k n (mkR (rdata r) (pos r + 1) (Z.lor (rbits r) (Z.shiftl b (rnbits r) mod 2 ^ 32)) (rnbits r + 8))
      end
  end.

Definition need (n : Z) : ST BitReader InflateError unit := need_loop (Z.to_nat n) n.

(** [self.bits >>= n; self.nbits -= n] *)
Definition consume (n : Z) (r : BitReader) : BitReader := mkR (rdata r) (pos r) (Z.shiftr (rbits r) n) (rnbits r - n).

Definition bits (n : Z) : ST BitReader InflateError Z :=
  if n =? 0 then sret 0
  else
    let! _ := need n in
    let! v := sget (fun r => Z.land (rbits r) (Z.shiftl 1 n - 1)) in
    let! _ := smodify (consume n) in
    sret v.

Definition align (r : BitReader) : BitReader := consume (rnbits r mod 8) r.

(** ** Lists of bits *)

Fixpoint bits_of (n : nat) (v : Z) : list bool :=
  match n with
  | O => []
  | S k => Z.odd v :: bits_of k (Z.div2 v)
  end.

Fixpoint val_of (l : list bool) : Z :=
  match l with
  | [] => 0
  | b :: l' => Z.b2z b + 2 * val_of l'
  end.

Definition bits_n (n v : Z) : list bool := bits_of (Z.to_nat n) v.

Definition bytes_bits (l : list Z) : list bool := concat (map (bits_n 8) l).

(** What a writer has produced, and what a reader has still to give. *)
Definition wstream (w : BitWriter) : list bool := bytes_bits (out w) ++ bits_n (wnbits w) (wbits w).
Definition rstream (r : BitReader) : list bool := bits_n (rnbits r) (rbits r) ++ bytes_bits (drop (Z.to_nat (pos r)) (rdata r)).

Lemma length_bits_of n v : length (bits_of n v) = n.
Proof. revert v. induction n as [|n IH]; intros v; cbn; [done|]. by rewrite IH. Qed.

Lemma length_bits_n n v : 0 <= n -> zlen (bits_n n v) = n.
Proof. intros. unfold bits_n, zlen. rewrite length_bits_of. lia. Qed.

Lemma bits_of_app n m v : bits_of (n + m) v = bits_of n v ++ bits_of m (v / 2 ^ Z.of_nat n).
Proof.
  revert v. induction n as [|n IH]; intros v; cbn [Nat.add bits_of app]; [by rewrite Z.pow_0_r, Z.div_1_r|].
  f_equal. rewrite IH. do 2 f_equal. rewrite Z.div2_div, Z.div_div by lia. f_equal. rewrite Nat2Z.inj_succ, Z.pow_succ_r by lia. lia.
Qed.

Lemma bits_of_mod n v : bits_of n (v mod 2 ^ Z.of_nat n) = bits_of n v.
Proof.
  revert v. induction n as [|n IH]; intros v; [done|]. cbn [bits_of].
  assert (E : v mod 2 ^ Z.of_nat (S n) = Z.b2z (Z.odd v) + 2 * (Z.div2 v mod 2 ^ Z.of_nat n)).
  { rewrite Nat2Z.inj_succ, Z.pow_succ_r by lia. rewrite Z.rem_mul_r by lia. rewrite Z.div2_div.
    rewrite Zmod_odd. by destruct (Z.odd v). }
  rewrite E. f_equal.
  - rewrite Z.odd_add, Z.odd_mul. by destruct (Z.odd v).
  - rewrite <- (IH (Z.div2 v)). f_equal. rewrite Z.div2_div. rewrite Z.mul_comm, Z.div_add by lia.
    rewrite (Z.div_small (Z.b2z _)) by (destruct (Z.odd v); cbn; lia). lia.
Qed.

Lemma val_bits_of n v : 0 <= v < 2 ^ Z.of_nat n -> val_of (bits_of n v) = v.
Proof.
  revert v. induction n as [|n IH]; intros v Hv; [cbn in *; lia|]. cbn [bits_of val_of].
  rewrite Nat2Z.inj_succ, Z.pow_succ_r in Hv by lia. rewrite IH.
  - rewrite (Z.div2_odd v) at 3. by destruct (Z.odd v); cbn; lia.
  - rewrite Z.div2_div. split; [apply Z.div_pos; lia|apply Z.div_lt_upper_bound; lia].
Qed.

Lemma val_of_bound l : 0 <= val_of l < 2 ^ zlen l.
Proof.
  induction l as [|b l IH]; [done|]. rewrite zlen_cons, Z.pow_add_r by (try lia; apply zlen_nonneg). cbn [val_of].
  destruct b; cbn; lia.
Qed.

Lemma bits_val_of l : bits_of (length l) (val_of l) = l.
Proof.
  induction l as [|b l IH]; [done|]. cbn [length bits_of val_of]. f_equal.
  - rewrite Z.odd_add, Z.odd_mul. by destruct b.
  - etransitivity; [|exact IH]. f_equal. rewrite Z.div2_div. replace (Z.b2z b + 2 * val_of l) with (Z.b2z b + val_of l * 2) by lia.
    rewrite Z.div_add, Z.div_small by (try destruct b; cbn; lia). done.
Qed.

Lemma bits_n_add n m v : 0 <= n -> 0 <= m -> bits_n (n + m) v = bits_n n v ++ bits_n m (v / 2 ^ n).
Proof. intros. unfold bits_n. rewrite Z2Nat.inj_add by lia. rewrite bits_of_app, Z2Nat.id by lia. done. Qed.

Lemma bits_n_mod n v : 0 <= n -> bits_n n (v mod 2 ^ n) = bits_n n v.
Proof. intros. unfold bits_n. rewrite <- (bits_of_mod _ v), Z2Nat.id by lia. done. Qed.

Lemma bits_n_inj n v w : 0 <= n -> 0 <= v < 2 ^ n -> 0 <= w < 2 ^ n -> bits_n n v = bits_n n w -> v = w.
Proof.
  intros Hn Hv Hw E. apply (f_equal val_of) in E. unfold bits_n in E.
  rewrite !val_bits_of in E by (rewrite Z2Nat.id; lia). done.
Qed.

Lemma bytes_bits_app a b : bytes_bits (a ++ b) = bytes_bits a ++ bytes_bits b.
Proof. unfold bytes_bits. by rewrite map_app, concat_app. Qed.

Lemma zlen_bytes_bits l : zlen (bytes_bits l) = 8 * zlen l.
Proof.
  induction l as [|b l IH]; [done|]. change (bytes_bits (b :: l)) with (bits_n 8 b ++ bytes_bits l).
  rewrite zlen_app, length_bits_n, IH, zlen_cons by lia. lia.
Qed.

(** ** Words *)

Lemma land_ones_mod v n : 0 <= n -> Z.land v (Z.shiftl 1 n - 1) = v mod 2 ^ n.
Proof. intros. rewrite Z.shiftl_1_l, Z.sub_1_r, <- Z.ones_equiv. by apply Z.land_ones. Qed.

Lemma land_255 v : Z.land v 255 = v mod 2 ^ 8.
Proof. apply (land_ones_mod v 8). lia. Qed.

Lemma pow2_le_32 k : 0 <= k <= 32 -> 0 < 2 ^ k <= 2 ^ 32.
Proof. intros. split; [lia|]. apply Z.pow_le_mono_r; lia. Qed.

(** ** The writer *)

Record w_ok (w : BitWriter) : Prop := mkWOk {
  wo_n : 0 <= wnbits w < 8;
  wo_bits : 0 <= wbits w < 2 ^ wnbits w;
  wo_out : bytes_ok (out w);
}.

Lemma w_ok_new : w_ok w_new.
Proof. split; cbn; [lia|lia|constructor]. Qed.

Lemma drain_stream w :
  0 <= wbits w -> 8 <= wnbits w -> wstream (drain w) = wstream w.
Proof.
  intros Hb Hn. unfold wstream, drain. cbn [out wbits wnbits]. rewrite bytes_bits_app, <- app_assoc. f_equal.
  unfold bytes_bits. cbn [map concat]. rewrite app_nil_r, land_255, bits_n_mod, Z.shiftr_div_pow2 by lia.
  rewrite <- bits_n_add by lia. f_equal. lia.
Qed.

Lemma drain_iter k w r :
  0 <= wbits w < 2 ^ wnbits w -> wnbits w = 8 * Z.of_nat k + r -> 0 <= r < 8 -> bytes_ok (out w) ->
  wstream (Nat.iter k drain w) = wstream w /\ w_ok (Nat.iter k drain w).
Proof.
  revert w. induction k as [|k IH]; intros w Hb Hn Hr Ho.
  { change (Nat.iter 0 drain w) with w. split; [done|]. split; [lia|done|done]. }
  rewrite Nat.iter_succ_r. assert (He : 0 <= wbits (drain w) < 2 ^ wnbits (drain w)).
  { cbn. rewrite Z.shiftr_div_pow2 by lia. split; [apply Z.div_pos; lia|]. apply Z.div_lt_upper_bound; [lia|].
    rewrite <- Z.pow_add_r by lia. replace (8 + (wnbits w - 8)) with (wnbits w) by lia. lia. }
  destruct (IH (drain w) He) as [H1 H2]; [cbn [wnbits drain]; lia|lia| |].
  - cbn. apply bytes_ok_app; [done|]. constructor; [|constructor]. rewrite land_255.
    pose proof (Z.mod_pos_bound (wbits w) (2 ^ 8)). ulia.
  - split; [|done]. rewrite H1. apply drain_stream; lia.
Qed.

Lemma write_ok v n w :
  w_ok w -> 0 <= n <= 16 -> w_ok (write v n w) /\ wstream (write v n w) = wstream w ++ bits_n n v.
Proof.
  intros [Hn Hb Ho] Hv. unfold write.
  assert (Em : Z.land v (if n =? 0 then 0 else Z.shiftl 1 n - 1) = v mod 2 ^ n).
  { destruct (Z.eqb_spec n 0) as [->|]; [by rewrite Z.land_0_r, Z.pow_0_r, Z.mod_1_r|apply land_ones_mod; lia]. }
  rewrite Em. pose proof (Z.mod_pos_bound v (2 ^ n) ltac:(lia)) as Hm.
  assert (Hs : Z.shiftl (v mod 2 ^ n) (wnbits w) = (v mod 2 ^ n) * 2 ^ wnbits w) by (by rewrite Z.shiftl_mul_pow2 by lia).
  assert (Hp : 2 ^ n * 2 ^ wnbits w = 2 ^ (n + wnbits w)) by (by rewrite Z.pow_add_r by lia).
  pose proof (pow2_le_32 (n + wnbits w) ltac:(lia)). rewrite (Z.mod_small (Z.shiftl _ _)) by (rewrite Hs; nia).
  rewrite lor_shift by lia. set (b := wbits w + _).
  assert (Hbb : 0 <= b < 2 ^ (wnbits w + n)) by (unfold b; rewrite Z.pow_add_r by lia; nia).
  destruct (drain_iter (Z.to_nat ((wnbits w + n) / 8)) (mkW (out w) b (wnbits w + n)) ((wnbits w + n) mod 8)) as [H1 H2];
    cbn [wbits wnbits out]; [done| |apply Z.mod_pos_bound; lia|done|].
  { rewrite Z2Nat.id by (apply Z.div_pos; lia). apply Z.div_mod. lia. }
  split; [done|]. rewrite H1. unfold wstream. cbn [out wbits wnbits]. rewrite <- app_assoc. f_equal.
  rewrite bits_n_add by lia. f_equal.
  - rewrite <- bits_n_mod by lia. f_equal. unfold b. rewrite Z.mod_add, Z.mod_small by lia. done.
  - rewrite <- (bits_n_mod n v) by lia. f_equal. unfold b. rewrite Z.div_add, Z.div_small by lia. done.
Qed.

Lemma testbit_reversed code n j :
  0 <= n -> 0 <= j < n -> Z.testbit (reversed code n) j = Z.testbit code (n - 1 - j).
Proof.
  intros Hn Hj. unfold reversed.
  assert (H : forall l acc, Forall (fun i => 0 <= i < n) l ->
    Z.testbit (foldl (fun rev i => Z.lor rev (Z.shiftl (Z.land (Z.shiftr code i) 1) (n - 1 - i))) acc l) j =
    Z.testbit acc j || existsb (fun i => (i =? n - 1 - j) && Z.testbit code i) l).
  { induction l as [|i l IH]; intros acc Hl; cbn [foldl existsb]; [by rewrite orb_false_r|].
    apply Forall_cons in Hl as [Hi Hl]. rewrite IH by done. rewrite Z.lor_spec, <- orb_assoc. do 2 f_equal.
    rewrite Z.shiftl_spec by lia. rewrite Z.land_spec. destruct (Z.eqb_spec i (n - 1 - j)) as [->|Hne].
    - replace (j - (n - 1 - (n - 1 - j))) with 0 by lia. rewrite Z.shiftr_spec by lia. cbn. by rewrite andb_true_r.
    - cbn [andb]. destruct (Z.lt_ge_cases (j - (n - 1 - i)) 0).
      + by rewrite (Z.testbit_neg_r 1) by lia; rewrite andb_false_r.
      + change 1 with (2 ^ 0). rewrite Z.pow2_bits_false by lia. by rewrite andb_false_r. }
  rewrite H by (apply Forall_forall; intros i Hi; by apply elem_of_zrange). rewrite Z.bits_0. cbn [orb].
  destruct (Z.testbit code (n - 1 - j)) eqn:E.
  - apply existsb_exists. exists (n - 1 - j). split; [apply list_elem_of_In, elem_of_zrange; lia|]. by rewrite Z.eqb_refl, E.
  - apply not_true_iff_false. intros (i & Hi & [He%Z.eqb_eq Ht]%andb_true_iff)%existsb_exists. subst i. congruence.
Qed.

Lemma lookup_bits_of n v i : bits_of n v !! i = if decide (i < n)%nat then Some (Z.testbit v (Z.of_nat i)) else None.
Proof.
  revert v i. induction n as [|n IH]; intros v i; cbn [bits_of]; [case_decide; [lia|done]|].
  destruct i as [|i]; cbn; [by rewrite <- Z.bit0_odd|]. rewrite IH. repeat case_decide; try lia; [|done].
  f_equal. rewrite Z.div2_spec, Z.shiftr_spec by lia. f_equal. lia.
Qed.

(** A code is written most significant bit first. *)
Lemma bits_reversed code n : 0 <= n -> bits_n n (reversed code n) = reverse (bits_n n code).
Proof.
  intros Hn. unfold bits_n. apply list_eq. intros i. rewrite lookup_bits_of. case_decide as Hi.
  - rewrite reverse_lookup, length_bits_of by (rewrite length_bits_of; lia). rewrite lookup_bits_of, decide_True by lia.
    f_equal. rewrite testbit_reversed by lia. f_equal. lia.
  - symmetry. apply lookup_ge_None. rewrite length_reverse, length_bits_of. lia.
Qed.

Lemma write_code_ok code n w :
  w_ok w -> 0 <= n <= 16 -> w_ok (write_code code n w) /\ wstream (write_code code n w) = wstream w ++ reverse (bits_n n code).
Proof. intros Hw Hn. unfold write_code. destruct (write_ok (reversed code n) n w Hw Hn) as [H1 H2]. rewrite <- bits_reversed by lia. done. Qed.

(** Closing the stream pads it with zero bits to a whole byte. *)
Lemma finish_ok w :
  w_ok w -> bytes_ok (finish w) /\ exists k, bytes_bits (finish w) = wstream w ++ replicate k false.
Proof.
  intros [Hn Hb Ho]. unfold finish. destruct (Z.ltb_spec 0 (wnbits w)) as [H0|H0].
  - split.
    + apply bytes_ok_app; [done|]. constructor; [|constructor]. rewrite land_255.
      pose proof (Z.mod_pos_bound (wbits w) (2 ^ 8)). ulia.
    + exists (Z.to_nat (8 - wnbits w)). unfold wstream. rewrite bytes_bits_app, <- app_assoc. f_equal.
      unfold bytes_bits. cbn [map concat]. rewrite app_nil_r, land_255, bits_n_mod by lia.
      replace 8 with (wnbits w + (8 - wnbits w)) at 1 by lia. rewrite bits_n_add by lia. f_equal.
      rewrite Z.div_small by lia. unfold bits_n. generalize (Z.to_nat (8 - wnbits w)). intros k.
      induction k as [|k IH]; [done|]. cbn. by rewrite IH.
  - split; [done|]. exists 0%nat. unfold wstream. assert (wnbits w = 0) as -> by lia. cbn. by rewrite !app_nil_r.
Qed.

(** ** The reader *)

Record r_ok (r : BitReader) : Prop := mkROk {
  ro_n : 0 <= rnbits r < 24;
  ro_bits : 0 <= rbits r < 2 ^ rnbits r;
  ro_pos : 0 <= pos r;
  ro_data : bytes_ok (rdata r);
}.

Lemma r_ok_new d : bytes_ok d -> r_ok (r_new d) /\ rstream (r_new d) = bytes_bits d.
Proof. intros Hd. split; [split; cbn; lia || done|]. done. Qed.

Lemma need_loop_ok fuel n r res r' :
  r_ok r -> n <= 16 -> n - rnbits r <= Z.of_nat fuel -> need_loop fuel n r = (res, r') ->
  r_ok r' /\ rstream r' = rstream r /\ rdata r' = rdata r /\
  match res with
  | Ok _ => n <= rnbits r'
  | Err UnexpectedEof => zlen (rstream r) < n
  | _ => False
  end.
Proof.
  revert r. induction fuel as [|k IH]; intros r Hr Hn Hf E; cbn [need_loop] in E.
  - destruct (Z.leb_spec n (rnbits r)); [injection E as <- <-; done|lia].
  - destruct (Z.leb_spec n (rnbits r)) as [Hle|Hlt]; [injection E as <- <-; done|].
    destruct Hr as [Hrn Hrb Hrp Hrd]. destruct (rdata r !! Z.to_nat (pos r)) as [b|] eqn:Eb.
    + pose proof (Forall_lookup_1 _ _ _ _ Hrd Eb) as Hb. cbn beta in Hb.
      assert (Hp : 2 ^ rnbits r * 2 ^ 8 = 2 ^ (rnbits r + 8)) by (rewrite Z.pow_add_r; lia).
      pose proof (pow2_le_32 (rnbits r + 8) ltac:(lia)).
      assert (Ew : Z.lor (rbits r) (Z.shiftl b (rnbits r) mod 2 ^ 32) = rbits r + b * 2 ^ rnbits r).
      { rewrite Z.mod_small by (rewrite Z.shiftl_mul_pow2 by lia; ulia || (unfold is_u8, U8_MAX in Hb; nia)).
        apply lor_shift; ulia. }
      rewrite Ew in E. set (r1 := mkR _ _ _ _) in E.
      assert (Hr1 : r_ok r1).
      { split; cbn [r1 rnbits rbits pos rdata]; [lia|unfold is_u8, U8_MAX in Hb; nia|lia|done]. }
      assert (Es : rstream r1 = rstream r).
      { unfold rstream. cbn [r1 rnbits rbits pos rdata]. rewrite bits_n_add by lia. rewrite <- app_assoc. f_equal.
        - rewrite <- bits_n_mod, Z.mod_add, Z.mod_small by lia. done.
        - rewrite Z.div_add, Z.div_small by lia. replace (Z.to_nat (pos r + 1)) with (S (Z.to_nat (pos r))) by lia.
          rewrite (drop_S _ _ _ Eb). done. }
      destruct (IH r1 Hr1 Hn) as (H1 & H2 & H3 & H4); [cbn; lia|exact E|]. rewrite Es in *. done.
    + injection E as <- <-. split; [done|]. split; [done|]. split; [done|].
      apply lookup_ge_None in Eb. unfold rstream. rewrite drop_ge by lia. cbn. rewrite app_nil_r, length_bits_n by lia. lia.
Qed.

Lemma need_ok n r res r' :
  r_ok r -> n <= 16 -> need n r = (res, r') ->
  r_ok r' /\ rstream r' = rstream r /\ rdata r' = rdata r /\
  match res with
  | Ok _ => n <= rnbits r'
  | Err UnexpectedEof => zlen (rstream r) < n
  | _ => False
  end.
Proof. intros Hr Hn E. eapply need_loop_ok; [done|done| |exact E]. pose proof (ro_n _ Hr). lia. Qed.

Lemma consume_ok n r :
  r_ok r -> 0 <= n <= rnbits r ->
  r_ok (consume n r) /\ rstream r = bits_n n (rbits r) ++ rstream (consume n r) /\ rdata (consume n r) = rdata r.
Proof.
  intros [Hrn Hrb Hrp Hrd] Hn. unfold consume. split; [|split; [|done]].
  - split; cbn [rnbits rbits pos rdata]; [lia| |done|done]. rewrite Z.shiftr_div_pow2 by lia.
    split; [apply Z.div_pos; lia|]. apply Z.div_lt_upper_bound; [lia|]. rewrite <- Z.pow_add_r by lia.
    replace (n + (rnbits r - n)) with (rnbits r) by lia. lia.
  - unfold rstream. cbn [rnbits rbits pos rdata]. rewrite app_assoc. f_equal. rewrite Z.shiftr_div_pow2, <- bits_n_add by lia.
    f_equal. lia.
Qed.

(** Reading [n] bits: the value they stand for, or the end of the input. *)
Lemma bits_ok n r res r' :
  r_ok r -> 0 <= n <= 16 -> bits n r = (res, r') ->
  r_ok r' /\ rdata r' = rdata r /\
  match res with
  | Ok v => 0 <= v < 2 ^ n /\ rstream r = bits_n n v ++ rstream r'
  | Err UnexpectedEof => zlen (rstream r) < n
  | _ => False
  end.
Proof.
  intros Hr Hn E. unfold bits in E. destruct (Z.eqb_spec n 0) as [->|Hn0].
  { injection E as <- <-. split; [done|]. split; [done|]. cbn. split; [lia|done]. }
  destruct (need n r) as [q r1] eqn:En. destruct (need_ok n r q r1 Hr ltac:(lia) En) as (H1 & H2 & H3 & H4).
  rewrite (sbind_run _ _ _ _ _ En) in E. destruct q as [[]|e| |]; try done.
  - injection E as <- <-. destruct (consume_ok n r1 H1 ltac:(lia)) as (K1 & K2 & K3). split; [done|]. split; [congruence|].
    rewrite land_ones_mod by lia. split; [apply Z.mod_pos_bound; lia|]. rewrite <- H2, bits_n_mod by lia. done.
  - injection E as <- <-. destruct e; try done. 
Qed.

Lemma bits_run n v rest r :
  r_ok r -> 0 <= n <= 16 -> 0 <= v < 2 ^ n -> rstream r = bits_n n v ++ rest ->
  exists r', bits n r = (Ok v, r') /\ r_ok r' /\ rdata r' = rdata r /\ rstream r' = rest.
Proof.
  intros Hr Hn Hv Hs. destruct (bits n r) as [res r'] eqn:E. destruct (bits_ok n r res r' Hr Hn E) as (H1 & H2 & H3).
  assert (Hlen : zlen (rstream r) >= n) by (rewrite Hs, zlen_app, length_bits_n by lia; pose proof (zlen_nonneg rest); lia).
  destruct res as [w|[]| |]; try done; try lia. destruct H3 as [Hw H3]. exists r'.
  rewrite Hs in H3. apply app_inj_1 in H3 as [E1 E2]; [|unfold bits_n; by rewrite !length_bits_of].
  apply bits_n_inj in E1 as <-; [|lia..]. done.
Qed.
End Bits.
