(* ===== verification/Inflate.v ===== *)
(** INFLATE ([src/crates/euroflate/src/inflate.rs]): canonical Huffman decoding with
    a fast table, stored, fixed and dynamic blocks.  The theorem of this file is
    that decoding returns, with a result or an error, on every input. *)

From S2P Require Import Prelude Bytes Bits.

Module Inflate.
Import Bits.

Definition MAX_OUTPUT : Z := 67108864. (* 64 * 1024 * 1024 *)
Definition MAX_BITS : Z := 15.
Definition FAST_BITS : Z := 9.

Record Huffman := mkHuffman {
  fast : list Z;
  counts : list Z;
  symbols : list Z;
  max_len : Z;
}.

(** ** Building a decoder *)

(** [counts[l as usize] += 1] over the lengths; an index past the array panics. *)
Definition count_lengths (lengths : list Z) : outcome InflateError (list Z) :=
  foldl (fun acc l =>
    let? c := acc in
    if MAX_BITS <? l then Panic else Ok (upd c l (at_ 0 c l + 1)))
    (Ok (zrepeat 0 (MAX_BITS + 1))) lengths.

Definition max_length (lengths : list Z) : Z := foldl Z.max 0 lengths.

(** [for i in 1..=MAX_BITS { offsets[i + 1] = offsets[i] + counts[i] }] *)
Definition first_offsets (c : list Z) : list Z :=
  foldl (fun o i => upd o (i + 1) (at_ 0 o i + at_ 0 c i)) (zrepeat 0 (MAX_BITS + 2)) (zrange 1 (MAX_BITS + 1)).

(** One symbol placed at its offset. *)
Definition place_symbol (acc : outcome InflateError (list Z * list Z)) (x : Z * Z) : outcome InflateError (list Z * list Z) :=
  let? (o, s) := acc in
  let '(sym, l) := x in
  if l =? 0 then Ok (o, s)
  else if zlen s <=? at_ 0 o l then Panic
  else Ok (upd o l (at_ 0 o l + 1), upd s (at_ 0 o l) sym).

Definition place_symbols (lengths o : list Z) : outcome InflateError (list Z) :=
  let? (_, s) := foldl place_symbol (Ok (o, zrepeat 0 (zlen lengths))) (zip (zrange 0 (zlen lengths)) lengths) in Ok s.

Definition reverse_bits (v n : Z) : Z :=
  fst (Nat.iter (Z.to_nat n) (fun '(r, v) => (Z.lor (Z.shiftl r 1) (Z.land v 1), Z.shiftr v 1)) (0, v)).

(** [while i < fast_size { fast[i] = entry; i += step }] *)
Definition fill (table : list Z) (entry start step : Z) : list Z :=
  foldl (fun t k => upd t (start + k * step) entry) table (zrange 0 (div_ceil (zlen table - start) step)).

(** The state of the assignment of codes: [fast], [code], [sym_index]. *)
Record assign := mkAssign {
  a_fast : list Z;
  a_code : Z;
  a_index : Z;
}.

Definition assign_one (syms : list Z) (len : Z) (a : assign) : outcome InflateError assign :=
  match syms !! Z.to_nat (a_index a) with
  | None => Panic
  | Some sym =>
      let t := if len <=? FAST_BITS
               then fill (a_fast a) (Z.lor (Z.shiftl sym 4) len) (reverse_bits (a_code a) len) (Z.shiftl 1 len)
               else a_fast a in
      Ok (mkAssign t ((a_code a + 1) mod 2 ^ 32) (a_index a + 1))
  end.

Definition assign_len (c syms : list Z) (acc : outcome InflateError assign) (len : Z) : outcome InflateError assign :=
  let? a := acc in
  let? a := Nat.iter (Z.to_nat (at_ 0 c len)) (fun o => let? a := o in assign_one syms len a) (Ok a) in
  Ok (mkAssign (a_fast a) (Z.shiftl (a_code a) 1 mod 2 ^ 32) (a_index a)).

Definition huffman_new (lengths : list Z) : outcome InflateError Huffman :=
  let? c := count_lengths lengths in
  let c := upd c 0 0 in
  let? s := place_symbols lengths (first_offsets c) in
  let? a := foldl (assign_len c s) (Ok (mkAssign (zrepeat 0 (Z.shiftl 1 FAST_BITS)) 0 0)) (zrange 1 (MAX_BITS + 1)) in
  Ok (mkHuffman (a_fast a) c s (max_length lengths)).

(** ** Decoding a symbol *)

(** The slow path: bit by bit through the canonical code. *)
Fixpoint slow (h : Huffman) (lens : list Z) (code first index : Z) : ST BitReader InflateError Z :=
  match lens with
  | [] => sthrow BadCode
  | len :: lens' =>
      let! b := bits 1 in
      let code := Z.lor code b in
      let count := at_ 0 (counts h) len in
      if code <? first + count then
        if code <? first then slift Panic
        else match symbols h !! Z.to_nat (index + (code - first)) with
             | Some s => sret s
             | None => slift Panic
             end
      else slow h lens' (Z.shiftl code 1) (Z.shiftl (first + count) 1) (index + count)
  end.

(** [br.need(FAST_BITS).or_else(..)]: the end of the input is not yet an error. *)
Definition prefetch : ST BitReader InflateError unit := fun r =>
  match need FAST_BITS r with
  | (Err UnexpectedEof, r') => (Ok tt, r')
  | x => x
  end.

Definition decode (h : Huffman) : ST BitReader InflateError Z :=
  let! _ := prefetch in
  let! n := sget rnbits in
  let! entry := sget (fun r => if FAST_BITS <=? n then at_ 0 (fast h) (Z.land (rbits r) (Z.shiftl 1 FAST_BITS - 1)) else 0) in
  let len := Z.land entry 15 in
  if (FAST_BITS <=? n) && negb (len =? 0) then
    let! _ := smodify (consume len) in
    sret (Z.shiftr entry 4)
  else slow h (zrange 1 (max_len h + 1)) 0 0 0.

(** ** Tables *)

Definition LEN_BASE : list Z :=
  [3; 4; 5; 6; 7; 8; 9; 10; 11; 13; 15; 17; 19; 23; 27; 31; 35; 43; 51; 59; 67; 83; 99; 115; 131; 163; 195; 227; 258].
Definition LEN_EXTRA : list Z :=
  [0; 0; 0; 0; 0; 0; 0; 0; 1; 1; 1; 1; 2; 2; 2; 2; 3; 3; 3; 3; 4; 4; 4; 4; 5; 5; 5; 5; 0].
Definition DIST_BASE : list Z :=
  [1; 2; 3; 4; 5; 7; 9; 13; 17; 25; 33; 49; 65; 97; 129; 193; 257; 385; 513; 769; 1025; 1537; 2049; 3073; 4097; 6145;
   8193; 12289; 16385; 24577].
Definition DIST_EXTRA : list Z :=
  [0; 0; 0; 0; 1; 1; 2; 2; 3; 3; 4; 4; 5; 5; 6; 6; 7; 7; 8; 8; 9; 9; 10; 10; 11; 11; 12; 12; 13; 13].
Definition CLCL_ORDER : list Z := [16; 17; 18; 0; 8; 7; 9; 6; 10; 5; 11; 4; 12; 3; 13; 2; 14; 1; 15].

Definition fixed_litlen_lengths : list Z :=
  map (fun i => if i <=? 143 then 8 else if i <=? 255 then 9 else if i <=? 279 then 7 else 8) (zrange 0 288).

(** [.expect("..")] *)
Definition expect (h : outcome InflateError Huffman) : outcome InflateError Huffman :=
  match h with Err _ => Panic | x => x end.

Definition fixed_litlen : outcome InflateError Huffman := expect (huffman_new fixed_litlen_lengths).
Definition fixed_dist : outcome InflateError Huffman := expect (huffman_new (zrepeat 5 30)).

(** ** Blocks *)

(** [for _ in 0..len { out.push(br.bits(8)? as u8) }] *)
Fixpoint read_bytes (n : nat) (dst : list Z) : ST BitReader InflateError (list Z) :=
  match n with
  | O => sret dst
  | S k => let! b := bits 8 in read_bytes k (dst ++ [b])
  end.

Definition inflate_stored (dst : list Z) : ST BitReader InflateError (list Z) :=
  let! _ := smodify align in
  let! len := bits 16 in
  let! nlen := bits 16 in
  if negb (Z.lxor len 65535 =? nlen) then sthrow BadStoredLen
  else read_bytes (Z.to_nat len) dst.

(** The code-length-code lengths, in their special order. *)
Fixpoint read_cl (order : list Z) (cl : list Z) : ST BitReader InflateError (list Z) :=
  match order with
  | [] => sret cl
  | o :: order' => let! v := bits 3 in read_cl order' (upd cl o v)
  end.

(** The run-length encoded code lengths; every turn appends at least one. *)
Fixpoint read_lens (fuel : nat) (h : Huffman) (total : Z) (lens : list Z) : ST BitReader InflateError (list Z) :=
  if total <=? zlen lens then sret lens
  else match fuel with
  | O => slift OutOfFuel
  | S k =>
      let! sym := decode h in
      if sym <=? 15 then read_lens k h total (lens ++ [sym])
      else if sym =? 16 then
        match last lens with
        | None => sthrow BadCode
        | Some prev => let! n := bits 2 in read_lens k h total (lens ++ zrepeat prev (3 + n))
        end
      else if sym =? 17 then let! n := bits 3 in read_lens k h total (lens ++ zrepeat 0 (3 + n))
      else if sym =? 18 then let! n := bits 7 in read_lens k h total (lens ++ zrepeat 0 (11 + n))
      else sthrow BadCode
  end.

Definition read_dynamic_tables : ST BitReader InflateError (Huffman * Huffman) :=
  let! a := bits 5 in
  let! b := bits 5 in
  let! c := bits 4 in
  let hlit := a + 257 in
  let hdist := b + 1 in
  let hclen := c + 4 in
  let! cl := read_cl (take (Z.to_nat hclen) CLCL_ORDER) (zrepeat 0 19) in
  let! h := slift (huffman_new cl) in
  let total := hlit + hdist in
  let! lens := read_lens (Z.to_nat total) h total [] in
  if negb (zlen lens =? total) then sthrow BadCode
  else
    let! litlen := slift (huffman_new (take (Z.to_nat hlit) lens)) in
    let! dist := slift (huffman_new (drop (Z.to_nat hlit) lens)) in
    sret (litlen, dist).

(** [for i in 0..length { let b = out[start + i]; out.push(b) }] *)
Fixpoint copy_back (n : nat) (start : Z) (dst : list Z) : list Z :=
  match n with
  | O => dst
  | S k => copy_back k (start + 1) (dst ++ [at_ 0 dst start])
  end.

(** A length/distance pair after its length symbol. *)
Definition read_match (dist : Huffman) (sym : Z) (dst : list Z) : ST BitReader InflateError (list Z) :=
  let li := sym - 257 in
  if zlen LEN_BASE <=? li then sthrow BadCode
  else
    let! x := bits (at_ 0 LEN_EXTRA li) in
    let length := at_ 0 LEN_BASE li + x in
    let! dsym := decode dist in
    if zlen DIST_BASE <=? dsym then sthrow BadCode
    else
      let! y := bits (at_ 0 DIST_EXTRA dsym) in
      let distance := at_ 0 DIST_BASE dsym + y in
      if (distance =? 0) || (zlen dst <? distance) then sthrow BadDistance
      else sret (copy_back (Z.to_nat length) (zlen dst - distance) dst).

(** Every turn decodes a symbol, which takes at least one bit. *)
Fixpoint inflate_block (fuel : nat) (litlen dist : Huffman) (dst : list Z) : ST BitReader InflateError (list Z) :=
  match fuel with
  | O => slift OutOfFuel
  | S k =>
      let! sym := decode litlen in
      if sym <=? 255 then inflate_block k litlen dist (dst ++ [sym])
      else if sym =? 256 then sret dst
      else if sym <=? 285 then
        let! dst := read_match dist sym dst in inflate_block k litlen dist dst
      else sthrow BadCode
  end.

(** One block, by its type. *)
Definition inflate_typed (fuel : nat) (btype : Z) (dst : list Z) : ST BitReader InflateError (list Z) :=
  if btype =? 0 then inflate_stored dst
  else if btype =? 1 then
    let! l := slift fixed_litlen in
    let! d := slift fixed_dist in
    inflate_block fuel l d dst
  else if btype =? 2 then
    let! (l, d) := read_dynamic_tables in
    inflate_block fuel l d dst
  else sthrow BadBlockType.

Fixpoint inflate_loop (fuel : nat) (dst : list Z) : ST BitReader InflateError (list Z) :=
  match fuel with
  | O => slift OutOfFuel
  | S k =>
      let! bfinal := bits 1 in
      let! btype := bits 2 in
      let! dst := inflate_typed k btype dst in
      if MAX_OUTPUT <? zlen dst then sthrow TooLarge
      else if bfinal =? 1 then sret dst
      else inflate_loop k dst
  end.

(** Both loops take at least one bit a turn: the number of input bits bounds them. *)
Definition inflate (data : list Z) : outcome InflateError (list Z) :=
  fst (inflate_loop (S (Z.to_nat (8 * zlen data))) [] (r_new data)).

(** ** Counting code lengths *)

(** How often length [k] occurs, and how many symbols have a length from 1 below [k]. *)
Definition cnt (k : Z) (l : list Z) : Z := zlen (filter (fun x => x = k) l).
Definition below (k : Z) (l : list Z) : Z := zlen (filter (fun x => 1 <= x < k) l).

Definition lengths_ok (l : list Z) : Prop := Forall (fun x => 0 <= x <= MAX_BITS) l.

Lemma cnt_app k a b : cnt k (a ++ b) = cnt k a + cnt k b.
Proof. unfold cnt. by rewrite filter_app, zlen_app. Qed.

Lemma cnt_single k x : cnt k [x] = if x =? k then 1 else 0.
Proof. unfold cnt. rewrite filter_cons, filter_nil. destruct (Z.eqb_spec x k); [by rewrite decide_True|by rewrite decide_False]. Qed.

Lemma cnt_nonneg k l : 0 <= cnt k l.
Proof. apply zlen_nonneg. Qed.

Lemma below_succ k l : 1 <= k -> below (k + 1) l = below k l + cnt k l.
Proof.
  intros Hk. unfold below, cnt. induction l as [|x l IH]; [done|]. rewrite !filter_cons.
  repeat case_decide; rewrite ?zlen_cons; lia.
Qed.

Lemma below_1 l : below 1 l = 0.
Proof. unfold below. induction l as [|x l IH]; [done|]. rewrite filter_cons, decide_False by lia. done. Qed.

Lemma below_le k l : below k l <= zlen l.
Proof. unfold below, zlen. pose proof (length_filter (fun x => 1 <= x < k) l). lia. Qed.

Lemma below_nonneg k l : 0 <= below k l.
Proof. apply zlen_nonneg. Qed.

Lemma below_mono k j l : k <= j -> below k l <= below j l.
Proof.
  intros Hk. unfold below. induction l as [|x l IH]; [done|]. rewrite !filter_cons.
  repeat case_decide; rewrite ?zlen_cons; lia.
Qed.

Lemma count_lengths_ok l :
  lengths_ok l ->
  exists c, count_lengths l = Ok c /\ zlen c = MAX_BITS + 1 /\ forall k, 0 <= k <= MAX_BITS -> at_ 0 c k = cnt k l.
Proof.
  intros Hl. unfold count_lengths. set (f := fun acc l => _).
  assert (H : forall q p c, lengths_ok q -> zlen c = MAX_BITS + 1 -> (forall k, 0 <= k <= MAX_BITS -> at_ 0 c k = cnt k p) ->
    exists c', foldl f (Ok c) q = Ok c' /\ zlen c' = MAX_BITS + 1 /\ forall k, 0 <= k <= MAX_BITS -> at_ 0 c' k = cnt k (p ++ q)).
  { induction q as [|x q IH]; intros p c Hq Hc Hk; cbn [foldl]; [exists c; by rewrite app_nil_r|].
    apply Forall_cons in Hq as [Hx Hq]. unfold f at 2. cbn [obind]. destruct (Z.ltb_spec MAX_BITS x); [lia|].
    destruct (IH (p ++ [x]) (upd c x (at_ 0 c x + 1)) Hq) as (c' & E & H1 & H2); [by rewrite zlen_upd| |].
    - intros k Hk'. rewrite cnt_app, cnt_single. destruct (Z.eqb_spec x k) as [->|Hne].
      + rewrite at_upd_eq, Hk by lia. done.
      + rewrite at_upd_ne, Hk by lia. lia.
    - exists c'. rewrite <- app_assoc in H2. done. }
  destruct (H l [] (zrepeat 0 (MAX_BITS + 1)) Hl) as (c & E & H1 & H2); [by apply zlen_zrepeat| |].
  - intros k Hk. rewrite at_zrepeat by lia. done.
  - by exists c.
Qed.

Lemma first_offsets_ok l c :
  zlen c = MAX_BITS + 1 -> (forall k, 1 <= k <= MAX_BITS -> at_ 0 c k = cnt k l) ->
  zlen (first_offsets c) = MAX_BITS + 2 /\ forall k, 1 <= k <= MAX_BITS -> at_ 0 (first_offsets c) k = below k l.
Proof.
  intros Hc Hk. unfold first_offsets. set (f := fun o i => _).
  assert (H : forall n m, 1 + Z.of_nat n = m -> m <= MAX_BITS + 1 ->
    let o := foldl f (zrepeat 0 (MAX_BITS + 2)) (zrange 1 m) in
    zlen o = MAX_BITS + 2 /\ forall k, 1 <= k <= m -> at_ 0 o k = below k l).
  { induction n as [|n IH]; intros m Hm Hb.
    - rewrite zrange_nil by lia. cbn [foldl]. split; [by apply zlen_zrepeat|]. intros k Hk'.
      replace k with 1 by lia. rewrite at_zrepeat by (unfold MAX_BITS; lia). by rewrite below_1.
    - destruct (IH (m - 1)) as [H1 H2]; [lia|lia|]. replace m with (m - 1 + 1) by lia.
      rewrite zrange_snoc, foldl_app by lia. cbn [foldl]. set (o := foldl f _ _) in *. cbn zeta in *. unfold f at 1 2.
      rewrite zlen_upd. split; [done|]. intros k Hk'. destruct (Z.eq_dec k (m - 1 + 1)) as [->|Hne].
      + rewrite at_upd_eq by lia. rewrite H2, Hk, below_succ by lia. done.
      + rewrite at_upd_ne by lia. apply H2. lia. }
  destruct (H (Z.to_nat MAX_BITS) (MAX_BITS + 1)) as [H1 H2]; [done|lia|]. split; [done|]. intros k Hk'. apply H2. lia.
Qed.

Lemma place_symbols_ok l o :
  lengths_ok l -> zlen o = MAX_BITS + 2 -> (forall k, 1 <= k <= MAX_BITS -> at_ 0 o k = below k l) ->
  exists s, place_symbols l o = Ok s /\ zlen s = zlen l /\ Forall (fun x => 0 <= x) s.
Proof.
  intros Hl Ho Hk. unfold place_symbols.
  assert (H : forall q p i o s, l = p ++ q -> 0 <= i -> zlen o = MAX_BITS + 2 -> zlen s = zlen l -> Forall (fun x => 0 <= x) s ->
    (forall k, 1 <= k <= MAX_BITS -> at_ 0 o k = below k l + cnt k p) ->
    exists o' s', foldl place_symbol (Ok (o, s)) (zip (zrange i (i + zlen q)) q) = Ok (o', s') /\
      zlen s' = zlen l /\ Forall (fun x => 0 <= x) s').
  { clear o Ho Hk. induction q as [|x q IH]; intros p i o s El Hi Ho Hs Hf Hk.
    - rewrite zrange_nil by (rewrite zlen_nil; lia). by exists o, s.
    - rewrite zlen_cons, zrange_cons by (pose proof (zlen_nonneg q); lia). cbn [zip zip_with foldl].
      assert (Hx : 0 <= x <= MAX_BITS).
      { unfold lengths_ok in Hl. rewrite El, Forall_app, Forall_cons in Hl. by destruct Hl as (_ & ? & _). }
      replace (i + (1 + zlen q)) with (i + 1 + zlen q) by lia. cbn [place_symbol obind].
      destruct (Z.eqb_spec x 0) as [->|Hx0].
      + apply (IH (p ++ [0])); try done; [by rewrite <- app_assoc|lia|]. intros k Hk'.
        rewrite Hk, cnt_app, cnt_single by done. destruct (Z.eqb_spec 0 k); lia.
      + assert (Hlt : 0 <= at_ 0 o x < zlen s).
        { rewrite Hk, Hs by lia. pose proof (below_nonneg x l). pose proof (cnt_nonneg x p).
          pose proof (below_succ x l ltac:(lia)) as Hb. pose proof (below_le (x + 1) l).
          assert (cnt x l = cnt x p + 1 + cnt x q) by (rewrite El, cnt_app; change (x :: q) with ([x] ++ q);
            rewrite cnt_app, cnt_single, Z.eqb_refl; lia).
          pose proof (cnt_nonneg x q). lia. }
        destruct (Z.leb_spec (zlen s) (at_ 0 o x)); [lia|].
        apply (IH (p ++ [x])); [by rewrite <- app_assoc|lia|by rewrite zlen_upd|by rewrite zlen_upd| |].
        * unfold upd. by apply Forall_insert.
        * intros k Hk'. rewrite cnt_app, cnt_single. destruct (Z.eqb_spec x k) as [->|Hne].
          -- rewrite at_upd_eq, Hk by lia. lia.
          -- rewrite at_upd_ne, Hk by lia. lia. }
  destruct (H l [] 0 o (zrepeat 0 (zlen l))) as (o' & s' & E & H1 & H2); try done.
  - apply zlen_zrepeat, zlen_nonneg.
  - apply Forall_replicate. done.
  - intros k Hk'. rewrite Hk by done. change (cnt k []) with 0. lia.
  - rewrite Z.add_0_l in E. rewrite E. cbn. by exists s'.
Qed.

(** ** Well-formed decoders *)

Definition fast_ok (t : list Z) : Prop :=
  zlen t = Z.shiftl 1 FAST_BITS /\ Forall (fun e => 0 <= e /\ Z.land e 15 <= FAST_BITS) t.

Record hf_ok (h : Huffman) : Prop := mkHf {
  hf_fast : fast_ok (fast h);
  hf_lens : exists l, zlen (symbols h) = zlen l /\ forall k, 1 <= k <= MAX_BITS -> at_ 0 (counts h) k = cnt k l;
  hf_syms : Forall (fun x => 0 <= x) (symbols h);
  hf_max : 0 <= max_len h <= MAX_BITS;
}.

Lemma land_15 v : Z.land v 15 = v mod 16.
Proof. apply (land_ones_mod v 4). lia. Qed.

(** A table entry: the symbol above four bits of length. *)
Lemma entry_value sym len : 0 <= sym -> 0 <= len < 16 -> Z.lor (Z.shiftl sym 4) len = sym * 16 + len.
Proof. intros. rewrite Z.lor_comm. rewrite (lor_shift len sym 4) by lia. lia. Qed.

Lemma entry_len sym len : 0 <= sym -> 0 <= len < 16 -> Z.land (Z.lor (Z.shiftl sym 4) len) 15 = len.
Proof. intros. rewrite entry_value, land_15 by done. rewrite Z.add_comm, Z.mod_add, Z.mod_small by lia. done. Qed.

Lemma fill_ok t e start step : fast_ok t -> 0 <= e /\ Z.land e 15 <= FAST_BITS -> fast_ok (fill t e start step).
Proof.
  intros Ht He. unfold fill. generalize (zrange 0 (div_ceil (zlen t - start) step)). intros ks. revert t Ht.
  induction ks as [|k ks IH]; intros t Ht; [done|]. cbn [foldl]. apply IH. destruct Ht as [H1 H2]. split; [by rewrite zlen_upd|].
  unfold upd. by apply Forall_insert.
Qed.

Lemma assign_one_ok syms len a :
  1 <= len <= MAX_BITS -> fast_ok (a_fast a) -> Forall (fun x => 0 <= x) syms -> 0 <= a_index a < zlen syms ->
  exists a', assign_one syms len a = Ok a' /\ fast_ok (a_fast a') /\ a_index a' = a_index a + 1.
Proof.
  intros Hl Ht Hs Hi. unfold assign_one. destruct (syms !! Z.to_nat (a_index a)) as [sym|] eqn:E.
  - pose proof (Forall_lookup_1 _ _ _ _ Hs E) as Hsym. cbn beta in Hsym. eexists. split; [done|]. split; [|done].
    cbn [a_fast]. destruct (Z.leb_spec len FAST_BITS); [|done]. unfold MAX_BITS in Hl.
    apply fill_ok; [done|]. rewrite entry_len, entry_value by lia. lia.
  - apply lookup_ge_None in E. unfold zlen in Hi. lia.
Qed.

Lemma assign_many syms len n a :
  1 <= len <= MAX_BITS -> fast_ok (a_fast a) -> Forall (fun x => 0 <= x) syms -> 0 <= a_index a ->
  a_index a + Z.of_nat n <= zlen syms ->
  exists a', Nat.iter n (fun o => let? a := o in assign_one syms len a) (Ok a) = Ok a' /\ fast_ok (a_fast a') /\
    a_index a' = a_index a + Z.of_nat n.
Proof.
  intros Hl Ht Hs. revert a Ht. induction n as [|n IH]; intros a Ht Hi Hn; [exists a; split; [done|]; split; [done|lia]|].
  rewrite Nat.iter_succ_r. destruct (assign_one_ok syms len a) as (a1 & E & H1 & H2); [done|done|done|lia|].
  cbn [obind]. rewrite E. destruct (IH a1 H1) as (a' & E' & H3 & H4); [lia|lia|]. exists a'. split; [done|]. split; [done|lia].
Qed.

Lemma huffman_new_ok l : lengths_ok l -> exists h, huffman_new l = Ok h /\ hf_ok h.
Proof.
  intros Hl. unfold huffman_new. destruct (count_lengths_ok l Hl) as (c0 & -> & Hc0 & Hk0). cbn [obind].
  set (c := upd c0 0 0). assert (Hc : zlen c = MAX_BITS + 1) by (unfold c; by rewrite zlen_upd).
  assert (Hk : forall k, 1 <= k <= MAX_BITS -> at_ 0 c k = cnt k l).
  { intros k Hk. unfold c. rewrite at_upd_ne by lia. apply Hk0. lia. }
  destruct (first_offsets_ok l c Hc Hk) as [Ho1 Ho2].
  destruct (place_symbols_ok l (first_offsets c) Hl Ho1 Ho2) as (s & -> & Hs1 & Hs2). cbn [obind].
  assert (Ht0 : fast_ok (zrepeat 0 (Z.shiftl 1 FAST_BITS))).
  { split; [by apply zlen_zrepeat|]. apply Forall_replicate. done. }
  assert (H : forall n m, 1 + Z.of_nat n = m -> m <= MAX_BITS + 1 ->
    exists a, foldl (assign_len c s) (Ok (mkAssign (zrepeat 0 (Z.shiftl 1 FAST_BITS)) 0 0)) (zrange 1 m) = Ok a /\
      fast_ok (a_fast a) /\ a_index a = below m l).
  { induction n as [|n IH]; intros m Hm Hb.
    - rewrite zrange_nil by lia. eexists. split; [done|]. split; [done|]. cbn. replace m with 1 by lia. by rewrite below_1.
    - destruct (IH (m - 1)) as (a & E & H1 & H2); [lia|lia|]. replace m with (m - 1 + 1) by lia.
      rewrite zrange_snoc, foldl_app, E by lia. cbn [foldl assign_len obind]. pose proof (below_nonneg (m - 1) l).
      pose proof (below_succ (m - 1) l ltac:(lia)) as Hb'. pose proof (below_le (m - 1 + 1) l). pose proof (cnt_nonneg (m - 1) l).
      destruct (assign_many s (m - 1) (Z.to_nat (at_ 0 c (m - 1))) a) as (a' & -> & H5 & H6);
        [lia|done|done|lia|rewrite Hk by lia; lia|].
      cbn [obind]. eexists. split; [done|]. cbn [a_fast a_index]. split; [done|]. rewrite H6, Hk by lia. lia. }
  destruct (H (Z.to_nat MAX_BITS) (MAX_BITS + 1)) as (a & -> & H1 & H2); [done|lia|]. cbn [obind].
  eexists. split; [done|]. split; cbn [fast counts symbols max_len]; try done; [by exists l|].
  unfold max_length. assert (Hm : forall acc, 0 <= acc <= MAX_BITS -> 0 <= foldl Z.max acc l <= MAX_BITS).
  { clear -Hl. induction Hl as [|x l Hx _ IH]; intros acc Ha; [done|]. cbn [foldl]. apply IH. lia. }
  apply Hm. unfold MAX_BITS. lia.
Qed.

(** ** Reading returns *)

(** [m] returns from [r]: the reader stays well formed, at least [k] bits are
    consumed by a success with a result satisfying [P], and it neither panics nor
    exhausts a bound. *)
Definition fine_at {A} (k : Z) (P : A -> Prop) (m : ST BitReader InflateError A) (r : BitReader) : Prop :=
  let '(res, r') := m r in
  r_ok r' /\
  match res with
  | Ok a => P a /\ zlen (rstream r') + k <= zlen (rstream r)
  | Err _ => True
  | _ => False
  end.

Definition fine {A} (k : Z) (P : A -> Prop) (m : ST BitReader InflateError A) : Prop := forall r, r_ok r -> fine_at k P m r.

Lemma fine_at_bind {A B} k j (P : A -> Prop) (Q : B -> Prop) m f r :
  fine_at k P m r ->
  (forall a r', P a -> r_ok r' -> zlen (rstream r') + k <= zlen (rstream r) -> fine_at j Q (f a) r') ->
  fine_at (k + j) Q (sbind m f) r.
Proof.
  unfold fine_at, sbind. intros Hm Hf. destruct (m r) as [[a|e| |] r1]; try done.
  destruct Hm as (H1 & H2 & H3). specialize (Hf a r1 H2 H1 H3). destruct (f a r1) as [[b|e| |] r2]; try done.
  destruct Hf as (H4 & H5 & H6). split; [done|]. split; [done|lia].
Qed.

Lemma fine_bind {A B} k j (P : A -> Prop) (Q : B -> Prop) m f :
  fine k P m -> (forall a, P a -> fine j Q (f a)) -> fine (k + j) Q (sbind m f).
Proof. intros Hm Hf r Hr. eapply fine_at_bind; [by apply Hm|]. intros a r' Ha Hr' _. by apply Hf. Qed.

Lemma fine_weaken {A} k j (P Q : A -> Prop) m : fine k P m -> (forall a, P a -> Q a) -> j <= k -> fine j Q m.
Proof.
  intros Hm HQ Hj r Hr. specialize (Hm r Hr). unfold fine_at in *. destruct (m r) as [[a|e| |] r']; try done.
  destruct Hm as (? & ? & ?). split; [done|]. split; [auto|lia].
Qed.

Lemma fine_ret {A} (P : A -> Prop) a : P a -> fine 0 P (sret a).
Proof. intros Ha r Hr. cbn. split; [done|]. split; [done|lia]. Qed.

Lemma fine_throw {A} k (P : A -> Prop) e : fine k P (sthrow e).
Proof. intros r Hr. by cbn. Qed.

Lemma fine_lift {A} (P : A -> Prop) a : P a -> fine 0 P (slift (Ok a)).
Proof. apply fine_ret. Qed.

Lemma fine_bits n : 0 <= n <= 16 -> fine n (fun v => 0 <= v < 2 ^ n) (bits n).
Proof.
  intros Hn r Hr. unfold fine_at. destruct (bits n r) as [res r'] eqn:E.
  destruct (bits_ok n r res r' Hr Hn E) as (H1 & _ & H2). split; [done|]. destruct res as [v|e| |]; try done.
  destruct H2 as [Hv Es]. split; [done|]. rewrite Es, zlen_app, length_bits_n by lia. lia.
Qed.

Lemma fine_consume n : 0 <= n -> forall r, r_ok r -> n <= rnbits r -> fine_at n (fun _ => True) (smodify (consume n)) r.
Proof.
  intros Hn r Hr Hle. cbn. destruct (consume_ok n r Hr ltac:(lia)) as (H1 & H2 & _). split; [done|]. split; [done|].
  rewrite H2, zlen_app, length_bits_n by lia. lia.
Qed.

Lemma lor_bit c b : 0 <= c -> 0 <= b < 2 -> Z.lor (2 * c) b = 2 * c + b.
Proof.
  intros. rewrite Z.lor_comm. replace (2 * c) with (Z.shiftl c 1) at 1 by (rewrite Z.shiftl_mul_pow2; lia).
  rewrite lor_shift by lia. lia.
Qed.

Lemma slow_fine h l len m c first :
  zlen (symbols h) = zlen l -> (forall k, 1 <= k <= MAX_BITS -> at_ 0 (counts h) k = cnt k l) -> Forall (fun x => 0 <= x) (symbols h) ->
  1 <= len -> m <= MAX_BITS + 1 -> 0 <= first <= 2 * c ->
  fine 1 (fun s => 0 <= s) (slow h (zrange len m) (2 * c) first (below len l)).
Proof.
  intros Hs Hk Hf Hlen Hm Hc. remember (Z.to_nat (m - len)) as n eqn:En. revert len c first Hlen Hc En.
  induction n as [|n IH]; intros len c first Hlen Hc En.
  - rewrite zrange_nil by lia. apply fine_throw.
  - rewrite zrange_cons by lia. cbn [slow]. change 1 with (1 + 0) at 1. eapply fine_bind; [by apply fine_bits|].
    intros b Hb. cbn beta in Hb. change (2 ^ 1) with 2 in Hb. rewrite lor_bit by lia.
    rewrite Hk by lia. pose proof (cnt_nonneg len l). pose proof (below_nonneg len l).
    destruct (Z.ltb_spec (2 * c + b) (first + cnt len l)).
    + destruct (Z.ltb_spec (2 * c + b) first); [lia|].
      destruct (symbols h !! Z.to_nat (below len l + (2 * c + b - first))) as [s|] eqn:E.
      * apply fine_ret. apply (Forall_lookup_1 _ _ _ _ Hf E).
      * apply lookup_ge_None in E. pose proof (below_succ len l ltac:(lia)). pose proof (below_le (len + 1) l).
        unfold zlen in Hs at 1. lia.
    + rewrite !Z.shiftl_mul_pow2, Z.pow_1_r by lia. rewrite <- below_succ by lia.
      replace ((2 * c + b) * 2) with (2 * (2 * c + b)) by lia.
      eapply fine_weaken; [apply IH; lia|done|lia].
Qed.

Lemma fine_prefetch : fine 0 (fun _ => True) prefetch.
Proof.
  intros r Hr. unfold fine_at, prefetch. destruct (need FAST_BITS r) as [res r'] eqn:E.
  destruct (need_ok FAST_BITS r res r' Hr ltac:(unfold FAST_BITS; lia) E) as (H1 & H2 & _ & H3).
  destruct res as [[]|[]| |]; try done; split; try done; split; try done; rewrite H2; lia.
Qed.

Lemma decode_fine h : hf_ok h -> fine 1 (fun s => 0 <= s) (decode h).
Proof.
  intros [[Hfl Hfe] (l & Hs & Hk) Hsy Hm]. unfold decode. change 1 with (0 + 1). eapply fine_bind; [apply fine_prefetch|].
  intros _ _ r Hr. unfold fine_at. cbn [sbind sget].
  set (e := if FAST_BITS <=? rnbits r then _ else 0). destruct ((FAST_BITS <=? rnbits r) && negb (Z.land e 15 =? 0)) eqn:E.
  - apply andb_true_iff in E as [E1%Z.leb_le E2%negb_true_iff%Z.eqb_neq].
    assert (He : 0 <= e /\ Z.land e 15 <= FAST_BITS).
    { unfold e. destruct (Z.leb_spec FAST_BITS (rnbits r)); [|lia]. rewrite land_ones_mod by done.
      pose proof (Z.mod_pos_bound (rbits r) (2 ^ FAST_BITS) ltac:(done)) as Hb.
      apply (Forall_lookup_1 _ _ _ _ Hfe (lookup_at 0 (fast h) _ ltac:(rewrite Hfl; exact Hb))). }
    rewrite land_15 in *. pose proof (Z.mod_pos_bound e 16 ltac:(lia)).
    pose proof (fine_consume (e mod 16) ltac:(lia) r Hr ltac:(lia)) as Hc. unfold fine_at in Hc. cbn [smodify sbind sret] in *.
    destruct Hc as (K1 & _ & K2). split; [done|]. split; [|lia]. apply Z.shiftr_nonneg. lia.
  - pose proof (slow_fine h l 1 (max_len h + 1) 0 0 Hs Hk Hsy ltac:(lia) ltac:(lia) ltac:(lia) r Hr) as Hsl.
    rewrite below_1 in Hsl. exact Hsl.
Qed.

(** ** Blocks *)

Lemma read_bytes_fine n dst : fine 0 (fun _ => True) (read_bytes n dst).
Proof.
  revert dst. induction n as [|n IH]; intros dst; [by apply fine_ret|]. cbn [read_bytes].
  eapply fine_weaken; [eapply fine_bind; [by apply fine_bits|intros b _; apply IH]|done|lia].
Qed.

Lemma stored_fine dst : fine 0 (fun _ => True) (inflate_stored dst).
Proof.
  intros r Hr. unfold inflate_stored. apply (fine_at_bind 0 0 (fun _ => True)).
  - pose proof (Z.mod_pos_bound (rnbits r) 8 ltac:(lia)). pose proof (Z.mod_le (rnbits r) 8 ltac:(pose proof (ro_n _ Hr); lia) ltac:(lia)).
    pose proof (fine_consume (rnbits r mod 8) ltac:(lia) r Hr ltac:(lia)) as Hc. unfold fine_at in *. cbn in *.
    destruct Hc as (? & _ & ?). split; [done|]. split; [done|]. unfold align. lia.
  - intros _ r' _ Hr' _. eapply fine_weaken; [|intros a Ha; exact Ha| |exact Hr'];
      [eapply fine_bind; [by apply fine_bits|intros len _; eapply fine_bind; [by apply fine_bits|intros nlen _]]|].
    { case_if; [|apply read_bytes_fine]. apply fine_throw. } lia.
Qed.

Lemma zlen_zrepeat_pos {A} (x : A) n : 1 <= n -> zlen (zrepeat x n) = n.
Proof. intros. apply zlen_zrepeat. lia. Qed.

Lemma read_lens_fine fuel h total lens :
  hf_ok h -> lengths_ok lens -> total - zlen lens <= Z.of_nat fuel ->
  fine 0 lengths_ok (read_lens fuel h total lens).
Proof.
  intros Hh. revert lens. induction fuel as [|k IH]; intros lens Hl Hf; cbn [read_lens];
    (destruct (Z.leb_spec total (zlen lens)) as [Hle|Hlt]; [by apply fine_ret|]); [lia|].
  assert (Hrep : forall x n, 0 <= x <= MAX_BITS -> 1 <= n -> fine 0 lengths_ok (read_lens k h total (lens ++ zrepeat x n))).
  { intros x n Hx Hn. apply IH.
    - apply Forall_app. split; [done|]. by apply Forall_replicate.
    - rewrite zlen_app, zlen_zrepeat by lia. lia. }
  eapply fine_weaken with (k := 1 + 0); [|done|lia]. eapply fine_bind; [by apply decode_fine|]. intros sym Hsym. cbn beta in Hsym.
  assert (Hread : forall n b x, 0 <= n <= 16 -> 1 <= b -> 0 <= x <= MAX_BITS ->
    fine 0 lengths_ok (let! v := bits n in read_lens k h total (lens ++ zrepeat x (b + v)))).
  { intros n b x Hn Hb Hx. eapply fine_weaken with (k := n + 0); [|done|lia]. eapply fine_bind; [by apply fine_bits|].
    intros v Hv. cbn beta in Hv. apply Hrep; [done|lia]. }
  destruct (Z.leb_spec sym 15).
  { change [sym] with (zrepeat sym 1). apply Hrep; [unfold MAX_BITS; lia|lia]. }
  destruct (sym =? 16).
  { destruct (last lens) as [x|] eqn:El; [|apply fine_throw]. apply Hread; [lia|lia|].
    apply last_Some in El as [l' ->]. apply Forall_app in Hl as [_ Hl]. by rewrite Forall_singleton in Hl. }
  destruct (sym =? 17); [apply Hread; unfold MAX_BITS; lia|]. destruct (sym =? 18); [apply Hread; unfold MAX_BITS; lia|apply fine_throw].
Qed.

Lemma read_cl_fine order cl : lengths_ok cl -> fine 0 lengths_ok (read_cl order cl).
Proof.
  revert cl. induction order as [|o order IH]; intros cl Hc; [by apply fine_ret|]. cbn [read_cl].
  eapply fine_weaken with (k := 3 + 0); [|done|lia]. eapply fine_bind; [by apply fine_bits|]. intros v Hv. cbn beta in Hv.
  apply IH. unfold upd. apply Forall_insert; [done|]. change (2 ^ 3) with 8 in Hv. unfold MAX_BITS. lia.
Qed.

Lemma fine_huffman l : lengths_ok l -> fine 0 hf_ok (slift (huffman_new l)).
Proof. intros Hl. destruct (huffman_new_ok l Hl) as (h & -> & Hh). by apply fine_lift. Qed.

Lemma dynamic_fine : fine 0 (fun p => hf_ok (fst p) /\ hf_ok (snd p)) read_dynamic_tables.
Proof.
  unfold read_dynamic_tables.
  eapply fine_weaken with (k := 5 + (5 + (4 + (0 + (0 + (0 + 0)))))); [|intros a Ha; exact Ha|lia].
  eapply fine_bind; [by apply fine_bits|]. intros a Ha. eapply fine_bind; [by apply fine_bits|]. intros b Hb.
  eapply fine_bind; [by apply fine_bits|]. intros c Hc. cbn beta in Ha, Hb, Hc.
  eapply fine_bind; [apply read_cl_fine, Forall_replicate; done|]. intros cl Hcl.
  eapply fine_bind; [by apply fine_huffman|]. intros h Hh.
  eapply fine_bind; [apply read_lens_fine; [done|constructor|rewrite zlen_nil; lia]|]. intros lens Hl.
  case_if; [apply fine_throw|].
  apply (fine_weaken (0 + (0 + 0)) 0 (fun p => hf_ok (fst p) /\ hf_ok (snd p))); [|done|lia].
  eapply fine_bind; [by apply fine_huffman, Forall_take|]. intros h1 Hh1.
  eapply fine_bind; [by apply fine_huffman, Forall_drop|]. intros h2 Hh2. by apply fine_ret.
Qed.

Lemma extra_bound l : Forall (fun x => 0 <= x <= 13) l -> forall i, 0 <= at_ 0 l i <= 16.
Proof.
  intros Hl i. unfold at_. rewrite nth_lookup. destruct (l !! Z.to_nat i) as [x|] eqn:E; cbn; [|lia].
  pose proof (Forall_lookup_1 _ _ _ _ Hl E) as Hx. cbn beta in Hx. lia.
Qed.

Lemma read_match_fine d sym dst : hf_ok d -> fine 0 (fun _ => True) (read_match d sym dst).
Proof.
  intros Hd. unfold read_match. destruct (zlen LEN_BASE <=? sym - 257); [apply fine_throw|].
  assert (H1 : 0 <= at_ 0 LEN_EXTRA (sym - 257) <= 16) by (apply extra_bound; repeat constructor; lia).
  eapply fine_weaken with (k := at_ 0 LEN_EXTRA (sym - 257) + (1 + 0)); [|intros a Ha; exact Ha|lia].
  eapply fine_bind; [by apply fine_bits|]. intros x Hx. eapply fine_bind; [by apply decode_fine|]. intros dsym Hds.
  destruct (zlen DIST_BASE <=? dsym); [apply fine_throw|].
  assert (H2 : 0 <= at_ 0 DIST_EXTRA dsym <= 16) by (apply extra_bound; repeat constructor; lia).
  eapply fine_weaken with (k := at_ 0 DIST_EXTRA dsym + 0); [|intros a Ha; exact Ha|lia].
  eapply fine_bind; [by apply fine_bits|]. intros y Hy. case_if; [apply fine_throw|by apply fine_ret].
Qed.

Lemma block_fine fuel l d dst r :
  hf_ok l -> hf_ok d -> r_ok r -> zlen (rstream r) < Z.of_nat fuel ->
  fine_at 0 (fun _ => True) (inflate_block fuel l d dst) r.
Proof.
  intros Hl Hd. revert dst r. induction fuel as [|k IH]; intros dst r Hr Hf; [pose proof (zlen_nonneg (rstream r)); lia|].
  cbn [inflate_block]. assert (Hstep : forall m, fine_at 1 (fun _ => True) m r -> fine_at 0 (fun _ : list Z => True) m r).
  { intros m. unfold fine_at. destruct (m r) as [[]]; naive_solver lia. }
  apply Hstep. change 1 with (1 + 0). eapply fine_at_bind; [by apply decode_fine|].
  intros sym r1 Hsym Hr1 Hlen. destruct (sym <=? 255); [apply IH; [done|lia]|]. destruct (sym =? 256); [by apply fine_ret|].
  destruct (sym <=? 285); [|by apply fine_throw]. change 0 with (0 + 0) at 1.
  eapply fine_at_bind; [by apply read_match_fine|]. intros dst' r2 _ Hr2 Hlen2. apply IH; [done|lia].
Qed.

Lemma fixed_litlen_ok : exists h, fixed_litlen = Ok h /\ hf_ok h.
Proof.
  destruct (huffman_new_ok fixed_litlen_lengths) as (h & E & Hh); [|exists h; unfold fixed_litlen; rewrite E; split; [reflexivity|exact Hh]].
  apply Forall_forall. intros x (i & -> & _)%list_elem_of_fmap. unfold MAX_BITS.
  repeat match goal with |- context [if ?b then _ else _] => destruct b end; lia.
Qed.

Lemma fixed_dist_ok : exists h, fixed_dist = Ok h /\ hf_ok h.
Proof.
  destruct (huffman_new_ok (zrepeat 5 30)) as (h & E & Hh); [apply Forall_replicate; unfold MAX_BITS; lia|].
  exists h. unfold fixed_dist. rewrite E. split; [reflexivity|exact Hh].
Qed.

Lemma typed_fine fuel btype dst r :
  r_ok r -> zlen (rstream r) < Z.of_nat fuel -> fine_at 0 (fun _ => True) (inflate_typed fuel btype dst) r.
Proof.
  intros Hr Hf. unfold inflate_typed. destruct (btype =? 0); [by apply stored_fine|]. destruct (btype =? 1).
  - destruct fixed_litlen_ok as (l & -> & Hl), fixed_dist_ok as (d & -> & Hd). by apply block_fine.
  - destruct (btype =? 2); [|by apply fine_throw]. change 0 with (0 + 0) at 1. eapply fine_at_bind; [by apply dynamic_fine|].
    intros [l d] r1 [Hl Hd] Hr1 Hlen. apply block_fine; try done. lia.
Qed.

Lemma loop_fine fuel dst r :
  r_ok r -> zlen (rstream r) < Z.of_nat fuel -> fine_at 0 (fun _ => True) (inflate_loop fuel dst) r.
Proof.
  revert dst r. induction fuel as [|k IH]; intros dst r Hr Hf; [pose proof (zlen_nonneg (rstream r)); lia|].
  cbn [inflate_loop]. assert (Hstep : forall m, fine_at (1 + (2 + 0)) (fun _ => True) m r -> fine_at 0 (fun _ : list Z => True) m r).
  { intros m. unfold fine_at. destruct (m r) as [[]]; naive_solver lia. }
  apply Hstep. eapply fine_at_bind; [by apply fine_bits|]. intros bfinal r1 _ Hr1 H1.
  eapply fine_at_bind; [by apply fine_bits|]. intros btype r2 _ Hr2 H2.
  change 0 with (0 + 0) at 1. eapply fine_at_bind; [apply typed_fine; [done|lia]|]. intros dst' r3 _ Hr3 H3.
  case_if; [by apply fine_throw|]. case_if; [by apply fine_ret|]. apply IH; [done|lia].
Qed.

Lemma inflate_total data : bytes_ok data -> returns (inflate data).
Proof.
  intros Hd. destruct (r_ok_new data Hd) as [Hr Es].
  pose proof (loop_fine (S (Z.to_nat (8 * zlen data))) [] (r_new data) Hr) as H. unfold inflate, fine_at in *.
  destruct (inflate_loop _ [] (r_new data)) as [res r']. cbn [fst].
  destruct H as [_ H]; [rewrite Es, zlen_bytes_bits; lia|]. by destruct res.
Qed.
End Inflate.
