(* ===== verification/Deflate.v ===== *)
(** DEFLATE ([src/crates/euroflate/src/deflate.rs]) with the zlib and gzip containers
    of [src/crates/euroflate/src/lib.rs].  The compressor finds matches through
    hash chains and writes one block with the fixed Huffman code; the theorem is
    that decompressing its output gives the input back. *)

From S2P Require Import Prelude Bytes Bits Inflate.

Module Deflate.
Import Bits Inflate.

Definition litlen_code (sym : Z) : Z * Z :=
  if sym <=? 143 then (48 + sym, 8)
  else if sym <=? 255 then (400 + (sym - 144), 9)
  else if sym <=? 279 then (sym - 256, 7)
  else (192 + (sym - 280), 8).

(** [while i > 0 && (v as u16) < base[i] { i -= 1 }] *)
Fixpoint code_index (base : list Z) (v : Z) (i : nat) : nat :=
  match i with
  | O => O
  | S k => if v mod 2 ^ 16 <? nth i base 0 then code_index base v k else i
  end.

Definition length_code (len : Z) : Z * Z * Z :=
  let i := Z.of_nat (code_index LEN_BASE len (length LEN_BASE - 1)) in
  (257 + i, len - at_ 0 LEN_BASE i, at_ 0 LEN_EXTRA i).

Definition distance_code (dist : Z) : Z * Z * Z :=
  let i := Z.of_nat (code_index DIST_BASE dist (length DIST_BASE - 1)) in
  (i, dist - at_ 0 DIST_BASE i, at_ 0 DIST_EXTRA i).

Definition MIN_MATCH : Z := 3.
Definition MAX_MATCH : Z := 258.
Definition WINDOW : Z := 32768.
Definition HASH_BITS : Z := 15.
Definition HASH_SIZE : Z := Z.shiftl 1 HASH_BITS.

Definition hash3 (d : list Z) (i : Z) : Z :=
  let h := Z.lxor (Z.lxor (Z.shiftl (at_ 0 d i) 10) (Z.shiftl (at_ 0 d (i + 1)) 5)) (at_ 0 d (i + 2)) in
  Z.land (h * 2654435761 mod 2 ^ 64) (HASH_SIZE - 1).

(** The hash chains: [head] and [prev], with [usize::MAX] for no position. *)
Record chains := mkChains {
  head : list Z;
  prev : list Z;
}.

Definition NONE : Z := U64_MAX.

Definition insert_pos (data : list Z) (i : Z) (c : chains) : chains :=
  let h := hash3 data i in
  mkChains (upd (head c) h i) (upd (prev c) i (at_ NONE (head c) h)).

(** [while l < MAX_MATCH && i + l < n && data[cand + l] == data[i + l]] *)
Fixpoint extend (fuel : nat) (data : list Z) (cand i l : Z) : Z :=
  match fuel with
  | O => l
  | S k =>
      if (i + l <? zlen data) && (at_ 0 data (cand + l) =? at_ 0 data (i + l))
      then extend k data cand i (l + 1) else l
  end.

(** The walk along a chain, at most [fuel] candidates. *)
Fixpoint best_match (fuel : nat) (data : list Z) (c : chains) (i cand best_len best_dist : Z) : outcome InflateError (Z * Z) :=
  match fuel with
  | O => Ok (best_len, best_dist)
  | S k =>
      if cand =? NONE then Ok (best_len, best_dist)
      else if i <? cand then Panic
      else
        let dist := i - cand in
        if WINDOW <? dist then Ok (best_len, best_dist)
        else
          let l := extend (Z.to_nat MAX_MATCH) data cand i 0 in
          if best_len <? l then
            if MAX_MATCH <=? l then Ok (l, dist)
            else best_match k data c i (at_ NONE (prev c) cand) l dist
          else best_match k data c i (at_ NONE (prev c) cand) best_len best_dist
  end.

(** The search at position [i], and the insertion of [i] into its chain. *)
Definition search (data : list Z) (i : Z) (c : chains) : outcome InflateError (Z * Z * chains) :=
  if i + MIN_MATCH <=? zlen data then
    let? (l, d) := best_match 128 data c i (at_ NONE (head c) (hash3 data i)) 0 0 in
    Ok (l, d, insert_pos data i c)
  else Ok (0, 0, c).

(** [while j < end && j + MIN_MATCH <= n] *)
Definition insert_covered (data : list Z) (a b : Z) (c : chains) : chains :=
  foldl (fun c j => insert_pos data j c) c (zrange a (Z.min b (zlen data - MIN_MATCH + 1))).

Definition emit_symbol (sym : Z) (w : BitWriter) : BitWriter :=
  let '(c, l) := litlen_code sym in write_code c l w.

Definition emit_match (len dist : Z) (w : BitWriter) : BitWriter :=
  let '(lsym, lextra, lbits) := length_code len in
  let w := emit_symbol lsym w in
  let w := write lextra lbits w in
  let '(dsym, dextra, dbits) := distance_code dist in
  let w := write_code dsym 5 w in
  write dextra dbits w.

(** The main loop; every turn advances by at least one position. *)
Fixpoint deflate_loop (fuel : nat) (data : list Z) (i : Z) (c : chains) (w : BitWriter) : outcome InflateError BitWriter :=
  if zlen data <=? i then Ok w
  else match fuel with
  | O => OutOfFuel
  | S k =>
      let? (best_len, best_dist, c) := search data i c in
      if MIN_MATCH <=? best_len then
        deflate_loop k data (i + best_len) (insert_covered data (i + 1) (i + best_len) c) (emit_match best_len best_dist w)
      else deflate_loop k data (i + 1) c (emit_symbol (at_ 0 data i) w)
  end.

Definition deflate (data : list Z) : outcome InflateError (list Z) :=
  let w := write 1 2 (write 1 1 w_new) in
  let c := mkChains (zrepeat NONE HASH_SIZE) (zrepeat NONE (Z.max (zlen data) 1)) in
  let? w := deflate_loop (length data) data 0 c w in
  Ok (finish (emit_symbol 256 w)).

Definition deflate_then_inflate (data : list Z) : outcome InflateError (list Z) :=
  let? s := deflate data in inflate s.

(** ** Containers *)

Definition adler32 (data : list Z) : Z :=
  let '(a, b) := foldl (fun '(a, b) x => let a := (a + x) mod 65521 in (a, (b + a) mod 65521)) (1, 0) data in
  Z.lor (Z.shiftl b 16) a.

Definition crc_step (crc : Z) : Z :=
  let mask := (- Z.land crc 1) mod 2 ^ 32 in
  Z.lxor (Z.shiftr crc 1) (Z.land 3988292384 mask).

Definition crc32 (data : list Z) : Z :=
  Z.lxor (foldl (fun crc b => Nat.iter 8 crc_step (Z.lxor crc b)) U32_MAX data) U32_MAX.

Definition zlib_compress (data : list Z) : outcome InflateError (list Z) :=
  let? s := deflate data in Ok ([120; 156] ++ s ++ be_bytes 4 (adler32 data)).

Definition zlib_decompress (data : list Z) : outcome InflateError (list Z) :=
  if zlen data <? 6 then Err UnexpectedEof
  else if negb (Z.land (at_ 0 data 0) 15 =? 8) then Err BadBlockType
  else
    let? out := inflate (slice data 2 (zlen data - 4 - 2)) in
    if adler32 out =? be_val (slice data (zlen data - 4) 4) then Ok out else Err BadCode.

(** A zero-terminated field: the position after its terminator. *)
Fixpoint skip_string (l : list Z) (p : Z) : Z :=
  match l with
  | [] => p + 1
  | b :: l' => if b =? 0 then p + 1 else skip_string l' (p + 1)
  end.

Definition gzip_body_start (data : list Z) : outcome InflateError Z :=
  let flg := at_ 0 data 3 in
  let? p := (if negb (Z.land flg 4 =? 0) then
               if zlen data <? 10 + 2 then Err UnexpectedEof
               else Ok (10 + 2 + rd_u16 data 10)
             else Ok 10) in
  let p := if negb (Z.land flg 8 =? 0) then skip_string (drop (Z.to_nat p) data) p else p in
  let p := if negb (Z.land flg 16 =? 0) then skip_string (drop (Z.to_nat p) data) p else p in
  Ok (if negb (Z.land flg 2 =? 0) then p + 2 else p).

Definition gzip_decompress (data : list Z) : outcome InflateError (list Z) :=
  if (zlen data <? 18) || negb (at_ 0 data 0 =? 31) || negb (at_ 0 data 1 =? 139) || negb (at_ 0 data 2 =? 8) then Err BadBlockType
  else
    let? p := gzip_body_start data in
    if zlen data <? p + 8 then Err UnexpectedEof
    else
      let? out := inflate (slice data p (zlen data - 8 - p)) in
      if crc32 out =? rd_u32 data (zlen data - 8) then Ok out else Err BadCode.
End Deflate.
