(* ===== verification/FlateRoundtrip.v ===== *)
(** The round trip of EuroFlate: what [deflate] writes, [inflate] reads back. *)

From S2P Require Import Prelude Bytes Bits Inflate Deflate.

Module FlateRoundtrip.
Import Bits Inflate Deflate.

(** ** Decoding one code *)

(** The slow path on a list of bits. *)
Fixpoint slow_bits (h : Huffman) (lens : list Z) (code first index : Z) (s : list bool) : option (Z * list bool) :=
  match lens, s with
  | [], _ | _, [] => None
  | len :: lens', b :: s' =>
      let code := Z.lor code (Z.b2z b) in
      let count := at_ 0 (counts h) len in
      if code <? first + count then
        if code <? first then None
        else (fun x => (x, s')) <$> symbols h !! Z.to_nat (index + (code - first))
      else slow_bits h lens' (Z.shiftl code 1) (Z.shiftl (first + count) 1) (index + count) s'
  end.

Lemma slow_bits_app h lens code first index s x rest t :
  slow_bits h lens code first index s = Some (x, t) -> slow_bits h lens code first index (s ++ rest) = Some (x, t ++ rest).
Proof.
  revert code first index s. induction lens as [|len lens IH]; intros code first index s; [done|].
  destruct s as [|b s]; [done|]. cbn [slow_bits app]. case_if; [|apply IH]. case_if; [done|].
  destruct (symbols h !! _); cbn; [|done]. intros [= <- <-]. done.
Qed.

Lemma bits_one b : bits_n 1 (Z.b2z b) = [b].
Proof. by destruct b. Qed.

Lemma slow_run h lens code first index r x t :
  r_ok r -> slow_bits h lens code first index (rstream r) = Some (x, t) ->
  exists r', slow h lens code first index r = (Ok x, r') /\ r_ok r' /\ rstream r' = t.
Proof.
  revert code first index r. induction lens as [|len lens IH]; intros code first index r Hr E; cbn in E; [done|].
  destruct (rstream r) as [|b s] eqn:Es; [done|].
  destruct (bits_run 1 (Z.b2z b) s r Hr) as (r1 & E1 & H1 & _ & H2);
    [lia|destruct b; cbn; lia|by rewrite bits_one|].
  cbn [slow]. erewrite sbind_ok by exact E1. case_if; [|apply IH; [done|by rewrite H2]].
  case_if; [done|]. destruct (symbols h !! _); cbn in *; [|done]. injection E as <- <-. by exists r1.
Qed.

(** [code], of [len] bits, decodes to [sym]: the fast table has it under every
    continuation, and the slow path finds it. *)
Record codes (h : Huffman) (sym code len : Z) : Prop := mkCodes {
  co_sym : 0 <= sym;
  co_len : 1 <= len <= FAST_BITS;
  co_code : 0 <= code < 2 ^ len;
  co_fast k : 0 <= k < 2 ^ (FAST_BITS - len) -> at_ 0 (fast h) (reversed code len + k * 2 ^ len) = sym * 16 + len;
  co_slow : slow_bits h (zrange 1 (max_len h + 1)) 0 0 0 (reverse (bits_n len code)) = Some (sym, []);
}.

Lemma reversed_bound code n : 0 <= n -> 0 <= reversed code n < 2 ^ n.
Proof.
  intros Hn. unfold reversed.
  assert (H : forall l acc, Forall (fun i => 0 <= i < n) l -> 0 <= acc < 2 ^ n ->
    0 <= foldl (fun rev i => Z.lor rev (Z.shiftl (Z.land (Z.shiftr code i) 1) (n - 1 - i))) acc l < 2 ^ n).
  { induction l as [|i l IH]; intros acc Hl Ha; [done|]. apply Forall_cons in Hl as [Hi Hl]. cbn [foldl]. apply IH; [done|].
    assert (Hb : 0 <= Z.shiftl (Z.land (Z.shiftr code i) 1) (n - 1 - i) < 2 ^ n).
    { assert (Z.land (Z.shiftr code i) 1 = Z.shiftr code i mod 2) as -> by (apply (Z.land_ones _ 1); lia).
      rewrite Z.shiftl_mul_pow2 by lia. pose proof (Z.mod_pos_bound (Z.shiftr code i) 2 ltac:(lia)) as Hm.
      assert (E : 2 ^ n = 2 ^ (n - 1 - i) * 2 ^ (i + 1)) by (rewrite <- Z.pow_add_r by lia; f_equal; lia).
      assert (2 <= 2 ^ (i + 1)) by (rewrite <- (Z.pow_1_r 2) at 1; apply Z.pow_le_mono_r; lia).
      assert (0 < 2 ^ (n - 1 - i)) by lia. nia. }
    split; [apply Z.lor_nonneg; lia|].
    assert (E : Z.lor acc (Z.shiftl (Z.land (Z.shiftr code i) 1) (n - 1 - i)) =
      Z.lor acc (Z.shiftl (Z.land (Z.shiftr code i) 1) (n - 1 - i)) mod 2 ^ n).
    { rewrite <- Z.land_ones by lia. rewrite Z.land_lor_distr_l, !Z.land_ones by lia. by rewrite !Z.mod_small by lia. }
    rewrite E. apply Z.mod_pos_bound. lia. }
  apply H; [|lia]. apply Forall_forall. intros i Hi. by apply elem_of_zrange.
Qed.

(** The first bits of the stream are those of the word, when it has enough. *)
Lemma rstream_word r n s rest :
  r_ok r -> 0 <= n <= rnbits r -> rstream r = s ++ rest -> zlen s = n -> s = bits_n n (rbits r).
Proof.
  intros Hr Hn Es Hl. destruct (consume_ok n r Hr Hn) as (_ & H2 & _). rewrite H2 in Es.
  apply app_inj_1 in Es as [-> _]; [done|]. unfold zlen in Hl. unfold bits_n. rewrite length_bits_of. lia.
Qed.

Lemma decode_run h sym code len r rest :
  codes h sym code len -> r_ok r -> rstream r = reverse (bits_n len code) ++ rest ->
  exists r', decode h r = (Ok sym, r') /\ r_ok r' /\ rstream r' = rest.
Proof.
  intros [Hsym Hlen Hcode Hfast Hslow] Hr Es. unfold decode.
  assert (Hp : exists r1, prefetch r = (Ok tt, r1) /\ r_ok r1 /\ rstream r1 = rstream r).
  { unfold prefetch. destruct (need FAST_BITS r) as [res r1] eqn:E.
    destruct (need_ok FAST_BITS r res r1 Hr ltac:(unfold FAST_BITS; lia) E) as (H1 & H2 & _ & H3).
    exists r1. destruct res as [[]|[]| |]; done. }
  destruct Hp as (r1 & E1 & H1 & H2). rewrite <- H2 in Es. clear H2.
  erewrite sbind_ok by exact E1. cbn [sbind sget]. destruct (Z.leb_spec FAST_BITS (rnbits r1)) as [Hn|Hn]; cbn [andb].
  - rewrite <- bits_reversed in Es by lia.
    pose proof (rstream_word r1 len _ rest H1 ltac:(lia) Es ltac:(apply length_bits_n; lia)) as Ew.
    rewrite <- (bits_n_mod len (rbits r1)) in Ew by lia.
    apply bits_n_inj in Ew; [|lia|apply reversed_bound; lia|apply Z.mod_pos_bound; lia].
    rewrite land_ones_mod by done. set (peek := rbits r1 mod 2 ^ FAST_BITS).
    pose proof (Z.mod_pos_bound (rbits r1) (2 ^ FAST_BITS) ltac:(done)) as Hpk. fold peek in Hpk.
    assert (Hpow : 2 ^ FAST_BITS = 2 ^ len * 2 ^ (FAST_BITS - len)) by (rewrite <- Z.pow_add_r by lia; f_equal; lia).
    assert (Ep : peek = reversed code len + (peek / 2 ^ len) * 2 ^ len).
    { rewrite Ew. rewrite (Z.div_mod peek (2 ^ len)) at 1 by lia. unfold peek. rewrite Hpow, Z.rem_mul_r by lia.
      rewrite (Z.mul_comm (2 ^ len) (_ mod _)), Z.mod_add, Z.mod_mod by lia. lia. }
    rewrite Ep, Hfast by (split; [apply Z.div_pos; lia|apply Z.div_lt_upper_bound; lia]).
    unfold FAST_BITS in Hlen.
    assert (Z.land (sym * 16 + len) 15 = len) as -> by (rewrite land_15, Z.add_comm, Z.mod_add, Z.mod_small; lia).
    destruct (Z.eqb_spec len 0); [lia|]. cbn [negb smodify sbind sret].
    destruct (consume_ok len r1 H1 ltac:(unfold FAST_BITS in Hn; lia)) as (K1 & K2 & _). exists (consume len r1). split; [|split; [done|]].
    + unfold sret. do 2 f_equal. rewrite Z.shiftr_div_pow2 by lia. change (2 ^ 4) with 16. rewrite Z.add_comm, Z.div_add, Z.div_small; lia.
    + rewrite K2 in Es. apply app_inj_1 in Es as [_ ->]; [done|]. unfold bits_n. by rewrite !length_bits_of.
  - apply slow_run; [done|]. rewrite Es. by rewrite (slow_bits_app _ _ _ _ _ _ _ rest _ Hslow).
Qed.

(** ** The fixed code *)

Definition codes_b (h : Huffman) (sym code len : Z) : bool :=
  forallb (fun k => at_ 0 (fast h) (reversed code len + k * 2 ^ len) =? sym * 16 + len) (zrange 0 (2 ^ (FAST_BITS - len))) &&
  bool_decide (slow_bits h (zrange 1 (max_len h + 1)) 0 0 0 (reverse (bits_n len code)) = Some (sym, [])).

Lemma codes_b_sound h sym code len :
  0 <= sym -> 1 <= len <= FAST_BITS -> 0 <= code < 2 ^ len -> codes_b h sym code len = true -> codes h sym code len.
Proof.
  intros Hs Hl Hc [Hf Hd%bool_decide_eq_true]%andb_true_iff. rewrite forallb_forall in Hf. split; try done.
  intros k Hk. apply Z.eqb_eq, Hf, list_elem_of_In, elem_of_zrange. done.
Qed.

Definition table_of (h : outcome InflateError Huffman) : Huffman :=
  match h with Ok x => x | _ => mkHuffman [] [] [] 0 end.

Definition litlen_table : Huffman := Eval vm_compute in table_of fixed_litlen.
Definition dist_table : Huffman := Eval vm_compute in table_of fixed_dist.

Lemma fixed_litlen_table : fixed_litlen = Ok litlen_table.
Proof. vm_compute. reflexivity. Qed.

Lemma fixed_dist_table : fixed_dist = Ok dist_table.
Proof. vm_compute. reflexivity. Qed.

Lemma litlen_check :
  forallb (fun sym => let '(c, l) := litlen_code sym in codes_b litlen_table sym c l) (zrange 0 286) = true.
Proof. vm_compute. reflexivity. Qed.

Lemma dist_check : forallb (fun d => codes_b dist_table d d 5) (zrange 0 30) = true.
Proof. vm_compute. reflexivity. Qed.

(** The bits of a symbol. *)
Definition symbol_bits (sym : Z) : list bool := let '(c, l) := litlen_code sym in reverse (bits_n l c).

Lemma litlen_code_bound sym : 0 <= sym <= 285 -> let '(c, l) := litlen_code sym in 1 <= l <= FAST_BITS /\ 0 <= c < 2 ^ l.
Proof.
  intros Hs. unfold litlen_code, FAST_BITS.
  destruct (Z.leb_spec sym 143); [change (2 ^ 8) with 256; lia|].
  destruct (Z.leb_spec sym 255); [change (2 ^ 9) with 512; lia|].
  destruct (Z.leb_spec sym 279); [change (2 ^ 7) with 128; lia|change (2 ^ 8) with 256; lia].
Qed.

Lemma litlen_codes sym : 0 <= sym <= 285 -> let '(c, l) := litlen_code sym in codes litlen_table sym c l.
Proof.
  intros Hs. pose proof (litlen_code_bound sym Hs) as Hb. pose proof litlen_check as Hc. rewrite forallb_forall in Hc.
  specialize (Hc sym ltac:(apply list_elem_of_In, elem_of_zrange; lia)). destruct (litlen_code sym) as [c l].
  destruct Hb. apply codes_b_sound; (done || lia).
Qed.

Lemma dist_codes d : 0 <= d < 30 -> codes dist_table d d 5.
Proof.
  intros Hd. pose proof dist_check as Hc. rewrite forallb_forall in Hc.
  specialize (Hc d ltac:(apply list_elem_of_In, elem_of_zrange; lia)).
  apply codes_b_sound; [lia|unfold FAST_BITS; lia|change (2 ^ 5) with 32; lia|done].
Qed.

Lemma read_symbol sym r rest :
  0 <= sym <= 285 -> r_ok r -> rstream r = symbol_bits sym ++ rest ->
  exists r', decode litlen_table r = (Ok sym, r') /\ r_ok r' /\ rstream r' = rest.
Proof.
  intros Hs Hr Es. pose proof (litlen_codes sym Hs) as Hc. unfold symbol_bits in Es. destruct (litlen_code sym) as [c l].
  by eapply decode_run.
Qed.

Lemma emit_symbol_ok sym w :
  0 <= sym <= 285 -> w_ok w -> w_ok (emit_symbol sym w) /\ wstream (emit_symbol sym w) = wstream w ++ symbol_bits sym.
Proof.
  intros Hs Hw. unfold emit_symbol, symbol_bits. pose proof (litlen_code_bound sym Hs) as Hb.
  destruct (litlen_code sym) as [c l]. apply write_code_ok; [done|]. unfold FAST_BITS in Hb. lia.
Qed.

(** ** Length and distance codes *)

Lemma code_index_spec base v i :
  v mod 2 ^ 16 = v -> nth 0 base 0 <= v ->
  let j := code_index base v i in
  (j <= i)%nat /\ nth j base 0 <= v /\ forall k, (j < k <= i)%nat -> v < nth k base 0.
Proof.
  intros Hv H0. induction i as [|i IH]; cbn [code_index]; [split; [lia|]; split; [done|]; lia|].
  rewrite Hv. destruct (Z.ltb_spec v (nth (S i) base 0)) as [Hlt|Hge].
  - destruct IH as (H1 & H2 & H3). split; [lia|]. split; [done|]. intros k Hk. destruct (decide (k = S i)) as [->|]; [done|].
    apply H3. lia.
  - split; [lia|]. split; [done|]. lia.
Qed.

(** A table of bases whose gaps the extra bits cover. *)
Definition covers (base extra : list Z) (max : Z) : bool :=
  forallb (fun j => (nth (S j) base (max + 1) - nth j base 0 <=? 2 ^ nth j extra 0) && (0 <=? nth j extra 0) && (nth j extra 0 <=? 13))
    (seq 0 (length base)).

Lemma code_index_extra base extra max v :
  covers base extra max = true -> (0 < length base)%nat -> nth 0 base 0 <= v <= max -> 0 <= v -> max < 2 ^ 16 ->
  let j := code_index base v (length base - 1) in
  (j < length base)%nat /\ 0 <= v - nth j base 0 < 2 ^ nth j extra 0 /\ 0 <= nth j extra 0 <= 13.
Proof.
  intros Hc Hl Hv Hv0 Hm. cbn zeta.
  destruct (code_index_spec base v (length base - 1)) as (H1 & H2 & H3); [apply Z.mod_small; lia|lia|].
  set (j := code_index base v (length base - 1)) in *. split; [lia|].
  unfold covers in Hc. rewrite forallb_forall in Hc. specialize (Hc j ltac:(apply in_seq; lia)).
  apply andb_true_iff in Hc as [[Hc1%Z.leb_le Hc2%Z.leb_le]%andb_true_iff Hc3%Z.leb_le]. split; [|lia].
  split; [lia|]. destruct (decide (j = length base - 1)%nat) as [E|Hne].
  - rewrite (nth_overflow base) in Hc1 by lia. lia.
  - specialize (H3 (S j) ltac:(lia)). rewrite (nth_indep base (max + 1) 0) in Hc1 by lia. lia.
Qed.

Lemma at_nth (l : list Z) (j : nat) : at_ 0 l (Z.of_nat j) = nth j l 0.
Proof. unfold at_. by rewrite Nat2Z.id. Qed.

Lemma length_code_ok len :
  3 <= len <= MAX_MATCH ->
  let '(sym, x, b) := length_code len in
  257 <= sym <= 285 /\ 0 <= b <= 13 /\ 0 <= x < 2 ^ b /\ b = at_ 0 LEN_EXTRA (sym - 257) /\ len = at_ 0 LEN_BASE (sym - 257) + x.
Proof.
  intros Hl. unfold length_code, MAX_MATCH in *.
  destruct (code_index_extra LEN_BASE LEN_EXTRA 258 len) as (H1 & H2 & H3); [done|cbn; lia|cbn [nth LEN_BASE]; lia|lia|done|].
  set (j := code_index LEN_BASE len (length LEN_BASE - 1)) in *. cbn [length LEN_BASE] in H1.
  replace (257 + Z.of_nat j - 257) with (Z.of_nat j) by lia. rewrite !at_nth. split; [lia|]. split; [lia|]. split; [done|].
  split; [done|lia].
Qed.

Lemma distance_code_ok dist :
  1 <= dist <= WINDOW ->
  let '(sym, x, b) := distance_code dist in
  0 <= sym < 30 /\ 0 <= b <= 13 /\ 0 <= x < 2 ^ b /\ b = at_ 0 DIST_EXTRA sym /\ dist = at_ 0 DIST_BASE sym + x.
Proof.
  intros Hd. unfold distance_code, WINDOW in *.
  destruct (code_index_extra DIST_BASE DIST_EXTRA 32768 dist) as (H1 & H2 & H3); [done|cbn; lia|cbn [nth DIST_BASE]; lia|lia|done|].
  set (j := code_index DIST_BASE dist (length DIST_BASE - 1)) in *. cbn [length DIST_BASE] in H1.
  rewrite !at_nth. split; [lia|]. split; [lia|]. split; [done|]. split; [done|lia].
Qed.

(** The bits of a match. *)
Definition match_bits (len dist : Z) : list bool :=
  let '(lsym, lextra, lbits) := length_code len in
  let '(dsym, dextra, dbits) := distance_code dist in
  symbol_bits lsym ++ bits_n lbits lextra ++ reverse (bits_n 5 dsym) ++ bits_n dbits dextra.

Lemma emit_match_ok len dist w :
  3 <= len <= MAX_MATCH -> 1 <= dist <= WINDOW -> w_ok w ->
  w_ok (emit_match len dist w) /\ wstream (emit_match len dist w) = wstream w ++ match_bits len dist.
Proof.
  intros Hl Hd Hw. unfold emit_match, match_bits. pose proof (length_code_ok len Hl) as Hlc. pose proof (distance_code_ok dist Hd) as Hdc.
  destruct (length_code len) as [[lsym lx] lb], (distance_code dist) as [[dsym dx] db].
  destruct (emit_symbol_ok lsym w) as [W1 S1]; [lia|done|]. destruct (write_ok lx lb _ W1) as [W2 S2]; [lia|].
  destruct (write_code_ok dsym 5 _ W2) as [W3 S3]; [lia|]. destruct (write_ok dx db _ W3) as [W4 S4]; [lia|].
  split; [done|]. rewrite S4, S3, S2, S1. by rewrite <- !app_assoc.
Qed.

Lemma read_match_run len dist dst r rest :
  3 <= len <= MAX_MATCH -> 1 <= dist <= WINDOW -> dist <= zlen dst -> r_ok r -> rstream r = match_bits len dist ++ rest ->
  exists lsym r1 r2, 257 <= lsym <= 285 /\ decode litlen_table r = (Ok lsym, r1) /\
    read_match dist_table lsym dst r1 = (Ok (copy_back (Z.to_nat len) (zlen dst - dist) dst), r2) /\
    r_ok r2 /\ rstream r2 = rest.
Proof.
  intros Hl Hd Hdst Hr Es. unfold match_bits in Es. pose proof (length_code_ok len Hl) as Hlc. pose proof (distance_code_ok dist Hd) as Hdc.
  destruct (length_code len) as [[lsym lx] lb], (distance_code dist) as [[dsym dx] db].
  destruct Hlc as (L1 & L2 & L3 & L4 & L5), Hdc as (D1 & D2 & D3 & D4 & D5). rewrite <- !app_assoc in Es.
  destruct (read_symbol lsym r _ ltac:(lia) Hr Es) as (r1 & E1 & R1 & S1). exists lsym, r1.
  unfold read_match. destruct (Z.leb_spec (zlen LEN_BASE) (lsym - 257)) as [Hx|_]; [unfold zlen in Hx; cbn in Hx; lia|].
  destruct (bits_run lb lx _ r1 R1 ltac:(lia) L3 S1) as (r2 & E2 & R2 & _ & S2). rewrite L4 in E2.
  destruct (decode_run dist_table dsym dsym 5 r2 _ (dist_codes dsym D1) R2 S2) as (r3 & E3 & R3 & S3).
  destruct (bits_run db dx _ r3 R3 ltac:(lia) D3 S3) as (r4 & E4 & R4 & _ & S4). rewrite D4 in E4.
  exists r4. split; [done|]. split; [done|]. split; [|done].
  erewrite sbind_ok by exact E2. erewrite sbind_ok by exact E3.
  destruct (Z.leb_spec (zlen DIST_BASE) dsym) as [Hx|_]; [unfold zlen in Hx; cbn in Hx; lia|].
  erewrite sbind_ok by exact E4. rewrite <- D5, <- L5.
  destruct (Z.eqb_spec dist 0); [lia|]. destruct (Z.ltb_spec (zlen dst) dist); [lia|]. done.
Qed.

(** ** Blocks *)

(** [s] is a block that takes the output from [dst] to [fin]. *)
Inductive decodes : list bool -> list Z -> list Z -> Prop :=
| dec_end dst : decodes (symbol_bits 256) dst dst
| dec_literal b s dst fin : 0 <= b <= 255 -> decodes s (dst ++ [b]) fin -> decodes (symbol_bits b ++ s) dst fin
| dec_match len dist s dst fin :
    3 <= len <= MAX_MATCH -> 1 <= dist <= WINDOW -> dist <= zlen dst ->
    decodes s (copy_back (Z.to_nat len) (zlen dst - dist) dst) fin -> decodes (match_bits len dist ++ s) dst fin.

Lemma symbol_bits_len sym : 0 <= sym <= 285 -> 1 <= zlen (symbol_bits sym).
Proof.
  intros Hs. unfold symbol_bits. pose proof (litlen_code_bound sym Hs) as Hb. destruct (litlen_code sym) as [c l].
  unfold zlen. rewrite length_reverse. fold (zlen (bits_n l c)). rewrite length_bits_n; lia.
Qed.

Lemma block_run s dst fin r rest fuel :
  decodes s dst fin -> r_ok r -> rstream r = s ++ rest -> zlen s <= Z.of_nat fuel ->
  exists r', inflate_block fuel litlen_table dist_table dst r = (Ok fin, r') /\ r_ok r' /\ rstream r' = rest.
Proof.
  intros Hd. revert r fuel. induction Hd as [dst|b s dst fin Hb _ IH|len dist s dst fin Hl Hdi Hds _ IH]; intros r fuel Hr Es Hf.
  - pose proof (symbol_bits_len 256 ltac:(lia)). destruct fuel as [|k]; [lia|]. cbn [inflate_block].
    destruct (read_symbol 256 r rest ltac:(lia) Hr Es) as (r1 & E1 & R1 & S1). erewrite sbind_ok by exact E1. by exists r1.
  - pose proof (symbol_bits_len b ltac:(lia)). rewrite zlen_app in Hf. pose proof (zlen_nonneg s). destruct fuel as [|k]; [lia|].
    cbn [inflate_block]. rewrite <- app_assoc in Es.
    destruct (read_symbol b r _ ltac:(lia) Hr Es) as (r1 & E1 & R1 & S1). erewrite sbind_ok by exact E1.
    destruct (Z.leb_spec b 255); [|lia]. apply IH; [done|done|lia].
  - rewrite <- app_assoc in Es. destruct (read_match_run len dist dst r _ Hl Hdi Hds Hr Es) as (lsym & r1 & r2 & Hs & E1 & E2 & R2 & S2).
    assert (Hm : 1 <= zlen (match_bits len dist)).
    { unfold match_bits. pose proof (length_code_ok len Hl) as Hlc. destruct (length_code len) as [[ls lx] lb].
      destruct (distance_code dist) as [[ds dx] db]. rewrite zlen_app. pose proof (symbol_bits_len ls ltac:(lia)).
      match goal with |- context [zlen (symbol_bits ls) + zlen ?x] => pose proof (zlen_nonneg x) end. lia. }
    rewrite zlen_app in Hf. pose proof (zlen_nonneg s). destruct fuel as [|k]; [lia|].
    cbn [inflate_block]. erewrite sbind_ok by exact E1.
    destruct (Z.leb_spec lsym 255); [lia|]. destruct (Z.eqb_spec lsym 256); [lia|]. destruct (Z.leb_spec lsym 285); [|lia].
    erewrite sbind_ok by exact E2. apply IH; [done|done|lia].
Qed.

(** ** Matches *)

(** A match of length [l] at distance [d] before position [i]. *)
Definition match_at (data : list Z) (i l d : Z) : Prop :=
  0 <= l <= MAX_MATCH /\ i + l <= zlen data /\ 1 <= d <= WINDOW /\ d <= i /\
  forall j, 0 <= j < l -> at_ 0 data (i - d + j) = at_ 0 data (i + j).

Lemma extend_spec fuel data cand i l :
  0 <= l -> i + l <= zlen data -> (forall j, 0 <= j < l -> at_ 0 data (cand + j) = at_ 0 data (i + j)) ->
  let m := extend fuel data cand i l in
  l <= m <= l + Z.of_nat fuel /\ i + m <= zlen data /\ forall j, 0 <= j < m -> at_ 0 data (cand + j) = at_ 0 data (i + j).
Proof.
  revert l. induction fuel as [|k IH]; intros l Hl Hn Hj; cbn [extend]; [split; [lia|done]|].
  destruct ((i + l <? zlen data) && _) eqn:E; [|split; [lia|done]].
  apply andb_true_iff in E as [E1%Z.ltb_lt E2%Z.eqb_eq].
  destruct (IH (l + 1)) as (H1 & H2 & H3); [lia|lia| |split; [lia|done]].
  intros j Hj'. destruct (Z.eq_dec j l) as [->|]; [done|]. apply Hj. lia.
Qed.

(** Positions in the chains lie before [i]. *)
Definition chains_ok (i : Z) (c : chains) : Prop :=
  Forall (fun e => e = NONE \/ 0 <= e < i) (head c) /\ Forall (fun e => e = NONE \/ 0 <= e < i) (prev c).

Lemma chain_at i l k : Forall (fun e => e = NONE \/ 0 <= e < i) l -> at_ NONE l k = NONE \/ 0 <= at_ NONE l k < i.
Proof.
  intros Hl. unfold at_. rewrite nth_lookup. destruct (l !! Z.to_nat k) as [e|] eqn:E; cbn; [|by left].
  apply (Forall_lookup_1 _ _ _ _ Hl E).
Qed.

Lemma chains_ok_insert data i c : 0 <= i -> chains_ok i c -> chains_ok (i + 1) (insert_pos data i c).
Proof.
  intros Hi [H1 H2]. unfold insert_pos. split; cbn [head prev]; unfold upd; apply Forall_insert.
  - eapply Forall_impl; [exact H1|]. cbn. intros e [|]; [by left|right; lia].
  - right. lia.
  - eapply Forall_impl; [exact H2|]. cbn. intros e [|]; [by left|right; lia].
  - destruct (chain_at i (head c) (hash3 data i) H1); [by left|right; lia].
Qed.

Lemma chains_ok_le i j c : i <= j -> chains_ok i c -> chains_ok j c.
Proof. intros Hij [H1 H2]. split; (eapply Forall_impl; [eassumption|]); cbn; intros e [|]; (by left) || (right; lia). Qed.

Lemma insert_covered_ok data a b c : 0 <= a -> chains_ok a c -> a <= b -> chains_ok b (insert_covered data a b c).
Proof.
  intros Ha Hc Hab. unfold insert_covered. set (e := Z.min b _).
  assert (He : e <= b) by lia. clearbody e. remember (Z.to_nat (e - a)) as n eqn:En. revert a c Ha Hc Hab En.
  induction n as [|n IH]; intros a c Ha Hc Hab En.
  - rewrite zrange_nil by lia. by apply (chains_ok_le a).
  - rewrite zrange_cons by lia. cbn [foldl]. apply IH; [lia|by apply chains_ok_insert|lia|lia].
Qed.

Lemma best_match_ok fuel data c i cand bl bd :
  chains_ok i c -> 0 <= i <= zlen data -> cand = NONE \/ 0 <= cand < i -> bl = 0 \/ match_at data i bl bd -> 0 <= bl ->
  exists l d, best_match fuel data c i cand bl bd = Ok (l, d) /\ 0 <= l /\ (l = 0 \/ match_at data i l d).
Proof.
  intros Hc Hi. revert cand bl bd. induction fuel as [|k IH]; intros cand bl bd Hcand Hb Hb0; cbn [best_match]; [eauto|].
  destruct (Z.eqb_spec cand NONE) as [|Hne]; [eauto|]. destruct Hcand as [|Hcand]; [done|].
  destruct (Z.ltb_spec i cand); [lia|]. destruct (Z.ltb_spec WINDOW (i - cand)); [eauto|].
  destruct (extend_spec (Z.to_nat MAX_MATCH) data cand i 0) as (X1 & X2 & X3); [lia|lia|lia|].
  set (l := extend (Z.to_nat MAX_MATCH) data cand i 0) in *.
  assert (Hm : match_at data i l (i - cand)).
  { split; [unfold MAX_MATCH in *; lia|]. split; [lia|]. split; [lia|]. split; [lia|]. intros j Hj.
    replace (i - (i - cand) + j) with (cand + j) by lia. by apply X3. }
  pose proof (chain_at i (prev c) cand (proj2 Hc)) as Hp.
  destruct (Z.ltb_spec bl l); [|by apply IH].
  destruct (Z.leb_spec MAX_MATCH l); [exists l, (i - cand); split; [done|]; split; [lia|by right]|]. apply IH; [done|by right|lia].
Qed.

(** Copying back from the output so far reproduces the input. *)
Lemma copy_back_take data n i start :
  0 <= start < i -> i + Z.of_nat n <= zlen data ->
  (forall j, 0 <= j < Z.of_nat n -> at_ 0 data (start + j) = at_ 0 data (i + j)) ->
  copy_back n start (take (Z.to_nat i) data) = take (Z.to_nat (i + Z.of_nat n)) data.
Proof.
  revert i start. induction n as [|n IH]; intros i start Hs Hi Hj; cbn [copy_back]; [do 2 f_equal; lia|].
  assert (E : take (Z.to_nat i) data ++ [at_ 0 (take (Z.to_nat i) data) start] = take (Z.to_nat (i + 1)) data).
  { assert (at_ 0 (take (Z.to_nat i) data) start = at_ 0 data i) as ->.
    { specialize (Hj 0 ltac:(lia)). rewrite !Z.add_0_r in Hj. rewrite <- Hj. unfold at_. rewrite !nth_lookup.
      by rewrite lookup_take_lt by lia. }
    replace (Z.to_nat (i + 1)) with (S (Z.to_nat i)) by lia. symmetry. apply take_S_r. apply lookup_at. lia. }
  rewrite E. rewrite IH; [do 2 f_equal; lia|lia|lia|]. intros j Hj'.
  replace (start + 1 + j) with (start + (j + 1)) by lia. replace (i + 1 + j) with (i + (j + 1)) by lia. apply Hj. lia.
Qed.

(** ** The compressor *)

Lemma search_ok data i c :
  chains_ok i c -> 0 <= i < zlen data ->
  exists l d c', search data i c = Ok (l, d, c') /\ chains_ok (i + 1) c' /\ 0 <= l /\ (l = 0 \/ match_at data i l d).
Proof.
  intros Hc Hi. unfold search. destruct (Z.leb_spec (i + MIN_MATCH) (zlen data)).
  - destruct (best_match_ok 128 data c i (at_ NONE (head c) (hash3 data i)) 0 0) as (l & d & -> & H1 & H2);
      [done|lia|apply chain_at, Hc|by left|lia|].
    cbn [obind]. do 3 eexists. split; [done|]. split; [apply chains_ok_insert; [lia|done]|]. done.
  - do 3 eexists. split; [done|]. split; [by apply (chains_ok_le i); [lia|]|]. split; [lia|by left].
Qed.

Lemma deflate_loop_ok fuel data i c w :
  bytes_ok data -> chains_ok i c -> w_ok w -> 0 <= i <= zlen data -> zlen data - i <= Z.of_nat fuel ->
  exists w' s, deflate_loop fuel data i c w = Ok w' /\ w_ok w' /\ wstream w' = wstream w ++ s /\
    decodes (s ++ symbol_bits 256) (take (Z.to_nat i) data) data.
Proof.
  intros Hby. revert i c w. induction fuel as [|k IH]; intros i c w Hc Hw Hi Hf; cbn [deflate_loop];
    (destruct (Z.leb_spec (zlen data) i) as [Hge|Hlt];
      [exists w, []; split; [done|]; split; [done|]; split; [by rewrite app_nil_r|];
       rewrite take_ge by (unfold zlen in *; lia); constructor|]); [lia|].
  destruct (search_ok data i c Hc ltac:(lia)) as (l & d & c' & -> & Hc' & Hl0 & Hm). cbn [obind].
  destruct (Z.leb_spec MIN_MATCH l) as [Hl|Hl]; unfold MIN_MATCH in Hl.
  - destruct Hm as [|(M1 & M2 & M3 & M4 & M5)]; [lia|].
    destruct (emit_match_ok l d w) as [W1 S1]; [lia|lia|done|].
    destruct (IH (i + l) (insert_covered data (i + 1) (i + l) c') (emit_match l d w)) as (w' & s & E & W2 & S2 & D);
      [by apply insert_covered_ok; [lia|..|lia]|done|lia|lia|].
    exists w', (match_bits l d ++ s). rewrite S2, S1, <- !app_assoc. split; [done|]. split; [done|]. split; [done|].
    assert (Hz : zlen (take (Z.to_nat i) data) = i) by (unfold zlen in *; rewrite length_take; lia).
    apply dec_match; [lia|lia|lia|]. rewrite Hz.
    rewrite copy_back_take; [by rewrite Z2Nat.id by lia|lia|lia|]. intros j Hj. apply M5. lia.
  - destruct (emit_symbol_ok (at_ 0 data i) w) as [W1 S1]; [pose proof (bytes_ok_at data i Hby); ulia|done|].
    destruct (IH (i + 1) c' (emit_symbol (at_ 0 data i) w)) as (w' & s & E & W2 & S2 & D); [done|done|lia|lia|].
    exists w', (symbol_bits (at_ 0 data i) ++ s). rewrite S2, S1, <- !app_assoc. split; [done|]. split; [done|]. split; [done|].
    apply dec_literal; [pose proof (bytes_ok_at data i Hby); ulia|].
    replace (take (Z.to_nat i) data ++ [at_ 0 data i]) with (take (Z.to_nat (i + 1)) data); [done|].
    replace (Z.to_nat (i + 1)) with (S (Z.to_nat i)) by lia. apply take_S_r, lookup_at. lia.
Qed.

Lemma deflate_ok data :
  bytes_ok data ->
  exists z, deflate data = Ok z /\ bytes_ok z /\
    exists s k, bytes_bits z = bits_n 1 1 ++ bits_n 2 1 ++ s ++ replicate k false /\ decodes s [] data.
Proof.
  intros Hby. unfold deflate.
  destruct (write_ok 1 1 w_new w_ok_new ltac:(lia)) as [W1 S1]. destruct (write_ok 1 2 _ W1 ltac:(lia)) as [W2 S2].
  destruct (deflate_loop_ok (length data) data 0 (mkChains (zrepeat NONE HASH_SIZE) (zrepeat NONE (Z.max (zlen data) 1)))
    (write 1 2 (write 1 1 w_new)) Hby) as (w' & s & -> & W3 & S3 & D).
  { split; apply Forall_replicate; by left. } { done. } { pose proof (zlen_nonneg data). lia. } { unfold zlen. lia. }
  cbn [obind]. destruct (emit_symbol_ok 256 w' ltac:(lia) W3) as [W4 S4]. destruct (finish_ok _ W4) as (B & k & Ek).
  eexists. split; [done|]. split; [done|]. exists (s ++ symbol_bits 256), k. split; [|done].
  rewrite Ek, S4, S3, S2, S1. rewrite <- !app_assoc. done.
Qed.

Lemma inflate_deflate data :
  bytes_ok data -> zlen data <= MAX_OUTPUT -> exists z, deflate data = Ok z /\ bytes_ok z /\ inflate z = Ok data.
Proof.
  intros Hby Hz. destruct (deflate_ok data Hby) as (z & E & B & s & k & Es & D). exists z. split; [done|]. split; [done|].
  destruct (r_ok_new z B) as [R0 S0]. rewrite Es in S0. unfold inflate. cbn [inflate_loop].
  destruct (bits_run 1 1 _ _ R0 ltac:(lia) ltac:(lia) S0) as (r1 & E1 & R1 & _ & S1).
  erewrite sbind_ok by exact E1.
  destruct (bits_run 2 1 _ _ R1 ltac:(lia) ltac:(lia) S1) as (r2 & E2 & R2 & _ & S2).
  erewrite sbind_ok by exact E2.
  destruct (block_run s [] data r2 _ (Z.to_nat (8 * zlen z)) D R2 S2) as (r3 & E3 & R3 & S3).
  { pose proof (f_equal zlen Es) as El. rewrite zlen_bytes_bits, !zlen_app in El. pose proof (zlen_nonneg (replicate k false)).
    pose proof (zlen_nonneg z). pose proof (zlen_nonneg (bits_n 1 1)). pose proof (zlen_nonneg (bits_n 2 1)). lia. }
  unfold inflate_typed. change (1 =? 0) with false. change (1 =? 1) with true. cbn iota.
  rewrite fixed_litlen_table, fixed_dist_table. unfold slift at 1 2.
  erewrite sbind_ok; [|erewrite sbind_ok by reflexivity; erewrite sbind_ok by reflexivity; exact E3].
  destruct (Z.ltb_spec MAX_OUTPUT (zlen data)); [lia|]. done.
Qed.

(** ** The zlib container *)

Lemma adler32_range data : 0 <= adler32 data < 2 ^ 32.
Proof.
  unfold adler32. set (f := fun '(a, b) x => _).
  assert (H : forall l p, 0 <= p.1 < 65536 -> 0 <= p.2 < 65536 -> 0 <= (foldl f p l).1 < 65536 /\ 0 <= (foldl f p l).2 < 65536).
  { induction l as [|x l IH]; intros [a b] Ha Hb; [done|]. cbn [foldl]. apply IH; cbn.
    - pose proof (Z.mod_pos_bound (a + x) 65521 ltac:(lia)). lia.
    - pose proof (Z.mod_pos_bound (b + (a + x) mod 65521) 65521 ltac:(lia)). lia. }
  destruct (H data (1, 0)) as [H1 H2]; [cbn; lia..|]. destruct (foldl f (1, 0) data) as [a b]. cbn [fst snd] in *.
  rewrite Z.lor_comm, lor_shift by lia. lia.
Qed.

Lemma zlib_roundtrip data :
  bytes_ok data -> zlen data <= MAX_OUTPUT -> exists z, zlib_compress data = Ok z /\ zlib_decompress z = Ok data.
Proof.
  intros Hby Hz. destruct (inflate_deflate data Hby Hz) as (s & E & B & I). unfold zlib_compress. rewrite E. cbn [obind].
  eexists. split; [done|]. set (be := be_bytes 4 (adler32 data)).
  assert (Hbe : zlen be = 4) by apply zlen_be_bytes.
  unfold zlib_decompress. rewrite !zlen_app, Hbe. change (zlen [120; 156]) with 2. pose proof (zlen_nonneg s).
  destruct (Z.ltb_spec (2 + (zlen s + 4)) 6); [lia|]. change (Z.land (at_ 0 ([120; 156] ++ s ++ be) 0) 15 =? 8) with true.
  cbn [negb]. replace (2 + (zlen s + 4) - 4 - 2) with (zlen s) by lia. replace (2 + (zlen s + 4) - 4) with (2 + zlen s) by lia.
  rewrite (slice_app_skip [120; 156]) by (change (zlen [120; 156]) with 2; lia).
  rewrite slice_app_here by (change (zlen [120; 156]) with 2; lia). rewrite I. cbn [obind].
  rewrite (slice_app_skip [120; 156]) by (change (zlen [120; 156]) with 2; lia).
  rewrite (slice_app_skip s) by (change (zlen [120; 156]) with 2; lia).
  rewrite slice_whole by (change (zlen [120; 156]) with 2; lia).
  unfold be. rewrite be_val_bytes by apply adler32_range. by rewrite Z.eqb_refl.
Qed.

Lemma containers_total data : bytes_ok data -> returns (zlib_decompress data) /\ returns (gzip_decompress data).
Proof.
  intros Hd. split.
  - unfold zlib_decompress. case_if; [done|]. case_if; [done|].
    pose proof (inflate_total _ (bytes_ok_slice data 2 (zlen data - 4 - 2) Hd)) as H.
    destruct (inflate _); cbn [obind]; try done. by case_if.
  - unfold gzip_decompress. case_if; [done|]. unfold gzip_body_start.
    assert (Hp : forall p : Z, returns (if zlen data <? p + 8 then Err UnexpectedEof else
      let? out := inflate (slice data p (zlen data - 8 - p)) in
      if crc32 out =? rd_u32 data (zlen data - 8) then Ok out else Err BadCode)).
    { intros p. case_if; [done|]. pose proof (inflate_total _ (bytes_ok_slice data p (zlen data - 8 - p) Hd)) as Hi.
      destruct (inflate _); cbn [obind]; try done. by case_if. }
    destruct (negb (Z.land (at_ 0 data 3) 4 =? 0)); [destruct (zlen data <? 10 + 2); [done|]|]; cbn [obind]; apply Hp.
Qed.

(** The gzip trailer's length field is not compared with the output: a stream of an empty file whose
    trailer says 99 bytes is accepted. *)
Lemma gzip_isize_unchecked :
  gzip_decompress ([31; 139; 8; 0; 0; 0; 0; 0; 0; 3] ++ [3; 0] ++ [0; 0; 0; 0] ++ [99; 0; 0; 0]) = Ok [].
Proof. vm_compute. reflexivity. Qed.

(** ** Claims *)

(** C40 Compression is lossless: for every byte string of at most 64 MiB, [deflate] returns (its match finder
    never panics and its loop ends), [inflate] of the result gives the string back, and so do the
    combined routine and the zlib container with its Adler-32 trailer.  Decompression is total on untrusted input:
    for every byte string [inflate] and the zlib and gzip readers return a result or an error; no table index, no
    shift and no slice of theirs is out of range and every loop ends. *)
Theorem flate_roundtrip data junk :
  bytes_ok data -> zlen data <= MAX_OUTPUT -> bytes_ok junk ->
  (exists z, deflate data = Ok z /\ bytes_ok z /\ inflate z = Ok data) /\
  deflate_then_inflate data = Ok data /\
  (exists z, zlib_compress data = Ok z /\ zlib_decompress z = Ok data) /\
  returns (inflate junk) /\ returns (zlib_decompress junk) /\ returns (gzip_decompress junk).
Proof.
  intros Hby Hz Hj. split; [by apply inflate_deflate|]. split; [|split; [by apply zlib_roundtrip|split; [by apply inflate_total|by apply containers_total]]].
  unfold deflate_then_inflate. destruct (inflate_deflate data Hby Hz) as (z & -> & _ & E). exact E.
Qed.

Lemma flate_roundtrip_witness :
  deflate_then_inflate [97; 98; 99; 97; 98; 99; 97; 98; 99; 0; 255] = Ok [97; 98; 99; 97; 98; 99; 97; 98; 99; 0; 255] /\
  returns (inflate [5; 192; 129; 0; 255]).
Proof.
  destruct (flate_roundtrip [97; 98; 99; 97; 98; 99; 97; 98; 99; 0; 255] [5; 192; 129; 0; 255]) as (_ & H1 & _ & H2 & _);
    [unfold bytes_ok; forall_lia|by vm_compute|unfold bytes_ok; forall_lia|].
  split; [exact H1|exact H2].
Defined.

End FlateRoundtrip.
