(* ===== verification/Firewall.v ===== *)
(** The packet filter: the rule engine ([src/crates/eurofw/src/lib.rs]) and its
    place in the receive path ([src/kernel/src/firewall.rs]). *)

From S2P Require Import Prelude Bytes.

Module Firewall.

Inductive Action := Accept | Drop.

Inductive Proto := Any | Icmp | Tcp | Udp.

Inductive Direction := In | Out | Both.

#[export] Instance action_eq_dec : EqDecision Action.
Proof. solve_decision. Defined.

#[export] Instance proto_eq_dec : EqDecision Proto.
Proof. solve_decision. Defined.

#[export] Instance direction_eq_dec : EqDecision Direction.
Proof. solve_decision. Defined.

Definition from_ip (n : Z) : Proto :=
  if n =? 1 then Icmp else if n =? 6 then Tcp else if n =? 17 then Udp else Any.

Record Packet := mkPacket {
  p_direction : Direction;
  p_proto : Proto;
  p_src : Z;
  p_dst : Z;
  p_src_port : Z;
  p_dst_port : Z;
}.

Record Rule := mkRule {
  action : Action;
  direction : Direction;
  proto : Proto;
  src : option (Z * Z);
  dst : option (Z * Z);
  src_port : option Z;
  dst_port : option Z;
}.

(** ** Building rules *)

Definition rule (a : Action) : Rule := mkRule a Both Any None None None None.

Definition with_dir (d : Direction) (r : Rule) : Rule :=
  mkRule (action r) d (proto r) (src r) (dst r) (src_port r) (dst_port r).
Definition with_proto (p : Proto) (r : Rule) : Rule :=
  mkRule (action r) (direction r) p (src r) (dst r) (src_port r) (dst_port r).
Definition src_cidr (net prefix : Z) (r : Rule) : Rule :=
  mkRule (action r) (direction r) (proto r) (Some (net, prefix)) (dst r) (src_port r) (dst_port r).
Definition dst_cidr (net prefix : Z) (r : Rule) : Rule :=
  mkRule (action r) (direction r) (proto r) (src r) (Some (net, prefix)) (src_port r) (dst_port r).
Definition with_dst_port (p : Z) (r : Rule) : Rule :=
  mkRule (action r) (direction r) (proto r) (src r) (dst r) (src_port r) (Some p).
Definition with_src_port (p : Z) (r : Rule) : Rule :=
  mkRule (action r) (direction r) (proto r) (src r) (dst r) (Some p) (dst_port r).

(** ** Matching *)

Definition cidr_match (net prefix ip : Z) : bool :=
  if prefix =? 0 then true
  else
    let mask := if 32 <=? prefix then U32_MAX else Z.lxor U32_MAX (Z.shiftr U32_MAX prefix) in
    Z.land ip mask =? Z.land net mask.

Definition dir_matches (r : Rule) (d : Direction) : bool :=
  bool_decide (direction r = Both) || bool_decide (direction r = d).

(** [opt.map(f).unwrap_or(true)] *)
Definition wild {A} (f : A -> bool) (o : option A) : bool := match o with Some x => f x | None => true end.

Definition matches (r : Rule) (p : Packet) : bool :=
  dir_matches r (p_direction p)
  && (bool_decide (proto r = Any) || bool_decide (proto r = p_proto p))
  && wild (fun '(n, pre) => cidr_match n pre (p_src p)) (src r)
  && wild (fun '(n, pre) => cidr_match n pre (p_dst p)) (dst r)
  && wild (fun x => x =? p_src_port p) (src_port r)
  && wild (fun x => x =? p_dst_port p) (dst_port r).

(** ** The firewall *)

Record Firewall := mkFw {
  rules : list Rule;
  default : Action;
  accepted : Z;
  dropped : Z;
}.

Definition new (d : Action) : Firewall := mkFw [] d 0 0.

Definition push (r : Rule) (f : Firewall) : Firewall := mkFw (rules f ++ [r]) (default f) (accepted f) (dropped f).
Definition set_default (a : Action) (f : Firewall) : Firewall := mkFw (rules f) a (accepted f) (dropped f).
Definition rule_count (f : Firewall) : Z := zlen (rules f).
Definition clear (f : Firewall) : Firewall := mkFw [] (default f) (accepted f) (dropped f).

Definition peek (f : Firewall) (p : Packet) : Action :=
  match find (fun r => matches r p) (rules f) with Some r => action r | None => default f end.

Definition verdict (p : Packet) : ST Firewall unit Action := fun f =>
  let a := peek f p in
  match a with
  | Accept => match add64 (E := unit) (accepted f) 1 with
              | Ok n => (Ok a, mkFw (rules f) (default f) n (dropped f))
              | _ => (Panic, f)
              end
  | Drop => match add64 (E := unit) (dropped f) 1 with
            | Ok n => (Ok a, mkFw (rules f) (default f) (accepted f) n)
            | _ => (Panic, f)
            end
  end.

(** ** The kernel's filter *)

(** [u32::from_be_bytes] *)
Definition ip (a b c d : Z) : Z := ((a * 256 + b) * 256 + c) * 256 + d.

Definition init : Firewall :=
  push (src_cidr (ip 198 51 100 0) 24 (with_dir In (rule Drop)))
    (push (with_dst_port 139 (with_proto Tcp (with_dir In (rule Drop))))
       (push (with_dst_port 23 (with_proto Tcp (with_dir In (rule Drop)))) (new Accept))).

Definition inbound_allowed (ip_proto s d sp dp : Z) : ST (option Firewall) unit bool := fun fw =>
  match fw with
  | Some f =>
      match verdict (mkPacket In (from_ip ip_proto) s d sp dp) f with
      | (Ok a, f') => (Ok (bool_decide (a = Accept)), Some f')
      | (Err e, f') => (Err e, Some f')
      | (Panic, f') => (Panic, Some f')
      | (OutOfFuel, f') => (OutOfFuel, Some f')
      end
  | None => (Ok true, None)
  end.

Definition stats (fw : option Firewall) : Z * Z :=
  match fw with Some f => (accepted f, dropped f) | None => (0, 0) end.

(** ** What a rule means *)

(** The addresses of a CIDR block: those that agree with the network on the first [prefix] of 32 bits. *)
Definition in_block (net prefix ip : Z) : Prop := forall i, 32 - prefix <= i < 32 -> Z.testbit ip i = Z.testbit net i.

Definition optionally {A} (P : A -> Prop) (o : option A) : Prop := forall x, o = Some x -> P x.

Record covers (r : Rule) (p : Packet) : Prop := mkCovers {
  cov_dir : direction r = Both \/ direction r = p_direction p;
  cov_proto : proto r = Any \/ proto r = p_proto p;
  cov_src : optionally (fun '(n, pre) => in_block n pre (p_src p)) (src r);
  cov_dst : optionally (fun '(n, pre) => in_block n pre (p_dst p)) (dst r);
  cov_src_port : optionally (fun x => x = p_src_port p) (src_port r);
  cov_dst_port : optionally (fun x => x = p_dst_port p) (dst_port r);
}.

(** The decision of a policy, as a list of rules with a default: the first rule that covers the packet. *)
Inductive decides (d : Action) : list Rule -> Packet -> Action -> Prop :=
| decides_default p : decides d [] p d
| decides_here r rs p : covers r p -> decides d (r :: rs) p (action r)
| decides_later r rs p a : ~ covers r p -> decides d rs p a -> decides d (r :: rs) p a.

Definition rule_ok (r : Rule) : Prop :=
  optionally (fun '(n, pre) => is_u32 n /\ is_u8 pre) (src r) /\ optionally (fun '(n, pre) => is_u32 n /\ is_u8 pre) (dst r).

Definition packet_ok (p : Packet) : Prop := is_u32 (p_src p) /\ is_u32 (p_dst p).

(** ** Proofs *)

Lemma testbit_u32 v i : is_u32 v -> 32 <= i -> Z.testbit v i = false.
Proof.
  intros Hv Hi. destruct (Z.eq_dec v 0) as [->|]; [apply Z.bits_0|]. apply Z.bits_above_log2; [ulia|].
  apply Z.lt_le_trans with 32; [|lia]. apply Z.log2_lt_pow2; unfold is_u32, U32_MAX in *; lia.
Qed.

Lemma mask_bit prefix i : 0 <= i < 32 -> 1 <= prefix < 32 ->
  Z.testbit (Z.lxor U32_MAX (Z.shiftr U32_MAX prefix)) i = (32 - prefix <=? i).
Proof.
  intros Hi Hp. change U32_MAX with (Z.ones 32). rewrite Z.lxor_spec, Z.shiftr_spec by lia.
  rewrite (Z.ones_spec_low 32 i) by lia. destruct (Z.leb_spec (32 - prefix) i).
  - rewrite Z.ones_spec_high by lia. done.
  - rewrite Z.ones_spec_low by lia. done.
Qed.

Lemma land_agree a b m : is_u32 a -> is_u32 b ->
  Z.land a m = Z.land b m <-> forall i, 0 <= i < 32 -> Z.testbit m i = true -> Z.testbit a i = Z.testbit b i.
Proof.
  intros Ha Hb. split.
  - intros E i Hi Hm. apply (f_equal (fun z => Z.testbit z i)) in E. rewrite !Z.land_spec, Hm, !andb_true_r in E. done.
  - intros H. apply Z.bits_inj'. intros i Hi. rewrite !Z.land_spec. destruct (Z.lt_ge_cases i 32).
    + destruct (Z.testbit m i) eqn:Em; [|by rewrite !andb_false_r]. by rewrite (H i).
    + by rewrite (testbit_u32 a), (testbit_u32 b) by done.
Qed.

Lemma cidr_match_spec net prefix a : is_u32 net -> is_u8 prefix -> is_u32 a -> cidr_match net prefix a = true <-> in_block net prefix a.
Proof.
  intros Hn Hp Ha. unfold cidr_match, in_block. destruct (Z.eqb_spec prefix 0) as [->|Hp0]; [split; [intros; lia|done]|].
  rewrite Z.eqb_eq, land_agree by done. destruct (Z.leb_spec 32 prefix).
  - split; intros H' i Hi; [destruct (Z.lt_ge_cases i 0); [by rewrite !Z.testbit_neg_r by lia|]; apply H'; [lia|]|intros _; apply H'; lia].
    change U32_MAX with (Z.ones 32). apply Z.ones_spec_low. lia.
  - assert (1 <= prefix < 32) by (unfold is_u8 in Hp; lia).
    split; intros H' i Hi; [|intros Hm; apply H'; rewrite mask_bit in Hm by lia; lia].
    apply H'; [lia|]. rewrite mask_bit by lia. lia.
Qed.

Lemma wild_spec {A} (f : A -> bool) (P : A -> Prop) o :
  (forall x, o = Some x -> f x = true <-> P x) -> wild f o = true <-> optionally P o.
Proof.
  intros H. unfold optionally. destruct o as [x|]; cbn.
  - rewrite (H x) by done. split; [by intros ? ? [= <-]|auto].
  - split; done.
Qed.

Lemma matches_spec r p : rule_ok r -> packet_ok p -> matches r p = true <-> covers r p.
Proof.
  intros [R1 R2] [P1 P2]. unfold matches, dir_matches. rewrite !andb_true_iff, !orb_true_iff, !bool_decide_eq_true.
  rewrite (wild_spec _ (fun '(n, pre) => in_block n pre (p_src p)) (src r)).
  2: { intros [n pre] E. destruct (R1 _ E). by apply cidr_match_spec. }
  rewrite (wild_spec _ (fun '(n, pre) => in_block n pre (p_dst p)) (dst r)).
  2: { intros [n pre] E. destruct (R2 _ E). by apply cidr_match_spec. }
  rewrite (wild_spec _ (fun x => x = p_src_port p) (src_port r)) by (intros; apply Z.eqb_eq).
  rewrite (wild_spec _ (fun x => x = p_dst_port p) (dst_port r)) by (intros; apply Z.eqb_eq).
  split; [intros [[[[[? ?] ?] ?] ?] ?]; by constructor|intros []; tauto].
Qed.

Lemma find_decides d rs p : Forall rule_ok rs -> packet_ok p ->
  decides d rs p (match find (fun r => matches r p) rs with Some r => action r | None => d end).
Proof.
  intros Hr Hp. induction Hr as [|r rs Hr _ IH]; cbn [find]; [constructor|].
  destruct (matches r p) eqn:E; [apply decides_here, matches_spec; done|].
  apply decides_later; [|done]. rewrite <- matches_spec, E by done. done.
Qed.

Lemma decides_det d rs p a b : decides d rs p a -> decides d rs p b -> a = b.
Proof. intros H. revert b. induction H; intros b Hb; inversion Hb; subst; try done; auto. Qed.

(** ** Histories *)

Inductive op := OPush (r : Rule) | ODefault (a : Action) | OClear | OPacket (p : Packet).

(** One call on the firewall: the decision, for a packet. *)
Definition perform (o : op) : ST Firewall unit (option Action) :=
  match o with
  | OPush r => fun f => (Ok None, push r f)
  | ODefault a => fun f => (Ok None, set_default a f)
  | OClear => fun f => (Ok None, clear f)
  | OPacket p => let! a := verdict p in sret (Some a)
  end.

Fixpoint performs (os : list op) : ST Firewall unit (list Action) :=
  match os with
  | [] => sret []
  | o :: os' => let! a := perform o in let! l := performs os' in sret (match a with Some x => x :: l | None => l end)
  end.

(** The policy as the administrator sees it: rules in the order they were added, and the default. *)
Inductive history : list Rule -> Action -> list op -> list Action -> Prop :=
| h_nil rs d : history rs d [] []
| h_push rs d r os l : history (rs ++ [r]) d os l -> history rs d (OPush r :: os) l
| h_default rs d a os l : history rs a os l -> history rs d (ODefault a :: os) l
| h_clear rs d os l : history [] d os l -> history rs d (OClear :: os) l
| h_packet rs d p os a l : decides d rs p a -> history rs d os l -> history rs d (OPacket p :: os) (a :: l).

Definition op_ok (o : op) : Prop :=
  match o with OPush r => rule_ok r | OPacket p => packet_ok p | _ => True end.

Definition count (a : Action) (l : list Action) : Z := zlen (filter (fun x => x = a) l).

Lemma count_nil a : count a [] = 0.
Proof. reflexivity. Qed.

Lemma count_cons a x l : count a (x :: l) = (if decide (x = a) then 1 else 0) + count a l.
Proof. unfold count. rewrite filter_cons. case_decide; [rewrite zlen_cons|]; lia. Qed.

Lemma verdict_ok p f : 0 <= accepted f < U64_MAX -> 0 <= dropped f < U64_MAX ->
  verdict p f = (Ok (peek f p), mkFw (rules f) (default f) (accepted f + count Accept [peek f p]) (dropped f + count Drop [peek f p])).
Proof.
  intros Ha Hd. unfold verdict, add64. destruct (peek f p); cbn.
  - destruct (Z.leb_spec (accepted f + 1) U64_MAX); [|lia]. by rewrite Z.add_0_r.
  - destruct (Z.leb_spec (dropped f + 1) U64_MAX); [|lia]. by rewrite Z.add_0_r.
Qed.

Lemma performs_ok os f :
  Forall op_ok os -> Forall rule_ok (rules f) -> 0 <= accepted f -> 0 <= dropped f ->
  accepted f + zlen os <= U64_MAX -> dropped f + zlen os <= U64_MAX ->
  exists l f', performs os f = (Ok l, f') /\ history (rules f) (default f) os l /\
    accepted f' = accepted f + count Accept l /\ dropped f' = dropped f + count Drop l.
Proof.
  intros Ho. revert f. induction Ho as [|o os Ho _ IH]; intros f Hr Ha Hd Hla Hld.
  { exists [], f. cbn. split; [done|]. split; [constructor|]. rewrite !count_nil. lia. }
  rewrite zlen_cons in Hla, Hld. pose proof (zlen_nonneg os). cbn [performs].
  destruct o as [r|a| |p]; cbn [perform op_ok] in *; unfold sbind at 1.
  - destruct (IH (push r f)) as (l & f' & E & Hh & Ea & Ed); cbn [push rules default accepted dropped] in *; [by apply Forall_app; auto|lia..|].
    exists l, f'. unfold sbind. rewrite E. split; [done|]. split; [by constructor|done].
  - destruct (IH (set_default a f)) as (l & f' & E & Hh & Ea & Ed); cbn [set_default rules default accepted dropped] in *; [done|lia..|].
    exists l, f'. unfold sbind. rewrite E. split; [done|]. split; [by constructor|done].
  - destruct (IH (clear f)) as (l & f' & E & Hh & Ea & Ed); cbn [clear rules default accepted dropped] in *; [done|lia..|].
    exists l, f'. unfold sbind. rewrite E. split; [done|]. split; [by constructor|done].
  - erewrite sbind_ok by (apply verdict_ok; lia). unfold sret at 1.
    assert (C : forall a, 0 <= count a [peek f p] <= 1).
    { intros a. rewrite count_cons, count_nil. case_decide; lia. }
    pose proof (C Accept). pose proof (C Drop).
    destruct (IH (mkFw (rules f) (default f) (accepted f + count Accept [peek f p]) (dropped f + count Drop [peek f p])))
      as (l & f' & E & Hh & Ea & Ed); cbn [rules default accepted dropped] in *; [done|lia..|].
    exists (peek f p :: l), f'. unfold sbind. rewrite E. split; [done|]. split; [constructor; [by apply find_decides|done]|].
    rewrite Ea, Ed, !count_cons, !count_nil. lia.
Qed.

(** ** Claim *)

(** C28 For any sequence of rule changes and packets (fewer than 2^64), every packet gets the action of the first
    rule, in the order they were added, whose direction, protocol, address blocks and ports cover it, or the
    default if none does; that action is unique; the two counters count the decisions; and the side-effect-free
    query gives the same answer. A CIDR block covers exactly the addresses that agree on its prefix bits. *)
Theorem firewall_first_match os f p :
  Forall op_ok os -> Forall rule_ok (rules f) -> packet_ok p -> 0 <= accepted f -> 0 <= dropped f ->
  accepted f + zlen os <= U64_MAX -> dropped f + zlen os <= U64_MAX ->
  (exists l f', performs os f = (Ok l, f') /\ history (rules f) (default f) os l /\
    accepted f' = accepted f + count Accept l /\ dropped f' = dropped f + count Drop l) /\
  (forall a, decides (default f) (rules f) p a <-> peek f p = a).
Proof.
  intros Ho Hr Hp Ha Hd Hla Hld. split; [by apply performs_ok|]. intros a.
  pose proof (find_decides (default f) (rules f) p Hr Hp) as H. split; [|by intros <-]. intros H'. by eapply decides_det.
Qed.

(** The kernel's filter drops Telnet from anywhere and lets HTTPS through. *)
Lemma firewall_first_match_witness :
  decides Accept (rules init) (mkPacket In Tcp (ip 8 8 8 8) (ip 10 0 0 1) 40000 23) Drop /\
  decides Accept (rules init) (mkPacket In Tcp (ip 8 8 8 8) (ip 10 0 0 1) 40000 443) Accept.
Proof.
  assert (Hr : Forall rule_ok (rules init)).
  { repeat constructor; intros x E; cbn in E; try discriminate E; injection E as <-; vm_compute; intuition discriminate. }
  split; (eapply (firewall_first_match [] init); [constructor|exact Hr|vm_compute; intuition discriminate|done|done|done|done|reflexivity]).
Defined.
End Firewall.
