(* ===== verification/Update.v ===== *)
(** The A/B slot configuration ([src/crates/euroupdate/src/lib.rs]): which of the
    two system slots boots, the attempt counter of a new one, and the 32-byte
    block both the loader and the kernel keep it in. *)

From S2P Require Import Prelude Bytes.

Module Update.

Inductive Slot := A | B.

#[export] Instance slot_eq_dec : EqDecision Slot.
Proof. solve_decision. Defined.

Definition other (s : Slot) : Slot := match s with A => B | B => A end.

Definition slot_to_u8 (s : Slot) : Z := match s with A => 0 | B => 1 end.
Definition slot_from_u8 (v : Z) : Slot := if v =? 1 then B else A.

Inductive SlotState := Empty | Trying | Good | Failed.

#[export] Instance slot_state_eq_dec : EqDecision SlotState.
Proof. solve_decision. Defined.

Definition state_to_u8 (s : SlotState) : Z :=
  match s with Empty => 0 | Trying => 1 | Good => 2 | Failed => 3 end.
Definition state_from_u8 (v : Z) : SlotState :=
  if v =? 1 then Trying else if v =? 2 then Good else if v =? 3 then Failed else Empty.

Definition DEFAULT_TRIES : Z := 3.
Definition MAGIC : Z := 1163219012. (* 0x4555_5044 *)
Definition CONFIG_SIZE : Z := 32.

Record SlotConfig := mkConfig {
  active : Slot;
  next_boot : Slot;
  tries : Z;
  state_a : SlotState;
  state_b : SlotState;
  generation : Z;
}.

Definition initial : SlotConfig := mkConfig A A 0 Good Empty 1.

Definition state (c : SlotConfig) (s : Slot) : SlotState := match s with A => state_a c | B => state_b c end.

Definition set_state (s : Slot) (st : SlotState) (c : SlotConfig) : SlotConfig :=
  match s with
  | A => mkConfig (active c) (next_boot c) (tries c) st (state_b c) (generation c)
  | B => mkConfig (active c) (next_boot c) (tries c) (state_a c) st (generation c)
  end.

Definition inactive (c : SlotConfig) : Slot := other (active c).

Definition stage_update (c : SlotConfig) : SlotConfig :=
  let target := inactive c in
  let c := set_state target Trying c in
  mkConfig (active c) target DEFAULT_TRIES (state_a c) (state_b c) ((generation c + 1) mod 2 ^ 32).

Definition find_good (c : SlotConfig) : Slot :=
  let cand := other (next_boot c) in
  if decide (state c cand = Good) then cand
  else if decide (state c (next_boot c) = Good) then next_boot c
  else A.

Definition on_boot (c : SlotConfig) : Slot * SlotConfig :=
  if 0 <? tries c then
    (next_boot c, mkConfig (next_boot c) (next_boot c) (tries c - 1) (state_a c) (state_b c) (generation c))
  else if decide (state c (next_boot c) = Trying) then
    let c := set_state (next_boot c) Failed c in
    let good := find_good c in
    (good, mkConfig good good (tries c) (state_a c) (state_b c) (generation c))
  else (next_boot c, mkConfig (next_boot c) (next_boot c) (tries c) (state_a c) (state_b c) (generation c)).

Definition mark_good (c : SlotConfig) : SlotConfig :=
  let c := set_state (active c) Good c in
  mkConfig (active c) (active c) 0 (state_a c) (state_b c) (generation c).

Definition rollback (c : SlotConfig) : bool * SlotConfig :=
  let o := other (active c) in
  if decide (state c o = Good) then (true, mkConfig (active c) o 0 (state_a c) (state_b c) (generation c))
  else (false, c).

(** ** The block *)

Definition fletcher (data : list Z) : Z * Z :=
  foldl (fun '(s1, s2) b => let s1 := (s1 + b) mod 65535 in (s1, (s2 + s1) mod 65535)) (65535, 65535) data.

Definition checksum (data : list Z) : Z :=
  let '(s1, s2) := fletcher data in Z.lor (Z.shiftl s2 16) s1.

Definition fields (c : SlotConfig) : list Z :=
  let b := zrepeat 0 CONFIG_SIZE in
  let b := splice b 0 (le_bytes 4 MAGIC) in
  let b := wr_u8 b 4 1 in
  let b := wr_u8 b 5 (slot_to_u8 (active c)) in
  let b := wr_u8 b 6 (slot_to_u8 (next_boot c)) in
  let b := wr_u8 b 7 (tries c) in
  let b := wr_u8 b 8 (state_to_u8 (state_a c)) in
  let b := wr_u8 b 9 (state_to_u8 (state_b c)) in
  wr_u32 b 12 (generation c).

Definition serialize (c : SlotConfig) : list Z :=
  let b := fields c in
  splice b (CONFIG_SIZE - 4) (le_bytes 4 (checksum (slice b 0 (CONFIG_SIZE - 4)))).

Definition deserialize (b : list Z) : option SlotConfig :=
  if zlen b <? CONFIG_SIZE then None
  else if negb (rd_u32 b 0 =? MAGIC) then None
  else if negb (checksum (slice b 0 (CONFIG_SIZE - 4)) =? rd_u32 b (CONFIG_SIZE - 4)) then None
  else Some (mkConfig (slot_from_u8 (at_ 0 b 5)) (slot_from_u8 (at_ 0 b 6)) (at_ 0 b 7)
               (state_from_u8 (at_ 0 b 8)) (state_from_u8 (at_ 0 b 9)) (rd_u32 b 12)).

(** ** The state machine *)

Lemma other_other s : other (other s) = s.
Proof. by destruct s. Qed.

Lemma state_set s s' st c : state (set_state s st c) s' = if decide (s' = s) then st else state c s'.
Proof. by destruct s, s'. Qed.

(** ** The block *)

Record config_ok (c : SlotConfig) : Prop := mkConfigOk {
  ok_tries : is_u8 (tries c);
  ok_generation : is_u32 (generation c);
}.

Lemma fields_list c :
  fields c = [68; 80; 85; 69; 1; slot_to_u8 (active c); slot_to_u8 (next_boot c); tries c;
              state_to_u8 (state_a c); state_to_u8 (state_b c); 0; 0] ++ le_bytes 4 (generation c) ++ zrepeat 0 16.
Proof. reflexivity. Qed.

Definition sum (l : list Z) : Z := foldr Z.add 0 l.

Lemma fletcher_spec data x s :
  let '(s1, s2) := foldl (fun '(s1, s2) b => let s1 := (s1 + b) mod 65535 in (s1, (s2 + s1) mod 65535)) (x mod 65535, s mod 65535) data in
  s1 = (x + sum data) mod 65535 /\ 0 <= s2 < 65535.
Proof.
  revert x s. induction data as [|b data IH]; intros x s; cbn [foldl sum foldr].
  { rewrite Z.add_0_r. split; [done|]. apply Z.mod_pos_bound. lia. }
  rewrite Zplus_mod_idemp_l. specialize (IH (x + b) (s mod 65535 + (x + b) mod 65535)).
  destruct (foldl _ _ _). destruct IH as [-> H]. split; [|done]. f_equal. unfold sum. lia.
Qed.

(** The low half of the checksum is the sum of the bytes. *)
Lemma checksum_spec b data : exists s2, 0 <= s2 < 65535 /\ checksum (b :: data) = s2 * 65536 + sum (b :: data) mod 65535.
Proof.
  unfold checksum, fletcher. cbn [foldl].
  pose proof (fletcher_spec data (65535 + b) (65535 + (65535 + b) mod 65535)) as H.
  destruct (foldl _ _ _) as [s1 s2]. destruct H as [-> H2]. exists s2. split; [done|].
  replace (65535 + b + sum data) with (sum (b :: data) + 1 * 65535) by (unfold sum; cbn; lia).
  rewrite Z.mod_add by lia. pose proof (Z.mod_pos_bound (sum (b :: data)) 65535 ltac:(lia)).
  rewrite Z.lor_comm. set (s := sum (b :: data) mod 65535) in *.
  rewrite lor_shift by lia. lia.
Qed.

Definition body (c : SlotConfig) : list Z :=
  [68; 80; 85; 69; 1; slot_to_u8 (active c); slot_to_u8 (next_boot c); tries c;
   state_to_u8 (state_a c); state_to_u8 (state_b c); 0; 0] ++ le_bytes 4 (generation c) ++ zrepeat 0 12.

Lemma serialize_list c : serialize c = body c ++ le_bytes 4 (checksum (body c)).
Proof. reflexivity. Qed.

Lemma config_body_len c : zlen (body c) = 28.
Proof. reflexivity. Qed.

Lemma zlen_serialize c : zlen (serialize c) = CONFIG_SIZE.
Proof. rewrite serialize_list, zlen_app, config_body_len, zlen_le_bytes. done. Qed.

Lemma checksum_range b data : 0 <= checksum (b :: data) < 256 ^ Z.of_nat 4.
Proof.
  destruct (checksum_spec b data) as (s2 & H2 & ->). pose proof (Z.mod_pos_bound (sum (b :: data)) 65535 ltac:(lia)).
  change (256 ^ Z.of_nat 4) with 4294967296. lia.
Qed.

Lemma deserialize_serialize c pad : config_ok c -> deserialize (serialize c ++ pad) = Some c.
Proof.
  intros [Ht Hg]. unfold deserialize. rewrite zlen_app, zlen_serialize. pose proof (zlen_nonneg pad).
  destruct (Z.ltb_spec (CONFIG_SIZE + zlen pad) CONFIG_SIZE); [lia|].
  rewrite serialize_list. change (CONFIG_SIZE - 4) with (zlen (body c)).
  assert (Hc : checksum (slice ((body c ++ le_bytes 4 (checksum (body c))) ++ pad) 0 (zlen (body c))) = checksum (body c))
    by (by rewrite <- app_assoc, slice_app_exact).
  assert (Hr : rd_u32 ((body c ++ le_bytes 4 (checksum (body c))) ++ pad) (zlen (body c)) = checksum (body c)).
  { unfold rd_u32. rewrite <- app_assoc, slice_app_skip, slice_app_here by (rewrite ?zlen_le_bytes; lia || done).
    apply le_val_bytes. apply checksum_range. }
  rewrite Hc, Hr. change (negb (rd_u32 _ 0 =? MAGIC)) with false. cbn iota. rewrite Z.eqb_refl. cbn [negb].
  assert (Hgen : rd_u32 ((body c ++ le_bytes 4 (checksum (body c))) ++ pad) 12 = generation c).
  { unfold rd_u32. rewrite <- (le_val_bytes 4 (generation c)) by (unfold is_u32, U32_MAX in Hg; cbn; lia). f_equal. }
  rewrite Hgen, <- app_assoc. set (s := _ ++ pad). clearbody s. clear.
  change (at_ 0 (body c ++ s) 5) with (slot_to_u8 (active c)). change (at_ 0 (body c ++ s) 6) with (slot_to_u8 (next_boot c)).
  change (at_ 0 (body c ++ s) 7) with (tries c).
  change (at_ 0 (body c ++ s) 8) with (state_to_u8 (state_a c)). change (at_ 0 (body c ++ s) 9) with (state_to_u8 (state_b c)).
  by destruct c as [[] [] ? [] [] ?].
Qed.

Lemma sum_app l s : sum (l ++ s) = sum l + sum s.
Proof. induction l as [|x l IH]; cbn; [done|]. unfold sum in *. lia. Qed.

Lemma sum_upd l i v : 0 <= i < zlen l -> sum (upd l i v) = sum l + v - at_ 0 l i.
Proof.
  intros Hi. pose proof (lookup_at 0 l i Hi) as Ex. pose proof (take_drop_middle l (Z.to_nat i) _ Ex) as E.
  unfold upd. rewrite insert_take_drop by (unfold zlen in Hi; lia). apply (f_equal sum) in E.
  rewrite !sum_app in *. unfold sum in *. cbn [foldr] in *. lia.
Qed.

(** ** Corruption *)

(** Changing one byte changes the checksum. *)
Lemma checksum_upd l i v : bytes_ok l -> is_u8 v -> 0 <= i < zlen l -> v <> at_ 0 l i -> checksum (upd l i v) <> checksum l.
Proof.
  intros Hl Hv Hi Hne E. pose proof (bytes_ok_at l i Hl) as Hb. pose proof (sum_upd l i v Hi) as Hs.
  destruct l as [|b l]; [unfold zlen in Hi; cbn [length] in Hi; lia|].
  destruct (upd (b :: l) i v) as [|b' l'] eqn:Eu; [pose proof (zlen_upd (b :: l) i v) as Hz; rewrite Eu, zlen_cons in Hz;
    pose proof (zlen_nonneg l); unfold zlen in Hz; cbn [length] in Hz; lia|].
  destruct (checksum_spec b l) as (s & Hs1 & E1). destruct (checksum_spec b' l') as (s' & Hs2 & E2). rewrite E1, E2 in E.
  pose proof (Z.mod_pos_bound (sum (b :: l)) 65535 ltac:(lia)). pose proof (Z.mod_pos_bound (sum (b' :: l')) 65535 ltac:(lia)).
  assert (Em : sum (b :: l) mod 65535 = sum (b' :: l') mod 65535) by lia. rewrite Hs in Em.
  unfold is_u8, U8_MAX in *. Z.to_euclidean_division_equations; lia.
Qed.

Lemma slice_upd_in (b : list Z) i v n : 0 <= i < n -> slice (upd b i v) 0 n = upd (slice b 0 n) i v.
Proof. intros. rewrite !slice_0. unfold upd. apply take_insert_lt. lia. Qed.

Lemma single_byte_corruption b c i v :
  bytes_ok b -> zlen b = CONFIG_SIZE -> deserialize b = Some c -> 0 <= i < CONFIG_SIZE -> is_u8 v -> v <> at_ 0 b i ->
  deserialize (upd b i v) = None.
Proof.
  intros Hb Hl Hd Hi Hv Hne. unfold deserialize in *. rewrite zlen_upd, Hl in *. change (CONFIG_SIZE <? CONFIG_SIZE) with false in *.
  cbn iota in *. case_if; [done|]. destruct (negb (rd_u32 b 0 =? MAGIC)); [done|].
  destruct (checksum (slice b 0 (CONFIG_SIZE - 4)) =? rd_u32 b (CONFIG_SIZE - 4)) eqn:E; [|done].
  apply Z.eqb_eq in E. clear Hd. unfold CONFIG_SIZE in *.
  assert (Hz : zlen (slice b 0 (32 - 4)) = 28) by (rewrite zlen_slice; lia).
  destruct (checksum (slice (upd b i v) 0 (32 - 4)) =? rd_u32 (upd b i v) (32 - 4)) eqn:E'; [|done]. apply Z.eqb_eq in E'. exfalso.
  destruct (Z.lt_ge_cases i 28).
  - rewrite slice_upd_in in E' by lia. unfold rd_u32 in E'. rewrite slice_upd_out in E' by lia. fold (rd_u32 b (32 - 4)) in E'.
    rewrite <- E in E'. revert E'. apply checksum_upd; [by apply bytes_ok_slice|done|lia|]. by rewrite at_slice by lia.
  - rewrite slice_upd_out in E' by lia. rewrite E in E'. unfold rd_u32 in E'.
    assert (Es : slice b 28 4 = slice (upd b i v) 28 4).
    { rewrite <- (le_bytes_val (slice b 28 4) 4), <- (le_bytes_val (slice (upd b i v) 28 4) 4); [by f_equal|..].
      all: rewrite ?zlen_slice, ?zlen_upd by (rewrite ?zlen_upd; lia); try lia; apply bytes_ok_slice; try done. by apply Forall_insert. }
    apply Hne. apply (f_equal (fun l => at_ 0 l (i - 28))) in Es. rewrite !at_slice in Es by (rewrite ?zlen_upd; lia).
    replace (28 + (i - 28)) with i in Es by lia. by rewrite at_upd_eq in Es by lia.
Qed.

(** ** Claim *)

(** The slot configuration survives its 32-byte block: any configuration within its field widths reads back
    unchanged, also from a longer sector, and after any change of a single byte of the block, the magic and the
    checksum included, the reader refuses it. *)
Lemma slot_config_roundtrip c pad i v :
  config_ok c ->
  deserialize (serialize c ++ pad) = Some c /\
  (0 <= i < CONFIG_SIZE -> is_u8 v -> v <> at_ 0 (serialize c) i -> deserialize (upd (serialize c) i v) = None).
Proof.
  intros Hc. split; [by apply deserialize_serialize|]. intros Hi Hv Hne. apply (single_byte_corruption _ c); try done.
  - rewrite serialize_list. destruct Hc as [Ht Hg]. apply bytes_ok_app; [|apply bytes_ok_le].
    unfold body. apply bytes_ok_app; [|apply bytes_ok_app; [apply bytes_ok_le|apply bytes_ok_zrepeat]].
    destruct c as [[] [] ? [] [] ?]; unfold bytes_ok; cbn in Ht |- *; repeat (apply Forall_cons; split; [first [done | unfold is_u8, U8_MAX; cbn; lia]|]); constructor.
  - rewrite <- (app_nil_r (serialize c)). by apply deserialize_serialize.
Qed.

Lemma slot_config_roundtrip_witness :
  deserialize (serialize (stage_update initial) ++ [1; 2]) = Some (stage_update initial) /\
  deserialize (upd (serialize (stage_update initial)) 7 255) = None.
Proof.
  assert (Hc : config_ok (stage_update initial)) by (split; vm_compute; split; discriminate).
  split; [apply (slot_config_roundtrip _ [1; 2] 0 0 Hc)|].
  apply (slot_config_roundtrip (stage_update initial) [] 7 255 Hc); [vm_compute; split; [discriminate|done]|vm_compute; split; discriminate|by vm_compute].
Defined.
End Update.
