(* ===== verification/Slots.v ===== *)
(** The two system slots on disk: the GUID partition table as the kernel reads
    it ([src/kernel/src/gpt.rs]), the slot image as an update writes it
    ([src/kernel/src/update.rs]) and as the loader reads it back
    ([src/loader/src/main.rs]).

    A disk is a function from sector numbers to 512-byte sectors, with the
    sectors whose reads or writes fail.  SHA-256 and Ed25519 come from crates
    outside the repository and are parameters ([Crypto]). *)

From S2P Require Import Prelude Bytes Block Update.
Import Update.

Module Slots.

(** ** Parameters *)

(** [Sha256::digest], and [VerifyingKey::from_bytes(k)..verify_strict(..).is_ok()] against the daily key
    ([false]) or the rotation key ([true]). *)
Class Crypto := {
  sha256 : list Z -> list Z;
  verify_strict : bool -> list Z -> list Z -> bool;
}.

(** What the code relies on: a digest has 32 bytes. *)
Class LawfulCrypto `{Crypto} : Prop := {
  sha256_len : forall m, zlen (sha256 m) = 32;
  sha256_bytes : forall m, bytes_ok (sha256 m);
}.

(** [crypto::verify] and the loader's [signature_ok]. *)
Definition signature_ok `{Crypto} (image sig : list Z) : bool :=
  if zlen sig =? 64 then verify_strict false image sig || verify_strict true image sig else false.

(** ** Disks *)

Record Disk := mkDisk {
  sect : Z -> list Z;
  rok : Z -> bool;
  wok : Z -> bool;
  media_block_size : Z;
  is_logical_partition : bool;
  is_media_present : bool;
}.

Definition boot_read (lba : Z) (d : Disk) : option (list Z) := if rok d lba then Some (sect d lba) else None.

Definition upd_sect (d : Disk) (lba : Z) (buf : list Z) : Disk :=
  mkDisk (fun l => if l =? lba then buf else sect d l) (rok d) (wok d) (media_block_size d) (is_logical_partition d) (is_media_present d).

Definition boot_write (lba : Z) (buf : list Z) (d : Disk) : bool * Disk :=
  if wok d lba then (true, upd_sect d lba buf) else (false, d).

(** [n] sectors from [lba] on, one after the other; [None] when one cannot be read. *)
Fixpoint read_run (n : nat) (lba : Z) (d : Disk) : option (list Z) :=
  match n with
  | O => Some []
  | S n' =>
      match boot_read lba d with
      | Some s => match read_run n' (lba + 1) d with Some r => Some (s ++ r) | None => None end
      | None => None
      end
  end.

(** ** The partition table *)

Definition EFI_PART : list Z := [69; 70; 73; 32; 80; 65; 82; 84].
Definition EUROFS_TYPE : list Z := [69; 85; 82; 79; 70; 83; 0; 1; 128; 0; 0; 69; 85; 82; 79; 83].
Definition ESP_TYPE : list Z := [40; 115; 42; 193; 31; 248; 210; 17; 186; 75; 0; 160; 201; 62; 201; 59].
Definition EUROSLOT_TYPE : list Z := [69; 85; 82; 79; 83; 76; 0; 1; 128; 0; 0; 69; 85; 82; 79; 83].
Definition EUROSWAP_TYPE : list Z := [69; 117; 114; 111; 83; 119; 97; 112; 32; 50; 48; 50; 54; 45; 49; 48].
Definition NUM_ENTRIES : Z := 128.

Definition gpt_crc_step (crc : Z) : Z :=
  if negb (Z.land crc 1 =? 0) then Z.lxor (Z.shiftr crc 1) 3988292384 else Z.shiftr crc 1.

Definition gpt_crc32 (data : list Z) : Z :=
  Z.lxor (foldl (fun crc b => Nat.iter 8 gpt_crc_step (Z.lxor crc b)) U32_MAX data) U32_MAX.

Definition clamp (v lo hi : Z) : Z := if v <? lo then lo else if hi <? v then hi else v.

Definition read_part_array (d : Disk) : option (list Z * Z * Z) :=
  match boot_read 1 d with
  | None => None
  | Some hdr =>
      if negb (bool_decide (slice hdr 0 8 = EFI_PART)) then None
      else
        let hdr_size := clamp (rd_u32 hdr 12) 92 512 in
        let hcopy := splice hdr 16 [0; 0; 0; 0] in
        if negb (gpt_crc32 (slice hcopy 0 hdr_size) =? rd_u32 hdr 16) then None
        else
          let ent_lba := rd_u64 hdr 72 in
          let num := Z.min (rd_u32 hdr 80) NUM_ENTRIES in
          let esz := rd_u32 hdr 84 in
          if negb ((128 <=? esz) && (esz <=? 4096)) || negb (Block.is_power_of_two esz) || (ent_lba =? 0) then None
          else
            match read_run (Z.to_nat (div_ceil (num * esz) 512)) ent_lba d with
            | None => None
            | Some arr =>
                if negb (gpt_crc32 (slice arr 0 (num * esz)) =? rd_u32 hdr 88) then None
                else Some (arr, esz, num)
            end
  end.

Definition entry (arr : list Z) (esz i : Z) : list Z := slice arr (i * esz) 128.
Definition entry_type (e : list Z) : list Z := slice e 0 16.
Definition entry_first (e : list Z) : Z := rd_u64 e 32.
Definition entry_last (e : list Z) : Z := rd_u64 e 40.

(** Unit [k] of the UTF-16 name. *)
Definition name_unit (e : list Z) (k : Z) : Z := rd_u16 e (56 + k * 2).

Fixpoint until_zero (l : list Z) : list Z :=
  match l with
  | [] => []
  | c :: l' => if c =? 0 then [] else c :: until_zero l'
  end.

(** Names are lists of UTF-16 units. *)
Definition entry_name_eq (e want : list Z) : bool :=
  bool_decide (want = until_zero (map (name_unit e) (zrange 0 36))).

(** The first entry a finder accepts: its first and last sector. *)
Fixpoint find_entry (accept : list Z -> bool) (arr : list Z) (esz : Z) (ix : list Z) : option (Z * Z) :=
  match ix with
  | [] => None
  | i :: ix' =>
      let e := entry arr esz i in
      if accept e && (entry_first e <=? entry_last e) then Some (entry_first e, entry_last e)
      else find_entry accept arr esz ix'
  end.

Definition find_esp {E} (d : Disk) : outcome E (option (Z * Z)) :=
  match read_part_array d with
  | None => Ok None
  | Some (arr, esz, num) =>
      match find_entry (fun e => bool_decide (entry_type e = ESP_TYPE)) arr esz (zrange 0 num) with
      | None => Ok None
      | Some (first, last) => let? n := add64 (last - first) 1 in Ok (Some (first, n))
      end
  end.

Definition ours (e : list Z) : bool :=
  bool_decide (entry_type e = EUROFS_TYPE) || bool_decide (entry_type e = EUROSLOT_TYPE) || bool_decide (entry_type e = EUROSWAP_TYPE).

Definition find_partition_by_name {E} (name : list Z) (d : Disk) : outcome E (option (Z * Z)) :=
  match read_part_array d with
  | None => Ok None
  | Some (arr, esz, num) =>
      match find_entry (fun e => ours e && entry_name_eq e name) arr esz (zrange 0 num) with
      | None => Ok None
      | Some (first, last) => let? n := add64 (last - first) 1 in Ok (Some (first, n / 8))
      end
  end.

(** ** Writing a slot image *)

Definition slot_partition_name (s : Slot) : list Z :=
  [69; 117; 114; 111; 83; 108; 111; 116; 45] ++ match s with A => [65] | B => [66] end.
Definition legacy_slot_partition_name (s : Slot) : list Z :=
  [69; 117; 114; 111; 79; 83; 45] ++ match s with A => [65] | B => [66] end.

Definition SLOT_MAGIC : list Z := [69; 85; 82; 79; 83; 76; 84; 50].

Definition slot_header `{Crypto} (image sig : list Z) : list Z :=
  let hdr := zrepeat 0 512 in
  let hdr := splice hdr 0 SLOT_MAGIC in
  let hdr := wr_u64 hdr 8 (zlen image) in
  let hdr := splice hdr 16 (sha256 image) in
  splice hdr 48 (slice sig 0 64).

(** The reasons of [Err(&'static str)]. *)
Inductive WriteError :=
| PartitionNotFound | LargerThanPartition | SignatureLength | ClearingFailed | WritingFailed
| HeaderFailed | HeaderMismatch | ReadBackFailed | ReadBackMismatch.

(** Sector [i] of an image, padded with zeroes. *)
Definition image_sector (image : list Z) (i : Z) : list Z :=
  let s := slice image (i * 512) 512 in s ++ zrepeat 0 (512 - zlen s).

Definition write_sector (lba : Z) (buf : list Z) (e : WriteError) : ST Disk WriteError unit := fun d =>
  match boot_write lba buf d with
  | (true, d') => (Ok tt, d')
  | (false, d') => (Err e, d')
  end.

Definition read_back (lba : Z) (e : WriteError) : ST Disk WriteError (list Z) := fun d =>
  match boot_read lba d with Some s => (Ok s, d) | None => (Err e, d) end.

Definition find_slot (s : Slot) (d : Disk) : outcome WriteError (Z * Z) :=
  let? p := find_partition_by_name (slot_partition_name s) d in
  let? p := match p with Some _ => Ok p | None => find_partition_by_name (legacy_slot_partition_name s) d end in
  match p with Some x => Ok x | None => Err PartitionNotFound end.

(** The header, written last, and the read-back of both. *)
Definition commit_slot (first_lba : Z) (hdr image : list Z) : ST Disk WriteError Z :=
  write_sector first_lba hdr HeaderFailed ;;!
  let! rb := read_back first_lba HeaderMismatch in
  if negb (bool_decide (rb = hdr)) then sthrow HeaderMismatch
  else
    let! rb := read_back (first_lba + 1) ReadBackFailed in
    let first_end := Z.min 512 (zlen image) in
    if negb (bool_decide (slice rb 0 first_end = slice image 0 first_end)) then sthrow ReadBackMismatch
    else sret (zlen image).

Definition write_image_to_slot `{Crypto} (s : Slot) (image sig : list Z) : ST Disk WriteError Z :=
  let! p := sgets (find_slot s) in
  let '(first_lba, blocks) := p in
  let nsec := div_ceil (zlen image) 512 in
  if blocks * 8 <? nsec + 1 then sthrow LargerThanPartition
  else if negb (zlen sig =? 64) then sthrow SignatureLength
  else
    write_sector first_lba (zrepeat 0 512) ClearingFailed ;;!
    sfor (zrange 0 nsec) (fun i => write_sector (first_lba + 1 + i) (image_sector image i) WritingFailed) ;;!
    commit_slot first_lba (slot_header image sig) image.

(** ** The loader *)

(** [read_sectors]: pieces of at most 128 sectors; a piece is read when all its sectors are. *)
Fixpoint read_pieces (fuel : nat) (lba count did : Z) (d : Disk) : option (list Z) :=
  if count <=? did then Some []
  else
    match fuel with
    | O => None
    | S fuel' =>
        let n := Z.min (count - did) 128 in
        if U64_MAX <? lba + did then None
        else
          match read_run (Z.to_nat n) (lba + did) d with
          | None => None
          | Some s => match read_pieces fuel' lba count (did + n) d with Some r => Some (s ++ r) | None => None end
          end
    end.

Definition read_sectors (lba count : Z) (d : Disk) : option (list Z) :=
  if negb (media_block_size d =? 512) then None else read_pieces (Z.to_nat count) lba count 0 d.

Fixpoint name_loop (want e : list Z) (n : Z) : bool :=
  let c := name_unit e n in
  match want with
  | w :: want' => if negb (w =? c) || (35 <=? n) then false else name_loop want' e (n + 1)
  | [] => c =? 0
  end.

Definition name_eq (e want : list Z) : bool := name_loop want e 0.

Definition MAX_IMAGE : Z := 134217728. (* 128 * 1024 * 1024 *)

(** Outcome of looking at a partition or at a disk: [continue] or [return]. *)
Inductive probe := Next | Return (r : option (list Z)).

(** The image in the partition from [first] to [last]. *)
Definition probe_image `{Crypto} (d : Disk) (first last : Z) : probe :=
  match read_sectors first 1 d with
  | None => Next
  | Some sh =>
      if negb (bool_decide (slice sh 0 8 = SLOT_MAGIC)) then Return None
      else
        let len := rd_u64 sh 8 in
        let nsec := div_ceil len 512 in
        let end_ok := (first + 1 <=? U64_MAX) && (first + 1 + nsec <=? U64_MAX) && (last + 1 <=? U64_MAX) && (first + 1 + nsec <=? last + 1) in
        if (len =? 0) || (MAX_IMAGE <? len) || negb end_ok then Return None
        else
          match read_sectors (first + 1) nsec d with
          | None => Return None
          | Some img =>
              let img := slice img 0 len in
              if negb (bool_decide (sha256 img = slice sh 16 32)) then Return None
              else if negb (signature_ok img (slice sh 48 64)) then Return None
              else Return (Some img)
          end
  end.

Definition probe_entry `{Crypto} (d : Disk) (want e : list Z) : probe :=
  if negb (bool_decide (entry_type e = EUROSLOT_TYPE)) || negb (name_eq e want) then Next
  else probe_image d (entry_first e) (entry_last e).

Fixpoint probe_entries `{Crypto} (d : Disk) (want arr : list Z) (esz : Z) (ix : list Z) : probe :=
  match ix with
  | [] => Next
  | i :: ix' =>
      match probe_entry d want (entry arr esz i) with
      | Next => probe_entries d want arr esz ix'
      | r => r
      end
  end.

Definition probe_disk `{Crypto} (want : list Z) (d : Disk) : probe :=
  if is_logical_partition d || negb (is_media_present d) then Next
  else
    match read_sectors 1 1 d with
    | None => Next
    | Some hdr =>
        if negb (bool_decide (slice hdr 0 8 = EFI_PART)) then Next
        else
          let ent_lba := rd_u64 hdr 72 in
          let num := Z.min (rd_u32 hdr 80) 128 in
          let esz := rd_u32 hdr 84 in
          if (esz <? 128) || (4096 <? esz) || (ent_lba =? 0) then Next
          else
            match read_sectors ent_lba (div_ceil (num * esz) 512) d with
            | None => Next
            | Some arr => probe_entries d want arr esz (zrange 0 num)
            end
    end.

(** [load_from_partition]: the image of a slot, verified, from the first disk that has the partition. *)
Fixpoint load_from_partition `{Crypto} (s : Slot) (disks : list Disk) : option (list Z) :=
  match disks with
  | [] => None
  | d :: disks' =>
      match probe_disk (slot_partition_name s) d with
      | Next => load_from_partition s disks'
      | Return r => r
      end
  end.

(** ** Reading runs of sectors *)

Lemma read_run_app n m lba d :
  read_run (n + m) lba d =
  match read_run n lba d with
  | Some s => match read_run m (lba + Z.of_nat n) d with Some r => Some (s ++ r) | None => None end
  | None => None
  end.
Proof.
  revert lba. induction n as [|n IH]; intros lba; cbn [read_run Nat.add].
  - rewrite Z.add_0_r. by destruct (read_run m lba d).
  - destruct (boot_read lba d) as [s|]; [|done]. rewrite IH. destruct (read_run n (lba + 1) d) as [r|]; [|done].
    replace (lba + 1 + Z.of_nat n) with (lba + Z.of_nat (S n)) by lia.
    destruct (read_run m _ d); [|done]. by rewrite app_assoc.
Qed.

Lemma read_pieces_run fuel lba count did d :
  0 <= did <= count -> count - did <= Z.of_nat fuel -> lba + count <= U64_MAX + 1 ->
  read_pieces fuel lba count did d = read_run (Z.to_nat (count - did)) (lba + did) d.
Proof.
  revert did. induction fuel as [|k IH]; intros did Hd Hf Hu; cbn [read_pieces];
    (destruct (Z.leb_spec count did); [by replace (count - did) with 0 by lia|]); [lia|].
  destruct (Z.ltb_spec U64_MAX (lba + did)); [lia|]. set (n := Z.min (count - did) 128).
  replace (Z.to_nat (count - did)) with (Z.to_nat n + Z.to_nat (count - (did + n)))%nat by lia.
  rewrite read_run_app, IH by lia. replace (lba + did + Z.of_nat (Z.to_nat n)) with (lba + (did + n)) by lia. done.
Qed.

Lemma read_sectors_run lba count d :
  media_block_size d = 512 -> 0 <= count -> lba + count <= U64_MAX + 1 -> read_sectors lba count d = read_run (Z.to_nat count) lba d.
Proof.
  intros E Hc Hu. unfold read_sectors. rewrite E. cbn [Z.eqb negb]. change (negb (512 =? 512)) with false. cbn iota.
  rewrite read_pieces_run by lia. by rewrite Z.sub_0_r, Z.add_0_r.
Qed.

(** An image comes back from its sectors, followed by padding. *)
Lemma read_image n image lba d :
  zlen image <= 512 * Z.of_nat n ->
  (forall i, 0 <= i < Z.of_nat n -> sect d (lba + i) = image_sector image i /\ rok d (lba + i) = true) ->
  exists pad, read_run n lba d = Some (image ++ pad).
Proof.
  revert image lba. induction n as [|n IH]; intros image lba Hl Hs; cbn [read_run].
  { exists []. destruct image; [done|]. rewrite zlen_cons in Hl. pose proof (zlen_nonneg image). lia. }
  unfold boot_read. destruct (Hs 0 ltac:(lia)) as [E0 R0]. rewrite Z.add_0_r in E0, R0. rewrite E0, R0.
  destruct (IH (drop 512 image) (lba + 1)) as [pad Ep].
  - unfold zlen in *. rewrite length_drop. lia.
  - intros i Hi. destruct (Hs (i + 1) ltac:(lia)) as [E R]. replace (lba + 1 + i) with (lba + (i + 1)) by lia. split; [|done].
    rewrite E. unfold image_sector, slice. rewrite drop_drop. by replace (512 + Z.to_nat (i * 512))%nat with (Z.to_nat ((i + 1) * 512)) by lia.
  - rewrite Ep. unfold image_sector. rewrite Z.mul_0_l, slice_0. change (Z.to_nat 512) with 512%nat.
    destruct (le_lt_dec (length image) 512) as [Hle|Hgt].
    + rewrite (take_ge image), drop_ge by lia. eexists. by rewrite <- app_assoc.
    + exists pad. f_equal. replace (512 - zlen (take 512 image)) with 0 by (unfold zlen; rewrite length_take; lia).
      change (zrepeat 0 0) with (@nil Z). by rewrite app_nil_r, app_assoc, take_drop.
Qed.

(** ** Names *)

Lemma name_loop_spec want e n :
  0 <= n -> n + zlen want <= 35 -> Forall (fun c => c <> 0) want ->
  name_loop want e n = bool_decide (want = until_zero (map (name_unit e) (zrange n 36))).
Proof.
  revert n. induction want as [|w want IH]; intros n Hn Hl Hz.
  - rewrite zlen_nil in Hl. rewrite zrange_cons by lia. cbn. destruct (Z.eqb_spec (name_unit e n) 0); by case_bool_decide.
  - rewrite zlen_cons in Hl. pose proof (zlen_nonneg want). apply Forall_cons in Hz as [Hw Hz]. rewrite zrange_cons by lia. cbn.
    destruct (Z.leb_spec 35 n); [lia|]. rewrite orb_false_r. destruct (Z.eqb_spec w (name_unit e n)) as [<-|Hne]; cbn [negb].
    + destruct (Z.eqb_spec w 0); [done|]. rewrite IH by (done || lia). apply bool_decide_ext. split; [by intros <-|by intros [=]].
    + destruct (Z.eqb_spec (name_unit e n) 0); case_bool_decide; congruence.
Qed.

Lemma slot_name_eq e s : name_eq e (slot_partition_name s) = entry_name_eq e (slot_partition_name s).
Proof. apply name_loop_spec; [done|by destruct s|]. destruct s; repeat constructor; lia. Qed.

(** ** The layout of an installed disk *)

Section layout.
Context `{Crypto}.

(** One past the last sector of the partition array. *)
Definition gpt_end (d : Disk) : Z :=
  let hdr := sect d 1 in rd_u64 hdr 72 + div_ceil (Z.min (rd_u32 hdr 80) NUM_ENTRIES * rd_u32 hdr 84) 512.

(** The disk holds slot [s] in the sectors [first] to [last]: one entry of the partition table has its name, it is
    of the slot type, and it lies behind the table. *)
Record slot_at (d : Disk) (s : Slot) (first last : Z) : Prop := mkSlotAt {
  sa_entry : exists arr esz num i, read_part_array d = Some (arr, esz, num) /\ 0 <= i < num /\
    entry_type (entry arr esz i) = EUROSLOT_TYPE /\ entry_name_eq (entry arr esz i) (slot_partition_name s) = true /\
    entry_first (entry arr esz i) = first /\ entry_last (entry arr esz i) = last /\
    forall j, 0 <= j < num -> j <> i -> entry_name_eq (entry arr esz j) (slot_partition_name s) = false;
  sa_behind : 1 < first /\ gpt_end d <= first;
  sa_range : first <= last < U64_MAX;
}.

Record boot_disk (d : Disk) : Prop := mkBootDisk {
  bd_size : media_block_size d = 512;
  bd_whole : is_logical_partition d = false;
  bd_present : is_media_present d = true;
}.

Lemma find_entry_unique accept arr esz ix i :
  i ∈ ix -> accept (entry arr esz i) = true -> entry_first (entry arr esz i) <= entry_last (entry arr esz i) ->
  (forall j, j ∈ ix -> j <> i -> accept (entry arr esz j) = false) ->
  find_entry accept arr esz ix = Some (entry_first (entry arr esz i), entry_last (entry arr esz i)).
Proof.
  intros Hi Ha Hr. induction ix as [|j ix IH]; intros Hj; [by apply elem_of_nil in Hi|]. cbn [find_entry].
  destruct (decide (j = i)) as [->|Hne]; [rewrite Ha; cbn [andb]; destruct (Z.leb_spec (entry_first (entry arr esz i)) (entry_last (entry arr esz i))); [done|lia]|].
  rewrite (Hj j) by (done || left). cbn [andb]. apply IH; [|intros; apply Hj; [by right|done]]. apply elem_of_cons in Hi as [|]; congruence.
Qed.

Lemma find_slot_ok d s first last : slot_at d s first last -> find_slot s d = Ok (first, (last - first + 1) / 8).
Proof.
  intros [(arr & esz & num & i & Et & Hi & Hty & Hn & Ef & El & Hu) [Hb _] Hr]. unfold find_slot, find_partition_by_name. rewrite Et.
  rewrite (find_entry_unique _ arr esz (zrange 0 num) i).
  - rewrite Ef, El. unfold add64. destruct (Z.leb_spec (last - first + 1) U64_MAX); [done|].
    lia.
  - by apply elem_of_zrange.
  - rewrite Hn, andb_true_r. unfold ours. by rewrite Hty.
  - lia.
  - intros j Hj Hne. apply elem_of_zrange in Hj. by rewrite Hu, andb_false_r.
Qed.

Lemma probe_entries_unique d want arr esz ix i :
  i ∈ ix -> (forall j, j ∈ ix -> j <> i -> probe_entry d want (entry arr esz j) = Next) ->
  probe_entries d want arr esz ix = probe_entry d want (entry arr esz i).
Proof.
  intros Hi Hj. induction ix as [|j ix IH]; [by apply elem_of_nil in Hi|]. cbn [probe_entries].
  destruct (decide (j = i)) as [->|Hne].
  - destruct (probe_entry d want (entry arr esz i)) eqn:E; [|done].
    destruct (decide (i ∈ ix)) as [Hin|Hin]; [apply IH; [done|]; intros; apply Hj; [by right|done]|].
    clear IH Hi. induction ix as [|k ix IH]; [done|]. cbn [probe_entries].
    apply not_elem_of_cons in Hin as [Hk Hin]. rewrite (Hj k) by (congruence || (right; left)).
    apply IH; [|done]. intros k' Hk' Hne. apply Hj; [|done]. apply elem_of_cons in Hk' as [->|]; [by left|]. by do 2 right.
  - rewrite (Hj j) by (done || left). apply IH; [|intros; apply Hj; [by right|done]]. apply elem_of_cons in Hi as [|]; congruence.
Qed.

(** Kernel and loader agree on where a slot is. *)
Lemma probe_disk_slot d s first last :
  boot_disk d -> slot_at d s first last -> probe_disk (slot_partition_name s) d = probe_image d first last.
Proof.
  intros [Hsz Hlog Hpr] [(arr & esz & num & i & Et & Hi & Hty & Hn & Ef & El & Hu) [Hb1 Hb2] Hr].
  unfold probe_disk. rewrite Hlog, Hpr. cbn [orb negb]. unfold read_part_array in Et. unfold gpt_end in Hb2.
  rewrite read_sectors_run by (done || (unfold U64_MAX; lia)). change (Z.to_nat 1) with 1%nat. cbn [read_run].
  unfold boot_read. unfold boot_read at 1 in Et. destruct (rok d 1); [|done]. rewrite app_nil_r. set (hdr := sect d 1) in *.
  destruct (negb (bool_decide (slice hdr 0 8 = EFI_PART))); [done|].
  destruct (negb (gpt_crc32 _ =? _)) in Et; [done|]. unfold NUM_ENTRIES in *.
  destruct (negb ((128 <=? rd_u32 hdr 84) && (rd_u32 hdr 84 <=? 4096))) eqn:E1; [done|]. cbn [orb] in Et.
  apply negb_false_iff, andb_true_iff in E1 as [E1%Z.leb_le E2%Z.leb_le].
  destruct (negb (Block.is_power_of_two _)) in Et; [done|]. cbn [orb] in Et.
  destruct (Z.ltb_spec (rd_u32 hdr 84) 128); [lia|]. destruct (Z.ltb_spec 4096 (rd_u32 hdr 84)); [lia|]. cbn [orb].
  destruct (rd_u64 hdr 72 =? 0); [done|].
  destruct (read_run _ (rd_u64 hdr 72) d) as [arr'|] eqn:Er in Et; [|done].
  destruct (negb (gpt_crc32 _ =? _)) in Et; [done|]. injection Et as -> <- <-.
  rewrite read_sectors_run; [|done|unfold div_ceil; apply Z.div_pos; nia|lia]. rewrite Er.
  rewrite (probe_entries_unique _ _ _ _ _ i); [|by apply elem_of_zrange|].
  - unfold probe_entry. rewrite slot_name_eq, Hty, Hn, Ef, El. rewrite bool_decide_true by done. done.
  - intros j Hj Hne. apply elem_of_zrange in Hj. unfold probe_entry. rewrite slot_name_eq, Hu by done. by rewrite orb_true_r.
Qed.

(** ** What a write changes *)

(** [d'] is [d] but for the sectors from [lo] to [hi]. *)
Record same_but (lo hi : Z) (d d' : Disk) : Prop := mkSameBut {
  sb_sect : forall l, l < lo \/ hi < l -> sect d' l = sect d l;
  sb_rok : rok d' = rok d;
  sb_wok : wok d' = wok d;
  sb_size : media_block_size d' = media_block_size d;
  sb_whole : is_logical_partition d' = is_logical_partition d;
  sb_present : is_media_present d' = is_media_present d;
}.

Lemma same_but_refl lo hi d : same_but lo hi d d.
Proof. by split. Qed.

Lemma same_but_trans lo hi d1 d2 d3 : same_but lo hi d1 d2 -> same_but lo hi d2 d3 -> same_but lo hi d1 d3.
Proof. intros [? ? ? ? ? ?] [? ? ? ? ? ?]. split; try congruence. intros l Hl. transitivity (sect d2 l); auto. Qed.

Lemma same_but_upd lo hi d lba buf : lo <= lba <= hi -> same_but lo hi d (upd_sect d lba buf).
Proof. intros. split; try done. intros l Hl. cbn. destruct (Z.eqb_spec l lba); [lia|done]. Qed.

Lemma read_run_frame n lba d d' :
  (forall l, lba <= l < lba + Z.of_nat n -> sect d' l = sect d l) -> rok d' = rok d -> read_run n lba d' = read_run n lba d.
Proof.
  intros Hs Hr. revert lba Hs. induction n as [|n IH]; intros lba Hs; [done|]. cbn [read_run]. unfold boot_read.
  rewrite Hr, (Hs lba) by lia. rewrite IH by (intros; apply Hs; lia). done.
Qed.

Lemma read_part_array_frame lo hi d d' : same_but lo hi d d' -> 1 < lo -> gpt_end d <= lo -> read_part_array d' = read_part_array d.
Proof.
  intros Hs Hlo Hg. unfold read_part_array, boot_read, gpt_end in *. rewrite (sb_rok _ _ _ _ Hs), (sb_sect _ _ _ _ Hs 1) by lia.
  destruct (rok d 1); [|done]. set (hdr := sect d 1) in *.
  repeat (match goal with |- (if ?b then _ else _) = (if ?b then _ else _) => destruct b eqn:?; [done|] end).
  rewrite (read_run_frame _ _ d d'); [done| |apply Hs]. intros l Hl. apply Hs. unfold NUM_ENTRIES in *. lia.
Qed.

Lemma slot_at_frame lo hi d d' s first last :
  same_but lo hi d d' -> 1 < lo -> gpt_end d <= lo -> slot_at d s first last -> slot_at d' s first last.
Proof.
  intros Hs Hlo Hg [He Hb Hr]. assert (Eg : gpt_end d' = gpt_end d) by (unfold gpt_end; by rewrite (sb_sect _ _ _ _ Hs 1) by lia).
  split; [by rewrite (read_part_array_frame lo hi d d')|by rewrite Eg|done].
Qed.

Lemma probe_image_frame d d' first last :
  media_block_size d = 512 -> media_block_size d' = 512 -> rok d' = rok d -> 0 <= first <= last -> last < U64_MAX ->
  (forall l, first <= l <= last -> sect d' l = sect d l) ->
  probe_image d' first last = probe_image d first last.
Proof.
  intros E1 E2 Hr Hf Hl Hs. unfold probe_image. rewrite !(read_sectors_run first) by (done || lia).
  rewrite (read_run_frame _ first d d') by (done || (intros; apply Hs; lia)).
  change (Z.to_nat 1) with 1%nat. cbn [read_run]. unfold boot_read. destruct (rok d first); [|done]. rewrite app_nil_r.
  set (sh := sect d first) in *. destruct (negb (bool_decide (slice sh 0 8 = SLOT_MAGIC))); [done|].
  set (nsec := div_ceil (rd_u64 sh 8) 512).
  match goal with |- (if ?b then _ else _) = _ => destruct b eqn:Eb; [done|] end.
  apply orb_false_iff in Eb as [_ Eb]. apply negb_false_iff in Eb. rewrite !andb_true_iff, !Z.leb_le in Eb.
  destruct (Z.le_gt_cases 0 nsec).
  - rewrite !(read_sectors_run (first + 1)) by (done || lia).
    rewrite (read_run_frame _ (first + 1) d d') by (done || (intros; apply Hs; lia)). done.
  - unfold read_sectors. rewrite E1, E2. by replace (Z.to_nat nsec) with 0%nat by lia.
Qed.

(** ** The update's write *)

Lemma write_sector_spec lo hi lba buf e d :
  lo <= lba <= hi ->
  exists d', same_but lo hi d d' /\
    (write_sector lba buf e d = (Ok tt, d') /\ d' = upd_sect d lba buf \/ write_sector lba buf e d = (Err e, d) /\ d' = d).
Proof.
  intros Hl. unfold write_sector, boot_write. destruct (wok d lba); eexists; (split; [|by eauto]); [by apply same_but_upd|apply same_but_refl].
Qed.

Lemma write_sectors_spec lo hi image lba ix d :
  (forall i, i ∈ ix -> lo <= lba + i <= hi) ->
  exists r d', sfor ix (fun i => write_sector (lba + i) (image_sector image i) WritingFailed) d = (r, d') /\ same_but lo hi d d' /\
    (r = Ok tt /\ (forall i, i ∈ ix -> sect d' (lba + i) = image_sector image i) \/ r = Err WritingFailed).
Proof.
  revert d. induction ix as [|i ix IH]; intros d Hix; cbn [sfor].
  { eexists _, d. split; [done|]. split; [apply same_but_refl|]. left. split; [done|]. by intros i ?%elem_of_nil. }
  destruct (write_sector_spec lo hi (lba + i) (image_sector image i) WritingFailed d) as (d1 & S1 & [[E1 ->]|[E1 ->]]); [apply Hix; by left| |].
  - erewrite sbind_ok by exact E1. destruct (IH (upd_sect d (lba + i) (image_sector image i))) as (r & d' & E & S & Hr); [intros; apply Hix; by right|].
    exists r, d'. split; [done|]. split; [by eapply same_but_trans|]. destruct Hr as [[-> Hr]|]; [left; split; [done|]|by right].
    intros j Hj. destruct (decide (j ∈ ix)) as [Hin|Hin]; [by apply Hr|]. apply elem_of_cons in Hj as [->|]; [|done].
    assert (G : forall ix d r d', sfor ix (fun i => write_sector (lba + i) (image_sector image i) WritingFailed) d = (r, d') ->
      forall l, (forall k, k ∈ ix -> l <> lba + k) -> sect d' l = sect d l).
    { clear. induction ix as [|k ix IH]; cbn [sfor]; intros d r d' E l Hl; [by injection E as <- <-|].
      unfold sbind, write_sector at 1, boot_write in E. destruct (wok d (lba + k)).
      - rewrite (IH _ _ _ E) by (intros; apply Hl; by right). cbn. destruct (Z.eqb_spec l (lba + k)); [|done].
        exfalso. apply (Hl k); [by left|done].
      - by injection E as <- <-. }
    rewrite (G _ _ _ _ E) by (intros k Hk ?; apply Hin; by replace i with k by lia). cbn. by rewrite Z.eqb_refl.
  - unfold sbind. rewrite E1. eexists _, d. split; [done|]. split; [apply same_but_refl|by right].
Qed.

Lemma commit_slot_spec first last hdr image d :
  first <= last -> slice (sect d (first + 1)) 0 (Z.min 512 (zlen image)) = slice image 0 (Z.min 512 (zlen image)) ->
  exists r d', commit_slot first hdr image d = (r, d') /\ same_but first last d d' /\
    (forall l, l <> first -> sect d' l = sect d l) /\
    ((exists e, r = Err e /\ (d' = d \/ sect d' first = hdr /\ (rok d first = false \/ rok d (first + 1) = false))) \/
     r = Ok (zlen image) /\ rok d first = true /\ sect d' first = hdr).
Proof.
  intros Hr Hs. unfold commit_slot.
  destruct (write_sector_spec first last first hdr HeaderFailed d) as (d' & S & [[E Ed]|[E ->]]); [lia| |].
  2: { unfold sbind at 1. rewrite E. eexists _, d. split; [done|]. split; [done|]. split; [done|]. left. eexists. split; [done|by left]. }
  erewrite sbind_ok by exact E.
  assert (Hh : sect d' first = hdr) by (rewrite Ed; cbn; by rewrite Z.eqb_refl).
  assert (Ho : forall l, l <> first -> sect d' l = sect d l).
  { intros l Hl. rewrite Ed. cbn. by destruct (Z.eqb_spec l first). }
  assert (Er : rok d' = rok d) by apply S. unfold sbind at 1, read_back at 1, boot_read. rewrite Er, Hh.
  destruct (rok d first) eqn:R1; [|eexists _, d'; do 3 (split; [done|]); left; eexists; split; [done|right; auto]].
  rewrite bool_decide_true by done. cbn [negb]. unfold sbind, read_back, boot_read. rewrite Er, Ho by lia.
  destruct (rok d (first + 1)) eqn:R2; [|eexists _, d'; do 3 (split; [done|]); left; eexists; split; [done|right; auto]].
  rewrite Hs, bool_decide_true by done. cbn [negb]. eexists _, d'. do 3 (split; [done|]). by right.
Qed.

Lemma image_sector_0 image : slice (image_sector image 0) 0 (Z.min 512 (zlen image)) = slice image 0 (Z.min 512 (zlen image)).
Proof.
  unfold image_sector. pose proof (zlen_nonneg image). rewrite Z.mul_0_l, slice_app_l.
  - rewrite !slice_0, take_take. f_equal. lia.
  - unfold zlen, slice in *. rewrite length_take, length_drop. lia.
Qed.

(** What a disk looks like after an attempt to write an image to a slot: unchanged, with the old header cleared,
    with a header that cannot be read back, or with header and image complete. *)
Lemma write_image_spec s image sig d first last :
  slot_at d s first last ->
  exists r d', write_image_to_slot s image sig d = (r, d') /\ same_but first last d d' /\
    ((exists e, r = Err e /\ (d' = d \/ sect d' first = zrepeat 0 512 \/
       zlen sig = 64 /\ sect d' first = slot_header image sig /\ (rok d first = false \/ rok d (first + 1) = false))) \/
     r = Ok (zlen image) /\ zlen sig = 64 /\ first + 1 + div_ceil (zlen image) 512 <= last + 1 /\ rok d first = true /\
       sect d' first = slot_header image sig /\
       forall i, 0 <= i < div_ceil (zlen image) 512 -> sect d' (first + 1 + i) = image_sector image i).
Proof.
  intros Hs. pose proof (sa_range _ _ _ _ Hs) as Hr. unfold write_image_to_slot. rewrite (sbind_gets _ _ _ _ (find_slot_ok _ _ _ _ Hs)).
  set (nsec := div_ceil (zlen image) 512). pose proof (zlen_nonneg image).
  assert (0 <= nsec /\ zlen image <= nsec * 512) by (pose proof (div_ceil_spec (zlen image) 512 ltac:(lia) ltac:(lia)) as Hd; fold nsec in Hd; lia).
  destruct (Z.ltb_spec ((last - first + 1) / 8 * 8) (nsec + 1)) as [|Hn].
  { eexists _, d. split; [done|]. split; [apply same_but_refl|]. left. eexists. split; [done|]. by left. }
  assert (Hfit : first + 1 + nsec <= last + 1) by (Z.to_euclidean_division_equations; lia).
  destruct (Z.eqb_spec (zlen sig) 64) as [Hsig|]; cbn [negb];
    [|eexists _, d; split; [done|]; split; [apply same_but_refl|]; left; eexists; split; [done|by left]].
  destruct (write_sector_spec first last first (zrepeat 0 512) ClearingFailed d) as (d1 & S1 & [[E1 Ed1]|[E1 ->]]); [lia| |].
  2: { unfold sbind at 1. rewrite E1. eexists _, d. split; [done|]. split; [apply same_but_refl|]. left. eexists. split; [done|by left]. }
  erewrite sbind_ok by exact E1.
  destruct (write_sectors_spec (first + 1) last image (first + 1) (zrange 0 nsec) d1) as (r2 & d2 & E2 & S2 & H2).
  { intros i Hi%elem_of_zrange. lia. }
  assert (Z2 : sect d2 first = zrepeat 0 512) by (rewrite (sb_sect _ _ _ _ S2) by lia; rewrite Ed1; cbn; by rewrite Z.eqb_refl).
  assert (S2' : same_but first last d d2).
  { eapply same_but_trans; [exact S1|]. destruct S2 as [Q ? ? ? ? ?]. split; try done. intros l Hl. apply Q. lia. }
  destruct H2 as [[-> H2] | ->].
  2: { unfold sbind at 1. rewrite E2. eexists _, d2. split; [done|]. split; [done|]. left. eexists. split; [done|]. right. by left. }
  erewrite sbind_ok by exact E2.
  destruct (commit_slot_spec first last (slot_header image sig) image d2) as (r & d' & E3 & S3 & Ho & H3); [lia| |].
  { destruct (Z.eq_dec (zlen image) 0) as [->|]; [done|]. replace (first + 1) with (first + 1 + 0) by lia.
    rewrite H2 by (apply elem_of_zrange; lia). apply image_sector_0. }
  rewrite (sb_rok _ _ _ _ S2') in H3. exists r, d'. split; [done|]. split; [by eapply same_but_trans|].
  destruct H3 as [(e & -> & H3)|(-> & R1 & H3)].
  - left. exists e. split; [done|]. destruct H3 as [->|[Hh H3]]; [right; by left|]. right. by right.
  - right. do 5 (split; [done|]). intros i Hi. rewrite Ho by lia. apply H2, elem_of_zrange. lia.
Qed.

(** ** The loader reads what the update wrote *)

Context {HL : LawfulCrypto}.

Lemma header_fields image sig :
  zlen sig = 64 -> is_u64 (zlen image) ->
  slice (slot_header image sig) 0 8 = SLOT_MAGIC /\ rd_u64 (slot_header image sig) 8 = zlen image /\
  slice (slot_header image sig) 16 32 = sha256 image /\ slice (slot_header image sig) 48 64 = sig.
Proof.
  intros Hs Hz. assert (E : slot_header image sig =
    put_all (zrepeat 0 512) [(0, SLOT_MAGIC); (8, u64f (zlen image)); (16, sha256 image); (48, sig)]).
  { unfold slot_header. rewrite <- Hs, slice_all. reflexivity. }
  rewrite E. pose proof (sha256_len image) as Hsha.
  assert (Hin : Forall (inside (zlen (zrepeat 0 512))) [(0, SLOT_MAGIC); (8, u64f (zlen image)); (16, sha256 image); (48, sig)]).
  { rewrite zlen_zrepeat by lia. repeat constructor; cbn [fst snd]; rewrite ?zlen_u64f, ?Hsha, ?Hs; try lia; by vm_compute. }
  split; [|split; [|split]].
  - apply (slice_put_all _ [] (0, SLOT_MAGIC)); [done| |done|done].
    repeat (apply Forall_cons_2; [left; cbn [fst snd]; change (zlen SLOT_MAGIC) with 8; lia|]); done.
  - unfold rd_u64. transitivity (le_val (u64f (zlen image))).
    + reflexivity.
    + apply le_val_bytes. unfold is_u64, U64_MAX in Hz. change (256 ^ Z.of_nat 8) with 18446744073709551616. lia.
  - apply (slice_put_all _ [(0, SLOT_MAGIC); (8, u64f (zlen image))] (16, sha256 image)); [done| |done|done].
    repeat (apply Forall_cons_2; [left; cbn [fst snd]; rewrite Hsha; lia|]); done.
  - by apply (slice_put_all _ [(0, SLOT_MAGIC); (8, u64f (zlen image)); (16, sha256 image)] (48, sig)).
Qed.

Lemma written_image_loads s image sig d d' first last rest :
  boot_disk d -> slot_at d s first last -> write_image_to_slot s image sig d = (Ok (zlen image), d') ->
  signature_ok image sig = true -> 0 < zlen image <= MAX_IMAGE -> (forall l, first <= l <= last -> rok d l = true) ->
  load_from_partition s (d' :: rest) = Some image.
Proof.
  intros Hb Hs Ew Hv Hl Hrok. pose proof (sa_range _ _ _ _ Hs) as Hr. pose proof (sa_behind _ _ _ _ Hs) as [Hb1 Hb2].
  destruct (write_image_spec s image sig d first last Hs) as (r & d2 & E & Sb & H'). rewrite Ew in E. injection E as <- <-.
  destruct H' as [(e & ? & _)|(_ & Hsig & Hfit & _ & Eh & Ei)]; [done|].
  cbn [load_from_partition]. rewrite (probe_disk_slot d' s first last).
  2: { destruct Hb, Sb. split; congruence. } 2: { by apply (slot_at_frame first last d d'). }
  set (nsec := div_ceil (zlen image) 512) in *.
  pose proof (div_ceil_spec (zlen image) 512 ltac:(lia) ltac:(lia)) as Hd. fold nsec in Hd.
  assert (Em : media_block_size d' = 512) by (destruct Hb, Sb; congruence).
  unfold probe_image. rewrite read_sectors_run by (done || lia). change (Z.to_nat 1) with 1%nat. cbn [read_run]. unfold boot_read.
  rewrite (sb_rok _ _ _ _ Sb), (Hrok first), Eh, app_nil_r by lia.
  destruct (header_fields image sig Hsig) as (F1 & F2 & F3 & F4); [unfold is_u64, U64_MAX, MAX_IMAGE in *; lia|].
  rewrite F1, F2, F3, F4, bool_decide_true by done. cbn [negb]. fold nsec.
  destruct (Z.eqb_spec (zlen image) 0); [lia|]. destruct (Z.ltb_spec MAX_IMAGE (zlen image)); [lia|]. cbn [orb].
  rewrite !(proj2 (Z.leb_le _ _)) by lia. cbn [andb negb]. rewrite read_sectors_run by (done || lia).
  destruct (read_image (Z.to_nat nsec) image (first + 1) d') as [pad Ep]; [lia| |].
  { intros i Hi. split; [apply Ei; lia|]. rewrite (sb_rok _ _ _ _ Sb). apply Hrok. lia. }
  rewrite Ep, slice_app_exact. rewrite bool_decide_true by done. cbn [negb]. by rewrite Hv.
Qed.

Lemma probe_unreadable d first last : media_block_size d = 512 -> 0 <= first <= U64_MAX -> rok d first = false -> probe_image d first last = Next.
Proof.
  intros E Hf Hr. unfold probe_image. rewrite read_sectors_run by (done || lia). change (Z.to_nat 1) with 1%nat. cbn [read_run].
  unfold boot_read. by rewrite Hr.
Qed.

Lemma probe_cleared d first last : media_block_size d = 512 -> 0 <= first <= U64_MAX -> rok d first = true ->
  sect d first = zrepeat 0 512 -> probe_image d first last = Return None.
Proof.
  intros E Hf Hr Hz. unfold probe_image. rewrite read_sectors_run by (done || lia). change (Z.to_nat 1) with 1%nat. cbn [read_run].
  unfold boot_read. by rewrite Hr, Hz.
Qed.

Lemma probe_no_data d first last image sig :
  media_block_size d = 512 -> 0 <= first <= U64_MAX -> rok d first = true -> rok d (first + 1) = false ->
  sect d first = slot_header image sig -> zlen sig = 64 -> is_u64 (zlen image) -> probe_image d first last = Return None.
Proof.
  intros E Hf Hr1 Hr2 Hh Hsig Hz. unfold probe_image. rewrite read_sectors_run by (done || lia). change (Z.to_nat 1) with 1%nat. cbn [read_run].
  unfold boot_read. rewrite Hr1, Hh, app_nil_r. destruct (header_fields image sig Hsig Hz) as (F1 & F2 & _).
  rewrite F1, F2, bool_decide_true by done. cbn [negb]. destruct (Z.eqb_spec (zlen image) 0); [done|]. cbn [orb].
  match goal with |- (if ?b then _ else _) = _ => destruct b eqn:Eb; [done|] end.
  apply orb_false_iff in Eb as [_ Eb]. apply negb_false_iff in Eb. rewrite !andb_true_iff, !Z.leb_le in Eb.
  pose proof (div_ceil_spec (zlen image) 512 ltac:(lia) ltac:(ulia)) as Hd. unfold is_u64 in Hz.
  set (nsec := div_ceil (zlen image) 512) in *. rewrite read_sectors_run by (done || lia).
  replace (Z.to_nat nsec) with (S (Z.to_nat (nsec - 1))) by lia. cbn [read_run]. unfold boot_read. by rewrite Hr2.
Qed.

Lemma failed_write_harmless s image sig d d' e first last rest :
  boot_disk d -> slot_at d s first last -> is_u64 (zlen image) -> write_image_to_slot s image sig d = (Err e, d') ->
  load_from_partition s (d' :: rest) = None \/ load_from_partition s (d' :: rest) = load_from_partition s (d :: rest).
Proof.
  intros Hb Hs Hz Ew. pose proof (sa_range _ _ _ _ Hs) as Hr. pose proof (sa_behind _ _ _ _ Hs) as [Hb1 Hb2].
  destruct (write_image_spec s image sig d first last Hs) as (r & d2 & E & Sb & H'). rewrite Ew in E. injection E as <- <-.
  destruct H' as [(e' & _ & H')|(? & _)]; [|done]. cbn [load_from_partition].
  assert (Hb' : boot_disk d') by (destruct Hb, Sb; split; congruence).
  rewrite !(probe_disk_slot _ s first last) by (done || by apply (slot_at_frame first last d d')).
  destruct (rok d first) eqn:R1.
  2: { right. rewrite !probe_unreadable; try done; try lia; try apply Hb'; try apply Hb. by rewrite (sb_rok _ _ _ _ Sb). }
  assert (R1' : rok d' first = true) by by rewrite (sb_rok _ _ _ _ Sb).
  destruct H' as [->|[H'|(Hsig & Hh & [?|R2])]]; [by right| |congruence|].
  - left. rewrite probe_cleared; [done|apply Hb'|lia|done|done].
  - left. rewrite (probe_no_data _ _ _ image sig); [done|apply Hb'|lia|done|by rewrite (sb_rok _ _ _ _ Sb)|done|done|done].
Qed.

(** Writing to one slot does not change what the other one loads. *)
Lemma load_frame s d d' lo hi first last rest :
  boot_disk d -> slot_at d s first last -> same_but lo hi d d' -> 1 < lo -> gpt_end d <= lo -> hi < first \/ last < lo ->
  load_from_partition s (d' :: rest) = load_from_partition s (d :: rest).
Proof.
  intros Hb Hs Sb Hlo Hg Hd. pose proof (sa_range _ _ _ _ Hs) as Hr. pose proof (sa_behind _ _ _ _ Hs) as [Hb1 Hb2].
  assert (Hb' : boot_disk d') by (destruct Hb, Sb; split; congruence). cbn [load_from_partition].
  rewrite !(probe_disk_slot _ s first last) by (done || by apply (slot_at_frame lo hi d d')).
  rewrite (probe_image_frame d d'); [done|apply Hb|apply Hb'|apply Sb|lia|lia|]. intros l Hl. apply Sb. lia.
Qed.

Lemma probe_image_signed d first last img : probe_image d first last = Return (Some img) -> exists sig, signature_ok img sig = true.
Proof.
  unfold probe_image. destruct (read_sectors first 1 d) as [sh|]; [|done]. case_if; [done|]. case_if; [done|].
  destruct (read_sectors _ _ d) as [raw|]; [|done]. case_if; [done|].
  destruct (signature_ok (slice raw 0 (rd_u64 sh 8)) (slice sh 48 64)) eqn:E; [|done]. intros [= <-]. eauto.
Qed.

Lemma load_signed s ds img : load_from_partition s ds = Some img -> exists sig, signature_ok img sig = true.
Proof.
  induction ds as [|d ds IH]; [done|]. cbn [load_from_partition].
  destruct (probe_disk _ d) as [|r] eqn:E; [done|]. intros ->. unfold probe_disk in E. case_in E; [done|].
  destruct (read_sectors 1 1 d) as [hdr|]; [|done]. case_in E; [done|]. case_in E; [done|].
  destruct (read_sectors _ _ d) as [arr|]; [|done]. revert E. generalize (zrange 0 (Z.min (rd_u32 hdr 80) 128)) as ix.
  induction ix as [|i ix IHx]; [done|]. cbn [probe_entries].
  destruct (probe_entry d _ (entry arr (rd_u32 hdr 84) i)) as [|r] eqn:E; [done|]. intros [= ->].
  unfold probe_entry in E. case_in E; [done|]. by eapply probe_image_signed.
Qed.
End layout.

(** ** Claim *)

(** C8 The updater and the loader agree on the slot image, on a disk where exactly one partition has the slot's
    name: when the updater reports success, the loader reads exactly the image back; when it reports an error
    (no room, a write or a read-back failed at any sector) the loader finds nothing in the slot or what it found
    before, never a mixture; in both cases the other slot loads what it did; and whatever a disk holds, every
    image the loader accepts carries a valid signature. *)
Theorem slot_image_agreement `{LawfulCrypto} s image sig d r d' first last first' last' rest :
  boot_disk d -> slot_at d s first last -> slot_at d (other s) first' last' -> last < first' \/ last' < first ->
  is_u64 (zlen image) -> write_image_to_slot s image sig d = (r, d') ->
  match r with
  | Ok n => n = zlen image /\
      (signature_ok image sig = true -> 0 < zlen image <= MAX_IMAGE -> (forall l, first <= l <= last -> rok d l = true) ->
       load_from_partition s (d' :: rest) = Some image)
  | Err _ => load_from_partition s (d' :: rest) = None \/ load_from_partition s (d' :: rest) = load_from_partition s (d :: rest)
  | _ => False
  end /\
  load_from_partition (other s) (d' :: rest) = load_from_partition (other s) (d :: rest) /\
  (forall t ds img, load_from_partition t ds = Some img -> exists sg, signature_ok img sg = true).
Proof.
  intros Hb Hs Ho Ha Hz Ew. destruct (write_image_spec s image sig d first last Hs) as (r0 & d0 & E & Sb & Hr).
  rewrite Ew in E. injection E as <- <-. pose proof (sa_behind _ _ _ _ Hs) as [Hb1 Hb2].
  split; [|split; [eapply (load_frame (other s)); eauto|intros; by eapply load_signed]].
  destruct Hr as [(e & -> & _)|(-> & _)].
  - by eapply failed_write_harmless.
  - split; [done|]. intros. by eapply written_image_loads.
Qed.

(** A small disk with an ESP and two slots of 16 sectors. *)
Module Demo.
Definition crypto_ops : Crypto := {|
  sha256 m := zrepeat (zlen m mod 256) 32;
  verify_strict k _ sig := negb k && forallb (Z.eqb 7) sig;
|}.
#[export] Existing Instance crypto_ops.

#[export] Instance crypto_lawful : LawfulCrypto.
Proof.
  split; intros m; cbn [sha256 crypto_ops]; [by rewrite zlen_zrepeat|]. apply Forall_replicate.
  pose proof (Z.mod_pos_bound (zlen m) 256 ltac:(lia)). unfold is_u8, U8_MAX. lia.
Qed.

Definition part (ty : list Z) (first last : Z) (name : list Z) : list Z :=
  put_all (zrepeat 0 128) ((0, ty) :: (32, le_bytes 8 first) :: (40, le_bytes 8 last) :: imap (fun k c => (56 + 2 * Z.of_nat k, le_bytes 2 c)) name).

Definition array : list Z := Eval vm_compute in
  part ESP_TYPE 100 110 [] ++ part EUROSLOT_TYPE 200 215 (slot_partition_name A) ++ part EUROSLOT_TYPE 300 315 (slot_partition_name B) ++ zrepeat 0 128.

Definition header : list Z := Eval vm_compute in
  let h := put_all (zrepeat 0 512) [(0, EFI_PART); (12, le_bytes 4 92); (72, le_bytes 8 2); (80, le_bytes 4 3); (84, le_bytes 4 128);
                                    (88, le_bytes 4 (gpt_crc32 (slice array 0 384)))] in
  splice h 16 (le_bytes 4 (gpt_crc32 (slice h 0 92))).

Definition kernel : list Z := [1; 2; 3].
Definition sig : list Z := zrepeat 7 64.

Definition disk : Disk :=
  mkDisk (fun l => if l =? 1 then header else if l =? 2 then array
                   else if l =? 200 then slot_header kernel sig else if l =? 201 then image_sector kernel 0 else zrepeat 0 512)
    (fun _ => true) (fun l => negb (l =? 310)) 512 false true.

Definition range (s : Slot) : Z * Z := match s with A => (200, 215) | B => (300, 315) end.

Lemma disk_boot : boot_disk disk.
Proof. by split. Qed.

Lemma disk_table : read_part_array disk = Some (array, 128, 3).
Proof. vm_compute. reflexivity. Qed.

Lemma disk_slot s : slot_at disk s (fst (range s)) (snd (range s)).
Proof.
  split; [|by destruct s; vm_compute|by destruct s; vm_compute].
  exists array, 128, 3, (match s with A => 1 | B => 2 end). split; [apply disk_table|]. split; [destruct s; lia|].
  split; [by destruct s; vm_compute|]. split; [by destruct s; vm_compute|]. split; [by destruct s; vm_compute|].
  split; [by destruct s; vm_compute|]. intros j Hj Hne.
  assert (Hj' : j = 0 \/ j = 1 \/ j = 2) by lia. by destruct s, Hj' as [-> | [-> | ->]]; vm_compute.
Qed.
End Demo.
#[local] Existing Instance Demo.crypto_ops.
#[local] Existing Instance Demo.crypto_lawful.

(** An update of slot B of the small disk. *)
Lemma slot_image_agreement_witness :
  let d1 := snd (write_image_to_slot B [9; 8; 7] Demo.sig Demo.disk) in
  load_from_partition B [d1] = Some [9; 8; 7] /\ load_from_partition A [d1] = Some Demo.kernel.
Proof.
  assert (H : match fst (write_image_to_slot B [9; 8; 7] Demo.sig Demo.disk) with Ok n => n = 3 | _ => False end) by by vm_compute.
  destruct (write_image_to_slot B [9; 8; 7] Demo.sig Demo.disk) as [r d1] eqn:E. cbn [fst snd] in *.
  destruct (slot_image_agreement B [9; 8; 7] Demo.sig Demo.disk r d1 300 315 200 215 [] Demo.disk_boot (Demo.disk_slot B) (Demo.disk_slot A))
    as (H1 & H2 & _); [lia|vm_compute; split; discriminate|exact E|].
  destruct r as [n| | |]; [|destruct H..]. destruct H1 as [_ H1]. split.
  - apply H1; [by vm_compute|split; by vm_compute|done].
  - cbn [other] in H2. rewrite H2. by vm_compute.
Defined.
End Slots.
