(* ===== verification/Boot.v ===== *)
(** Booting and updating: the two-stage loader ([src/loader/src/main.rs]) and
    the kernel's updater ([src/kernel/src/update.rs]) on one machine, over the
    slot configuration ([Update]) and the slots on disk ([Slots]).

    The EFI system partition is a set of files, the firmware's view of which
    ([uefi::fs]) and the kernel's ([eurofat]) are the same; the mirror of the
    configuration in the root file system is one more cell.  Self-test runs
    ([SELFTEST_DRY]) and log lines are left out. *)

From stdpp Require Import relations.
From S2P Require Import Prelude Bytes Update Slots.
Import Update Slots.

Module Boot.

Record Machine := mkMachine {
  disk : Disk;                        (* the boot disk *)
  more : list Disk;                   (* the disks the firmware lists after it *)
  slot_config : option (list Z);      (* \slot_config on the ESP *)
  kernel_file : Slot -> option (list Z * option (list Z));  (* eurokernel-X.efi and its .sig *)
  esp_writable : bool;
  mirror : option (list Z);           (* /boot/slot_config *)
  mirror_writable : bool;
  CONFIG : option SlotConfig;         (* in memory; lost when the machine stops *)
}.

Definition with_disk (d : Disk) (m : Machine) : Machine :=
  mkMachine d (more m) (slot_config m) (kernel_file m) (esp_writable m) (mirror m) (mirror_writable m) (CONFIG m).
Definition with_CONFIG (c : option SlotConfig) (m : Machine) : Machine :=
  mkMachine (disk m) (more m) (slot_config m) (kernel_file m) (esp_writable m) (mirror m) (mirror_writable m) c.

(** ** The loader *)

Section boot.
Context `{Crypto}.

(** [write_file] on the ESP; the callers ignore its result. *)
Definition write_config (b : list Z) (m : Machine) : Machine :=
  if esp_writable m then
    mkMachine (disk m) (more m) (Some b) (kernel_file m) (esp_writable m) (mirror m) (mirror_writable m) (CONFIG m)
  else m.

Definition read_config (m : Machine) : option SlotConfig :=
  match slot_config m with Some b => deserialize b | None => None end.

Definition decide_slot (m : Machine) : option Slot * Machine :=
  match read_config m with
  | None => (None, m)
  | Some cfg =>
      let '(booted, cfg) := on_boot cfg in
      (Some booted, write_config (serialize cfg) m)
  end.

Definition record_fallback (o : Slot) (m : Machine) : Machine :=
  match read_config m with
  | None => m
  | Some cfg =>
      let '(ok, cfg) := rollback cfg in
      if ok && bool_decide (next_boot cfg = o) then write_config (serialize cfg) m else m
  end.

Definition read_verified_file (s : Slot) (m : Machine) : option (list Z) :=
  match kernel_file m s with
  | Some (img, Some sig) => if negb (zlen sig =? 64) || negb (signature_ok img sig) then None else Some img
  | _ => None
  end.

Definition load_slot (s : Slot) (m : Machine) : option (list Z) := load_from_partition s (disk m :: more m).

(** The image handed to [LoadImage], or [None] for [LOAD_ERROR]. *)
Definition main (m : Machine) : option (list Z) * Machine :=
  let '(choice, m) := decide_slot m in
  let slot := match choice with Some s => s | None => A end in
  match load_slot slot m with
  | Some img => (Some img, m)
  | None =>
      match load_slot (other slot) m with
      | Some img => (Some img, record_fallback (other slot) m)
      | None =>
          match read_verified_file slot m with
          | Some img => (Some img, m)
          | None => (read_verified_file A m, m)
          end
      end
  end.

(** ** The kernel *)

Definition SLOT_LBA : Z := 40.
Definition EUROPACK_V1 : list Z := [69; 85; 82; 79; 80; 67; 75; 49].
Definition EUROPACK_V2 : list Z := [69; 85; 82; 79; 80; 67; 75; 50].

Definition virtio0_is_foreign (m : Machine) : bool :=
  match boot_read 0 (disk m) with
  | Some s0 => bool_decide (slice s0 0 8 = EUROPACK_V1) || bool_decide (slice s0 0 8 = EUROPACK_V2)
  | None => false
  end.

Definition raw_load (m : Machine) : option SlotConfig :=
  if virtio0_is_foreign m then None
  else match boot_read SLOT_LBA (disk m) with Some buf => deserialize (slice buf 0 CONFIG_SIZE) | None => None end.

Definition raw_persist (c : SlotConfig) (m : Machine) : Machine :=
  if virtio0_is_foreign m then m
  else with_disk (snd (boot_write SLOT_LBA (splice (zrepeat 0 512) 0 (serialize c)) (disk m))) m.

Definition esp_first {E} : ST Machine E (option Z) := fun m =>
  if virtio0_is_foreign m then (Ok None, m)
  else match find_partition_by_name (slot_partition_name A) (disk m) with
  | Ok None => (Ok None, m)
  | Ok (Some _) =>
      match find_esp (disk m) with
      | Ok o => (Ok (option_map fst o), m)
      | Err e => (Err e, m) | Panic => (Panic, m) | OutOfFuel => (OutOfFuel, m)
      end
  | Err e => (Err e, m) | Panic => (Panic, m) | OutOfFuel => (OutOfFuel, m)
  end.

Definition esp_load {E} : ST Machine E (option SlotConfig) :=
  let! esp := esp_first in
  match esp with None => sret None | Some _ => sget read_config end.

Definition esp_persist {E} (c : SlotConfig) : ST Machine E unit :=
  let! esp := esp_first in
  match esp with None => sret tt | Some _ => smodify (write_config (serialize c)) end.

Definition load {E} : ST Machine E SlotConfig :=
  let! c := esp_load in
  match c with
  | Some cfg => sret cfg
  | None =>
      sget (fun m =>
        match raw_load m with
        | Some cfg => cfg
        | None => match mirror m with
                  | Some d => match deserialize d with Some cfg => cfg | None => initial end
                  | None => initial
                  end
        end)
  end.

Definition write_mirror (b : list Z) (m : Machine) : Machine :=
  if mirror_writable m then
    mkMachine (disk m) (more m) (slot_config m) (kernel_file m) (esp_writable m) (Some b) (mirror_writable m) (CONFIG m)
  else m.

Definition persist {E} (c : SlotConfig) : ST Machine E unit :=
  esp_persist c ;;!
  smodify (raw_persist c) ;;!
  smodify (write_mirror (serialize c)).

Definition boot_init {E} : ST Machine E unit :=
  let! cfg := load in
  let cfg := snd (on_boot cfg) in
  persist cfg ;;!
  smodify (with_CONFIG (Some cfg)).

Definition mark_boot_good {E} : ST Machine E unit :=
  let! c := sget CONFIG in
  match c with
  | None => sret tt
  | Some cfg =>
      let cfg := mark_good cfg in
      smodify (with_CONFIG (Some cfg)) ;;!
      persist cfg
  end.

(** [CONFIG.lock().take().unwrap_or_else(|| load(fs))] *)
Definition take_config {E} : ST Machine E SlotConfig :=
  let! c := sget CONFIG in
  match c with
  | Some cfg => smodify (with_CONFIG None) ;;! sret cfg
  | None => load
  end.

Definition on_disk {E A} (f : ST Disk E A) : ST Machine E A := fun m =>
  let '(r, d) := f (disk m) in (r, with_disk d m).

(** [Ok(..)] or [Err(..)] of a call as a value. *)
Definition attempt {S E E' A} (f : ST S E A) : ST S E' (E + A) := fun s =>
  match f s with
  | (Ok a, s') => (Ok (inr a), s')
  | (Err e, s') => (Ok (inl e), s')
  | (Panic, s') => (Panic, s')
  | (OutOfFuel, s') => (OutOfFuel, s')
  end.

(** [fs.write_file("/boot/slot_X.img", ..)] of the layout without slot partitions succeeds. *)
Context (slot_file_ok : bool).

(** Whether the image is staged now. *)
Definition stage_verified_image {E} (image sig : list Z) : ST Machine E bool :=
  if negb (signature_ok image sig) then sret false
  else
    let! cfg := take_config in
    let target := inactive cfg in
    let! w := attempt (on_disk (write_image_to_slot target image sig)) in
    let! staged := (match w with
                    | inr _ => sret true
                    | inl _ =>
                        let! esp := esp_first in
                        match esp with Some _ => sret false | None => sret slot_file_ok end
                    end) in
    if staged : bool then
      let cfg := stage_update cfg in
      persist cfg ;;!
      smodify (with_CONFIG (Some cfg)) ;;!
      sret true
    else
      smodify (with_CONFIG (Some cfg)) ;;!
      sret false.

(** [euroupdate rollback] *)
Definition kernel_rollback {E} : ST Machine E bool :=
  let! cfg := take_config in
  let '(ok, cfg) := rollback cfg in
  persist cfg ;;!
  smodify (with_CONFIG (Some cfg)) ;;!
  sret ok.

(** ** An installed machine *)

(** The disk has both slots and an ESP and is not a data disk, the ESP can be written, and the table, the raw configuration sector and
    the slots do not overlap. *)
Record installed (m : Machine) (range : Slot -> Z * Z) : Prop := mkInstalled {
  in_disk : boot_disk (disk m);
  in_slot : forall s, slot_at (disk m) s (fst (range s)) (snd (range s));
  in_apart : snd (range A) < fst (range B) \/ snd (range B) < fst (range A);
  in_raw : gpt_end (disk m) <= SLOT_LBA /\ forall s, SLOT_LBA < fst (range s);
  in_esp : exists p, find_esp (E := unit) (disk m) = Ok (Some p);
  in_write : esp_writable m = true;
  in_own : virtio0_is_foreign m = false;
}.

(** What stays the same when only sectors behind the table change. *)
Lemma find_esp_frame {E} lo hi d d' : same_but lo hi d d' -> 1 < lo -> gpt_end d <= lo -> find_esp (E := E) d' = find_esp d.
Proof. intros Hs Hlo Hg. unfold find_esp. by rewrite (read_part_array_frame lo hi d d'). Qed.

Lemma find_esp_any {E} d p : find_esp (E := unit) d = Ok (Some p) -> find_esp (E := E) d = Ok (Some p).
Proof.
  unfold find_esp. destruct (read_part_array d) as [[[arr esz] num]|]; [|done]. destruct (find_entry _ _ _ _) as [[f l]|]; [|done].
  unfold add64. destruct (l - f + 1 <=? U64_MAX); cbn; [|done]. intros [= <-]. done.
Qed.

Lemma foreign_frame lo hi m m' : same_but lo hi (disk m) (disk m') -> 0 < lo -> virtio0_is_foreign m' = virtio0_is_foreign m.
Proof. intros Sb Hlo. unfold virtio0_is_foreign, boot_read. by rewrite (sb_rok _ _ _ _ Sb), (sb_sect _ _ _ _ Sb 0) by lia. Qed.

Lemma installed_frame m m' range lo hi :
  installed m range -> same_but lo hi (disk m) (disk m') -> SLOT_LBA <= lo -> esp_writable m' = esp_writable m -> installed m' range.
Proof.
  intros [Hd Hs Ha [Hr1 Hr2] [q He] Hw Ho] Sb Hlo Ew. unfold SLOT_LBA in *.
  assert (Eg : gpt_end (disk m') = gpt_end (disk m)) by (unfold gpt_end; by rewrite (sb_sect _ _ _ _ Sb 1) by lia).
  split; [destruct Hd, Sb; split; congruence|intros s; apply (slot_at_frame lo hi (disk m)); try lia; auto|done|by rewrite Eg| |congruence|].
  2: { rewrite (foreign_frame lo hi m m'); done || lia. }
  exists q. by rewrite (find_esp_frame lo hi (disk m)) by (done || lia).
Qed.

Lemma esp_first_installed {E} m range : installed m range -> exists p, esp_first (E := E) m = (Ok (Some p), m).
Proof.
  intros [Hd Hs _ _ [q He] _ Ho]. unfold esp_first. rewrite Ho. pose proof (find_slot_ok _ _ _ _ (Hs A)) as Hf. unfold find_slot in Hf.
  assert (Hn : exists x, find_partition_by_name (E := E) (slot_partition_name A) (disk m) = Ok (Some x)).
  { unfold find_partition_by_name in *. destruct (read_part_array (disk m)) as [[[arr esz] num]|] eqn:Et.
    2: { destruct (Hs A) as [(arr & esz & num & i & Et' & _) _ _]. congruence. }
    destruct (Hs A) as [(arr' & esz' & num' & i & Et' & Hi & Hty & Hn & Ef & El & Hu) [Hb _] Hr]. rewrite Et in Et'. injection Et' as <- <- <-.
    rewrite (find_entry_unique _ arr esz (zrange 0 num) i); [|by apply elem_of_zrange| |lia|].
    - unfold add64. destruct (Z.leb_spec (entry_last (entry arr esz i) - entry_first (entry arr esz i) + 1) U64_MAX); [by eexists|]. lia.
    - rewrite Hn, andb_true_r. unfold ours. by rewrite Hty.
    - intros j Hj Hne. apply elem_of_zrange in Hj. by rewrite Hu, andb_false_r. }
  destruct Hn as [x ->]. rewrite (find_esp_any _ _ He). by eexists.
Qed.

(** ** Configurations in place *)

(** The loader and the kernel both find [c]. *)
Definition holds (m : Machine) (c : SlotConfig) : Prop := slot_config m = Some (serialize c) /\ config_ok c.

Lemma holds_read m c : holds m c -> read_config m = Some c.
Proof. intros [E Hc]. unfold read_config. rewrite E, <- (app_nil_r (serialize c)). by apply deserialize_serialize. Qed.

(** [m'] is [m] but for the raw sector, the configuration and its copies. *)
Record kept (m m' : Machine) : Prop := mkKept {
  kp_disk : same_but SLOT_LBA SLOT_LBA (disk m) (disk m');
  kp_more : more m' = more m;
  kp_write : esp_writable m' = esp_writable m;
}.

Lemma kept_refl m : kept m m.
Proof. split; [apply same_but_refl|done|done]. Qed.

Lemma kept_trans m1 m2 m3 : kept m1 m2 -> kept m2 m3 -> kept m1 m3.
Proof. intros [? ? ?] [? ? ?]. split; [by eapply same_but_trans|congruence|congruence]. Qed.

Lemma kept_installed m m' range : kept m m' -> installed m range -> installed m' range.
Proof. intros [? ? ?] Hi. by eapply installed_frame. Qed.

Lemma kept_load m m' range s : kept m m' -> installed m range -> load_slot s m' = load_slot s m.
Proof.
  intros [Sb Em _] [Hd Hs _ [Hg Hr] _ _ _]. unfold load_slot. rewrite Em.
  apply (load_frame s _ _ SLOT_LBA SLOT_LBA (fst (range s)) (snd (range s))); [done|done|done|done|done|]. left. apply Hr.
Qed.

Lemma persist_ok {E} m range c :
  installed m range -> config_ok c ->
  exists m', persist (E := E) c m = (Ok tt, m') /\ kept m m' /\ holds m' c /\ CONFIG m' = CONFIG m.
Proof.
  intros Hi Hc. destruct (esp_first_installed (E := E) m range Hi) as [q Eq]. unfold persist, esp_persist.
  erewrite sbind_ok by (erewrite sbind_ok by exact Eq; reflexivity). cbn.
  set (m1 := write_config (serialize c) m). eexists. split; [done|].
  assert (E1 : m1 = mkMachine (disk m) (more m) (Some (serialize c)) (kernel_file m) (esp_writable m) (mirror m) (mirror_writable m) (CONFIG m))
    by (unfold m1, write_config; by rewrite (in_write _ _ Hi)).
  rewrite E1. unfold write_mirror, raw_persist, boot_write.
  split; [|split]; repeat case_if; cbn; try done; split; cbn; try done; try apply same_but_refl; by apply same_but_upd.
Qed.

(** ** Safety of the boot decision *)

(** [works img]: a kernel that runs [img] reaches the point where it confirms its slot. *)
Context (works : list Z -> bool).

Definition fine (m : Machine) (s : Slot) : Prop := exists img, load_slot s m = Some img /\ works img = true.

(** The next boot leads to a working kernel, at once or by falling back. *)
Definition safe (m : Machine) (c : SlotConfig) : Prop :=
  let n := next_boot c in
  (state c n = Good /\ fine m n) \/
  ((state c n = Trying \/ state c n = Good /\ load_slot n m = None) /\ state c (other n) = Good /\ fine m (other n)).

Record inv (range : Slot -> Z * Z) (m : Machine) (c : SlotConfig) : Prop := mkInv {
  inv_installed : installed m range;
  inv_holds : holds m c;
  inv_tries : tries c <= DEFAULT_TRIES;
  inv_safe : safe m c;
}.

Lemma config_ok_on_boot c : config_ok c -> config_ok (snd (on_boot c)).
Proof.
  intros [Ht Hg]. unfold on_boot, find_good. destruct (Z.ltb_spec 0 (tries c)); [split; cbn; [unfold is_u8 in *; lia|done]|].
  destruct (decide _); [|by split]. destruct c as [? [] ? ? ? ?]; by split.
Qed.

Lemma config_ok_rollback c : config_ok c -> config_ok (snd (rollback c)).
Proof. intros [Ht Hg]. unfold rollback. destruct (decide _); [|by split]. split; cbn; [unfold is_u8, U8_MAX; lia|done]. Qed.

Lemma config_ok_mark c : config_ok c -> config_ok (mark_good c).
Proof. intros [Ht Hg]. unfold mark_good. destruct c as [[] ? ? ? ? ?]; split; cbn; (unfold is_u8, U8_MAX; lia) || done. Qed.

Lemma config_ok_stage c : config_ok c -> config_ok (stage_update c).
Proof.
  intros [Ht Hg]. unfold stage_update. split; cbn; [unfold is_u8, U8_MAX, DEFAULT_TRIES; lia|].
  match goal with |- is_u32 (?x mod ?y) => pose proof (Z.mod_pos_bound x y ltac:(lia)) end. unfold is_u32, U32_MAX. lia.
Qed.

Lemma write_config_ok m range c : installed m range -> config_ok c ->
  holds (write_config (serialize c) m) c /\ kept m (write_config (serialize c) m) /\
  (forall s, load_slot s (write_config (serialize c) m) = load_slot s m).
Proof.
  intros Hi Hc. unfold write_config. rewrite (in_write _ _ Hi). split; [by split|].
  split; [split; [apply same_but_refl|done|symmetry; apply (in_write _ _ Hi)]|done].
Qed.

(** The result of the loader: a working kernel whose slot the configuration now points to, or one more attempt
    at the slot on trial, with the other slot in reserve. *)
Definition booted (m : Machine) (c c1 : SlotConfig) (img : list Z) : Prop :=
  let n := next_boot c1 in
  (works img = true /\ state c1 n = Good /\ fine m n) \/
  (load_slot n m = Some img /\ state c1 n = Trying /\ active c1 = n /\ state c1 (other n) = Good /\ fine m (other n) /\
   state c (next_boot c) = Trying /\ 0 < tries c /\ tries c1 = tries c - 1).

(** Falling back to the other slot is recorded. *)
Lemma fallback_ok m range c1 :
  installed m range -> holds m c1 -> active c1 = next_boot c1 -> state c1 (other (next_boot c1)) = Good ->
  exists m', record_fallback (other (next_boot c1)) m = m' /\ kept m m' /\
    holds m' (mkConfig (active c1) (other (next_boot c1)) 0 (state_a c1) (state_b c1) (generation c1)).
Proof.
  intros Hi Hh Ha Hg. eexists. split; [done|]. unfold record_fallback. rewrite (holds_read _ _ Hh).
  pose proof (config_ok_rollback c1 (proj2 Hh)) as Hc. unfold rollback in *. rewrite Ha in *. rewrite decide_True in * by done.
  cbn [next_boot andb]. rewrite bool_decide_true by done. cbn [snd] in Hc.
  destruct (write_config_ok m range _ Hi Hc) as (H1 & H2 & _). done.
Qed.

Lemma main_ok range m c :
  inv range m c ->
  exists img m1 c1, main m = (Some img, m1) /\ kept m m1 /\ holds m1 c1 /\ tries c1 <= DEFAULT_TRIES /\ booted m c c1 img.
Proof.
  intros [Hi Hh Ht Hs]. unfold main, decide_slot. rewrite (holds_read _ _ Hh).
  pose proof (config_ok_on_boot c (proj2 Hh)) as Hc. destruct (on_boot c) as [slot c1] eqn:Eb. cbn [snd] in Hc.
  destruct (write_config_ok m range c1 Hi Hc) as (H1 & K1 & L1). set (m1 := write_config (serialize c1) m) in *.
  assert (Hi1 : installed m1 range) by by eapply kept_installed.
  assert (Ht1 : tries c1 <= DEFAULT_TRIES).
  { unfold on_boot in Eb. destruct (Z.ltb_spec 0 (tries c)); [injection Eb as <- <-; cbn; lia|].
    destruct (decide _); injection Eb as <- <-; [|done]. by destruct (next_boot c). }
  unfold on_boot in Eb. destruct Hs as [[Hg [img [Hl Hw]]]|[Hn [Hg [img [Hl Hw]]]]].
  - (* the next slot is good *)
    assert (Ec : slot = next_boot c /\ next_boot c1 = next_boot c /\ state c1 (next_boot c) = Good).
    { destruct (0 <? tries c); [injection Eb as <- <-; by destruct (next_boot c)|].
      rewrite decide_False in Eb by congruence. injection Eb as <- <-. by destruct (next_boot c). }
    destruct Ec as (-> & En & Es). rewrite L1, Hl. exists img, m1, c1. do 4 (split; [done|]). left. rewrite En. split; [done|]. split; [done|]. by exists img.
  - destruct (decide (0 < tries c \/ state c (next_boot c) = Good)) as [Hd|Hd].
    + (* one more attempt at the next slot, or a good slot that cannot be loaded *)
      assert (Ec : slot = next_boot c /\ active c1 = next_boot c /\ next_boot c1 = next_boot c /\ (forall s, state c1 s = state c s) /\
        (state c (next_boot c) = Trying -> 0 < tries c /\ tries c1 = tries c - 1)).
      { destruct (Z.ltb_spec 0 (tries c)); [injection Eb as <- <-; split_and!; try done; by intros []|].
        destruct Hd as [|Hd]; [lia|]. rewrite decide_False in Eb by congruence. injection Eb as <- <-. split_and!; first [done | by intros [] | congruence]. }
      destruct Ec as (-> & Ea & En & Es & Etr). rewrite !L1. destruct (load_slot (next_boot c) m) as [img'|] eqn:Eload.
      * exists img', m1, c1. do 4 (split; [done|]). destruct Hn as [Hn|[_ ?]]; [|done]. right.
        rewrite En, !Es. destruct (Etr Hn). split_and!; try done. by exists img.
      * rewrite Hl. rewrite <- En in Hl, Hg |- *. destruct (fallback_ok m1 range c1 Hi1 H1) as (m' & -> & K2 & H2); [congruence|by rewrite Es|].
        eexists img, m', _. split; [done|]. split; [by eapply kept_trans|]. split; [exact H2|]. split; [cbn; unfold DEFAULT_TRIES; lia|].
        left. cbn [next_boot]. split; [done|]. split; [|by exists img]. rewrite <- Es in Hg. by destruct (next_boot c1).
    + (* attempts used up *)
      assert (Hc0 : state c (next_boot c) = Trying) by (destruct Hn as [|[? _]]; [done|tauto]).
      destruct (Z.ltb_spec 0 (tries c)); [tauto|]. rewrite decide_True in Eb by done. unfold find_good in Eb.
      assert (E : slot = other (next_boot c) /\ next_boot c1 = other (next_boot c) /\ state c1 (other (next_boot c)) = Good).
      { destruct c as [act [] tr sa sb g]; cbn in *; subst; cbn in Eb; injection Eb as <- <-; done. }
      destruct E as (-> & En & Es). rewrite L1, Hl. exists img, m1, c1. do 4 (split; [done|]). left. rewrite En. split; [done|]. split; [done|]. by exists img.
Qed.

(** ** The kernel's part of a boot *)

Lemma boot_init_ok {E} range m c :
  installed m range -> holds m c ->
  exists m', boot_init (E := E) m = (Ok tt, m') /\ kept m m' /\ holds m' (snd (on_boot c)) /\ CONFIG m' = Some (snd (on_boot c)).
Proof.
  intros Hi Hh. destruct (esp_first_installed (E := E) m range Hi) as [q Eq]. unfold boot_init, load, esp_load.
  erewrite sbind_ok.
  2: { erewrite sbind_ok; [|erewrite sbind_ok by exact Eq; unfold sget; rewrite (holds_read _ _ Hh); reflexivity]. reflexivity. }
  destruct (persist_ok (E := E) m range (snd (on_boot c)) Hi (config_ok_on_boot c (proj2 Hh))) as (m1 & E1 & K1 & H1 & _).
  erewrite sbind_ok by exact E1. eexists. split; [done|]. split; [by destruct K1|]. done.
Qed.

Lemma mark_boot_good_ok {E} range m c :
  installed m range -> CONFIG m = Some c -> config_ok c ->
  exists m', mark_boot_good (E := E) m = (Ok tt, m') /\ kept m m' /\ holds m' (mark_good c) /\ CONFIG m' = Some (mark_good c).
Proof.
  intros Hi Ec Hc. unfold mark_boot_good. unfold sbind at 1, sget. rewrite Ec. unfold sbind, smodify.
  set (m1 := with_CONFIG (Some (mark_good c)) m).
  assert (Hi1 : installed m1 range) by (eapply kept_installed; [|exact Hi]; split; [apply same_but_refl|done|done]).
  destruct (persist_ok (E := E) m1 range (mark_good c) Hi1 (config_ok_mark c Hc)) as (m' & E1 & K1 & H1 & E2).
  exists m'. split; [done|]. split; [by destruct K1|]. by split.
Qed.

Lemma fine_kept m m' range s : kept m m' -> installed m range -> fine m s -> fine m' s.
Proof. intros K Hi [img [Hl Hw]]. exists img. by rewrite (kept_load m m' range s K Hi). Qed.

(** After the loader, the configuration is safe again. *)
Lemma booted_inv range m m1 c c1 img :
  installed m range -> kept m m1 -> holds m1 c1 -> tries c1 <= DEFAULT_TRIES -> booted m c c1 img -> inv range m1 c1.
Proof.
  intros Hi K Hh Ht Hb. split; [by eapply kept_installed|done|done|]. unfold safe.
  destruct Hb as [(_ & Hg & Hf)|(_ & Hn & _ & Hg & Hf & _)]; [left|right]; split_and!; try done; try by left.
  all: by eapply fine_kept.
Qed.

(** The kernel's own [on_boot] keeps it so; the active slot is good, or it is the one on trial that just booted. *)
Definition started (m : Machine) (c2 : SlotConfig) (img : list Z) : Prop :=
  state c2 (active c2) = Good /\ fine m (active c2) /\ next_boot c2 = active c2 \/
  load_slot (active c2) m = Some img /\ next_boot c2 = active c2 /\ state c2 (active c2) = Trying /\
    state c2 (other (active c2)) = Good /\ fine m (other (active c2)).

Lemma started_ok m c c1 img :
  tries c1 <= DEFAULT_TRIES -> booted m c c1 img ->
  started m (snd (on_boot c1)) img /\ tries (snd (on_boot c1)) <= DEFAULT_TRIES /\
  (state (snd (on_boot c1)) (next_boot (snd (on_boot c1))) = Trying -> tries (snd (on_boot c1)) <= tries c1).
Proof.
  intros Ht Hb. unfold on_boot, started. destruct (Z.ltb_spec 0 (tries c1)).
  - cbn [snd active next_boot tries]. split; [|lia]. destruct Hb as [(_ & Hg & Hf)|(Hl & Hn & _ & Hg & Hf & _)].
    + left. by destruct (next_boot c1).
    + right. by destruct (next_boot c1).
  - destruct Hb as [(_ & Hg & Hf)|(Hl & Hn & Ha & Hg & Hf & _)].
    + rewrite decide_False by congruence. cbn [snd active next_boot tries]. split; [|lia]. left. by destruct (next_boot c1).
    + rewrite decide_True by done. unfold find_good.
      destruct c1 as [act [] tr sa sb g]; cbn in *; subst; cbn; (split; [left; done|]; split; [done|done]).
Qed.

Lemma started_inv range m m2 c2 img :
  installed m range -> kept m m2 -> holds m2 c2 -> tries c2 <= DEFAULT_TRIES -> started m c2 img -> inv range m2 c2.
Proof.
  intros Hi K Hh Ht Hs. split; [by eapply kept_installed|done|done|]. unfold safe.
  destruct Hs as [(Hg & Hf & En)|(Hl & En & Hn & Hg & Hf)]; rewrite En; [left|right]; split_and!; try done; try by left.
  all: by eapply fine_kept.
Qed.

(** A machine that runs: the kernel holds the configuration, and its active slot is good. *)
Definition running (range : Slot -> Z * Z) (m : Machine) (c : SlotConfig) : Prop :=
  inv range m c /\ CONFIG m = Some c /\ state c (active c) = Good /\ fine m (active c).

Lemma confirmed_running range m m3 c2 img :
  installed m range -> kept m m3 -> holds m3 (mark_good c2) -> CONFIG m3 = Some (mark_good c2) -> works img = true -> started m c2 img ->
  running range m3 (mark_good c2).
Proof.
  intros Hi K Hh Ec Hw Hs.
  assert (Hf : fine m3 (active c2)).
  { apply (fine_kept m m3 range); [done|done|]. destruct Hs as [(_ & Hf & _)|(Hl & _)]; [done|by exists img]. }
  assert (E : active (mark_good c2) = active c2 /\ next_boot (mark_good c2) = active c2 /\ tries (mark_good c2) = 0 /\
    state (mark_good c2) (active c2) = Good) by (unfold mark_good; by destruct c2 as [[] ? ? ? ? ?]).
  destruct E as (Ea & En & Et & Eg). split; [|by rewrite Ea]. split; [by eapply kept_installed|done|rewrite Et; unfold DEFAULT_TRIES; lia|].
  left. by rewrite En.
Qed.

(** ** Kernel commands *)

Context {HL : LawfulCrypto}.

Lemma other_ne s : other s <> s.
Proof. by destruct s. Qed.

Lemma ne_other s t : s <> t -> s = other t.
Proof. by destruct s, t. Qed.

Lemma range_apart m range s : installed m range ->
  snd (range s) < fst (range (other s)) \/ snd (range (other s)) < fst (range s).
Proof. intros Hi. pose proof (in_apart _ _ Hi). destruct s; cbn [other]; tauto. Qed.

(** Sectors of one slot do not matter to the other. *)
Lemma slot_changed m range s d' :
  installed m range -> same_but (fst (range s)) (snd (range s)) (disk m) d' ->
  installed (with_disk d' m) range /\ load_slot (other s) (with_disk d' m) = load_slot (other s) m.
Proof.
  intros Hi Sb. pose proof (in_raw _ _ Hi) as [Hg Hr]. pose proof (Hr s).
  split; [eapply (installed_frame m); [done|exact Sb|lia|done]|].
  unfold load_slot. cbn [disk more with_disk].
  eapply load_frame; [apply Hi|apply Hi|exact Sb|unfold SLOT_LBA in *; lia|lia|]. apply (range_apart m range s Hi).
Qed.

Lemma take_config_ok {E} m c : CONFIG m = Some c -> take_config (E := E) m = (Ok c, with_CONFIG None m).
Proof. intros Ec. unfold take_config, sbind, sget. by rewrite Ec. Qed.

Lemma kept_with_CONFIG m o : kept m (with_CONFIG o m).
Proof. split; [apply same_but_refl|done|done]. Qed.

(** Writing a configuration and keeping it in memory, as every command ends. *)
Lemma persist_settles {E A} m range c (a : A) :
  installed m range -> config_ok c ->
  exists m', (persist (E := E) c ;;! smodify (with_CONFIG (Some c)) ;;! sret a) m = (Ok a, m') /\
    kept m m' /\ holds m' c /\ CONFIG m' = Some c.
Proof.
  intros Hi Hc. destruct (persist_ok (E := E) m range c Hi Hc) as (m1 & E1 & K1 & H1 & _).
  erewrite sbind_ok by exact E1. eexists. split; [done|]. split; [eapply kept_trans; [exact K1|apply kept_with_CONFIG]|]. done.
Qed.

(** The slot that is not running was written to, in vain: it loads nothing or what it did before. *)
Lemma unstaged_running range m m1 c :
  running range m c -> installed m1 range -> holds m1 c -> CONFIG m1 = Some c ->
  load_slot (active c) m1 = load_slot (active c) m ->
  load_slot (inactive c) m1 = None \/ load_slot (inactive c) m1 = load_slot (inactive c) m ->
  running range m1 c.
Proof.
  intros ([Hi Hh Ht Hs] & Ec & Hg & Hf) Hi1 Hh1 Ec1 Hload Hd.
  assert (Hf1 : fine m1 (active c)) by (destruct Hf as [img [Hl Hw]]; exists img; rewrite Hload; by split).
  split; [|by split_and!]. split; [done|done|done|].
  destruct (decide (next_boot c = active c)) as [En|En]; [left; by rewrite En|].
  apply ne_other in En. unfold inactive in Hd. rewrite <- En in Hd. unfold safe in *.
  replace (other (next_boot c)) with (active c) in * by (rewrite En; symmetry; apply other_other).
  destruct Hs as [[Hn [img [Hl Hw]]]|[Hn _]].
  - destruct Hd as [Hd|Hd]; [right; split; [by right|done]|]. left. split; [done|]. exists img. by rewrite Hd.
  - right. split; [|done]. destruct Hn as [Hn|[Hn Hl]]; [by left|right]. split; [done|]. by destruct Hd as [->| ->].
Qed.

(** A staged update is put on trial with the running slot in reserve; a refused or failed one changes neither
    the configuration nor the running slot. *)
Lemma stage_ok {E} range m c image sig :
  running range m c -> is_u64 (zlen image) ->
  exists b m' c', stage_verified_image (E := E) image sig m = (Ok b, m') /\ running range m' c' /\ active c' = active c /\
    (if b then c' = stage_update c else c' = c) /\ (b = true -> signature_ok image sig = true).
Proof.
  intros Hrun Hz. pose proof Hrun as ([Hi Hh Ht Hs] & Ec & Hg & Hf). unfold stage_verified_image.
  destruct (signature_ok image sig); cbn [negb]; [|exists false, m, c; by split_and!].
  erewrite sbind_ok by apply (take_config_ok m c Ec). set (m0 := with_CONFIG None m). set (t := inactive c).
  assert (Hi0 : installed m0 range) by (eapply kept_installed; [apply kept_with_CONFIG|done]).
  pose proof (in_slot _ _ Hi0 t) as Hsl.
  destruct (write_image_spec t image sig (disk m0) _ _ Hsl) as (r & d' & Ew & Sb & Hr).
  destruct (slot_changed m0 range t d' Hi0 Sb) as [Hi1 Hload]. set (m1 := with_disk d' m0) in *.
  assert (Eo : other t = active c) by apply other_other. rewrite Eo in Hload.
  assert (Hf1 : fine m1 (active c)) by (destruct Hf as [img [Hl Hw]]; exists img; rewrite Hload; by split).
  destruct Hr as [(e & -> & _)|(-> & _)]; (erewrite sbind_ok; [|unfold attempt, on_disk; rewrite Ew; reflexivity]).
  - (* the image could not be written *)
    destruct (esp_first_installed (E := E) m1 range Hi1) as [q Eq].
    erewrite sbind_ok; [|erewrite sbind_ok by exact Eq; reflexivity]. cbn iota. unfold sbind, smodify, sret.
    exists false, (with_CONFIG (Some c) m1), c. split; [done|]. split; [|by split_and!].
    apply (unstaged_running range m); [done|eapply kept_installed; [apply kept_with_CONFIG|done]|done|done|exact Hload|].
    eapply (failed_write_harmless t image sig); [apply Hi0|exact Hsl|done|exact Ew].
  - (* staged *)
    erewrite sbind_ok by reflexivity. cbn iota.
    destruct (persist_settles (E := E) m1 range (stage_update c) true Hi1 (config_ok_stage c (proj2 Hh))) as (m' & E1 & K1 & H1 & Ec1).
    exists true, m', (stage_update c). split; [exact E1|].
    assert (Es : active (stage_update c) = active c /\ next_boot (stage_update c) = t /\ state (stage_update c) t = Trying /\
      state (stage_update c) (active c) = state c (active c)) by (unfold t; by destruct c as [[] ? ? ? ? ?]).
    destruct Es as (Ea & En & Etr & Eg). split; [|by repeat split].
    split; [|split; [done|]; rewrite Ea, Eg; split; [done|by eapply fine_kept]].
    split; [by eapply kept_installed|done|cbn; unfold DEFAULT_TRIES; lia|].
    right. rewrite En, Eo, Eg. split; [by left|]. split; [done|by eapply fine_kept].
Qed.

Lemma rollback_ok {E} range m c :
  running range m c -> (forall img, load_slot (inactive c) m = Some img -> works img = true) ->
  exists b m' c', kernel_rollback (E := E) m = (Ok b, m') /\ running range m' c'.
Proof.
  intros ([Hi Hh Ht Hs] & Ec & Hg & Hf) Hw. unfold kernel_rollback. erewrite sbind_ok by apply (take_config_ok m c Ec).
  pose proof (config_ok_rollback c (proj2 Hh)) as Hc. set (m0 := with_CONFIG None m).
  assert (K0 : kept m m0) by apply kept_with_CONFIG.
  assert (Hi0 : installed m0 range) by by eapply kept_installed.
  destruct (rollback c) as [b c'] eqn:Er. cbn [snd] in Hc.
  destruct (persist_settles (E := E) m0 range c' b Hi0 Hc) as (m' & E1 & K1 & H1 & Ec1). exists b, m', c'. split; [exact E1|].
  assert (K : kept m m') by by eapply kept_trans. assert (Hi' : installed m' range) by by eapply kept_installed.
  assert (Hf' : fine m' (active c)) by by eapply fine_kept.
  unfold rollback in Er. destruct (decide (state c (other (active c)) = Good)) as [Ho|Ho]; injection Er as <- <-.
  - split; [|split; [done|]; split; [by destruct (active c)|done]]. split; [done|done|cbn; unfold DEFAULT_TRIES; lia|].
    unfold safe. cbn [next_boot]. rewrite other_other. fold (inactive c). rewrite (kept_load m m' range) by done.
    unfold inactive in *. destruct (load_slot (other (active c)) m) as [img|] eqn:El.
    + left. split; [by destruct (active c)|]. exists img. rewrite (kept_load m m' range) by done. auto.
    + right. split; [right; split; [by destruct (active c)|done]|]. split; [by destruct (active c)|done].
  - split; [|by split_and!]. split; [done|done|done|]. unfold safe in *. rewrite (kept_load m m' range) by done.
    destruct Hs as [[? ?]|[? [? ?]]]; [left|right]; split_and!; try done; by eapply fine_kept.
Qed.

(** ** Histories *)

Inductive sys := Off (m : Machine) | On (m : Machine).

(** One thing that can happen to the machine.  A kernel may stop at any moment; only one that works gets to
    confirm its slot.  A staged image is written completely or up to any point ([st_stage_cut] leaves any sectors
    in the slot being written). *)
Inductive step (range : Slot -> Z * Z) : sys -> sys -> Prop :=
| st_stops_early m img m1 : main m = (Some img, m1) -> step range (Off m) (Off m1)
| st_stops_later m img m1 m2 :
    main m = (Some img, m1) -> boot_init (E := unit) (with_CONFIG None m1) = (Ok tt, m2) -> step range (Off m) (Off m2)
| st_starts m img m1 m2 m3 :
    main m = (Some img, m1) -> works img = true -> boot_init (E := unit) (with_CONFIG None m1) = (Ok tt, m2) ->
    mark_boot_good (E := unit) m2 = (Ok tt, m3) -> step range (Off m) (On m3)
| st_stage m image sig b m' :
    is_u64 (zlen image) -> stage_verified_image (E := unit) image sig m = (Ok b, m') -> step range (On m) (On m')
| st_stage_cut m c d' :
    CONFIG m = Some c -> same_but (fst (range (inactive c))) (snd (range (inactive c))) (disk m) d' ->
    next_boot c = active c \/ state c (inactive c) = Trying ->
    step range (On m) (Off (with_disk d' m))
| st_rollback m c b m' :
    CONFIG m = Some c -> (forall img, load_slot (inactive c) m = Some img -> works img = true) ->
    kernel_rollback (E := unit) m = (Ok b, m') -> step range (On m) (On m')
| st_stops m : step range (On m) (Off m).

Definition good_sys (range : Slot -> Z * Z) (s : sys) : Prop :=
  match s with
  | Off m => exists c, inv range m c
  | On m => exists c, running range m c
  end.

Lemma power_on_ok range m c :
  inv range m c ->
  exists img m1 c1 m2, main m = (Some img, m1) /\ inv range m1 c1 /\ boot_init (E := unit) (with_CONFIG None m1) = (Ok tt, m2) /\
    inv range m2 (snd (on_boot c1)) /\ CONFIG m2 = Some (snd (on_boot c1)) /\ kept m m2 /\ booted m c c1 img /\
    started m (snd (on_boot c1)) img.
Proof.
  intros Hinv. pose proof Hinv as [Hi Hh Ht Hs].
  destruct (main_ok range m c Hinv) as (img & m1 & c1 & E1 & K1 & H1 & T1 & B1).
  assert (Hi1 : installed m1 range) by by eapply kept_installed.
  destruct (boot_init_ok (E := unit) range (with_CONFIG None m1) c1) as (m2 & E2 & K2 & H2 & C2);
    [eapply kept_installed; [apply kept_with_CONFIG|done]|done|].
  assert (K : kept m m2) by (eapply kept_trans; [exact K1|]; eapply kept_trans; [apply kept_with_CONFIG|exact K2]).
  destruct (started_ok m c c1 img T1 B1) as (S2 & T2 & _).
  exists img, m1, c1, m2. split_and!; try done; [apply (booted_inv range m m1 c c1 img); done|apply (started_inv range m m2 _ img); done].
Qed.

Lemma step_good range s s' : step range s s' -> good_sys range s -> good_sys range s'.
Proof.
  intros Hst Hs. destruct Hst as [m img m1 E1|m img m1 m2 E1 E2|m img m1 m2 m3 E1 Hw E2 E3|m image sig b m' Hz E1|m c d' Ec Sb Hn|m c b m' Ec Hw E1|m];
    cbn [good_sys] in *; destruct Hs as [c0 Hs].
  - destruct (power_on_ok range m c0 Hs) as (img' & m1' & c1 & m2' & F1 & I1 & _). rewrite F1 in E1. injection E1 as <- <-. eauto.
  - destruct (power_on_ok range m c0 Hs) as (img' & m1' & c1 & m2' & F1 & _ & F2 & I2 & _). rewrite F1 in E1. injection E1 as <- <-.
    rewrite F2 in E2. injection E2 as <-. eauto.
  - destruct (power_on_ok range m c0 Hs) as (img' & m1' & c1 & m2' & F1 & _ & F2 & I2 & C2 & K2 & _ & S2). rewrite F1 in E1. injection E1 as <- <-.
    rewrite F2 in E2. injection E2 as <-.
    destruct (mark_boot_good_ok (E := unit) range m2' _ (inv_installed _ _ _ I2) C2 (proj2 (inv_holds _ _ _ I2))) as (m3' & F3 & K3 & H3 & C3).
    rewrite F3 in E3. injection E3 as <-. exists (mark_good (snd (on_boot c1))).
    eapply (confirmed_running range m); [apply Hs|by eapply kept_trans|done|done|exact Hw|done].
  - destruct (stage_ok (E := unit) range m c0 image sig Hs Hz) as (b' & m'' & c' & F1 & R1 & _). rewrite F1 in E1. injection E1 as <- <-. eauto.
  - destruct Hs as ([Hi Hh Ht Hsf] & Ec0 & Hg & Hf). rewrite Ec in Ec0. injection Ec0 as <-.
    destruct (slot_changed m range (inactive c) d' Hi Sb) as [Hi1 Hload].
    assert (Eo : other (inactive c) = active c) by apply other_other. rewrite Eo in Hload.
    assert (Hf1 : fine (with_disk d' m) (active c)) by (destruct Hf as [img [Hl Hw]]; exists img; rewrite Hload; by split).
    exists c. split; [done|done|done|]. destruct (decide (next_boot c = active c)) as [En|En]; [left; by rewrite En|].
    destruct Hn as [|Hn]; [done|]. apply ne_other in En. fold (inactive c) in En. right. rewrite En, Eo. split; [by left|done].
  - pose proof Hs as (_ & Ec0 & _). rewrite Ec in Ec0. injection Ec0 as <-.
    destruct (rollback_ok (E := unit) range m c Hs Hw) as (b' & m'' & c' & F1 & R1). rewrite F1 in E1. injection E1 as <- <-. eauto.
  - destruct Hs as [Hs _]. eauto.
Qed.

(** ** Consecutive boot attempts *)

(** The images handed to the firmware in consecutive boots none of which confirms its slot. *)
Inductive attempts : Machine -> list (list Z) -> Prop :=
| at_none m : attempts m []
| at_early m img m1 imgs : main m = (Some img, m1) -> attempts m1 imgs -> attempts m (img :: imgs)
| at_later m img m1 m2 imgs :
    main m = (Some img, m1) -> boot_init (E := unit) (with_CONFIG None m1) = (Ok tt, m2) -> attempts m2 imgs -> attempts m (img :: imgs).

(** The attempts that may still go to a slot on trial. *)
Definition rank (c : SlotConfig) : Z := if decide (state c (next_boot c) = Trying) then tries c else 0.

Lemma attempts_bounded range m c imgs :
  inv range m c -> attempts m imgs -> Forall (fun img => works img = false) imgs -> zlen imgs <= Z.max 0 (rank c).
Proof.
  intros Hinv Ha. revert c Hinv. induction Ha as [m|m img m1 imgs E1 _ IH|m img m1 m2 imgs E1 E2 _ IH]; intros c Hinv Hf.
  - change (zlen []) with 0. lia.
  - apply Forall_cons in Hf as [Hw Hf]. destruct (power_on_ok range m c Hinv) as (img' & m1' & c1 & m2' & F1 & I1 & _ & _ & _ & _ & B1 & _).
    rewrite F1 in E1. injection E1 as <- <-. specialize (IH c1 I1 Hf).
    destruct B1 as [(? & _)|(_ & Hn & _ & _ & _ & Ht & Hp & Et)]; [congruence|].
    unfold rank in *. rewrite !decide_True in * by done. rewrite zlen_cons. lia.
  - apply Forall_cons in Hf as [Hw Hf].
    destruct (power_on_ok range m c Hinv) as (img' & m1' & c1 & m2' & F1 & I1 & F2 & I2 & _ & _ & B1 & _).
    rewrite F1 in E1. injection E1 as <- <-. rewrite F2 in E2. injection E2 as <-. specialize (IH _ I2 Hf).
    destruct (started_ok m c c1 img' (inv_tries _ _ _ I1) B1) as (_ & _ & Hle).
    destruct B1 as [(? & _)|(_ & Hn & _ & _ & _ & Ht & Hp & Et)]; [congruence|].
    unfold rank in *. rewrite (decide_True _ _ Ht). rewrite zlen_cons. destruct (decide _) as [Hd|]; [specialize (Hle Hd)|]; lia.
Qed.

Lemma initial_inv range m : installed m range -> slot_config m = Some (serialize initial) -> fine m A -> inv range m initial.
Proof.
  intros Hi Hc Hf. split; [done|split; [done|split; by vm_compute]|by vm_compute|]. left. by split.
Qed.

Lemma reachable_good range m s :
  inv range m initial -> rtc (step range) (Off m) s -> good_sys range s.
Proof.
  intros Hinv Hr. assert (H0 : good_sys range (Off m)) by by exists initial.
  induction Hr as [x|x y z Hxy _ IH]; [done|]. apply IH. by eapply step_good.
Qed.

Lemma verified_signed s m img : read_verified_file s m = Some img -> exists sig, signature_ok img sig = true.
Proof.
  unfold read_verified_file. destruct (kernel_file m s) as [[im [sg|]]|]; [|done|done].
  destruct (signature_ok im sg) eqn:E; [|by rewrite orb_true_r]. case_if; [done|]. intros [= <-]. eauto.
Qed.

(** ** Claims *)

(** C6 An update cannot brick the machine.  Start from an installed machine with a working system in slot A, and
    let boots, updates of any signed or unsigned image, write errors, power failures in the middle of writing an
    image, confirmed and unconfirmed starts and manual rollbacks follow each other in any order (a rollback only
    to a slot that holds nothing or a working system; no power failure while an update overwrites a slot the user
    just rolled back to).  Then the loader always finds an image to boot, the kernel's start returns, and of any
    four boots in a row that confirm nothing at least one handed control to a working system; on a running
    machine an update always returns. *)
Theorem update_never_bricks range m0 s :
  installed m0 range -> slot_config m0 = Some (serialize initial) -> fine m0 A -> rtc (step range) (Off m0) s ->
  match s with
  | Off m => (exists img m1 m2, main m = (Some img, m1) /\ boot_init (E := unit) (with_CONFIG None m1) = (Ok tt, m2)) /\
      (forall imgs, attempts m imgs -> zlen imgs = 4 -> Exists (fun img => works img = true) imgs)
  | On m => forall image sig, is_u64 (zlen image) -> exists b m', stage_verified_image (E := unit) image sig m = (Ok b, m')
  end.
Proof.
  intros Hi Hc Hf Hr. pose proof (reachable_good range m0 s (initial_inv range m0 Hi Hc Hf) Hr) as Hg.
  destruct s as [m|m]; destruct Hg as [c Hg].
  - split.
    + destruct (power_on_ok range m c Hg) as (img & m1 & c1 & m2 & E1 & _ & E2 & _). eauto.
    + intros imgs Ha Hl. destruct (decide (Exists (fun img => works img = true) imgs)) as [|Hn]; [done|].
      apply not_Exists_Forall in Hn. 2: { intros x. apply _. }
      pose proof (attempts_bounded range m c imgs Hg Ha) as Hb. pose proof (inv_tries _ _ _ Hg) as Ht.
      assert (Forall (fun img => works img = false) imgs) as Hw by (eapply Forall_impl; [exact Hn|]; intros x; cbn; by destruct (works x)).
      specialize (Hb Hw). unfold rank, DEFAULT_TRIES in *. destruct (decide _); lia.
  - intros image sig Hz. destruct (stage_ok (E := unit) range m c image sig Hg Hz) as (b & m' & c' & E1 & _). eauto.
Qed.

(** C7 Nothing unsigned is started or staged: on any machine, whatever its disks and files hold, an image the
    loader hands to the firmware carries a signature that verifies against one of the two keys, and an update
    whose signature does not verify changes nothing. *)
Theorem only_signed_images m image sig :
  (forall img m', main m = (Some img, m') -> exists sg, signature_ok img sg = true) /\
  (signature_ok image sig = false -> stage_verified_image (E := unit) image sig m = (Ok false, m)).
Proof.
  split.
  - intros img m'. unfold main. destruct (decide_slot m) as [choice m1].
    set (slot := match choice with Some s => s | None => A end).
    destruct (load_slot slot m1) as [i1|] eqn:E1; [intros [= <- _]; by eapply load_signed|].
    destruct (load_slot (other slot) m1) as [i2|] eqn:E2; [intros [= <- _]; by eapply load_signed|].
    destruct (read_verified_file slot m1) as [i3|] eqn:E3; [intros [= <- _]; by eapply verified_signed|].
    intros [= E4 _]. by eapply verified_signed.
  - intros Hs. unfold stage_verified_image. by rewrite Hs.
Qed.
End boot.

(** ** A small machine *)

#[local] Existing Instance Slots.Demo.crypto_ops.
#[local] Existing Instance Slots.Demo.crypto_lawful.

Definition demo : Machine :=
  mkMachine Slots.Demo.disk [] (Some (serialize initial)) (fun _ => None) true None true None.

(** The image of slot A works. *)
Definition demo_works (img : list Z) : bool := bool_decide (img = Slots.Demo.kernel).

Lemma demo_installed : installed demo Slots.Demo.range.
Proof.
  split; [apply Slots.Demo.disk_boot|apply Slots.Demo.disk_slot|left; by vm_compute|split; [by vm_compute|by intros []]| |done|by vm_compute].
  unfold find_esp. cbn [demo disk]. rewrite Slots.Demo.disk_table. eexists. vm_compute. reflexivity.
Qed.

(** A history: the machine boots and confirms its slot, stages a signed image that does not work, is switched
    off, and tries that image once, which stops early. *)
Definition broken : list Z := [9; 8; 7].
Definition started_from (m : Machine) : Machine := snd (boot_init (E := unit) (with_CONFIG None (snd (main m)))).
Definition running_from (m : Machine) : Machine := snd (mark_boot_good (E := unit) (started_from m)).
Definition staged_from (m : Machine) : Machine := snd (stage_verified_image true (E := unit) broken Slots.Demo.sig (running_from m)).
Definition tried_from (m : Machine) : Machine := snd (main (staged_from m)).

Lemma history range m img : fst (main m) = Some img -> demo_works img = true ->
  fst (boot_init (E := unit) (with_CONFIG None (snd (main m)))) = Ok tt -> fst (mark_boot_good (E := unit) (started_from m)) = Ok tt ->
  fst (stage_verified_image true (E := unit) broken Slots.Demo.sig (running_from m)) = Ok true -> fst (main (staged_from m)) = Some broken ->
  rtc (step true demo_works range) (Off m) (Off (tried_from m)).
Proof.
  intros H1 H2 H3 H4 H5 H6. apply rtc_l with (On (running_from m)).
  { apply (st_starts _ _ _ m img (snd (main m)) (started_from m)); [rewrite <- H1; apply surjective_pairing | done | |].
    - rewrite <- H3. apply surjective_pairing.
    - rewrite <- H4. apply surjective_pairing. }
  apply rtc_l with (On (staged_from m)).
  { apply (st_stage _ _ _ _ broken Slots.Demo.sig true); [vm_compute; split; discriminate|]. rewrite <- H5. apply surjective_pairing. }
  apply rtc_l with (Off (staged_from m)); [apply st_stops|]. apply rtc_once, (st_stops_early _ _ _ _ broken).
  rewrite <- H6. apply surjective_pairing.
Qed.

Lemma demo_history : rtc (step true demo_works Slots.Demo.range) (Off demo) (Off (tried_from demo)).
Proof. apply (history _ _ Slots.Demo.kernel); vm_compute; reflexivity. Qed.

(** What follows: a boot still finds an image, and of four boots without a confirmation one starts a working system. *)
Lemma update_never_bricks_witness :
  demo_works broken = false /\ fst (main (staged_from demo)) = Some broken /\
  (exists img m1 m2, main (tried_from demo) = (Some img, m1) /\ boot_init (E := unit) (with_CONFIG None m1) = (Ok tt, m2)) /\
  forall imgs, attempts (tried_from demo) imgs -> zlen imgs = 4 -> Exists (fun img => demo_works img = true) imgs.
Proof.
  do 2 (split; [by vm_compute|]).
  apply (update_never_bricks true demo_works Slots.Demo.range demo (Off (tried_from demo)) demo_installed eq_refl).
  - exists Slots.Demo.kernel. by split; vm_compute.
  - exact demo_history.
Defined.

Lemma only_signed_images_witness : exists sg, signature_ok Slots.Demo.kernel sg = true.
Proof.
  apply (proj1 (only_signed_images true demo [] []) Slots.Demo.kernel (snd (main demo))).
  assert (E : fst (main demo) = Some Slots.Demo.kernel) by by vm_compute. rewrite <- E. apply surjective_pairing.
Defined.

(** ** Where the guarantee ends *)

(** Loader and kernel both count an attempt, so a trial has two boots, not three; a new system that starts without
    confirming and then starts again and does confirm is recorded as failed, and the old slot as the one running. *)
Lemma second_trial_boot_rejected :
  let boot c := snd (on_boot (snd (on_boot c))) in
  let c1 := boot (stage_update initial) in
  fst (on_boot c1) = B /\ state (mark_good (boot c1)) B = Failed /\ active (mark_good (boot c1)) = A.
Proof. by vm_compute. Qed.

(** The slot an update overwrites keeps its label until the update is staged.  Both slots were good; the power
    fails when a broken image has just been written to slot B; a rollback then boots that image for ever. *)
Definition overwritten : Machine :=
  let both_good := mkConfig A A 0 Good Good 2 in
  mkMachine (snd (write_image_to_slot B [9; 8; 7] Slots.Demo.sig Slots.Demo.disk)) [] (Some (serialize both_good))
    (fun _ => None) true None true (Some both_good).

Lemma rollback_to_untested_image :
  let m := snd (kernel_rollback (E := unit) overwritten) in
  let next m := snd (main m) in
  demo_works [9; 8; 7] = false /\ fst (main m) = Some [9; 8; 7] /\ fst (main (next m)) = Some [9; 8; 7] /\
  fst (main (next (next m))) = Some [9; 8; 7] /\ slot_config (next (next m)) = slot_config (next m).
Proof. by vm_compute. Qed.
End Boot.
