(* ===== verification/Channel.v ===== *)
(** Update delivery ([src/kernel/src/update.rs], from [apply] on): signed channel
    manifests, the anti-rollback watermark, the update policy, and the background
    job that fetches and stages an update slice by slice.

    The network is hostile: what a fetch returns, whether a connection opens and
    in which order the slices come is an input of the model.  The clock
    ([rtc::epoch]), the ticks and the running version are inputs too.  The files
    [/etc/euroupdate.seen] and [/etc/euroupdate.conf] are cells of the state;
    self-test runs and the text of the log are left out. *)

From Stdlib Require Import Ascii String.
From stdpp Require Import sets.
From S2P Require Import Prelude Bytes Utf8 Update Slots Boot.
Import Utf8 Update Slots Boot.

Module Channel.

(** ** Text *)

(** [s.chars()], each character as its bytes. *)
Definition chars (s : list Z) : list (list Z) := map snd (utf8_chunks s).

(** [char::is_whitespace] *)
Definition is_whitespace (c : list Z) : bool :=
  match c with
  | [b] => in_between 9 13 b || (b =? 32)
  | [b; b1] => (b =? 194) && ((b1 =? 133) || (b1 =? 160))
  | [b; b1; b2] =>
      ((b =? 225) && (b1 =? 154) && (b2 =? 128)) ||
      ((b =? 226) && (b1 =? 128) && (in_between 128 138 b2 || (b2 =? 168) || (b2 =? 169) || (b2 =? 175))) ||
      ((b =? 226) && (b1 =? 129) && (b2 =? 159)) ||
      ((b =? 227) && (b1 =? 128) && (b2 =? 128))
  | _ => false
  end.

Fixpoint drop_while {A} (f : A -> bool) (l : list A) : list A :=
  match l with
  | x :: l' => if f x then drop_while f l' else l
  | [] => []
  end.

Definition trim_start (s : list Z) : list Z := concat (drop_while is_whitespace (chars s)).
Definition trim (s : list Z) : list Z :=
  concat (reverse (drop_while is_whitespace (reverse (drop_while is_whitespace (chars s))))).

Definition is_digit (b : Z) : bool := in_between 48 57 b.

(** [str::parse::<u64>] *)
Fixpoint parse_digits (acc : Z) (s : list Z) : option Z :=
  match s with
  | [] => Some acc
  | b :: s' =>
      if is_digit b then
        let acc := acc * 10 + (b - 48) in
        if U64_MAX <? acc then None else parse_digits acc s'
      else None
  end.

Definition parse_u64 (s : list Z) : option Z :=
  match s with
  | [] => None
  | 43 :: (_ :: _) as s' => parse_digits 0 (tail s)
  | _ => parse_digits 0 s
  end.

(** [format!("{v}")] of a [u64]; twenty digits are enough. *)
Fixpoint show_digits (fuel : nat) (v : Z) : list Z :=
  match fuel with
  | O => []
  | S fuel' => (if v <? 10 then [] else show_digits fuel' (v / 10)) ++ [48 + v mod 10]
  end.
Definition show_u64 (v : Z) : list Z := show_digits 20 v.

(** [s.find(pat)] followed by skipping the pattern. *)
Fixpoint after (pat s : list Z) : option (list Z) :=
  if bool_decide (take (length pat) s = pat) then Some (drop (length pat) s)
  else match s with [] => None | _ :: s' => after pat s' end.

Fixpoint take_while {A} (f : A -> bool) (l : list A) : list A :=
  match l with
  | x :: l' => if f x then x :: take_while f l' else []
  | [] => []
  end.

Definition hex_digit (d : Z) : Z := if d <? 10 then 48 + d else 87 + d.
(** [format!("{b:02x}")] of every byte. *)
Definition hex (l : list Z) : list Z := concat (map (fun b => [hex_digit (b / 16); hex_digit (b mod 16)]) l).

(** ** The manifest *)

Definition QUOTE : Z := 34.

Definition manifest_u64 (s key : list Z) : option Z :=
  match after ([QUOTE] ++ key ++ [QUOTE; 58]) s with
  | None => None
  | Some rest => parse_u64 (take_while is_digit (trim_start rest))
  end.

Definition manifest_str (s key : list Z) : option (list Z) :=
  match after ([QUOTE] ++ key ++ [QUOTE; 58; QUOTE]) s with
  | None => None
  | Some rest => if existsb (Z.eqb QUOTE) rest then Some (take_while (fun b => negb (b =? QUOTE)) rest) else None
  end.

Definition MAX_IMAGE : Z := 100663296. (* 96 * 1024 * 1024 *)

Inductive Verdict := UpToDate | Newer (version : Z) (image sha_hex : list Z).

(** The reasons [evaluate_manifest] logs last. *)
Inductive Refusal :=
| SignatureInvalid | Malformed | WrongChannel | Expired | NoExpiry | TooLarge | BelowWatermark | BadPath.

(** [image.contains("..")] *)
Definition contains (pat s : list Z) : bool := match after pat s with Some _ => true | None => false end.

Definition path_ok (image : list Z) : bool :=
  bool_decide (take 1 image = [47]) && negb (contains [46; 46] image) && negb (existsb is_whitespace (chars image)) &&
  negb (existsb (fun b => (b =? QUOTE) || (b =? 92)) image).

Section channel.
Context `{Crypto}.

(** What the machine is and what time it is while a call runs. *)
Record Env := mkEnv {
  running_version : Z;
  epoch : Z;
}.

Definition evaluate_manifest (env : Env) (seen : Z) (channel man msig : list Z) : Refusal + Verdict :=
  if negb (signature_ok man msig) then inl SignatureInvalid
  else
    let text := from_utf8_lossy man in
    match manifest_u64 text (str "version"), manifest_str text (str "image"), manifest_str text (str "sha256") with
    | Some version, Some image, Some sha_hex =>
        if negb (bool_decide (manifest_str text (str "channel") = Some channel)) then inl WrongChannel
        else if version <=? running_version env then inr UpToDate
        else match manifest_u64 text (str "expires") with
             | None => inl NoExpiry
             | Some exp =>
                 if exp <? epoch env then inl Expired
                 else if match manifest_u64 text (str "size") with Some n => MAX_IMAGE - 512 <? n | None => false end then inl TooLarge
                 else if version <? seen then inl BelowWatermark
                 else if negb (path_ok image) then inl BadPath
                 else inr (Newer version image sha_hex)
             end
    | _, _, _ => inl Malformed
    end.

(** ** State *)

Inductive Policy := Auto | Ask | Manual.

Inductive Phase := Manifest | ManifestSig | Image | ImageSig.

(** [fetch] is the path and the size limit of the transfer in progress. *)
Record Job := mkJob {
  phase : Phase;
  fetch : list Z * Z;
  look_only : bool;
  man : list Z;
  version : Z;
  image : list Z;
  sha_hex : list Z;
  img : list Z;
  started : Z;
  retries : Z;
  rescue : bool;
}.

Record Sys := mkSys {
  machine : Machine;
  seen_file : option (list Z);
  policy_file : option (list Z);
  etc_writable : bool;
  LAST_CHECK : Z;
  STAGED_VERSION : Z;
  REBOOT_AT : Z;
  LAST_STAGED : Z;
  JOB : option Job;
}.

Definition set_machine (m : Machine) (s : Sys) : Sys :=
  mkSys m (seen_file s) (policy_file s) (etc_writable s) (LAST_CHECK s) (STAGED_VERSION s) (REBOOT_AT s) (LAST_STAGED s) (JOB s).
Definition set_seen_file (f : option (list Z)) (s : Sys) : Sys :=
  mkSys (machine s) f (policy_file s) (etc_writable s) (LAST_CHECK s) (STAGED_VERSION s) (REBOOT_AT s) (LAST_STAGED s) (JOB s).
Definition set_policy_file (f : option (list Z)) (s : Sys) : Sys :=
  mkSys (machine s) (seen_file s) f (etc_writable s) (LAST_CHECK s) (STAGED_VERSION s) (REBOOT_AT s) (LAST_STAGED s) (JOB s).
Definition set_LAST_CHECK (v : Z) (s : Sys) : Sys :=
  mkSys (machine s) (seen_file s) (policy_file s) (etc_writable s) v (STAGED_VERSION s) (REBOOT_AT s) (LAST_STAGED s) (JOB s).
Definition set_STAGED_VERSION (v : Z) (s : Sys) : Sys :=
  mkSys (machine s) (seen_file s) (policy_file s) (etc_writable s) (LAST_CHECK s) v (REBOOT_AT s) (LAST_STAGED s) (JOB s).
Definition set_REBOOT_AT (v : Z) (s : Sys) : Sys :=
  mkSys (machine s) (seen_file s) (policy_file s) (etc_writable s) (LAST_CHECK s) (STAGED_VERSION s) v (LAST_STAGED s) (JOB s).
Definition set_LAST_STAGED (v : Z) (s : Sys) : Sys :=
  mkSys (machine s) (seen_file s) (policy_file s) (etc_writable s) (LAST_CHECK s) (STAGED_VERSION s) (REBOOT_AT s) v (JOB s).
Definition set_JOB (j : option Job) (s : Sys) : Sys :=
  mkSys (machine s) (seen_file s) (policy_file s) (etc_writable s) (LAST_CHECK s) (STAGED_VERSION s) (REBOOT_AT s) (LAST_STAGED s) j.

Definition M := ST Sys unit.

Definition on_machine {A} (f : ST Machine unit A) : M A := fun s =>
  let '(r, m) := f (machine s) in (r, set_machine m s).

(** ** The watermark and the policy *)

Definition seen_version (s : Sys) : Z :=
  match seen_file s with
  | Some d => match parse_u64 (trim (from_utf8_lossy d)) with Some v => v | None => 0 end
  | None => 0
  end.

Definition record_seen (v : Z) (s : Sys) : Sys :=
  if seen_version s <? v then
    if etc_writable s then set_seen_file (Some (show_u64 v ++ [10])) s else s
  else s.

Definition policy_name (p : Policy) : list Z :=
  match p with Auto => str "auto" | Ask => str "ask" | Manual => str "manual" end.

Definition policy_parse (t : list Z) : option Policy :=
  let t := trim t in
  if bool_decide (t = str "auto") then Some Auto
  else if bool_decide (t = str "ask") then Some Ask
  else if bool_decide (t = str "manual") then Some Manual
  else None.

Definition policy (s : Sys) : Policy :=
  match policy_file s with
  | Some d => match policy_parse (from_utf8_lossy d) with Some p => p | None => Ask end
  | None => Ask
  end.

Definition is_auto (p : Policy) : bool := match p with Auto => true | _ => false end.

Definition set_policy (t : list Z) (s : Sys) : Sys :=
  match policy_parse t with
  | Some p =>
      if etc_writable s then
        let s := set_policy_file (Some (policy_name p)) s in
        if is_auto p then s else set_REBOOT_AT 0 s
      else s
  | None => s
  end.

(** ** Staging what was fetched *)

Context (slot_file_ok : bool).

Definition finish_image (version : Z) (sha_hex img isig : list Z) : M bool :=
  if negb (bool_decide (hex (sha256 img) = sha_hex)) then sret false
  else
    let! ok := on_machine (stage_verified_image slot_file_ok img isig) in
    if ok : bool then
      smodify (set_LAST_STAGED version) ;;!
      smodify (record_seen version) ;;!
      sret true
    else sret false.

(** The answer to the [n]th request of a call, for a path and a size limit: a status and a body. *)
Definition Server := Z -> list Z -> option Z -> option (Z * list Z).

Definition body_200 (r : option (Z * list Z)) : option (list Z) :=
  match r with Some (code, b) => if code =? 200 then Some b else None | None => None end.

(** Whether the image was staged. *)
Definition check_channel (env : Env) (net : Server) (base channel : list Z) : M bool :=
  let mpath := base ++ str "/channel/" ++ channel ++ str ".json" in
  match body_200 (net 0 mpath (Some 65536)) with
  | None => sret false
  | Some man =>
      match body_200 (net 1 (mpath ++ str ".sig") (Some 4096)) with
      | None => sret false
      | Some msig =>
          let! seen := sget seen_version in
          match evaluate_manifest env seen channel man msig with
          | inl _ | inr UpToDate => sret false
          | inr (Newer version image sha_hex) =>
              match body_200 (net 2 image (Some MAX_IMAGE)) with
              | None => sret false
              | Some img =>
                  match body_200 (net 3 (image ++ str ".sig") (Some 4096)) with
                  | None => sret false
                  | Some isig => finish_image version sha_hex img isig
                  end
              end
          end
      end
  end.

(** [euroupdate apply]: the image and its signature from the file system. *)
Definition apply (image_file sig_file : option (list Z)) : M bool :=
  match image_file, sig_file with
  | Some image, Some sig => on_machine (stage_verified_image slot_file_ok image sig)
  | _, _ => sret false
  end.

(** [euroupdate fetch <url>] *)
Definition strip_prefix (pre s : list Z) : option (list Z) :=
  if bool_decide (take (length pre) s = pre) then Some (drop (length pre) s) else None.

Definition parse_u16 (s : list Z) : option Z :=
  match parse_u64 s with Some v => if 65535 <? v then None else Some v | None => None end.

(** [authority.rsplit_once(':')] *)
Definition rsplit_once (c : Z) (s : list Z) : option (list Z * list Z) :=
  let tail := reverse (take_while (fun b => negb (b =? c)) (reverse s)) in
  if existsb (Z.eqb c) s then Some (take (length s - length tail - 1) s, tail) else None.

Definition parse_url (url : list Z) : option (list Z * Z * list Z * bool) :=
  let parse (tls : bool) (rest : list Z) :=
    let authority := take_while (fun b => negb (b =? 47)) rest in
    let path := if existsb (Z.eqb 47) rest then drop (length authority) rest else [47] in
    if bool_decide (authority = []) then None
    else match rsplit_once 58 authority with
         | Some (h, p) => match parse_u16 p with Some port => Some (h, port, path, tls) | None => None end
         | None => Some (authority, if tls then 443 else 80, path, tls)
         end in
  match strip_prefix (str "https://") url with
  | Some r => parse true r
  | None => match strip_prefix (str "http://") url with Some r => parse false r | None => None end
  end.

Definition fetch_command (net : Server) (url : list Z) : M bool :=
  match parse_url url with
  | None => sret false
  | Some (_, _, path, _) =>
      match body_200 (net 0 path (Some MAX_IMAGE)), body_200 (net 1 (path ++ str ".sig") None) with
      | Some image, Some sig => on_machine (stage_verified_image slot_file_ok image sig)
      | _, _ => sret false
      end
  end.

Definition AUTO_REBOOT_TICKS : Z := 12000.
Definition UPDATE_BASE : list Z := str "/update".

Definition arm_reboot (now : Z) : M unit :=
  let! at_ := slift (add64 (Z.max now 1) AUTO_REBOOT_TICKS) in
  smodify (set_REBOOT_AT at_).

Definition auto_check (env : Env) (net : Server) (now : Z) : M unit :=
  let! pol := sget policy in
  let! _ := check_channel env net UPDATE_BASE (str "stable") in
  let! v := sget LAST_STAGED in
  smodify (set_LAST_STAGED 0) ;;!
  if negb (v =? 0) then
    smodify (set_STAGED_VERSION v) ;;!
    (if is_auto pol then arm_reboot now else sret tt)
  else sret tt.

(** [euroupdate rollback] *)
Definition rollback_command : M unit :=
  let! _ := on_machine kernel_rollback in
  smodify (set_REBOOT_AT 0).

(** ** The background job *)

Definition CHECK_FIRST_TICKS : Z := 9000.
Definition CHECK_INTERVAL_TICKS : Z := 2160000.
Definition RETRY_TICKS : Z := 180000.
Definition FETCH_RETRIES : Z := 2.

(** [a.wrapping_sub(b)] *)
Definition wrapping_sub (a b : Z) : Z := (a - b) mod 2 ^ 64.

Definition retry_sooner (now : Z) (s : Sys) : Sys :=
  let v := wrapping_sub now (CHECK_INTERVAL_TICKS - RETRY_TICKS) in
  set_LAST_CHECK (if v =? 0 then 1 else v) s.

Definition job_done (now : Z) (failed : bool) : M unit :=
  if failed then smodify (retry_sooner now) else sret tt.

Definition job_channel (rescue : bool) : list Z := if rescue then str "rescue" else str "stable".

Definition channel_path (rescue : bool) : list Z := UPDATE_BASE ++ str "/channel/" ++ job_channel rescue ++ str ".json".

Definition job_path (j : Job) : list Z * Z :=
  match phase j with
  | Manifest => (channel_path (rescue j), 65536)
  | ManifestSig => (channel_path (rescue j) ++ str ".sig", 4096)
  | Image => (image j, MAX_IMAGE)
  | ImageSig => (image j ++ str ".sig", 4096)
  end.

(** [HttpsFetch::start]: whether the connection [opens]. *)
Definition fetch_for (opens : bool) (path : list Z) (max : Z) : option (list Z * Z) :=
  if opens then Some (path, max) else None.

Definition start_job (opens : bool) (now : Z) (look_only : bool) : M bool :=
  match fetch_for opens (channel_path false) 65536 with
  | None => sret false
  | Some f =>
      smodify (set_JOB (Some (mkJob Manifest f look_only [] 0 [] [] [] now 0 false))) ;;!
      sret true
  end.

Definition retry_phase (opens : bool) (j : Job) : M bool :=
  if FETCH_RETRIES <=? retries j then sret false
  else
    let '(path, max) := job_path j in
    match fetch_for opens path max with
    | Some f =>
        smodify (set_JOB (Some (mkJob (phase j) f (look_only j) (man j) (version j) (image j) (sha_hex j) (img j)
                                  (started j) (retries j + 1) (rescue j)))) ;;!
        sret true
    | None => sret false
    end.

(** The delayed reboot; [true] when the machine restarts. *)
Definition fire_reboot (now : Z) : M bool :=
  let! at_ := sget REBOOT_AT in
  if negb (at_ =? 0) && (at_ <=? now) then
    let! pol := sget policy in
    if is_auto pol then sret true else smodify (set_REBOOT_AT 0) ;;! sret false
  else sret false.

(** [maybe_check]; [online] is [net::get().is_some()]. *)
Definition maybe_check (online opens : bool) (now : Z) : M bool :=
  let! restart := fire_reboot now in
  if restart : bool then sret true
  else
    let! last := sget LAST_CHECK in
    let! staged := sget STAGED_VERSION in
    let due := if last =? 0 then CHECK_FIRST_TICKS <=? now else CHECK_INTERVAL_TICKS <=? wrapping_sub now last in
    if negb due || negb (staged =? 0) then sret false
    else
      let! esp := on_machine esp_first in
      match esp with
      | None => sret false
      | Some _ =>
          if negb online then sret false
          else
            smodify (set_LAST_CHECK (Z.max now 1)) ;;!
            let! pol := sget policy in
            let! ok := start_job opens now (match pol with Manual => true | _ => false end) in
            (if ok : bool then sret tt else smodify (retry_sooner now)) ;;!
            sret false
      end.

(** What one slice of a transfer gives. *)
Inductive FetchStep := Pending | Failed | Done (status : Z) (body : list Z).

(** The transfer of a phase is complete. *)
Definition phase_done (env : Env) (opens : bool) (now : Z) (j : Job) (body : list Z) : M unit :=
  let next (r : option (list Z * Z)) (mk : list Z * Z -> Job) :=
    match r with
    | Some f => smodify (set_JOB (Some (mk f)))
    | None => job_done now true
    end in
  match phase j with
  | Manifest =>
      next (fetch_for opens (channel_path (rescue j) ++ str ".sig") 4096)
        (fun f => mkJob ManifestSig f (look_only j) body (version j) (image j) (sha_hex j) (img j) (started j) (retries j) (rescue j))
  | ManifestSig =>
      let! seen := sget seen_version in
      match evaluate_manifest env seen (job_channel (rescue j)) (man j) body with
      | inr UpToDate => job_done now false
      | inl SignatureInvalid =>
          if rescue j then job_done now true
          else
            match fetch_for opens (channel_path true) 65536 with
            | Some f => smodify (set_JOB (Some (mkJob Manifest f (look_only j) [] 0 [] [] [] (started j) 0 true)))
            | None => job_done now true
            end
      | inl _ => job_done now true
      | inr (Newer v i h) =>
          if look_only j then job_done now false
          else
            next (fetch_for opens i MAX_IMAGE)
              (fun f => mkJob Image f (look_only j) (man j) v i h (img j) (started j) (retries j) (rescue j))
      end
  | Image =>
      next (fetch_for opens (image j ++ str ".sig") 4096)
        (fun f => mkJob ImageSig f (look_only j) (man j) (version j) (image j) (sha_hex j) body (started j) (retries j) (rescue j))
  | ImageSig =>
      let! ok := finish_image (version j) (sha_hex j) (img j) body in
      smodify (set_LAST_STAGED 0) ;;!
      if ok : bool then
        smodify (set_STAGED_VERSION (version j)) ;;!
        let! pol := sget policy in
        (if is_auto pol then arm_reboot now else sret tt) ;;!
        job_done now false
      else job_done now true
  end.

(** One iteration of the desktop loop; [true] when the machine restarts. *)
Definition step (env : Env) (ev : FetchStep) (opens : bool) (now : Z) : M bool :=
  let! restart := fire_reboot now in
  if restart : bool then sret true
  else
    let! job := sget JOB in
    match job with
    | None => sret false
    | Some j =>
        smodify (set_JOB None) ;;!
        (if RETRY_TICKS <? wrapping_sub now (started j) then job_done now true
         else match ev with
              | Pending => smodify (set_JOB (Some j))
              | Failed => let! again := retry_phase opens j in if again : bool then sret tt else job_done now true
              | Done code body =>
                  if negb (code =? 200) then
                    let! again := retry_phase opens j in if again : bool then sret tt else job_done now true
                  else phase_done env opens now j body
              end) ;;!
        sret false
    end.

(** ** Text round trips *)

Lemma parse_digits_app acc l r : parse_digits acc (l ++ r) = match parse_digits acc l with Some v => parse_digits v r | None => None end.
Proof. revert acc. induction l as [|b l IH]; intros acc; [done|]. cbn. by repeat case_if. Qed.

Lemma parse_show fuel v : 0 <= v <= U64_MAX -> v < 10 ^ Z.of_nat fuel -> (0 < fuel)%nat -> parse_digits 0 (show_digits fuel v) = Some v.
Proof.
  revert v. induction fuel as [|fuel IH]; intros v Hv Hf Hn; [lia|]. cbn [show_digits]. rewrite parse_digits_app.
  pose proof (Z.mod_pos_bound v 10 ltac:(lia)).
  assert (last : forall q, q * 10 + v mod 10 = v -> parse_digits q [48 + v mod 10] = Some v).
  { intros q Hq. cbn. unfold is_digit, in_between. rewrite (proj2 (Z.leb_le _ _)), (proj2 (Z.leb_le _ _)) by lia. cbn [andb].
    replace (q * 10 + (48 + v mod 10 - 48)) with v by lia. case_if; [lia|done]. }
  destruct (v <? 10) eqn:E; [apply last; rewrite Z.mod_small; lia|].
  apply Z.ltb_ge in E. destruct fuel as [|fuel]; [cbn in Hf; lia|].
  rewrite IH; [apply last; pose proof (Z.div_mod v 10); lia| | |lia].
  - split; [apply Z.div_pos; lia|]. pose proof (Z.div_le_upper_bound v 10 U64_MAX). unfold U64_MAX in *. lia.
  - apply Z.div_lt_upper_bound; [lia|]. rewrite Nat2Z.inj_succ, Z.pow_succ_r in Hf by lia. lia.
Qed.

Lemma show_digits_ascii fuel v : 0 <= v -> Forall (fun b => is_digit b = true) (show_digits fuel v).
Proof.
  revert v. induction fuel as [|fuel IH]; intros v Hv; [constructor|]. cbn [show_digits]. apply Forall_app. split.
  - case_if; [constructor|]. apply IH, Z.div_pos; lia.
  - pose proof (Z.mod_pos_bound v 10 ltac:(lia)). constructor; [|constructor]. unfold is_digit, in_between. apply andb_true_iff. lia.
Qed.

(** Every byte below 128 is a character of its own. *)
Lemma chunks_ascii fuel l : Forall (fun b => b < 128) l -> (length l <= fuel)%nat -> Utf8.chunks fuel l = map (fun b => (true, [b])) l.
Proof.
  revert l. induction fuel as [|fuel IH]; intros [|b l] Hl Hf; try done; [cbn in Hf; lia|].
  apply Forall_cons in Hl as [Hb Hl]. cbn in Hf. cbn [Utf8.chunks].
  assert (utf8_step (b :: l) = (true, 1%nat)) as ->.
  { unfold utf8_step, utf8_char_width. cbn [nth]. by rewrite (proj2 (Z.ltb_lt _ _) Hb). }
  cbn [take drop map]. by rewrite take_0, drop_0, IH by (done || lia).
Qed.

Lemma chars_ascii l : Forall (fun b => b < 128) l -> chars l = map (fun b => [b]) l.
Proof. intros Hl. unfold chars, utf8_chunks. rewrite chunks_ascii by done. rewrite map_map. done. Qed.

Lemma lossy_ascii l : Forall (fun b => b < 128) l -> from_utf8_lossy l = l.
Proof.
  intros Hl. apply from_utf8_lossy_valid. unfold valid_utf8, utf8_chunks. rewrite chunks_ascii by done.
  apply forallb_forall. intros x Hx. apply in_map_iff in Hx as (b & <- & _). done.
Qed.

Lemma digit_not_space b : is_digit b = true -> is_whitespace [b] = false.
Proof. unfold is_digit, is_whitespace, in_between. rewrite andb_true_iff. intros [? ?]. repeat case_bool_decide; rewrite ?orb_false_iff, ?andb_false_iff; lia. Qed.

Lemma drop_while_none {A} (f : A -> bool) l : Forall (fun x => f x = false) l -> drop_while f l = l.
Proof. destruct l as [|x l]; [done|]. intros H1. apply Forall_cons in H1 as [Hx _]. cbn. by rewrite Hx. Qed.

Lemma concat_chars (l : list Z) : concat (map (fun b => [b]) l) = l.
Proof. induction l as [|b l IH]; [done|]. cbn. by rewrite IH. Qed.

(** The watermark file reads back as the version written to it. *)
Lemma seen_roundtrip v : is_u64 v -> parse_u64 (trim (from_utf8_lossy (show_u64 v ++ [10]))) = Some v.
Proof.
  intros Hv. pose proof (show_digits_ascii 20 v ltac:(ulia)) as Hd. fold (show_u64 v) in Hd.
  assert (Hn : show_u64 v <> []) by (unfold show_u64; cbn [show_digits]; intros E; by apply app_eq_nil in E as [_ E]).
  assert (Ep : parse_digits 0 (show_u64 v) = Some v) by (apply parse_show; [ulia|unfold is_u64, U64_MAX in Hv; cbn; lia|lia]).
  generalize dependent (show_u64 v). intros l Hd Hn Ep.
  assert (Ha : Forall (fun b => b < 128) (l ++ [10])).
  { apply Forall_app. split; [|by repeat constructor]. eapply Forall_impl; [exact Hd|]. unfold is_digit, in_between. intros b. cbn. rewrite andb_true_iff. lia. }
  assert (Hs : Forall (fun c => is_whitespace c = false) (map (fun b => [b]) l)).
  { apply Forall_map. eapply Forall_impl; [exact Hd|]. intros b Hb. by apply digit_not_space. }
  assert (Hl : drop_while is_whitespace (map (fun b => [b]) (l ++ [10])) = map (fun b => [b]) (l ++ [10])).
  { destruct l as [|b l]; [done|]. apply Forall_cons in Hs as [Hb _]. cbn [map app drop_while]. by rewrite Hb. }
  rewrite lossy_ascii by done. unfold trim. rewrite chars_ascii by done. rewrite Hl, map_app, reverse_app.
  change (drop_while is_whitespace (reverse (map (fun b => [b]) [10]) ++ ?x)) with (drop_while is_whitespace x).
  rewrite drop_while_none by (by apply Forall_reverse). rewrite reverse_involutive, concat_chars.
  destruct l as [|b l]; [done|]. apply Forall_cons in Hd as [Hb _]. assert (b <> 43) by (intros ->; done).
  unfold parse_u64. repeat (case_match; try done).
Qed.

Lemma parse_digits_bound acc s v : 0 <= acc <= U64_MAX -> parse_digits acc s = Some v -> is_u64 v.
Proof.
  revert acc. induction s as [|b s IH]; intros acc Ha; cbn.
  - intros [= <-]. ulia.
  - destruct (is_digit b) eqn:Ed; [|done]. case_if; [done|]. apply IH. unfold is_digit, in_between in Ed. apply andb_true_iff in Ed. lia.
Qed.

Lemma manifest_u64_bound t key v : manifest_u64 t key = Some v -> is_u64 v.
Proof.
  unfold manifest_u64. destruct (after _ t) as [rest|]; [|done]. unfold parse_u64.
  assert (forall l, parse_digits 0 l = Some v -> is_u64 v) by (intros l; apply parse_digits_bound; done).
  repeat (case_match; try done); eauto.
Qed.

(** After a failed check the next one is due half an hour later, also when the ticks have not yet reached the check interval. *)
Lemma retry_due now t s : is_u64 now -> now <= t -> t - now + CHECK_INTERVAL_TICKS <= U64_MAX -> now <> CHECK_INTERVAL_TICKS - RETRY_TICKS ->
  LAST_CHECK (retry_sooner now s) <> 0 /\
  (CHECK_INTERVAL_TICKS <=? wrapping_sub t (LAST_CHECK (retry_sooner now s))) = (RETRY_TICKS <=? t - now).
Proof.
  intros Hn Ht Hb Hne. unfold retry_sooner, wrapping_sub, CHECK_INTERVAL_TICKS, RETRY_TICKS, is_u64, U64_MAX in *.
  change (2160000 - 180000) with 1980000 in *. change (2 ^ 64) with 18446744073709551616.
  assert (Hz : (now - 1980000) mod 18446744073709551616 <> 0) by (Z.to_euclidean_division_equations; lia).
  cbn [LAST_CHECK set_LAST_CHECK]. rewrite (proj2 (Z.eqb_neq _ _) Hz). split; [done|].
  rewrite Zminus_mod_idemp_r. replace (t - (now - 1980000)) with (t - now + 1980000) by lia. rewrite Z.mod_small by lia.
  apply eq_true_iff_eq. rewrite !Z.leb_le. lia.
Qed.

(** ** Sessions *)

(** What can happen between two boots: commands of the shell, the periodic hooks, and every answer of the network. *)
Inductive act :=
| ACheck (env : Env) (net : Server) (now : Z)
| AChannel (env : Env) (net : Server) (base channel : list Z)
| AMaybe (online opens : bool) (now : Z)
| AStep (env : Env) (ev : FetchStep) (opens : bool) (now : Z)
| APolicy (t : list Z)
| AApply (image_file sig_file : option (list Z))
| AFetch (net : Server) (url : list Z)
| ARollback.

(** [true] when the machine restarts. *)
Definition perform (a : act) : M bool :=
  match a with
  | ACheck env net now => auto_check env net now ;;! sret false
  | AChannel env net base channel => check_channel env net base channel ;;! sret false
  | AMaybe online opens now => maybe_check online opens now
  | AStep env ev opens now => step env ev opens now
  | APolicy t => smodify (set_policy t) ;;! sret false
  | AApply i sg => apply i sg ;;! sret false
  | AFetch net url => fetch_command net url ;;! sret false
  | ARollback => rollback_command ;;! sret false
  end.

Definition envs_of (a : act) : list Env :=
  match a with ACheck env _ _ | AChannel env _ _ _ | AStep env _ _ _ => [env] | _ => [] end.

Definition env_ok (env : Env) : Prop := 0 <= running_version env.

(** The images a user installs by hand carry a signature only. *)
Definition by_hand (a : act) : Prop := match a with AApply _ _ | AFetch _ _ => True | _ => False end.
(** A check that evaluates and stages in one go. *)
Definition direct (a : act) : Prop := match a with ACheck _ _ _ | AChannel _ _ _ _ => True | _ => False end.

(** A signed manifest of [channel], newer than the running version and not expired when it was read, names the
    version, the path of the image and its hash. *)
Definition vouched (env : Env) (channel : list Z) (v : Z) (path sha : list Z) : Prop :=
  exists man msig exp, let text := from_utf8_lossy man in
    signature_ok man msig = true /\ manifest_u64 text (str "version") = Some v /\ manifest_str text (str "image") = Some path /\
    manifest_str text (str "sha256") = Some sha /\ manifest_str text (str "channel") = Some channel /\
    manifest_u64 text (str "expires") = Some exp /\ running_version env < v /\ epoch env <= exp /\ path_ok path = true.

Lemma evaluate_newer env seen ch man msig v p h :
  evaluate_manifest env seen ch man msig = inr (Newer v p h) -> vouched env ch v p h /\ seen <= v.
Proof.
  unfold evaluate_manifest. destruct (signature_ok man msig) eqn:Es; [|done]. cbn [negb].
  destruct (manifest_u64 _ (str "version")) as [v'|] eqn:Ev; [|done].
  destruct (manifest_str _ (str "image")) as [i|] eqn:Ei; [|done]. destruct (manifest_str _ (str "sha256")) as [h'|] eqn:Eh; [|done].
  case_if; [done|]. case_if; [done|]. destruct (manifest_u64 _ (str "expires")) as [ex|] eqn:Ex; [|done].
  case_if; [done|]. destruct (match manifest_u64 _ (str "size") with Some _ => _ | None => _ end); [done|].
  case_if; [done|]. case_if; [done|]. intros [= <- <- <-]. split; [|done]. exists man, msig, ex. cbv zeta. by split_and!.
Qed.

Lemma vouched_version env ch v p h : env_ok env -> vouched env ch v p h -> is_u64 v /\ v <> 0.
Proof. intros He (man & msig & ex & _ & Ev & _ & _ & _ & _ & Hr & _). split; [by eapply manifest_u64_bound|]. unfold env_ok in He. lia. Qed.

(** What an action may do to the machine; [E] are the environments of the session so far. *)
Inductive change (E : list Env) (a : act) (s s' : Sys) : Prop :=
| ch_none : machine s' = machine s -> change E a s s'
| ch_channel env ch v p img sig :
    env ∈ E -> vouched env ch v p (hex (sha256 img)) -> signature_ok img sig = true -> (direct a -> seen_version s <= v) ->
    machine s' = snd (stage_verified_image (E := unit) slot_file_ok img sig (machine s)) -> change E a s s'
| ch_hand img sig :
    by_hand a -> signature_ok img sig = true ->
    machine s' = snd (stage_verified_image (E := unit) slot_file_ok img sig (machine s)) -> change E a s s'
| ch_rollback : a = ARollback -> machine s' = snd (kernel_rollback (E := unit) (machine s)) -> change E a s s'.

Definition job_ok (E : list Env) (j : Job) : Prop :=
  phase j = Image \/ phase j = ImageSig -> exists env, env ∈ E /\ vouched env (job_channel (rescue j)) (version j) (image j) (sha_hex j).

Record inv (E : list Env) (s : Sys) : Prop := mkInv {
  inv_job : forall j, JOB s = Some j -> job_ok E j;
  inv_reboot : REBOOT_AT s <> 0 -> STAGED_VERSION s <> 0;
}.

Definition good (E : list Env) (a : act) (s s' : Sys) : Prop := change E a s s' /\ seen_version s <= seen_version s' /\ inv E s'.

(** [Q] holds of the result and the state [m] ends with. *)
Definition wp {A} (m : M A) (Q : outcome unit A -> Sys -> Prop) (s : Sys) : Prop := Q (fst (m s)) (snd (m s)).

Lemma wp_bind {A B} (m : M A) (k : A -> M B) Q s :
  wp m (fun r s1 => match r with Ok a => wp (k a) Q s1 | Err e => Q (Err e) s1 | Panic => Q Panic s1 | OutOfFuel => Q OutOfFuel s1 end) s ->
  wp (sbind m k) Q s.
Proof. unfold wp, sbind. by destruct (m s) as [[a|e| |] s1]. Qed.

Lemma wp_mono {A} (m : M A) (Q R : outcome unit A -> Sys -> Prop) s : wp m Q s -> (forall r s', Q r s' -> R r s') -> wp m R s.
Proof. unfold wp. auto. Qed.

Lemma record_seen_spec v s : is_u64 v ->
  seen_version s <= seen_version (record_seen v s) /\ (etc_writable s = true -> v <= seen_version (record_seen v s)) /\
  machine (record_seen v s) = machine s /\ JOB (record_seen v s) = JOB s /\ REBOOT_AT (record_seen v s) = REBOOT_AT s /\
  STAGED_VERSION (record_seen v s) = STAGED_VERSION s.
Proof.
  intros Hv. unfold record_seen. case_if; [|by split_and!; [lia|lia|..]]. destruct (etc_writable s) eqn:Ew; [|by split_and!; [lia|..]].
  assert (seen_version (set_seen_file (Some (show_u64 v ++ [10])) s) = v) as ->; [|split_and!; done || lia].
  unfold seen_version. cbn [seen_file set_seen_file]. by rewrite seen_roundtrip.
Qed.

(** Without a valid signature staging changes nothing. *)
Lemma stage_unsigned img sig m : signature_ok img sig = false -> stage_verified_image (E := unit) slot_file_ok img sig m = (Ok false, m).
Proof. intros Hs. unfold stage_verified_image. by rewrite Hs. Qed.

Lemma set_machine_id s : set_machine (machine s) s = s.
Proof. by destruct s. Qed.

(** What [finish_image] does to the state [s1] it runs in. *)
Lemma finish_image_spec v sha img sig s1 : is_u64 v ->
  wp (finish_image v sha img sig) (fun r s2 =>
    (machine s2 = machine s1 \/
     sha = hex (sha256 img) /\ signature_ok img sig = true /\ machine s2 = snd (stage_verified_image (E := unit) slot_file_ok img sig (machine s1))) /\
    seen_version s1 <= seen_version s2 /\ (r = Ok true -> etc_writable s1 = true -> v <= seen_version s2) /\
    JOB s2 = JOB s1 /\ REBOOT_AT s2 = REBOOT_AT s1 /\ STAGED_VERSION s2 = STAGED_VERSION s1) s1.
Proof.
  intros Hv. unfold finish_image. destruct (decide (hex (sha256 img) = sha)) as [<-|Hn].
  2: { rewrite bool_decide_false by done. unfold wp, sret. cbn. split_and!; done || lia || by left. }
  rewrite bool_decide_true by done. cbn [negb]. apply wp_bind. unfold wp at 1, on_machine.
  destruct (stage_verified_image slot_file_ok img sig (machine s1)) as [r m'] eqn:Est.
  assert (Hm : m' = machine s1 \/ hex (sha256 img) = hex (sha256 img) /\ signature_ok img sig = true /\
                m' = snd (stage_verified_image (E := unit) slot_file_ok img sig (machine s1))).
  { destruct (signature_ok img sig) eqn:Es; [right; by rewrite Est|left]. rewrite stage_unsigned in Est by done. by injection Est. }
  rewrite Est in Hm. cbn [fst snd] in *.
  destruct r as [[]|e| |]; [|cbn; split_and!; done || lia || auto..].
  destruct (record_seen_spec v (set_LAST_STAGED v (set_machine m' s1)) Hv) as (H1 & H2 & H3 & H4 & H5 & H6).
  cbv beta iota delta [wp sbind smodify sret fst snd]. rewrite H3, H4, H5, H6. split_and!; auto.
Qed.

Section session.
Context (E : list Env) (HE : Forall env_ok E).

Lemma good_quiet a s s' : machine s' = machine s -> seen_file s' = seen_file s -> inv E s' -> good E a s s'.
Proof. intros Hm Hs Hi. split; [by apply ch_none|]. split; [|done]. unfold seen_version. rewrite Hs. lia. Qed.

(** Only the volatile fields that [inv] speaks of matter. *)
Lemma good_volatile a s s1 s2 : good E a s s1 -> machine s2 = machine s1 -> seen_file s2 = seen_file s1 -> inv E s2 -> good E a s s2.
Proof.
  intros (Hc & Hs & _) Em Es Hi. assert (Ev : seen_version s2 = seen_version s1) by (unfold seen_version; by rewrite Es).
  split; [|split; [by rewrite Ev|done]]. destruct Hc; [apply ch_none|eapply ch_channel|eapply ch_hand|eapply ch_rollback]; eauto; congruence.
Qed.

Definition same_session (s s' : Sys) : Prop :=
  JOB s' = JOB s /\ REBOOT_AT s' = REBOOT_AT s /\ STAGED_VERSION s' = STAGED_VERSION s.

Lemma inv_same s s' : inv E s -> same_session s s' -> inv E s'.
Proof. intros [Hj Hr] (E1 & E2 & E3). split; [rewrite E1; apply Hj|rewrite E2, E3; apply Hr]. Qed.

Lemma finish_good a env ch v p sha img sig s s1 :
  env ∈ E -> vouched env ch v p sha -> (direct a -> seen_version s <= v) ->
  machine s1 = machine s -> seen_file s1 = seen_file s -> inv E s1 ->
  wp (finish_image v sha img sig) (fun _ s2 => good E a s s2 /\ same_session s1 s2) s1.
Proof.
  intros He Hv Hd Em Es Hi. pose proof (proj1 (Forall_forall _ _) HE _ He) as Hok.
  destruct (vouched_version _ _ _ _ _ Hok Hv) as [Hu _].
  eapply wp_mono; [apply (finish_image_spec v sha img sig s1 Hu)|]. cbn. intros r s2 (Hc & Hs & _ & E1 & E2 & E3).
  assert (Hss : same_session s1 s2) by done. split; [|done].
  assert (Ev : seen_version s1 = seen_version s) by (unfold seen_version; by rewrite Es). rewrite Ev in Hs.
  split; [|split; [done|by eapply inv_same]]. destruct Hc as [Hc|(-> & Hsig & Hc)]; [apply ch_none; congruence|].
  eapply ch_channel; eauto. by rewrite Hc, Em.
Qed.

Lemma check_channel_good a env net base ch s : direct a -> env ∈ E -> inv E s ->
  wp (check_channel env net base ch) (fun _ s' => good E a s s' /\ same_session s s') s.
Proof.
  intros Ha He Hi. assert (Hq : good E a s s /\ same_session s s) by (split; [by apply good_quiet|done]).
  unfold check_channel. destruct (body_200 (net 0 _ _)) as [man|]; [|done]. destruct (body_200 (net 1 _ _)) as [msig|]; [|done].
  apply wp_bind. cbn. destruct (evaluate_manifest env (seen_version s) ch man msig) as [|[|v p h]] eqn:Ev; [done..|].
  apply evaluate_newer in Ev as [Hv Hs].
  destruct (body_200 (net 2 _ _)) as [img|]; [|done]. destruct (body_200 (net 3 _ _)) as [isig|]; [|done].
  by eapply finish_good.
Qed.

Lemma arm_reboot_wp now (Q : outcome unit unit -> Sys -> Prop) s :
  (forall y, Q (Ok tt) (set_REBOOT_AT y s)) -> Q Panic s -> wp (arm_reboot now) Q s.
Proof. intros H1 H2. unfold arm_reboot. apply wp_bind. unfold wp at 1, slift, add64. case_if; [apply H1|exact H2]. Qed.

Lemma auto_check_good env net now s : env ∈ E -> inv E s ->
  wp (auto_check env net now) (fun _ s' => good E (ACheck env net now) s s') s.
Proof.
  intros He Hi. unfold auto_check. apply wp_bind. change (wp (sget policy) ?Q s) with (Q (Ok (policy s)) s). cbv beta iota.
  apply wp_bind. eapply wp_mono; [by apply (check_channel_good (ACheck env net now))|]. cbv beta.
  intros r s1 (Hg & Hj & Hr & Hst). destruct r as [b|e| |]; [|done..].
  apply wp_bind. change (wp (sget LAST_STAGED) ?Q s1) with (Q (Ok (LAST_STAGED s1)) s1). cbv beta iota.
  set (s2 := set_LAST_STAGED 0 s1).
  assert (Hg2 : good E (ACheck env net now) s s2).
  { eapply good_volatile; [exact Hg|done|done|]. apply (inv_same s); [done|]. done. }
  apply wp_bind. change (wp (smodify (set_LAST_STAGED 0)) ?Q s1) with (Q (Ok tt) s2). cbv beta iota.
  case_if; [|done]. apply wp_bind. set (s3 := set_STAGED_VERSION (LAST_STAGED s1) s2).
  change (wp (smodify (set_STAGED_VERSION (LAST_STAGED s1))) ?Q s2) with (Q (Ok tt) s3). cbv beta iota.
  assert (Hi3 : forall x, inv E (set_REBOOT_AT x s3)).
  { intros x. split; [intros j Ej; apply (inv_job _ _ Hi); cbn in Ej; congruence|done]. }
  assert (Hg3 : forall x, good E (ACheck env net now) s (set_REBOOT_AT x s3)).
  { intros x. eapply good_volatile; [exact Hg2|done..|apply Hi3]. }
  assert (Hg3' : good E (ACheck env net now) s s3).
  { eapply good_volatile; [exact Hg2|done..|]. destruct (Hi3 (REBOOT_AT s3)) as [? ?]. by split. }
  case_if; [|exact Hg3']. by apply arm_reboot_wp.
Qed.

(** A restart needs the policy and a staged update. *)
Lemma fire_reboot_spec now s : inv E s ->
  wp (fire_reboot now) (fun r s' => (r = Ok true /\ s' = s /\ policy s = Auto /\ STAGED_VERSION s <> 0) \/
    (r = Ok false /\ (s' = s \/ s' = set_REBOOT_AT 0 s))) s.
Proof.
  intros [_ Hr]. unfold fire_reboot, wp, sbind, sget, sret, smodify. destruct (negb (REBOOT_AT s =? 0) && (REBOOT_AT s <=? now)) eqn:Ea; [|by right; split; [|left]].
  simplify_bool. destruct (policy s) eqn:Ep; cbn; [left; split_and!; try done; by apply Hr|right; by split; [|right]..].
Qed.

Lemma fired_inv s s' : inv E s -> s' = s \/ s' = set_REBOOT_AT 0 s ->
  inv E s' /\ machine s' = machine s /\ seen_file s' = seen_file s /\ policy s' = policy s /\ STAGED_VERSION s' = STAGED_VERSION s.
Proof. intros [Hj Hr] [-> | ->]; split_and!; try done; by split. Qed.

(** The result of a hook: [true] only for a restart the user's policy asks for. *)
Definition hook_post (a : act) (s : Sys) (r : outcome unit bool) (s' : Sys) : Prop :=
  good E a s s' /\ (r = Ok true -> policy s = Auto /\ STAGED_VERSION s <> 0).

Lemma hook_start a now (k : M bool) s : inv E s ->
  (forall s1, inv E s1 -> machine s1 = machine s -> seen_file s1 = seen_file s ->
     wp k (fun r s' => good E a s s' /\ r <> Ok true) s1) ->
  wp (let! restart := fire_reboot now in if restart : bool then sret true else k) (hook_post a s) s.
Proof.
  intros Hi Hk. apply wp_bind. eapply wp_mono; [by apply fire_reboot_spec|]. cbv beta.
  intros r s1 [(-> & -> & Hp & Hst)|(-> & Hs1)].
  - split; [by apply good_quiet|]. done.
  - destruct (fired_inv s s1 Hi Hs1) as (Hi1 & Em & Es & _). eapply wp_mono; [by apply Hk|]. by intros r s' [Hg Hn].
Qed.

(** A job that keeps the invariant may be stored. *)
Lemma set_JOB_inv s j : inv E s -> (forall x, j = Some x -> job_ok E x) -> inv E (set_JOB j s).
Proof. intros [_ Hr] Hj. by split. Qed.

Lemma retry_sooner_inv now s : inv E s -> inv E (retry_sooner now s).
Proof. intros [Hj Hr]. by split. Qed.

Lemma esp_first_pure m : exists r, esp_first (E := unit) m = (r, m).
Proof. unfold esp_first. repeat case_match; eauto. Qed.

Lemma job_done_good a now failed s s1 : machine s1 = machine s -> seen_file s1 = seen_file s -> inv E s1 ->
  wp (job_done now failed) (fun _ s' => good E a s s') s1.
Proof.
  intros Em Es Hi. destruct failed; unfold wp; cbn; apply good_quiet; try done. by apply retry_sooner_inv.
Qed.

Lemma set_JOB_good a j s s1 : machine s1 = machine s -> seen_file s1 = seen_file s -> inv E s1 -> (forall x, j = Some x -> job_ok E x) ->
  wp (smodify (set_JOB j)) (fun _ s' => good E a s s') s1.
Proof. intros Em Es Hi Hj. unfold wp. cbn. apply good_quiet; try done. by apply set_JOB_inv. Qed.

Lemma maybe_check_good online opens now s : inv E s -> wp (maybe_check online opens now) (hook_post (AMaybe online opens now) s) s.
Proof.
  intros Hi. unfold maybe_check. apply hook_start; [done|]. intros s1 Hi1 Em Es.
  assert (Hq : forall s2, machine s2 = machine s1 -> seen_file s2 = seen_file s1 -> inv E s2 -> good E (AMaybe online opens now) s s2)
    by (intros; apply good_quiet; congruence).
  apply wp_bind. change (wp (sget LAST_CHECK) ?Q s1) with (Q (Ok (LAST_CHECK s1)) s1). cbv beta iota.
  apply wp_bind. change (wp (sget STAGED_VERSION) ?Q s1) with (Q (Ok (STAGED_VERSION s1)) s1). cbv beta iota zeta.
  case_if; [by split; [apply Hq|]|]. apply wp_bind. unfold wp at 1, on_machine. destruct (esp_first_pure (machine s1)) as [r ->].
  cbn [fst snd]. rewrite set_machine_id. destruct r as [[x|]|e| |]; try (by split; [apply Hq|]).
  case_if; [by split; [apply Hq|]|]. apply wp_bind. set (s2 := set_LAST_CHECK (Z.max now 1) s1).
  change (wp (smodify (set_LAST_CHECK (Z.max now 1))) ?Q s1) with (Q (Ok tt) s2). cbv beta iota.
  assert (Hi2 : inv E s2) by (destruct Hi1; by split).
  apply wp_bind. change (wp (sget policy) ?Q s2) with (Q (Ok (policy s2)) s2). cbv beta iota.
  unfold start_job, fetch_for. destruct opens; unfold wp; cbn; (split; [|done]); apply Hq; try done.
  - apply set_JOB_inv; [done|]. intros j [= <-] [Hp|Hp]; done.
  - by apply retry_sooner_inv.
Qed.

Lemma retry_phase_good a opens now j s s1 : machine s1 = machine s -> seen_file s1 = seen_file s -> inv E s1 -> job_ok E j ->
  wp (let! again := retry_phase opens j in if again : bool then sret tt else job_done now true) (fun _ s' => good E a s s') s1.
Proof.
  intros Em Es Hi Hj. apply wp_bind. unfold retry_phase.
  assert (Hd : wp (job_done now true) (fun _ s' => good E a s s') s1) by by apply job_done_good.
  case_if; [done|]. destruct (job_path j) as [path max]. unfold fetch_for. destruct opens; [|done].
  unfold wp. cbn. apply good_quiet; try done. apply set_JOB_inv; [done|]. intros x [= <-]. exact Hj.
Qed.

Lemma phase_done_good env ev opens now j body s s1 : env ∈ E -> machine s1 = machine s -> seen_file s1 = seen_file s -> inv E s1 -> job_ok E j ->
  wp (phase_done env opens now j body) (fun _ s' => good E (AStep env ev opens now) s s') s1.
Proof.
  intros He Em Es Hi Hj. set (a := AStep env ev opens now).
  assert (Hd : forall b, wp (job_done now b) (fun _ s' => good E a s s') s1) by (intros b; by apply job_done_good).
  assert (Hs : forall x, job_ok E x -> wp (smodify (set_JOB (Some x))) (fun _ s' => good E a s s') s1)
    by (intros x Hx; apply set_JOB_good; try done; by intros ? [= <-]).
  unfold phase_done, fetch_for. destruct (phase j) eqn:Ep.
  - destruct opens; [|apply Hd]. apply Hs. by intros [Hp|Hp].
  - apply wp_bind. change (wp (sget seen_version) ?Q s1) with (Q (Ok (seen_version s1)) s1). cbv beta iota.
    destruct (evaluate_manifest _ _ _ _ _) as [why|[|v p h]] eqn:Ev; [|apply Hd|].
    + destruct why; try apply Hd. destruct (rescue j); [apply Hd|]. destruct opens; [|apply Hd]. apply Hs. by intros [Hp|Hp].
    + destruct (look_only j); [apply Hd|]. destruct opens; [|apply Hd]. apply Hs. intros _. apply evaluate_newer in Ev as [Hv _]. eauto.
  - destruct opens; [|apply Hd]. apply Hs. intros _. apply Hj. by left.
  - destruct (Hj (or_intror Ep)) as (env' & He' & Hv). apply wp_bind.
    eapply wp_mono; [by eapply (finish_good a)|]. cbv beta. intros r s2 [Hg (E1 & E2 & E3)].
    destruct r as [b|e| |]; try done.
    assert (Hi2 : forall x, x <> 0 -> forall y, inv E (set_REBOOT_AT y (set_STAGED_VERSION x (set_LAST_STAGED 0 s2)))).
    { intros x Hx y. split; [intros jj; cbn; rewrite E1; apply (inv_job _ _ Hi)|done]. }
    assert (Hvn : version j <> 0) by (eapply vouched_version; [by apply (proj1 (Forall_forall _ _) HE)|done]).
    assert (Hg2 : forall y, good E a s (set_REBOOT_AT y (set_STAGED_VERSION (version j) (set_LAST_STAGED 0 s2))))
      by (intros y; eapply good_volatile; [exact Hg|done..|by apply Hi2]).
    assert (Hg3 : good E a s (set_STAGED_VERSION (version j) (set_LAST_STAGED 0 s2)))
      by (eapply good_volatile; [exact Hg|done..|]; destruct (Hi2 (version j) Hvn (REBOOT_AT s2)); by split).
    apply wp_bind. unfold wp at 1. cbn [smodify fst snd]. destruct b.
    + apply wp_bind. unfold wp at 1. cbn [smodify fst snd]. apply wp_bind. unfold wp at 1. cbn [sget fst snd]. apply wp_bind.
      case_if; [|exact Hg3]. apply arm_reboot_wp; [|exact Hg3]. intros y. apply Hg2.
    + unfold wp. cbn. eapply good_volatile; [exact Hg|done..|]. apply retry_sooner_inv. destruct Hg as (_ & _ & []). by split.
Qed.

Lemma job_step_good env ev opens now s : env ∈ E -> inv E s -> wp (step env ev opens now) (hook_post (AStep env ev opens now) s) s.
Proof.
  intros He Hi. unfold step. apply hook_start; [done|]. intros s1 Hi1 Em Es.
  apply wp_bind. change (wp (sget JOB) ?Q s1) with (Q (Ok (JOB s1)) s1). cbv beta iota.
  destruct (JOB s1) as [j|] eqn:Ej; [|by split; [by apply good_quiet|]]. pose proof (inv_job _ _ Hi1 j Ej) as Hj.
  apply wp_bind. set (s2 := set_JOB None s1). change (wp (smodify (set_JOB None)) ?Q s1) with (Q (Ok tt) s2). cbv beta iota.
  assert (Hi2 : inv E s2) by by apply set_JOB_inv.
  apply wp_bind. eapply (wp_mono _ (fun _ s' => good E (AStep env ev opens now) s s')).
  2: { intros r s3 Hg. destruct r; split; done. }
  case_if; [by apply job_done_good|]. destruct ev as [| |code body].
  - apply set_JOB_good; try done. by intros x [= <-].
  - by apply retry_phase_good.
  - case_if; [by apply retry_phase_good|by apply phase_done_good].
Qed.

Lemma by_hand_good a img sig s : by_hand a -> inv E s ->
  wp (on_machine (stage_verified_image slot_file_ok img sig)) (fun _ s' => good E a s s') s.
Proof.
  intros Ha Hi. unfold wp, on_machine. destruct (stage_verified_image slot_file_ok img sig (machine s)) as [r m'] eqn:Est. cbn [fst snd].
  split; [|split; [done|by apply (inv_same s)]]. destruct (signature_ok img sig) eqn:Es.
  - eapply ch_hand; [done|exact Es|]. by rewrite Est.
  - rewrite stage_unsigned in Est by done. injection Est as <- <-. by apply ch_none.
Qed.

(** Commands never restart the machine. *)
Lemma command_post {A} a (m : M A) s : wp m (fun _ s' => good E a s s') s -> wp (m ;;! sret false) (hook_post a s) s.
Proof. intros Hm. apply wp_bind. eapply wp_mono; [exact Hm|]. cbv beta. intros [x|e| |] s' Hg; split; done. Qed.

Lemma perform_good a s : inv E s -> envs_of a ⊆ E -> wp (perform a) (hook_post a s) s.
Proof.
  intros Hi Hsub. assert (He : forall env, env ∈ envs_of a -> env ∈ E) by (intros env Henv; by apply Hsub).
  assert (Hq : good E a s s) by by apply good_quiet.
  destruct a as [env net now|env net base ch|online opens now|env ev opens now|t|i sg|net url|]; cbn [perform envs_of] in *.
  - apply command_post, auto_check_good; [apply He; by left|done].
  - apply command_post. eapply wp_mono; [by apply (check_channel_good (AChannel env net base ch)); [|apply He; left|]|]. by intros r s' [Hg _].
  - by apply maybe_check_good.
  - apply job_step_good; [apply He; by left|done].
  - apply command_post. unfold wp. cbn. apply good_quiet; unfold set_policy; repeat case_match; try done; destruct Hi; by split.
  - apply command_post. unfold apply. destruct i as [i|]; [|done]. destruct sg as [sg|]; [|done]. by apply by_hand_good.
  - apply command_post. unfold fetch_command. destruct (parse_url url) as [[[[h p] pa] t]|]; [|done].
    destruct (body_200 (net 0 _ _)) as [i|]; [|done]. destruct (body_200 (net 1 _ _)) as [sg|]; [|done]. by apply by_hand_good.
  - apply command_post. unfold rollback_command. apply wp_bind. unfold wp at 1, on_machine.
    destruct (kernel_rollback (machine s)) as [r m'] eqn:Er. cbn [fst snd].
    assert (Hc : forall y, good E ARollback s (set_REBOOT_AT (if y : bool then 0 else REBOOT_AT s) (set_machine m' s))).
    { intros y. split; [apply ch_rollback; [done|by rewrite Er]|]. split; [done|]. destruct Hi as [Hj Hr]. split; [exact Hj|]. by destruct y. }
    destruct r as [b|e| |]; [apply (Hc true)|..]; specialize (Hc false); by destruct s.
Qed.
End session.

Lemma inv_mono E E' s : E ⊆ E' -> inv E s -> inv E' s.
Proof. intros Hs [Hj Hr]. split; [|done]. intros j Ej Hp. destruct (Hj j Ej Hp) as (env & He & Hv). exists env. split; [by apply Hs|done]. Qed.

Definition envs (acts : list act) : list Env := concat (map envs_of acts).

(** The states a machine goes through after a boot. *)
Inductive session (s0 : Sys) : list act -> Sys -> Prop :=
| session_start : session s0 [] s0
| session_next acts a s b s' : session s0 acts s -> perform a s = (Ok b, s') -> session s0 (acts ++ [a]) s'.

Lemma envs_snoc acts a : envs (acts ++ [a]) = envs acts ++ envs_of a.
Proof. unfold envs. rewrite map_app, concat_app. cbn. by rewrite app_nil_r. Qed.

Lemma session_inv s0 acts s : JOB s0 = None -> REBOOT_AT s0 = 0 -> session s0 acts s -> Forall env_ok (envs acts) -> inv (envs acts) s.
Proof.
  intros Hj Hr. induction 1 as [|acts a s b s' Hs IH Ha]; intros HE.
  - split; [intros j; congruence|done].
  - pose proof HE as HE'. rewrite envs_snoc, Forall_app in HE'. specialize (IH (proj1 HE')).
    assert (Hsub : envs acts ⊆ envs (acts ++ [a])) by (rewrite envs_snoc; set_solver).
    pose proof (perform_good (envs (acts ++ [a])) HE a s (inv_mono _ _ _ Hsub IH) ltac:(rewrite envs_snoc; set_solver)) as Hg.
    unfold wp in Hg. rewrite Ha in Hg. by destruct Hg as [(_ & _ & Hi) _].
Qed.

(** C9 Update delivery over a hostile network.  After a boot, let shell commands, the periodic hooks and the slices of
    a background transfer come in any order, with any answers of the network, and consider the next action.  It
    changes the slots only by staging an image that is signed and, unless the user installs it by hand, whose hash is
    named by a signed manifest of its channel that an action of this session read when it was newer than the running
    version and not expired; or by a rollback the user asks for.  The anti-rollback watermark never goes down; a
    check that stages in one go stages no version below the watermark and leaves it at that version; and the machine
    restarts by itself only under the automatic policy and with an update staged. *)
Theorem update_delivery_authentic acts a s0 s r s' :
  JOB s0 = None -> REBOOT_AT s0 = 0 -> Forall env_ok (envs (acts ++ [a])) -> session s0 acts s -> perform a s = (r, s') ->
  change (envs (acts ++ [a])) a s s' /\ seen_version s <= seen_version s' /\
  (r = Ok true -> policy s = Auto /\ STAGED_VERSION s <> 0) /\
  (forall env net base ch s2, env_ok env -> check_channel env net base ch s = (Ok true, s2) ->
     exists v p h, vouched env ch v p h /\ seen_version s <= v /\ (etc_writable s = true -> v <= seen_version s2)).
Proof.
  intros Hj Hr HE Hs Ha. pose proof HE as HE'. rewrite envs_snoc, Forall_app in HE'.
  pose proof (session_inv s0 acts s Hj Hr Hs (proj1 HE')) as Hi.
  assert (Hsub : envs acts ⊆ envs (acts ++ [a])) by (rewrite envs_snoc; set_solver).
  pose proof (perform_good (envs (acts ++ [a])) HE a s (inv_mono _ _ _ Hsub Hi) ltac:(rewrite envs_snoc; set_solver)) as Hg.
  unfold wp in Hg. rewrite Ha in Hg. destruct Hg as [(Hc & Hw & _) Hp]. split_and!; try done.
  intros env net base ch s2 He E. unfold check_channel in E.
  destruct (body_200 (net 0 _ _)) as [mn|]; [|done]. destruct (body_200 (net 1 _ _)) as [ms|]; [|done].
  unfold sbind in E at 1. cbn [sget] in E.
  destruct (evaluate_manifest env (seen_version s) ch mn ms) as [|[|v p h]] eqn:Ev; [done..|].
  apply evaluate_newer in Ev as [Hv Hle].
  destruct (body_200 (net 2 _ _)) as [im|]; [|done]. destruct (body_200 (net 3 _ _)) as [isg|]; [|done].
  exists v, p, h. split; [done|]. split; [done|]. intros Hw'.
  pose proof (finish_image_spec v h im isg s (proj1 (vouched_version _ _ _ _ _ He Hv))) as Hf.
  unfold wp in Hf. rewrite E in Hf. destruct Hf as (_ & _ & Hf & _). by apply Hf.
Qed.
End channel.

(** ** A small server *)

#[local] Existing Instance Slots.Demo.crypto_ops.

(** A manifest of the stable channel for an image, expiring at time 100. *)
Definition demo_manifest (v : Z) (image : list Z) : list Z :=
  let quoted (t : list Z) := [QUOTE] ++ t ++ [QUOTE] in
  let text (key : list Z) t := quoted key ++ [58] ++ quoted t ++ [44] in
  let number (key : list Z) n := quoted key ++ [58] ++ show_u64 n ++ [44] in
  number (str "version") v ++ text (str "image") (str "/update/kernel") ++ text (str "sha256") (hex (sha256 image)) ++
  text (str "channel") (str "stable") ++ number (str "expires") 100.

Definition demo_sig : list Z := zrepeat 7 64.

Definition demo_server (v : Z) (image : list Z) : Server := fun n _ _ =>
  Some (200, if n =? 0 then demo_manifest v image else if n =? 2 then image else demo_sig).

Definition demo_env : Env := mkEnv 1 50.

Definition demo_sys : Sys := mkSys Boot.demo None None true 0 0 0 0 None.

Definition after_check : Sys := snd (perform true (ACheck demo_env (demo_server 5 [4; 5; 6]) 100) demo_sys).

(** A check stages version 5 and raises the watermark; an old manifest served afterwards is refused. *)
Lemma update_delivery_authentic_witness :
  seen_version demo_sys <= seen_version after_check /\ seen_version after_check = 5 /\ STAGED_VERSION after_check = 5 /\
  machine (snd (perform true (ACheck demo_env (demo_server 4 [4; 4; 4]) 200) after_check)) = machine after_check.
Proof.
  split; [|split; [by vm_compute|split; [by vm_compute|by vm_compute]]].
  eapply (update_delivery_authentic true [] (ACheck demo_env (demo_server 5 [4; 5; 6]) 100) demo_sys demo_sys);
    [done|done|by repeat constructor|constructor|apply surjective_pairing].
Defined.

(** ** Where the watermark is not enough *)

(** A job reads the watermark when it has the manifest and stages when it has the image.  A newer version that the
    user installs in between is overwritten by the older one. *)
Definition overtaken : Sys :=
  let go a s := snd (perform true a s) in
  let slice ev := AStep demo_env ev true 9001 in
  let s := go (AMaybe true true 9000) demo_sys in
  let s := go (slice (Done 200 (demo_manifest 5 [5; 5; 5]))) s in
  let s := go (slice (Done 200 demo_sig)) s in
  let s := go (ACheck demo_env (demo_server 6 [6; 6]) 9002) s in
  let s := go (slice (Done 200 [5; 5; 5])) s in
  go (slice (Done 200 demo_sig)) s.

Lemma job_stages_below_watermark : seen_version overtaken = 6 /\ STAGED_VERSION overtaken = 5.
Proof. by vm_compute. Qed.
End Channel.
