(* ===== verification/Bpf.v ===== *)
(** System call filters ([src/crates/eurosandbox/src/bpf.rs]): the classic-BPF
    programs of [seccomp], their load-time validation, their interpreter, and
    the combination of several filters. *)

From stdpp Require Import relations.
From S2P Require Import Prelude Bytes.

Module Bpf.

Record Insn := mkInsn {
  code : Z;
  jt : Z;
  jf : Z;
  k : Z;
}.

Definition insn_from_bytes (b : list Z) : option Insn :=
  if zlen b <? 8 then None
  else Some (mkInsn (rd_u16 b 0) (at_ 0 b 2) (at_ 0 b 3) (rd_u32 b 4)).

Record SeccompData := mkData {
  nr : Z;
  arch : Z;
  instruction_pointer : Z;
  args : list Z;
}.

(** [v as u32] *)
Definition u32 (v : Z) : Z := v mod 2 ^ 32.

Definition half (v : Z) (high : bool) : Z := if high then u32 (Z.shiftr v 32) else u32 v.

Definition word (d : SeccompData) (off : Z) : option Z :=
  if negb (off mod 4 =? 0) || (64 <=? off) then None
  else Some (if off =? 0 then u32 (nr d)
             else if off =? 4 then arch d
             else if off =? 8 then half (instruction_pointer d) false
             else if off =? 12 then half (instruction_pointer d) true
             else half (at_ 0 (args d) ((off - 16) / 8)) ((off - 16) mod 8 =? 4)).

Definition RET_KILL_PROCESS : Z := 2147483648. (* 0x8000_0000 *)
Definition RET_KILL_THREAD : Z := 0.
Definition RET_TRAP : Z := 196608. (* 0x0003_0000 *)
Definition RET_ERRNO : Z := 327680. (* 0x0005_0000 *)
Definition RET_USER_NOTIF : Z := 2143289344. (* 0x7fc0_0000 *)
Definition RET_TRACE : Z := 2146435072. (* 0x7ff0_0000 *)
Definition RET_LOG : Z := 2147221504. (* 0x7ffc_0000 *)
Definition RET_ALLOW : Z := 2147418112. (* 0x7fff_0000 *)
Definition RET_ACTION_FULL : Z := 4294901760. (* 0xffff_0000 *)
Definition RET_DATA : Z := 65535.
Definition MAX_INSNS : Z := 4096.

Inductive LoadError :=
| Empty | TooLong | BadInstruction (i : Z) | JumpOutOfRange (i : Z) | LoadOutOfRange (i : Z) | NoReturnAtEnd.

(** Instruction classes, modes, operators. *)
Definition BPF_LD : Z := 0.
Definition BPF_LDX : Z := 1.
Definition BPF_ST : Z := 2.
Definition BPF_STX : Z := 3.
Definition BPF_ALU : Z := 4.
Definition BPF_JMP : Z := 5.
Definition BPF_RET : Z := 6.
Definition BPF_MISC : Z := 7.
Definition BPF_IMM : Z := 0.
Definition BPF_ABS : Z := 32.
Definition BPF_IND : Z := 64.
Definition BPF_MEM : Z := 96.
Definition BPF_LEN : Z := 128.
Definition BPF_X : Z := 8.
Definition BPF_A : Z := 16.
Definition BPF_ADD : Z := 0.
Definition BPF_SUB : Z := 16.
Definition BPF_MUL : Z := 32.
Definition BPF_DIV : Z := 48.
Definition BPF_OR : Z := 64.
Definition BPF_AND : Z := 80.
Definition BPF_LSH : Z := 96.
Definition BPF_RSH : Z := 112.
Definition BPF_NEG : Z := 128.
Definition BPF_MOD : Z := 144.
Definition BPF_XOR : Z := 160.
Definition BPF_JA : Z := 0.
Definition BPF_JEQ : Z := 16.
Definition BPF_JGT : Z := 32.
Definition BPF_JGE : Z := 48.
Definition BPF_JSET : Z := 64.
Definition BPF_TAX : Z := 0.
Definition BPF_TXA : Z := 128.

Definition class (i : Insn) : Z := Z.land (code i) 7.
Definition mode (i : Insn) : Z := Z.land (code i) 224.
Definition size (i : Insn) : Z := Z.land (code i) 24.
Definition op (i : Insn) : Z := Z.land (code i) 240.
Definition uses_x (i : Insn) : bool := negb (Z.land (code i) BPF_X =? 0).

Definition is_alu (o : Z) : bool :=
  existsb (Z.eqb o) [BPF_ADD; BPF_SUB; BPF_MUL; BPF_DIV; BPF_OR; BPF_AND; BPF_LSH; BPF_RSH; BPF_NEG; BPF_MOD; BPF_XOR].

(** ** Validation *)

(** One round of the loop of [Filter::load]: instruction [i] of [n]. *)
Definition check_insn (n i : Z) (ins : Insn) : option LoadError :=
  let c := class ins in
  if (c =? BPF_LD) || (c =? BPF_LDX) then
    let m := mode ins in
    if (m =? BPF_IMM) || (m =? BPF_LEN) then None
    else if m =? BPF_ABS then
      if negb (size ins =? 0) || negb (k ins mod 4 =? 0) || (64 <=? k ins) then Some (LoadOutOfRange i) else None
    else if m =? BPF_MEM then if 16 <=? k ins then Some (LoadOutOfRange i) else None
    else Some (BadInstruction i)
  else if (c =? BPF_ST) || (c =? BPF_STX) then
    if 16 <=? k ins then Some (LoadOutOfRange i) else None
  else if c =? BPF_ALU then
    if negb (is_alu (op ins)) then Some (BadInstruction i)
    else if ((op ins =? BPF_DIV) || (op ins =? BPF_MOD)) && negb (uses_x ins) && (k ins =? 0) then Some (BadInstruction i)
    else None
  else if c =? BPF_JMP then
    let o := op ins in
    if o =? BPF_JA then
      if (n - i - 1 + 1 <=? k ins) && (n <=? i + 1 + k ins) then Some (JumpOutOfRange i) else None
    else if (o =? BPF_JEQ) || (o =? BPF_JGT) || (o =? BPF_JGE) || (o =? BPF_JSET) then
      if (n <=? i + 1 + jt ins) || (n <=? i + 1 + jf ins) then Some (JumpOutOfRange i) else None
    else Some (BadInstruction i)
  else if c =? BPF_RET then
    if (size ins =? 0) || (size ins =? BPF_A) then None else Some (BadInstruction i)
  else if (Z.land (code ins) 248 =? BPF_TAX) || (Z.land (code ins) 248 =? BPF_TXA) then None
  else Some (BadInstruction i).

Fixpoint check_all (n i : Z) (l : list Insn) : option LoadError :=
  match l with
  | [] => None
  | ins :: l' => match check_insn n i ins with Some e => Some e | None => check_all n (i + 1) l' end
  end.

Definition no_insn : Insn := mkInsn 0 0 0 0.

Definition load (insns : list Insn) : outcome LoadError (list Insn) :=
  let n := zlen insns in
  if n =? 0 then Err Empty
  else if MAX_INSNS <? n then Err TooLong
  else match check_all n 0 insns with
       | Some e => Err e
       | None =>
           let last := at_ no_insn insns (n - 1) in
           if negb (class last =? BPF_RET) && negb (class last =? BPF_JMP) then Err NoReturnAtEnd
           else if class last =? BPF_JMP then Err NoReturnAtEnd
           else Ok insns
       end.

(** [bytes.chunks_exact(8)] *)
Fixpoint chunks (n : nat) (b : list Z) : list (list Z) :=
  match n with
  | O => []
  | S n' => take 8 b :: chunks n' (drop 8 b)
  end.

Definition filter_from_bytes (b : list Z) : outcome LoadError (list Insn) :=
  load (omap insn_from_bytes (chunks (length b / 8) b)).

(** ** The interpreter *)

Record machine := mkMachine {
  a : Z;
  x : Z;
  mem : list Z;
  pc : Z;
}.

Definition start : machine := mkMachine 0 0 (zrepeat 0 16) 0.

Inductive result := Next (m : machine) | Return (v : Z).

Definition alu (o av src : Z) : option Z :=
  if o =? BPF_ADD then Some (u32 (av + src))
  else if o =? BPF_SUB then Some (u32 (av - src))
  else if o =? BPF_MUL then Some (u32 (av * src))
  else if o =? BPF_DIV then if src =? 0 then None else Some (av / src)
  else if o =? BPF_MOD then if src =? 0 then None else Some (av mod src)
  else if o =? BPF_OR then Some (Z.lor av src)
  else if o =? BPF_AND then Some (Z.land av src)
  else if o =? BPF_XOR then Some (Z.lxor av src)
  else if o =? BPF_LSH then Some (if src <? 32 then u32 (Z.shiftl av src) else 0)
  else if o =? BPF_RSH then Some (if src <? 32 then Z.shiftr av src else 0)
  else if o =? BPF_NEG then Some (u32 (- av))
  else None.

Definition load_a (d : SeccompData) (ins : Insn) (m : machine) : option Z :=
  let md := mode ins in
  if md =? BPF_IMM then Some (k ins)
  else if md =? BPF_ABS then word d (k ins)
  else if md =? BPF_MEM then Some (at_ 0 (mem m) (Z.land (k ins) 15))
  else if md =? BPF_LEN then Some 64
  else None.

Definition load_x (ins : Insn) (m : machine) : option Z :=
  let md := mode ins in
  if md =? BPF_IMM then Some (k ins)
  else if md =? BPF_MEM then Some (at_ 0 (mem m) (Z.land (k ins) 15))
  else if md =? BPF_LEN then Some 64
  else None.

Definition taken (o av src : Z) : option bool :=
  if o =? BPF_JEQ then Some (av =? src)
  else if o =? BPF_JGT then Some (src <? av)
  else if o =? BPF_JGE then Some (src <=? av)
  else if o =? BPF_JSET then Some (negb (Z.land av src =? 0))
  else None.

(** One round of the loop of [run]. *)
Definition step (d : SeccompData) (ins : Insn) (m : machine) : result :=
  let pc' := pc m + 1 in
  let c := class ins in
  let src := if uses_x ins then x m else k ins in
  if c =? BPF_LD then
    match load_a d ins m with Some v => Next (mkMachine v (x m) (mem m) pc') | None => Return RET_KILL_PROCESS end
  else if c =? BPF_LDX then
    match load_x ins m with Some v => Next (mkMachine (a m) v (mem m) pc') | None => Return RET_KILL_PROCESS end
  else if c =? BPF_ST then Next (mkMachine (a m) (x m) (upd (mem m) (Z.land (k ins) 15) (a m)) pc')
  else if c =? BPF_STX then Next (mkMachine (a m) (x m) (upd (mem m) (Z.land (k ins) 15) (x m)) pc')
  else if c =? BPF_ALU then
    match alu (op ins) (a m) src with Some v => Next (mkMachine v (x m) (mem m) pc') | None => Return RET_KILL_PROCESS end
  else if c =? BPF_JMP then
    if op ins =? BPF_JA then Next (mkMachine (a m) (x m) (mem m) (pc' + k ins))
    else match taken (op ins) (a m) src with
         | Some b => Next (mkMachine (a m) (x m) (mem m) (pc' + if b then jt ins else jf ins))
         | None => Return RET_KILL_PROCESS
         end
  else if c =? BPF_RET then Return (if size ins =? BPF_A then a m else k ins)
  else if Z.land (code ins) 248 =? BPF_TAX then Next (mkMachine (a m) (a m) (mem m) pc')
  else if Z.land (code ins) 248 =? BPF_TXA then Next (mkMachine (x m) (x m) (mem m) pc')
  else Return RET_KILL_PROCESS.

Fixpoint run_loop (fuel : nat) (f : list Insn) (d : SeccompData) (m : machine) : outcome LoadError Z :=
  if zlen f <=? pc m then Ok RET_KILL_PROCESS
  else match fuel with
       | O => OutOfFuel
       | S fuel' =>
           match step d (at_ no_insn f (pc m)) m with
           | Return v => Ok v
           | Next m' => run_loop fuel' f d m'
           end
       end.

(** Every round moves forward: as many rounds as instructions are enough. *)
Definition run (f : list Insn) (d : SeccompData) : outcome LoadError Z := run_loop (length f) f d start.

(** ** Several filters *)

Definition precedence (ret : Z) : Z :=
  let r := Z.land ret RET_ACTION_FULL in
  if r =? RET_KILL_PROCESS then 0
  else if r =? RET_KILL_THREAD then 1
  else if r =? RET_TRAP then 2
  else if r =? RET_ERRNO then 3
  else if r =? RET_USER_NOTIF then 4
  else if r =? RET_TRACE then 5
  else if r =? RET_LOG then 6
  else if r =? RET_ALLOW then 7
  else 0.

Fixpoint evaluate_from (best : Z) (fs : list (list Insn)) (d : SeccompData) : outcome LoadError Z :=
  match fs with
  | [] => Ok best
  | f :: fs' =>
      let? r := run f d in
      evaluate_from (if precedence r <? precedence best then r else best) fs' d
  end.

Definition evaluate (fs : list (list Insn)) (d : SeccompData) : outcome LoadError Z := evaluate_from RET_ALLOW (reverse fs) d.

Inductive Action := Allow | Log | Errno (e : Z) | Trap | KillThread | KillProcess | Enosys.

Definition action_of (ret : Z) : Action :=
  let r := Z.land ret RET_ACTION_FULL in
  if r =? RET_ALLOW then Allow
  else if r =? RET_LOG then Log
  else if r =? RET_ERRNO then Errno (Z.land ret RET_DATA)
  else if r =? RET_TRAP then Trap
  else if r =? RET_KILL_THREAD then KillThread
  else if r =? RET_KILL_PROCESS then KillProcess
  else Enosys.

(** ** Types of the machine *)

Record insn_ok (i : Insn) : Prop := mkInsnOk {
  io_jt : is_u8 (jt i);
  io_jf : is_u8 (jf i);
  io_k : is_u32 (k i);
}.

Record machine_ok (m : machine) : Prop := mkMachineOk {
  mo_a : is_u32 (a m);
  mo_x : is_u32 (x m);
  mo_mem : zlen (mem m) = 16;
  mo_words : Forall is_u32 (mem m);
  mo_pc : 0 <= pc m;
}.

Lemma u32_range v : is_u32 (u32 v).
Proof. unfold u32, is_u32, U32_MAX. pose proof (Z.mod_pos_bound v (2 ^ 32) ltac:(lia)). lia. Qed.

Lemma is_u32_bits v : 0 <= v -> (forall i, 32 <= i -> Z.testbit v i = false) -> is_u32 v.
Proof.
  intros Hv Hb. unfold is_u32, U32_MAX. split; [done|]. destruct (Z.le_gt_cases v 4294967295); [done|].
  assert (32 <= Z.log2 v) by (apply Z.log2_le_pow2; lia). pose proof (Z.bit_log2 v ltac:(lia)) as Hl. by rewrite Hb in Hl by lia.
Qed.

Lemma u32_high v i : is_u32 v -> 32 <= i -> Z.testbit v i = false.
Proof.
  intros Hv Hi. rewrite <- (Z.mod_small v (2 ^ 32)) by (unfold is_u32, U32_MAX in Hv; lia). by apply Z.mod_pow2_bits_high.
Qed.

Lemma bitop_u32 (f : bool -> bool -> bool) (g : Z -> Z -> Z) u v :
  (forall i, Z.testbit (g u v) i = f (Z.testbit u i) (Z.testbit v i)) -> 0 <= g u v -> f false false = false ->
  is_u32 u -> is_u32 v -> is_u32 (g u v).
Proof. intros Hg Hp Hf Hu Hv. apply is_u32_bits; [done|]. intros i Hi. by rewrite Hg, !u32_high. Qed.

Lemma alu_u32 o u v w : is_u32 u -> is_u32 v -> alu o u v = Some w -> is_u32 w.
Proof.
  intros Hu Hv. unfold alu. pose proof Hu as [Hu0 _]. pose proof Hv as [Hv0 _].
  repeat case_if; try done; intros [= <-]; try apply u32_range; try done.
  - unfold is_u32 in *. pose proof (Z.div_le_upper_bound u v u ltac:(lia)). pose proof (Z.div_pos u v). nia.
  - unfold is_u32 in *. pose proof (Z.mod_pos_bound u v). lia.
  - apply (bitop_u32 orb); [apply Z.lor_spec|by apply Z.lor_nonneg|done|done|done].
  - apply (bitop_u32 andb); [apply Z.land_spec|apply Z.land_nonneg; by left|done|done|done].
  - apply (bitop_u32 xorb); [apply Z.lxor_spec|apply Z.lxor_nonneg; lia|done|done|done].
  - apply is_u32_bits; [by apply Z.shiftr_nonneg|]. intros i Hi. rewrite Z.shiftr_spec by lia. apply u32_high; [done|lia].
Qed.

Lemma word_u32 d off w : is_u32 (arch d) -> word d off = Some w -> is_u32 w.
Proof. intros Ha. unfold word, half. repeat case_if; intros [= <-]; try apply u32_range; done. Qed.

Lemma slot_range v : 0 <= Z.land v 15 < 16.
Proof. change 15 with (Z.ones 4). rewrite Z.land_ones by lia. apply Z.mod_pos_bound. lia. Qed.

Lemma mem_u32 m v : machine_ok m -> is_u32 (at_ 0 (mem m) (Z.land v 15)).
Proof.
  intros [_ _ Hl Hw _]. pose proof (slot_range v). eapply Forall_lookup_1; [exact Hw|]. apply lookup_at. lia.
Qed.

Lemma load_a_u32 d ins m v : is_u32 (arch d) -> insn_ok ins -> machine_ok m -> load_a d ins m = Some v -> is_u32 v.
Proof.
  intros Hd Hi Hm. unfold load_a. case_if; [intros [= <-]; apply Hi|]. case_if; [by apply word_u32|].
  case_if; [intros [= <-]; by apply mem_u32|]. case_if; [intros [= <-]; by vm_compute|done].
Qed.

Lemma load_x_u32 ins m v : insn_ok ins -> machine_ok m -> load_x ins m = Some v -> is_u32 v.
Proof.
  intros Hi Hm. unfold load_x. case_if; [intros [= <-]; apply Hi|].
  case_if; [intros [= <-]; by apply mem_u32|]. case_if; [intros [= <-]; by vm_compute|done].
Qed.

Lemma next_ok m av xv p : machine_ok m -> is_u32 av -> is_u32 xv -> pc m < p ->
  machine_ok (mkMachine av xv (mem m) p) /\ pc m < pc (mkMachine av xv (mem m) p).
Proof. intros [? ? ? ? ?] Ha Hx Hp. split; [split; cbn; try done; lia|done]. Qed.

Lemma store_ok m w v : machine_ok m -> is_u32 v ->
  machine_ok (mkMachine (a m) (x m) (upd (mem m) w v) (pc m + 1)) /\ pc m < pc m + 1.
Proof. intros [? ? ? ? ?] Hv. split; [split; cbn; [done|done|by rewrite zlen_upd|by apply Forall_insert|lia]|lia]. Qed.

(** Preservation: a round keeps registers and memory 32-bit words and moves forward. *)
Lemma step_ok d ins m :
  is_u32 (arch d) -> insn_ok ins -> machine_ok m ->
  match step d ins m with
  | Next m' => machine_ok m' /\ pc m < pc m'
  | Return v => is_u32 v
  end.
Proof.
  intros Hd Hi Hm. pose proof Hi as [[Hjt _] [Hjf _] [Hk _]]. pose proof Hm as [Ha Hx _ _ Hp].
  assert (Hkill : is_u32 RET_KILL_PROCESS) by by vm_compute.
  set (src := if uses_x ins then x m else k ins). assert (Hsrc : is_u32 src) by (unfold src; case_if; [done|apply Hi]).
  unfold step. fold src. clearbody src.
  destruct (class ins =? BPF_LD); [destruct (load_a d ins m) eqn:E; [apply next_ok; [done|by eapply load_a_u32|done|lia]|done]|].
  destruct (class ins =? BPF_LDX); [destruct (load_x ins m) eqn:E; [apply next_ok; [done|done|by eapply load_x_u32|lia]|done]|].
  destruct (class ins =? BPF_ST); [by apply store_ok|]. destruct (class ins =? BPF_STX); [by apply store_ok|].
  destruct (class ins =? BPF_ALU); [destruct (alu _ _ src) eqn:E; [apply next_ok; [done|by apply (alu_u32 (op ins) (a m) src)|done|lia]|done]|].
  destruct (class ins =? BPF_JMP).
  { destruct (op ins =? BPF_JA); [apply next_ok; [done|done|done|lia]|].
    destruct (taken _ _ src) as [[]|]; [apply next_ok; [done|done|done|lia]..|done]. }
  destruct (class ins =? BPF_RET); [destruct (size ins =? BPF_A); [done|apply Hi]|].
  destruct (_ =? BPF_TAX); [apply next_ok; [done|done|done|lia]|]. destruct (_ =? BPF_TXA); [apply next_ok; [done|done|done|lia]|done].
Qed.

(** ** Termination *)

Definition filter_ok (f : list Insn) : Prop := Forall insn_ok f.

Lemma insn_at f i : filter_ok f -> insn_ok (at_ no_insn f i).
Proof.
  intros Hf. unfold at_. rewrite nth_lookup. destruct (f !! Z.to_nat i) as [ins|] eqn:E; cbn; [by eapply Forall_lookup_1|].
  split; by vm_compute.
Qed.

Lemma run_loop_total fuel f d m :
  is_u32 (arch d) -> filter_ok f -> machine_ok m -> zlen f - pc m <= Z.of_nat fuel -> exists v, run_loop fuel f d m = Ok v /\ is_u32 v.
Proof.
  intros Hd Hf. revert m. induction fuel as [|n IH]; intros m Hm Hn; cbn [run_loop];
    (destruct (Z.leb_spec (zlen f) (pc m)); [eexists; split; [done|by vm_compute]|]); [lia|].
  pose proof (step_ok d (at_ no_insn f (pc m)) m Hd (insn_at f (pc m) Hf) Hm) as Hs.
  destruct (step _ _ m) as [m'|v]; [|by eexists]. destruct Hs as [Hm' Hp]. apply IH; [done|lia].
Qed.

Lemma start_ok : machine_ok start.
Proof. split; cbn [start a x mem pc]; [by vm_compute|by vm_compute|by rewrite zlen_zrepeat|apply Forall_replicate; by vm_compute|lia]. Qed.

(** ** Progress *)

Lemma check_all_at n i l j ins : check_all n i l = None -> l !! j = Some ins -> check_insn n (i + Z.of_nat j) ins = None.
Proof.
  revert i j. induction l as [|ins' l IH]; intros i j Hc Hj; [by rewrite lookup_nil in Hj|]. cbn [check_all] in Hc.
  destruct (check_insn n i ins') eqn:E; [done|]. destruct j as [|j]; [injection Hj as <-; by rewrite Z.add_0_r|].
  replace (i + Z.of_nat (S j)) with (i + 1 + Z.of_nat j) by lia. by apply IH.
Qed.

(** What [load] accepts. *)
Record loaded (f : list Insn) : Prop := mkLoaded {
  ld_size : 0 < zlen f <= MAX_INSNS;
  ld_checked : forall i, 0 <= i < zlen f -> check_insn (zlen f) i (at_ no_insn f i) = None;
  ld_last : class (at_ no_insn f (zlen f - 1)) = BPF_RET;
}.

Lemma load_loaded insns f : load insns = Ok f -> f = insns /\ loaded f.
Proof.
  unfold load. pose proof (zlen_nonneg insns). destruct (Z.eqb_spec (zlen insns) 0); [done|]. destruct (Z.ltb_spec MAX_INSNS (zlen insns)); [done|].
  destruct (check_all (zlen insns) 0 insns) eqn:Ec; [done|].
  destruct (Z.eqb_spec (class (at_ no_insn insns (zlen insns - 1))) BPF_RET) as [El|]; cbn [negb andb].
  - destruct (_ =? BPF_JMP); [done|]. intros [= <-]. split; [done|]. split; [lia| |done].
    intros i Hi. replace i with (0 + Z.of_nat (Z.to_nat i)) at 1 by lia. apply (check_all_at _ _ _ _ _ Ec), lookup_at. lia.
  - destruct (_ =? BPF_JMP); done.
Qed.

(** The three ways a loaded program can meet a kill branch of the interpreter at an instruction. *)
Definition killed_at (ins : Insn) (m : machine) : Prop :=
  (class ins = BPF_LDX /\ mode ins = BPF_ABS) \/
  (class ins = BPF_ALU /\ (op ins = BPF_DIV \/ op ins = BPF_MOD) /\ uses_x ins = true /\ x m = 0).

Lemma word_some d off : off mod 4 = 0 -> off < 64 -> exists w, word d off = Some w.
Proof. intros H1 H2. unfold word. rewrite H1. destruct (Z.leb_spec 64 off); [lia|]. by eexists. Qed.

Lemma load_checked n i ins d m : class ins = BPF_LD \/ class ins = BPF_LDX -> check_insn n i ins = None ->
  (exists v, load_a d ins m = Some v) /\ ((exists v, load_x ins m = Some v) \/ mode ins = BPF_ABS).
Proof.
  intros Hc. unfold check_insn, load_a, load_x. assert ((class ins =? BPF_LD) || (class ins =? BPF_LDX) = true) as -> by (destruct Hc as [-> | ->]; done).
  destruct (mode ins =? BPF_IMM) eqn:E1; cbn [orb]; [by eauto|].
  destruct (mode ins =? BPF_LEN) eqn:E2.
  { apply Z.eqb_eq in E2. rewrite E2. by eauto. }
  destruct (Z.eqb_spec (mode ins) BPF_ABS) as [E3|].
  { destruct (_ || (64 <=? k ins)) eqn:Eb; [done|]. intros _. rewrite !orb_false_iff, !negb_false_iff in Eb. split; [|by right].
    destruct Eb as [[_ E4%Z.eqb_eq] E5%Z.leb_gt]. by apply word_some. }
  destruct (mode ins =? BPF_MEM); [by eauto|done].
Qed.

Lemma alu_checked n i ins m : class ins = BPF_ALU -> check_insn n i ins = None ->
  (exists v, alu (op ins) (a m) (if uses_x ins then x m else k ins) = Some v) \/ killed_at ins m.
Proof.
  intros Hc. unfold check_insn. rewrite Hc. change ((BPF_ALU =? BPF_LD) || (BPF_ALU =? BPF_LDX)) with false.
  change ((BPF_ALU =? BPF_ST) || (BPF_ALU =? BPF_STX)) with false. change (BPF_ALU =? BPF_ALU) with true. cbn iota.
  destruct (is_alu (op ins)) eqn:Ea; [|done]. cbn [negb]. intros Hk.
  assert (Hdiv : (op ins =? BPF_DIV) || (op ins =? BPF_MOD) = true -> (if uses_x ins then x m else k ins) <> 0 \/ killed_at ins m).
  { intros Hd. rewrite Hd in Hk. apply orb_true_iff in Hd. rewrite !Z.eqb_eq in Hd. destruct (uses_x ins) eqn:Eu; cbn [negb andb] in Hk.
    - destruct (Z.eq_dec (x m) 0); [right; by right|by left].
    - left. destruct (Z.eqb_spec (k ins) 0); done. }
  set (src := if uses_x ins then x m else k ins) in *. clearbody src. unfold alu, is_alu in *. cbn [existsb] in Ea.
  destruct (op ins =? BPF_ADD); [by eauto|]. destruct (op ins =? BPF_SUB); [by eauto|]. destruct (op ins =? BPF_MUL); [by eauto|].
  destruct (op ins =? BPF_DIV); [destruct (Hdiv eq_refl); [|by right]; destruct (Z.eqb_spec src 0); [done|by eauto]|].
  destruct (op ins =? BPF_MOD); [destruct (Hdiv eq_refl); [|by right]; destruct (Z.eqb_spec src 0); [done|by eauto]|].
  destruct (op ins =? BPF_OR); [by eauto|]. destruct (op ins =? BPF_AND); [by eauto|]. destruct (op ins =? BPF_XOR); [by eauto|].
  destruct (op ins =? BPF_LSH); [by eauto|]. destruct (op ins =? BPF_RSH); [by eauto|]. destruct (op ins =? BPF_NEG); [by eauto|done].
Qed.

(** An instruction of another class than [RET] is not the last one. *)
Ltac not_last E Hl := destruct Hl as [|Hl]; [done|rewrite E in Hl; vm_compute in Hl; discriminate Hl].

(** A checked instruction that is not the last one goes on inside the program; only an unconditional jump may
    leave it, and then to its very end. *)
Lemma step_checked n d ins m :
  check_insn n (pc m) ins = None -> insn_ok ins -> 0 <= pc m < n -> pc m + 1 < n \/ class ins = BPF_RET ->
  match step d ins m with
  | Next m' => pc m' < n \/ pc m' = n /\ class ins = BPF_JMP /\ op ins = BPF_JA
  | Return v => class ins = BPF_RET /\ v = (if size ins =? BPF_A then a m else k ins) \/ v = RET_KILL_PROCESS /\ killed_at ins m
  end.
Proof.
  intros Hc [Hjt Hjf Hk] Hp Hl. unfold step.
  destruct (Z.eqb_spec (class ins) BPF_LD) as [E|N1].
  { destruct (load_checked n _ ins d m (or_introl E) Hc) as [[v ->] _]. left. cbn. not_last E Hl. }
  destruct (Z.eqb_spec (class ins) BPF_LDX) as [E|N2].
  { destruct (load_checked n _ ins d m (or_intror E) Hc) as [_ [[v Ev]|Em]].
    - rewrite Ev. left. cbn. not_last E Hl.
    - assert (load_x ins m = None) as -> by (unfold load_x; by rewrite Em). right. split; [done|]. by left. }
  destruct (Z.eqb_spec (class ins) BPF_ST) as [E|N3]; [left; cbn; not_last E Hl|].
  destruct (Z.eqb_spec (class ins) BPF_STX) as [E|N4]; [left; cbn; not_last E Hl|].
  destruct (Z.eqb_spec (class ins) BPF_ALU) as [E|N5].
  { destruct (alu_checked n _ ins m E Hc) as [[v ->]|Hkl]; [left; cbn; not_last E Hl|].
    destruct (alu _ _ _); [left; cbn; not_last E Hl|by right]. }
  apply Z.eqb_neq in N1, N2, N3, N4, N5. unfold check_insn in Hc. rewrite N1, N2, N3, N4, N5 in Hc. cbn [orb] in Hc.
  clear N1 N2 N3 N4 N5.
  destruct (Z.eqb_spec (class ins) BPF_JMP) as [E|N6].
  { destruct (Z.eqb_spec (op ins) BPF_JA) as [Eo|].
    - cbn. destruct (_ && (n <=? pc m + 1 + k ins)) eqn:Eb in Hc; [done|]. apply andb_false_iff in Eb. rewrite !Z.leb_gt in Eb. lia.
    - destruct (_ || (op ins =? BPF_JSET)) eqn:Eo in Hc; [|done]. destruct (_ || _) eqn:Ej in Hc; [done|].
      apply orb_false_iff in Ej as [E1%Z.leb_gt E2%Z.leb_gt]. assert (Hj : forall b : bool, pc m + 1 + (if b then jt ins else jf ins) < n) by by intros [].
      unfold taken. destruct (op ins =? BPF_JEQ); [left; apply Hj|]. destruct (op ins =? BPF_JGT); [left; apply Hj|].
      destruct (op ins =? BPF_JGE); [left; apply Hj|]. destruct (op ins =? BPF_JSET); [left; apply Hj|done]. }
  destruct (Z.eqb_spec (class ins) BPF_RET) as [E|N7]; [by left|].
  destruct (_ || _) eqn:Em in Hc; [|done]. destruct Hl as [Hl|]; [|done].
  destruct (_ =? BPF_TAX); [by left|]. cbn [orb] in Em. rewrite Em. by left.
Qed.

(** ** Soundness of a loaded filter *)

Definition moves (f : list Insn) (d : SeccompData) (m m' : machine) : Prop :=
  pc m < zlen f /\ step d (at_ no_insn f (pc m)) m = Next m'.

(** An unconditional jump to the end of the program. *)
Definition jumps_out (f : list Insn) : Prop :=
  exists i, 0 <= i < zlen f /\ class (at_ no_insn f i) = BPF_JMP /\ op (at_ no_insn f i) = BPF_JA /\ i + 1 + k (at_ no_insn f i) = zlen f.

(** The run ended in [m] with [v]: at a [RET], at a kill branch, or behind the last instruction. *)
Definition ends (f : list Insn) (m : machine) (v : Z) : Prop :=
  let ins := at_ no_insn f (pc m) in
  (pc m < zlen f /\ class ins = BPF_RET /\ v = (if size ins =? BPF_A then a m else k ins)) \/
  (v = RET_KILL_PROCESS /\ (pc m < zlen f /\ killed_at ins m \/ pc m = zlen f /\ jumps_out f)).

(** The states a run goes through. *)
Record state_ok (f : list Insn) (m : machine) : Prop := mkStateOk {
  so_machine : machine_ok m;
  so_pc : pc m < zlen f \/ pc m = zlen f /\ jumps_out f;
}.

Lemma step_sound f d m :
  loaded f -> filter_ok f -> machine_ok m -> pc m < zlen f ->
  let ins := at_ no_insn f (pc m) in
  match step d ins m with
  | Next m' => pc m' < zlen f \/ pc m' = zlen f /\ class ins = BPF_JMP /\ op ins = BPF_JA
  | Return v => class ins = BPF_RET /\ v = (if size ins =? BPF_A then a m else k ins) \/ v = RET_KILL_PROCESS /\ killed_at ins m
  end.
Proof.
  intros Hl Hf Hm Hp ins. pose proof (mo_pc _ Hm) as H0. apply step_checked; [apply (ld_checked _ Hl); lia|by apply insn_at|lia|].
  destruct (Z.eq_dec (pc m) (zlen f - 1)) as [El|]; [|lia]. right. unfold ins. rewrite El. apply (ld_last _ Hl).
Qed.

Lemma move_ok f d m m' : loaded f -> filter_ok f -> is_u32 (arch d) -> state_ok f m -> moves f d m m' -> state_ok f m' /\ pc m < pc m'.
Proof.
  intros Hl Hf Hd [Hm _] [Hp E]. set (ins := at_ no_insn f (pc m)) in *. pose proof (mo_pc _ Hm) as H0.
  pose proof (step_ok d ins m Hd (insn_at f (pc m) Hf) Hm) as Hs. rewrite E in Hs. destruct Hs as [Hm' Hpc].
  pose proof (step_sound f d m Hl Hf Hm Hp) as Hc. cbn zeta in Hc. fold ins in Hc. rewrite E in Hc.
  split; [|done]. split; [done|]. destruct Hc as [|(Ep & Ec & Eo)]; [by left|]. right. split; [done|]. exists (pc m).
  split; [lia|]. fold ins. split; [done|]. split; [done|]. unfold step in E. rewrite Ec, Eo in E. vm_compute (BPF_JMP =? _) in E.
  cbn iota in E. change (BPF_JA =? BPF_JA) with true in E. cbn iota in E. injection E as <-. done.
Qed.

Lemma run_loop_ends fuel f d m :
  loaded f -> filter_ok f -> is_u32 (arch d) -> state_ok f m -> zlen f - pc m <= Z.of_nat fuel ->
  exists v m', run_loop fuel f d m = Ok v /\ rtc (moves f d) m m' /\ ends f m' v.
Proof.
  intros Hl Hf Hd. revert m. induction fuel as [|n IH]; intros m Hm Hn; pose proof (so_pc _ _ Hm) as Hp; cbn [run_loop].
  - destruct (Z.leb_spec (zlen f) (pc m)); [|lia]. exists RET_KILL_PROCESS, m. split; [done|]. split; [done|]. right. split; [done|]. right. destruct Hp; [lia|done].
  - destruct (Z.leb_spec (zlen f) (pc m)) as [|Hlt].
    { exists RET_KILL_PROCESS, m. split; [done|]. split; [done|]. right. split; [done|]. right. destruct Hp; [lia|done]. }
    destruct (step d (at_ no_insn f (pc m)) m) as [m1|v] eqn:E.
    + assert (Hmv : moves f d m m1) by by split. destruct (move_ok f d m m1 Hl Hf Hd Hm Hmv) as [Hm1 Hlt1].
      destruct (IH m1 Hm1 ltac:(lia)) as (v & m' & E1 & R1 & En). exists v, m'. split; [done|]. split; [by eapply rtc_l|done].
    + exists v, m. split; [done|]. split; [done|].
      pose proof (step_sound f d m Hl Hf (so_machine _ _ Hm) Hlt) as Hc. cbn zeta in Hc. rewrite E in Hc.
      destruct Hc as [[? ?]|[? ?]]; [left|right]; split_and!; try done. by left.
Qed.

Lemma start_state f : loaded f -> state_ok f start.
Proof. intros Hl. split; [apply start_ok|]. left. pose proof (ld_size _ Hl). cbn. lia. Qed.

Lemma reachable_ok f d m : loaded f -> filter_ok f -> is_u32 (arch d) -> rtc (moves f d) start m -> state_ok f m.
Proof.
  intros Hl Hf Hd. pose proof (start_state f Hl) as Hs. intros Hr. revert Hs.
  induction Hr as [y|y z w Hyz _ IH]; [done|]. intros Hy. apply IH. by eapply move_ok.
Qed.

(** ** Several filters *)

Lemma evaluate_from_spec fs d best :
  is_u32 (arch d) -> Forall (fun f => loaded f /\ filter_ok f) fs ->
  exists v, evaluate_from best fs d = Ok v /\ (v = best \/ exists f, f ∈ fs /\ run f d = Ok v) /\ precedence v <= precedence best /\
    forall f r, f ∈ fs -> run f d = Ok r -> precedence v <= precedence r.
Proof.
  intros Hd Hfs. revert best. induction Hfs as [|f fs [Hl Hf] _ IH]; intros best; cbn [evaluate_from].
  { exists best. split; [done|]. split; [by left|]. split; [done|]. by intros f r ?%elem_of_nil. }
  destruct (run_loop_ends (length f) f d start Hl Hf Hd (start_state f Hl)) as (r & m & Er & _ & _); [cbn; unfold zlen; lia|].
  fold (run f d) in Er. rewrite Er. cbn [obind].
  destruct (IH (if precedence r <? precedence best then r else best)) as (v & -> & Hv & Hp & Ha). exists v. split; [done|].
  assert (Hr : precedence v <= precedence r /\ precedence v <= precedence best) by (destruct (Z.ltb_spec (precedence r) (precedence best)); lia).
  split; [|split; [apply Hr|]].
  - destruct Hv as [Hv|(g & Hg & Hr')]; [|right; exists g; split; [by right|done]].
    destruct (precedence r <? precedence best); [right; exists f; rewrite Hv; split; [by left|done]|by left].
  - intros g r' Hg Hr'. apply elem_of_cons in Hg as [->|Hg]; [|by eapply Ha]. rewrite Er in Hr'. injection Hr' as <-. apply Hr.
Qed.

(** ** Claim *)

(** The actions Linux defines, and how much each leaves of the process: the meaning of the order in which
    [evaluate] prefers them. *)
Definition known_action (ret : Z) : Prop :=
  In (Z.land ret RET_ACTION_FULL)
    [RET_KILL_PROCESS; RET_KILL_THREAD; RET_TRAP; RET_ERRNO; RET_USER_NOTIF; RET_TRACE; RET_LOG; RET_ALLOW].

Definition strictness (act : Action) : Z :=
  match act with
  | KillProcess => 6 | KillThread => 5 | Trap => 4 | Errno _ => 3 | Enosys => 2 | Log => 1 | Allow => 0
  end.

Lemma strict_precedence v r :
  known_action v -> known_action r -> precedence v <= precedence r -> strictness (action_of r) <= strictness (action_of v).
Proof.
  unfold known_action, precedence, action_of. generalize (Z.land v RET_DATA), (Z.land r RET_DATA). intros n m Hv Hr.
  cbn [In] in Hv, Hr. repeat (destruct Hv as [<- |Hv]; [|]); try done;
    repeat (destruct Hr as [<- |Hr]; [cbn; lia|]); done.
Qed.

(** C20 A filter that passes the load-time check is well behaved on every system call: it ends, in at most as many
    rounds as it has instructions; in every state it goes through the registers and the sixteen memory words are
    32-bit values and the program counter is inside the program (or at its end, after an unconditional jump
    there); and it ends at a return instruction with its value, or with a kill at one of exactly three places: a
    division by a zero in X, an absolute load into X, a jump to the end.  Several loaded filters together return,
    with the answer of one of them (or allow, without filters); when each answers with one of the eight actions
    of Linux, what the kernel does with that answer is at least as strict as what it would do for each of them
    alone: ending the process before ending the thread, a signal, an error of the filter's choice, [ENOSYS], a
    log line, and allowing the call. *)
Theorem filter_type_sound insns f d fs :
  load insns = Ok f -> filter_ok insns -> is_u32 (arch d) -> Forall (fun i => load i = Ok i /\ filter_ok i) fs ->
  (exists v m, run f d = Ok v /\ rtc (moves f d) start m /\ ends f m v) /\
  (forall m, rtc (moves f d) start m -> state_ok f m) /\
  (exists v, evaluate fs d = Ok v /\ (v = RET_ALLOW \/ exists g, g ∈ fs /\ run g d = Ok v) /\
     ((forall g r, g ∈ fs -> run g d = Ok r -> known_action r) ->
      forall g r, g ∈ fs -> run g d = Ok r -> strictness (action_of r) <= strictness (action_of v))).
Proof.
  intros Hload Hf Hd Hfs. apply load_loaded in Hload as [-> Hl]. split; [|split].
  - apply (run_loop_ends (length insns) insns d start Hl Hf Hd (start_state insns Hl)). cbn. unfold zlen. lia.
  - intros m. by apply reachable_ok.
  - destruct (evaluate_from_spec (reverse fs) d RET_ALLOW Hd) as (v & Ev & Hv & _ & Ha).
    { apply Forall_reverse. eapply Forall_impl; [exact Hfs|]. cbn. intros g [Hg Hg']. by apply load_loaded in Hg as [_ Hg]. }
    assert (Hv' : v = RET_ALLOW \/ exists g, g ∈ fs /\ run g d = Ok v).
    { destruct Hv as [|(g & Hg & Hr)]; [by left|right; exists g; split; [by apply elem_of_reverse|done]]. }
    exists v. split; [done|]. split; [done|]. intros Hk h r Hh Hr. apply strict_precedence; [|exact (Hk h r Hh Hr)|].
    + destruct Hv' as [-> |(g & Hg & Hrg)]; [vm_compute; tauto|exact (Hk g v Hg Hrg)].
    + by apply (Ha h); [apply elem_of_reverse|].
Qed.

(** The textbook filter: refuse [getpid] with [EPERM], kill on [socket], allow the rest. *)
Definition textbook : list Insn :=
  [mkInsn 32 0 0 4; mkInsn 21 1 0 3221225534; mkInsn 6 0 0 RET_KILL_PROCESS; mkInsn 32 0 0 0; mkInsn 21 0 1 39;
   mkInsn 6 0 0 (RET_ERRNO + 1); mkInsn 21 0 1 41; mkInsn 6 0 0 RET_KILL_PROCESS; mkInsn 6 0 0 RET_ALLOW].

Lemma filter_type_sound_witness :
  (exists v, evaluate [textbook] (mkData 39 3221225534 4096 [0; 0; 0; 0; 0; 0]) = Ok v /\ action_of v = Errno 1) /\
  (forall m, rtc (moves textbook (mkData 39 3221225534 4096 [0; 0; 0; 0; 0; 0])) start m -> state_ok textbook m).
Proof.
  assert (Ht : load textbook = Ok textbook) by by vm_compute.
  assert (Hf : filter_ok textbook) by (repeat (apply Forall_cons; split; [split; vm_compute; split; discriminate|]); constructor).
  destruct (filter_type_sound textbook textbook (mkData 39 3221225534 4096 [0; 0; 0; 0; 0; 0]) [textbook] Ht Hf) as (_ & H1 & v & Ev & _).
  - vm_compute. split; discriminate.
  - by repeat constructor.
  - split; [|exact H1]. exists v. split; [exact Ev|]. vm_compute in Ev. injection Ev as <-. by vm_compute.
Defined.

(** ** Where the comments go further than the code *)

(** A program whose first instruction jumps to its end is loaded, and falls off it. *)
Lemma jump_to_end_loads :
  let f := [mkInsn 5 0 0 1; mkInsn 6 0 0 RET_ALLOW] in
  load f = Ok f /\ run f (mkData 0 0 0 []) = Ok RET_KILL_PROCESS.
Proof. by vm_compute. Qed.

(** A newer filter that returns an unknown action hides an older one that kills, and the process only sees
    [ENOSYS]. *)
Lemma unknown_action_hides_kill :
  let kill := [mkInsn 6 0 0 RET_KILL_PROCESS] in
  let unknown := [mkInsn 6 0 0 65536] in
  load kill = Ok kill /\ load unknown = Ok unknown /\
  evaluate [kill; unknown] (mkData 0 0 0 []) = Ok 65536 /\ precedence 65536 = 0 /\ action_of 65536 = Enosys.
Proof. by vm_compute. Qed.
End Bpf.
