(* ===== verification/Net.v ===== *)
(** EuroNet, packets ([src/crates/euronet/src/checksum.rs], [ethernet.rs],
    [arp.rs], [ipv4.rs], [icmp.rs], [udp.rs], [tcp.rs]): building and parsing the
    headers of the stack, with the Internet checksum.

    Addresses are lists of 6 or 4 bytes; integers on the wire are big-endian. *)

From S2P Require Import Prelude Bytes.

Module Net.

Inductive NetError := TooShort | BadChecksum | Malformed | Unsupported.

Definition be16 (b : list Z) (o : Z) : Z := be_val (slice b o 2).
Definition be32 (b : list Z) (o : Z) : Z := be_val (slice b o 4).

(** ** The Internet checksum *)

(** The sum of the big-endian 16-bit words, an odd byte as a high byte. *)
Fixpoint word_sum (data : list Z) : Z :=
  match data with
  | a :: b :: rest => be_val [a; b] + word_sum rest
  | [a] => Z.shiftl a 8
  | [] => 0
  end.

(** [while sum >> 16 != 0 { sum = (sum & 0xFFFF) + (sum >> 16) }]; three rounds are enough for a [u32]. *)
Fixpoint fold_carry (fuel : nat) (sum : Z) : Z :=
  match fuel with
  | O => sum
  | S fuel' => if Z.shiftr sum 16 =? 0 then sum else fold_carry fuel' (Z.land sum 65535 + Z.shiftr sum 16)
  end.

(** The running sum is a [u32]. *)
Definition internet_checksum (data : list Z) : outcome NetError Z :=
  let sum := word_sum data in
  if U32_MAX <? sum then Panic else Ok (65535 - fold_carry 3 sum).

Definition verify (data : list Z) : outcome NetError bool :=
  let? c := internet_checksum data in Ok (c =? 0).

(** ** Ethernet *)

Inductive EtherType := Ipv4 | Ipv6 | Arp | OtherType (v : Z).

Definition ethertype_from (v : Z) : EtherType :=
  if v =? 2048 then Ipv4 else if v =? 34525 then Ipv6 else if v =? 2054 then Arp else OtherType v.
Definition ethertype_as (t : EtherType) : Z :=
  match t with Ipv4 => 2048 | Ipv6 => 34525 | Arp => 2054 | OtherType v => v end.

Record EthernetHeader := mkEthernet {
  eth_dst : list Z;
  eth_src : list Z;
  ethertype : EtherType;
}.

Definition ethernet_parse (buf : list Z) : outcome NetError (EthernetHeader * list Z) :=
  if zlen buf <? 14 then Err TooShort
  else Ok (mkEthernet (slice buf 0 6) (slice buf 6 6) (ethertype_from (be16 buf 12)), drop 14 buf).

Definition ethernet_build (h : EthernetHeader) (payload : list Z) : list Z :=
  eth_dst h ++ eth_src h ++ be_bytes 2 (ethertype_as (ethertype h)) ++ payload.

(** ** ARP *)

Inductive ArpOp := Request | Reply | OtherOp (v : Z).

Definition arp_op_from (v : Z) : ArpOp := if v =? 1 then Request else if v =? 2 then Reply else OtherOp v.
Definition arp_op_as (o : ArpOp) : Z := match o with Request => 1 | Reply => 2 | OtherOp v => v end.

Record ArpPacket := mkArp {
  arp_op : ArpOp;
  sender_mac : list Z;
  sender_ip : list Z;
  target_mac : list Z;
  target_ip : list Z;
}.

Definition arp_parse (buf : list Z) : outcome NetError ArpPacket :=
  if zlen buf <? 28 then Err TooShort
  else if negb (be16 buf 0 =? 1) || negb (be16 buf 2 =? 2048) || negb (at_ 0 buf 4 =? 6) || negb (at_ 0 buf 5 =? 4) then Err Unsupported
  else Ok (mkArp (arp_op_from (be16 buf 6)) (slice buf 8 6) (slice buf 14 4) (slice buf 18 6) (slice buf 24 4)).

Definition arp_build (p : ArpPacket) : list Z :=
  be_bytes 2 1 ++ be_bytes 2 2048 ++ [6; 4] ++ be_bytes 2 (arp_op_as (arp_op p)) ++
  sender_mac p ++ sender_ip p ++ target_mac p ++ target_ip p.

Definition arp_reply_to (request : ArpPacket) (my_mac : list Z) : ArpPacket :=
  mkArp Reply my_mac (target_ip request) (sender_mac request) (sender_ip request).

(** ** IPv4 *)

Inductive Protocol := Icmp | Tcp | Udp | OtherProto (v : Z).

Definition protocol_from (v : Z) : Protocol :=
  if v =? 1 then Icmp else if v =? 6 then Tcp else if v =? 17 then Udp else OtherProto v.
Definition protocol_as (p : Protocol) : Z := match p with Icmp => 1 | Tcp => 6 | Udp => 17 | OtherProto v => v end.

Record Ipv4Header := mkIpv4 {
  protocol : Protocol;
  ttl : Z;
  ip_src : list Z;
  ip_dst : list Z;
  total_length : Z;
  identification : Z;
}.

Definition ipv4_parse (buf : list Z) : outcome NetError (Ipv4Header * list Z) :=
  if zlen buf <? 20 then Err TooShort
  else
    let version := Z.shiftr (at_ 0 buf 0) 4 in
    let ihl := Z.land (at_ 0 buf 0) 15 * 4 in
    if negb (version =? 4) || (ihl <? 20) || (zlen buf <? ihl) then Err Malformed
    else
      let? c := internet_checksum (slice buf 0 ihl) in
      if negb (c =? 0) then Err BadChecksum
      else
        let flags_frag := be16 buf 6 in
        if negb (Z.land flags_frag 8192 =? 0) || negb (Z.land flags_frag 8191 =? 0) then Err Malformed
        else
          let len := be16 buf 2 in
          let hdr := mkIpv4 (protocol_from (at_ 0 buf 9)) (at_ 0 buf 8) (slice buf 12 4) (slice buf 16 4) len (be16 buf 4) in
          let stop := Z.max (Z.min len (zlen buf)) ihl in
          Ok (hdr, slice buf ihl (stop - ihl)).

(** The header before its checksum is filled in. *)
Definition ipv4_fields (h : Ipv4Header) (total : Z) : list Z :=
  [69; 0] ++ be_bytes 2 total ++ be_bytes 2 (identification h) ++ [0; 0; ttl h; protocol_as (protocol h); 0; 0] ++ ip_src h ++ ip_dst h.

Definition ipv4_build (h : Ipv4Header) (payload : list Z) : outcome NetError (list Z) :=
  let total := (20 + zlen payload) mod 65536 in
  let hd := ipv4_fields h total in
  let? cs := internet_checksum hd in
  Ok (splice hd 10 (be_bytes 2 cs) ++ payload).

(** ** ICMP *)

Inductive IcmpType := EchoReply | EchoRequest | OtherIcmp (v : Z).

Definition icmp_type_from (v : Z) : IcmpType := if v =? 0 then EchoReply else if v =? 8 then EchoRequest else OtherIcmp v.
Definition icmp_type_as (t : IcmpType) : Z := match t with EchoReply => 0 | EchoRequest => 8 | OtherIcmp v => v end.

Record IcmpEcho := mkEcho {
  kind : IcmpType;
  identifier : Z;
  sequence : Z;
  echo_payload : list Z;
}.

Definition echo_parse (buf : list Z) : outcome NetError IcmpEcho :=
  if zlen buf <? 8 then Err TooShort
  else
    let? c := internet_checksum buf in
    if negb (c =? 0) then Err BadChecksum
    else Ok (mkEcho (icmp_type_from (at_ 0 buf 0)) (be16 buf 4) (be16 buf 6) (drop 8 buf)).

Definition echo_build (e : IcmpEcho) : outcome NetError (list Z) :=
  let b := [icmp_type_as (kind e); 0; 0; 0] ++ be_bytes 2 (identifier e) ++ be_bytes 2 (sequence e) ++ echo_payload e in
  let? cs := internet_checksum b in
  Ok (splice b 2 (be_bytes 2 cs)).

Definition echo_reply_to (req : IcmpEcho) : IcmpEcho := mkEcho EchoReply (identifier req) (sequence req) (echo_payload req).

Inductive UnreachCode := Host | Port.
Inductive IcmpError := DestUnreachable (c : UnreachCode) | TimeExceeded.

Definition type_code (e : IcmpError) : Z * Z :=
  match e with DestUnreachable Host => (3, 1) | DestUnreachable Port => (3, 3) | TimeExceeded => (11, 0) end.

Definition icmp_error_build (e : IcmpError) (original : list Z) : outcome NetError (list Z) :=
  let '(typ, code) := type_code e in
  let b := [typ; code; 0; 0; 0; 0; 0; 0] ++ slice original 0 (Z.min (zlen original) 28) in
  let? cs := internet_checksum b in
  Ok (splice b 2 (be_bytes 2 cs)).

Definition icmp_error_parse (buf : list Z) : outcome NetError (option (IcmpError * list Z)) :=
  if zlen buf <? 8 then Ok None
  else
    let? c := internet_checksum buf in
    if negb (c =? 0) then Ok None
    else
      let t := at_ 0 buf 0 in let d := at_ 0 buf 1 in
      if (t =? 3) && (d =? 1) then Ok (Some (DestUnreachable Host, drop 8 buf))
      else if (t =? 3) && (d =? 3) then Ok (Some (DestUnreachable Port, drop 8 buf))
      else if (t =? 11) && (d =? 0) then Ok (Some (TimeExceeded, drop 8 buf))
      else Ok None.

(** ** UDP *)

Record UdpDatagram := mkUdp {
  udp_src_port : Z;
  udp_dst_port : Z;
  udp_payload : list Z;
}.

Definition pseudo (proto : Z) (src dst : list Z) (len : Z) : list Z := src ++ dst ++ [0; proto] ++ be_bytes 2 len.

Definition udp_build (u : UdpDatagram) (src dst : list Z) : outcome NetError (list Z) :=
  let udp_len := (8 + zlen (udp_payload u)) mod 65536 in
  let seg := be_bytes 2 (udp_src_port u) ++ be_bytes 2 (udp_dst_port u) ++ be_bytes 2 udp_len ++ [0; 0] ++ udp_payload u in
  let? cs := internet_checksum (pseudo 17 src dst udp_len ++ seg) in
  let cs := if cs =? 0 then 65535 else cs in
  Ok (splice seg 6 (be_bytes 2 cs)).

Definition udp_parse (buf src dst : list Z) : outcome NetError UdpDatagram :=
  if zlen buf <? 8 then Err TooShort
  else
    let length := be16 buf 4 in
    if (length <? 8) || (zlen buf <? length) then Err Malformed
    else
      let? ok := (if negb (be16 buf 6 =? 0) then verify (pseudo 17 src dst length ++ slice buf 0 length) else Ok true) in
      if negb ok then Err BadChecksum
      else Ok (mkUdp (be16 buf 0) (be16 buf 2) (slice buf 8 (length - 8))).

(** ** TCP *)

Definition FIN : Z := 1.
Definition SYN : Z := 2.
Definition RST : Z := 4.
Definition PSH : Z := 8.
Definition ACK : Z := 16.

Record TcpSegment := mkTcp {
  src_port : Z;
  dst_port : Z;
  seq : Z;
  ack : Z;
  flags : Z;
  window : Z;
  payload : list Z;
}.

Definition tcp_fields (t : TcpSegment) : list Z :=
  be_bytes 2 (src_port t) ++ be_bytes 2 (dst_port t) ++ be_bytes 4 (seq t) ++ be_bytes 4 (ack t) ++
  be_bytes 2 (Z.lor (Z.shiftl 5 12) (flags t)) ++ be_bytes 2 (window t) ++ [0; 0; 0; 0] ++ payload t.

Definition tcp_build (t : TcpSegment) (src dst : list Z) : outcome NetError (list Z) :=
  let tcp_len := (20 + zlen (payload t)) mod 65536 in
  let? cs := internet_checksum (pseudo 6 src dst tcp_len ++ tcp_fields t) in
  Ok (splice (tcp_fields t) 16 (be_bytes 2 cs)).

Definition tcp_parse (buf : list Z) : outcome NetError TcpSegment :=
  if zlen buf <? 20 then Err TooShort
  else
    let off := Z.shiftr (at_ 0 buf 12) 4 * 4 in
    if (off <? 20) || (zlen buf <? off) then Err Malformed
    else Ok (mkTcp (be16 buf 0) (be16 buf 2) (be32 buf 4) (be32 buf 8) (Z.land (at_ 0 buf 13) 63) (be16 buf 14) (drop (Z.to_nat off) buf)).

Definition has (t : TcpSegment) (flag : Z) : bool := negb (Z.land (flags t) flag =? 0).

(** The additions of the segment length are of [u32]s. *)
Definition reset_to (i : TcpSegment) : outcome NetError (option TcpSegment) :=
  if has i RST then Ok None
  else
    let? r :=
      (if has i ACK then Ok (ack i, 0, RST)
       else
         let seg_len := zlen (payload i) mod 2 ^ 32 + (if has i SYN then 1 else 0) + (if has i FIN then 1 else 0) in
         if U32_MAX <? seg_len then Panic
         else Ok (0, (seq i + seg_len) mod 2 ^ 32, Z.lor RST ACK)) in
    let '(sq, ak, fl) := r in
    Ok (Some (mkTcp (dst_port i) (src_port i) sq ak fl 0 [])).

Definition verify_checksum (seg src dst : list Z) : outcome NetError bool :=
  if zlen seg <? 20 then Ok false else verify (pseudo 6 src dst (zlen seg mod 65536) ++ seg).

Definition parse_checked (seg src dst : list Z) : outcome NetError TcpSegment :=
  let? ok := verify_checksum seg src dst in
  if negb ok then Err BadChecksum else tcp_parse seg.

(** ** The checksum is correct *)

(** Reads the fields of a literal header. *)
#[local] Ltac fields := unfold be16, be32, slice, at_; simpl; rewrite ?take_0, ?drop_0; cbn [negb orb andb].
#[local] Arguments be_val : simpl never.
#[local] Arguments be_bytes : simpl never.

#[local] Ltac dlia := Z.to_euclidean_division_equations; ulia.

Lemma be_val_2 a b : be_val [a; b] = a * 256 + b.
Proof. unfold be_val. change (reverse [a; b]) with [b; a]. unfold le_val. lia. Qed.

Lemma be_word v : is_u16 v -> exists a b, be_bytes 2 v = [a; b] /\ be_val [a; b] = v /\ is_u8 a /\ is_u8 b.
Proof.
  intros Hv. exists (v / 256 mod 256), (v mod 256).
  assert (E : be_bytes 2 v = [v / 256 mod 256; v mod 256]) by reflexivity.
  split; [done|]. rewrite <- E. split; [apply be_val_bytes; ulia|].
  pose proof (bytes_ok_be 2 v) as H. rewrite E in H. split; [by inversion H|].
  by inversion H as [|? ? _ H']; inversion H'.
Qed.

(** One round of the carry loop keeps the sum modulo 65535, and only zero gives zero. *)
Lemma fold_step s : 0 <= s ->
  let s' := Z.land s 65535 + Z.shiftr s 16 in
  0 <= s' /\ (s' = 0 <-> s = 0) /\ s = s' + 65535 * (s / 65536) /\ s' = s mod 65536 + s / 65536.
Proof.
  intros H. cbv zeta.
  assert (Z.land s 65535 = s mod 65536) as -> by (change 65535 with (Z.ones 16); by rewrite Z.land_ones).
  rewrite Z.shiftr_div_pow2 by lia. change (2 ^ 16) with 65536. dlia.
Qed.

Lemma fold_carry_spec s : 0 <= s <= U32_MAX ->
  let f := fold_carry 3 s in 0 <= f < 65536 /\ (f = 0 <-> s = 0) /\ f mod 65535 = s mod 65535.
Proof.
  intros Hs. unfold U32_MAX in Hs. cbv zeta.
  assert (shr : forall x, 0 <= x -> (Z.shiftr x 16 =? 0) = (x <? 65536)).
  { intros x Hx. rewrite Z.shiftr_div_pow2 by lia. change (2 ^ 16) with 65536. apply eq_true_iff_eq. rewrite Z.eqb_eq, Z.ltb_lt. dlia. }
  unfold fold_carry. rewrite shr by lia. case_if; [lia|].
  destruct (fold_step s ltac:(lia)) as (P1 & Z1 & E1 & D1). set (s1 := Z.land s 65535 + Z.shiftr s 16) in *.
  rewrite shr by lia. assert (s mod 65535 = s1 mod 65535) as ->.
  { rewrite E1, (Z.mul_comm 65535), Z.mod_add by lia. done. }
  case_if; [lia|].
  destruct (fold_step s1 P1) as (P2 & Z2 & E2 & D2). set (s2 := Z.land s1 65535 + Z.shiftr s1 16) in *.
  assert (s1 mod 65535 = s2 mod 65535) as ->.
  { rewrite E2, (Z.mul_comm 65535), Z.mod_add by lia. done. }
  rewrite shr by lia. case_if; [lia|]. exfalso. dlia.
Qed.

Lemma word_sum_app l s : Z.even (zlen l) = true -> word_sum (l ++ s) = word_sum l + word_sum s.
Proof.
  revert l. fix IH 1. intros [|a [|b l]] H; [done|done|]. simpl. rewrite IH; [lia|].
  rewrite !zlen_cons in H. rewrite <- H, !Z.even_add. by destruct (Z.even (zlen l)).
Qed.

Lemma word_sum_bound l : bytes_ok l -> 0 <= word_sum l <= 65535 * ((zlen l + 1) / 2).
Proof.
  revert l. fix IH 1. intros [|a [|b l]] H; [by vm_compute| |].
  - inversion H. simpl. rewrite Z.shiftl_mul_pow2 by lia. change ((zlen [a] + 1) / 2) with 1. ulia.
  - apply Forall_cons in H as [Ha H]. apply Forall_cons in H as [Hb H]. simpl. rewrite be_val_2.
    specialize (IH l H). rewrite !zlen_cons. replace (1 + (1 + zlen l) + 1) with (zlen l + 1 + 1 * 2) by lia.
    rewrite Z.div_add by lia. ulia.
Qed.

Lemma checksum_ok l : bytes_ok l -> zlen l <= 131070 ->
  internet_checksum l = Ok (65535 - fold_carry 3 (word_sum l)) /\ 0 <= word_sum l <= U32_MAX - 65535.
Proof.
  intros Hl Hz. pose proof (word_sum_bound l Hl). pose proof (zlen_nonneg l).
  assert (0 <= word_sum l <= U32_MAX - 65535) by dlia.
  split; [|done]. unfold internet_checksum. by case_if; [lia|].
Qed.

(** A block verifies exactly when its sum is a positive multiple of 65535. *)
Lemma verifies_iff l : bytes_ok l -> zlen l <= 131070 ->
  internet_checksum l = Ok 0 <-> 0 < word_sum l /\ word_sum l mod 65535 = 0.
Proof.
  intros Hl Hz. destruct (checksum_ok l Hl Hz) as [-> Hb].
  destruct (fold_carry_spec (word_sum l)) as (Hf & H0 & Hm); [lia|].
  split.
  - intros E. assert (F : 65535 - fold_carry 3 (word_sum l) = 0) by congruence.
    split; [lia|]. rewrite <- Hm. by replace (fold_carry 3 (word_sum l)) with 65535 by lia.
  - intros [Hp E]. rewrite E in Hm. f_equal.
    assert (0 < fold_carry 3 (word_sum l)) by lia. dlia.
Qed.

(** Writing the checksum of a block into its zeroed field makes the block verify. *)
Lemma checksum_seal pre post : Z.even (zlen pre) = true -> bytes_ok pre -> bytes_ok post -> zlen pre + zlen post <= 131068 ->
  exists cs, internet_checksum (pre ++ [0; 0] ++ post) = Ok cs /\ is_u16 cs /\
    internet_checksum (pre ++ be_bytes 2 cs ++ post) = Ok 0 /\
    (cs = 0 -> internet_checksum (pre ++ be_bytes 2 65535 ++ post) = Ok 0).
Proof.
  intros He Hp Hq Hz.
  assert (sums : forall v, is_u16 v -> word_sum (pre ++ be_bytes 2 v ++ post) = word_sum pre + v + word_sum post).
  { intros v Hv. destruct (be_word v Hv) as (a & b & -> & E & _). rewrite word_sum_app by done. simpl. rewrite E. lia. }
  assert (oks : forall v, is_u16 v -> bytes_ok (pre ++ be_bytes 2 v ++ post) /\ zlen (pre ++ be_bytes 2 v ++ post) <= 131070).
  { intros v Hv. rewrite !zlen_app, zlen_be_bytes. split; [|lia]. auto using bytes_ok_app, bytes_ok_be. }
  change [0; 0] with (be_bytes 2 0).
  destruct (oks 0 ltac:(ulia)) as [O1 O2]. destruct (checksum_ok _ O1 O2) as [-> Hb].
  pose proof (sums 0 ltac:(ulia)) as S0. set (s := word_sum (pre ++ be_bytes 2 0 ++ post)) in *.
  destruct (fold_carry_spec s) as (Hf & H0 & Hm); [lia|].
  eexists. split; [done|]. assert (is_u16 (65535 - fold_carry 3 s)) by ulia. split; [done|].
  split; [|intros Hcs]; (apply verifies_iff; [apply oks; ulia|apply oks; ulia|]); rewrite sums by ulia.
  - split; [lia|]. replace (word_sum pre + (65535 - fold_carry 3 s) + word_sum post) with (s - fold_carry 3 s + 1 * 65535) by lia.
    rewrite Z.mod_add, Zminus_mod, Hm, Z.sub_diag by lia. done.
  - split; [lia|]. replace (word_sum pre + 65535 + word_sum post) with (s + 1 * 65535) by lia.
    rewrite Z.mod_add by lia. rewrite <- Hm. by replace (fold_carry 3 s) with 65535 by lia.
Qed.

Lemma word_sum_upd l i v : 0 <= i < zlen l ->
  word_sum (upd l i v) = word_sum l + (v - at_ 0 l i) * (if Z.even i then 256 else 1).
Proof.
  intros Hi. rewrite <- (Z2Nat.id i) at 3 by lia. unfold upd, at_. set (n := Z.to_nat i).
  assert (Hn : (n < length l)%nat) by (unfold zlen in Hi; lia). clearbody n. clear i Hi.
  revert l n Hn. fix IH 1. intros [|a [|b l]] [|[|n]] Hn; simpl in Hn; try lia.
  - simpl. rewrite !Z.shiftl_mul_pow2 by lia. lia.
  - change (<[0%nat:=v]> (a :: b :: l)) with (v :: b :: l). simpl. rewrite !be_val_2. lia.
  - change (<[1%nat:=v]> (a :: b :: l)) with (a :: v :: l). simpl. rewrite !be_val_2. lia.
  - change (<[S (S n):=v]> (a :: b :: l)) with (a :: b :: <[n:=v]> l). simpl word_sum. rewrite IH by lia.
    change (nth (S (S n)) (a :: b :: l) 0) with (nth n l 0).
    replace (Z.of_nat (S (S n))) with (Z.of_nat n + 2) by lia. rewrite Z.even_add. change (Z.even 2) with true.
    by destruct (Z.even (Z.of_nat n)); simpl; lia.
Qed.

(** A verified block with one byte changed no longer verifies. *)
Lemma checksum_detects l i v : bytes_ok l -> zlen l <= 131070 -> internet_checksum l = Ok 0 ->
  0 <= i < zlen l -> is_u8 v -> v <> at_ 0 l i ->
  exists c, internet_checksum (upd l i v) = Ok c /\ c <> 0.
Proof.
  intros Hl Hz Hc Hi Hv Hne.
  assert (Hl' : bytes_ok (upd l i v)) by (apply Forall_insert; done).
  assert (Hz' : zlen (upd l i v) <= 131070) by (rewrite zlen_upd; done).
  destruct (checksum_ok _ Hl' Hz') as [E _]. eexists. split; [exact E|]. intros H0. rewrite H0 in E.
  apply verifies_iff in Hc as [_ Hm]; [|done..]. apply verifies_iff in E as [_ Hm']; [|done..].
  rewrite word_sum_upd in Hm' by done. pose proof (bytes_ok_at l i Hl) as Hb.
  rewrite Zplus_mod, Hm, Z.add_0_l, Z.mod_mod in Hm' by lia.
  apply Z.mod_divide in Hm' as [q Hq]; [|lia].
  destruct (Z.even i); ulia.
Qed.

(** ** Round trips *)

Definition mac_ok (m : list Z) : Prop := zlen m = 6 /\ bytes_ok m.
Definition ip_ok (a : list Z) : Prop := zlen a = 4 /\ bytes_ok a.

Lemma splice_mid (pre post : list Z) o v : zlen pre = o -> splice (pre ++ [0; 0] ++ post) o (be_bytes 2 v) = pre ++ be_bytes 2 v ++ post.
Proof.
  intros <-. unfold splice, zlen. rewrite Nat2Z.id, take_app_length. f_equal. f_equal.
  rewrite drop_app. replace (length pre + length (be_bytes 2 v) - length pre)%nat with 2%nat by (pose proof (zlen_be_bytes 2 v); unfold zlen in *; lia).
  rewrite drop_ge; [done|lia].
Qed.

Lemma ip_shape a : ip_ok a -> exists a0 a1 a2 a3, a = [a0; a1; a2; a3] /\ is_u8 a0 /\ is_u8 a1 /\ is_u8 a2 /\ is_u8 a3.
Proof.
  intros [Hl Hb]. destruct a as [|a0 [|a1 [|a2 [|a3 [|? ?]]]]]; try (unfold zlen in Hl; simpl in Hl; lia).
  unfold bytes_ok in Hb. rewrite !Forall_cons in Hb. exists a0, a1, a2, a3. tauto.
Qed.

Lemma mac_shape a : mac_ok a -> exists a0 a1 a2 a3 a4 a5, a = [a0; a1; a2; a3; a4; a5].
Proof.
  intros [Hl _]. destruct a as [|a0 [|a1 [|a2 [|a3 [|a4 [|a5 [|? ?]]]]]]]; try (unfold zlen in Hl; simpl in Hl; lia).
  by exists a0, a1, a2, a3, a4, a5.
Qed.

(** The values of the enums the wire format distinguishes. *)
Definition ethertype_ok (t : EtherType) : Prop := is_u16 (ethertype_as t) /\ ethertype_from (ethertype_as t) = t.
Definition arp_op_ok (o : ArpOp) : Prop := is_u16 (arp_op_as o) /\ arp_op_from (arp_op_as o) = o.
Definition protocol_ok (p : Protocol) : Prop := is_u8 (protocol_as p) /\ protocol_from (protocol_as p) = p.
Definition icmp_type_ok (t : IcmpType) : Prop := is_u8 (icmp_type_as t) /\ icmp_type_from (icmp_type_as t) = t.

Definition ethernet_ok (h : EthernetHeader) : Prop := mac_ok (eth_dst h) /\ mac_ok (eth_src h) /\ ethertype_ok (ethertype h).
Definition ipv4_ok (h : Ipv4Header) : Prop :=
  protocol_ok (protocol h) /\ is_u8 (ttl h) /\ ip_ok (ip_src h) /\ ip_ok (ip_dst h) /\ is_u16 (identification h).
Definition arp_ok (p : ArpPacket) : Prop :=
  arp_op_ok (arp_op p) /\ mac_ok (sender_mac p) /\ ip_ok (sender_ip p) /\ mac_ok (target_mac p) /\ ip_ok (target_ip p).

(** An Ethernet frame is parsed into the header and the payload it was built from. *)
Lemma ethernet_roundtrip h p : ethernet_ok h -> ethernet_parse (ethernet_build h p) = Ok (h, p).
Proof.
  destruct h as [d s t]. intros (Hd & Hs & Ht & Et). simpl in *.
  destruct (mac_shape d Hd) as (? & ? & ? & ? & ? & ? & ->). destruct (mac_shape s Hs) as (? & ? & ? & ? & ? & ? & ->).
  unfold ethernet_build, ethernet_parse. cbn [eth_dst eth_src ethertype].
  destruct (be_word _ Ht) as (a & b & -> & E & _). cbn [app]. rewrite !zlen_cons.
  pose proof (zlen_nonneg p). case_if; [lia|]. fields. by rewrite E, Et.
Qed.

Lemma arp_roundtrip p pad : arp_ok p -> arp_parse (arp_build p ++ pad) = Ok p.
Proof.
  destruct p as [o sm si tm ti]. intros ((Ho & Eo) & H1 & H2 & H3 & H4).
  cbn [arp_op sender_mac sender_ip target_mac target_ip] in *.
  destruct (mac_shape sm H1) as (? & ? & ? & ? & ? & ? & ->). destruct (mac_shape tm H3) as (? & ? & ? & ? & ? & ? & ->).
  destruct (ip_shape si H2) as (? & ? & ? & ? & -> & _). destruct (ip_shape ti H4) as (? & ? & ? & ? & -> & _).
  unfold arp_build, arp_parse. cbn [arp_op sender_mac sender_ip target_mac target_ip].
  destruct (be_word _ Ho) as (a & b & -> & E & _). change (be_bytes 2 1) with [0; 1]. change (be_bytes 2 2048) with [8; 0].
  cbn [app]. rewrite !zlen_cons. pose proof (zlen_nonneg pad). case_if; [lia|]. fields. by rewrite E, Eo.
Qed.

(** What [build] makes: a sealed header in front of the payload. *)
Lemma ipv4_build_shape h p : ipv4_ok h -> 20 + zlen p <= 65535 ->
  exists a b c d, let t := be_bytes 2 (20 + zlen p) in let i := be_bytes 2 (identification h) in
    let hd := [69; 0] ++ t ++ i ++ [0; 0; ttl h; protocol_as (protocol h)] ++ [c; d] ++ ip_src h ++ ip_dst h in
    ipv4_build h p = Ok (hd ++ p) /\ internet_checksum hd = Ok 0 /\ bytes_ok hd /\ zlen hd = 20 /\
    t = [a; b] /\ be_val [a; b] = 20 + zlen p.
Proof.
  intros ((Hp & Ep) & Httl & [Ls Hs] & [Ld Hd] & Hi) Hz. pose proof (zlen_nonneg p).
  set (pre := [69; 0] ++ be_bytes 2 (20 + zlen p) ++ be_bytes 2 (identification h) ++ [0; 0; ttl h; protocol_as (protocol h)]).
  assert (Lp : zlen pre = 10) by (unfold pre; by rewrite !zlen_app, !zlen_be_bytes).
  assert (Hpre : bytes_ok pre).
  { unfold pre. repeat (apply bytes_ok_app || apply bytes_ok_be || apply Forall_cons_2 || apply Forall_nil_2); ulia || done. }
  destruct (checksum_seal pre (ip_src h ++ ip_dst h)) as (cs & E1 & Hcs & E2 & _);
    [by rewrite Lp|done|by apply bytes_ok_app|rewrite zlen_app; lia|].
  destruct (be_word (20 + zlen p)) as (a & b & Et & Ev & _); [ulia|].
  destruct (be_word cs Hcs) as (c & d & Ec & _ & Hc & Hd').
  exists a, b, c, d. cbv zeta.
  match goal with |- ipv4_build h p = Ok (?x ++ p) /\ _ => assert (Eh : x = pre ++ be_bytes 2 cs ++ ip_src h ++ ip_dst h) end.
  { rewrite Ec. unfold pre. by rewrite <- !app_assoc. }
  rewrite Eh. split; [|split; [done|]].
  - unfold ipv4_build. rewrite Z.mod_small by ulia. cbv zeta.
    assert (ipv4_fields h (20 + zlen p) = pre ++ [0; 0] ++ ip_src h ++ ip_dst h) as ->
      by (unfold ipv4_fields, pre; by rewrite <- !app_assoc).
    rewrite E1. cbn [obind]. by rewrite (splice_mid pre).
  - split; [|split; [|done]]; [|rewrite !zlen_app, zlen_be_bytes; lia].
    auto using bytes_ok_app, bytes_ok_be.
Qed.

(** The header comes back with the total length filled in; padding behind the packet is dropped. *)
Lemma ipv4_roundtrip h p : ipv4_ok h -> 20 + zlen p <= 65535 ->
  exists pkt, ipv4_build h p = Ok pkt /\ zlen pkt = 20 + zlen p /\
    (forall pad, ipv4_parse (pkt ++ pad) = Ok (mkIpv4 (protocol h) (ttl h) (ip_src h) (ip_dst h) (20 + zlen p) (identification h), p)) /\
    (forall pad i v, 1 <= i < 20 -> is_u8 v -> v <> at_ 0 pkt i -> ipv4_parse (upd pkt i v ++ pad) = Err BadChecksum).
Proof.
  intros Hok Hz. destruct (ipv4_build_shape h p Hok Hz) as (a & b & c & d & Hs). cbv zeta in Hs.
  set (hd := [69; 0] ++ be_bytes 2 (20 + zlen p) ++ _) in Hs.
  destruct Hs as (-> & Hcs & Hb & Lh & Et & Ev). eexists. split; [done|].
  split; [rewrite zlen_app; lia|]. split.
  - intros pad. destruct Hok as ((Hp & Ep) & _ & Hs & Hd & Hi). pose proof (zlen_nonneg p). pose proof (zlen_nonneg pad).
    assert (Hsl : slice (hd ++ p ++ pad) 0 20 = hd) by (apply slice_app_here; done).
    assert (Hpl : slice (hd ++ p ++ pad) 20 (zlen p) = p).
    { rewrite slice_app_skip by (rewrite Lh; lia). apply slice_app_here; [lia|done]. }
    assert (Hln : zlen (hd ++ p ++ pad) = 20 + zlen p + zlen pad) by (rewrite !zlen_app; lia).
    rewrite <- app_assoc. unfold ipv4_parse. rewrite Hln. case_if; [lia|]. revert Hsl Hpl Hcs.
    destruct (be_word _ Hi) as (i1 & i2 & Ei & Evi & _).
    destruct (ip_shape _ Hs) as (s0 & s1 & s2 & s3 & Es & _). destruct (ip_shape _ Hd) as (d0 & d1 & d2 & d3 & Ed & _).
    unfold hd. rewrite Et, Ei, Es, Ed. cbn [app]. intros Hsl Hpl Hcs.
    change (at_ 0 (69 :: _) 0) with 69. change (Z.shiftr 69 4) with 4. change (Z.land 69 15 * 4) with 20.
    case_if; [simplify_bool; lia|]. rewrite Hsl, Hcs. cbn [obind]. change (negb (0 =? 0)) with false. cbv iota zeta.
    change (be16 _ 2) with (be_val [a; b]). change (be16 _ 6) with (be_val [0; 0]). change (be16 _ 4) with (be_val [i1; i2]).
    rewrite be_val_2, Ev, Evi. cbn [negb orb]. rewrite Z.min_l, Z.max_l by lia.
    replace (20 + zlen p - 20) with (zlen p) by lia. rewrite Hpl. unfold at_, slice. simpl. by rewrite Ep.
  - intros pad i v Hi Hv Hne.
    destruct (checksum_detects hd i v) as (cc & Ec & Hc); [done|lia|done|lia|done| |].
    { intros ->. apply Hne. unfold at_. rewrite app_nth1; [done|]. unfold zlen in Lh. lia. }
    assert (Eu : upd (hd ++ p) i v ++ pad = upd hd i v ++ p ++ pad).
    { unfold upd. rewrite insert_app_l by (unfold zlen in Lh; lia). by rewrite <- app_assoc. }
    rewrite Eu. unfold ipv4_parse. rewrite zlen_app, zlen_upd, Lh. pose proof (zlen_nonneg (p ++ pad)). case_if; [lia|].
    assert (at_ 0 (upd hd i v ++ p ++ pad) 0 = 69) as ->.
    { unfold at_. rewrite app_nth1 by (change (Z.to_nat 0) with 0%nat; unfold upd; rewrite length_insert; unfold zlen in Lh; lia).
      change (nth _ (upd hd i v) 0) with (at_ 0 (upd hd i v) 0). by rewrite at_upd_ne by lia. }
    change (Z.shiftr 69 4) with 4. change (Z.land 69 15 * 4) with 20. case_if; [simplify_bool; lia|].
    rewrite slice_app_here by (rewrite ?zlen_upd; lia). rewrite Ec. cbn [obind]. by rewrite (proj2 (Z.eqb_neq cc 0)).
Qed.

Definition tcp_ok (t : TcpSegment) : Prop :=
  is_u16 (src_port t) /\ is_u16 (dst_port t) /\ is_u32 (seq t) /\ is_u32 (ack t) /\ 0 <= flags t < 64 /\ is_u16 (window t) /\
  bytes_ok (payload t).
Definition udp_ok (u : UdpDatagram) : Prop := is_u16 (udp_src_port u) /\ is_u16 (udp_dst_port u) /\ bytes_ok (udp_payload u).
Definition echo_ok (e : IcmpEcho) : Prop :=
  icmp_type_ok (kind e) /\ is_u16 (identifier e) /\ is_u16 (sequence e) /\ bytes_ok (echo_payload e).

Lemma be_dword v : is_u32 v -> exists a b c d, be_bytes 4 v = [a; b; c; d] /\ be_val [a; b; c; d] = v.
Proof. intros Hv. do 4 eexists. split; [reflexivity|]. apply (be_val_bytes 4). ulia. Qed.

Lemma pseudo_ok proto src dst len : is_u8 proto -> ip_ok src -> ip_ok dst -> bytes_ok (pseudo proto src dst len) /\ zlen (pseudo proto src dst len) = 12.
Proof.
  intros Hp [Ls Hs] [Ld Hd]. unfold pseudo. rewrite !zlen_app, zlen_be_bytes, Ls, Ld. split; [|done].
  apply bytes_ok_app; [done|]. apply bytes_ok_app; [done|]. apply bytes_ok_app; [|apply bytes_ok_be].
  apply Forall_cons_2; [ulia|]. by apply Forall_cons_2.
Qed.

(** A segment that verifies behind its pseudo-header does not after one of its bytes changes. *)
Lemma segment_detects ph seg i v : bytes_ok ph -> bytes_ok seg -> zlen ph + zlen seg <= 131070 ->
  internet_checksum (ph ++ seg) = Ok 0 -> 0 <= i < zlen seg -> is_u8 v -> v <> at_ 0 seg i ->
  verify (ph ++ upd seg i v) = Ok false.
Proof.
  intros Hp Hs Hz Hc Hi Hv Hne. pose proof (zlen_nonneg ph).
  destruct (checksum_detects (ph ++ seg) (zlen ph + i) v) as (c & Ec & Hc').
  { by apply bytes_ok_app. } { rewrite zlen_app; lia. } { done. } { rewrite zlen_app; lia. } { done. }
  { rewrite at_app_r; [done|lia]. }
  rewrite upd_app_r in Ec by lia. unfold verify. rewrite Ec. cbn [obind]. f_equal. by apply Z.eqb_neq.
Qed.

(** The segment [tcp_build] makes: the fields with a checksum that verifies. *)
Lemma tcp_build_shape t src dst : tcp_ok t -> ip_ok src -> ip_ok dst -> 20 + zlen (payload t) <= 65535 ->
  exists cs, let pre := be_bytes 2 (src_port t) ++ be_bytes 2 (dst_port t) ++ be_bytes 4 (seq t) ++ be_bytes 4 (ack t) ++
                   [80; flags t] ++ be_bytes 2 (window t) in
    let seg := pre ++ be_bytes 2 cs ++ [0; 0] ++ payload t in
    tcp_build t src dst = Ok seg /\ is_u16 cs /\ bytes_ok seg /\ zlen seg = 20 + zlen (payload t) /\
    internet_checksum (pseudo 6 src dst (zlen seg) ++ seg) = Ok 0.
Proof.
  intros (Hsp & Hdp & Hsq & Hak & Hfl & Hw & Hpl) Hs Hd Hz. pose proof (zlen_nonneg (payload t)).
  set (pre := be_bytes 2 (src_port t) ++ be_bytes 2 (dst_port t) ++ be_bytes 4 (seq t) ++ be_bytes 4 (ack t) ++ [80; flags t] ++ be_bytes 2 (window t)).
  assert (Lp : zlen pre = 16) by (unfold pre; by rewrite !zlen_app, !zlen_be_bytes).
  assert (Hpre : bytes_ok pre).
  { unfold pre. repeat (apply bytes_ok_app || apply bytes_ok_be || apply Forall_cons_2 || apply Forall_nil_2); ulia. }
  assert (Hpost : bytes_ok ([0; 0] ++ payload t)) by (do 2 (apply Forall_cons_2; [ulia|]); done).
  destruct (pseudo_ok 6 src dst (20 + zlen (payload t))) as [Hps Lps]; [ulia|done|done|].
  destruct (checksum_seal (pseudo 6 src dst (20 + zlen (payload t)) ++ pre) ([0; 0] ++ payload t)) as (cs & E1 & Hcs & E2 & _).
  { by rewrite zlen_app, Lps, Lp. } { by apply bytes_ok_app. } { done. } { rewrite !zlen_app, zlen_cons, zlen_cons, zlen_nil. lia. }
  assert (Ef : tcp_fields t = pre ++ [0; 0] ++ [0; 0] ++ payload t).
  { unfold tcp_fields, pre. rewrite <- !app_assoc. do 4 f_equal.
    assert (be_bytes 2 (Z.lor (Z.shiftl 5 12) (flags t)) = [80; flags t]) as ->; [|done].
    rewrite Z.lor_comm, lor_shift by lia. change (be_bytes 2 ?x) with [x / 256 mod 256; x mod 256].
    f_equal; [|f_equal]; dlia. }
  exists cs. cbv zeta. fold pre. rewrite <- !app_assoc in E1, E2.
  assert (Ls : zlen (pre ++ be_bytes 2 cs ++ [0; 0] ++ payload t) = 20 + zlen (payload t)).
  { rewrite !zlen_app, zlen_be_bytes, Lp, zlen_cons, zlen_cons, zlen_nil. lia. }
  rewrite Ls. split.
  - unfold tcp_build. rewrite Z.mod_small by ulia. cbv zeta. rewrite Ef, E1. cbn [obind]. by rewrite (splice_mid pre).
  - auto 10 using bytes_ok_app, bytes_ok_be.
Qed.

(** Any corrupted byte of the segment is noticed. *)
Definition notices {A} (parse : list Z -> outcome NetError A) (where_ : Z -> Prop) (seg : list Z) : Prop :=
  forall i v, 0 <= i < zlen seg -> where_ i -> is_u8 v -> v <> at_ 0 seg i -> parse (upd seg i v) = Err BadChecksum.

Lemma tcp_roundtrip t src dst : tcp_ok t -> ip_ok src -> ip_ok dst -> 20 + zlen (payload t) <= 65535 ->
  exists seg, tcp_build t src dst = Ok seg /\ zlen seg = 20 + zlen (payload t) /\
    parse_checked seg src dst = Ok t /\ notices (fun s => parse_checked s src dst) (fun _ => True) seg.
Proof.
  intros Ht Hs Hd Hz. pose proof (zlen_nonneg (payload t)).
  destruct (tcp_build_shape t src dst Ht Hs Hd Hz) as (cs & Hsh). cbv zeta in Hsh.
  set (seg := (be_bytes 2 (src_port t) ++ _) ++ _) in Hsh. destruct Hsh as (Eb & Hcs & Hok & Hl & Hv).
  exists seg. split; [done|]. split; [done|].
  destruct (pseudo_ok 6 src dst (zlen seg)) as [Hp Lp]; [ulia|done|done|]. split.
  - unfold parse_checked, verify_checksum. rewrite Hl. case_if; [lia|]. rewrite Z.mod_small, <- Hl by ulia.
    unfold verify. rewrite Hv. cbn [obind]. cbn [negb Z.eqb]. unfold tcp_parse. rewrite Hl. case_if; [lia|].
    destruct t as [sp dp sq ak fl w pl]. destruct Ht as (Hsp & Hdp & Hsq & Hak & Hfl & Hw & _).
    cbn [src_port dst_port Net.seq ack flags window payload] in *.
    destruct (be_word sp Hsp) as (? & ? & E1 & V1 & _). destruct (be_word dp Hdp) as (? & ? & E2 & V2 & _).
    destruct (be_dword sq Hsq) as (? & ? & ? & ? & E3 & V3). destruct (be_dword ak Hak) as (? & ? & ? & ? & E4 & V4).
    destruct (be_word w Hw) as (? & ? & E5 & V5 & _). destruct (be_word cs Hcs) as (? & ? & E6 & _).
    unfold seg. rewrite E1, E2, E3, E4, E5, E6. cbn [app]. fields. change (_ * 4) with 20. case_if; [simplify_bool; lia|].
    rewrite V1, V2, V3, V4, V5. change 63 with (Z.ones 6). rewrite Z.land_ones, Z.mod_small by lia. done.
  - intros i v Hi _ Hv8 Hne. unfold parse_checked, verify_checksum. rewrite zlen_upd, Hl. case_if; [lia|].
    rewrite Z.mod_small, <- Hl by ulia. by rewrite segment_detects by (done || lia).
Qed.

Lemma udp_build_shape u src dst : udp_ok u -> ip_ok src -> ip_ok dst -> 8 + zlen (udp_payload u) <= 65535 ->
  exists cs, let n := 8 + zlen (udp_payload u) in
    let seg := (be_bytes 2 (udp_src_port u) ++ be_bytes 2 (udp_dst_port u) ++ be_bytes 2 n) ++ be_bytes 2 cs ++ udp_payload u in
    udp_build u src dst = Ok seg /\ is_u16 cs /\ cs <> 0 /\ bytes_ok seg /\ zlen seg = n /\
    internet_checksum (pseudo 17 src dst n ++ seg) = Ok 0.
Proof.
  intros (Hsp & Hdp & Hpl) Hs Hd Hz. pose proof (zlen_nonneg (udp_payload u)). set (n := 8 + zlen (udp_payload u)).
  set (pre := be_bytes 2 (udp_src_port u) ++ be_bytes 2 (udp_dst_port u) ++ be_bytes 2 n).
  assert (Lp : zlen pre = 6) by (unfold pre; by rewrite !zlen_app, !zlen_be_bytes).
  assert (Hpre : bytes_ok pre) by (unfold pre; auto using bytes_ok_app, bytes_ok_be).
  destruct (pseudo_ok 17 src dst n) as [Hps Lps]; [ulia|done|done|].
  destruct (checksum_seal (pseudo 17 src dst n ++ pre) (udp_payload u)) as (cs0 & E1 & Hcs0 & E2 & E3).
  { by rewrite zlen_app, Lps, Lp. } { by apply bytes_ok_app. } { done. } { rewrite !zlen_app. lia. }
  rewrite <- !app_assoc in E1, E2, E3.
  exists (if cs0 =? 0 then 65535 else cs0). cbv zeta. fold n pre. split.
  { unfold udp_build. fold n. rewrite Z.mod_small by ulia. cbv zeta.
    assert (be_bytes 2 (udp_src_port u) ++ be_bytes 2 (udp_dst_port u) ++ be_bytes 2 n ++ [0; 0] ++ udp_payload u = pre ++ [0; 0] ++ udp_payload u)
      as -> by (unfold pre; by rewrite <- !app_assoc).
    rewrite E1. cbn [obind]. by rewrite (splice_mid pre). }
  rewrite !zlen_app, zlen_be_bytes.
  split; [case_if; ulia|]. split; [case_if; ulia|]. split; [auto using bytes_ok_app, bytes_ok_be|].
  split; [lia|]. case_if; auto.
Qed.

(** With a checksum present, [udp_parse] accepts exactly the datagrams that verify. *)
Lemma udp_parse_checked s src dst : 8 <= zlen s <= 65535 -> be16 s 4 = zlen s -> be16 s 6 <> 0 ->
  udp_parse s src dst = let? ok := verify (pseudo 17 src dst (zlen s) ++ s) in
    if negb ok then Err BadChecksum else Ok (mkUdp (be16 s 0) (be16 s 2) (drop 8 s)).
Proof.
  intros Hl E4 E6. unfold udp_parse. rewrite E4. case_if; [lia|]. case_if; [simplify_bool; lia|].
  rewrite (proj2 (Z.eqb_neq _ _) E6). cbn [negb]. rewrite slice_all.
  assert (slice s 8 (zlen s - 8) = drop 8 s) as ->; [|done].
  unfold slice. change (Z.to_nat 8) with 8%nat. rewrite take_ge; [done|]. rewrite length_drop. unfold zlen. lia.
Qed.

Lemma udp_roundtrip u src dst : udp_ok u -> ip_ok src -> ip_ok dst -> 8 + zlen (udp_payload u) <= 65535 ->
  exists seg, udp_build u src dst = Ok seg /\ zlen seg = 8 + zlen (udp_payload u) /\
    udp_parse seg src dst = Ok u /\ notices (fun s => udp_parse s src dst) (fun i => i < 4 \/ 8 <= i) seg.
Proof.
  intros Hu Hs Hd Hz. pose proof (zlen_nonneg (udp_payload u)).
  destruct (udp_build_shape u src dst Hu Hs Hd Hz) as (cs & Hsh). cbv zeta in Hsh.
  set (seg := (be_bytes 2 (udp_src_port u) ++ _) ++ _) in Hsh. destruct Hsh as (Eb & Hcs & Hnz & Hok & Hl & Hv).
  exists seg. split; [done|]. split; [done|].
  destruct u as [sp dp pl]. destruct Hu as (Hsp & Hdp & _). cbn [udp_src_port udp_dst_port udp_payload] in *.
  assert (F : be16 seg 0 = sp /\ be16 seg 2 = dp /\ be16 seg 4 = zlen seg /\ be16 seg 6 = cs /\ drop 8 seg = pl).
  { rewrite Hl. destruct (be_word sp Hsp) as (? & ? & E1 & V1 & _). destruct (be_word dp Hdp) as (? & ? & E2 & V2 & _).
    destruct (be_word (8 + zlen pl) ltac:(ulia)) as (? & ? & E3 & V3 & _). destruct (be_word cs Hcs) as (? & ? & E4 & V4 & _).
    unfold seg. rewrite E1, E2, E3, E4. cbn [app]. fields. rewrite V1, V2, V3, V4. done. }
  destruct F as (F0 & F2 & F4 & F6 & F8). split.
  - rewrite udp_parse_checked by (lia || congruence). unfold verify. rewrite Hl, Hv. cbn [obind negb Z.eqb]. congruence.
  - intros i v Hi Hw Hv8 Hne. unfold be16 in F4, F6.
    rewrite udp_parse_checked; rewrite ?zlen_upd; unfold be16; rewrite ?slice_upd_out by lia; [|lia|done|congruence].
    rewrite Hl. rewrite segment_detects; [done|apply pseudo_ok; [ulia|done..]|done| |done..].
    destruct (pseudo_ok 17 src dst (8 + zlen pl)) as [_ ->]; [ulia|done|done|lia].
Qed.

Lemma echo_roundtrip e : echo_ok e -> 8 + zlen (echo_payload e) <= 65535 ->
  exists seg, echo_build e = Ok seg /\ zlen seg = 8 + zlen (echo_payload e) /\
    echo_parse seg = Ok e /\ notices echo_parse (fun _ => True) seg.
Proof.
  destruct e as [k id sq pl]. intros ((Hk & Ek) & Hid & Hsq & Hpl) Hz. cbn [kind identifier sequence echo_payload] in *.
  pose proof (zlen_nonneg pl).
  destruct (checksum_seal [icmp_type_as k; 0] (be_bytes 2 id ++ be_bytes 2 sq ++ pl)) as (cs & E1 & Hcs & E2 & _).
  { done. } { by do 2 (apply Forall_cons_2; [done || ulia|]). } { auto using bytes_ok_app, bytes_ok_be. }
  { rewrite !zlen_app, !zlen_be_bytes, !zlen_cons, zlen_nil. lia. }
  set (seg := [icmp_type_as k; 0] ++ be_bytes 2 cs ++ be_bytes 2 id ++ be_bytes 2 sq ++ pl) in *.
  assert (Hl : zlen seg = 8 + zlen pl) by (unfold seg; rewrite !zlen_app, !zlen_be_bytes, !zlen_cons, zlen_nil; lia).
  assert (Hok : bytes_ok seg).
  { unfold seg. apply bytes_ok_app; [|auto using bytes_ok_app, bytes_ok_be]. by do 2 (apply Forall_cons_2; [done || ulia|]). }
  exists seg. split; [|split; [done|split]].
  - unfold echo_build. cbn [kind identifier sequence echo_payload]. cbv zeta.
    change ([icmp_type_as k; 0; 0; 0] ++ ?x) with ([icmp_type_as k; 0] ++ [0; 0] ++ x). rewrite E1. cbn [obind].
    by rewrite (splice_mid [icmp_type_as k; 0]).
  - unfold echo_parse. rewrite Hl. case_if; [lia|]. rewrite E2. cbn [obind negb Z.eqb].
    destruct (be_word cs Hcs) as (? & ? & E3 & _). destruct (be_word id Hid) as (? & ? & E4 & V4 & _).
    destruct (be_word sq Hsq) as (? & ? & E5 & V5 & _). unfold seg. rewrite E3, E4, E5. cbn [app]. fields. by rewrite Ek, V4, V5.
  - intros i v Hi _ Hv Hne. unfold echo_parse. rewrite zlen_upd, Hl. case_if; [lia|].
    destruct (checksum_detects seg i v) as (c & -> & Hc); [done|lia|done..|]. cbn [obind]. by rewrite (proj2 (Z.eqb_neq c 0)).
Qed.

Lemma icmp_error_roundtrip e original : bytes_ok original ->
  exists seg, icmp_error_build e original = Ok seg /\ icmp_error_parse seg = Ok (Some (e, slice original 0 (Z.min (zlen original) 28))).
Proof.
  intros Hb. set (orig := slice original 0 (Z.min (zlen original) 28)).
  pose proof (zlen_nonneg original). pose proof (zlen_nonneg orig).
  assert (Ho : zlen orig <= 28) by (pose proof (zlen_slice_le original 0 (Z.min (zlen original) 28)); unfold orig; lia).
  unfold icmp_error_build. destruct (type_code e) as [ty cd] eqn:Etc. cbv zeta. fold orig.
  assert (Hc : is_u8 ty /\ is_u8 cd) by (destruct e as [[]|]; injection Etc; intros; subst; ulia).
  destruct (checksum_seal [ty; cd] ([0; 0; 0; 0] ++ orig)) as (cs & E1 & Hcs & E2 & _).
  { done. } { by do 2 (apply Forall_cons_2; [apply Hc|]). }
  { do 4 (apply Forall_cons_2; [ulia|]). by apply bytes_ok_slice. } { rewrite !zlen_app, !zlen_cons, zlen_nil. lia. }
  change ([ty; cd; 0; 0; 0; 0; 0; 0] ++ orig) with ([ty; cd] ++ [0; 0] ++ [0; 0; 0; 0] ++ orig).
  rewrite E1. cbn [obind]. eexists. split; [done|]. rewrite splice_mid by done. unfold icmp_error_parse.
  rewrite !zlen_app, zlen_be_bytes, !zlen_cons, zlen_nil. case_if; [lia|]. rewrite E2. cbn [obind negb Z.eqb].
  destruct (be_word cs Hcs) as (? & ? & -> & _). cbn [app]. fields. by destruct e as [[]|]; injection Etc as <- <-.
Qed.

(** ** Delivery of a frame *)

(** The path of a received frame through the layers, as the stack's receive
    functions chain the parsers; [l4] parses the transport layer. *)
Definition receive {A} (l4 : list Z -> list Z -> list Z -> outcome NetError A) (frame : list Z) : outcome NetError (EthernetHeader * Ipv4Header * A) :=
  let? r := ethernet_parse frame in
  let '(eth, body) := r in
  let? r := ipv4_parse body in
  let '(h, seg) := r in
  let? a := l4 seg (ip_src h) (ip_dst h) in
  Ok (eth, h, a).

Definition send (eth : EthernetHeader) (h : Ipv4Header) (seg : list Z) : outcome NetError (list Z) :=
  let? pkt := ipv4_build h seg in Ok (ethernet_build eth pkt).

Definition with_length (h : Ipv4Header) (n : Z) : Ipv4Header :=
  mkIpv4 (protocol h) (ttl h) (ip_src h) (ip_dst h) n (identification h).

(** What delivery means: the frame carries [seg]; it is received as [a], whatever
    padding follows; a corrupted byte of the IP header (its first byte, which holds
    the header length, excepted) or of the part of the segment in [where_] is refused. *)
Definition delivers {A} (l4 : list Z -> list Z -> list Z -> outcome NetError A) (where_ : Z -> Prop)
    (eth : EthernetHeader) (h : Ipv4Header) (seg : list Z) (a : A) : Prop :=
  exists frame, send eth h seg = Ok frame /\ zlen frame = 34 + zlen seg /\
    (forall pad, receive l4 (frame ++ pad) = Ok (eth, with_length h (20 + zlen seg), a)) /\
    (forall pad i v, 15 <= i < zlen frame -> i < 34 \/ where_ (i - 34) -> is_u8 v -> v <> at_ 0 frame i ->
       receive l4 (upd frame i v ++ pad) = Err BadChecksum).

(** The header depends on the payload through its length only. *)
Lemma ipv4_build_app h p pkt : ipv4_build h p = Ok pkt -> exists hd, pkt = hd ++ p /\ forall q, zlen q = zlen p -> ipv4_build h q = Ok (hd ++ q).
Proof.
  unfold ipv4_build. cbv zeta. intros E.
  destruct (internet_checksum (ipv4_fields h ((20 + zlen p) mod 65536))) as [cs| | |] eqn:Ec; try done.
  cbn [obind] in E. set (hd := splice _ _ _) in E. exists hd. split; [congruence|].
  intros q ->. rewrite Ec. done.
Qed.

Lemma ethernet_pad eth pkt pad : ethernet_build eth pkt ++ pad = ethernet_build eth (pkt ++ pad).
Proof. unfold ethernet_build. by rewrite <- !app_assoc. Qed.

Lemma delivers_intro {A} (l4 : list Z -> list Z -> list Z -> outcome NetError A) where_ eth h seg a :
  ethernet_ok eth -> ipv4_ok h -> 20 + zlen seg <= 65535 -> l4 seg (ip_src h) (ip_dst h) = Ok a ->
  notices (fun s => l4 s (ip_src h) (ip_dst h)) where_ seg -> delivers l4 where_ eth h seg a.
Proof.
  intros He Hh Hz Hl4 Hn. destruct (ipv4_roundtrip h seg Hh Hz) as (pkt & Eb & Hl & Hp & Hc).
  set (pre := eth_dst eth ++ eth_src eth ++ be_bytes 2 (ethertype_as (ethertype eth))).
  assert (Ef : forall q, ethernet_build eth q = pre ++ q) by (intros q; unfold ethernet_build, pre; by rewrite <- !app_assoc).
  assert (Lp : zlen pre = 14) by (destruct He as ([] & [] & _); unfold pre; rewrite !zlen_app, zlen_be_bytes; lia).
  exists (ethernet_build eth pkt). unfold send. rewrite Eb. split; [done|]. split; [rewrite Ef, zlen_app; lia|]. split.
  - intros pad. unfold receive. rewrite ethernet_pad, ethernet_roundtrip by done. cbn [obind]. rewrite Hp. cbn [obind ip_src ip_dst].
    by rewrite Hl4.
  - intros pad i v Hi Hw Hv Hne. rewrite Ef, zlen_app in Hi.
    replace i with (zlen pre + (i - 14)) in Hne |- * by lia. rewrite Ef in *.
    rewrite at_app_r in Hne by lia. rewrite upd_app_r, <- Ef, ethernet_pad by lia.
    unfold receive. rewrite ethernet_roundtrip by done. cbn [obind].
    destruct (decide (i < 34)) as [Hlt|Hge]; [by rewrite Hc by (done || lia)|].
    replace (i - 14) with (20 + (i - 34)) in Hne |- * by lia.
    destruct (ipv4_build_app h seg pkt Eb) as (hd & -> & Hq). rewrite zlen_app in Hl.
    replace 20 with (zlen hd) in Hne |- * by lia. rewrite at_app_r in Hne by lia. rewrite upd_app_r by lia.
    destruct (ipv4_roundtrip h (upd seg (i - 34) v) Hh) as (pkt' & Eb' & _ & Hp' & _); [rewrite zlen_upd; lia|].
    rewrite Hq in Eb' by apply zlen_upd. assert (hd ++ upd seg (i - 34) v = pkt') as -> by congruence.
    rewrite Hp'. cbn [obind ip_src ip_dst]. rewrite Hn; [done|rewrite zlen_app in Hi; lia|by destruct Hw; [lia|]|done|done].
Qed.

(** C29. Whatever the stack sends it receives.  A TCP segment, a UDP datagram or an
    ICMP echo message that fits in one IPv4 packet is built, wrapped in IPv4 and
    Ethernet, and received back unchanged by the checking parsers, with any padding
    after the frame ignored.  Corrupting one byte of the IPv4 header (past its first
    byte) or of the TCP segment, of the ICMP message, or of the ports or data of the
    UDP datagram makes the receiver answer [BadChecksum]. *)
Theorem packet_delivery eth h : ethernet_ok eth -> ipv4_ok h ->
  (forall t, tcp_ok t -> zlen (payload t) <= 65495 ->
     exists seg, tcp_build t (ip_src h) (ip_dst h) = Ok seg /\ delivers parse_checked (fun _ => True) eth h seg t) /\
  (forall u, udp_ok u -> zlen (udp_payload u) <= 65507 ->
     exists seg, udp_build u (ip_src h) (ip_dst h) = Ok seg /\ delivers udp_parse (fun i => i < 4 \/ 8 <= i) eth h seg u) /\
  (forall e, echo_ok e -> zlen (echo_payload e) <= 65507 ->
     exists seg, echo_build e = Ok seg /\ delivers (fun s _ _ => echo_parse s) (fun _ => True) eth h seg e).
Proof.
  intros He Hh. pose proof Hh as (_ & _ & Hs & Hd & _). split; [|split].
  - intros t Ht Hz. destruct (tcp_roundtrip t _ _ Ht Hs Hd) as (seg & Eb & Hl & Hp & Hn); [lia|].
    exists seg. split; [done|]. apply delivers_intro; try done. lia.
  - intros u Hu Hz. destruct (udp_roundtrip u _ _ Hu Hs Hd) as (seg & Eb & Hl & Hp & Hn); [lia|].
    exists seg. split; [done|]. apply delivers_intro; try done. lia.
  - intros e Hok Hz. destruct (echo_roundtrip e Hok) as (seg & Eb & Hl & Hp & Hn); [lia|].
    exists seg. split; [done|]. apply delivers_intro; try done. lia.
Qed.

Definition demo_eth : EthernetHeader := mkEthernet [1; 2; 3; 4; 5; 6] [6; 5; 4; 3; 2; 1] Ipv4.
Definition demo_ip : Ipv4Header := mkIpv4 Tcp 64 [10; 0; 2; 15] [93; 184; 216; 34] 0 7.
Definition demo_segment : TcpSegment := mkTcp 49152 443 1000 2000 (Z.lor PSH ACK) 8192 [72; 105].

Lemma packet_delivery_witness : exists seg, tcp_build demo_segment [10; 0; 2; 15] [93; 184; 216; 34] = Ok seg /\
  delivers parse_checked (fun _ => True) demo_eth demo_ip seg demo_segment.
Proof.
  refine (proj1 (packet_delivery demo_eth demo_ip _ _) demo_segment _ _).
  - repeat split; try done; repeat (apply Forall_cons_2; [done|]); apply Forall_nil_2.
  - repeat split; try done; repeat (apply Forall_cons_2; [done|]); apply Forall_nil_2.
  - repeat split; try done; repeat (apply Forall_cons_2; [done|]); apply Forall_nil_2.
  - done.
Defined.
End Net.
