(* ===== verification/TcpOpen.v ===== *)
(** Opening TCP connections ([src/crates/euronet/src/tcpopen.rs]), limiting what a
    stranger can make the machine send ([ratelimit.rs]) and pacing what it sends
    ([tcpcc.rs]).

    The table of half-open connections is generic in its key and in the data kept
    with an entry; it is proved to implement a bounded finite map.  Times are
    ticks; random numbers are a stream of draws. *)

From stdpp Require Import gmap sorting.
From S2P Require Import Prelude Net.

Module TcpOpen.

(** ** The active side *)

Inductive SynSent := Established (irs : Z) | Refused | SendReset (sq : Z) | Ignore.

Definition syn_sent_input (iss flags sq ak : Z) : SynSent :=
  let has f := negb (Z.land flags f =? 0) in
  let ack_ok := ak =? (iss + 1) mod 2 ^ 32 in
  if has Net.ACK && negb ack_ok then if has Net.RST then Ignore else SendReset ak
  else if has Net.RST then if has Net.ACK then Refused else Ignore
  else if has Net.SYN && has Net.ACK then Established sq
  else Ignore.

Definition ROUNDS : Z := 4.
Definition NEW_IDENTITY_AT : Z := 2.
Definition wait_ticks (round : Z) : Z := Z.shiftl 100 (round mod NEW_IDENTITY_AT).
Definition new_identity (round : Z) : bool := round =? NEW_IDENTITY_AT.
Definition total_ticks : Z := foldr Z.add 0 (map wait_ticks (zrange 0 ROUNDS)).

(** The last [N] ports handed out. *)
Record RecentPorts := mkRecent {
  ring : list Z;
  next : Z;
}.

Definition recent_new (N : Z) : RecentPorts := mkRecent (zrepeat 0 N) 0.
Definition recent_contains (r : RecentPorts) (port : Z) : bool := negb (port =? 0) && existsb (Z.eqb port) (ring r).
Definition remember (r : RecentPorts) (port : Z) : RecentPorts :=
  if zlen (ring r) =? 0 then r
  else mkRecent (upd (ring r) (next r) port) ((next r + 1) mod zlen (ring r)).

(** The first draws; [draw i] is the [i]th number the generator gives. *)
Fixpoint pick_random (tries : nat) (i : Z) (draw : Z -> Z) (lo span : Z) (avoid : Z -> bool) : option Z :=
  match tries with
  | O => None
  | S tries' =>
      let p := lo + draw i mod span in
      if negb (avoid p) then Some p else pick_random tries' (i + 1) draw lo span avoid
  end.

(** The scan over all ports from [start] on. *)
Definition pick_scan (lo span start : Z) (avoid : Z -> bool) : option Z :=
  list_find (fun p => avoid p = false) (map (fun i => lo + (start + i) mod span) (zrange 0 span)) ≫= fun x => Some (snd x).

Definition pick_port (draw : Z -> Z) (lo hi : Z) (avoid : Z -> bool) : Z :=
  let span := Z.max (Z.max (hi - lo) 0) 1 in
  match pick_random 32 0 draw lo span avoid with
  | Some p => p
  | None =>
      let start := draw 32 mod span in
      match pick_scan lo span start avoid with
      | Some p => p
      | None => lo + start
      end
  end.

(** ** The passive side *)

Section queue.
Context {K T : Type} `{EqDecision K}.

Record Embryo := mkEmbryo {
  key : K;
  iss : Z;
  irs : Z;
  tries : Z;
  due_at : Z;
  data : T;
}.

Inductive SynAction := New | Retransmit | Full.

Record SynQueue := mkQueue {
  entries : list Embryo;
  cap : Z;
}.

Definition MAX_TRIES : Z := 4.

Definition queue_new (c : Z) : SynQueue := mkQueue [] c.
Definition queue_len (q : SynQueue) : Z := zlen (entries q).
Definition queue_count (pred : K -> bool) (q : SynQueue) : Z := zlen (filter (fun e => pred (key e) = true) (entries q)).
Definition position (k : K) (l : list Embryo) : option nat := fst <$> list_find (fun e => key e = k) l.
Definition get (q : SynQueue) (k : K) : option Embryo := snd <$> list_find (fun e => key e = k) (entries q).
Definition keys (q : SynQueue) : list K := map key (entries q).

Definition rto (t : Z) : Z := Z.shiftl 100 (Z.min (Z.max (t - 1) 0) 4).

(** [Vec::swap_remove] *)
Definition swap_remove (i : nat) (l : list Embryo) : list Embryo :=
  match last l with
  | Some x => take (length l - 1) (<[i := x]> l)
  | None => l
  end.

Definition M := ST SynQueue unit.

Definition set_entries (l : list Embryo) (q : SynQueue) : SynQueue := mkQueue l (cap q).

(** [make] is the sequence number and the data of a new entry. *)
Definition on_syn (k : K) (ir now : Z) (room : bool) (make : Z * T) : M SynAction :=
  let! l := sget entries in
  match list_find (fun e => key e = k) l with
  | Some (i, e) =>
      if irs e =? ir then sret Retransmit
      else
        let! d := slift (add64 now (rto 1)) in
        smodify (set_entries (<[i := mkEmbryo k (fst make) ir 1 d (snd make)]> l)) ;;!
        sret New
  | None =>
      let! c := sget cap in
      if negb room || (c <=? zlen l) then sret Full
      else
        let! d := slift (add64 now (rto 1)) in
        smodify (set_entries (l ++ [mkEmbryo k (fst make) ir 1 d (snd make)])) ;;!
        sret New
  end.

(** [e.tries.saturating_add(1)] on a [u8]. *)
Definition sent_again (k : K) (now : Z) : M unit :=
  let! l := sget entries in
  match list_find (fun e => key e = k) l with
  | None => sret tt
  | Some (i, e) =>
      let t := Z.min (tries e + 1) U8_MAX in
      let! d := slift (add64 now (rto t)) in
      smodify (set_entries (<[i := mkEmbryo (key e) (iss e) (irs e) t d (data e)]> l))
  end.

(** The common part of [on_ack], [on_rst] and [remove]. *)
Definition take_if (ok : Embryo -> bool) (k : K) : M (option Embryo) :=
  let! l := sget entries in
  match list_find (fun e => key e = k) l with
  | None => sret None
  | Some (i, e) =>
      if ok e then smodify (set_entries (swap_remove i l)) ;;! sret (Some e) else sret None
  end.

Definition on_ack (k : K) (ak : Z) : M (option Embryo) := take_if (fun e => ak =? (iss e + 1) mod 2 ^ 32) k.
Definition on_rst (k : K) (sq : Z) : M (option Embryo) := take_if (fun e => sq =? (irs e + 1) mod 2 ^ 32) k.
Definition remove (k : K) : M (option Embryo) := take_if (fun _ => true) k.

(** The loop of [due]; one round per entry. *)
Fixpoint due_loop (fuel : nat) (now : Z) (i : nat) (l : list Embryo) (again : list K) (expired : list Embryo)
  : outcome unit (list Embryo * list K * list Embryo) :=
  match l !! i with
  | None => Ok (l, again, expired)
  | Some e =>
      match fuel with
      | O => OutOfFuel
      | S fuel' =>
          if due_at e <=? now then
            if MAX_TRIES <=? tries e then due_loop fuel' now i (swap_remove i l) again (expired ++ [e])
            else due_loop fuel' now (S i) l (again ++ [key e]) expired
          else due_loop fuel' now (S i) l again expired
      end
  end.

Definition due (now : Z) : M (list K * list Embryo) :=
  let! l := sget entries in
  let! r := slift (due_loop (length l) now 0 l [] []) in
  let '(l', again, expired) := r in
  smodify (set_entries l') ;;!
  sret (again, expired).
(** The timers of the kernel's [step]: the SYN-ACKs due again are sent and counted. *)
Definition step_timers (now : Z) : M (list Embryo) :=
  let! r := due now in
  sfor (fst r) (fun k => sent_again k now) ;;!
  sret (snd r).
End queue.
Arguments Embryo : clear implicits.
Arguments SynQueue : clear implicits.

(** ** Rate limiting *)

Record TokenBucket := mkBucket {
  capacity : Z;
  refill_per_sec : Z;
  tokens : Z;
  last_ticks : Z;
  ticks_per_sec : Z;
}.

Definition SCALE : Z := 1000.

Definition bucket_new (c r t : Z) : TokenBucket := mkBucket c r (c * SCALE) 0 (if t =? 0 then 1 else t).

Definition refill (now : Z) (b : TokenBucket) : outcome unit TokenBucket :=
  if now <=? last_ticks b then
    Ok (if last_ticks b =? 0 then mkBucket (capacity b) (refill_per_sec b) (tokens b) now (ticks_per_sec b) else b)
  else
    let elapsed := now - last_ticks b in
    let add := (elapsed * refill_per_sec b * SCALE / ticks_per_sec b) mod 2 ^ 64 in
    let? t := add64 (tokens b) add in
    Ok (mkBucket (capacity b) (refill_per_sec b) (Z.min t (capacity b * SCALE)) now (ticks_per_sec b)).

Definition allow (now : Z) : ST TokenBucket unit bool := fun b =>
  match refill now b with
  | Ok b' =>
      if SCALE <=? tokens b' then
        (Ok true, mkBucket (capacity b') (refill_per_sec b') (tokens b' - SCALE) (last_ticks b') (ticks_per_sec b'))
      else (Ok false, b')
  | Err e => (Err e, b)
  | Panic => (Panic, b)
  | OutOfFuel => (OutOfFuel, b)
  end.

(** ** Round-trip times and the congestion window *)

Definition MIN_RTO : Z := 1000.
Definition MAX_RTO : Z := 60000.
Definition INIT_RTO : Z := 1000.
Definition I64_MAX : Z := 9223372036854775807.

Record RttEstimator := mkRtt {
  srtt : Z;
  rttvar : Z;
  rtt_rto : Z;
}.

Definition clamp (v lo hi : Z) : Z := if v <? lo then lo else if hi <? v then hi else v.

Definition rtt_new : RttEstimator := mkRtt (-1) 0 INIT_RTO.
Definition rto_ms (e : RttEstimator) : Z := clamp (rtt_rto e) MIN_RTO MAX_RTO.

(** The checked [i64] arithmetic can overflow in [4 * rttvar] and in the sum only. *)
Definition on_measurement (r : Z) (e : RttEstimator) : outcome unit RttEstimator :=
  let r := Z.max r 1 in
  let '(s, v) :=
    if srtt e <? 0 then (r, Z.quot r 2)
    else (srtt e + Z.shiftr (r - srtt e) 3, rttvar e + Z.shiftr (Z.abs (srtt e - r) - rttvar e) 2) in
  if I64_MAX <? 4 * v then Panic
  else if I64_MAX <? s + Z.max (4 * v) 1 then Panic
  else Ok (mkRtt s v (clamp (s + Z.max (4 * v) 1) MIN_RTO MAX_RTO)).

Definition rtt_on_timeout (e : RttEstimator) : RttEstimator := mkRtt (srtt e) (rttvar e) (Z.min (rtt_rto e * 2) MAX_RTO).

Record RenoCc := mkReno {
  mss : Z;
  cwnd : Z;
  ssthresh : Z;
}.

Definition saturating_add32 (a b : Z) : Z := Z.min (a + b) U32_MAX.

Definition reno_new (m : Z) : RenoCc := let m := Z.max m 1 in mkReno m m U32_MAX.
Definition in_slow_start (c : RenoCc) : bool := cwnd c <? ssthresh c.

Definition reno_on_ack (c : RenoCc) : RenoCc :=
  if in_slow_start c then mkReno (mss c) (saturating_add32 (cwnd c) (mss c)) (ssthresh c)
  else
    let inc := Z.max (mss c * mss c / Z.max (cwnd c) 1) 1 mod 2 ^ 32 in
    mkReno (mss c) (saturating_add32 (cwnd c) inc) (ssthresh c).

(** [2 * self.mss] is a checked [u32] product. *)
Definition reno_on_timeout (flight : Z) (c : RenoCc) : outcome unit RenoCc :=
  if U32_MAX <? 2 * mss c then Panic
  else Ok (mkReno (mss c) (mss c) (Z.max (flight / 2) (2 * mss c))).

Definition on_triple_dup_ack (flight : Z) (c : RenoCc) : outcome unit RenoCc :=
  if U32_MAX <? 2 * mss c then Panic
  else
    let s := Z.max (flight / 2) (2 * mss c) in
    Ok (mkReno (mss c) s s).

(** ** The table as a finite map *)

Section table.
Context {K T : Type} `{Countable K}.
Implicit Types (e : Embryo K T) (l : list (Embryo K T)) (k : K) (q : SynQueue K T).

Definition to_map l : gmap K (Embryo K T) := list_to_map ((fun e => (key e, e)) <$> l).
Arguments to_map : simpl never.
Definition distinct l : Prop := NoDup (key <$> l).

Definition is_due (now : Z) e : bool := due_at e <=? now.
Definition given_up (now : Z) e : bool := is_due now e && (MAX_TRIES <=? tries e).
Definition wants_again (now : Z) e : bool := is_due now e && negb (MAX_TRIES <=? tries e).

Inductive op :=
  | OSyn (k : K) (ir now : Z) (room : bool) (make : Z * T)
  | OSent (k : K) (now : Z)
  | OAck (k : K) (ak : Z)
  | ORst (k : K) (sq : Z)
  | ORemove (k : K)
  | ODue (now : Z).

Inductive answer :=
  | AAction (a : SynAction)
  | AUnit
  | AEmbryo (e : option (Embryo K T))
  | ADue (again : list K) (expired : list (Embryo K T)).

Definition run_op (o : op) : ST (SynQueue K T) unit answer :=
  match o with
  | OSyn k ir now room make => let! a := on_syn k ir now room make in sret (AAction a)
  | OSent k now => sent_again k now ;;! sret AUnit
  | OAck k ak => let! r := on_ack k ak in sret (AEmbryo r)
  | ORst k sq => let! r := on_rst k sq in sret (AEmbryo r)
  | ORemove k => let! r := remove k in sret (AEmbryo r)
  | ODue now => let! r := due now in sret (ADue (fst r) (snd r))
  end.

Definition fresh k (ir now : Z) (make : Z * T) : Embryo K T :=
  mkEmbryo k (fst make) ir 1 (now + 100) (snd make).

Definition bumped (now : Z) e : Embryo K T :=
  let t := Z.min (tries e + 1) U8_MAX in
  mkEmbryo (key e) (iss e) (irs e) t (now + rto t) (data e).

(** What each operation does to a bounded map of half-open connections. *)
Definition spec_take (ok : Embryo K T -> bool) k (m : gmap K (Embryo K T)) : option (Embryo K T) * gmap K (Embryo K T) :=
  match m !! k with
  | Some e => if ok e then (Some e, base.delete k m) else (None, m)
  | None => (None, m)
  end.

Definition spec (c : Z) (m : gmap K (Embryo K T)) (o : op) (a : answer) (m' : gmap K (Embryo K T)) : Prop :=
  match o with
  | OSyn k ir now room make =>
      match m !! k with
      | Some e =>
          if irs e =? ir then a = AAction Retransmit /\ m' = m
          else a = AAction New /\ m' = <[k := fresh k ir now make]> m
      | None =>
          if room && (Z.of_nat (size m) <? c) then a = AAction New /\ m' = <[k := fresh k ir now make]> m
          else a = AAction Full /\ m' = m
      end
  | OSent k now => a = AUnit /\ m' = match m !! k with Some e => <[k := bumped now e]> m | None => m end
  | OAck k ak => (a, m') = let '(r, m1) := spec_take (fun e => ak =? (iss e + 1) mod 2 ^ 32) k m in (AEmbryo r, m1)
  | ORst k sq => (a, m') = let '(r, m1) := spec_take (fun e => sq =? (irs e + 1) mod 2 ^ 32) k m in (AEmbryo r, m1)
  | ORemove k => (a, m') = let '(r, m1) := spec_take (fun _ => true) k m in (AEmbryo r, m1)
  | ODue now =>
      exists again expired,
        a = ADue again expired /\
        m' = filter (fun p => given_up now (snd p) = false) m /\
        NoDup again /\ (forall k, k ∈ again <-> exists e, m !! k = Some e /\ wants_again now e = true) /\
        NoDup expired /\ (forall e, e ∈ expired <-> m !! key e = Some e /\ given_up now e = true)
  end.

Definition op_in_time (o : op) : Prop :=
  match o with
  | OSyn _ _ now _ _ | OSent _ now => 0 <= now <= U64_MAX - 1600
  | _ => True
  end.

(** *** Lists with distinct keys *)

Lemma to_map_spec l k e : distinct l -> to_map l !! k = Some e <-> e ∈ l /\ key e = k.
Proof.
  intros Hd. unfold to_map. rewrite <- elem_of_list_to_map.
  - rewrite list_elem_of_fmap. naive_solver.
  - rewrite <- list_fmap_compose. exact Hd.
Qed.

Lemma to_map_none l k : distinct l -> to_map l !! k = None <-> (forall e, e ∈ l -> key e <> k).
Proof.
  intros Hd. rewrite eq_None_not_Some. split.
  - intros Hn e He Hk. apply Hn. exists e. by apply to_map_spec.
  - intros Hn [e He]. apply to_map_spec in He as [He Hk]; [|done]. by eapply Hn.
Qed.

Lemma distinct_perm l l' : l ≡ₚ l' -> distinct l -> distinct l'.
Proof. unfold distinct. intros Hp. by rewrite Hp. Qed.

Lemma to_map_perm l l' : l ≡ₚ l' -> distinct l -> to_map l = to_map l'.
Proof.
  intros Hp Hd. apply list_to_map_proper; [|by rewrite Hp].
  rewrite <- list_fmap_compose. exact Hd.
Qed.

Lemma distinct_key l e e' : distinct l -> e ∈ l -> e' ∈ l -> key e = key e' -> e = e'.
Proof.
  intros Hd He He' Hk.
  assert (to_map l !! key e = Some e) as H1 by by apply to_map_spec.
  assert (to_map l !! key e = Some e') as H2 by by apply to_map_spec.
  congruence.
Qed.

Lemma size_to_map l : distinct l -> size (to_map l) = length l.
Proof.
  intros Hd. unfold to_map. rewrite map_size_list_to_map, length_fmap; [done|].
  rewrite <- list_fmap_compose. exact Hd.
Qed.

Lemma find_split k l i e :
  list_find (fun e => key e = k) l = Some (i, e) ->
  exists l1 l2, l = l1 ++ e :: l2 /\ i = length l1 /\ key e = k.
Proof.
  intros (Hi & Hk & _)%list_find_Some.
  destruct (list_elem_of_split_length _ _ _ Hi) as (l1 & l2 & -> & ->). eauto.
Qed.

Lemma find_none k l : distinct l -> list_find (fun e => key e = k) l = None -> to_map l !! k = None.
Proof. intros Hd Hn%list_find_None. apply to_map_none; [done|]. by apply Forall_forall. Qed.

Lemma get_to_map k q : distinct (entries q) -> get q k = to_map (entries q) !! k.
Proof.
  intros Hd. unfold get. destruct (list_find _ _) as [[i e]|] eqn:Hf; cbn.
  - symmetry. apply to_map_spec; [done|]. apply list_find_Some in Hf as (Hi & Hk & _).
    split; [by eapply list_elem_of_lookup_2|done].
  - symmetry. by apply find_none.
Qed.

Lemma to_map_middle k l1 e l2 :
  distinct (l1 ++ e :: l2) -> key e = k -> to_map (l1 ++ e :: l2) = <[k := e]> (to_map (l1 ++ l2)).
Proof.
  intros Hd <-. rewrite (to_map_perm _ (e :: l1 ++ l2)); [done| |done].
  symmetry. apply Permutation_middle.
Qed.

Lemma distinct_middle l1 e l2 :
  distinct (l1 ++ e :: l2) <-> to_map (l1 ++ l2) !! key e = None /\ distinct (l1 ++ l2).
Proof.
  unfold distinct. rewrite <- Permutation_middle, fmap_cons, NoDup_cons. split; intros [Hn Hd]; split; auto.
  - apply to_map_none; [done|]. intros e' He' Hk. apply Hn. rewrite <- Hk. by apply list_elem_of_fmap_2.
  - intros (e' & Hk & He')%list_elem_of_fmap. by eapply (proj1 (to_map_none _ _ Hd) Hn e').
Qed.

Lemma swap_remove_prefix l1 e l2 : exists s, swap_remove (length l1) (l1 ++ e :: l2) = l1 ++ s /\ s ≡ₚ l2.
Proof.
  unfold swap_remove. destruct l2 as [|x l3 _] using rev_ind.
  - exists []. rewrite last_snoc, insert_app_r_alt, Nat.sub_diag by lia. cbn [insert list_insert].
    rewrite take_app_length', app_nil_r; [done|]. rewrite length_app. cbn. lia.
  - exists (x :: l3). rewrite app_comm_cons, app_assoc, last_snoc, <- app_assoc, insert_app_r_alt, Nat.sub_diag by lia.
    cbn [app insert list_insert].
    replace (l1 ++ x :: l3 ++ [x]) with ((l1 ++ x :: l3) ++ [x]) by by rewrite <- app_assoc.
    rewrite take_app_length'; [|rewrite !length_app; cbn [length]; rewrite ?length_app; cbn [length]; lia].
    split; [done|]. by rewrite Permutation_cons_append.
Qed.

Lemma swap_remove_middle l1 e l2 : swap_remove (length l1) (l1 ++ e :: l2) ≡ₚ l1 ++ l2.
Proof. destruct (swap_remove_prefix l1 e l2) as (s & -> & Hs). by rewrite Hs. Qed.

(** *** Each operation *)

Lemma rto_bounds (t : Z) : 100 <= rto t <= 1600.
Proof.
  unfold rto. set (x := Z.min _ _).
  assert (x = 0 \/ x = 1 \/ x = 2 \/ x = 3 \/ x = 4) as Hx by lia. clearbody x.
  by destruct Hx as [-> | [-> | [-> | [-> | ->]]]].
Qed.

Lemma add64_rto (now t : Z) : 0 <= now <= U64_MAX - 1600 -> add64 (E := unit) now (rto t) = Ok (now + rto t).
Proof. intros. unfold add64. pose proof (rto_bounds t). case_if; [done|lia]. Qed.

Lemma insert_middle l1 e l2 e' : <[length l1 := e']> (l1 ++ e :: l2) = l1 ++ e' :: l2.
Proof. by rewrite insert_app_r_alt, Nat.sub_diag by lia. Qed.

(** Replacing an entry under the same key. *)
Lemma replace_middle l1 e l2 e' k :
  distinct (l1 ++ e :: l2) -> key e = k -> key e' = k ->
  distinct (l1 ++ e' :: l2) /\ to_map (l1 ++ e' :: l2) = <[k := e']> (to_map (l1 ++ e :: l2)).
Proof.
  intros Hd <- Hk. pose proof (proj1 (distinct_middle _ _ _) Hd) as [Hn Hd'].
  assert (distinct (l1 ++ e' :: l2)) as Hd2 by (apply distinct_middle; by rewrite Hk).
  split; [done|]. rewrite (to_map_middle (key e) l1 e') by done.
  by rewrite (to_map_middle (key e) l1 e), insert_insert_eq by done.
Qed.

Lemma lookup_middle k l1 e l2 : distinct (l1 ++ e :: l2) -> key e = k -> to_map (l1 ++ e :: l2) !! k = Some e.
Proof. intros. apply to_map_spec; [done|]. split; [set_solver|done]. Qed.

Definition refines_at (o : op) q : Prop :=
  exists a q', run_op o q = (Ok a, q') /\ distinct (entries q') /\ cap q' = cap q /\
    spec (cap q) (to_map (entries q)) o a (to_map (entries q')).

Lemma on_syn_refines k ir now room make q :
  distinct (entries q) -> 0 <= now <= U64_MAX - 1600 -> refines_at (OSyn k ir now room make) q.
Proof.
  intros Hd Hnow. unfold refines_at. cbn [run_op spec]. unfold on_syn, sbind, sget, sgets. cbn.
  destruct (list_find _ (entries q)) as [[i e]|] eqn:Hf.
  - destruct (find_split _ _ _ _ Hf) as (l1 & l2 & Hl & -> & Hk). rewrite Hl in *.
    rewrite (lookup_middle k) by done. case_if; cbn.
    + eexists _, q. rewrite Hl. done.
    + unfold slift. rewrite add64_rto by done. cbn. eexists _, _. split; [done|]. cbn.
      rewrite insert_middle.
      destruct (replace_middle l1 e l2 (fresh k ir now make) k Hd Hk eq_refl) as [Hd' Hm]. done.
  - pose proof (find_none _ _ Hd Hf) as Hn. rewrite Hn, size_to_map by done. fold (zlen (entries q)).
    rewrite Z.leb_antisym, <- negb_andb. destruct (room && _); cbn.
    + unfold slift. rewrite add64_rto by done. cbn. eexists _, _. split; [done|]. cbn.
      change (mkEmbryo _ _ _ _ _ _) with (fresh k ir now make).
      assert (distinct (entries q ++ [fresh k ir now make])) as Hd'
        by (apply distinct_middle; by rewrite app_nil_r).
      split; [done|]. split; [done|]. split; [done|]. rewrite (to_map_middle k), app_nil_r by done. done.
    + by eexists _, q.
Qed.

Lemma sent_again_run k now q :
  distinct (entries q) -> 0 <= now <= U64_MAX - 1600 ->
  exists q', sent_again k now q = (Ok tt, q') /\ distinct (entries q') /\ cap q' = cap q /\
    to_map (entries q') =
      match to_map (entries q) !! k with Some e => <[k := bumped now e]> (to_map (entries q)) | None => to_map (entries q) end.
Proof.
  intros Hd Hnow. unfold sent_again, sbind, sget, sgets.
  destruct (list_find _ (entries q)) as [[i e]|] eqn:Hf.
  - destruct (find_split _ _ _ _ Hf) as (l1 & l2 & Hl & -> & Hk). rewrite Hl in *.
    unfold slift. rewrite add64_rto by done. cbn. eexists. split; [done|]. cbn.
    rewrite insert_middle, (lookup_middle k) by done.
    destruct (replace_middle l1 e l2 (bumped now e) k Hd Hk Hk) as [Hd' Hm]. done.
  - exists q. by rewrite (find_none _ _ Hd Hf).
Qed.

Lemma take_if_run ok k q :
  distinct (entries q) ->
  exists q', take_if ok k q = (Ok (fst (spec_take ok k (to_map (entries q)))), q') /\
    distinct (entries q') /\ cap q' = cap q /\ to_map (entries q') = snd (spec_take ok k (to_map (entries q))).
Proof.
  intros Hd. unfold take_if, spec_take, sbind, sget, sgets.
  destruct (list_find _ (entries q)) as [[i e]|] eqn:Hf.
  - destruct (find_split _ _ _ _ Hf) as (l1 & l2 & Hl & -> & Hk). rewrite Hl in *.
    rewrite (lookup_middle k) by done. destruct (ok e); cbn; [|by exists q; rewrite Hl].
    eexists. split; [done|]. cbn.
    pose proof (swap_remove_middle l1 e l2) as Hp. pose proof (proj1 (distinct_middle _ _ _) Hd) as [Hn Hd'].
    assert (distinct (swap_remove (length l1) (l1 ++ e :: l2))) as Hd2 by by eapply distinct_perm.
    split; [done|]. split; [done|]. rewrite (to_map_perm _ _ Hp), (to_map_middle k l1 e l2), delete_insert_id by (done || by subst k).
    done.
  - exists q. by rewrite (find_none _ _ Hd Hf).
Qed.

(** The loop of [due] from a position on: the part before it stays. *)
Lemma due_loop_run fuel now l1 l2 again expired :
  (length l2 <= fuel)%nat ->
  exists l' a x, due_loop fuel now (length l1) (l1 ++ l2) again expired = Ok (l', again ++ a, expired ++ x) /\
    l' ≡ₚ l1 ++ filter (fun e => given_up now e = false) l2 /\
    a ≡ₚ key <$> filter (fun e => wants_again now e = true) l2 /\
    x ≡ₚ filter (fun e => given_up now e = true) l2.
Proof.
  revert l1 l2 again expired. induction fuel as [|fuel IH]; intros l1 [|e l2] again expired Hfuel; cbn in Hfuel; try lia.
  1,2: cbn; rewrite app_nil_r, lookup_ge_None_2 by lia; eexists _, [], []; by rewrite !app_nil_r.
  cbn [due_loop]. rewrite list_lookup_middle by done.
  assert (forall l again' expired', due_loop fuel now (S (length l1)) (l1 ++ e :: l) again' expired' =
    due_loop fuel now (length (l1 ++ [e])) ((l1 ++ [e]) ++ l) again' expired') as Hnext.
  { intros. rewrite length_app, <- app_assoc. cbn. by rewrite Nat.add_1_r. }
  destruct (due_at e <=? now) eqn:Hdue; [destruct (MAX_TRIES <=? tries e) eqn:Htr|].
  all: assert (given_up now e = (due_at e <=? now) && (MAX_TRIES <=? tries e)) as Hg by done.
  all: assert (wants_again now e = (due_at e <=? now) && negb (MAX_TRIES <=? tries e)) as Hw by done.
  all: rewrite Hdue, ?Htr in Hg; rewrite Hdue, ?Htr in Hw; rewrite !filter_cons, Hg, Hw; cbn.
  - destruct (swap_remove_prefix l1 e l2) as (s & -> & Hs).
    destruct (IH l1 s again (expired ++ [e])) as (l' & a & x & Hrun & Hl & Ha & Hx); [rewrite Hs; lia|].
    exists l', a, (e :: x). rewrite Hs in Hl, Ha, Hx. rewrite Hrun, <- app_assoc. split; [done|]. split; [done|]. split; [done|]. by apply Permutation_skip.
  - destruct (IH (l1 ++ [e]) l2 (again ++ [key e]) expired) as (l' & a & x & Hrun & Hl & Ha & Hx); [lia|].
    exists l', (key e :: a), x. rewrite Hnext, Hrun, <- app_assoc. rewrite <- app_assoc in Hl. split; [done|]. split; [done|]. split; [|done]. by apply Permutation_skip.
  - destruct (IH (l1 ++ [e]) l2 again expired) as (l' & a & x & Hrun & Hl & Ha & Hx); [lia|].
    exists l', a, x. rewrite Hnext, Hrun. by rewrite <- app_assoc in Hl.
Qed.

Lemma distinct_filter (P : Embryo K T -> Prop) `{forall e, Decision (P e)} l : distinct l -> distinct (filter P l).
Proof.
  unfold distinct. induction l as [|e l IH]; [done|]. rewrite fmap_cons, NoDup_cons. intros [Hn Hd].
  rewrite filter_cons. case_decide; [|auto]. rewrite fmap_cons, NoDup_cons. split; [|auto].
  intros (e' & Hk & [_ He']%list_elem_of_filter)%list_elem_of_fmap. apply Hn. rewrite Hk. by apply list_elem_of_fmap_2.
Qed.

Lemma due_run now q :
  distinct (entries q) ->
  exists again expired q', due now q = (Ok (again, expired), q') /\
    distinct (entries q') /\ cap q' = cap q /\
    entries q' ≡ₚ filter (fun e => given_up now e = false) (entries q) /\
    again ≡ₚ key <$> filter (fun e => wants_again now e = true) (entries q) /\
    expired ≡ₚ filter (fun e => given_up now e = true) (entries q).
Proof.
  intros Hd. unfold due, sbind, sget, sgets, slift.
  destruct (due_loop_run (length (entries q)) now [] (entries q) [] []) as (l' & a & x & Hrun & Hl & Ha & Hx); [done|].
  cbn [app length] in Hrun. rewrite Hrun. cbn. eexists _, _, _. split; [done|]. cbn. split; [|done].
  eapply distinct_perm; [symmetry; exact Hl|]. by apply distinct_filter.
Qed.

Lemma due_map now q :
  distinct (entries q) ->
  exists again expired q', due now q = (Ok (again, expired), q') /\
    distinct (entries q') /\ cap q' = cap q /\
    to_map (entries q') = filter (fun p => given_up now (snd p) = false) (to_map (entries q)) /\
    NoDup again /\ (forall k, k ∈ again <-> exists e, to_map (entries q) !! k = Some e /\ wants_again now e = true) /\
    NoDup expired /\ (forall e, e ∈ expired <-> to_map (entries q) !! key e = Some e /\ given_up now e = true).
Proof.
  intros Hd. destruct (due_run now q Hd) as (again & expired & q' & Hrun & Hd' & Hc & Hl & Ha & Hx).
  exists again, expired, q'. do 3 (split; [done|]).
  assert (forall e k, to_map (entries q) !! k = Some e <-> e ∈ entries q /\ key e = k) as Hm
    by (intros; by apply to_map_spec).
  repeat split.
  - apply map_eq. intros k. apply option_eq. intros e. rewrite to_map_spec, map_lookup_filter_Some, Hm by done.
    rewrite Hl, list_elem_of_filter. naive_solver.
  - rewrite Ha. by apply distinct_filter.
  - rewrite Ha. intros (e & -> & [Hw He]%list_elem_of_filter)%list_elem_of_fmap. exists e. by rewrite Hm.
  - intros (e & [He <-]%Hm & Hw). rewrite Ha. apply list_elem_of_fmap_2, list_elem_of_filter. done.
  - rewrite Hx. eapply NoDup_fmap_1, (distinct_filter (fun e => given_up now e = true)), Hd.
  - rewrite Hx in H0. apply list_elem_of_filter in H0 as [_ He]. by apply Hm.
  - rewrite Hx in H0. by apply list_elem_of_filter in H0 as [? _].
  - intros [[He _]%Hm Hg]. rewrite Hx. by apply list_elem_of_filter.
Qed.

Lemma due_refines now q : distinct (entries q) -> refines_at (ODue now) q.
Proof.
  intros Hd. destruct (due_map now q Hd) as (again & expired & q' & Hrun & Hd' & Hc & Hspec).
  unfold refines_at. cbn [run_op spec]. eexists _, q'.
  rewrite (sbind_ok _ _ _ _ _ Hrun). do 3 (split; [done|]). by exists again, expired.
Qed.

Lemma take_if_refines ok k q (o : op) :
  distinct (entries q) ->
  run_op o q = sbind (take_if ok k) (fun r => sret (AEmbryo r)) q ->
  (forall c m a m', spec c m o a m' <-> (a, m') = let '(r, m1) := spec_take ok k m in (AEmbryo r, m1)) ->
  refines_at o q.
Proof.
  intros Hd Hrun Hspec. destruct (take_if_run ok k q Hd) as (q' & Ht & Hd' & Hc & Hm).
  eexists _, q'. rewrite Hrun, (sbind_ok _ _ _ _ _ Ht). do 3 (split; [done|]).
  apply Hspec. rewrite Hm. by destruct (spec_take ok k _).
Qed.

Lemma run_op_refines o q : distinct (entries q) -> op_in_time o -> refines_at o q.
Proof.
  intros Hd Ho. destruct o; cbn in Ho.
  - by apply on_syn_refines.
  - destruct (sent_again_run k now q Hd Ho) as (q' & Hrun & Hd' & Hc & Hm).
    eexists _, q'. cbn [run_op spec]. by rewrite (sbind_ok _ _ _ _ _ Hrun).
  - by eapply take_if_refines.
  - by eapply take_if_refines.
  - by eapply take_if_refines.
  - by apply due_refines.
Qed.

(** *** Sequences of operations *)

Fixpoint run_ops (os : list op) : ST (SynQueue K T) unit (list answer) :=
  match os with
  | [] => sret []
  | o :: os' => let! a := run_op o in let! r := run_ops os' in sret (a :: r)
  end.

Inductive spec_run (c : Z) : gmap K (Embryo K T) -> list op -> list answer -> gmap K (Embryo K T) -> Prop :=
  | spec_nil m : spec_run c m [] [] m
  | spec_cons m o a m1 os r m2 : spec c m o a m1 -> spec_run c m1 os r m2 -> spec_run c m (o :: os) (a :: r) m2.

Lemma size_filter_le (P : K * Embryo K T -> Prop) `{forall p, Decision (P p)} (m : gmap K (Embryo K T)) : (size (filter P m) <= size m)%nat.
Proof. apply map_subseteq_size, map_filter_subseteq. Qed.

Lemma spec_take_size ok k (m : gmap K (Embryo K T)) : (size (snd (spec_take ok k m)) <= size m)%nat.
Proof.
  unfold spec_take. destruct (m !! k) as [e|] eqn:Hk; [|done]. destruct (ok e); [|done]. cbn.
  rewrite map_size_delete, Hk. cbn. lia.
Qed.

Lemma spec_bounded c m o a m' : spec c m o a m' -> Z.of_nat (size m) <= c -> Z.of_nat (size m') <= c.
Proof.
  intros Hs Hm. destruct o; cbn in Hs.
  3-5: match type of Hs with context [spec_take ?ok ?k ?m] => pose proof (spec_take_size ok k m); destruct (spec_take ok k m) end;
    simplify_eq/=; lia.
  - destruct (m !! k) as [e|] eqn:Hk.
    + case_in Hs; destruct Hs as [_ ->]; [done|]. rewrite map_size_insert, Hk. done.
    + case_in Hs; destruct Hs as [_ ->]; [|done]. rewrite map_size_insert, Hk. cbn. lia.
  - destruct Hs as [_ ->]. destruct (m !! k) eqn:Hk; [|done]. by rewrite map_size_insert, Hk.
  - destruct Hs as (again & expired & _ & -> & _).
    pose proof (size_filter_le (fun p => given_up now p.2 = false) m). lia.
Qed.

Lemma run_ops_refines os q :
  distinct (entries q) -> Forall op_in_time os -> queue_len q <= cap q ->
  exists r q', run_ops os q = (Ok r, q') /\ distinct (entries q') /\ cap q' = cap q /\ queue_len q' <= cap q /\
    spec_run (cap q) (to_map (entries q)) os r (to_map (entries q')).
Proof.
  intros Hd Hos. revert q Hd. induction Hos as [|o os Ho _ IH]; intros q Hd Hlen.
  { exists [], q. do 4 (split; [done|]). apply spec_nil. }
  destruct (run_op_refines o q Hd Ho) as (a & q1 & Hrun & Hd1 & Hc1 & Hs).
  assert (queue_len q1 <= cap q) as Hl1.
  { unfold queue_len, zlen. rewrite <- (size_to_map (entries q1)) by done. eapply spec_bounded; [exact Hs|].
    by rewrite size_to_map. }
  destruct (IH q1 Hd1) as (r & q' & Hrun' & Hd' & Hc' & Hlen' & Hs'); [by rewrite Hc1|].
  exists (a :: r), q'. cbn [run_ops]. rewrite (sbind_ok _ _ _ _ _ Hrun), (sbind_ok _ _ _ _ _ Hrun').
  rewrite Hc1 in *. repeat split; try done. by eapply spec_cons.
Qed.

(** *** Entries that are left alone are given up *)

Definition op_time (o : op) : Z :=
  match o with
  | OSyn _ _ now _ _ | OSent _ now => now
  | _ => 0
  end.

(** At least [n] SYN-ACKs sent for every entry, and every timer due by [t]. *)
Definition aged (n t : Z) (m : gmap K (Embryo K T)) : Prop :=
  map_Forall (fun _ e => n <= tries e <= U8_MAX /\ due_at e <= t) m.

(** The state after a pass at time [s]: an entry that is not due by [t] has been sent
    once more than [n] times. *)
Definition waiting (n t s : Z) (m : gmap K (Embryo K T)) : Prop :=
  map_Forall (fun _ e => n <= tries e /\ due_at e <= s + 1600 /\ (due_at e <= t \/ n < tries e /\ n < MAX_TRIES)) m.

(** Times from [t] on, each at least 1600 ticks after the one before. *)
Fixpoint spaced (t : Z) (ms : list Z) : Prop :=
  match ms with
  | [] => True
  | m :: ms' => t <= m /\ spaced (m + 1600) ms'
  end.

Lemma spec_take_aged n t ok k m : aged n t m -> aged n t (snd (spec_take ok k m)).
Proof.
  intros Hm. unfold spec_take. destruct (m !! k) as [e|]; [|done]. destruct (ok e); [|done].
  by apply map_Forall_delete.
Qed.

Lemma bumped_aged n t now e :
  n <= tries e <= U8_MAX -> n < U8_MAX -> now + 1600 <= t ->
  n + 1 <= tries (bumped now e) <= U8_MAX /\ due_at (bumped now e) <= t.
Proof. intros. cbn. pose proof (rto_bounds (Z.min (tries e + 1) U8_MAX)). ulia. Qed.

Lemma spec_aged c t m o a m' :
  spec c m o a m' -> op_time o + 1600 <= t -> aged 1 t m -> aged 1 t m'.
Proof.
  intros Hs Ht Hm. destruct o; cbn in Hs, Ht.
  3-5: match type of Hs with context [spec_take ?ok ?k ?m] =>
    pose proof (spec_take_aged _ _ ok k m Hm); destruct (spec_take ok k m) end; by simplify_eq/=.
  - assert (aged 1 t (<[k := fresh k ir now make]> m)) as Hi.
    { apply map_Forall_insert_2; [|done]. cbn. ulia. }
    repeat case_in Hs; by destruct Hs as [_ ->].
  - destruct Hs as [_ ->]. destruct (m !! k) as [e|] eqn:Hk; [|done]. apply map_Forall_insert_2; [|done].
    destruct (Hm _ _ Hk) as [He _]. pose proof (bumped_aged 1 t now e He ltac:(done) Ht). lia.
  - destruct Hs as (again & expired & _ & -> & _). intros k e [Hk _]%map_lookup_filter_Some. by eapply Hm.
Qed.

Lemma spec_run_aged c t m os r m' :
  spec_run c m os r m' -> Forall (fun o => op_time o + 1600 <= t) os -> aged 1 t m -> aged 1 t m'.
Proof.
  induction 1 as [|m o a m1 os r m2 Hs _ IH]; [done|]. intros [Ho Hos]%Forall_cons Hm.
  eauto using spec_aged.
Qed.

Lemma resend_run now ks q :
  distinct (entries q) -> 0 <= now <= U64_MAX - 1600 -> NoDup ks ->
  exists q', sfor ks (fun k => sent_again k now) q = (Ok tt, q') /\ distinct (entries q') /\ cap q' = cap q /\
    forall k, to_map (entries q') !! k =
      if decide (k ∈ ks) then bumped now <$> to_map (entries q) !! k else to_map (entries q) !! k.
Proof.
  intros Hd Hnow Hks. revert q Hd. induction Hks as [|k ks Hk Hks IH]; intros q Hd.
  { by exists q. }
  destruct (sent_again_run k now q Hd Hnow) as (q1 & Hrun & Hd1 & Hc1 & Hm1).
  destruct (IH q1 Hd1) as (q2 & Hrun2 & Hd2 & Hc2 & Hm2).
  exists q2. cbn [sfor]. rewrite (sbind_ok _ _ _ _ _ Hrun). repeat split; [done|done|by rewrite Hc2|].
  intros k'. rewrite Hm2, Hm1. destruct (decide (k' = k)) as [-> |Hne].
  - rewrite decide_False, decide_True by (done || set_solver).
    destruct (to_map (entries q) !! k) eqn:E; [by rewrite lookup_insert_eq|by rewrite E].
  - assert ((match to_map (entries q) !! k with
             | Some e => <[k := bumped now e]> (to_map (entries q))
             | None => to_map (entries q)
             end) !! k' = to_map (entries q) !! k') as -> by (case_match; by rewrite ?lookup_insert_ne).
    destruct (decide (k' ∈ ks)); [rewrite decide_True by set_solver|rewrite decide_False by set_solver]; done.
Qed.

(** One pass of the timers: each entry left was not due, or had its SYN-ACK sent once
    more. *)
Lemma step_timers_map now q :
  distinct (entries q) -> 0 <= now <= U64_MAX - 1600 ->
  exists x q', step_timers now q = (Ok x, q') /\ distinct (entries q') /\
    forall k e, to_map (entries q') !! k = Some e ->
      exists e0, to_map (entries q) !! k = Some e0 /\
        (now < due_at e0 /\ e = e0 \/ due_at e0 <= now /\ tries e0 < MAX_TRIES /\ e = bumped now e0).
Proof.
  intros Hd Hnow. destruct (due_map now q Hd) as (again & expired & q1 & Hrun & Hd1 & Hc1 & Hm1 & Hnd & Hag & _).
  unfold step_timers. rewrite (sbind_ok _ _ _ _ _ Hrun). cbn [fst snd].
  destruct (resend_run now again q1 Hd1 Hnow Hnd) as (q2 & Hrun2 & Hd2 & Hc2 & Hm2).
  rewrite (sbind_ok _ _ _ _ _ Hrun2). eexists _, q2. split; [done|]. split; [done|].
  intros k e He. rewrite Hm2, Hm1 in He.
  assert (exists e0, filter (fun p => given_up now p.2 = false) (to_map (entries q)) !! k = Some e0) as (e0 & He0).
  { case_decide; [apply fmap_Some in He as (e0 & He & _)|]; eauto. }
  rewrite He0 in He. apply map_lookup_filter_Some in He0 as [He0 Hg]. exists e0. split; [done|].
  unfold given_up in Hg. cbn in Hg. destruct (is_due now e0) eqn:Hd0.
  - cbn in Hg. rewrite decide_True in He; [|apply Hag; exists e0; split; [done|]; unfold wants_again; by rewrite Hd0, Hg].
    right. apply Z.leb_le in Hd0. apply Z.leb_gt in Hg. by simplify_eq/=.
  - rewrite decide_False in He; [left; apply Z.leb_gt in Hd0; by simplify_eq/=|].
    intros (e1 & He1 & Hw)%Hag. simplify_eq. unfold wants_again in Hw. by rewrite Hd0 in Hw.
Qed.

Lemma bumped_tries now e : tries e < MAX_TRIES -> tries (bumped now e) = tries e + 1 /\ due_at (bumped now e) <= now + 1600.
Proof. intros H1. cbn. pose proof (rto_bounds (Z.min (tries e + 1) U8_MAX)). unfold MAX_TRIES in *. ulia. Qed.

(** A pass at any time, and one when the timers of an earlier one have run out. *)
Lemma pass_run n t s now q :
  distinct (entries q) -> 0 <= now <= U64_MAX - 1600 -> s <= now -> waiting n t s (to_map (entries q)) ->
  exists x q', step_timers now q = (Ok x, q') /\ distinct (entries q') /\
    waiting n t now (to_map (entries q')) /\
    (t <= now -> n < MAX_TRIES -> waiting (n + 1) (now + 1600) now (to_map (entries q'))) /\
    (t <= now -> MAX_TRIES <= n -> entries q' = []).
Proof.
  intros Hd Hnow Hs Hw. destruct (step_timers_map now q Hd Hnow) as (x & q' & Hrun & Hd' & Hall).
  exists x, q'. do 2 (split; [done|]). split; [|split].
  - intros k e He. destruct (Hall _ _ He) as (e0 & He0 & [[Hn ->]|(Hn & Ht & ->)]); pose proof (Hw _ _ He0); cbn in *; [lia|].
    pose proof (bumped_tries now e0 Ht) as [? ?]. cbn in *. lia.
  - intros Htn Hnm k e He. destruct (Hall _ _ He) as (e0 & He0 & [[Hn ->]|(Hn & Ht & ->)]); pose proof (Hw _ _ He0); cbn in *; [lia|].
    pose proof (bumped_tries now e0 Ht) as [? ?]. cbn in *. lia.
  - intros Htn Hnm. destruct (entries q') as [|e l] eqn:El; [done|].
    destruct (Hall (key e) e) as (e0 & He0 & Hcase); [apply to_map_spec; [done|]; set_solver|].
    pose proof (Hw _ _ He0). cbn in *. lia.
Qed.

Definition passes (ts : list Z) : ST (SynQueue K T) unit unit := sfor ts (fun now => step_timers now ;;! sret tt).

Lemma passes_cons now ts q x q' : step_timers now q = (Ok x, q') -> passes (now :: ts) q = passes ts q'.
Proof. intros E. unfold passes. cbn [sfor]. unfold sbind. by rewrite E. Qed.

Lemma passes_empty ts q : Forall (fun now => 0 <= now <= U64_MAX - 1600) ts -> entries q = [] ->
  exists q', passes ts q = (Ok tt, q') /\ entries q' = [].
Proof.
  intros Hts. revert q. induction Hts as [|now ts Hnow _ IH]; intros q Hq; [by exists q|].
  destruct (step_timers_map now q) as (x & q1 & E & Hd & Hall); [rewrite Hq; apply NoDup_nil_2|done|].
  rewrite (passes_cons _ _ _ _ _ E). apply IH. destruct (entries q1) as [|e l] eqn:El; [done|].
  destruct (Hall (key e) e) as (e0 & He0 & _); [apply to_map_spec; [done|]; set_solver|]. by rewrite Hq in He0.
Qed.

(** Enough passes, each when the timers of the one before have run out, among any
    others. *)
Lemma passes_give_up ts ms n t s q : ms `sublist_of` ts -> spaced t ms -> MAX_TRIES < n + zlen ms ->
  StronglySorted Z.le ts -> Forall (fun now => s <= now /\ 0 <= now <= U64_MAX - 1600) ts ->
  n <= MAX_TRIES -> distinct (entries q) -> waiting n t s (to_map (entries q)) ->
  exists q', passes ts q = (Ok tt, q') /\ entries q' = [].
Proof.
  intros Hsub. revert n t s q. induction Hsub as [|now ms ts Hsub IH|now ms ts Hsub IH]; intros n t s q Hsp Hlen Hsort Hts Hn Hd Hw.
  - change (zlen []) with 0 in Hlen. lia.
  - apply StronglySorted_inv in Hsort as [Hsort Hle]. apply Forall_cons in Hts as [[Hs Hnow] Hts]. destruct Hsp as [Ht Hsp].
    destruct (pass_run n t s now q Hd Hnow Hs Hw) as (x & q1 & E & Hd1 & _ & Hnext & Hend). rewrite (passes_cons _ _ _ _ _ E).
    destruct (decide (n = MAX_TRIES)) as [Hmax|Hmax].
    + apply passes_empty; [eapply Forall_impl; [exact Hts|]; by intros ? []|]. apply Hend; lia.
    + rewrite zlen_cons in Hlen. apply (IH (n + 1) (now + 1600) now); [done | lia | done | | lia | done | apply Hnext; lia].
      apply Forall_forall. intros u Hu. rewrite Forall_forall in Hts, Hle. split; [by apply Hle | by apply Hts].
  - apply StronglySorted_inv in Hsort as [Hsort Hle]. apply Forall_cons in Hts as [[Hs Hnow] Hts].
    destruct (pass_run n t s now q Hd Hnow Hs Hw) as (x & q1 & E & Hd1 & Hsame & _). rewrite (passes_cons _ _ _ _ _ E).
    apply (IH n t now); [done | done | done | | done | done | done].
    apply Forall_forall. intros u Hu. rewrite Forall_forall in Hts, Hle. split; [by apply Hle | by apply Hts].
Qed.
End table.

(** ** The three-way handshake *)

(** An active open is established only by an acknowledgement of its own SYN, refused
    only by a reset that carries one, and answers any other acknowledgement that is
    not itself a reset with the reset the peer expects. *)
Lemma syn_sent_cases i flags sq ak :
  match syn_sent_input i flags sq ak with
  | Established n =>
      n = sq /\ ak = (i + 1) mod 2 ^ 32 /\ Z.land flags Net.SYN <> 0 /\ Z.land flags Net.ACK <> 0 /\ Z.land flags Net.RST = 0
  | Refused => ak = (i + 1) mod 2 ^ 32 /\ Z.land flags Net.RST <> 0 /\ Z.land flags Net.ACK <> 0
  | SendReset n => n = ak /\ ak <> (i + 1) mod 2 ^ 32 /\ Z.land flags Net.ACK <> 0 /\ Z.land flags Net.RST = 0
  | Ignore => True
  end.
Proof.
  unfold syn_sent_input.
  destruct (Z.land flags Net.ACK =? 0) eqn:Ha, (ak =? _) eqn:Hk, (Z.land flags Net.RST =? 0) eqn:Hr,
    (Z.land flags Net.SYN =? 0) eqn:Hs; cbn; simplify_bool; auto.
Qed.

(** Both sides end up with each other's numbers: the SYN of a client becomes an
    entry, its SYN-ACK establishes the client, and the client's acknowledgement
    takes exactly this entry out of the table. *)
Lemma three_way_handshake {K T} `{Countable K} (k : K) (ci now : Z) (make : Z * T) q :
  distinct (entries q) -> 0 <= now <= U64_MAX - 1600 -> get q k = None -> queue_len q < cap q ->
  exists q1, on_syn k ci now true make q = (Ok New, q1) /\
    syn_sent_input ci (Z.lor Net.SYN Net.ACK) (fst make) ((ci + 1) mod 2 ^ 32) = Established (fst make) /\
    exists q2, on_ack k ((fst make + 1) mod 2 ^ 32) q1 = (Ok (Some (fresh k ci now make)), q2) /\
      to_map (entries q2) = to_map (entries q).
Proof.
  intros Hd Hnow Hg Hroom. rewrite get_to_map in Hg by done.
  destruct (on_syn_refines k ci now true make q Hd Hnow) as (a & q1 & Hrun & Hd1 & _ & Hs).
  cbn [spec] in Hs. rewrite Hg, size_to_map in Hs by done. unfold queue_len, zlen in Hroom.
  rewrite (proj2 (Z.ltb_lt _ _) Hroom) in Hs. destruct Hs as [-> Hm].
  exists q1. split.
  { cbn [run_op] in Hrun. unfold sbind, sret in Hrun. by destruct (on_syn k ci now true make q) as [[[]| | |] ?]; simplify_eq. }
  split; [unfold syn_sent_input; by rewrite Z.eqb_refl|].
  destruct (take_if_run (fun e => (fst make + 1) mod 2 ^ 32 =? (iss e + 1) mod 2 ^ 32) k q1 Hd1) as (q2 & Hrun2 & _ & _ & Hm2).
  unfold spec_take in Hrun2, Hm2. rewrite Hm, lookup_insert_eq in Hrun2, Hm2. cbn [fresh iss] in Hrun2, Hm2.
  rewrite Z.eqb_refl in Hrun2, Hm2. exists q2. split; [exact Hrun2|]. rewrite Hm2. cbn. by apply delete_insert_id.
Qed.

(** ** Ports *)

Lemma pick_random_ok tries i draw lo span avoid p :
  0 < span -> pick_random tries i draw lo span avoid = Some p -> lo <= p < lo + span /\ avoid p = false.
Proof.
  intros Hspan. revert i. induction tries as [|n IH]; intros i; cbn; [done|].
  case_if; [|apply IH]. intros [= <-]. pose proof (Z.mod_pos_bound (draw i) span Hspan). split; [lia|done].
Qed.

Lemma pick_scan_ok lo span start avoid p :
  0 < span -> pick_scan lo span start avoid = Some p -> lo <= p < lo + span /\ avoid p = false.
Proof.
  intros Hspan. unfold pick_scan. intros ([i x] & (Hx & Ha & _)%list_find_Some & [= <-])%bind_Some.
  apply list_elem_of_lookup_2, list_elem_of_fmap in Hx as (j & -> & _). cbn.
  pose proof (Z.mod_pos_bound (start + j) span Hspan). split; [lia|done].
Qed.

(** The scan passes every port of the range. *)
Lemma pick_scan_all lo span start avoid p :
  0 < span -> 0 <= start < span -> pick_scan lo span start avoid = None -> lo <= p < lo + span -> avoid p = true.
Proof.
  intros Hspan Hstart Hn Hp. unfold pick_scan in Hn.
  destruct (list_find _ _) as [[]|] eqn:Hf; [done|]. apply list_find_None in Hf.
  rewrite Forall_forall in Hf. destruct (avoid p) eqn:Ha; [done|]. exfalso. apply (Hf p); [|done].
  apply list_elem_of_fmap. exists ((p - lo - start) mod span). split.
  - rewrite Z.add_mod_idemp_r by lia. replace (start + (p - lo - start)) with (p - lo) by lia.
    rewrite Z.mod_small by lia. lia.
  - unfold zrange. apply elem_of_seqZ. pose proof (Z.mod_pos_bound (p - lo - start) span Hspan). lia.
Qed.

(** A port of the range, and a free one whenever there is one. *)
Lemma pick_port_ok draw lo hi avoid :
  lo < hi ->
  let p := pick_port draw lo hi avoid in
  lo <= p < hi /\ ((exists p', lo <= p' < hi /\ avoid p' = false) -> avoid p = false).
Proof.
  intros Hlo. unfold pick_port. replace (Z.max (Z.max (hi - lo) 0) 1) with (hi - lo) by lia.
  destruct (pick_random _ _ _ _ _ _) as [p|] eqn:Hr.
  { apply pick_random_ok in Hr as [? ?]; [|lia]. split; [lia|done]. }
  pose proof (Z.mod_pos_bound (draw 32) (hi - lo) ltac:(lia)) as Hstart.
  destruct (pick_scan _ _ _ _) as [p|] eqn:Hs.
  { apply pick_scan_ok in Hs as [? ?]; [|lia]. split; [lia|done]. }
  split; [lia|]. intros (p' & Hp & Ha). rewrite (pick_scan_all lo (hi - lo) _ avoid p' ltac:(lia) Hstart Hs) in Ha by lia. done.
Qed.

(** The ring holds the last [N] ports. *)
Definition holds (N : Z) (ps : list Z) (r : RecentPorts) : Prop :=
  zlen (ring r) = N /\ next r = zlen ps mod N /\
  forall j, 0 <= j < zlen ps -> zlen ps - N <= j -> at_ 0 (ring r) (j mod N) = at_ 0 ps j.

Lemma remember_holds N ps p r : 0 < N -> holds N ps r -> holds N (ps ++ [p]) (remember r p).
Proof.
  intros HN (Hl & Hn & Hat). unfold remember. rewrite Hl, (proj2 (Z.eqb_neq N 0)) by lia.
  unfold holds. cbn [ring next]. rewrite zlen_upd, zlen_app, zlen_cons, zlen_nil, Hl.
  split; [done|]. split; [by rewrite Hn, Z.add_mod_idemp_l by lia|].
  intros j Hj HjN. pose proof (zlen_nonneg ps). pose proof (Z.mod_pos_bound j N HN).
  pose proof (Z.mod_pos_bound (zlen ps) N HN).
  destruct (decide (j = zlen ps)) as [-> |Hne].
  - rewrite Hn, at_upd_eq by lia. rewrite <- (Z.add_0_r (zlen ps)), at_app_r by lia. done.
  - rewrite at_upd_ne; [|lia|lia|].
    + rewrite Hat, at_app_l by lia. done.
    + rewrite Hn. intros Heq. apply Hne.
      assert ((zlen ps - j) mod N = 0) as Hz by (rewrite Zminus_mod, Heq, Z.sub_diag; apply Z.mod_0_l; lia).
      rewrite Z.mod_small in Hz by lia. lia.
Qed.

Lemma remembered_avoided N ps :
  0 < N ->
  let r := foldl remember (recent_new N) ps in
  forall j, 0 <= j < zlen ps -> zlen ps - N <= j -> at_ 0 ps j <> 0 -> recent_contains r (at_ 0 ps j) = true.
Proof.
  intros HN r j Hj HjN Hp.
  assert (holds N ps r) as (Hl & _ & Hat).
  { subst r. clear -HN. induction ps as [|p ps IH] using rev_ind.
    - unfold holds. cbn. rewrite zlen_zrepeat by lia. split; [done|]. split; [by rewrite Z.mod_0_l by lia|].
      intros j Hj. change (0 <= j < 0) in Hj. lia.
    - rewrite foldl_app. cbn [foldl]. by apply remember_holds. }
  unfold recent_contains. rewrite <- Hat in * by done. apply andb_true_iff. split.
  - by apply negb_true_iff, Z.eqb_neq.
  - apply existsb_exists. eexists. split; [|apply Z.eqb_refl].
    apply nth_In. pose proof (Z.mod_pos_bound j N HN). unfold zlen in Hl. lia.
Qed.

(** ** The rate limiter *)

Fixpoint allow_all (ts : list Z) : ST TokenBucket unit Z :=
  match ts with
  | [] => sret 0
  | t :: ts' =>
      let! ok := allow t in
      let! n := allow_all ts' in
      sret ((if ok : bool then 1 else 0) + n)
  end.

Definition bucket_ok (b : TokenBucket) : Prop :=
  0 < ticks_per_sec b /\ 0 <= refill_per_sec b /\ 0 <= last_ticks b /\ 0 <= tokens b <= capacity b * SCALE.

(** The tokens of time [t], counted in [1 / ticks_per_sec] of a thousandth. *)
Definition budget (b : TokenBucket) : Z := ticks_per_sec b * tokens b - last_ticks b * refill_per_sec b * SCALE.

Definition same_rate (b b' : TokenBucket) : Prop :=
  capacity b' = capacity b /\ refill_per_sec b' = refill_per_sec b /\ ticks_per_sec b' = ticks_per_sec b.

(** No refill up to [t] overflows. *)
Definition no_overflow (b : TokenBucket) (t : Z) : Prop :=
  t * refill_per_sec b * SCALE + capacity b * SCALE <= U64_MAX.

Lemma refill_run now b :
  bucket_ok b -> 0 <= now -> no_overflow b now ->
  exists b', refill now b = Ok b' /\ bucket_ok b' /\ same_rate b b' /\ last_ticks b' = Z.max (last_ticks b) now /\
    budget b' <= budget b /\ tokens b <= tokens b' /\
    tokens b' = Z.min (capacity b * SCALE)
      (tokens b + Z.max 0 (now - last_ticks b) * refill_per_sec b * SCALE / ticks_per_sec b).
Proof.
  intros (Htps & Hr & Hl & Ht) Hnow Hno. unfold refill, no_overflow, SCALE in *. case_if.
  { exists (if last_ticks b =? 0 then mkBucket (capacity b) (refill_per_sec b) (tokens b) now (ticks_per_sec b) else b).
    split; [done|]. replace (Z.max 0 (now - last_ticks b)) with 0 by lia. rewrite !Z.mul_0_l, Z.div_0_l by lia.
    case_if; unfold bucket_ok, same_rate, budget, SCALE; cbn; [replace now with 0 by lia|]; repeat split; try lia. }
  set (x := (now - last_ticks b) * refill_per_sec b * 1000) in *.
  assert (0 <= x <= now * refill_per_sec b * 1000) as Hx by (unfold x; nia).
  assert (0 <= x / ticks_per_sec b <= x) as Hdiv.
  { split; [by apply Z.div_pos; lia|]. apply Z.div_le_upper_bound; nia. }
  assert (ticks_per_sec b * (x / ticks_per_sec b) <= x) as Hmul by by apply Z.mul_div_le.
  unfold add64. rewrite Z.mod_small by ulia. case_if; [|ulia]. cbn [obind].
  eexists. split; [done|]. replace (Z.max 0 (now - last_ticks b)) with (now - last_ticks b) by lia. fold x.
  unfold bucket_ok, same_rate, budget, SCALE; cbn. repeat split; try lia; try nia.
Qed.

Lemma allow_run now b :
  bucket_ok b -> 0 <= now -> no_overflow b now ->
  exists ok b', allow now b = (Ok ok, b') /\ bucket_ok b' /\ same_rate b b' /\ last_ticks b' = Z.max (last_ticks b) now /\
    budget b' + (if ok : bool then SCALE * ticks_per_sec b else 0) <= budget b /\
    (if ok then SCALE else 0) + tokens b' <= capacity b * SCALE /\
    (ok = false -> (now - last_ticks b) * refill_per_sec b < ticks_per_sec b \/ capacity b = 0).
Proof.
  intros Hb Hnow Hno. destruct (refill_run now b Hb Hnow Hno) as (b1 & Hrun & Hb1 & (Hc & Hr & Ht) & Hl & Hbud & Hle & Htok).
  unfold allow. rewrite Hrun. destruct Hb as (Htps & Hrr & _ & Htk). destruct Hb1 as (_ & _ & Hl1 & Hb1). case_if.
  - eexists _, _. split; [done|]. unfold bucket_ok, same_rate, budget, SCALE in *; cbn. rewrite Hc, Hr, Ht in *.
    repeat split; try done; lia.
  - eexists _, b1. split; [done|]. unfold bucket_ok, same_rate. rewrite Hc, Hr, Ht in *.
    repeat split; try done; try lia. intros _. destruct (decide (capacity b = 0)); [by right|left].
    destruct (Z.lt_ge_cases ((now - last_ticks b) * refill_per_sec b) (ticks_per_sec b)) as [|Hge]; [done|]. exfalso.
    assert (SCALE <= Z.max 0 (now - last_ticks b) * refill_per_sec b * SCALE / ticks_per_sec b) as Hs.
    { apply Z.div_le_lower_bound; [lia|]. unfold SCALE. nia. }
    unfold SCALE in *. lia.
Qed.

(** Over any run of calls the events allowed cost what the bucket held and what
    time brought in. *)
Lemma allow_all_run ts b t :
  bucket_ok b -> Forall (fun x => 0 <= x <= t) ts -> no_overflow b t ->
  exists n b', allow_all ts b = (Ok n, b') /\ bucket_ok b' /\ same_rate b b' /\ last_ticks b' <= Z.max (last_ticks b) t /\
    0 <= n /\ budget b' + n * SCALE * ticks_per_sec b <= budget b.
Proof.
  intros Hb Hts. revert b Hb. induction Hts as [|x ts Hx _ IH]; intros b Hb Hno.
  { exists 0, b. do 2 (split; [done|]). unfold same_rate. lia. }
  destruct (allow_run x b Hb) as (ok & b1 & Hrun & Hb1 & (Hc & Hr & Ht) & Hl & Hbud & _ & _); [lia| |].
  { destruct Hb as (_ & ? & _). unfold no_overflow, SCALE in *. nia. }
  destruct (IH b1 Hb1) as (n & b2 & Hrun2 & Hb2 & (Hc2 & Hr2 & Ht2) & Hl2 & Hn & Hbud2).
  { unfold no_overflow. by rewrite Hc, Hr. }
  exists ((if ok then 1 else 0) + n), b2. cbn [allow_all].
  rewrite (sbind_ok _ _ _ _ _ Hrun), (sbind_ok _ _ _ _ _ Hrun2). unfold same_rate.
  rewrite Hc2, Hr2, Ht2, Ht, Hr, Hc in *. do 3 (split; [done|]). split; [lia|]. split; [destruct ok; lia|].
  unfold SCALE in *. destruct ok; nia.
Qed.

(** The events of a window of time, whatever came before. *)
Lemma window_run ts b t0 t1 :
  bucket_ok b -> 0 <= t0 <= t1 -> last_ticks b <= t0 -> Forall (fun x => t0 <= x <= t1) ts -> no_overflow b t1 ->
  exists n b', allow_all ts b = (Ok n, b') /\ bucket_ok b' /\ same_rate b b' /\ last_ticks b' <= t1 /\
    n * ticks_per_sec b <= capacity b * ticks_per_sec b + (t1 - t0) * refill_per_sec b.
Proof.
  intros Hb Ht01 Hl0 Hts Hno. pose proof Hb as (Htps & Hr0 & _ & Htk). destruct ts as [|x ts].
  { exists 0, b. do 2 (split; [done|]). unfold same_rate. unfold SCALE in *. repeat split; nia. }
  apply Forall_cons in Hts as [Hx Hts].
  destruct (allow_run x b Hb) as (ok & b1 & Hrun & Hb1 & (Hc & Hr & Ht) & Hl & _ & Hcap & _); [lia| |].
  { unfold no_overflow, SCALE in *. nia. }
  destruct (allow_all_run ts b1 t1 Hb1) as (n & b2 & Hrun2 & Hb2 & (Hc2 & Hr2 & Ht2) & Hl2 & Hn & Hbud2).
  { eapply Forall_impl; [exact Hts|]. cbn. lia. }
  { unfold no_overflow. by rewrite Hc, Hr. }
  exists ((if ok then 1 else 0) + n), b2. cbn [allow_all].
  rewrite (sbind_ok _ _ _ _ _ Hrun), (sbind_ok _ _ _ _ _ Hrun2). unfold same_rate.
  rewrite Hc2, Hr2, Ht2, Ht, Hr, Hc in *. do 3 (split; [done|]). split; [lia|].
  destruct Hb2 as (_ & _ & _ & Hpos). unfold budget, SCALE in *. rewrite Ht2, Hr2, Ht, Hr in Hbud2.
  destruct ok; nia.
Qed.

(** ** Timeouts and windows *)

Inductive rtt_event := Measured (r : Z) | TimedOut.

Definition rtt_step (e : RttEstimator) (ev : rtt_event) : outcome unit RttEstimator :=
  match ev with
  | Measured r => on_measurement r e
  | TimedOut => Ok (rtt_on_timeout e)
  end.

Fixpoint rtt_run (e : RttEstimator) (evs : list rtt_event) : outcome unit RttEstimator :=
  match evs with
  | [] => Ok e
  | ev :: evs' => let? e' := rtt_step e ev in rtt_run e' evs'
  end.

Definition rtt_ok (e : RttEstimator) : Prop :=
  -1 <= srtt e <= 2 ^ 60 /\ 0 <= rttvar e <= 2 ^ 60 /\ MIN_RTO <= rtt_rto e <= MAX_RTO.

Lemma clamp_bounds v lo hi : lo <= hi -> lo <= clamp v lo hi <= hi.
Proof. intros. unfold clamp. repeat case_if; lia. Qed.

Lemma rtt_step_ok e ev :
  rtt_ok e -> match ev with Measured r => r <= 2 ^ 60 | TimedOut => True end ->
  exists e', rtt_step e ev = Ok e' /\ rtt_ok e'.
Proof.
  intros (Hs & Hv & Hr) Hev. destruct ev as [r|]; cbn [rtt_step].
  - unfold on_measurement. set (r1 := Z.max r 1). assert (1 <= r1 <= 2 ^ 60) as Hr1 by lia. clearbody r1.
    set (sv := if srtt e <? 0 then _ else _).
    assert (0 <= fst sv <= 2 ^ 60 /\ 0 <= snd sv <= 2 ^ 60) as [Hs1 Hv1].
    { subst sv. rewrite !Z.shiftr_div_pow2 by lia. change (2 ^ 3) with 8. change (2 ^ 2) with 4.
      case_if; cbn [fst snd]; [rewrite Z.quot_div_nonneg by lia|]; Z.to_euclidean_division_equations; lia. }
    destruct sv as [s v]. cbn [fst snd] in *. unfold I64_MAX. repeat case_if; [lia|lia|].
    eexists. split; [done|]. unfold rtt_ok. cbn. pose proof (clamp_bounds (s + Z.max (4 * v) 1) MIN_RTO MAX_RTO). 
    unfold MIN_RTO, MAX_RTO in *. lia.
  - eexists. split; [done|]. unfold rtt_ok, rtt_on_timeout, MIN_RTO, MAX_RTO in *. cbn. lia.
Qed.

(** The retransmission timeout stays between one and sixty seconds. *)
Lemma rtt_run_ok evs e :
  rtt_ok e -> Forall (fun ev => match ev with Measured r => r <= 2 ^ 60 | TimedOut => True end) evs ->
  exists e', rtt_run e evs = Ok e' /\ rtt_ok e' /\ rto_ms e' = rtt_rto e'.
Proof.
  intros He Hevs. revert e He. induction Hevs as [|ev evs Hev _ IH]; intros e He; cbn [rtt_run].
  - exists e. split; [done|]. split; [done|]. destruct He as (_ & _ & Hr). unfold rto_ms, clamp. repeat case_if; lia.
  - destruct (rtt_step_ok e ev He Hev) as (e1 & -> & He1). by apply IH.
Qed.

Inductive reno_event := Acked | LostTimeout (flight : Z) | TripleDup (flight : Z).

Definition reno_step (c : RenoCc) (ev : reno_event) : outcome unit RenoCc :=
  match ev with
  | Acked => Ok (reno_on_ack c)
  | LostTimeout f => reno_on_timeout f c
  | TripleDup f => on_triple_dup_ack f c
  end.

Definition reno_ok (c : RenoCc) : Prop :=
  1 <= mss c /\ 2 * mss c <= U32_MAX /\ mss c <= cwnd c <= U32_MAX /\ 2 * mss c <= ssthresh c <= U32_MAX.

Definition flight_u32 (ev : reno_event) : Prop :=
  match ev with
  | Acked => True
  | LostTimeout f | TripleDup f => is_u32 f
  end.

Lemma reno_new_ok m : 0 <= m -> 2 * m <= U32_MAX -> reno_ok (reno_new m).
Proof. intros. unfold reno_ok, reno_new. cbn. ulia. Qed.

(** The window never falls below a segment; an acknowledgement opens it by at
    least a byte and at most a segment, a loss closes it to half the flight or two
    segments. *)
Lemma reno_step_ok c ev :
  reno_ok c -> flight_u32 ev ->
  exists c', reno_step c ev = Ok c' /\ reno_ok c' /\ mss c' = mss c /\
    match ev with
    | Acked => Z.min (cwnd c + 1) U32_MAX <= cwnd c' <= cwnd c + mss c /\ ssthresh c' = ssthresh c
    | LostTimeout f => cwnd c' = mss c /\ ssthresh c' = Z.max (f / 2) (2 * mss c)
    | TripleDup f => cwnd c' = Z.max (f / 2) (2 * mss c) /\ in_slow_start c' = false
    end.
Proof.
  intros (Hm & Hm2 & Hc & Hs) Hf. destruct ev as [|f|f]; cbn [reno_step flight_u32] in *.
  - eexists. split; [done|]. unfold reno_ok, reno_on_ack, saturating_add32. case_if; cbn; [lia|].
    replace (Z.max (cwnd c) 1) with (cwnd c) by lia.
    assert (0 <= mss c * mss c / cwnd c <= mss c) as Hd.
    { split; [apply Z.div_pos; nia|]. apply Z.div_le_upper_bound; nia. }
    rewrite Z.mod_small by ulia. lia.
  - unfold reno_on_timeout. case_if; [lia|]. eexists. split; [done|]. unfold reno_ok; cbn.
    assert (0 <= f / 2 <= U32_MAX) by (unfold is_u32 in Hf; Z.to_euclidean_division_equations; lia). lia.
  - unfold on_triple_dup_ack. case_if; [lia|]. eexists. split; [done|]. unfold reno_ok, in_slow_start; cbn.
    assert (0 <= f / 2 <= U32_MAX) by (unfold is_u32 in Hf; Z.to_euclidean_division_equations; lia).
    rewrite Z.ltb_irrefl. lia.
Qed.

(** ** The claims *)

(** C30 The table of half-open connections is a bounded finite map, and it empties
    itself.  Any sequence of SYNs, repeated SYN-ACKs, acknowledgements, resets,
    removals and timer passes runs without a panic from the empty table; its answers
    and its contents are those of the map specification [spec] (a SYN for a known
    connection with the same initial number is a retransmission and with another one
    starts over, a new connection is refused exactly when the listener or the table
    is full, an entry completes only on [iss + 1] and is reset only on [irs + 1], a
    timer pass names exactly the entries due); there are never more than [cap]
    entries nor two for one connection.  When nothing more arrives after time [t0],
    any sequence of timer passes at increasing times, as often as one likes, leaves the
    table empty, whatever it held, as soon as it has four passes among it of which the
    first comes at least 1600 ticks after [t0] and each other one at least 1600 ticks
    after the one before. *)
Theorem half_open_table {K T} `{Countable K} (c t0 : Z) (os : list (op (K := K) (T := T))) :
  0 <= c -> Forall op_in_time os -> Forall (fun o => op_time o <= t0) os ->
  exists r q, run_ops os (queue_new c) = (Ok r, q) /\
    queue_len q <= c /\ NoDup (keys q) /\ spec_run c ∅ os r (to_map (entries q)) /\
    (forall k, get q k = to_map (entries q) !! k) /\
    forall ts ms, StronglySorted Z.le ts -> Forall (fun t => t0 <= t /\ 0 <= t <= U64_MAX - 1600) ts ->
      ms `sublist_of` ts -> spaced (t0 + 1600) ms -> length ms = 4%nat ->
      exists q', passes ts q = (Ok tt, q') /\ entries q' = [].
Proof.
  intros Hc Hos Ht0.
  destruct (run_ops_refines os (queue_new c)) as (r & q & Hrun & Hd & Hcap & Hlen & Hspec); [|done|done|].
  { apply NoDup_nil_2. }
  exists r, q. do 4 (split; [done|]). split; [by intros k; apply get_to_map|].
  intros ts ms Hsort Hts Hsub Hsp Hms. apply (passes_give_up ts ms 1 (t0 + 1600) t0); try done; [unfold zlen; rewrite Hms; done|].
  assert (Ha : aged 1 (t0 + 1600) (to_map (entries q))).
  { eapply spec_run_aged; [exact Hspec| |by intros ? ? ?]. eapply Forall_impl; [exact Ht0|]. cbn. lia. }
  intros k e He. pose proof (Ha k e He). cbn in *. lia.
Qed.

(** C31 The rate limiter bounds what strangers can make the machine send.  Whatever
    was asked before, the events a full-started bucket allows in a window of time
    are at most its capacity and what the window refills, the arithmetic overflows
    nowhere, and a caller that waited for one token's worth of ticks is served. *)
Theorem rate_limited (cp r tps t0 t1 : Z) (ts0 ts1 : list Z) :
  0 <= cp -> 0 <= r -> 0 <= tps -> 0 <= t0 <= t1 ->
  Forall (fun x => 0 <= x <= t0) ts0 -> Forall (fun x => t0 <= x <= t1) ts1 ->
  t1 * r * SCALE + cp * SCALE <= U64_MAX ->
  exists n0 b0 n1 b1,
    allow_all ts0 (bucket_new cp r tps) = (Ok n0, b0) /\ allow_all ts1 b0 = (Ok n1, b1) /\
    n1 * Z.max tps 1 <= cp * Z.max tps 1 + (t1 - t0) * r /\
    (0 < cp -> Z.max tps 1 <= (t1 - last_ticks b0) * r -> exists b, allow t1 b0 = (Ok true, b)).
Proof.
  intros Hcp Hr Htps Ht Hts0 Hts1 Hno.
  set (b := bucket_new cp r tps).
  assert (ticks_per_sec b = Z.max tps 1) as Htp by (cbn; case_if; lia).
  assert (bucket_ok b) as Hb by (unfold bucket_ok; rewrite Htp; cbn; unfold SCALE; lia).
  destruct (window_run ts0 b 0 t0) as (n0 & b0 & Hrun0 & Hb0 & (Hc0 & Hr0 & Ht0) & Hl0 & _);
    [done|lia|done|done|unfold no_overflow, SCALE in *; cbn; nia|].
  assert (no_overflow b0 t1) as Hno0 by (unfold no_overflow; by rewrite Hc0, Hr0).
  destruct (window_run ts1 b0 t0 t1 Hb0 Ht Hl0 Hts1 Hno0) as (n1 & b1 & Hrun1 & _ & _ & _ & Hn1).
  exists n0, b0, n1, b1. do 2 (split; [done|]). rewrite Hc0, Hr0, Ht0, Htp in Hn1. split; [exact Hn1|].
  intros Hpos Hwait. destruct (allow_run t1 b0 Hb0) as (ok & b2 & Hrun2 & _ & _ & _ & _ & _ & Hok); [lia|done|].
  exists b2. destruct ok; [done|]. rewrite Hc0, Hr0, Ht0, Htp in Hok. change (capacity b) with cp in Hok.
  change (refill_per_sec b) with r in Hok. destruct (Hok eq_refl); lia.
Qed.

(** Two clients, one of which completes its handshake. *)
Definition sample_ops : list (op (K := Z) (T := unit)) :=
  [OSyn 1 500 0 true (7, tt); OSyn 2 600 10 true (9, tt); OSyn 3 700 20 true (11, tt);
   OAck 1 12; OAck 1 8; OSyn 2 600 30 true (9, tt); OSent 2 30; ODue 400].

Lemma half_open_table_witness :
  exists r q, run_ops sample_ops (queue_new 2) = (Ok r, q) /\ queue_len q <= 2 /\
    exists q', passes [400; 1000; 1700; 2000; 3400; 3500; 5100; 6000; 6700] q = (Ok tt, q') /\ entries q' = [].
Proof.
  destruct (half_open_table 2 30 sample_ops) as (r & q & Hrun & Hlen & _ & _ & _ & Hp);
    [lia|unfold sample_ops, op_in_time; forall_lia|unfold sample_ops, op_time; forall_lia|].
  exists r, q. split; [done|]. split; [done|]. apply (Hp _ [1700; 3400; 5100; 6700]).
  - repeat constructor; lia.
  - repeat constructor; vm_compute; discriminate.
  - repeat constructor.
  - cbn [spaced]. lia.
  - reflexivity.
Defined.

Lemma sample_answers :
  fst (run_ops sample_ops (queue_new 2)) =
    Ok [AAction New; AAction New; AAction Full; AEmbryo None; AEmbryo (Some (mkEmbryo 1 7 500 1 100 tt));
        AAction Retransmit; AUnit; ADue [2] []].
Proof. vm_compute. reflexivity. Qed.

(** The kernel's limiter for ICMP errors: 20 at once, 20 a second. *)
Lemma rate_limited_witness :
  exists n0 b0 n1 b1,
    allow_all (zrepeat 3 25) (bucket_new 20 20 100) = (Ok n0, b0) /\ allow_all [3; 50; 103] b0 = (Ok n1, b1) /\
    n1 * 100 <= 20 * 100 + 100 * 20.
Proof.
  destruct (rate_limited 20 20 100 3 103 (zrepeat 3 25) [3; 50; 103]) as (n0 & b0 & n1 & b1 & H0 & H1 & Hn & _);
    try (unfold SCALE; ulia).
  - apply Forall_replicate. lia.
  - forall_lia.
  - exists n0, b0, n1, b1. split; [exact H0|]. split; [exact H1|]. lia.
Defined.
End TcpOpen.
