(* ===== verification/Unix.v ===== *)
(** Local sockets ([src/crates/euronet/src/unix.rs]) and their concurrent form
    ([src/crates/euronet/src/unix/shared.rs]).

    [Switchboard] is the value that owns all listeners and connections.
    [SharedSwitchboard] has a lock for the listeners, one for the table of
    connections and one per connection; a call is a sequence of lock sections, and
    between two of them any other call may run.  Connections are shared objects: the
    table holds references into a store, as the [Arc]s of the code do, and a call
    that has fetched a reference keeps it after the slot is emptied. *)

From stdpp Require Import gmap.
From S2P Require Import Prelude.

Module Unix.

(** ** The switchboard behind one lock *)

Definition Path := list Z.

Inductive Side := A | B.
#[global] Instance side_eq_dec : EqDecision Side.
Proof. solve_decision. Defined.

Record Endpoint := mkEp {
  conn : Z;
  side : Side;
}.
#[global] Instance endpoint_eq_dec : EqDecision Endpoint.
Proof. solve_decision. Defined.

(** [Endpoint::key] and [peer_key]: this side and the other one. *)
Definition ep_key (ep : Endpoint) : Z * Z := (conn ep, match side ep with A => 0 | B => 1 end).
Definition ep_peer_key (ep : Endpoint) : Z * Z := (conn ep, match side ep with A => 1 | B => 0 end).

Record Conn := mkConn {
  a_to_b : list Z;
  b_to_a : list Z;
  a_open : bool;
  b_open : bool;
}.

Record Listener := mkListener {
  backlog : Z;
  pending : list Endpoint;
}.

Inductive UnixError := ConnRefused | AddrInUse | Backlog | BadEndpoint | BrokenPipe.

Record Switchboard := mkSwitch {
  listeners : gmap Path Listener;
  conns : list (option Conn);
}.

Definition M := ST Switchboard UnixError.

Definition switch_new : Switchboard := mkSwitch ∅ [].
Definition new_pair : Conn := mkConn [] [] true true.

Definition set_listeners (l : gmap Path Listener) (s : Switchboard) : Switchboard := mkSwitch l (conns s).
Definition set_conns (c : list (option Conn)) (s : Switchboard) : Switchboard := mkSwitch (listeners s) c.

Definition bind_listen (path : Path) (n : Z) : M unit :=
  let! ls := sget listeners in
  match ls !! path with
  | Some _ => sthrow AddrInUse
  | None => smodify (set_listeners (<[path := mkListener (Z.max n 1) []]> ls))
  end.

Definition unbind (path : Path) : M bool :=
  let! ls := sget listeners in
  smodify (set_listeners (base.delete path ls)) ;;!
  sret (bool_decide (is_Some (ls !! path))).

Definition is_listening (path : Path) : M bool :=
  let! ls := sget listeners in sret (bool_decide (is_Some (ls !! path))).

Definition connect (path : Path) : M Endpoint :=
  let! ls := sget listeners in
  match ls !! path with
  | None => sthrow ConnRefused
  | Some l =>
      if backlog l <=? zlen (pending l) then sthrow Backlog
      else
        let! cs := sget conns in
        let id := zlen cs mod 2 ^ 32 in
        smodify (set_conns (cs ++ [Some new_pair])) ;;!
        smodify (set_listeners (<[path := mkListener (backlog l) (pending l ++ [mkEp id B])]> ls)) ;;!
        sret (mkEp id A)
  end.

Definition accept (path : Path) : M (option Endpoint) :=
  let! ls := sget listeners in
  match ls !! path with
  | None => sret None
  | Some l =>
      match pending l with
      | [] => sret None
      | ep :: rest => smodify (set_listeners (<[path := mkListener (backlog l) rest]> ls)) ;;! sret (Some ep)
      end
  end.

Definition pending_count (path : Path) : M Z :=
  let! ls := sget listeners in
  sret (match ls !! path with Some l => zlen (pending l) | None => 0 end).

(** [conn_ref] and [conn_mut]. *)
Definition conn_ref (ep : Endpoint) : M Conn :=
  let! cs := sget conns in
  match cs !! Z.to_nat (conn ep) with
  | Some (Some c) => sret c
  | _ => sthrow BadEndpoint
  end.

Definition put_conn (ep : Endpoint) (c : Conn) : M unit :=
  let! cs := sget conns in smodify (set_conns (<[Z.to_nat (conn ep) := Some c]> cs)).

(** The two crossed streams of a connection, seen from a side. *)
Definition inbox (sd : Side) (c : Conn) : list Z := match sd with A => b_to_a c | B => a_to_b c end.
Definition peer_open (sd : Side) (c : Conn) : bool := match sd with A => b_open c | B => a_open c end.

Definition conn_send (sd : Side) (data : list Z) (c : Conn) : outcome UnixError (Z * Conn) :=
  if negb (peer_open sd c) then Err BrokenPipe
  else
    Ok (zlen data,
        match sd with
        | A => mkConn (a_to_b c ++ data) (b_to_a c) (a_open c) (b_open c)
        | B => mkConn (a_to_b c) (b_to_a c ++ data) (a_open c) (b_open c)
        end).

Definition conn_recv (sd : Side) (max : Z) (c : Conn) : list Z * Conn :=
  let n := Z.to_nat (Z.min max (zlen (inbox sd c))) in
  (take n (inbox sd c),
   match sd with
   | A => mkConn (a_to_b c) (drop n (b_to_a c)) (a_open c) (b_open c)
   | B => mkConn (drop n (a_to_b c)) (b_to_a c) (a_open c) (b_open c)
   end).

Definition conn_readable (sd : Side) (c : Conn) : bool := negb (bool_decide (inbox sd c = [])) || negb (peer_open sd c).
Definition conn_at_eof (sd : Side) (c : Conn) : bool := bool_decide (inbox sd c = []) && negb (peer_open sd c).

Definition conn_close (sd : Side) (c : Conn) : Conn :=
  match sd with
  | A => mkConn (a_to_b c) (b_to_a c) false (b_open c)
  | B => mkConn (a_to_b c) (b_to_a c) (a_open c) false
  end.
Definition both_closed (c : Conn) : bool := negb (a_open c) && negb (b_open c).

Definition send (ep : Endpoint) (data : list Z) : M Z :=
  let! c := conn_ref ep in
  let! r := slift (conn_send (side ep) data c) in
  put_conn ep (snd r) ;;!
  sret (fst r).

Definition recv (ep : Endpoint) (max : Z) : M (list Z) :=
  let! c := conn_ref ep in
  let r := conn_recv (side ep) max c in
  put_conn ep (snd r) ;;!
  sret (fst r).

(** The queries catch the error of [conn_ref]. *)
Definition query {R} (ep : Endpoint) (f : Conn -> R) (default : R) : M R := fun s =>
  match conn_ref ep s with
  | (Ok c, _) => (Ok (f c), s)
  | _ => (Ok default, s)
  end.

Definition readable (ep : Endpoint) : M bool := query ep (conn_readable (side ep)) false.
Definition at_eof (ep : Endpoint) : M bool := query ep (conn_at_eof (side ep)) true.
Definition available (ep : Endpoint) : M Z := query ep (fun c => zlen (inbox (side ep) c)) 0.

Definition close (ep : Endpoint) : M unit :=
  let! cs := sget conns in
  match cs !! Z.to_nat (conn ep) with
  | Some (Some c) =>
      let c' := conn_close (side ep) c in
      smodify (set_conns (<[Z.to_nat (conn ep) := if both_closed c' then None else Some c']> cs))
  | _ => sret tt
  end.

(** ** Calls and answers *)

Inductive call :=
  | CBind (path : Path) (n : Z)
  | CUnbind (path : Path)
  | CListening (path : Path)
  | CConnect (path : Path)
  | CAccept (path : Path)
  | CPending (path : Path)
  | CSend (ep : Endpoint) (data : list Z)
  | CRecv (ep : Endpoint) (max : Z)
  | CReadable (ep : Endpoint)
  | CEof (ep : Endpoint)
  | CAvailable (ep : Endpoint)
  | CClose (ep : Endpoint).

Inductive answer :=
  | AErr (e : UnixError)
  | AUnit
  | ABool (b : bool)
  | AEp (ep : Endpoint)
  | AOpt (ep : option Endpoint)
  | ANum (n : Z)
  | ABytes (l : list Z)
  | ACrash.

Definition answer_of {R} (f : R -> answer) (m : M R) (s : Switchboard) : answer * Switchboard :=
  match m s with
  | (Ok r, s') => (f r, s')
  | (Err e, s') => (AErr e, s')
  | (_, s') => (ACrash, s')
  end.

Definition exec (c : call) : Switchboard -> answer * Switchboard :=
  match c with
  | CBind path n => answer_of (fun _ => AUnit) (bind_listen path n)
  | CUnbind path => answer_of ABool (unbind path)
  | CListening path => answer_of ABool (is_listening path)
  | CConnect path => answer_of AEp (connect path)
  | CAccept path => answer_of AOpt (accept path)
  | CPending path => answer_of ANum (pending_count path)
  | CSend ep data => answer_of ANum (send ep data)
  | CRecv ep max => answer_of ABytes (recv ep max)
  | CReadable ep => answer_of ABool (readable ep)
  | CEof ep => answer_of ABool (at_eof ep)
  | CAvailable ep => answer_of ANum (available ep)
  | CClose ep => answer_of (fun _ => AUnit) (close ep)
  end.

Fixpoint exec_all (cs : list call) (s : Switchboard) : list answer * Switchboard :=
  match cs with
  | [] => ([], s)
  | c :: cs' => let '(a, s1) := exec c s in let '(r, s2) := exec_all cs' s1 in (a :: r, s2)
  end.

(** ** The switchboard with a lock per connection *)

(** [store] are the connection objects, [table] the references in the slots. *)
Record Shared := mkShared {
  sh_listeners : gmap Path Listener;
  store : list Conn;
  table : list (option nat);
}.

Definition shared_new : Shared := mkShared ∅ [] [].

(** A call between two lock sections.  [Locked c r] has fetched the reference [r]
    and is about to lock that connection. *)
Inductive proc :=
  | Start (c : call)
  | ConnectNew (path : Path)
  | ConnectQueue (path : Path) (id : Z)
  | ConnectUndo (id : Z) (e : UnixError)
  | Locked (c : call) (r : nat)
  | CloseDrop (id : Z)
  | Done (a : answer).

(** What a lock section achieves. *)
Inductive event :=
  | EConnected (ep : Endpoint)
  | EAccepted (ep : Endpoint)
  | ESent (ep : Endpoint) (data : list Z)
  | EReceived (ep : Endpoint) (data : list Z)
  | EClosed (ep : Endpoint).

Definition set_sh_listeners (l : gmap Path Listener) (s : Shared) : Shared := mkShared l (store s) (table s).
Definition set_store (st : list Conn) (s : Shared) : Shared := mkShared (sh_listeners s) st (table s).

Definition full (l : Listener) : bool := backlog l <=? zlen (pending l).

Definition new_conn (s : Shared) : Z * Shared :=
  let t := table s ++ [Some (length (store s))] in
  ((zlen t - 1) mod 2 ^ 32, mkShared (sh_listeners s) (store s ++ [new_pair]) t).

Definition drop_conn (id : Z) (s : Shared) : Shared :=
  mkShared (sh_listeners s) (store s) (<[Z.to_nat id := None]> (table s)).

(** [self.conn(ep)], under the read lock of the table. *)
Definition shared_conn (ep : Endpoint) (s : Shared) : option nat := mjoin (table s !! Z.to_nat (conn ep)).

(** The calls on the listeners. *)
Definition shared_bind (path : Path) (n : Z) (s : Shared) : proc * Shared * list event :=
  match sh_listeners s !! path with
  | Some _ => (Done (AErr AddrInUse), s, [])
  | None => (Done AUnit, set_sh_listeners (<[path := mkListener (Z.max n 1) []]> (sh_listeners s)) s, [])
  end.

Definition shared_unbind (path : Path) (s : Shared) : proc * Shared * list event :=
  (Done (ABool (bool_decide (is_Some (sh_listeners s !! path)))),
   set_sh_listeners (base.delete path (sh_listeners s)) s, []).

Definition shared_accept (path : Path) (s : Shared) : proc * Shared * list event :=
  match sh_listeners s !! path with
  | Some (mkListener n (ep :: rest)) =>
      (Done (AOpt (Some ep)), set_sh_listeners (<[path := mkListener n rest]> (sh_listeners s)) s, [EAccepted ep])
  | _ => (Done (AOpt None), s, [])
  end.

(** The three sections of [connect]: the cheap refusal, the new connection, and its
    place in the queue; the last one undoes a connection that lost a race. *)
Definition connect_check (path : Path) (s : Shared) : proc * Shared * list event :=
  match sh_listeners s !! path with
  | None => (Done (AErr ConnRefused), s, [])
  | Some l => if full l then (Done (AErr Backlog), s, []) else (ConnectNew path, s, [])
  end.

Definition connect_create (path : Path) (s : Shared) : proc * Shared * list event :=
  let '(id, s') := new_conn s in (ConnectQueue path id, s', []).

Definition connect_queue (path : Path) (id : Z) (s : Shared) : proc * Shared * list event :=
  match sh_listeners s !! path with
  | None => (ConnectUndo id ConnRefused, s, [])
  | Some l =>
      if full l then (ConnectUndo id Backlog, s, [])
      else
        (Done (AEp (mkEp id A)),
         set_sh_listeners (<[path := mkListener (backlog l) (pending l ++ [mkEp id B])]> (sh_listeners s)) s,
         [EConnected (mkEp id A)])
  end.

(** The calls on an endpoint: what they answer without a connection, and what they
    do under its lock. *)
Definition absent (c : call) : answer :=
  match c with
  | CSend _ _ | CRecv _ _ => AErr BadEndpoint
  | CReadable _ => ABool false
  | CEof _ => ABool true
  | CAvailable _ => ANum 0
  | _ => AUnit
  end.

Definition shared_lookup (c : call) (ep : Endpoint) (s : Shared) : proc * Shared * list event :=
  match shared_conn ep s with
  | Some r => (Locked c r, s, [])
  | None => (Done (absent c), s, [])
  end.

Definition shared_locked (c : call) (r : nat) (k : Conn) (s : Shared) : proc * Shared * list event :=
  match c with
  | CSend ep data =>
      match conn_send (side ep) data k with
      | Ok (n, k') => (Done (ANum n), set_store (<[r := k']> (store s)) s, [ESent ep data])
      | Err e => (Done (AErr e), s, [])
      | _ => (Done ACrash, s, [])
      end
  | CRecv ep max =>
      let '(l, k') := conn_recv (side ep) max k in
      (Done (ABytes l), set_store (<[r := k']> (store s)) s, [EReceived ep l])
  | CReadable ep => (Done (ABool (conn_readable (side ep) k)), s, [])
  | CEof ep => (Done (ABool (conn_at_eof (side ep) k)), s, [])
  | CAvailable ep => (Done (ANum (zlen (inbox (side ep) k))), s, [])
  | CClose ep =>
      let k' := conn_close (side ep) k in
      (if both_closed k' then CloseDrop (conn ep) else Done AUnit, set_store (<[r := k']> (store s)) s, [EClosed ep])
  | _ => (Done ACrash, s, [])
  end.

(** One lock section of a call. *)
Definition micro (p : proc) (s : Shared) : proc * Shared * list event :=
  match p with
  | Start (CBind path n) => shared_bind path n s
  | Start (CUnbind path) => shared_unbind path s
  | Start (CListening path) => (Done (ABool (bool_decide (is_Some (sh_listeners s !! path)))), s, [])
  | Start (CConnect path) => connect_check path s
  | Start (CAccept path) => shared_accept path s
  | Start (CPending path) =>
      (Done (ANum (match sh_listeners s !! path with Some l => zlen (pending l) | None => 0 end)), s, [])
  | Start ((CSend ep _ | CRecv ep _ | CReadable ep | CEof ep | CAvailable ep | CClose ep) as c) => shared_lookup c ep s
  | ConnectNew path => connect_create path s
  | ConnectQueue path id => connect_queue path id s
  | ConnectUndo id e => (Done (AErr e), drop_conn id s, [])
  | Locked c r =>
      match store s !! r with
      | Some k => shared_locked c r k s
      | None => (Done ACrash, s, [])
      end
  | CloseDrop id => (Done AUnit, drop_conn id s, [])
  | Done a => (Done a, s, [])
  end.

Definition live_connections (s : Shared) : Z := zlen (filter is_Some (table s)).

(** *** A call that is not interrupted *)

Fixpoint run (n : nat) (p : proc) (s : Shared) : proc * Shared :=
  match n with
  | O => (p, s)
  | S n' => let '(p', s', _) := micro p s in run n' p' s'
  end.

(** No call has more than four lock sections. *)
Definition alone (c : call) (s : Shared) : answer * Shared :=
  match run 4 (Start c) s with
  | (Done a, s') => (a, s')
  | (_, s') => (ACrash, s')
  end.

Fixpoint alone_all (cs : list call) (s : Shared) : list answer * Shared :=
  match cs with
  | [] => ([], s)
  | c :: cs' => let '(a, s1) := alone c s in let '(r, s2) := alone_all cs' s1 in (a :: r, s2)
  end.

(** ** Uninterrupted, both switchboards are the same *)

(** The switchboard a shared one stands for. *)
Definition abs (s : Shared) : Switchboard :=
  mkSwitch (sh_listeners s) ((fun o => r ← o; store s !! r) <$> table s).

(** Slot [i] refers to connection [i] or to none. *)
Definition slots_ok (s : Shared) : Prop :=
  length (table s) = length (store s) /\ forall i r, table s !! i = Some (Some r) -> r = i.

Lemma slot_store s i r : slots_ok s -> table s !! i = Some (Some r) -> r = i /\ exists k, store s !! i = Some k.
Proof.
  intros [Hl Hs] Hi. split; [by eapply Hs|]. apply lookup_lt_is_Some. rewrite <- Hl. by eapply lookup_lt_Some.
Qed.

Lemma shared_conn_some ep s r :
  slots_ok s -> shared_conn ep s = Some r ->
  r = Z.to_nat (conn ep) /\ table s !! r = Some (Some r) /\
  exists k, store s !! r = Some k /\ conns (abs s) !! Z.to_nat (conn ep) = Some (Some k).
Proof.
  unfold shared_conn. intros Hok Hc. destruct (table s !! _) as [o|] eqn:Ht; [|done]. cbn in Hc. subst o.
  destruct (slot_store _ _ _ Hok Ht) as [-> [k Hk]]. split; [done|]. split; [done|].
  exists k. split; [done|]. cbn. rewrite list_lookup_fmap, Ht. cbn. by rewrite Hk.
Qed.

Lemma shared_conn_none ep s :
  shared_conn ep s = None ->
  conns (abs s) !! Z.to_nat (conn ep) = None \/ conns (abs s) !! Z.to_nat (conn ep) = Some None.
Proof.
  unfold shared_conn. intros Hc. cbn. rewrite list_lookup_fmap.
  destruct (table s !! _) as [o|]; [|by left]. cbn in Hc. subst o. by right.
Qed.

Lemma abs_set_store s r k :
  slots_ok s -> table s !! r = Some (Some r) ->
  abs (set_store (<[r := k]> (store s)) s) = set_conns (<[r := Some k]> (conns (abs s))) (abs s).
Proof.
  intros Hok Ht. destruct (slot_store _ _ _ Hok Ht) as [_ [k0 Hk0]]. unfold abs, set_conns. cbn. f_equal.
  apply list_eq. intros i. rewrite list_lookup_fmap. destruct (decide (i = r)) as [-> |Hne].
  - rewrite Ht. cbn. rewrite list_lookup_insert_eq by by eapply lookup_lt_Some.
    rewrite list_lookup_insert_eq; [done|]. rewrite length_fmap. by eapply lookup_lt_Some.
  - rewrite list_lookup_insert_ne, list_lookup_fmap by done. destruct (table s !! i) as [[r'|]|] eqn:Hi; [|done|done].
    cbn. rewrite (proj2 Hok _ _ Hi), list_lookup_insert_ne by done. done.
Qed.

Lemma abs_drop id s : abs (drop_conn id s) = set_conns (<[Z.to_nat id := None]> (conns (abs s))) (abs s).
Proof. unfold abs, drop_conn, set_conns. cbn. f_equal. by rewrite list_fmap_insert. Qed.

Lemma abs_new_conn s :
  slots_ok s -> conns (abs (snd (new_conn s))) = conns (abs s) ++ [Some new_pair].
Proof.
  intros Hok. cbn. rewrite fmap_app. cbn. rewrite lookup_app_r, Nat.sub_diag by done. cbn. f_equal.
  apply list_fmap_ext. intros i [r|] Hi; [|done]. cbn. apply lookup_app_l.
  destruct (slot_store _ _ _ Hok Hi) as [-> [k Hk]]. by eapply lookup_lt_Some.
Qed.

Lemma slots_set_store s r k : slots_ok s -> slots_ok (set_store (<[r := k]> (store s)) s).
Proof. intros [Hl Hs]. split; [cbn; by rewrite length_insert|done]. Qed.

Lemma slots_drop id s : slots_ok s -> slots_ok (drop_conn id s).
Proof.
  intros [Hl Hs]. split; [cbn; by rewrite length_insert|]. cbn. intros i r Hi.
  destruct (decide (i = Z.to_nat id)) as [-> |Hne].
  - apply list_lookup_insert_Some in Hi as [(_ & ? & _)|[? _]]; done.
  - rewrite list_lookup_insert_ne in Hi by done. by eapply Hs.
Qed.

Lemma slots_new_conn s : slots_ok s -> slots_ok (snd (new_conn s)).
Proof.
  intros [Hl Hs]. split; [cbn; rewrite !length_app; cbn; lia|]. cbn. intros i r Hi.
  apply lookup_app_Some in Hi as [Hi|[Hge Hi]]; [by eapply Hs|].
  apply list_lookup_singleton_Some in Hi as [? [= <-]]. lia.
Qed.

Lemma micro_slots p s p' s' es : micro p s = (p', s', es) -> slots_ok s -> slots_ok s'.
Proof.
  intros Hm Hok. destruct p as [c|path|path id|id e|c r|id|a]; cbn [micro] in Hm.
  - destruct c; cbn in Hm; unfold shared_bind, shared_accept, connect_check, shared_lookup, shared_unbind in Hm;
      repeat case_in Hm; simplify_eq; done.
  - unfold connect_create in Hm. destruct (new_conn s) as [id s1] eqn:Hn. simplify_eq.
    pose proof (slots_new_conn s Hok) as Hs. by rewrite Hn in Hs.
  - unfold connect_queue in Hm. repeat case_in Hm; simplify_eq; done.
  - simplify_eq. by apply slots_drop.
  - destruct (store s !! r) as [k|]; [|by simplify_eq]. destruct c; cbn in Hm; repeat case_in Hm; simplify_eq;
      try done; by apply slots_set_store.
  - simplify_eq. by apply slots_drop.
  - by simplify_eq.
Qed.

Definition agrees (c : call) (s : Shared) : Prop := exec c (abs s) = (fst (alone c s), abs (snd (alone c s))).

Lemma connect_agrees path s : slots_ok s -> agrees (CConnect path) s.
Proof.
  intros Hok. unfold agrees, alone. cbn [run micro exec]. unfold connect_check, answer_of, connect, sbind, sget, sgets.
  cbn [abs listeners]. destruct (sh_listeners s !! path) as [l|] eqn:Hl; [|done]. fold (full l).
  destruct (full l) eqn:Hf; [done|]. cbn [run micro]. unfold connect_create.
  pose proof (abs_new_conn s Hok) as Ha. destruct (new_conn s) as [id s1] eqn:Hn. cbn [snd] in Ha.
  assert (sh_listeners s1 = sh_listeners s) as Hsl by (unfold new_conn in Hn; by simplify_eq).
  assert (id = zlen (conns (abs s)) mod 2 ^ 32) as Hid.
  { unfold new_conn in Hn. assert (id = (zlen (table s ++ [Some (length (store s))]) - 1) mod 2 ^ 32) as -> by congruence.
    cbn [abs conns]. unfold zlen. rewrite length_app, length_fmap. cbn [length]. f_equal. lia. }
  cbn [run micro]. unfold connect_queue. rewrite Hsl, Hl, Hf. cbn [run fst snd].
  cbn [smodify sret set_conns set_listeners conns listeners]. rewrite Hid. unfold abs in *. cbn in *. rewrite Ha. done.
Qed.

(** The calls on an endpoint, once its connection is found or not. *)
Definition call_on (ep : Endpoint) (c : call) : Prop :=
  match c with
  | CSend ep' _ | CRecv ep' _ | CReadable ep' | CEof ep' | CAvailable ep' | CClose ep' => ep' = ep
  | _ => False
  end.

Lemma endpoint_agrees c ep s : slots_ok s -> call_on ep c -> agrees c s.
Proof.
  intros Hok Hc. unfold agrees, alone.
  assert (micro (Start c) s = shared_lookup c ep s) as Hstart by (destruct c; cbn in Hc; by try subst).
  change (run 4 (Start c) s) with (let '(p', s', _) := micro (Start c) s in run 3 p' s'). rewrite Hstart.
  unfold shared_lookup. destruct (shared_conn ep s) as [r|] eqn:Hs.
  - destruct (shared_conn_some _ _ _ Hok Hs) as (Hr & Ht & k & Hk & Hcs).
    cbn [run micro]. rewrite Hk. destruct c; cbn in Hc; try done; subst; cbn [exec shared_locked];
      unfold answer_of, send, recv, readable, at_eof, available, query, conn_ref, close, sbind, sget, sgets;
      rewrite Hcs; cbn [sret]; try done.
    + unfold slift. destruct (conn_send (side ep) data k) as [[n k']| | |] eqn:He; [|done|done|done].
      cbn [run micro fst snd]. by rewrite abs_set_store by done.
    + destruct (conn_recv (side ep) max k) as [l k'] eqn:He.
      cbn [run micro fst snd]. by rewrite abs_set_store by done.
    + set (k' := conn_close (side ep) k). destruct (both_closed k') eqn:Hb; cbn [run micro fst snd smodify].
      * rewrite abs_drop, abs_set_store by done. unfold set_conns. cbn. by rewrite list_insert_insert_eq.
      * by rewrite abs_set_store by done.
  - destruct (shared_conn_none _ _ Hs) as [Hcs|Hcs]; destruct c; cbn in Hc; try done; subst; cbn [run micro exec absent fst snd];
      unfold answer_of, send, recv, readable, at_eof, available, query, conn_ref, close, sbind, sget, sgets;
      by rewrite Hcs.
Qed.

Lemma alone_agrees c s : slots_ok s -> agrees c s.
Proof.
  intros Hok. destruct c; try by eapply endpoint_agrees.
  - unfold agrees, alone. cbn. unfold shared_bind, answer_of, bind_listen, sbind, sget, sgets. cbn.
    by destruct (sh_listeners s !! path).
  - done.
  - done.
  - by apply connect_agrees.
  - unfold agrees, alone. cbn. unfold shared_accept, answer_of, accept, sbind, sget, sgets. cbn.
    destruct (sh_listeners s !! path) as [[n [|ep rest]]|]; done.
  - done.
Qed.

Lemma run_slots n p s : slots_ok s -> slots_ok (snd (run n p s)).
Proof.
  revert p s. induction n as [|n IH]; intros p s Hok; [done|]. cbn [run].
  destruct (micro p s) as [[p' s'] es] eqn:Hm. eapply IH, micro_slots; eauto.
Qed.

Lemma alone_slots c s : slots_ok s -> slots_ok (snd (alone c s)).
Proof.
  intros Hok. pose proof (run_slots 4 (Start c) s Hok) as Hr. unfold alone.
  destruct (run 4 (Start c) s) as [[] s']; exact Hr.
Qed.

Lemma alone_all_agrees cs s :
  slots_ok s -> exec_all cs (abs s) = (fst (alone_all cs s), abs (snd (alone_all cs s))).
Proof.
  revert s. induction cs as [|c cs IH]; intros s Hok; [done|]. cbn [exec_all alone_all].
  rewrite (alone_agrees c s Hok). pose proof (alone_slots c s Hok) as Hok1.
  destruct (alone c s) as [a s1]. cbn [fst snd] in *. rewrite IH by done. by destruct (alone_all cs s1).
Qed.

(** ** Any number of calls at a time *)

Definition other (sd : Side) : Side := match sd with A => B | B => A end.
Definition peer (ep : Endpoint) : Endpoint := mkEp (conn ep) (other (side ep)).

Definition event_ep (e : event) : Endpoint :=
  match e with
  | EConnected ep | EAccepted ep | ESent ep _ | EReceived ep _ | EClosed ep => ep
  end.

(** The endpoints given to callers; an endpoint has private fields, so a caller can
    only use one that some call returned. *)
Definition handed (tr : list event) : list Endpoint :=
  omap (fun e => match e with EConnected ep | EAccepted ep => Some ep | _ => None end) tr.

Definition sent (ep : Endpoint) (tr : list event) : list Z :=
  concat (omap (fun e => match e with ESent ep' d => if decide (ep' = ep) then Some d else None | _ => None end) tr).
Definition received (ep : Endpoint) (tr : list event) : list Z :=
  concat (omap (fun e => match e with EReceived ep' d => if decide (ep' = ep) then Some d else None | _ => None end) tr).

Definition permitted (tr : list event) (c : call) : Prop := forall ep, call_on ep c -> ep ∈ handed tr.

Inductive sys : list proc -> Shared -> list event -> Prop :=
  | sys_start : sys [] shared_new []
  | sys_call ps s tr c : sys ps s tr -> permitted tr c -> sys (ps ++ [Start c]) s tr
  | sys_step ps s tr i p p' s' es :
      sys ps s tr -> ps !! i = Some p -> micro p s = (p', s', es) -> sys (<[i := p']> ps) s' (tr ++ es).

(** *** Every byte arrives once and in order *)

Definition ep_in (s : Shared) (ep : Endpoint) : Prop := 0 <= conn ep < zlen (store s).

Definition proc_in (s : Shared) (p : proc) : Prop :=
  match p with
  | Start c => forall ep, call_on ep c -> ep_in s ep
  | Locked c r => exists ep, call_on ep c /\ ep_in s ep /\ r = Z.to_nat (conn ep)
  | ConnectQueue _ id | ConnectUndo id _ | CloseDrop id => 0 <= id < zlen (store s)
  | ConnectNew _ | Done _ => True
  end.

Definition streams_ok (s : Shared) (tr : list event) : Prop :=
  forall ep k, ep_in s ep -> store s !! Z.to_nat (conn ep) = Some k ->
    sent (peer ep) tr = received ep tr ++ inbox (side ep) k.

Record Basic (ps : list proc) (s : Shared) (tr : list event) : Prop := {
  bs_slots : slots_ok s;
  bs_procs : Forall (proc_in s) ps;
  bs_events : Forall (fun e => ep_in s (event_ep e)) tr;
  bs_pending : map_Forall (fun _ l => Forall (ep_in s) (pending l)) (sh_listeners s);
  bs_streams : streams_ok s tr;
}.

Lemma peer_peer ep : peer (peer ep) = ep.
Proof. by destruct ep as [? []]. Qed.

Lemma handed_app tr tr' : handed (tr ++ tr') = handed tr ++ handed tr'.
Proof. apply omap_app. Qed.
Lemma sent_app ep tr tr' : sent ep (tr ++ tr') = sent ep tr ++ sent ep tr'.
Proof. unfold sent. by rewrite omap_app, concat_app. Qed.
Lemma received_app ep tr tr' : received ep (tr ++ tr') = received ep tr ++ received ep tr'.
Proof. unfold received. by rewrite omap_app, concat_app. Qed.

Lemma sent_one q ep d : sent q [ESent ep d] = if decide (ep = q) then d else [].
Proof. unfold sent. cbn. case_decide; cbn; [apply app_nil_r|done]. Qed.
Lemma received_one q ep d : received q [EReceived ep d] = if decide (ep = q) then d else [].
Proof. unfold received. cbn. case_decide; cbn; [apply app_nil_r|done]. Qed.

Lemma handed_in s tr ep : Forall (fun e => ep_in s (event_ep e)) tr -> ep ∈ handed tr -> ep_in s ep.
Proof.
  intros Htr (e & He & Hep)%list_elem_of_omap. rewrite Forall_forall in Htr. specialize (Htr e He).
  by destruct e; simplify_eq.
Qed.

Lemma quiet_sent s tr ep :
  Forall (fun e => ep_in s (event_ep e)) tr -> ~ ep_in s ep -> sent ep tr = [] /\ received ep tr = [].
Proof.
  intros Htr Hep. unfold sent, received. induction Htr as [|e tr He _ [IH1 IH2]]; [done|].
  destruct e; cbn in *; try done; (case_decide; [subst; contradiction|by split]).
Qed.

Lemma conn_send_inbox sd d k n k' sd' :
  conn_send sd d k = Ok (n, k') -> inbox sd' k' = inbox sd' k ++ (if decide (sd' = other sd) then d else []).
Proof.
  unfold conn_send. destruct (peer_open sd k); cbn; [|done]. intros [= <- <-].
  destruct sd, sd'; cbn; by rewrite ?app_nil_r.
Qed.

Lemma conn_recv_inbox sd m k l k' sd' :
  conn_recv sd m k = (l, k') -> inbox sd' k = (if decide (sd' = sd) then l else []) ++ inbox sd' k'.
Proof.
  unfold conn_recv. set (n := Z.to_nat _). clearbody n. intros [= <- <-].
  destruct sd, sd'; cbn; case_decide; try done; by rewrite take_drop.
Qed.

Lemma conn_close_inbox sd sd' k : inbox sd' (conn_close sd k) = inbox sd' k.
Proof. by destruct sd, sd'. Qed.

(** What a lock section can do, one constructor per kind of effect. *)
Inductive effect : proc -> Shared -> proc -> Shared -> list event -> Prop :=
  | eff_bind path n s :
      sh_listeners s !! path = None ->
      effect (Start (CBind path n)) s (Done AUnit)
        (set_sh_listeners (<[path := mkListener (Z.max n 1) []]> (sh_listeners s)) s) []
  | eff_unbind path s b :
      effect (Start (CUnbind path)) s (Done (ABool b)) (set_sh_listeners (base.delete path (sh_listeners s)) s) []
  | eff_accept path s n ep rest :
      sh_listeners s !! path = Some (mkListener n (ep :: rest)) ->
      effect (Start (CAccept path)) s (Done (AOpt (Some ep)))
        (set_sh_listeners (<[path := mkListener n rest]> (sh_listeners s)) s) [EAccepted ep]
  | eff_create path s :
      effect (ConnectNew path) s (ConnectQueue path (fst (new_conn s))) (snd (new_conn s)) []
  | eff_queue path id s l :
      sh_listeners s !! path = Some l -> full l = false ->
      effect (ConnectQueue path id) s (Done (AEp (mkEp id A)))
        (set_sh_listeners (<[path := mkListener (backlog l) (pending l ++ [mkEp id B])]> (sh_listeners s)) s)
        [EConnected (mkEp id A)]
  | eff_undo_later path id s e : effect (ConnectQueue path id) s (ConnectUndo id e) s []
  | eff_undo id e s : effect (ConnectUndo id e) s (Done (AErr e)) (drop_conn id s) []
  | eff_lookup c ep s r : call_on ep c -> shared_conn ep s = Some r -> effect (Start c) s (Locked c r) s []
  | eff_send ep d r k n k' s :
      store s !! r = Some k -> conn_send (side ep) d k = Ok (n, k') ->
      effect (Locked (CSend ep d) r) s (Done (ANum n)) (set_store (<[r := k']> (store s)) s) [ESent ep d]
  | eff_recv ep m r k l k' s :
      store s !! r = Some k -> conn_recv (side ep) m k = (l, k') ->
      effect (Locked (CRecv ep m) r) s (Done (ABytes l)) (set_store (<[r := k']> (store s)) s) [EReceived ep l]
  | eff_close ep r k s :
      store s !! r = Some k ->
      effect (Locked (CClose ep) r) s
        (if both_closed (conn_close (side ep) k) then CloseDrop (conn ep) else Done AUnit)
        (set_store (<[r := conn_close (side ep) k]> (store s)) s) [EClosed ep]
  | eff_drop id s : effect (CloseDrop id) s (Done AUnit) (drop_conn id s) []
  | eff_check path s : effect (Start (CConnect path)) s (ConnectNew path) s []
  | eff_done p a s :
      match p with Start _ | Locked _ _ | Done _ => True | _ => False end -> effect p s (Done a) s [].

Lemma lookup_effect c ep s p' s' es :
  call_on ep c -> shared_lookup c ep s = (p', s', es) -> effect (Start c) s p' s' es.
Proof.
  intros Hc. unfold shared_lookup. destruct (shared_conn ep s) as [r|] eqn:Hr; intros [= <- <- <-].
  - by eapply eff_lookup.
  - by apply eff_done.
Qed.

Lemma locked_effect c r k s p' s' es :
  store s !! r = Some k -> shared_locked c r k s = (p', s', es) -> effect (Locked c r) s p' s' es.
Proof.
  intros Hk. destruct c; cbn [shared_locked]; try (intros [= <- <- <-]; by apply eff_done).
  - destruct (conn_send (side ep) data k) as [[n k']| | |] eqn:Hs; intros [= <- <- <-]; try by apply eff_done.
    by eapply eff_send.
  - destruct (conn_recv (side ep) max k) as [l k'] eqn:Hs. intros [= <- <- <-]. by eapply eff_recv.
  - intros [= <- <- <-]. by apply eff_close.
Qed.

Lemma micro_effect p s p' s' es : micro p s = (p', s', es) -> effect p s p' s' es.
Proof.
  destruct p as [c|path|path id|id e|c r|id|a]; cbn [micro]; try (intros [= <- <- <-]; by constructor).
  - destruct c; try (by apply lookup_effect); try (intros [= <- <- <-]; by constructor).
    + unfold shared_bind. destruct (sh_listeners s !! path) eqn:Hl; intros [= <- <- <-]; by constructor.
    + unfold connect_check. destruct (sh_listeners s !! path) as [l|]; [destruct (full l)|]; intros [= <- <- <-]; by constructor.
    + unfold shared_accept. destruct (sh_listeners s !! path) as [[n [|ep rest]]|] eqn:Hl; intros [= <- <- <-];
        try by apply eff_done. by apply eff_accept.
  - unfold connect_queue. destruct (sh_listeners s !! path) as [l|] eqn:Hl; [destruct (full l) eqn:Hf|];
      intros [= <- <- <-]; [apply eff_undo_later|by apply eff_queue|apply eff_undo_later].
  - destruct (store s !! r) as [k|] eqn:Hk; [by apply locked_effect|]. intros [= <- <- <-]. by apply eff_done.
Qed.

Lemma effect_grows p s p' s' es : effect p s p' s' es -> zlen (store s) <= zlen (store s').
Proof.
  intros []; cbn [set_sh_listeners set_store drop_conn store snd new_conn]; rewrite ?zlen_app; unfold zlen;
    rewrite ?length_insert; cbn [length]; lia.
Qed.

Lemma proc_in_grows s s' p : zlen (store s) <= zlen (store s') -> proc_in s p -> proc_in s' p.
Proof. unfold proc_in, ep_in. intros Hz. destruct p; naive_solver lia. Qed.

Lemma new_conn_id s : slots_ok s -> zlen (store s) < 2 ^ 32 -> fst (new_conn s) = zlen (store s).
Proof.
  intros [Hl _] Hz. cbn [new_conn fst]. rewrite zlen_app. change (zlen [Some (length (store s))]) with 1.
  unfold zlen in *. rewrite Hl. rewrite Z.mod_small by lia. lia.
Qed.

Lemma effect_proc_in p s p' s' es :
  effect p s p' s' es -> slots_ok s -> zlen (store s') <= 2 ^ 32 -> proc_in s p -> proc_in s' p'.
Proof.
  intros He Hok Hz. destruct He; cbn [proc_in]; try done.
  - intros _. cbn [new_conn snd store] in Hz |- *. rewrite zlen_app in *. change (zlen [new_pair]) with 1 in *.
    rewrite new_conn_id by (done || lia). pose proof (zlen_nonneg (store s)). lia.
  - intros Hin. destruct (shared_conn_some _ _ _ Hok H0) as (-> & _). eauto.
  - intros (ep' & Hc & Hin & _). cbn in Hc. subst ep'. destruct (both_closed _); [|done]. cbn. unfold ep_in, zlen in *.
    by rewrite length_insert.
Qed.

Lemma effect_events_in p s p' s' es :
  effect p s p' s' es -> proc_in s p -> map_Forall (fun _ l => Forall (ep_in s) (pending l)) (sh_listeners s) ->
  Forall (fun e => ep_in s (event_ep e)) es.
Proof.
  intros He Hp Hpend. destruct He; try done; apply Forall_singleton; cbn [event_ep].
  - apply Hpend in H. by apply Forall_cons in H as [? _].
  - exact Hp.
  - destruct Hp as (ep' & Hc & Hin & _). cbn in Hc. by subst.
  - destruct Hp as (ep' & Hc & Hin & _). cbn in Hc. by subst.
  - destruct Hp as (ep' & Hc & Hin & _). cbn in Hc. by subst.
Qed.

Lemma ep_in_grows s s' ep : zlen (store s) <= zlen (store s') -> ep_in s ep -> ep_in s' ep.
Proof. unfold ep_in. lia. Qed.

Lemma effect_pending_in p s p' s' es :
  effect p s p' s' es -> proc_in s p ->
  map_Forall (fun _ l => Forall (ep_in s) (pending l)) (sh_listeners s) ->
  map_Forall (fun _ l => Forall (ep_in s') (pending l)) (sh_listeners s').
Proof.
  intros He Hp Hpend. pose proof (effect_grows _ _ _ _ _ He) as Hz.
  assert (map_Forall (fun _ l => Forall (ep_in s') (pending l)) (sh_listeners s)) as Hs.
  { intros path l Hl. eapply Forall_impl; [by eapply Hpend|]. intros ep. by apply ep_in_grows. }
  destruct He; try done; cbn [sh_listeners set_sh_listeners] in *.
  - by apply map_Forall_insert_2.
  - by apply map_Forall_delete.
  - apply map_Forall_insert_2; [|done]. apply Hs in H. by apply Forall_cons in H as [_ ?].
  - apply map_Forall_insert_2; [|done]. apply Forall_app. split; [by eapply Hs|]. apply Forall_singleton. exact Hp.
Qed.

Lemma streams_create s tr :
  slots_ok s -> Forall (fun e => ep_in s (event_ep e)) tr -> streams_ok s tr -> streams_ok (snd (new_conn s)) tr.
Proof.
  intros Hok Htr Hs ep k Hin Hk. cbn [new_conn snd store] in Hk.
  apply lookup_app_Some in Hk as [Hk|[Hge Hk]].
  - apply Hs; [|done]. apply lookup_lt_Some in Hk. unfold ep_in, zlen in *. lia.
  - apply list_lookup_singleton_Some in Hk as [_ <-].
    assert (~ ep_in s ep) as Hout by (unfold ep_in, zlen in *; lia).
    assert (~ ep_in s (peer ep)) as Hout' by exact Hout.
    rewrite (proj1 (quiet_sent _ _ _ Htr Hout')), (proj2 (quiet_sent _ _ _ Htr Hout)). by destruct (side ep).
Qed.

(** A change of one connection that moves bytes as the events say. *)
Lemma streams_update s tr ep k k' e :
  ep_in s ep -> store s !! Z.to_nat (conn ep) = Some k -> streams_ok s tr ->
  (forall q, conn q <> conn ep -> sent q [e] = [] /\ received q [e] = []) ->
  (forall q, conn q = conn ep -> inbox (side q) k ++ sent (peer q) [e] = received q [e] ++ inbox (side q) k') ->
  streams_ok (set_store (<[Z.to_nat (conn ep) := k']> (store s)) s) (tr ++ [e]).
Proof.
  intros Hin Hk Hs Hne Heq q kq Hq Hkq. unfold ep_in in Hq. cbn [set_store store] in Hq, Hkq.
  assert (ep_in s q) as Hq' by (unfold ep_in, zlen in *; by rewrite length_insert in Hq).
  rewrite sent_app, received_app. destruct (decide (conn q = conn ep)) as [Hc|Hc].
  - rewrite Hc, list_lookup_insert_eq in Hkq by by eapply lookup_lt_Some. injection Hkq as <-.
    rewrite (Hs q k Hq' ltac:(by rewrite Hc)), <- !app_assoc, Heq by done. done.
  - rewrite list_lookup_insert_ne in Hkq by (unfold ep_in in *; lia).
    rewrite (Hs q kq Hq' Hkq), (proj2 (Hne q Hc)), (proj1 (Hne (peer q) Hc)), !app_nil_r. done.
Qed.

Lemma other_neq sd : other sd <> sd.
Proof. by destruct sd. Qed.

Lemma ep_eq q ep : conn q = conn ep -> q = ep <-> side q = side ep.
Proof. destruct q, ep; cbn. intros ->. split; [by intros [=]|by intros ->]. Qed.

Lemma streams_other s s' tr es :
  store s' = store s -> (forall q, sent q es = [] /\ received q es = []) -> streams_ok s tr -> streams_ok s' (tr ++ es).
Proof.
  intros Hst Hes Hs q k Hq Hk. rewrite sent_app, received_app, (proj1 (Hes _)), (proj2 (Hes q)), !app_nil_r.
  unfold ep_in in Hq. rewrite Hst in Hq, Hk. by apply Hs.
Qed.

Lemma effect_streams p s p' s' es tr :
  effect p s p' s' es -> slots_ok s -> proc_in s p -> Forall (fun e => ep_in s (event_ep e)) tr ->
  streams_ok s tr -> streams_ok s' (tr ++ es).
Proof.
  intros He Hok Hp Htr Hs. destruct He; try (by apply (streams_other s)).
  - rewrite app_nil_r. by apply streams_create.
  - destruct Hp as (ep' & Hc & Hin & ->). cbn in Hc. subst ep'.
    apply streams_update with k; try done; intros q Hq; rewrite sent_one.
    + rewrite decide_False by congruence. done.
    + rewrite (conn_send_inbox _ _ _ _ _ (side q) H0). cbn [received concat omap list_omap app]. f_equal.
      destruct (decide (side q = other (side ep))) as [Hsd|Hsd].
      * rewrite decide_True; [done|]. apply ep_eq; [done|]. cbn. rewrite Hsd. by destruct (side ep).
      * rewrite decide_False; [done|]. intros Hep%ep_eq; [|done]. cbn in Hep. rewrite Hep in Hsd. by destruct (side q).
  - destruct Hp as (ep' & Hc & Hin & ->). cbn in Hc. subst ep'.
    apply streams_update with k; try done; intros q Hq; rewrite received_one.
    + rewrite decide_False by congruence. done.
    + rewrite (conn_recv_inbox _ _ _ _ _ (side q) H0), app_nil_r. f_equal.
      destruct (decide (side q = side ep)) as [Hsd|Hsd].
      * rewrite decide_True; [done|]. symmetry. by apply ep_eq.
      * rewrite decide_False; [done|]. by intros ->.
  - destruct Hp as (ep' & Hc & Hin & ->). cbn in Hc. subst ep'.
    apply streams_update with k; try done. intros q Hq. rewrite conn_close_inbox. apply app_nil_r.
Qed.

Lemma basic_step ps s tr i p p' s' es :
  Basic ps s tr -> ps !! i = Some p -> micro p s = (p', s', es) -> zlen (store s') <= 2 ^ 32 ->
  Basic (<[i := p']> ps) s' (tr ++ es).
Proof.
  intros [B1 B2 B3 B4 B5] Hi Hm Hz. pose proof (micro_effect _ _ _ _ _ Hm) as He.
  pose proof (effect_grows _ _ _ _ _ He) as Hg. rewrite Forall_lookup in B2. pose proof (B2 _ _ Hi) as Hp.
  split.
  - by eapply micro_slots.
  - apply Forall_insert; [|by eapply effect_proc_in]. apply Forall_lookup. intros j q Hj. eapply proc_in_grows; eauto.
  - apply Forall_app. split; (eapply Forall_impl; [|intros e; by apply ep_in_grows]); [done|].
    by eapply effect_events_in.
  - by eapply effect_pending_in.
  - by eapply effect_streams.
Qed.

Lemma sys_basic ps s tr : sys ps s tr -> zlen (store s) <= 2 ^ 32 -> Basic ps s tr.
Proof.
  induction 1 as [|ps s tr c Hs IH Hp|ps s tr i p p' s' es Hs IH Hi Hm]; intros Hz.
  - split; [|done|done|done|].
    + split; [done|]. intros i r Hi. by destruct i.
    + intros ep k Hin Hk. cbn in Hk. by rewrite lookup_nil in Hk.
  - destruct (IH Hz) as [B1 B2 B3 B4 B5]. split; try done. apply Forall_app. split; [done|]. apply Forall_singleton.
    intros ep Hep. eapply handed_in; [exact B3|]. by apply Hp.
  - pose proof (effect_grows _ _ _ _ _ (micro_effect _ _ _ _ _ Hm)). apply (basic_step ps s tr i p); try done.
    apply IH. lia.
Qed.

(** *** Every endpoint is given to one caller, and queues keep to their backlog *)

(** The connection a [connect] has created and not yet handed out. *)
Definition flight (p : proc) : option Z :=
  match p with
  | ConnectQueue _ id | ConnectUndo id _ => Some id
  | _ => None
  end.

Definition listener_ok (tr : list event) (l : Listener) : Prop :=
  1 <= backlog l /\ zlen (pending l) <= backlog l /\ NoDup (pending l) /\
  (forall ep, ep ∈ pending l -> side ep = B /\ (peer ep ∈ handed tr) /\ (ep ∉ handed tr)).

(** A connection in flight is nobody's yet, and one call's only. *)
Definition flights_ok (ps : list proc) (tr : list event) : Prop :=
  forall i p id, ps !! i = Some p -> flight p = Some id ->
    (mkEp id A ∉ handed tr) /\ (forall j q, ps !! j = Some q -> flight q = Some id -> j = i).

Record Tokens (ps : list proc) (s : Shared) (tr : list event) : Prop := {
  tk_once : NoDup (handed tr);
  tk_server : forall ep, ep ∈ handed tr -> side ep = B -> peer ep ∈ handed tr;
  tk_listeners : map_Forall (fun _ l => listener_ok tr l) (sh_listeners s);
  tk_paths : forall p1 p2 l1 l2 ep, sh_listeners s !! p1 = Some l1 -> sh_listeners s !! p2 = Some l2 ->
    ep ∈ pending l1 -> ep ∈ pending l2 -> p1 = p2;
  tk_flight : flights_ok ps tr;
}.

(** Steps that give out no endpoint and leave the queues. *)
Lemma tokens_quiet ps s tr i p p' s' es :
  Tokens ps s tr -> ps !! i = Some p -> sh_listeners s' = sh_listeners s -> handed es = [] ->
  (flight p' = None \/ flight p' = flight p) -> Tokens (<[i := p']> ps) s' (tr ++ es).
Proof.
  intros [T1 T2 T3 T4 T5] Hi Hl Hes Hf.
  assert (handed (tr ++ es) = handed tr) as Hh by by rewrite handed_app, Hes, app_nil_r.
  assert (forall j q id, <[i := p']> ps !! j = Some q -> flight q = Some id ->
    exists q0, ps !! j = Some q0 /\ flight q0 = Some id) as Hold.
  { intros j q id [(-> & <- & _)|[_ Hj]]%list_lookup_insert_Some Hq; [|by eauto].
    destruct Hf as [Hf|Hf]; [congruence|]. exists p. by rewrite <- Hf. }
  split; unfold listener_ok; rewrite ?Hh, ?Hl; try done.
  intros j q id Hj Hq. destruct (Hold _ _ _ Hj Hq) as (q0 & Hj0 & Hq0). destruct (T5 _ _ _ Hj0 Hq0) as [Hn Hu].
  rewrite Hh. split; [done|]. intros j' q' Hj' Hq'. destruct (Hold _ _ _ Hj' Hq') as (q1 & Hj1 & Hq1). eauto.
Qed.

(** Steps that end a call without a connection in flight. *)
Lemma flight_done ps i a tr es :
  flights_ok ps tr ->
  (forall j p id, j <> i -> ps !! j = Some p -> flight p = Some id -> mkEp id A ∉ handed es) ->
  flights_ok (<[i := Done a]> ps) (tr ++ es).
Proof.
  intros T5 Hes j p id [(-> & <- & _)|[Hne Hj]]%list_lookup_insert_Some Hp; [done|].
  destruct (T5 _ _ _ Hj Hp) as [Hn Hu]. split.
  - rewrite handed_app, elem_of_app. intros [?|?]; [done|]. by eapply Hes.
  - intros j' q [(-> & <- & _)|[_ Hj']]%list_lookup_insert_Some Hq; [done|]. by eapply Hu.
Qed.

Lemma tokens_accept ps s tr i path n ep rest :
  Tokens ps s tr -> sh_listeners s !! path = Some (mkListener n (ep :: rest)) ->
  Tokens (<[i := Done (AOpt (Some ep))]> ps)
    (set_sh_listeners (<[path := mkListener n rest]> (sh_listeners s)) s) (tr ++ [EAccepted ep]).
Proof.
  intros [T1 T2 T3 T4 T5] Hl. destruct (T3 _ _ Hl) as (L1 & L2 & [L3 L3']%NoDup_cons & L4). cbn in *.
  destruct (L4 ep) as (Hsd & Hpeer & Hnew); [set_solver|].
  assert (forall q, q ∈ handed (tr ++ [EAccepted ep]) <-> q ∈ handed tr \/ q = ep) as Hh
    by (intros q; rewrite handed_app; cbn; set_solver).
  split.
  - rewrite handed_app. apply NoDup_app. split; [done|]. split; [|by apply NoDup_singleton]. cbn. set_solver.
  - intros q. rewrite !Hh. intros [Hq| ->] Hb; [left; by apply T2|by left].
  - intros path' l' Hl'. cbn in Hl'. destruct (decide (path' = path)) as [-> |Hne].
    + rewrite lookup_insert_eq in Hl'. injection Hl' as <-. unfold listener_ok; cbn. rewrite zlen_cons in L2.
      split; [done|]. split; [lia|]. split; [done|]. intros q Hq. rewrite !Hh.
      destruct (L4 q) as (? & ? & ?); [set_solver|]. split; [done|]. split; [by left|]. intros [?| ->]; done.
    + rewrite lookup_insert_ne in Hl' by done. destruct (T3 _ _ Hl') as (M1 & M2 & M3 & M4).
      do 3 (split; [done|]). intros q Hq. rewrite !Hh. destruct (M4 q Hq) as (? & ? & ?).
      split; [done|]. split; [by left|]. intros [?| ->]; [done|]. apply Hne. eapply T4; [exact Hl'|exact Hl|done|cbn; set_solver].
  - cbn. intros p1 p2 l1 l2 q H1 H2 Hq1 Hq2.
    assert (forall p l, <[path := mkListener n rest]> (sh_listeners s) !! p = Some l -> q ∈ pending l ->
      exists l0, sh_listeners s !! p = Some l0 /\ q ∈ pending l0) as Hsub.
    { intros p0 l0 [[<- <-]|[_ H0]]%lookup_insert_Some Hq; [|by eauto]. exists (mkListener n (ep :: rest)). cbn in *. set_solver. }
    destruct (Hsub _ _ H1 Hq1) as (k1 & ? & ?), (Hsub _ _ H2 Hq2) as (k2 & ? & ?). by eapply T4.
  - eapply flight_done; [done|]. intros j p id _ _ _. cbn. intros Hin. apply list_elem_of_singleton in Hin. by subst ep.
Qed.

Lemma tokens_queue ps s tr i path id l :
  Tokens ps s tr -> ps !! i = Some (ConnectQueue path id) -> sh_listeners s !! path = Some l -> full l = false ->
  Tokens (<[i := Done (AEp (mkEp id A))]> ps)
    (set_sh_listeners (<[path := mkListener (backlog l) (pending l ++ [mkEp id B])]> (sh_listeners s)) s)
    (tr ++ [EConnected (mkEp id A)]).
Proof.
  intros [T1 T2 T3 T4 T5] Hi Hl Hf. destruct (T3 _ _ Hl) as (L1 & L2 & L3 & L4).
  destruct (T5 _ _ _ Hi eq_refl) as [Hnew Huniq].
  assert (forall q, q ∈ handed (tr ++ [EConnected (mkEp id A)]) <-> q ∈ handed tr \/ q = mkEp id A) as Hh
    by (intros q; rewrite handed_app; cbn; set_solver).
  assert (mkEp id B ∉ handed tr) as HnewB by (intros Hin; apply Hnew; exact (T2 _ Hin eq_refl)).
  assert (forall p l', sh_listeners s !! p = Some l' -> mkEp id B ∉ pending l') as Hnopend.
  { intros p l' Hl' Hin. destruct (T3 _ _ Hl') as (_ & _ & _ & M4). by destruct (M4 _ Hin) as (_ & ? & _). }
  assert (forall l', listener_ok tr l' -> listener_ok (tr ++ [EConnected (mkEp id A)]) l') as Hmono.
  { intros l' (M1 & M2 & M3 & M4). do 3 (split; [done|]). intros q Hq. rewrite !Hh. destruct (M4 q Hq) as (Hb & ? & ?).
    split; [done|]. split; [by left|]. intros [?| ->]; done. }
  split.
  - rewrite handed_app. apply NoDup_app. split; [done|]. split; [|by apply NoDup_singleton]. cbn. set_solver.
  - intros q. rewrite !Hh. intros [Hq| ->] Hb; [left; by apply T2|done].
  - cbn. apply map_Forall_insert_2; [|intros p' l' Hl'; apply Hmono; by eapply T3].
    unfold listener_ok. cbn [backlog pending]. unfold full in Hf. apply Z.leb_gt in Hf.
    rewrite zlen_app, zlen_cons, zlen_nil. split; [done|]. split; [lia|]. split.
    + apply NoDup_app. split; [done|]. split; [|by apply NoDup_singleton]. pose proof (Hnopend _ _ Hl). set_solver.
    + intros q [Hq| ->%list_elem_of_singleton]%elem_of_app; rewrite !Hh.
      * destruct (L4 q Hq) as (? & ? & ?). split; [done|]. split; [by left|]. intros [?| ->]; done.
      * split; [done|]. split; [by right|]. by intros [?|?].
  - cbn. intros p1 p2 l1 l2 q [[<- <-]|[N1 H1]]%lookup_insert_Some [[<- <-]|[N2 H2]]%lookup_insert_Some Hq1 Hq2; cbn in *.
    + done.
    + apply elem_of_app in Hq1 as [Hq1| ->%list_elem_of_singleton]; [by eapply T4|]. by apply Hnopend in H2.
    + apply elem_of_app in Hq2 as [Hq2| ->%list_elem_of_singleton]; [by eapply T4|]. by apply Hnopend in H1.
    + by eapply T4.
  - eapply flight_done; [done|]. intros j p id' Hne Hj Hp. cbn. intros [= ->]%list_elem_of_singleton.
    apply Hne. by eapply Huniq.
Qed.

Lemma tokens_create ps s tr i path :
  Basic ps s tr -> Tokens ps s tr -> zlen (store s) < 2 ^ 32 ->
  Tokens (<[i := ConnectQueue path (fst (new_conn s))]> ps) (snd (new_conn s)) tr.
Proof.
  intros [B1 B2 B3 B4 B5] [T1 T2 T3 T4 T5] Hz. split; try done.
  rewrite new_conn_id by done. rewrite Forall_lookup in B2.
  assert (forall j q, ps !! j = Some q -> flight q <> Some (zlen (store s))) as Hfresh.
  { intros j q Hj Hq. specialize (B2 _ _ Hj). destruct q; cbn in B2, Hq; simplify_eq; lia. }
  intros j q id [(-> & <- & _)|[Hne Hj]]%list_lookup_insert_Some Hq.
  - injection Hq as <-. split.
    + intros Hin%(handed_in s); [|done]. unfold ep_in in Hin. cbn in Hin. lia.
    + intros j' q' [(-> & <- & _)|[_ Hj']]%list_lookup_insert_Some Hq'; [done|]. by apply Hfresh in Hj'.
  - destruct (T5 _ _ _ Hj Hq) as [Hn Hu]. split; [done|].
    intros j' q' [(-> & <- & _)|[_ Hj']]%list_lookup_insert_Some Hq'; [|by eapply Hu].
    cbn in Hq'. simplify_eq. by apply Hfresh in Hj.
Qed.

Lemma tokens_step ps s tr i p p' s' es :
  Basic ps s tr -> Tokens ps s tr -> ps !! i = Some p -> effect p s p' s' es -> zlen (store s') <= 2 ^ 32 ->
  Tokens (<[i := p']> ps) s' (tr ++ es).
Proof.
  intros HB HT Hi He Hz. destruct He; try (by eapply tokens_quiet; eauto).
  - destruct HT as [T1 T2 T3 T4 T5]. split; rewrite ?app_nil_r; try done; cbn.
    + apply map_Forall_insert_2; [|done]. split; cbn; [lia|]. rewrite zlen_nil. split; [lia|].
      split; [by apply NoDup_nil|]. set_solver.
    + intros p1 p2 l1 l2 ep [[<- <-]|[N1 H1]]%lookup_insert_Some [[<- <-]|[N2 H2]]%lookup_insert_Some Hq1 Hq2; cbn in *;
        [done|set_solver|set_solver|by eapply T4].
    + rewrite <- (app_nil_r tr). apply flight_done; [done|]. intros. apply not_elem_of_nil.
  - destruct HT as [T1 T2 T3 T4 T5]. split; rewrite ?app_nil_r; try done; cbn.
    + by apply map_Forall_delete.
    + intros p1 p2 l1 l2 ep [_ H1]%lookup_delete_Some [_ H2]%lookup_delete_Some. by eapply T4.
    + rewrite <- (app_nil_r tr). apply flight_done; [done|]. intros. apply not_elem_of_nil.
  - by apply tokens_accept.
  - rewrite app_nil_r. apply tokens_create; [done|done|]. cbn in Hz. rewrite zlen_app in Hz.
    change (zlen [new_pair]) with 1 in Hz. lia.
  - by eapply tokens_queue.
  - eapply tokens_quiet; eauto. destruct (both_closed _); by left.
Qed.

Lemma sys_tokens ps s tr : sys ps s tr -> zlen (store s) <= 2 ^ 32 -> Tokens ps s tr.
Proof.
  induction 1 as [|ps s tr c Hs IH Hp|ps s tr i p p' s' es Hs IH Hi Hm]; intros Hz.
  - split; try done; cbn; [apply NoDup_nil_2|set_solver].
  - destruct (IH Hz) as [T1 T2 T3 T4 T5]. split; try done.
    assert (forall j q id, (ps ++ [Start c]) !! j = Some q -> flight q = Some id -> ps !! j = Some q) as Hold.
    { intros j q id [Hj|[_ Hj]]%lookup_app_Some Hq; [done|]. apply list_lookup_singleton_Some in Hj as [_ <-]. done. }
    intros j q id Hj Hq. destruct (T5 j q id (Hold _ _ _ Hj Hq) Hq) as [Hn Hu]. split; [done|]. eauto.
  - pose proof (micro_effect _ _ _ _ _ Hm) as He. pose proof (effect_grows _ _ _ _ _ He).
    apply (tokens_step ps s tr i p); try done; [apply sys_basic; [done|lia]|apply IH; lia].
Qed.

(** *** A connection lives exactly as long as one of its ends is open *)

Definition open_flag (sd : Side) (k : Conn) : bool := match sd with A => a_open k | B => b_open k end.

Definition user_ok (tr : list event) (p : proc) : Prop :=
  match p with
  | Start c | Locked c _ => permitted tr c
  | _ => True
  end.

Record Slots (ps : list proc) (s : Shared) (tr : list event) : Prop := {
  sl_flags : forall ep k, ep_in s ep -> store s !! Z.to_nat (conn ep) = Some k ->
    open_flag (side ep) k = false <-> EClosed ep ∈ tr;
  sl_closed : forall ep, EClosed ep ∈ tr -> ep ∈ handed tr;
  sl_users : Forall (user_ok tr) ps;
  sl_gone : forall i k, store s !! i = Some k -> table s !! i = Some None ->
    both_closed k = true \/
    ((mkEp (Z.of_nat i) A ∉ handed tr) /\ (forall j p, ps !! j = Some p -> flight p <> Some (Z.of_nat i)));
  sl_live : forall i k r, store s !! i = Some k -> table s !! i = Some (Some r) ->
    (both_closed k = true -> exists j, ps !! j = Some (CloseDrop (Z.of_nat i))) /\
    (mkEp (Z.of_nat i) A ∉ handed tr -> exists j p, ps !! j = Some p /\ flight p = Some (Z.of_nat i));
  sl_drop : forall j id k, ps !! j = Some (CloseDrop id) -> store s !! Z.to_nat id = Some k -> both_closed k = true;
}.

Lemma both_closed_flags k : both_closed k = true <-> forall sd, open_flag sd k = false.
Proof.
  unfold both_closed. rewrite andb_true_iff, !negb_true_iff. split.
  - intros [? ?] []; done.
  - intros H. exact (conj (H A) (H B)).
Qed.

Lemma insert_keeps (ps : list proc) i p p' j q :
  ps !! i = Some p -> ps !! j = Some q -> q <> p -> <[i := p']> ps !! j = Some q.
Proof. intros Hi Hj Hne. rewrite list_lookup_insert_ne; [done|]. intros ->. congruence. Qed.

Lemma user_ok_grows tr es p : user_ok tr p -> user_ok (tr ++ es) p.
Proof. destruct p; cbn; try done; intros Hp ep Hc; rewrite handed_app; apply elem_of_app; left; auto. Qed.

Lemma effect_user_ok p s p' s' es tr : effect p s p' s' es -> user_ok tr p -> user_ok (tr ++ es) p'.
Proof.
  intros He Hp. destruct He; cbn; try done.
  - by apply (user_ok_grows _ _ (Locked c r)).
  - by destruct (both_closed _).
Qed.

Lemma users_step ps s tr i p p' s' es :
  ps !! i = Some p -> effect p s p' s' es -> Forall (user_ok tr) ps -> Forall (user_ok (tr ++ es)) (<[i := p']> ps).
Proof.
  intros Hi He Hu. apply Forall_insert.
  - eapply Forall_impl; [done|]. intros q. apply user_ok_grows.
  - eapply effect_user_ok; [done|]. rewrite Forall_lookup in Hu. by eapply Hu.
Qed.

(** Steps that touch no connection; a step may hand out the connection it has in
    flight. *)
Lemma slots_keep ps s tr i p p' s' es :
  Slots ps s tr -> ps !! i = Some p -> store s' = store s -> table s' = table s ->
  Forall (user_ok (tr ++ es)) (<[i := p']> ps) ->
  (forall ep, EClosed ep ∉ es) -> (forall id, p <> CloseDrop id) -> (forall id, p' <> CloseDrop id) ->
  (flight p' = flight p \/ exists id, flight p = Some id /\ flight p' = None /\ mkEp id A ∈ handed es) ->
  (forall id, mkEp id A ∈ handed es -> flight p = Some id) ->
  Slots (<[i := p']> ps) s' (tr ++ es).
Proof.
  intros [S1 S2 S3 S4 S5 S6] Hi Hst Htb Hu Hes Hp Hp' Hf Hh.
  split; unfold ep_in; rewrite ?Hst, ?Htb.
  - intros ep k Hin Hk. rewrite (S1 ep k Hin Hk), elem_of_app. pose proof (Hes ep). naive_solver.
  - intros ep. rewrite handed_app, !elem_of_app. intros [?|?]; [left; auto|by apply Hes in H].
  - done.
  - intros j k Hj Ht. destruct (S4 j k Hj Ht) as [?|[Hn Hfl]]; [by left|right]. split.
    + rewrite handed_app, elem_of_app. intros [?|Hin]; [done|]. apply Hh in Hin. by apply (Hfl i p Hi).
    + intros j' q [(-> & <- & _)|[_ Hq]]%list_lookup_insert_Some; [|by eapply Hfl].
      destruct Hf as [-> |(id & _ & -> & _)]; [by eapply Hfl|done].
  - intros j k r Hj Ht. destruct (S5 j k r Hj Ht) as [Hc Hn]. split.
    + intros Hb. destruct (Hc Hb) as [j' Hj']. exists j'. by eapply insert_keeps.
    + rewrite handed_app, elem_of_app. intros Hnin. destruct Hn as (j' & q & Hj' & Hq); [tauto|].
      destruct (decide (j' = i)) as [-> |Hne].
      * assert (q = p) as -> by congruence. exists i, p'. rewrite list_lookup_insert_eq by by eapply lookup_lt_Some.
        split; [done|]. destruct Hf as [-> |(id & Hid & _ & Hin)]; [done|]. assert (id = Z.of_nat j) as -> by congruence. tauto.
      * exists j', q. by rewrite list_lookup_insert_ne.
  - intros j id k [(-> & Heq & _)|[_ Hj]]%list_lookup_insert_Some Hk; [by apply Hp' in Heq|by eapply S6].
Qed.

(** Steps that move bytes. *)
Lemma slots_bytes ps s tr i c r k k' a e :
  Slots ps s tr -> ps !! i = Some (Locked c r) -> store s !! r = Some k ->
  (forall sd, open_flag sd k' = open_flag sd k) ->
  Forall (user_ok (tr ++ [e])) (<[i := Done a]> ps) -> (forall ep, e <> EClosed ep) -> handed [e] = [] ->
  Slots (<[i := Done a]> ps) (set_store (<[r := k']> (store s)) s) (tr ++ [e]).
Proof.
  intros HS Hi Hk Hfl Hu He Hh.
  assert (both_closed k' = both_closed k) as Hbc by (pose proof (Hfl A); pose proof (Hfl B); unfold both_closed; cbn in *; congruence).
  destruct (slots_keep ps s tr i (Locked c r) (Done a) s [e]) as [S1 S2 S3 S4 S5 S6]; try done.
  { intros ep Hin%list_elem_of_singleton. by apply (He ep). }
  { by left. }
  { rewrite Hh. intros id Hin. by apply not_elem_of_nil in Hin. }
  assert (forall j kj, <[r := k']> (store s) !! j = Some kj ->
    exists k0, store s !! j = Some k0 /\ both_closed kj = both_closed k0 /\ forall sd, open_flag sd kj = open_flag sd k0) as Hold.
  { intros j kj [(-> & <- & _)|[_ Hj]]%list_lookup_insert_Some; [exists k|exists kj]; auto. }
  split; cbn [set_store store table]; try done.
  - intros ep kj Hin Hj. destruct (Hold _ _ Hj) as (k0 & Hk0 & _ & ->). apply S1; [|done].
    unfold ep_in, zlen in *. cbn in Hin. by rewrite length_insert in Hin.
  - intros j kj Hj. destruct (Hold _ _ Hj) as (k0 & Hk0 & -> & _). by apply S4.
  - intros j kj r' Hj. destruct (Hold _ _ Hj) as (k0 & Hk0 & -> & _). by apply S5.
  - intros j id kj Hj Hkj. destruct (Hold _ _ Hkj) as (k0 & Hk0 & -> & _). by eapply S6.
Qed.

Lemma conn_close_flags sd sd' k :
  open_flag sd' (conn_close sd k) = if decide (sd' = sd) then false else open_flag sd' k.
Proof. by destruct sd, sd'. Qed.

Lemma slots_close ps s tr i ep k :
  Slots ps s tr -> ps !! i = Some (Locked (CClose ep) (Z.to_nat (conn ep))) -> ep_in s ep ->
  store s !! Z.to_nat (conn ep) = Some k -> ep ∈ handed tr ->
  let k' := conn_close (side ep) k in
  let p' := if both_closed k' then CloseDrop (conn ep) else Done AUnit in
  Forall (user_ok (tr ++ [EClosed ep])) (<[i := p']> ps) ->
  Slots (<[i := p']> ps) (set_store (<[Z.to_nat (conn ep) := k']> (store s)) s) (tr ++ [EClosed ep]).
Proof.
  intros [S1 S2 S3 S4 S5 S6] Hi Hin Hk Hh k' p' Hu.
  assert (handed (tr ++ [EClosed ep]) = handed tr) as Hhd by (rewrite handed_app; apply app_nil_r).
  assert (forall j kj, <[Z.to_nat (conn ep) := k']> (store s) !! j = Some kj ->
    (j = Z.to_nat (conn ep) /\ kj = k') \/ (j <> Z.to_nat (conn ep) /\ store s !! j = Some kj)) as Hcase.
  { intros j kj [(-> & <- & _)|[? ?]]%list_lookup_insert_Some; auto. }
  assert (both_closed k = true -> both_closed k' = true) as Hmono.
  { rewrite !both_closed_flags. intros Hb sd. unfold k'. rewrite conn_close_flags, Hb. by case_decide. }
  assert (<[i := p']> ps !! i = Some p') as Hpi by (apply list_lookup_insert_eq; by eapply lookup_lt_Some).
  assert (flight p' = None) as Hfl by (unfold p'; by destruct (both_closed k')).
  split; cbn [set_store store table]; rewrite ?Hhd; try done.
  - intros q kj Hq Hj. rewrite elem_of_app, list_elem_of_singleton.
    assert (ep_in s q) as Hq' by (unfold ep_in, zlen in *; cbn in Hq; by rewrite length_insert in Hq).
    destruct (Hcase _ _ Hj) as [[Hc ->]|[Hne Hj']].
    + assert (conn q = conn ep) as Hcq by (unfold ep_in in *; lia). unfold k'. rewrite conn_close_flags.
      destruct (decide (side q = side ep)) as [Hsd|Hsd].
      * split; [|done]. intros _. right. f_equal. by apply ep_eq.
      * rewrite (S1 q k Hq') by by rewrite Hcq. split; [by left|]. intros [?|[= ->]]; done.
    + rewrite (S1 q kj Hq' Hj'). split; [by left|]. intros [?|[= ->]]; done.
  - intros q [?|[= ->]%list_elem_of_singleton]%elem_of_app; [by apply S2|done].
  - intros j kj Hj Ht. destruct (Hcase _ _ Hj) as [[-> ->]|[Hne Hj']].
    + destruct (S4 _ k Hk Ht) as [?|[Hn Hf]]; [left; auto|right]. split; [done|].
      intros j' q [(-> & <- & _)|[_ Hq]]%list_lookup_insert_Some; [by rewrite Hfl|by eapply Hf].
    + destruct (S4 _ kj Hj' Ht) as [?|[Hn Hf]]; [by left|right]. split; [done|].
      intros j' q [(-> & <- & _)|[_ Hq]]%list_lookup_insert_Some; [by rewrite Hfl|by eapply Hf].
  - intros j kj r Hj Ht. assert (exists k0, store s !! j = Some k0) as [k0 Hk0].
    { destruct (Hcase _ _ Hj) as [[-> ->]|[_ ?]]; eauto. }
    destruct (S5 j k0 r Hk0 Ht) as [Hc Hn]. split.
    + intros Hb. destruct (Hcase _ _ Hj) as [[-> ->]|[Hne Hj']].
      * exists i. rewrite Hpi. unfold p'. rewrite Hb, Z2Nat.id by (unfold ep_in in *; lia). done.
      * destruct Hc as [j' Hj'']; [congruence|]. exists j'. by eapply insert_keeps.
    + intros Hnin. destruct (Hn Hnin) as (j' & q & Hj' & Hq). exists j', q. split; [|done]. eapply insert_keeps; [done|done|].
      by intros ->.
  - intros j id kj [(-> & Heq & _)|[_ Hj]]%list_lookup_insert_Some Hkj.
    + unfold p' in Heq. destruct (both_closed k') eqn:Hb; [|done]. injection Heq as <-.
      destruct (Hcase _ _ Hkj) as [[_ ->]|[? _]]; done.
    + destruct (Hcase _ _ Hkj) as [[Hid ->]|[_ Hkj']]; [|by eapply S6]. apply Hmono. eapply S6; [done|]. by rewrite Hid.
Qed.

(** Emptying the slot of a connection that is closed or was never handed out. *)
Lemma slots_drop_conn ps s tr i p a id :
  Slots ps s tr -> ps !! i = Some p -> 0 <= id -> Forall (user_ok tr) (<[i := Done a]> ps) ->
  p = CloseDrop id \/ (flight p = Some id /\ flights_ok ps tr) ->
  Slots (<[i := Done a]> ps) (drop_conn id s) tr.
Proof.
  intros [S1 S2 S3 S4 S5 S6] Hi Hid Hu Hp.
  assert (forall j o, <[Z.to_nat id := None]> (table s) !! j = Some (Some o) -> j <> Z.to_nat id /\ table s !! j = Some (Some o)) as Hlive.
  { intros j o [(_ & ? & _)|[? ?]]%list_lookup_insert_Some; done. }
  split; cbn [drop_conn store table]; try done.
  - intros j k Hk Ht. destruct (decide (j = Z.to_nat id)) as [-> |Hne].
    + destruct Hp as [-> |[Hf Hfo]]; [left; by eapply S6|right].
      rewrite Z2Nat.id by done. destruct (Hfo _ _ _ Hi Hf) as [Hn Huq]. split; [done|].
      intros j q [(-> & <- & _)|[Hne Hq]]%list_lookup_insert_Some; [done|]. intros Hq'. apply Hne. symmetry. by eapply Huq.
    + rewrite list_lookup_insert_ne in Ht by done. destruct (S4 j k Hk Ht) as [?|[Hn Hf]]; [by left|right]. split; [done|].
      intros j' q [(-> & <- & _)|[_ Hq]]%list_lookup_insert_Some; [done|by eapply Hf].
  - intros j k r Hk [Hne Ht]%Hlive. destruct (S5 j k r Hk Ht) as [Hc Hn].
    assert (p <> CloseDrop (Z.of_nat j) /\ flight p <> Some (Z.of_nat j)) as [Hp1 Hp2].
    { destruct Hp as [-> |[Hf _]]; [split; [|done]; intros [= ->]; lia|].
      split; [by intros ->|]. rewrite Hf. intros [= ->]. lia. }
    split.
    + intros Hb. destruct (Hc Hb) as [j' Hj']. exists j'. eapply insert_keeps; [done|done|congruence].
    + intros Hnin. destruct (Hn Hnin) as (j' & q & Hj' & Hq). exists j', q. split; [|done].
      eapply insert_keeps; [done|done|congruence].
  - intros j id' k [(-> & Heq & _)|[_ Hj]]%list_lookup_insert_Some; [done|by eapply S6].
Qed.

Lemma slots_create ps s tr i path :
  Basic ps s tr -> Slots ps s tr -> ps !! i = Some (ConnectNew path) -> zlen (store s) < 2 ^ 32 ->
  let p' := ConnectQueue path (fst (new_conn s)) in
  Forall (user_ok tr) (<[i := p']> ps) -> Slots (<[i := p']> ps) (snd (new_conn s)) tr.
Proof.
  intros [B1 B2 B3 B4 B5] [S1 S2 S3 S4 S5 S6] Hi Hz p' Hu. unfold p' in *. rewrite new_conn_id in * by done.
  assert (<[i := ConnectQueue path (zlen (store s))]> ps !! i = Some (ConnectQueue path (zlen (store s)))) as Hpi
    by (apply list_lookup_insert_eq; by eapply lookup_lt_Some).
  destruct B1 as [Hlen _]. rewrite Forall_lookup in B2.
  split; cbn [new_conn snd store table]; try done.
  - intros ep k Hin [Hk|[Hge Hk]]%lookup_app_Some.
    + apply S1; [|done]. apply lookup_lt_Some in Hk. unfold ep_in, zlen in *. lia.
    + apply list_lookup_singleton_Some in Hk as [_ <-]. split; [by destruct (side ep)|]. intros Hc.
      rewrite Forall_forall in B3. specialize (B3 _ Hc). unfold ep_in, zlen in *. cbn in B3. lia.
  - intros j k [Hk|[Hge Hk]]%lookup_app_Some Ht.
    + rewrite lookup_app_l in Ht by (rewrite Hlen; by eapply lookup_lt_Some).
      destruct (S4 j k Hk Ht) as [?|[Hn Hf]]; [by left|right]. split; [done|].
      intros j' q [(-> & <- & _)|[_ Hq]]%list_lookup_insert_Some; [|by eapply Hf]. cbn. apply lookup_lt_Some in Hk.
      intros [=]. unfold zlen in *. lia.
    + rewrite lookup_app_r in Ht by lia. apply list_lookup_singleton_Some in Ht as [_ ?]. done.
  - intros j k r [Hk|[Hge Hk]]%lookup_app_Some Ht.
    + rewrite lookup_app_l in Ht by (rewrite Hlen; by eapply lookup_lt_Some).
      destruct (S5 j k r Hk Ht) as [Hc Hn]. split.
      * intros Hb. destruct (Hc Hb) as [j' Hj']. exists j'. by eapply insert_keeps.
      * intros Hnin. destruct (Hn Hnin) as (j' & q & Hj' & Hq). exists j', q. split; [|done].
        eapply insert_keeps; [done|done|]. by intros ->.
    + apply list_lookup_singleton_Some in Hk as [Hj <-]. split; [done|]. intros _. eexists i, _. split; [exact Hpi|].
      cbn. unfold zlen. f_equal. lia.
  - intros j id k [(-> & Heq & _)|[_ Hj]]%list_lookup_insert_Some Hk; [done|].
    apply lookup_app_Some in Hk as [Hk|[Hge _]]; [by eapply S6|]. specialize (B2 _ _ Hj). cbn in B2. unfold zlen in *. lia.
Qed.

Lemma slots_step ps s tr i p p' s' es :
  Basic ps s tr -> Tokens ps s tr -> Slots ps s tr -> ps !! i = Some p -> effect p s p' s' es ->
  zlen (store s') <= 2 ^ 32 -> Slots (<[i := p']> ps) s' (tr ++ es).
Proof.
  intros HB HT HS Hi He Hz. pose proof (users_step _ _ _ _ _ _ _ _ Hi He (sl_users _ _ _ HS)) as Hu.
  pose proof (bs_procs _ _ _ HB) as Hin. rewrite Forall_lookup in Hin. specialize (Hin _ _ Hi).
  pose proof (sl_users _ _ _ HS) as Hus. rewrite Forall_lookup in Hus. specialize (Hus _ _ Hi).
  destruct He; rewrite ?app_nil_r in *;
    try (rewrite <- (app_nil_r tr) in Hu |- *; eapply slots_keep; eauto; [set_solver|cbn; set_solver]; fail).
  - destruct (tk_listeners _ _ _ HT _ _ H) as (_ & _ & _ & L4). destruct (L4 ep) as (Hsd & _ & _); [cbn; set_solver|].
    eapply slots_keep; eauto; [set_solver|]. cbn. intros id Hid%list_elem_of_singleton. by subst ep.
  - apply slots_create; try done. cbn in Hz. rewrite zlen_app in Hz. change (zlen [new_pair]) with 1 in Hz. lia.
  - eapply slots_keep; eauto; [set_solver| |].
    + right. exists id. cbn. set_solver.
    + cbn. by intros id' [= ->]%list_elem_of_singleton.
  - eapply slots_drop_conn; eauto; [cbn in Hin; lia|]. right. split; [done|]. exact (tk_flight _ _ _ HT).
  - eapply slots_bytes; eauto.
    unfold conn_send in H0. destruct (peer_open _ k); [|done]. injection H0 as <- <-. intros []; by destruct (side ep).
  - eapply slots_bytes; eauto. unfold conn_recv in H0. injection H0 as <- <-. intros []; by destruct (side ep).
  - destruct Hin as (ep' & Hc & Hin & ->). cbn in Hc. subst ep'. apply slots_close; try done. by apply Hus.
  - eapply slots_drop_conn; eauto. cbn in Hin. lia.
  - destruct p; try done; rewrite <- (app_nil_r tr) in Hu |- *; eapply slots_keep; eauto; try done; set_solver.
Qed.

Lemma sys_slots ps s tr : sys ps s tr -> zlen (store s) <= 2 ^ 32 -> Slots ps s tr.
Proof.
  induction 1 as [|ps s tr c Hs IH Hp|ps s tr i p p' s' es Hs IH Hi Hm]; intros Hz.
  - split; cbn; try done; set_solver.
  - destruct (IH Hz) as [S1 S2 S3 S4 S5 S6].
    assert (forall j q, (ps ++ [Start c]) !! j = Some q -> q = Start c \/ ps !! j = Some q) as Hold.
    { intros j q [Hj|[_ Hj]]%lookup_app_Some; [by right|]. apply list_lookup_singleton_Some in Hj as [_ <-]. by left. }
    assert (forall j q, ps !! j = Some q -> (ps ++ [Start c]) !! j = Some q) as Hnew.
    { intros j q Hj. rewrite lookup_app_l; [done|]. by eapply lookup_lt_Some. }
    split; try done.
    + apply Forall_app. split; [done|]. by apply Forall_singleton.
    + intros i k Hk Ht. destruct (S4 i k Hk Ht) as [?|[Hn Hf]]; [by left|right]. split; [done|].
      intros j q [-> |Hj]%Hold; [done|by eapply Hf].
    + intros i k r Hk Ht. destruct (S5 i k r Hk Ht) as [Hc Hn]. split; naive_solver.
    + intros j id k [?|Hj]%Hold; [done|by eapply S6].
  - pose proof (micro_effect _ _ _ _ _ Hm) as He. pose proof (effect_grows _ _ _ _ _ He).
    apply (slots_step ps s tr i p); try done; [apply sys_basic|apply sys_tokens|apply IH]; (done || lia).
Qed.

(** *** What the three invariants say together *)

Lemma handed_slot ps s tr ep :
  sys ps s tr -> zlen (store s) <= 2 ^ 32 -> ep ∈ handed tr -> EClosed ep ∉ tr ->
  exists k, shared_conn ep s = Some (Z.to_nat (conn ep)) /\ store s !! Z.to_nat (conn ep) = Some k.
Proof.
  intros Hs Hz Hh Hc. pose proof (sys_basic _ _ _ Hs Hz) as HB. pose proof (sys_tokens _ _ _ Hs Hz) as HT.
  pose proof (sys_slots _ _ _ Hs Hz) as HS. pose proof (handed_in _ _ _ (bs_events _ _ _ HB) Hh) as Hin.
  destruct (bs_slots _ _ _ HB) as [Hlen Hsl].
  assert (exists k, store s !! Z.to_nat (conn ep) = Some k) as [k Hk].
  { apply lookup_lt_is_Some. unfold ep_in, zlen in Hin. lia. }
  assert (exists o, table s !! Z.to_nat (conn ep) = Some o) as [o Ho].
  { apply lookup_lt_is_Some. unfold ep_in, zlen in Hin. lia. }
  exists k. split; [|done]. unfold shared_conn. rewrite Ho. cbn. destruct o as [r|]; [f_equal; by apply Hsl|].
  exfalso. destruct (sl_gone _ _ _ HS _ _ Hk Ho) as [Hb|[Hn _]].
  - apply Hc. rewrite <- (sl_flags _ _ _ HS ep k Hin Hk). by apply both_closed_flags.
  - rewrite Z2Nat.id in Hn by (unfold ep_in in Hin; lia). apply Hn. destruct (side ep) eqn:Hsd.
    + by replace (mkEp (conn ep) A) with ep by (destruct ep; cbn in *; congruence).
    + pose proof (tk_server _ _ _ HT ep Hh Hsd) as Hp. unfold peer in Hp. by rewrite Hsd in Hp.
Qed.

Lemma eof_exact ps s tr ep k :
  sys ps s tr -> zlen (store s) <= 2 ^ 32 -> ep ∈ handed tr -> store s !! Z.to_nat (conn ep) = Some k ->
  sent (peer ep) tr = received ep tr ++ inbox (side ep) k /\
  (conn_at_eof (side ep) k = true <-> received ep tr = sent (peer ep) tr /\ EClosed (peer ep) ∈ tr).
Proof.
  intros Hs Hz Hh Hk. pose proof (sys_basic _ _ _ Hs Hz) as HB.
  pose proof (handed_in _ _ _ (bs_events _ _ _ HB) Hh) as Hin.
  pose proof (bs_streams _ _ _ HB ep k Hin Hk) as Hst. split; [done|].
  pose proof (sl_flags _ _ _ (sys_slots _ _ _ Hs Hz) (peer ep) k Hin Hk) as Hfl.
  assert (open_flag (side (peer ep)) k = peer_open (side ep) k) as Hpo by (cbn; by destruct (side ep)).
  unfold conn_at_eof. rewrite andb_true_iff, bool_decide_eq_true, negb_true_iff, <- Hpo, Hfl, Hst.
  split; intros [Hi Hcl]; (split; [|done]).
  - by rewrite Hi, app_nil_r.
  - apply (app_inv_head (received ep tr)). by rewrite app_nil_r.
Qed.

(** No call under way: a slot is taken exactly while a connection handed out has an
    open end. *)
Lemma quiescent_slots ps s tr i :
  sys ps s tr -> zlen (store s) <= 2 ^ 32 -> Forall (fun p => exists a, p = Done a) ps -> 0 <= i < zlen (store s) ->
  is_Some (shared_conn (mkEp i A) s) <->
    (mkEp i A ∈ handed tr) /\ ~ ((EClosed (mkEp i A) ∈ tr) /\ (EClosed (mkEp i B) ∈ tr)).
Proof.
  intros Hs Hz Hdone Hi. pose proof (sys_basic _ _ _ Hs Hz) as HB. pose proof (sys_tokens _ _ _ Hs Hz) as HT.
  pose proof (sys_slots _ _ _ Hs Hz) as HS. destruct (bs_slots _ _ _ HB) as [Hlen Hsl]. rewrite Forall_lookup in Hdone.
  assert (exists k, store s !! Z.to_nat i = Some k) as [k Hk] by (apply lookup_lt_is_Some; unfold zlen in Hi; lia).
  assert (exists o, table s !! Z.to_nat i = Some o) as [o Ho] by (apply lookup_lt_is_Some; unfold zlen in Hi; lia).
  assert (both_closed k = true <-> (EClosed (mkEp i A) ∈ tr) /\ (EClosed (mkEp i B) ∈ tr)) as Hb.
  { rewrite both_closed_flags, <- (sl_flags _ _ _ HS (mkEp i A) k), <- (sl_flags _ _ _ HS (mkEp i B) k) by done. cbn [side].
    split; [auto|]. intros [? ?] []; done. }
  rewrite <- Hb. unfold shared_conn. cbn [conn]. rewrite Ho. cbn. rewrite <- (Z2Nat.id i) at 1 by lia. destruct o as [r|].
  - destruct (sl_live _ _ _ HS _ _ _ Hk Ho) as [Hc Hn]. split; [|eauto]. intros _. split.
    + destruct (decide (mkEp (Z.of_nat (Z.to_nat i)) A ∈ handed tr)) as [?|Hnin]; [done|]. destruct (Hn Hnin) as (j & p & Hj & Hp).
      by destruct (Hdone _ _ Hj) as [a ->].
    + intros Hbc. destruct (Hc Hbc) as [j Hj]. by destruct (Hdone _ _ Hj) as [a ?].
  - split; [by intros []|]. intros [Hh Hnb]. exfalso.
    destruct (sl_gone _ _ _ HS _ _ Hk Ho) as [?|[? _]]; done.
Qed.

(** ** The claims *)

Lemma exec_no_crash c s : fst (exec c s) <> ACrash.
Proof.
  destruct c; cbn; unfold answer_of, bind_listen, unbind, is_listening, connect, accept, pending_count, send, recv,
    readable, at_eof, available, query, close, conn_ref, put_conn, sbind, sget, sgets, slift, conn_send; cbn;
    repeat (case_match; simplify_eq/=; try done); done.
Qed.

Lemma exec_all_no_crash cs s : ACrash ∉ fst (exec_all cs s).
Proof.
  revert s. induction cs as [|c cs IH]; intros s; cbn; [apply not_elem_of_nil|].
  pose proof (exec_no_crash c s) as Hc. destruct (exec c s) as [a s1]. specialize (IH s1).
  destruct (exec_all cs s1) as [r s2]. cbn in *. rewrite not_elem_of_cons. by split.
Qed.

Lemma alone_is_switchboard cs :
  let '(answers, s) := alone_all cs shared_new in
  exec_all cs switch_new = (answers, abs s) /\ ACrash ∉ answers.
Proof.
  assert (slots_ok shared_new) as Hok by (split; [done|]; by intros []).
  pose proof (alone_all_agrees cs shared_new Hok) as Ha. pose proof (exec_all_no_crash cs switch_new) as Hn.
  change (abs shared_new) with switch_new in Ha. rewrite Ha in Hn. destruct (alone_all cs shared_new) as [answers s].
  by split.
Qed.

(** The server end of a connection was accepted, or waits in the queue of a listener. *)
Definition attended (s : Shared) (tr : list event) (i : Z) : Prop :=
  (mkEp i B ∈ handed tr) \/ exists path l, sh_listeners s !! path = Some l /\ mkEp i B ∈ pending l.

(** C34 Local sockets are exact under any interleaving.  With any number of calls in
    progress, switched at every lock section: an endpoint is given to one caller
    only; no accept queue exceeds its backlog; as long as an end is not closed its
    connection is there, what it received followed by what waits for it is what the
    other end sent, byte for byte and in order, and it sees the end of the stream
    exactly when it has read everything and the other end is closed; and when no
    call is under way a slot is taken exactly while one end of a connection that was
    handed out is open, so a [connect] that lost a race leaves nothing behind.  The
    statements on connections are about those whose server end was accepted or still
    waits in the queue of a listener; what becomes of one that waited in the queue of
    a listener when that was unbound is left open (see [unbind_orphans_clients]).  For
    any sequence of calls that do not overlap, each call ends within four lock
    sections with the answer of the switchboard behind a single lock, errors
    included, and the listeners, queues and connections of both stay equal. *)
Theorem unix_streams ps s tr :
  sys ps s tr -> zlen (store s) <= 2 ^ 32 ->
  NoDup (handed tr) /\
  (forall path l, sh_listeners s !! path = Some l -> zlen (pending l) <= backlog l) /\
  (forall ep, ep ∈ handed tr -> EClosed ep ∉ tr -> attended s tr (conn ep) ->
    exists k, shared_conn ep s = Some (Z.to_nat (conn ep)) /\ store s !! Z.to_nat (conn ep) = Some k /\
      sent (peer ep) tr = received ep tr ++ inbox (side ep) k /\
      (conn_at_eof (side ep) k = true <-> received ep tr = sent (peer ep) tr /\ EClosed (peer ep) ∈ tr)) /\
  (Forall (fun p => exists a, p = Done a) ps ->
    forall i, 0 <= i < zlen (store s) -> (mkEp i A ∈ handed tr -> attended s tr i) ->
    is_Some (shared_conn (mkEp i A) s) <->
      (mkEp i A ∈ handed tr) /\ ~ ((EClosed (mkEp i A) ∈ tr) /\ (EClosed (mkEp i B) ∈ tr))) /\
  (forall cs, let '(answers, s') := alone_all cs shared_new in exec_all cs switch_new = (answers, abs s') /\ ACrash ∉ answers).
Proof.
  intros Hs Hz. pose proof (sys_tokens _ _ _ Hs Hz) as HT. split; [exact (tk_once _ _ _ HT)|]. split.
  { intros path l Hl. by destruct (tk_listeners _ _ _ HT _ _ Hl) as (_ & ? & _). }
  split.
  - intros ep Hh Hc _. destruct (handed_slot _ _ _ _ Hs Hz Hh Hc) as (k & Hconn & Hk). exists k. split; [done|].
    split; [done|]. by apply (eof_exact ps s).
  - split; [|exact alone_is_switchboard]. intros Hd i Hi _. by apply (quiescent_slots ps).
Qed.

(** ** Schedules *)

Definition permittedb (tr : list event) (c : call) : bool :=
  match c with
  | CSend ep _ | CRecv ep _ | CReadable ep | CEof ep | CAvailable ep | CClose ep => bool_decide (ep ∈ handed tr)
  | _ => true
  end.

(** [inl c] starts a call, [inr i] runs the next lock section of the [i]th call. *)
Fixpoint schedule (ops : list (call + nat)) (ps : list proc) (s : Shared) (tr : list event)
  : option (list proc * Shared * list event) :=
  match ops with
  | [] => Some (ps, s, tr)
  | inl c :: ops' => if permittedb tr c then schedule ops' (ps ++ [Start c]) s tr else None
  | inr i :: ops' =>
      match ps !! i with
      | Some p => let '(p', s', es) := micro p s in schedule ops' (<[i := p']> ps) s' (tr ++ es)
      | None => None
      end
  end.

Lemma permittedb_ok tr c : permittedb tr c = true -> permitted tr c.
Proof. intros Hb ep Hc. destruct c; cbn in *; try done; subst; by apply bool_decide_eq_true in Hb. Qed.

Lemma schedule_sys ops ps s tr ps' s' tr' :
  sys ps s tr -> schedule ops ps s tr = Some (ps', s', tr') -> sys ps' s' tr'.
Proof.
  revert ps s tr. induction ops as [|[c|i] ops IH]; intros ps s tr Hs; cbn.
  - by intros [= <- <- <-].
  - destruct (permittedb tr c) eqn:Hp; [|done]. apply IH, sys_call; [done|]. by apply permittedb_ok.
  - destruct (ps !! i) as [p|] eqn:Hi; [|done]. destruct (micro p s) as [[p' s1] es] eqn:Hm. apply IH. by eapply sys_step.
Qed.

Definition result_of (o : option (list proc * Shared * list event)) : list proc * Shared * list event :=
  default ([], shared_new, []) o.

Lemma schedule_end ops :
  (match schedule ops [] shared_new [] with Some _ => true | None => false end) = true ->
  let st := result_of (schedule ops [] shared_new []) in sys (fst (fst st)) (snd (fst st)) (snd st).
Proof.
  destruct (schedule ops [] shared_new []) as [[[ps s] tr]|] eqn:Hsch; [|done]. intros _. cbn.
  eapply schedule_sys; [apply sys_start|exact Hsch].
Qed.

Lemma all_done ps :
  forallb (fun p => match p with Done _ => true | _ => false end) ps = true -> Forall (fun p => exists a, p = Done a) ps.
Proof.
  induction ps as [|p ps IH]; cbn; [done|]. intros [Hp Hps]%andb_true_iff. apply Forall_cons. split; [|auto].
  destruct p; try done. eauto.
Qed.

(** Two clients race for the one place in the queue; both have created their
    connection before either queues it.  The winner then talks to the server. *)
Definition race : list (call + nat) :=
  [inl (CBind [47] 1); inr 0%nat; inl (CConnect [47]); inl (CConnect [47]); inr 1%nat; inr 2%nat; inr 1%nat; inr 2%nat;
   inr 2%nat; inr 1%nat; inr 1%nat; inl (CAccept [47]); inr 3%nat;
   inl (CSend (mkEp 1 A) [1; 2; 3]); inr 4%nat; inr 4%nat; inl (CRecv (mkEp 1 B) 2); inr 5%nat; inr 5%nat].

Lemma unix_streams_witness :
  exists ps s tr, sys ps s tr /\ ps !! 1%nat = Some (Done (AErr Backlog)) /\ handed tr = [mkEp 1 A; mkEp 1 B] /\
    received (mkEp 1 B) tr = [1; 2] /\ live_connections s = 1 /\ ~ is_Some (shared_conn (mkEp 0 A) s) /\
    is_Some (shared_conn (mkEp 1 B) s).
Proof.
  pose proof (schedule_end race ltac:(vm_compute; reflexivity)) as Hs. cbv zeta in Hs.
  eexists _, _, _. split; [exact Hs|]. do 4 (split; [vm_compute; reflexivity|]).
  destruct (unix_streams _ _ _ Hs) as (_ & _ & Hc & Hq & _); [apply Z.leb_le; vm_compute; reflexivity|]. split.
  - rewrite (Hq ltac:(apply all_done; vm_compute; reflexivity) 0 ltac:(split; [done|apply Z.ltb_lt; vm_compute; reflexivity]));
      [|intros Hin%(bool_decide_eq_true_2 _); vm_compute in Hin; discriminate].
    intros [Hin%(bool_decide_eq_true_2 _) _]. vm_compute in Hin. discriminate.
  - assert (Hin : mkEp 1 B ∈ handed (snd (result_of (schedule race [] shared_new [])))) by (apply (bool_decide_unpack _); vm_compute; exact I).
    destruct (Hc (mkEp 1 B) Hin) as (k & Hk & _); [|left; exact Hin|by eexists].
    intros Hcl. apply list_elem_of_In in Hcl. vm_compute in Hcl. repeat (destruct Hcl as [Hcl|Hcl]; [discriminate|]). exact Hcl.
Defined.

(** ** Where the two switchboards and their documentation differ *)

(** [unbind] forgets the server ends that wait in the queue without closing them: the
    client stays connected to nobody.  It can send for ever, never sees the end of
    the stream, and the connection is never freed. *)
Lemma unbind_orphans_clients :
  let '(answers, s) :=
    exec_all [CBind [47] 1; CConnect [47]; CUnbind [47]; CSend (mkEp 0 A) [1; 2]; CReadable (mkEp 0 A); CEof (mkEp 0 A);
              CClose (mkEp 0 A)] switch_new in
  answers = [AUnit; AEp (mkEp 0 A); ABool true; ANum 2; ABool false; ABool false; AUnit] /\
  conns s = [Some (mkConn [1; 2] [] false true)].
Proof. vm_compute. split; reflexivity. Qed.

(** A closed end is only refused once the other end is closed too; the error is
    documented for any closed endpoint. *)
Lemma closed_end_still_sends :
  fst (exec_all [CBind [47] 1; CConnect [47]; CAccept [47]; CClose (mkEp 0 A); CSend (mkEp 0 A) [7]] switch_new) =
  [AUnit; AEp (mkEp 0 A); AOpt (Some (mkEp 0 B)); AUnit; ANum 1].
Proof. vm_compute. reflexivity. Qed.

(** A [send] that fetched its connection before both ends were closed finds a broken
    pipe where no order of whole calls gives that answer: with the peer open it
    succeeds, and with both ends closed the endpoint is bad. *)
Definition stale : list (call + nat) :=
  [inl (CBind [47] 1); inr 0%nat; inl (CConnect [47]); inr 1%nat; inr 1%nat; inr 1%nat; inl (CAccept [47]); inr 2%nat;
   inl (CClose (mkEp 0 A)); inr 3%nat; inr 3%nat; inl (CSend (mkEp 0 A) [7]); inr 4%nat;
   inl (CClose (mkEp 0 B)); inr 5%nat; inr 5%nat; inr 5%nat; inr 4%nat].

Lemma stale_send_breaks_the_pipe :
  fst (fst (result_of (schedule stale [] shared_new []))) !! 4%nat = Some (Done (AErr BrokenPipe)).
Proof. vm_compute. reflexivity. Qed.
End Unix.
