(* ===== verification/Spin.v ===== *)
(** The spin locks the kernel's locks are built on.

    [spin::Mutex] and [spin::RwLock] come from a crate outside the sources, so a lock
    word is a type [W] with the operations the code calls; [SpinLaws] states their
    documented behaviour through the number of readers and the presence of a writer.
    A mutex is a lock that is only ever taken for exclusive access.  [CountedLock] is
    one implementation. *)

From stdpp Require Import base list sets.
From S2P Require Import Prelude.

Inductive access := Shared | Excl.
#[global] Instance access_eq_dec : EqDecision access.
Proof. solve_decision. Defined.

Class SpinLock (W : Type) := {
  spin_new : W;
  try_acquire : access -> W -> option W;
  release : access -> W -> W;
  readers : W -> Z;
  writer : W -> bool;
}.

(** A free lock has no reader and no writer; an attempt succeeds exactly when nobody
    holds the lock in a conflicting way, and a release gives back one holding. *)
Class SpinLaws (W : Type) `{SpinLock W} := {
  spin_new_readers : readers spin_new = 0;
  spin_new_writer : writer spin_new = false;
  try_shared w :
    match try_acquire Shared w with
    | Some w' => writer w = false /\ readers w' = readers w + 1 /\ writer w' = false
    | None => writer w = true
    end;
  try_excl w :
    match try_acquire Excl w with
    | Some w' => readers w = 0 /\ writer w = false /\ readers w' = 0 /\ writer w' = true
    | None => readers w <> 0 \/ writer w = true
    end;
  release_shared w : 0 < readers w -> readers (release Shared w) = readers w - 1 /\ writer (release Shared w) = writer w;
  release_excl w : writer w = true -> readers (release Excl w) = readers w /\ writer (release Excl w) = false;
}.

(** ** A lock word with a counter and a flag *)

Record Counted := mkCounted { c_readers : Z; c_writer : bool }.

#[global] Instance CountedLock : SpinLock Counted := {
  spin_new := mkCounted 0 false;
  try_acquire a w :=
    match a with
    | Shared => if c_writer w then None else Some (mkCounted (c_readers w + 1) false)
    | Excl => if c_writer w || negb (c_readers w =? 0) then None else Some (mkCounted 0 true)
    end;
  release a w :=
    match a with
    | Shared => mkCounted (c_readers w - 1) (c_writer w)
    | Excl => mkCounted (c_readers w) false
    end;
  readers := c_readers;
  writer := c_writer;
}.

#[global] Instance CountedLaws : SpinLaws Counted.
Proof.
  split; try done.
  - intros [n []]; simpl; auto.
  - intros [n []]; simpl; [auto|]. destruct (n =? 0) eqn:H; simpl; lia.
Qed.

(** One holding, counted by access. *)
Definition one (a b : access) : nat := if decide (a = b) then 1%nat else 0%nat.

(** ** How a word accounts for its holders

    [accounts w r e]: the word [w] is held by [r] readers and [e] writers. *)
Section accounts.
Context {W : Type} `{SpinLaws W}.

Definition accounts (w : W) (r e : nat) : Prop :=
  readers w = Z.of_nat r /\ e = (if writer w then 1%nat else 0%nat) /\ (e = 0%nat \/ r = 0%nat).

Lemma accounts_new : accounts spin_new 0 0.
Proof. unfold accounts. rewrite spin_new_readers, spin_new_writer. auto. Qed.

Lemma accounts_exclusive w r e : accounts w r e -> (e <= 1)%nat /\ (e = 1%nat -> r = 0%nat).
Proof. unfold accounts. destruct (writer w); lia. Qed.

Lemma accounts_try a w r e : accounts w r e ->
  match try_acquire a w with
  | Some w' => accounts w' (r + one Shared a) (e + one Excl a)
  | None => match a with Shared => e <> 0%nat | Excl => (r + e <> 0)%nat end
  end.
Proof.
  unfold accounts. intros (Hr & He & Hx). destruct a; unfold one; simpl.
  - pose proof (try_shared w) as T. destruct (try_acquire Shared w) as [w'|].
    + destruct T as (T1 & T2 & T3). rewrite T2, T3. rewrite T1 in He. lia.
    + rewrite T in He. lia.
  - pose proof (try_excl w) as T. destruct (try_acquire Excl w) as [w'|].
    + destruct T as (T1 & T2 & T3 & T4). rewrite T3, T4. rewrite T2 in He. lia.
    + destruct T as [T | T]; [lia|]. rewrite T in He. lia.
Qed.

Lemma accounts_release a w r e : accounts w (r + one Shared a) (e + one Excl a) -> accounts (release a w) r e.
Proof.
  unfold accounts. intros (Hr & He & Hx). destruct a; unfold one in *; simpl in *.
  - destruct (release_shared w) as [R1 R2]; [lia|]. rewrite R1, R2. lia.
  - destruct (writer w) eqn:Hw; [|lia]. destruct (release_excl w Hw) as [R1 R2]. rewrite R1, R2. lia.
Qed.

End accounts.

(** ** Sums over contexts *)

Lemma sum_insert {A} (f : A -> nat) l i x y : l !! i = Some x ->
  (sum_list_with f (<[i := y]> l) + f x = sum_list_with f l + f y)%nat.
Proof.
  intros H. rewrite (insert_take_drop l i y) by (by eapply lookup_lt_Some).
  rewrite <- (take_drop_middle l i x H) at 3. rewrite !sum_list_with_app. simpl. lia.
Qed.

Lemma sum_delete {A} (f : A -> nat) l i x : l !! i = Some x -> sum_list_with f l = (f x + sum_list_with f (base.delete i l))%nat.
Proof.
  intros H. rewrite delete_take_drop. rewrite <- (take_drop_middle l i x H) at 1. rewrite !sum_list_with_app. simpl. lia.
Qed.

Lemma sum_positive {A} (f : A -> nat) l : sum_list_with f l <> 0%nat -> exists i x, l !! i = Some x /\ f x <> 0%nat.
Proof.
  induction l as [|x l IH]; simpl; [done|]. intros H. destruct (decide (f x = 0%nat)) as [Hx|Hx].
  - destruct IH as (i & y & ? & ?); [lia|]. by exists (S i), y.
  - by exists 0%nat, x.
Qed.

Lemma sum_zero {A} (f : A -> nat) l : (forall x, x ∈ l -> f x = 0%nat) -> sum_list_with f l = 0%nat.
Proof. induction l as [|x l IH]; simpl; [done|]. intros H. rewrite H by set_solver. apply IH. set_solver. Qed.

Lemma sum_two {A} (f : A -> nat) l i j x y : l !! i = Some x -> l !! j = Some y -> i <> j ->
  (f x + f y <= sum_list_with f l)%nat.
Proof.
  intros Hi Hj Hne. rewrite (sum_delete f l i x Hi).
  assert (Hj' : exists n, base.delete i l !! n = Some y).
  { destruct (decide (j < i)%nat); [exists j; by rewrite list_lookup_delete_lt|].
    exists (j - 1)%nat. rewrite list_lookup_delete_ge by lia. by replace (S (j - 1)) with j by lia. }
  destruct Hj' as [n Hn]. rewrite (sum_delete f _ n y Hn). lia.
Qed.
