(* ===== verification/Lock.v ===== *)
(** The lock hierarchy ([src/crates/eurolock/src/lib.rs]), the instrumented locks
    ([src/crates/eurolock/src/sync.rs]) and the kernel's hooks
    ([src/kernel/src/klock.rs]).

    [OrderTracker] is the array of held classes of one context.  A kernel state has
    the lock words, the contexts with their guards, and the counters of the hooks; a
    call to [lock], [read], [write] or [try_lock] and the drop of a guard are
    sequences of atomic actions, and between two of them any other context may act. *)

From stdpp Require Import base list relations.
From S2P Require Import Prelude Spin.

Module Lock.

(** ** Lock classes *)

Inductive LockClass :=
  | Sched | RunQueue | Process | FsMountTable | Fs | BlockCache | Vault | Net | NetSocket | UnixTable
  | UnixConn | IpcTable | IpcChannel | Agent | Firewall | Audit | Serial | Heap | TestOuter | TestInner.
#[global] Instance lock_class_eq_dec : EqDecision LockClass.
Proof. solve_decision. Defined.

Definition ALL_CLASSES : list LockClass :=
  [Sched; RunQueue; Process; FsMountTable; Fs; BlockCache; Vault; Net; NetSocket; UnixTable;
   UnixConn; IpcTable; IpcChannel; Agent; Firewall; Audit; Serial; Heap; TestOuter; TestInner].

Definition rank (c : LockClass) : Z :=
  match c with
  | Sched => 10 | RunQueue => 15 | Process => 20 | FsMountTable => 28 | Fs => 30
  | BlockCache => 35 | Vault => 40 | Net => 50 | NetSocket => 52 | UnixTable => 54
  | UnixConn => 56 | IpcTable => 57 | IpcChannel => 58 | Agent => 60 | Firewall => 70
  | Audit => 80 | Serial => 90 | Heap => 95 | TestOuter => 200 | TestInner => 201
  end.

(** [self as usize]. *)
Definition index (c : LockClass) : Z :=
  match c with
  | Sched => 0 | RunQueue => 1 | Process => 2 | FsMountTable => 3 | Fs => 4
  | BlockCache => 5 | Vault => 6 | Net => 7 | NetSocket => 8 | UnixTable => 9
  | UnixConn => 10 | IpcTable => 11 | IpcChannel => 12 | Agent => 13 | Firewall => 14
  | Audit => 15 | Serial => 16 | Heap => 17 | TestOuter => 18 | TestInner => 19
  end.

(** The two nested loops of [ranks_are_total_order]. *)
Fixpoint ranks_are_total_order (classes : list LockClass) : bool :=
  match classes with
  | [] => true
  | c :: rest => forallb (fun d => negb (rank c =? rank d)) rest && ranks_are_total_order rest
  end.

(** ** The order tracker *)

Record Inversion := mkInversion { holding : LockClass; acquiring : LockClass }.

Definition MAX_DEPTH : Z := 16.

Record OrderTracker := mkTracker { held : list (option LockClass); depth : Z }.

Definition TM := ST OrderTracker Inversion.

Definition tracker_new : OrderTracker := mkTracker (zrepeat None MAX_DEPTH) 0.

(** One round of the loop of [acquire]. *)
Definition check_order (c : LockClass) (i : Z) : TM unit :=
  let! hs := sget held in
  match at_ None hs i with
  | None => slift Panic
  | Some h => if rank c <=? rank h then sthrow (mkInversion h c) else sret tt
  end.

Definition push_unchecked (c : LockClass) : TM unit :=
  let! d := sget depth in
  if d <? MAX_DEPTH then smodify (fun t => mkTracker (upd (held t) d (Some c)) (d + 1)) else sret tt.

Definition tracker_acquire (c : LockClass) : TM unit :=
  let! d := sget depth in
  sfor (zrange 0 d) (check_order c) ;;!
  push_unchecked c.

(** The inner loop of [release]. *)
Fixpoint shift_down (js : list Z) (h : list (option LockClass)) : list (option LockClass) :=
  match js with
  | [] => h
  | j :: rest => shift_down rest (upd h j (at_ None h (j + 1)))
  end.

Fixpoint release_scan (c : LockClass) (ix : list Z) (t : OrderTracker) : OrderTracker :=
  match ix with
  | [] => t
  | i :: rest =>
      if bool_decide (at_ None (held t) i = Some c) then
        let h := shift_down (zrange i (depth t - 1)) (held t) in
        mkTracker (upd h (depth t - 1) None) (depth t - 1)
      else release_scan c rest t
  end.

Definition tracker_release (c : LockClass) (t : OrderTracker) : OrderTracker :=
  release_scan c (reverse (zrange 0 (depth t))) t.

(** *** The tracker as a stack *)

Definition of_stack (st : list LockClass) : OrderTracker :=
  mkTracker ((Some <$> st) ++ zrepeat None (MAX_DEPTH - zlen st)) (zlen st).

Definition push (c : LockClass) (st : list LockClass) : list LockClass :=
  if zlen st <? MAX_DEPTH then st ++ [c] else st.

(** Removes the last occurrence. *)
Fixpoint remove_last (c : LockClass) (st : list LockClass) : list LockClass :=
  match st with
  | [] => []
  | d :: rest => if bool_decide (d = c /\ c ∉ rest) then rest else d :: remove_last c rest
  end.

Lemma ranks_total : ranks_are_total_order ALL_CLASSES = true.
Proof. reflexivity. Qed.

Lemma rank_injective c d : rank c = rank d -> c = d.
Proof. destruct c, d; simpl; intros H; (reflexivity || discriminate H). Qed.

Lemma class_index c : at_ TestInner ALL_CLASSES (index c) = c.
Proof. by destruct c. Qed.

Lemma tracker_new_stack : tracker_new = of_stack [].
Proof. reflexivity. Qed.

Lemma of_stack_mid l c r : at_ None (held (of_stack (l ++ c :: r))) (zlen l) = Some c.
Proof.
  unfold of_stack; simpl. rewrite fmap_app, <- app_assoc.
  replace (zlen l) with (zlen (Some <$> l) + 0) by (rewrite zlen_fmap; lia). by rewrite at_app_r.
Qed.

Lemma push_spec c st : zlen st <= MAX_DEPTH -> push_unchecked c (of_stack st) = (Ok tt, of_stack (push c st)).
Proof.
  intros Hn. unfold push_unchecked, push, sbind, sget. simpl.
  case_if; [|done]. unfold smodify. f_equal. unfold of_stack. simpl.
  assert (Hr : zrepeat None (MAX_DEPTH - zlen st) = None :: zrepeat (A := option LockClass) None (MAX_DEPTH - zlen (st ++ [c]))).
  { rewrite zlen_snoc. unfold zrepeat.
    by replace (Z.to_nat (MAX_DEPTH - zlen st)) with (S (Z.to_nat (MAX_DEPTH - (zlen st + 1)))) by lia. }
  rewrite Hr, zlen_snoc, fmap_app, <- app_assoc. f_equal.
  apply upd_middle. by rewrite zlen_fmap.
Qed.

(** The first held class of a rank that is not lower. *)
Definition blocking (c : LockClass) (st : list LockClass) : option LockClass := find (fun h => rank c <=? rank h) st.

Lemma blocking_None c st : blocking c st = None -> Forall (fun h => rank h < rank c) st.
Proof.
  intros H. apply Forall_forall. intros h Hh. apply list_elem_of_In in Hh.
  pose proof (find_none _ _ H h Hh) as Hf. simpl in Hf. lia.
Qed.

Lemma blocking_Some c st h : blocking c st = Some h -> h ∈ st /\ rank c <= rank h.
Proof. intros H. destruct (find_some _ _ H) as [Hi Hr]. rewrite list_elem_of_In. split; [done | lia]. Qed.

Lemma scan_spec c l st : zlen (l ++ st) <= MAX_DEPTH ->
  sfor (zrange (zlen l) (zlen (l ++ st))) (check_order c) (of_stack (l ++ st)) =
  (match blocking c st with Some h => Err (mkInversion h c) | None => Ok tt end, of_stack (l ++ st)).
Proof.
  revert l. induction st as [|h st IH]; intros l Hn.
  { rewrite app_nil_r, zrange_nil by lia. done. }
  pose proof (zlen_nonneg l) as Hl. pose proof (zlen_nonneg st) as Hs.
  rewrite zrange_cons by (rewrite zlen_app, zlen_cons; lia). cbn [sfor].
  assert (Hc : check_order c (zlen l) (of_stack (l ++ h :: st)) =
    (if rank c <=? rank h then Err (mkInversion h c) else Ok tt, of_stack (l ++ h :: st))).
  { unfold check_order, sbind, sget.
    rewrite of_stack_mid. by destruct (rank c <=? rank h). }
  unfold blocking. cbn [find]. unfold sbind. rewrite Hc. destruct (rank c <=? rank h); [done|].
  specialize (IH (l ++ [h])). rewrite <- !app_assoc in IH. simpl in IH. rewrite zlen_snoc in IH. apply IH. done.
Qed.

Lemma acquire_spec c st : zlen st <= MAX_DEPTH ->
  tracker_acquire c (of_stack st) =
  match blocking c st with
  | Some h => (Err (mkInversion h c), of_stack st)
  | None => (Ok tt, of_stack (push c st))
  end.
Proof.
  intros Hn. unfold tracker_acquire. change (depth (of_stack st)) with (zlen st).
  unfold sbind at 1, sget. change (depth (of_stack st)) with (zlen st).
  pose proof (scan_spec c [] st Hn) as H. simpl in H. change (zlen []) with 0 in H.
  unfold sbind. rewrite H. destruct (blocking c st); [done|]. by apply push_spec.
Qed.

Lemma last_cons {A} (r : list A) y x : List.last (y :: r) x = List.last r y.
Proof. revert y x. induction r as [|z r IH]; intros y x; [done|]. transitivity (List.last (z :: r) x); [done|]. by rewrite !IH. Qed.

Lemma shift_down_spec l x r tl :
  shift_down (zrange (zlen l) (zlen l + zlen r)) (l ++ x :: r ++ tl) = l ++ r ++ List.last r x :: tl.
Proof.
  revert l x. induction r as [|y r IH]; intros l x.
  { rewrite zrange_nil by (change (zlen (@nil (option LockClass))) with 0; lia). done. }
  pose proof (zlen_nonneg r) as Hr. pose proof (zlen_nonneg l) as Hl. rewrite zlen_cons, zrange_cons by lia. cbn [shift_down].
  rewrite at_app_r by lia. change (at_ None (x :: (y :: r) ++ tl) 1) with y.
  rewrite upd_middle by done.
  specialize (IH (l ++ [y]) y). rewrite zlen_snoc, <- !app_assoc in IH. simpl in IH.
  replace (zlen l + (1 + zlen r)) with (zlen l + 1 + zlen r) by lia. etransitivity; [exact IH|]. by rewrite (last_cons r y x).
Qed.

Lemma remove_last_notin c st : c ∉ st -> remove_last c st = st.
Proof.
  induction st as [|d st IH]; [done|]. rewrite not_elem_of_cons. intros [Hd Hn]. simpl.
  rewrite bool_decide_eq_false_2 by naive_solver. by rewrite IH.
Qed.

Lemma remove_last_split c l r : c ∉ r -> remove_last c (l ++ c :: r) = l ++ r.
Proof.
  intros Hr. induction l as [|d l IH]; simpl.
  - by rewrite bool_decide_eq_true_2.
  - rewrite bool_decide_eq_false_2, IH; [done|]. intros [_ Hn]. apply Hn. set_solver.
Qed.

Lemma zrepeat_cons {A} (x : A) n : 0 <= n -> x :: zrepeat x n = zrepeat x (n + 1).
Proof. intros Hn. unfold zrepeat. by replace (Z.to_nat (n + 1)) with (S (Z.to_nat n)) by lia. Qed.

(** Closing the gap left by the class at position [zlen l]. *)
Lemma close_gap l d r : zlen (l ++ d :: r) <= MAX_DEPTH ->
  let t := of_stack (l ++ d :: r) in
  mkTracker (upd (shift_down (zrange (zlen l) (depth t - 1)) (held t)) (depth t - 1) None) (depth t - 1) = of_stack (l ++ r).
Proof.
  rewrite zlen_app, zlen_cons. intros Hn. pose proof (zlen_nonneg l). pose proof (zlen_nonneg r).
  simpl. rewrite zlen_app, zlen_cons, fmap_app, fmap_cons, <- app_assoc. simpl.
  pose proof (shift_down_spec (Some <$> l) (Some d) (Some <$> r) (zrepeat None (MAX_DEPTH - (zlen l + (1 + zlen r))))) as Hs.
  rewrite !zlen_fmap in Hs. replace (zlen l + (1 + zlen r) - 1) with (zlen l + zlen r) by lia.
  rewrite Hs, app_assoc, upd_middle by (rewrite zlen_app, !zlen_fmap; lia).
  unfold of_stack. rewrite zlen_app, fmap_app, zrepeat_cons by lia. do 3 f_equal. lia.
Qed.

Lemma release_scan_spec c l r : zlen (l ++ r) <= MAX_DEPTH -> c ∉ r ->
  release_scan c (reverse (zrange 0 (zlen l))) (of_stack (l ++ r)) = of_stack (remove_last c (l ++ r)).
Proof.
  revert r. induction l as [|d l IH] using rev_ind; intros r Hn Hr.
  { by rewrite remove_last_notin. }
  pose proof (zlen_nonneg l) as Hl. pose proof (zlen_nonneg r) as Hz.
  rewrite <- app_assoc in *. simpl in *. rewrite zlen_snoc, zrange_snoc, reverse_snoc by lia. cbn [release_scan].
  rewrite of_stack_mid. case_bool_decide as Hd.
  - injection Hd as ->. rewrite remove_last_split by done. by apply close_gap.
  - apply IH; [done|]. set_solver.
Qed.

Lemma release_spec c st : zlen st <= MAX_DEPTH -> tracker_release c (of_stack st) = of_stack (remove_last c st).
Proof.
  intros Hn. pose proof (release_scan_spec c st [] ) as H. rewrite app_nil_r in H. apply H; [done | set_solver].
Qed.

Lemma remove_last_perm c st st' : st ≡ₚ c :: st' -> remove_last c st ≡ₚ st'.
Proof.
  revert st'. induction st as [|d st IH]; intros st' Hp.
  { by apply Permutation_nil_cons in Hp. }
  simpl. case_bool_decide as Hd.
  - destruct Hd as [-> _]. by apply Permutation_cons_inv in Hp.
  - assert (Hin : c ∈ st).
    { assert (Hc : c ∈ d :: st) by (rewrite Hp; set_solver). apply elem_of_cons in Hc as [-> | Hc]; [|done].
      destruct (decide (d ∈ st)); naive_solver. }
    destruct (proj1 (elem_of_Permutation st c) Hin) as [st2 H2]. rewrite (IH st2 H2).
    apply (Permutation_cons_inv (a := c)). rewrite <- Hp, Permutation_swap, <- H2. done.
Qed.

(** ** Contexts and hooks *)

Inductive Mode := Plain | Task | Irq.
#[global] Instance mode_eq_dec : EqDecision Mode.
Proof. solve_decision. Defined.

(** A lock: its class, its mode, and how many words it has.  [Mutex] and [RwLock]
    have one, [ReadMostly] one per shard. *)
Record Decl := mkDecl { d_class : LockClass; d_mode : Mode; d_shards : nat }.

Definition SHARDS : nat := 8.

(** A guard of lock [g_lock]; a shared guard holds the word [g_shard], an exclusive
    one all the words of the lock. *)
Record Guard := mkGuard { g_lock : nat; g_access : access; g_shard : nat; g_saved : option bool }.

(** Where a context is: outside the lock code; in the loop of [lock], [read] or
    [write], waiting for word [k]; between [enter] and the attempt of [try_lock]; in
    the drop of a guard, about to release word [k]; before [leave]. *)
Inductive point :=
  | Run
  | Waiting (l : nat) (a : access) (k : nat) (saved : option bool)
  | Trying (l : nat) (saved : option bool)
  | Dropping (g : Guard) (k : nat)
  | Leaving (g : Guard).

Record Ctx := mkCtx { cpu : nat; if_on : bool; trk : OrderTracker; guards : list Guard; pc : point }.

Definition set_if (b : bool) (c : Ctx) : Ctx := mkCtx (cpu c) b (trk c) (guards c) (pc c).
Definition set_trk (t : OrderTracker) (c : Ctx) : Ctx := mkCtx (cpu c) (if_on c) t (guards c) (pc c).
Definition set_point (p : point) (c : Ctx) : Ctx := mkCtx (cpu c) (if_on c) (trk c) (guards c) p.
Definition set_guards (gs : list Guard) (c : Ctx) : Ctx := mkCtx (cpu c) (if_on c) (trk c) gs (pc c).

(** The statics of [klock.rs]. *)
Record Hooks := mkHooks {
  installed : bool;
  INVERSIONS : Z;
  SELFTEST_INVERSIONS : Z;
  IF0_TASK : list Z;
}.

Definition KM := ST (Hooks * Ctx) Empty_set.

Definition bump (n : Z) : Z := (n + 1) mod 2 ^ 64.

Definition on_ctx {A} (f : Ctx -> A * Ctx) : KM A := fun '(h, c) => let '(a, c') := f c in (Ok a, (h, c')).
Definition on_hooks (f : Hooks -> Hooks) : KM unit := fun '(h, c) => (Ok tt, (f h, c)).

Definition interrupts (b : bool) : KM unit := on_ctx (fun c => (tt, set_if b c)).
Definition are_enabled : KM bool := on_ctx (fun c => (if_on c, c)).

Definition irq_save : KM bool := let! was := are_enabled in interrupts false ;;! sret was.
Definition irq_restore (was : bool) : KM unit := if was then interrupts true else sret tt.

Definition count_if0 (c : LockClass) (h : Hooks) : Hooks :=
  mkHooks (installed h) (INVERSIONS h) (SELFTEST_INVERSIONS h)
    (upd (IF0_TASK h) (index c) (bump (at_ 0 (IF0_TASK h) (index c)))).

Definition is_test (c : LockClass) : bool := match c with TestOuter | TestInner => true | _ => false end.

(** [is_selftest_pair] and the count it decides. *)
Definition count_inversion (inv : Inversion) (h : Hooks) : Hooks :=
  if is_test (holding inv) && is_test (acquiring inv)
  then mkHooks (installed h) (INVERSIONS h) (bump (SELFTEST_INVERSIONS h)) (IF0_TASK h)
  else mkHooks (installed h) (bump (INVERSIONS h)) (SELFTEST_INVERSIONS h) (IF0_TASK h).

(** A call on the tracker of the running context; the error is a value here. *)
Definition track (m : TM unit) : KM (option Inversion) := fun '(h, c) =>
  match m (trk c) with
  | (Ok _, t) => (Ok None, (h, set_trk t c))
  | (Err inv, t) => (Ok (Some inv), (h, set_trk t c))
  | (Panic, t) => (Panic, (h, set_trk t c))
  | (OutOfFuel, t) => (OutOfFuel, (h, set_trk t c))
  end.

Definition on_acquire (class : LockClass) (mode : Mode) (trying : bool) : KM unit :=
  let! if_on := are_enabled in
  (if bool_decide (mode = Task) && negb if_on then on_hooks (count_if0 class) else sret tt) ;;!
  interrupts false ;;!
  let! r := track (tracker_acquire class) in
  match r with
  | Some inv =>
      track (push_unchecked class) ;;!
      (if trying then sret tt else on_hooks (count_inversion inv))
  | None => sret tt
  end ;;!
  irq_restore if_on.

Definition on_release (class : LockClass) : KM unit :=
  let! if_on := are_enabled in
  interrupts false ;;!
  on_ctx (fun c => (tt, set_trk (tracker_release class (trk c)) c)) ;;!
  irq_restore if_on.

(** ** [enter] and [leave] *)

Definition hooks : KM bool := fun '(h, c) => (Ok (installed h), (h, c)).

Definition enter (class : LockClass) (mode : Mode) (trying : bool) : KM (option bool) :=
  let! h := hooks in
  if h then
    let! saved := (if bool_decide (mode = Irq) then let! was := irq_save in sret (Some was) else sret None) in
    (if bool_decide (mode = Plain) then sret tt else on_acquire class mode trying) ;;!
    sret saved
  else sret None.

Definition leave (class : LockClass) (mode : Mode) (saved : option bool) : KM unit :=
  let! h := hooks in
  if h then
    (if bool_decide (mode = Plain) then sret tt else on_release class) ;;!
    match saved with Some was => irq_restore was | None => sret tt end
  else sret tt.

Definition abort (class : LockClass) (mode : Mode) (saved : option bool) : KM unit := leave class mode saved.

(** [held_here]. *)
Definition held_here (h : Hooks) (c : Ctx) : Z := if installed h then depth (trk c) else 0.

(** ** The locks of the kernel *)

Section kernel.
Context {W : Type} `{SpinLock W}.

Record Kernel := mkKernel {
  decls : list Decl;
  words : list (list W);
  ctxs : list Ctx;
  hk : Hooks;
}.

(** What a context may do: call [lock], [read] or [write]; call [try_lock]; drop its
    [n]-th guard; or go on with the call it is in. *)
Inductive act :=
  | ALock (l : nat) (a : access)
  | ATry (l : nat)
  | ADrop (n : nat)
  | AGo.

Definition word (s : Kernel) (l k : nat) : option W := words s !! l ≫= fun ws => ws !! k.

Definition set_word (l k : nat) (w : W) (s : Kernel) : Kernel :=
  mkKernel (decls s) (alter (fun ws => <[k := w]> ws) l (words s)) (ctxs s) (hk s).

Definition put (i : nat) (hc : Hooks * Ctx) (s : Kernel) : Kernel :=
  mkKernel (decls s) (words s) (<[i := snd hc]> (ctxs s)) (fst hc).

Definition cpu_shard (s : Kernel) (c : Ctx) : nat := if installed (hk s) then (cpu c mod SHARDS)%nat else 0%nat.

(** The word a call waits for first: a reader only takes that of its CPU. *)
Definition first_word (s : Kernel) (d : Decl) (a : access) (c : Ctx) : nat :=
  match a with Shared => (cpu_shard s c mod d_shards d)%nat | Excl => 0%nat end.

Definition more_words (d : Decl) (a : access) (k : nat) : bool := bool_decide (a = Excl) && (S k <? d_shards d)%nat.

(** Up to the first attempt of [lock], [read], [write] ([trying = false]) and of
    [try_lock]. *)
Definition begin_call (i l : nat) (trying : bool) (a : access) (c : Ctx) (s : Kernel) : option Kernel :=
  d ← decls s !! l;
  match enter (d_class d) (d_mode d) trying (hk s, c) with
  | (Ok saved, (h, c')) =>
      let p := if trying then Trying l saved else Waiting l a (first_word s d a c) saved in
      Some (put i (h, set_point p c') s)
  | _ => None
  end.

(** One attempt of the loop; the attempt of [ReadMostly::write] for one shard. *)
Definition attempt (i l : nat) (a : access) (k : nat) (saved : option bool) (c : Ctx) (s : Kernel) : option Kernel :=
  d ← decls s !! l;
  w ← word s l k;
  match try_acquire a w with
  | None => Some s
  | Some w' =>
      let c' := if more_words d a k then set_point (Waiting l a (S k) saved) c
                else set_point Run (set_guards (guards c ++ [mkGuard l a k saved]) c) in
      Some (put i (hk s, c') (set_word l k w' s))
  end.

Definition end_call (i l : nat) (saved : option bool) (c : Ctx) (s : Kernel) : option Kernel :=
  d ← decls s !! l;
  match leave (d_class d) (d_mode d) saved (hk s, c) with
  | (Ok _, (h, c')) => Some (put i (h, set_point Run c') s)
  | _ => None
  end.

Definition attempt_try (i l : nat) (saved : option bool) (c : Ctx) (s : Kernel) : option Kernel :=
  w ← word s l 0;
  match try_acquire Excl w with
  | Some w' =>
      Some (put i (hk s, set_point Run (set_guards (guards c ++ [mkGuard l Excl 0 saved]) c)) (set_word l 0 w' s))
  | None => end_call i l saved c s
  end.

Definition begin_drop (i n : nat) (c : Ctx) (s : Kernel) : option Kernel :=
  g ← guards c !! n;
  let k := match g_access g with Shared => g_shard g | Excl => 0%nat end in
  Some (put i (hk s, set_point (Dropping g k) (set_guards (base.delete n (guards c)) c)) s).

Definition drop_word (i : nat) (g : Guard) (k : nat) (c : Ctx) (s : Kernel) : option Kernel :=
  d ← decls s !! g_lock g;
  w ← word s (g_lock g) k;
  let p := if more_words d (g_access g) k then Dropping g (S k) else Leaving g in
  Some (put i (hk s, set_point p c) (set_word (g_lock g) k (release (g_access g) w) s)).

(** One action of context [i]; [None] when the action is not its next one. *)
Definition perform (i : nat) (x : act) (s : Kernel) : option Kernel :=
  c ← ctxs s !! i;
  match x, pc c with
  | ALock l a, Run => begin_call i l false a c s
  | ATry l, Run =>
      d ← decls s !! l;
      if (d_shards d =? 1)%nat then begin_call i l true Excl c s else None
  | ADrop n, Run => begin_drop i n c s
  | AGo, Waiting l a k saved => attempt i l a k saved c s
  | AGo, Trying l saved => attempt_try i l saved c s
  | AGo, Dropping g k => drop_word i g k c s
  | AGo, Leaving g => end_call i (g_lock g) (g_saved g) c s
  | _, _ => None
  end.

(** Boot: the hooks installed, nothing held; a context has a CPU and an interrupt flag. *)
Definition boot (ds : list Decl) (cs : list (nat * bool)) : Kernel :=
  mkKernel ds ((fun d => replicate (d_shards d) spin_new) <$> ds)
    ((fun '(n, b) => mkCtx n b tracker_new [] Run) <$> cs)
    (mkHooks true 0 0 (zrepeat 0 (zlen ALL_CLASSES))).

(** The states a run from [s0] reaches by actions that satisfy [A], visiting only
    states that satisfy [P]. *)
Inductive reach (A : Kernel -> nat -> act -> Prop) (P : Kernel -> Prop) (s0 : Kernel) : Kernel -> Prop :=
  | reach_start : P s0 -> reach A P s0 s0
  | reach_step s i x s' : reach A P s0 s -> A s i x -> perform i x s = Some s' -> P s' -> reach A P s0 s'.

(** A schedule, for examples. *)
Fixpoint play (xs : list (nat * act)) (s : Kernel) : option Kernel :=
  match xs with
  | [] => Some s
  | (i, x) :: rest => perform i x s ≫= play rest
  end.

(** *** Who holds a word *)

Definition guard_holds (a : access) (l k : nat) (g : Guard) : nat :=
  if bool_decide (g_access g = a) && bool_decide (g_lock g = l) &&
     match a with Shared => bool_decide (g_shard g = k) | Excl => true end
  then 1%nat else 0%nat.

Definition point_holds (a : access) (l k : nat) (p : point) : nat :=
  match p with
  | Waiting l' Excl k' _ => if bool_decide (a = Excl) && bool_decide (l' = l) && (k <? k')%nat then 1%nat else 0%nat
  | Dropping g k' =>
      if bool_decide (g_access g = a) && bool_decide (g_lock g = l) &&
         match a with Shared => bool_decide (k' = k) | Excl => (k' <=? k)%nat end
      then 1%nat else 0%nat
  | _ => 0%nat
  end.

Definition holds (a : access) (l k : nat) (c : Ctx) : nat :=
  (sum_list_with (guard_holds a l k) (guards c) + point_holds a l k (pc c))%nat.

Definition total (a : access) (l k : nat) (s : Kernel) : nat := sum_list_with (holds a l k) (ctxs s).

End kernel.
#[global] Arguments Kernel : clear implicits.
End Lock.
