(* ===== verification/LockOrder.v ===== *)
(** What the kernel's locks guarantee ([Lock]): a word is never shared with a writer,
    a run without further reported inversions, in which no context waits while it
    holds a [Plain] lock, cannot deadlock, and interrupts are off as long as an [Irq]
    lock is held. *)

From stdpp Require Import base list relations.
From S2P Require Import Prelude Spin Lock.

Module LockOrder.
Import Lock.

(** ** The hooks on a tracker that is a stack *)

(** No inversion was counted between the two. *)
Definition same_counts (h h' : Hooks) : Prop := INVERSIONS h' = INVERSIONS h /\ SELFTEST_INVERSIONS h' = SELFTEST_INVERSIONS h.

Lemma bump_changes x : bump x <> x.
Proof. unfold bump. Z.to_euclidean_division_equations. lia. Qed.

Lemma acquire_hook cls mode trying h c st : trk c = of_stack st -> zlen st <= MAX_DEPTH ->
  exists h', on_acquire cls mode trying (h, c) = (Ok tt, (h', set_trk (of_stack (push cls st)) c)) /\
    installed h' = installed h /\
    (trying = false -> same_counts h h' -> Forall (fun k => rank k < rank cls) st).
Proof.
  intros Ht Hn. destruct c as [cp b t gs p]. simpl in Ht. subst t.
  set (h1 := if bool_decide (mode = Task) && negb b then count_if0 cls h else h).
  assert (H1 : installed h1 = installed h /\ INVERSIONS h1 = INVERSIONS h /\ SELFTEST_INVERSIONS h1 = SELFTEST_INVERSIONS h).
  { unfold h1. by destruct (_ && _). }
  set (h2 := match blocking cls st with Some k => if trying then h1 else count_inversion (mkInversion k cls) h1 | None => h1 end).
  exists h2. split.
  - unfold on_acquire, sbind, are_enabled, on_ctx. simpl.
    replace ((if bool_decide (mode = Task) && negb b then on_hooks (count_if0 cls) else sret tt) (h, mkCtx cp b (of_stack st) gs p))
      with (Ok (E := Empty_set) tt, (h1, mkCtx cp b (of_stack st) gs p)) by (unfold h1; by destruct (_ && _)).
    simpl. rewrite acquire_spec by done. unfold h2. destruct (blocking cls st) as [k|]; simpl.
    + rewrite push_spec by done. by destruct trying, b.
    + by destruct b.
  - clearbody h1. destruct H1 as (H11 & H12 & H13). split; [unfold h2, count_inversion; repeat case_match; simpl; done|].
    intros -> [I2 S2]. unfold h2 in I2, S2. destruct (blocking cls st) as [k|] eqn:Hb; [|by apply blocking_None].
    exfalso. unfold count_inversion in I2, S2. destruct (_ && _); simpl in I2, S2.
    + rewrite <- H13 in S2. by apply bump_changes in S2.
    + rewrite <- H12 in I2. by apply bump_changes in I2.
Qed.

Lemma release_hook cls h c st : trk c = of_stack st -> zlen st <= MAX_DEPTH ->
  on_release cls (h, c) = (Ok tt, (h, set_trk (of_stack (remove_last cls st)) c)).
Proof.
  intros Ht Hn. destruct c as [cp b t gs p]. simpl in Ht. subst t.
  unfold on_release, sbind, are_enabled, on_ctx. simpl. rewrite release_spec by done. by destruct b.
Qed.

(** [enter] saves the interrupt flag of an [Irq] lock and clears it. *)
Definition saves (mode : Mode) (c : Ctx) : option bool := if bool_decide (mode = Irq) then Some (if_on c) else None.
Definition masks (mode : Mode) (b : bool) : bool := if bool_decide (mode = Irq) then false else b.
Definition restores (saved : option bool) (b : bool) : bool := match saved with Some true => true | _ => b end.

Lemma enter_spec cls mode trying h c st : mode <> Plain -> installed h = true -> trk c = of_stack st -> zlen st <= MAX_DEPTH ->
  exists h', enter cls mode trying (h, c) =
      (Ok (saves mode c), (h', mkCtx (cpu c) (masks mode (if_on c)) (of_stack (push cls st)) (guards c) (pc c))) /\
    installed h' = true /\
    (trying = false -> same_counts h h' -> Forall (fun k => rank k < rank cls) st).
Proof.
  intros Hm Hi Ht Hn.
  destruct (acquire_hook cls mode trying h (set_if (masks mode (if_on c)) c) st Ht Hn) as (h' & Ha & Hi' & Hr).
  exists h'. split; [|split; [congruence | done]].
  unfold enter, sbind, hooks. rewrite Hi, (bool_decide_eq_false_2 _ Hm).
  unfold masks, saves in *. case_bool_decide; simpl; [by rewrite Ha|].
  destruct c. unfold set_if in Ha. simpl in *. by rewrite Ha.
Qed.

Lemma leave_spec cls mode saved h c st : mode <> Plain -> installed h = true -> trk c = of_stack st -> zlen st <= MAX_DEPTH ->
  leave cls mode saved (h, c) =
    (Ok tt, (h, mkCtx (cpu c) (restores saved (if_on c)) (of_stack (remove_last cls st)) (guards c) (pc c))).
Proof.
  intros Hm Hi Ht Hn. unfold leave, sbind, hooks. rewrite Hi, (bool_decide_eq_false_2 _ Hm), (release_hook _ _ _ _ Ht Hn).
  destruct c, saved as [[]|]; done.
Qed.

(** The hooks do not see a [Plain] lock. *)
Lemma enter_plain cls trying h c : enter cls Plain trying (h, c) = (Ok None, (h, c)).
Proof. unfold enter, sbind, hooks. by destruct (installed h). Qed.

Lemma leave_plain cls saved h c : exists c', leave cls Plain saved (h, c) = (Ok tt, (h, c')) /\
  trk c' = trk c /\ guards c' = guards c /\ pc c' = pc c.
Proof. unfold leave, sbind, hooks. simpl. destruct (installed h), saved as [[]|]; eexists; (split; [reflexivity | done]). Qed.

(** ** Words and their holders *)

Section locks.
Context {W : Type} `{SpinLaws W}.
Implicit Types s : Kernel W.

Definition on_track (c : Ctx) : Prop := exists st, trk c = of_stack st /\ zlen st <= MAX_DEPTH.

Definition valid_word (ds : list Decl) (l k : nat) : Prop := exists d, ds !! l = Some d /\ (k < d_shards d)%nat.
Definition guard_valid (ds : list Decl) (g : Guard) : Prop := valid_word ds (g_lock g) (g_shard g).

Definition point_valid (ds : list Decl) (p : point) : Prop :=
  match p with
  | Run => True
  | Waiting l _ k _ => valid_word ds l k
  | Trying l _ => exists d, ds !! l = Some d /\ d_shards d = 1%nat
  | Dropping g k => guard_valid ds g /\ valid_word ds (g_lock g) k
  | Leaving g => guard_valid ds g
  end.

Definition ctx_valid (ds : list Decl) (c : Ctx) : Prop :=
  on_track c /\ Forall (guard_valid ds) (guards c) /\ point_valid ds (pc c).

Record words_inv s := {
  wi_shards : Forall (fun d => 0 < d_shards d)%nat (decls s);
  wi_shape : Forall2 (fun d ws => length ws = d_shards d) (decls s) (words s);
  wi_installed : installed (hk s) = true;
  wi_ctxs : Forall (ctx_valid (decls s)) (ctxs s);
  wi_words : forall l k w, word s l k = Some w -> accounts w (total Shared l k s) (total Excl l k s);
}.

(** What an action of a context does to the holders of the words. *)
Inductive effect (i : nat) (c : Ctx) s : Kernel W -> Prop :=
  | eff_spin : effect i c s s
  | eff_local h c' :
      installed h = true -> ctx_valid (decls s) c' ->
      (forall a l k, valid_word (decls s) l k -> holds a l k c' = holds a l k c) ->
      effect i c s (put i (h, c') s)
  | eff_take a0 l0 k0 w w' c' :
      word s l0 k0 = Some w -> try_acquire a0 w = Some w' -> ctx_valid (decls s) c' ->
      (forall a l k, valid_word (decls s) l k ->
        holds a l k c' = (holds a l k c + if decide ((l, k) = (l0, k0)) then one a a0 else 0)%nat) ->
      effect i c s (put i (hk s, c') (set_word l0 k0 w' s))
  | eff_give a0 l0 k0 w c' :
      word s l0 k0 = Some w -> ctx_valid (decls s) c' ->
      (forall a l k, valid_word (decls s) l k ->
        holds a l k c = (holds a l k c' + if decide ((l, k) = (l0, k0)) then one a a0 else 0)%nat) ->
      effect i c s (put i (hk s, c') (set_word l0 k0 (release a0 w) s)).

Lemma word_valid s l k w : words_inv s -> word s l k = Some w -> valid_word (decls s) l k.
Proof.
  intros I Hw. unfold word in Hw. destruct (words s !! l) as [ws|] eqn:Hl; [|done]. simpl in Hw.
  destruct (Forall2_lookup_r _ _ _ _ _ (wi_shape _ I) Hl) as (d & Hd & Hn).
  exists d. split; [done|]. rewrite <- Hn. by eapply lookup_lt_Some.
Qed.

Lemma valid_has_word s l k : words_inv s -> valid_word (decls s) l k -> exists w, word s l k = Some w.
Proof.
  intros I (d & Hd & Hk). destruct (Forall2_lookup_l _ _ _ _ _ (wi_shape _ I) Hd) as (ws & Hl & Hn).
  unfold word. rewrite Hl. simpl. apply lookup_lt_is_Some. lia.
Qed.

Lemma word_set s l k w l' k' : word (set_word l k w s) l' k' =
  if decide ((l', k') = (l, k)) then (word s l k ≫= fun _ => Some w) else word s l' k'.
Proof.
  unfold word, set_word. simpl. case_decide as E.
  - injection E as -> ->. rewrite list_lookup_alter_eq. destruct (words s !! l) as [ws|]; [|done]. simpl.
    destruct (ws !! k) eqn:Hk; simpl; [by rewrite list_lookup_insert_eq by (by eapply lookup_lt_Some)|].
    rewrite list_insert_ge; [done|]. by apply lookup_ge_None.
  - destruct (decide (l' = l)) as [->|Hl]; [|by rewrite list_lookup_alter_ne by congruence].
    rewrite list_lookup_alter_eq. destruct (words s !! l) as [ws|]; [|done]. simpl.
    by rewrite list_lookup_insert_ne by congruence.
Qed.

Lemma total_put a l k s i c hc : ctxs s !! i = Some c ->
  (total a l k (put i hc s) + holds a l k c = total a l k s + holds a l k (snd hc))%nat.
Proof. intros Hc. by apply sum_insert. Qed.

Lemma holds_total a l k s i c : ctxs s !! i = Some c -> (holds a l k c <= total a l k s)%nat.
Proof. intros Hc. unfold total. rewrite (sum_delete _ _ _ _ Hc). lia. Qed.

Lemma put_inv s i c h c' w l0 k0 : words_inv s -> ctxs s !! i = Some c -> installed h = true -> ctx_valid (decls s) c' ->
  (forall l k v, word (set_word l0 k0 w s) l k = Some v ->
     accounts v (total Shared l k (put i (h, c') s)) (total Excl l k (put i (h, c') s))) ->
  words_inv (put i (h, c') (set_word l0 k0 w s)).
Proof.
  intros I Hc Hh Hv Hw. split; simpl; [apply I | | done | | done].
  - apply Forall2_alter_r; [apply I|]. intros d ws _ _ Hn. by rewrite length_insert.
  - apply Forall_insert; [apply I | done].
Qed.

(** The words of a state whose context [i] changes its holdings of one word. *)
Lemma effect_words s i c h c' l0 k0 w' :
  words_inv s -> ctxs s !! i = Some c ->
  (forall a l k, valid_word (decls s) l k -> (l, k) <> (l0, k0) -> holds a l k c' = holds a l k c) ->
  accounts w' (total Shared l0 k0 (put i (h, c') s)) (total Excl l0 k0 (put i (h, c') s)) ->
  forall l k v, word (set_word l0 k0 w' s) l k = Some v ->
    accounts v (total Shared l k (put i (h, c') s)) (total Excl l k (put i (h, c') s)).
Proof.
  intros I Hc Hs Ha l k v Hl. rewrite word_set in Hl.
  destruct (decide ((l, k) = (l0, k0))) as [[= -> ->]|Hne].
  - destruct (word s l0 k0); simplify_eq/=. done.
  - pose proof (word_valid _ _ _ _ I Hl) as Hval. pose proof (wi_words _ I l k v Hl) as Hv.
    pose proof (total_put Shared l k s i c (h, c') Hc) as T1. pose proof (total_put Excl l k s i c (h, c') Hc) as T2.
    simpl in T1, T2. rewrite Hs in T1, T2 by done.
    by replace (total Shared l k _) with (total Shared l k s) by lia; replace (total Excl l k _) with (total Excl l k s) by lia.
Qed.

Lemma effect_inv s i c s' : words_inv s -> ctxs s !! i = Some c -> effect i c s s' -> words_inv s'.
Proof.
  intros I Hc E. destruct E as [|h c' Hh Hv Hs|a0 l0 k0 w w' c' Hw Ht Hv Hs|a0 l0 k0 w c' Hw Hv Hs]; [done| | |].
  - split; simpl; [apply I | apply I | done | apply Forall_insert; [apply I | done] |].
    intros l k w Hw. change (word s l k = Some w) in Hw. pose proof (word_valid _ _ _ _ I Hw) as Hval.
    pose proof (wi_words _ I l k w Hw) as Ha.
    pose proof (total_put Shared l k s i c (h, c') Hc) as T1. pose proof (total_put Excl l k s i c (h, c') Hc) as T2.
    simpl in T1, T2. rewrite Hs in T1, T2 by done.
    by replace (total Shared l k _) with (total Shared l k s) by lia; replace (total Excl l k _) with (total Excl l k s) by lia.
  - apply (put_inv s i c); [done | done | apply I | done |].
    pose proof (word_valid _ _ _ _ I Hw) as Hval.
    pose proof (total_put Shared l0 k0 s i c (hk s, c') Hc) as T1. pose proof (total_put Excl l0 k0 s i c (hk s, c') Hc) as T2.
    simpl in T1, T2. rewrite Hs, decide_True in T1, T2 by done.
    pose proof (accounts_try a0 w _ _ (wi_words _ I l0 k0 w Hw)) as Ha. rewrite Ht in Ha.
    apply (effect_words s i c); [done | done | intros a l k Hval' Hne; rewrite Hs, decide_False by done; lia |].
    by replace (total Shared l0 k0 (put _ _ _)) with (total Shared l0 k0 s + one Shared a0)%nat by lia;
      replace (total Excl l0 k0 (put _ _ _)) with (total Excl l0 k0 s + one Excl a0)%nat by lia.
  - apply (put_inv s i c); [done | done | apply I | done |].
    pose proof (word_valid _ _ _ _ I Hw) as Hval.
    pose proof (total_put Shared l0 k0 s i c (hk s, c') Hc) as T1. pose proof (total_put Excl l0 k0 s i c (hk s, c') Hc) as T2.
    simpl in T1, T2. rewrite Hs, decide_True in T1, T2 by done.
    apply (effect_words s i c); [done | done | intros a l k Hval' Hne; rewrite Hs, decide_False by done; lia |].
    apply accounts_release.
    by replace (total Shared l0 k0 (put _ _ _) + one Shared a0)%nat with (total Shared l0 k0 s)%nat by lia;
      replace (total Excl l0 k0 (put _ _ _) + one Excl a0)%nat with (total Excl l0 k0 s)%nat by lia; apply I.
Qed.

(** *** Every action has such an effect *)

(** The bookkeeping returns [a], sets the interrupt flag to [b], keeps the guards, and
    leaves a tracker that is a stack. *)
Definition books {A} (c : Ctx) (m : KM A) (h : Hooks) (a : A) (b : bool) : Prop :=
  exists h' st, m (h, c) = (Ok a, (h', mkCtx (cpu c) b (of_stack st) (guards c) (pc c))) /\
    installed h' = true /\ zlen st <= MAX_DEPTH.

Lemma push_depth cls st : zlen st <= MAX_DEPTH -> zlen (push cls st) <= MAX_DEPTH.
Proof. intros Hn. unfold push. case_if; [rewrite zlen_snoc; lia | done]. Qed.

Lemma remove_depth cls st : zlen (remove_last cls st) <= zlen st.
Proof. induction st as [|d st IH]; simpl; [done|]. case_bool_decide; rewrite ?zlen_cons; lia. Qed.

Lemma enter_books cls mode trying h c : installed h = true -> on_track c ->
  books c (enter cls mode trying) h (saves mode c) (masks mode (if_on c)).
Proof.
  intros Hi (st & Ht & Hn). destruct (decide (mode = Plain)) as [->|Hm].
  - exists h, st. split; [|done]. unfold enter, sbind, hooks. rewrite Hi. destruct c; simpl in *. by subst.
  - destruct (enter_spec cls mode trying h c st Hm Hi Ht Hn) as (h' & He & Hi' & _).
    exists h', (push cls st). auto using push_depth.
Qed.

Lemma leave_books cls mode saved h c : installed h = true -> on_track c ->
  books c (leave cls mode saved) h tt (restores saved (if_on c)).
Proof.
  intros Hi (st & Ht & Hn). destruct (decide (mode = Plain)) as [->|Hm].
  - exists h, st. split; [|done].
    unfold leave, sbind, hooks. rewrite Hi. destruct c, saved as [[]|]; simpl in *; by subst.
  - exists h, (remove_last cls st). rewrite (leave_spec _ _ _ _ _ _ Hm Hi Ht Hn).
    pose proof (remove_depth cls st). split; [done|]. split; [done | lia].
Qed.

Lemma holds_point a l k c p : holds a l k (set_point p c) = (sum_list_with (guard_holds a l k) (guards c) + point_holds a l k p)%nat.
Proof. done. Qed.

Lemma begin_call_effect s i l trying a c s' : words_inv s -> ctx_valid (decls s) c -> pc c = Run ->
  (trying = true -> exists d, decls s !! l = Some d /\ d_shards d = 1%nat) ->
  begin_call i l trying a c s = Some s' -> effect i c s s'.
Proof.
  intros I (Ht & Hg & _) Hp H1 Hs. unfold begin_call in Hs. destruct (decls s !! l) as [d|] eqn:Hd; [|done]. simpl in Hs.
  destruct (enter_books (d_class d) (d_mode d) trying (hk s) c (wi_installed _ I) Ht) as (h' & st & He & Hi & Hn).
  rewrite He in Hs. injection Hs as <-.
  pose proof (Forall_lookup_1 _ _ _ _ (wi_shards _ I) Hd) as Hpos. simpl in Hpos.
  apply eff_local; [done | |].
  - split; [by exists st|]. split; [done|]. destruct trying; simpl; [rewrite Hd; by apply H1|].
    exists d. split; [done|]. unfold first_word. destruct a; [apply Nat.mod_upper_bound; lia | lia].
  - intros a' l' k' _. rewrite holds_point. unfold holds. rewrite Hp. f_equal.
    destruct trying; [done|]. destruct a; [done|]. simpl. by rewrite andb_false_r.
Qed.

Lemma end_call_effect s i l saved c s' : words_inv s -> ctx_valid (decls s) c ->
  (forall a l k, point_holds a l k (pc c) = 0%nat) -> end_call i l saved c s = Some s' -> effect i c s s'.
Proof.
  intros I (Ht & Hg & _) Hp Hs. unfold end_call in Hs. destruct (decls s !! l) as [d|] eqn:Hd; [|done]. simpl in Hs.
  destruct (leave_books (d_class d) (d_mode d) saved (hk s) c (wi_installed _ I) Ht) as (h' & st & He & Hi & Hn).
  rewrite He in Hs. injection Hs as <-. apply eff_local; [done | split; [by exists st | done] |].
  intros a' l' k' _. rewrite holds_point. unfold holds. by rewrite Hp.
Qed.

(** A context that takes its last word has a guard. *)
Lemma holds_guard a l k c l0 a0 k0 sv :
  holds a l k (set_point Run (set_guards (guards c ++ [mkGuard l0 a0 k0 sv]) c)) =
  (sum_list_with (guard_holds a l k) (guards c) + guard_holds a l k (mkGuard l0 a0 k0 sv))%nat.
Proof. unfold holds. simpl. rewrite sum_list_with_app. simpl. lia. Qed.

#[local] Arguments Nat.ltb : simpl never.
#[local] Arguments Nat.leb : simpl never.

(** Decides every test of a goal about holdings. *)
Ltac decide_all :=
  repeat (case_bool_decide || case_decide); simplify_eq/=;
  repeat match goal with
  | |- context [(?x <? ?y)%nat] => destruct (Nat.ltb_spec x y)
  | |- context [(?x <=? ?y)%nat] => destruct (Nat.leb_spec x y)
  end; simpl; try done; try lia;
  try match goal with Hne : (_, _) <> (_, _) |- _ => exfalso; apply Hne; f_equal; lia end.

Lemma attempt_effect s i l a k saved c s' : words_inv s -> ctx_valid (decls s) c -> pc c = Waiting l a k saved ->
  attempt i l a k saved c s = Some s' -> effect i c s s'.
Proof.
  intros I (Ht & Hg & Hv) Hp Hs. rewrite Hp in Hv. unfold attempt in Hs.
  destruct Hv as (d & Hd & Hk). rewrite Hd in Hs. simpl in Hs.
  destruct (word s l k) as [w|] eqn:Hw; [|done]. simpl in Hs.
  destruct (try_acquire a w) as [w'|] eqn:Ha; injection Hs as <-; [|constructor].
  apply (eff_take i c s a l k w w'); [done | done | |].
  - destruct (more_words d a k) eqn:Hm; [|split; [done|]; split; [|done]].
    + split; [done|]. split; [done|]. exists d. split; [done|]. unfold more_words in Hm. apply andb_true_iff in Hm as [_ Hm]. by apply Nat.ltb_lt in Hm.
    + simpl. apply Forall_app. split; [done|]. repeat constructor. by exists d.
  - intros a' l' k' (d' & Hd' & Hk'). unfold more_words. unfold holds at 2. rewrite Hp.
    destruct a; simpl.
    + rewrite holds_guard. unfold guard_holds, one. simpl. destruct a'; simpl; decide_all.
    + destruct (Nat.ltb_spec (S k) (d_shards d)) as [Hm|Hm].
      * rewrite holds_point. unfold one. simpl. destruct a'; simpl; decide_all.
      * rewrite holds_guard. unfold guard_holds, one. simpl. destruct a'; simpl; decide_all.
Qed.

Lemma attempt_try_effect s i l saved c s' : words_inv s -> ctx_valid (decls s) c -> pc c = Trying l saved ->
  attempt_try i l saved c s = Some s' -> effect i c s s'.
Proof.
  intros I V Hp Hs. pose proof V as (Ht & Hg & Hv). rewrite Hp in Hv. destruct Hv as (d & Hd & H1). unfold attempt_try in Hs.
  destruct (word s l 0) as [w|] eqn:Hw; [|done]. simpl in Hs.
  destruct (try_acquire Excl w) as [w'|] eqn:Ha.
  - injection Hs as <-. apply (eff_take i c s Excl l 0 w w'); [done | done | |].
    + split; [done|]. split; [|done]. simpl. apply Forall_app. split; [done|]. repeat constructor. exists d. split; [done | simpl; lia].
    + intros a' l' k' (d' & Hd' & Hk'). rewrite holds_guard. unfold holds. rewrite Hp. unfold guard_holds, one. simpl.
      destruct a'; simpl; decide_all.
  - apply (end_call_effect s i l saved); try done. by rewrite Hp.
Qed.

Lemma begin_drop_effect s i n c s' : words_inv s -> ctx_valid (decls s) c -> pc c = Run ->
  begin_drop i n c s = Some s' -> effect i c s s'.
Proof.
  intros I (Ht & Hg & _) Hp Hs. unfold begin_drop in Hs. destruct (guards c !! n) as [g|] eqn:Hn; [|done]. injection Hs as <-.
  pose proof (Forall_lookup_1 _ _ _ _ Hg Hn) as Hgv.
  apply eff_local; [apply I | |].
  - split; [done|]. split; [by apply Forall_delete|]. split; [done|].
    destruct Hgv as (d & Hd & Hk). exists d. split; [done|]. destruct (g_access g); lia.
  - intros a l k _. rewrite holds_point. unfold holds. rewrite Hp, (sum_delete _ _ _ _ Hn). simpl. unfold guard_holds.
    destruct a; decide_all; destruct (g_access g); simplify_eq/=; lia.
Qed.

Lemma drop_word_effect s i g k c s' : words_inv s -> ctx_valid (decls s) c -> pc c = Dropping g k ->
  drop_word i g k c s = Some s' -> effect i c s s'.
Proof.
  intros I (Ht & Hg & Hv) Hp Hs. rewrite Hp in Hv. destruct Hv as [Hv (d & Hd & Hk)]. unfold drop_word in Hs.
  rewrite Hd in Hs. simpl in Hs. destruct (word s (g_lock g) k) as [w|] eqn:Hw; [|done]. injection Hs as <-.
  apply (eff_give i c s (g_access g) (g_lock g) k w); [done | |].
  - split; [done|]. split; [done|]. simpl. destruct (more_words d (g_access g) k) eqn:Hm; [|done]. split; [done|]. exists d. split; [done|].
    unfold more_words in Hm. apply andb_true_iff in Hm as [_ Hm]. by apply Nat.ltb_lt in Hm.
  - intros a' l' k' (d' & Hd' & Hk'). rewrite holds_point. unfold holds, more_words, one. rewrite Hp.
    destruct g as [gl ga gk gs]; simpl in *.
    destruct (Nat.ltb_spec (S k) (d_shards d)), ga, a'; simpl; decide_all.
Qed.

Lemma perform_effect s i x s' : words_inv s -> perform i x s = Some s' ->
  exists c, ctxs s !! i = Some c /\ effect i c s s'.
Proof.
  intros I Hs. unfold perform in Hs. destruct (ctxs s !! i) as [c|] eqn:Hc; [|done]. simpl in Hs. exists c. split; [done|].
  pose proof (Forall_lookup_1 _ _ _ _ (wi_ctxs _ I) Hc) as V.
  destruct x as [l a|l|n|], (pc c) as [|l' a' k' sv|l' sv|g k|g] eqn:Hp; simplify_eq/=.
  - by apply (begin_call_effect s i l false a).
  - destruct (decls s !! l) as [d|] eqn:Hd; [|done]. simpl in Hs. destruct (Nat.eqb_spec (d_shards d) 1); [|done].
    apply (begin_call_effect s i l true Excl); try done. by exists d.
  - by eapply begin_drop_effect.
  - by eapply attempt_effect.
  - by eapply attempt_try_effect.
  - by eapply drop_word_effect.
  - eapply end_call_effect; try done. by rewrite Hp.
Qed.

Lemma boot_inv ds cs : Forall (fun d => 0 < d_shards d)%nat ds -> words_inv (boot (W := W) ds cs).
Proof.
  intros Hd. split; simpl; [done | | done | |].
  - clear Hd. induction ds as [|d ds IH]; simpl; constructor; [by rewrite length_replicate | done].
  - apply Forall_fmap, Forall_true. intros [n b]. split; [by exists []|]. done.
  - intros l k w Hw. unfold word in Hw. simpl in Hw. rewrite list_lookup_fmap in Hw.
    destruct (ds !! l) as [d|]; [|done]. simpl in Hw. apply lookup_replicate in Hw as [-> _].
    assert (H0' : forall a, total a l k (boot (W := W) ds cs) = 0%nat).
    { intros a. apply sum_zero. simpl. intros c Hc. apply list_elem_of_fmap in Hc as ([n b] & -> & _). done. }
    rewrite !H0'. apply accounts_new.
Qed.

Lemma reach_words A P s0 s : words_inv s0 -> reach A P s0 s -> words_inv s.
Proof.
  intros I0. induction 1 as [|s i x s' Hr IH Hx Hs Hp]; [done|].
  destruct (perform_effect _ _ _ _ IH Hs) as (c & Hc & E). by eapply effect_inv.
Qed.

(** C15 Mutual exclusion, for mutexes, reader-writer locks and replicated tables.
    Whatever the contexts do from boot on, with any nesting, order of calls and
    interleaving, a word of a lock that some context holds exclusively, completely
    or as part of an unfinished [write] or drop, is held by no other context; and no
    call of the lock code panics in the order tracker. *)
Theorem mutual_exclusion ds cs A P s i j ci cj l k :
  Forall (fun d => 0 < d_shards d)%nat ds -> reach A P (boot (W := W) ds cs) s ->
  ctxs s !! i = Some ci -> ctxs s !! j = Some cj -> valid_word (decls s) l k ->
  (0 < holds Excl l k ci)%nat ->
  holds Excl l k ci = 1%nat /\ holds Shared l k ci = 0%nat /\
  (i <> j -> holds Excl l k cj = 0%nat /\ holds Shared l k cj = 0%nat) /\
  forall cls mode trying, exists r, fst (enter cls mode trying (hk s, ci)) = Ok r.
Proof.
  intros Hd Hr Hi Hj Hv Hx. pose proof (reach_words _ _ _ _ (boot_inv ds cs Hd) Hr) as I.
  destruct (valid_has_word _ _ _ I Hv) as [w Hw].
  destruct (accounts_exclusive _ _ _ (wi_words _ I _ _ _ Hw)) as [He Hs].
  pose proof (sum_delete (holds Excl l k) _ _ _ Hi) as Te. pose proof (sum_delete (holds Shared l k) _ _ _ Hi) as Ts.
  unfold total in *. do 2 (split; [lia|]). split.
  - intros Hne. pose proof (sum_two (holds Excl l k) _ _ _ _ _ Hi Hj Hne). pose proof (sum_two (holds Shared l k) _ _ _ _ _ Hi Hj Hne). lia.
  - intros cls mode trying.
    destruct (enter_books cls mode trying (hk s) ci (wi_installed _ I)) as (h' & st & He' & _).
    { by apply (Forall_lookup_1 _ _ _ _ (wi_ctxs _ I) Hi). }
    exists (saves mode ci). by rewrite He'.
Qed.

(** ** Order: the tracker knows what its context holds *)

Definition lock_class (ds : list Decl) (l : nat) : LockClass := match ds !! l with Some d => d_class d | None => TestInner end.
Definition lock_mode (ds : list Decl) (l : nat) : Mode := match ds !! l with Some d => d_mode d | None => Plain end.

Definition point_locks (p : point) : list nat :=
  match p with
  | Run => []
  | Waiting l _ _ _ | Trying l _ => [l]
  | Dropping g _ | Leaving g => [g_lock g]
  end.

(** The locks a context has entered and not left. *)
Definition entered (c : Ctx) : list nat := (g_lock <$> guards c) ++ point_locks (pc c).

(** The classes of those that the hooks see. *)
Definition seen (ds : list Decl) (c : Ctx) : list LockClass :=
  lock_class ds <$> filter (fun l => lock_mode ds l <> Plain) (entered c).

(** *** What an action does to the books of its context *)

Inductive moves (i : nat) (c : Ctx) s s' : Prop :=
  | mv_spin : s' = s -> moves i c s s'
  | mv_shift c' : ctxs s' = <[i := c']> (ctxs s) -> trk c' = trk c -> entered c' ≡ₚ entered c ->
      (forall l a k sv, pc c' = Waiting l a k sv -> exists k0, pc c = Waiting l a k0 sv /\ guards c' = guards c) ->
      moves i c s s'
  | mv_enter c' l trying : ctxs s' = <[i := c']> (ctxs s) -> entered c' = entered c ++ [l] -> guards c' = guards c -> pc c = Run ->
      (forall l' a k sv, pc c' = Waiting l' a k sv -> l' = l /\ trying = false) ->
      (lock_mode (decls s) l = Plain -> trk c' = trk c) ->
      (lock_mode (decls s) l <> Plain -> forall st, trk c = of_stack st -> zlen st <= MAX_DEPTH ->
        trk c' = of_stack (push (lock_class (decls s) l) st) /\
        (trying = false -> same_counts (hk s) (hk s') -> Forall (fun k => rank k < rank (lock_class (decls s) l)) st)) ->
      moves i c s s'
  | mv_leave c' l : ctxs s' = <[i := c']> (ctxs s) -> entered c ≡ₚ l :: entered c' -> pc c' = Run ->
      (lock_mode (decls s) l = Plain -> trk c' = trk c) ->
      (lock_mode (decls s) l <> Plain -> forall st, trk c = of_stack st -> zlen st <= MAX_DEPTH ->
        trk c' = of_stack (remove_last (lock_class (decls s) l) st)) ->
      moves i c s s'.

Lemma begin_call_moves s i l trying a c s' : words_inv s -> on_track c -> pc c = Run ->
  begin_call i l trying a c s = Some s' -> moves i c s s'.
Proof.
  intros I (st0 & Ht0 & Hn0) Hp Hs. unfold begin_call in Hs. destruct (decls s !! l) as [d|] eqn:Hd; [|done]. simpl in Hs.
  assert (Hl : lock_mode (decls s) l = d_mode d /\ lock_class (decls s) l = d_class d) by (unfold lock_mode, lock_class; by rewrite Hd).
  assert (Hent : entered c = g_lock <$> guards c) by (unfold entered; by rewrite Hp, app_nil_r).
  destruct (decide (d_mode d = Plain)) as [Hm|Hm].
  - rewrite Hm, enter_plain in Hs. injection Hs as <-.
    eapply (mv_enter _ _ _ _ _ l trying); [reflexivity | | done | done | | done | by destruct Hl as [-> _]].
    + rewrite Hent. unfold entered. simpl. by destruct trying.
    + intros l' a' k sv E. simpl in E. destruct trying; by simplify_eq.
  - destruct (enter_spec (d_class d) _ trying (hk s) c st0 Hm (wi_installed _ I) Ht0 Hn0) as (h' & He & _ & _).
    pose proof He as He0. rewrite He in Hs. injection Hs as <-.
    eapply (mv_enter _ _ _ _ _ l trying); [reflexivity | | done | done | | by destruct Hl as [-> _]|].
    + rewrite Hent. unfold entered. simpl. by destruct trying.
    + intros l' a' k sv E. simpl in E. destruct trying; by simplify_eq.
    + intros _ st Ht Hn. destruct Hl as [_ ->].
      destruct (enter_spec (d_class d) _ trying (hk s) c st Hm (wi_installed _ I) Ht Hn) as (h2 & He2 & _ & Hord).
      rewrite He2 in He0. pose proof (f_equal (fun r => fst (snd r)) He0) as Eh. pose proof (f_equal (fun r => trk (snd (snd r))) He0) as Et.
      cbn [fst snd trk] in Eh, Et. subst h2. by split.
Qed.

Lemma end_call_moves s i l saved c s' : words_inv s -> on_track c -> point_locks (pc c) = [l] ->
  end_call i l saved c s = Some s' -> moves i c s s'.
Proof.
  intros I (st0 & Ht0 & Hn0) Hp Hs. unfold end_call in Hs. destruct (decls s !! l) as [d|] eqn:Hd; [|done]. simpl in Hs.
  assert (Hl : lock_mode (decls s) l = d_mode d /\ lock_class (decls s) l = d_class d) by (unfold lock_mode, lock_class; by rewrite Hd).
  assert (Hent : entered c ≡ₚ l :: (g_lock <$> guards c)) by (unfold entered; rewrite Hp; symmetry; apply Permutation_cons_append).
  destruct (decide (d_mode d = Plain)) as [Hm|Hm].
  - destruct (leave_plain (d_class d) saved (hk s) c) as (c' & He & Ht & Hg & _). rewrite Hm, He in Hs. injection Hs as <-.
    eapply (mv_leave _ _ _ _ _ l); [reflexivity | | done | done | by destruct Hl as [-> _]].
    rewrite Hent. unfold entered. simpl. by rewrite app_nil_r, Hg.
  - rewrite (leave_spec _ _ _ _ _ _ Hm (wi_installed _ I) Ht0 Hn0) in Hs. injection Hs as <-.
    eapply (mv_leave _ _ _ _ _ l); [reflexivity | | done | by destruct Hl as [-> _] |].
    + rewrite Hent. unfold entered. simpl. by rewrite app_nil_r.
    + intros _ st Ht Hn. destruct Hl as [_ ->]. simpl.
      pose proof (leave_spec (d_class d) _ saved _ _ _ Hm (wi_installed _ I) Ht Hn) as E.
      rewrite (leave_spec (d_class d) _ saved _ _ _ Hm (wi_installed _ I) Ht0 Hn0) in E.
      by apply (f_equal (fun r => trk (snd (snd r)))) in E.
Qed.

Lemma attempt_moves s i l a k sv c s' : pc c = Waiting l a k sv -> attempt i l a k sv c s = Some s' -> moves i c s s'.
Proof.
  intros Hp Hs. unfold attempt in Hs. destruct (decls s !! l) as [d|] eqn:Hd; [|done]. simpl in Hs.
  destruct (word s l k) as [w|]; [|done]. simpl in Hs. destruct (try_acquire a w) as [w'|]; injection Hs as <-; [|by apply mv_spin].
  eapply mv_shift; [reflexivity | by destruct (more_words d a k) | |].
  - unfold entered. rewrite Hp. destruct (more_words d a k); simpl; [done|]. by rewrite fmap_app, app_nil_r.
  - intros l2 a2 k2 sv2 E. destruct (more_words d a k); [|done]. simpl in E. injection E as <- <- <- <-. by exists k.
Qed.

Lemma perform_moves s i x s' : words_inv s -> perform i x s = Some s' -> exists c, ctxs s !! i = Some c /\ moves i c s s'.
Proof.
  intros I Hs. unfold perform in Hs. destruct (ctxs s !! i) as [c|] eqn:Hc; [|done]. simpl in Hs. exists c. split; [done|].
  destruct (Forall_lookup_1 _ _ _ _ (wi_ctxs _ I) Hc) as (Ht & _).
  destruct x as [l a|l|n|], (pc c) as [|l' a' k' sv|l' sv|g k|g] eqn:Hp; simplify_eq/=.
  - by apply (begin_call_moves s i l false a c).
  - destruct (decls s !! l) as [d|] eqn:Hd; [|done]. simpl in Hs. destruct (d_shards d =? 1)%nat; [|done].
    by apply (begin_call_moves s i l true Excl c).
  - unfold begin_drop in Hs. destruct (guards c !! n) as [g|] eqn:Hn; [|done]. injection Hs as <-.
    eapply mv_shift; [reflexivity | done | | done].
    unfold entered. simpl. rewrite Hp. simpl. rewrite app_nil_r, <- Permutation_cons_append.
    change (g_lock g :: (g_lock <$> base.delete n (guards c))) with (g_lock <$> g :: base.delete n (guards c)).
    by rewrite <- delete_Permutation.
  - by apply (attempt_moves s i l' a' k' sv c).
  - unfold attempt_try in Hs. destruct (word s l' 0) as [w|]; [|done]. simpl in Hs. destruct (try_acquire Excl w) as [w'|].
    + injection Hs as <-. eapply mv_shift; [reflexivity | done | | done].
      unfold entered. rewrite Hp. simpl. by rewrite fmap_app, app_nil_r.
    + eapply (end_call_moves s i l' sv c); try done. by rewrite Hp.
  - unfold drop_word in Hs. destruct (decls s !! g_lock g) as [d|]; [|done]. simpl in Hs.
    destruct (word s (g_lock g) k) as [w|]; [|done]. injection Hs as <-. eapply mv_shift; [reflexivity | done | |].
    + unfold entered. rewrite Hp. simpl. by destruct (more_words d (g_access g) k).
    + intros l a k0 sv E. simpl in E. by destruct (more_words d (g_access g) k).
  - eapply (end_call_moves s i (g_lock g) (g_saved g) c); try done. by rewrite Hp.
Qed.

Lemma perform_decls s i x s' : words_inv s -> perform i x s = Some s' -> words_inv s' /\ decls s' = decls s.
Proof.
  intros I Hs. destruct (perform_effect _ _ _ _ I Hs) as (c & Hc & E). split; [by eapply effect_inv|]. by destruct E.
Qed.

Lemma seen_enter ds c c' l : entered c' = entered c ++ [l] ->
  seen ds c' = seen ds c ++ if decide (lock_mode ds l = Plain) then [] else [lock_class ds l].
Proof.
  intros E. unfold seen. rewrite E, filter_app, fmap_app. f_equal. rewrite filter_cons, filter_nil.
  repeat case_decide; done.
Qed.

Lemma seen_leave ds c c' l : entered c ≡ₚ l :: entered c' ->
  seen ds c ≡ₚ if decide (lock_mode ds l = Plain) then seen ds c' else lock_class ds l :: seen ds c'.
Proof. intros E. unfold seen. rewrite E, filter_cons. repeat case_decide; done. Qed.

Lemma seen_perm ds c c' : entered c' ≡ₚ entered c -> seen ds c' ≡ₚ seen ds c.
Proof. intros E. unfold seen. by rewrite E. Qed.

(** *** A tracker never has a lock that its context has left *)

Definition current (ds : list Decl) (c : Ctx) : Prop :=
  exists st, trk c = of_stack st /\ zlen st <= MAX_DEPTH /\ st ⊆+ seen ds c.

Lemma remove_last_sub cls st l : st ⊆+ cls :: l -> remove_last cls st ⊆+ l.
Proof.
  intros Hs. destruct (decide (cls ∈ st)) as [Hin|Hin].
  - apply elem_of_Permutation in Hin as [st' Hst]. rewrite (remove_last_perm cls st st' Hst). rewrite Hst in Hs.
    by apply (submseteq_app_inv_l _ _ [cls]).
  - rewrite remove_last_notin by done. apply submseteq_cons_r in Hs as [Hs|(l' & Hl & _)]; [done|]. rewrite Hl in Hin. set_solver.
Qed.

Lemma moves_current ds i c s s' c' : ds = decls s -> moves i c s s' -> ctxs s !! i = Some c -> ctxs s' !! i = Some c' ->
  current ds c -> current ds c'.
Proof.
  intros -> M Hc Hc' (st & Ht & Hn & Hs). pose proof (lookup_lt_Some _ _ _ Hc) as Hlt.
  destruct M as [-> |c1 E Ht1 He _|c1 l trying E He _ _ _ Hpl Htr|c1 l E He _ Hpl Htr]; [by simplify_eq; exists st|..];
    rewrite E, list_lookup_insert_eq in Hc' by done; simplify_eq.
  - exists st. split; [congruence|]. split; [done|]. by rewrite (seen_perm _ _ _ He).
  - rewrite <- (app_nil_r st) in Hs. unfold current. rewrite (seen_enter _ _ _ _ He). destruct (decide (lock_mode (decls s) l = Plain)) as [Hm|Hm].
    + exists st. rewrite app_nil_r in *. split; [rewrite (Hpl Hm); done | done].
    + destruct (Htr Hm st Ht Hn) as [Ht' _]. rewrite app_nil_r in Hs. exists (push (lock_class (decls s) l) st). split; [done|]. split; [by apply push_depth|].
      unfold push. case_if; [by apply submseteq_skips_r | by apply submseteq_inserts_r].
  - pose proof (seen_leave (decls s) c c' l He) as Hl. rewrite Hl in Hs. destruct (decide (lock_mode (decls s) l = Plain)) as [Hm|Hm].
    + exists st. split; [rewrite (Hpl Hm); done | done].
    + exists (remove_last (lock_class (decls s) l) st). split; [by apply Htr|]. split; [pose proof (remove_depth (lock_class (decls s) l) st); lia|].
      by apply remove_last_sub.
Qed.

Lemma moves_others i c s s' j : moves i c s s' -> j <> i -> ctxs s' !! j = ctxs s !! j.
Proof. intros M Hne. destruct M as [-> |? E ? ? ?|? ? ? E ? ? ? ? ? ?|? ? E ? ? ? ?]; [done|..]; by rewrite E, list_lookup_insert_ne. Qed.

Lemma reach_current A P s0 s : words_inv s0 -> Forall (current (decls s0)) (ctxs s0) -> reach A P s0 s ->
  Forall (current (decls s)) (ctxs s).
Proof.
  intros I0 C0. induction 1 as [|s i x s' Hr IH Hx Hs Hp]; [done|]. pose proof (reach_words _ _ _ _ I0 Hr) as I.
  destruct (perform_decls _ _ _ _ I Hs) as [_ ->]. destruct (perform_moves _ _ _ _ I Hs) as (c & Hc & M).
  apply Forall_lookup. intros j c' Hj. destruct (decide (j = i)) as [-> |Hne].
  - apply (moves_current _ i c s s' c'); try done. exact (Forall_lookup_1 _ _ _ _ IH Hc).
  - rewrite (moves_others _ _ _ _ _ M Hne) in Hj. exact (Forall_lookup_1 _ _ _ _ IH Hj).
Qed.

(** *** The order of what is held and what is waited for *)

(** A context that waits holds no [Plain] lock. *)
Definition leaf (ds : list Decl) (c : Ctx) : Prop :=
  match pc c with Waiting _ _ _ _ => Forall (fun g => lock_mode ds (g_lock g) <> Plain) (guards c) | _ => True end.

(** No inversion is counted that was not counted in [h0], no context nests more locks
    than a tracker records, and none waits while it holds a [Plain] lock. *)
Definition quiet (h0 : Hooks) s : Prop :=
  same_counts h0 (hk s) /\ Forall (fun c => zlen (seen (decls s) c) <= MAX_DEPTH /\ leaf (decls s) c) (ctxs s).

Definition tracks (ds : list Decl) (c : Ctx) : Prop := exists st, trk c = of_stack st /\ st ≡ₚ seen ds c.

(** What a context waits for is above everything it holds. *)
Definition above (ds : list Decl) (c : Ctx) : Prop :=
  forall l a k sv, pc c = Waiting l a k sv -> lock_mode ds l <> Plain ->
    Forall (fun g => lock_mode ds (g_lock g) <> Plain -> rank (lock_class ds (g_lock g)) < rank (lock_class ds l)) (guards c).

Record order_inv h0 s := {
  oi_words : words_inv s;
  oi_quiet : quiet h0 s;
  oi_tracks : Forall (tracks (decls s)) (ctxs s);
  oi_above : Forall (above (decls s)) (ctxs s);
}.

Lemma push_room cls st : zlen st < MAX_DEPTH -> push cls st = st ++ [cls].
Proof. intros Hn. unfold push. by case_if; [|lia]. Qed.

Lemma order_enter h0 s s' ds c c' l trying : same_counts h0 (hk s) -> same_counts h0 (hk s') ->
  entered c' = entered c ++ [l] -> guards c' = guards c -> pc c = Run ->
  (forall l' a k sv, pc c' = Waiting l' a k sv -> l' = l /\ trying = false) ->
  (lock_mode ds l = Plain -> trk c' = trk c) ->
  (lock_mode ds l <> Plain -> forall st, trk c = of_stack st -> zlen st <= MAX_DEPTH ->
    trk c' = of_stack (push (lock_class ds l) st) /\
    (trying = false -> same_counts (hk s) (hk s') -> Forall (fun k => rank k < rank (lock_class ds l)) st)) ->
  zlen (seen ds c') <= MAX_DEPTH -> tracks ds c -> tracks ds c' /\ above ds c'.
Proof.
  intros [Q1 Q2] [Q3 Q4] He Hg Hp Hw Hpl Htr Hn (st & Ht & Hst). unfold tracks. rewrite (seen_enter _ _ _ _ He) in Hn |- *.
  destruct (decide (lock_mode ds l = Plain)) as [Hm|Hm].
  - split; [exists st; rewrite app_nil_r; split; [rewrite (Hpl Hm); done | done]|].
    intros l' a k sv E Hm'. by destruct (Hw _ _ _ _ E) as [-> _].
  - assert (Hlen : zlen st < MAX_DEPTH).
    { unfold zlen in *. rewrite (Permutation_length Hst). rewrite length_app in Hn. simpl in Hn. lia. }
    destruct (Htr Hm st Ht ltac:(lia)) as [Ht' Hord]. split.
    + exists (push (lock_class ds l) st). split; [done|]. rewrite push_room by done. by rewrite Hst.
    + intros l' a k sv E _. destruct (Hw _ _ _ _ E) as [-> ->]. specialize (Hord eq_refl ltac:(split; congruence)).
      rewrite Hst in Hord. unfold seen, entered in Hord. rewrite Hp in Hord. simpl in Hord.
      rewrite app_nil_r, Forall_fmap, Forall_forall in Hord. rewrite Hg. apply Forall_forall. intros g Hin Hgm.
      apply (Hord (g_lock g)), list_elem_of_filter. split; [done|]. by apply list_elem_of_fmap_2.
Qed.

Lemma moves_order h0 s s' i c c' : quiet h0 s -> quiet h0 s' -> decls s' = decls s -> moves i c s s' ->
  ctxs s !! i = Some c -> ctxs s' !! i = Some c' -> tracks (decls s) c -> above (decls s) c ->
  tracks (decls s) c' /\ above (decls s) c'.
Proof.
  intros [Q1 Q2] [Q3 Q4] Hd M Hc Hc' T Ha. pose proof (lookup_lt_Some _ _ _ Hc) as Hlt.
  pose proof (Forall_lookup_1 _ _ _ _ Q4 Hc') as [Hn' _]. rewrite Hd in Hn'. pose proof (Forall_lookup_1 _ _ _ _ Q2 Hc) as [Hn _].
  destruct M as [-> |c1 E Ht1 He Hw|c1 l trying E He Hg Hp Hw Hpl Htr|c1 l E He Hp Hpl Htr]; [by simplify_eq|..];
    rewrite E, list_lookup_insert_eq in Hc' by done; simplify_eq.
  - split.
    + destruct T as (st & Ht & Hst). exists st. split; [congruence|]. by rewrite (seen_perm _ _ _ He).
    + intros l a k sv Hp Hm. destruct (Hw _ _ _ _ Hp) as (k0 & Hp0 & ->). by apply (Ha l a k0 sv).
  - by apply (order_enter h0 s s' _ c c' l trying).
  - split; [|intros l' a k sv Hp'; congruence]. destruct T as (st & Ht & Hst). pose proof (seen_leave (decls s) c c' l He) as Hl.
    destruct (decide (lock_mode (decls s) l = Plain)) as [Hm|Hm].
    + exists st. split; [rewrite (Hpl Hm); done | by rewrite Hst].
    + exists (remove_last (lock_class (decls s) l) st). split.
      * apply Htr; try done. unfold zlen in *. by rewrite (Permutation_length Hst).
      * apply remove_last_perm. by rewrite Hst.
Qed.

Lemma reach_order h0 A s0 s : order_inv h0 s0 -> reach A (quiet h0) s0 s -> order_inv h0 s.
Proof.
  intros I0. induction 1 as [|s i x s' Hr I Hx Hs Hq]; [done|].
  destruct (perform_decls _ _ _ _ (oi_words _ _ I) Hs) as [Iw Hd]. destruct (perform_moves _ _ _ _ (oi_words _ _ I) Hs) as (c & Hc & M).
  assert (Hall : forall j c', ctxs s' !! j = Some c' -> tracks (decls s) c' /\ above (decls s) c').
  { intros j c' Hj. destruct (decide (j = i)) as [-> |Hne].
    - apply (moves_order h0 s s' i c); try done; [apply I | exact (Forall_lookup_1 _ _ _ _ (oi_tracks _ _ I) Hc) | exact (Forall_lookup_1 _ _ _ _ (oi_above _ _ I) Hc)].
    - rewrite (moves_others _ _ _ _ _ M Hne) in Hj.
      split; [exact (Forall_lookup_1 _ _ _ _ (oi_tracks _ _ I) Hj) | exact (Forall_lookup_1 _ _ _ _ (oi_above _ _ I) Hj)]. }
  split; [done | done | |]; rewrite Hd; apply Forall_lookup; intros j c' Hj; by apply (Hall j).
Qed.

(** A moment at which nothing is held. *)
Definition idle s : Prop := Forall (fun c => entered c = []) (ctxs s).

Lemma idle_order s : words_inv s -> Forall (current (decls s)) (ctxs s) -> idle s -> order_inv (hk s) s.
Proof.
  intros I Hcur Hid. unfold idle in Hid. rewrite Forall_lookup in Hcur, Hid.
  assert (Hpc : forall j c, ctxs s !! j = Some c -> pc c = Run /\ seen (decls s) c = []).
  { intros j c Hj. specialize (Hid j c Hj). unfold seen. rewrite Hid. split; [|done].
    unfold entered in Hid. apply app_nil in Hid as [_ Hid]. by destruct (pc c). }
  split; [done | | |].
  - split; [done|]. apply Forall_lookup. intros j c Hj. destruct (Hpc j c Hj) as [Hp ->]. unfold leaf. by rewrite Hp.
  - apply Forall_lookup. intros j c Hj. destruct (Hcur j c Hj) as (st & Ht & _ & Hs). destruct (Hpc j c Hj) as [_ E]. rewrite E in Hs.
    exists st. split; [done|]. rewrite E. by apply submseteq_nil_r in Hs as ->.
  - apply Forall_lookup. intros j c Hj l a k sv Hp. destruct (Hpc j c Hj) as [Hp' _]. congruence.
Qed.

Lemma boot_current ds cs : Forall (current ds) (ctxs (boot (W := W) ds cs)).
Proof. simpl. apply Forall_fmap, Forall_true. intros [n b]. exists []. split; [done|]. split; [done | apply submseteq_nil_l]. Qed.
(** ** Freedom from deadlock *)

(** A context whose attempt fails, and the contexts it waits for. *)
Definition stuck_at s (i : nat) (l k : nat) : Prop :=
  exists c a sv w, ctxs s !! i = Some c /\ pc c = Waiting l a k sv /\ word s l k = Some w /\ try_acquire a w = None.
Definition stuck s (i : nat) : Prop := exists l k, stuck_at s i l k.
Definition waits_on s (i j : nat) : Prop :=
  exists l k c, stuck_at s i l k /\ ctxs s !! j = Some c /\ (0 < holds Shared l k c + holds Excl l k c)%nat.

(** [Plain] locks come last. *)
Definition key (ds : list Decl) (l k : nat) : Z :=
  (if decide (lock_mode ds l = Plain) then 300 else rank (lock_class ds l)) * (Z.of_nat SHARDS + 1) + Z.of_nat k.

Lemma rank_bound c : 10 <= rank c <= 201.
Proof. destruct c; simpl; lia. Qed.

Lemma stuck_holder s i l k : words_inv s -> stuck_at s i l k -> exists j, waits_on s i j.
Proof.
  intros I Hst. pose proof Hst as (c & a & sv & w & Hc & Hp & Hw & Ht).
  pose proof (accounts_try a w _ _ (wi_words _ I _ _ _ Hw)) as Ha. rewrite Ht in Ha.
  assert (Hpos : sum_list_with (fun c' => holds Shared l k c' + holds Excl l k c')%nat (ctxs s) <> 0%nat).
  { assert (Hsum : forall cs, sum_list_with (fun c' => holds Shared l k c' + holds Excl l k c')%nat cs =
      (sum_list_with (holds Shared l k) cs + sum_list_with (holds Excl l k) cs)%nat).
    { induction cs as [|c0 cs IH]; simpl; [done|]. rewrite IH. lia. }
    rewrite Hsum. unfold total in Ha. destruct a; lia. }
  destruct (sum_positive _ _ Hpos) as (j & c' & Hj & Hh). exists j, l, k, c'. split; [done|]. split; [done | lia].
Qed.

(** A context that waits for a holder of a word, and holds that word, is further up. *)
Lemma key_increases h0 s j l k l' k' c : order_inv h0 s -> Forall (fun d => d_shards d <= SHARDS)%nat (decls s) ->
  ctxs s !! j = Some c -> valid_word (decls s) l k -> (0 < holds Shared l k c + holds Excl l k c)%nat ->
  stuck_at s j l' k' -> key (decls s) l k < key (decls s) l' k'.
Proof.
  intros I Hsh Hj (d & Hd & Hk) Hh (c' & a & sv & w & Hc' & Hp & _). rewrite Hj in Hc'. injection Hc' as <-.
  pose proof (Forall_lookup_1 _ _ _ _ (oi_above _ _ I) Hj _ _ _ _ Hp) as Ha.
  pose proof (Forall_lookup_1 _ _ _ _ (proj2 (oi_quiet _ _ I)) Hj) as [_ Hleaf]. unfold leaf in Hleaf. rewrite Hp in Hleaf.
  pose proof (Forall_lookup_1 _ _ _ _ Hsh Hd) as Hs8. simpl in Hs8. unfold holds in Hh. rewrite Hp in Hh.
  assert (Hcase : (exists g, g ∈ guards c /\ g_lock g = l) \/ (l' = l /\ (k < k')%nat)).
  { destruct (decide (sum_list_with (guard_holds Shared l k) (guards c) + sum_list_with (guard_holds Excl l k) (guards c) = 0)%nat) as [E|E].
    - right. destruct a; simpl in Hh; [lia|].
      destruct (bool_decide (l' = l)) eqn:El; [|simpl in Hh; lia]. apply bool_decide_eq_true in El.
      destruct (Nat.ltb_spec k k'); [done | simpl in Hh; lia].
    - left.
      assert (Hg : exists a', sum_list_with (guard_holds a' l k) (guards c) <> 0%nat).
      { destruct (decide (sum_list_with (guard_holds Shared l k) (guards c) = 0%nat)); [exists Excl; lia | by exists Shared]. }
      destruct Hg as [a' Hg]. destruct (sum_positive _ _ Hg) as (n & g & Hn & Hg').
      exists g. split; [by eapply list_elem_of_lookup_2|]. unfold guard_holds in Hg'.
      destruct (bool_decide (g_lock g = l)) eqn:El; [by apply bool_decide_eq_true in El|].
      by rewrite andb_false_r in Hg'. }
  unfold key. destruct Hcase as [(g & Hg & <-) | [-> Hlt]]; [|case_decide; lia].
  rewrite Forall_forall in Hleaf. specialize (Hleaf g Hg). simpl in Hleaf. rewrite decide_False by done.
  pose proof (rank_bound (lock_class (decls s) (g_lock g))). unfold SHARDS in *. case_decide as Hm; [lia|].
  specialize (Ha Hm). rewrite Forall_forall in Ha. specialize (Ha g Hg Hleaf). simpl in Ha. lia.
Qed.

Lemma stuck_unique s i l k l' k' : stuck_at s i l k -> stuck_at s i l' k' -> l = l' /\ k = k'.
Proof. intros (c & a & sv & w & Hc & Hp & _) (c' & a' & sv' & w' & Hc' & Hp' & _). split; congruence. Qed.

Lemma stuck_dec s i : stuck s i \/ ~ stuck s i.
Proof.
  destruct (ctxs s !! i) as [c|] eqn:Hc; [|right; intros (l & k & c' & ? & ? & ? & Hc' & _); congruence].
  destruct (pc c) as [|l a k sv|l sv|g k|g] eqn:Hp.
  2: destruct (word s l k) as [w|] eqn:Hw; [destruct (try_acquire a w) as [w'|] eqn:Ht|].
  2, 4-7: right; intros (l' & k' & c' & a' & sv' & w'' & Hc' & Hp' & Hw' & Ht'); congruence.
  - right; intros (l' & k' & c' & a' & sv' & w'' & Hc' & Hp' & Hw' & Ht'); congruence.
  - left. by exists l, k, c, a, sv, w.
Qed.

Lemma reach_decls A P s0 s : words_inv s0 -> reach A P s0 s -> decls s = decls s0.
Proof.
  intros I0. induction 1 as [|s i x s' Hr IH Hx Hs Hp]; [done|].
  destruct (perform_effect _ _ _ _ (reach_words _ _ _ _ I0 Hr) Hs) as (c & _ & E). by destruct E.
Qed.

Lemma chain_end h0 s : order_inv h0 s -> Forall (fun d => d_shards d <= SHARDS)%nat (decls s) ->
  forall n i l k, stuck_at s i l k -> 3000 - key (decls s) l k <= Z.of_nat n ->
  exists j, rtc (waits_on s) i j /\ is_Some (ctxs s !! j) /\ ~ stuck s j.
Proof.
  intros I Hsh n. induction n as [|n IH]; intros i l k Hi Hn.
  { exfalso. destruct Hi as (c & a & sv & w & _ & _ & Hw & _). destruct (word_valid _ _ _ _ (oi_words _ _ I) Hw) as (d & Hd & Hk).
    pose proof (Forall_lookup_1 _ _ _ _ Hsh Hd). pose proof (rank_bound (lock_class (decls s) l)).
    unfold key, SHARDS in *. simpl in *. case_decide; lia. }
  destruct (stuck_holder _ _ _ _ (oi_words _ _ I) Hi) as (j & Hj). pose proof Hj as (l0 & k0 & c & Hi0 & Hc & Hh).
  destruct (stuck_unique _ _ _ _ _ _ Hi Hi0) as [<- <-].
  destruct (stuck_dec s j) as [(l' & k' & Hst)|Hns].
  - assert (Hval : valid_word (decls s) l k).
    { destruct Hi as (? & ? & ? & ? & _ & _ & Hw & _). by eapply word_valid; [apply I|]. }
    pose proof (key_increases h0 s j l k l' k' c I Hsh Hc Hval Hh Hst) as Hlt.
    destruct (IH j l' k' Hst) as (e & Hr & He); [lia|]. exists e. split; [by eapply rtc_l | done].
  - exists j. split; [by apply rtc_once|]. by rewrite Hc.
Qed.

(** C14 Freedom from deadlock.  Take a run of the kernel from boot, and a moment of it
    at which no lock is held, whatever the hooks have counted so far.  As long as from
    then on the hooks count no further inversion, no context nests more than
    [MAX_DEPTH] locks that the hooks see, and none waits while it holds a [Plain] lock
    (which the hooks do not see), a context whose attempt to take a lock fails waits,
    through a chain of holders, for a context that is not stuck itself: one that runs
    or is about to release, or whose own attempt succeeds.  The locks are any number of
    mutexes, reader-writer locks and replicated tables of every mode, with blocking
    calls and [try_lock] in any order. *)
Theorem deadlock_free ds cs A0 P0 s0 A s i :
  Forall (fun d => 0 < d_shards d <= SHARDS)%nat ds ->
  reach A0 P0 (boot (W := W) ds cs) s0 -> idle s0 -> reach A (quiet (hk s0)) s0 s -> stuck s i ->
  exists j, rtc (waits_on s) i j /\ is_Some (ctxs s !! j) /\ ~ stuck s j.
Proof.
  intros Hd Hr0 Hid Hr (l & k & Hi).
  assert (Hd0 : Forall (fun d => 0 < d_shards d)%nat ds) by (eapply Forall_impl; [exact Hd|]; by intros d [? _]).
  pose proof (reach_words _ _ _ _ (boot_inv ds cs Hd0) Hr0) as I0.
  pose proof (idle_order s0 I0 (reach_current _ _ _ _ (boot_inv ds cs Hd0) (boot_current ds cs) Hr0) Hid) as O0.
  eapply (chain_end (hk s0) s); [by eapply reach_order| |done|].
  - rewrite (reach_decls _ _ _ _ I0 Hr), (reach_decls _ _ _ _ (boot_inv ds cs Hd0) Hr0). eapply Forall_impl; [exact Hd|]. by intros d [_ ?].
  - instantiate (1 := Z.to_nat (3000 - key (decls s) l k)). lia.
Qed.

(** ** Interrupts *)

(** Guards are dropped in the reverse order of their acquisition. *)
Definition lifo s (i : nat) (x : act) : Prop :=
  match x with
  | ADrop n => match ctxs s !! i with Some c => S n = length (guards c) | None => True end
  | _ => True
  end.

Definition point_saved (p : point) : list (option bool) :=
  match p with
  | Run => []
  | Waiting _ _ _ sv | Trying _ sv => [sv]
  | Dropping g _ | Leaving g => [g_saved g]
  end.

(** The flags saved by the locks of [entered c], in the same order. *)
Definition saveds (c : Ctx) : list (option bool) := (g_saved <$> guards c) ++ point_saved (pc c).

(** The flag after these locks, from the flag [b] before them: each [Irq] lock saved
    the flag it found. *)
Fixpoint if_after (b : bool) (l : list (option bool)) : option bool :=
  match l with
  | [] => Some b
  | None :: rest => if_after b rest
  | Some x :: rest => if eqb x b then if_after false rest else None
  end.

Lemma if_after_snoc b l x : if_after b (l ++ [x]) =
  y ← if_after b l; match x with None => Some y | Some z => if eqb z y then Some false else None end.
Proof. revert b. induction l as [|[z|] l IH]; intros b; simpl; [by destruct x as [[]|], b | destruct (eqb z b) | ]; done. Qed.

Lemma if_after_leave b l x y : if_after b (l ++ [x]) = Some y -> if_after b l = Some (restores x y).
Proof. rewrite if_after_snoc. destruct (if_after b l) as [[]|], x as [[]|]; simpl; intros; simplify_eq; done. Qed.

Lemma if_after_enter b l mode c : if_after b l = Some (if_on c) -> if_after b (l ++ [saves mode c]) = Some (masks mode (if_on c)).
Proof. intros Hb. rewrite if_after_snoc, Hb. unfold saves, masks. simpl. case_bool_decide; [by rewrite eqb_reflx | done]. Qed.

Lemma if_after_off b l y : if_after b l = Some y -> Exists is_Some l -> y = false.
Proof.
  intros Hl He. assert (Hf : forall l y, if_after false l = Some y -> y = false).
  { clear. induction l as [|[[]|] l IH]; simpl; intros; simplify_eq; eauto. }
  induction He as [[z|] l Hz|[z|] l Hz IH]; simpl in Hl; [| by destruct Hz | | by apply IH].
  - destruct (eqb z b); [by eapply Hf | done].
  - destruct (eqb z b); [by eapply Hf | done].
Qed.

Lemma if_after_none b l y : if_after b l = Some y -> ~ Exists is_Some l -> y = b.
Proof.
  induction l as [|[z|] l IH]; simpl; intros Hl He; [by simplify_eq | | apply IH; [done|]].
  - exfalso. apply He. constructor. by exists z.
  - intros Hx. apply He. by right.
Qed.

Definition irq_inv (ds : list Decl) (b : bool) (c : Ctx) : Prop :=
  if_after b (saveds c) = Some (if_on c) /\
  Forall2 (fun l sv => is_Some sv <-> lock_mode ds l = Irq) (entered c) (saveds c).

(** The context after an action, with its interrupt flag accounted for. *)
Definition irq_next s i b s' : Prop := exists c', ctxs s' = <[i := c']> (ctxs s) /\ irq_inv (decls s) b c'.

Lemma irq_move s i b c s' c' : irq_inv (decls s) b c -> ctxs s' = <[i := c']> (ctxs s) ->
  entered c' = entered c -> saveds c' = saveds c -> if_on c' = if_on c -> irq_next s i b s'.
Proof. intros [H1 H2] Hc He Hs Hi. exists c'. split; [done|]. unfold irq_inv. by rewrite He, Hs, Hi. Qed.

Lemma saves_irq ds l d c : ds !! l = Some d -> is_Some (saves (d_mode d) c) <-> lock_mode ds l = Irq.
Proof.
  intros Hd. unfold saves, lock_mode. rewrite Hd. case_bool_decide as Hm; [by split; [|eauto]|].
  split; [intros [? ?]; done | done].
Qed.

Lemma begin_call_irq s i l trying a c b s' : words_inv s -> on_track c -> pc c = Run -> irq_inv (decls s) b c ->
  begin_call i l trying a c s = Some s' -> irq_next s i b s'.
Proof.
  intros I Ht Hp [H1 H2] Hs. unfold begin_call in Hs. destruct (decls s !! l) as [d|] eqn:Hd; [|done]. simpl in Hs.
  destruct (enter_books (d_class d) (d_mode d) trying (hk s) c (wi_installed _ I) Ht) as (h' & st & He & Hi & Hn).
  rewrite He in Hs. injection Hs as <-. eexists. split; [reflexivity|]. unfold irq_inv, entered, saveds in *.
  rewrite Hp, !app_nil_r in *. simpl. split.
  - destruct trying; by apply if_after_enter.
  - apply Forall2_app; [done|]. destruct trying; (constructor; [by apply saves_irq | done]).
Qed.

Lemma end_call_irq s i l saved c b s' : words_inv s -> on_track c -> point_locks (pc c) = [l] -> point_saved (pc c) = [saved] ->
  irq_inv (decls s) b c -> end_call i l saved c s = Some s' -> irq_next s i b s'.
Proof.
  intros I Ht Hl Hv [H1 H2] Hs. unfold end_call in Hs. destruct (decls s !! l) as [d|] eqn:Hd; [|done]. simpl in Hs.
  destruct (leave_books (d_class d) (d_mode d) saved (hk s) c (wi_installed _ I) Ht) as (h' & st & He & Hi & Hn).
  rewrite He in Hs. injection Hs as <-. eexists. split; [reflexivity|]. unfold irq_inv, entered, saveds in *.
  rewrite Hl, Hv in *. simpl. rewrite !app_nil_r. split; [by apply if_after_leave|].
  apply Forall2_app_inv in H2 as [H2 _]; [done|]. by rewrite !length_fmap.
Qed.

Lemma delete_last {A} (l : list A) n x : S n = length l -> l !! n = Some x -> l = base.delete n l ++ [x].
Proof.
  intros Hn Hx. rewrite delete_take_drop, (drop_ge l (S n)), app_nil_r by lia.
  rewrite <- (take_S_r l n x Hx). by rewrite take_ge by lia.
Qed.

Lemma begin_drop_irq s i n c b s' : ctxs s !! i = Some c -> lifo s i (ADrop n) -> pc c = Run -> irq_inv (decls s) b c ->
  begin_drop i n c s = Some s' -> irq_next s i b s'.
Proof.
  intros Hc Hl Hp Hi Hs. unfold begin_drop in Hs. destruct (guards c !! n) as [g|] eqn:Hn; [|done]. injection Hs as <-.
  simpl in Hl. rewrite Hc in Hl. pose proof (delete_last _ _ _ Hl Hn) as Hg.
  eapply irq_move; [done | reflexivity | | | done]; unfold entered, saveds; rewrite Hp, app_nil_r; simpl.
  - transitivity (g_lock <$> base.delete n (guards c) ++ [g]); [by rewrite fmap_app | by rewrite <- Hg].
  - transitivity (g_saved <$> base.delete n (guards c) ++ [g]); [by rewrite fmap_app | by rewrite <- Hg].
Qed.

Lemma perform_irq s i x s' c b : words_inv s -> ctxs s !! i = Some c -> lifo s i x -> irq_inv (decls s) b c ->
  perform i x s = Some s' -> irq_next s i b s'.
Proof.
  intros I Hc Hl Hi Hs. pose proof (Forall_lookup_1 _ _ _ _ (wi_ctxs _ I) Hc) as (Ht & _).
  unfold perform in Hs. rewrite Hc in Hs. simpl in Hs.
  destruct x as [l a|l|n|], (pc c) as [|l' a' k' sv|l' sv|g k|g] eqn:Hp; simplify_eq/=.
  - by apply (begin_call_irq s i l false a c).
  - destruct (decls s !! l) as [d|] eqn:Hd; [|done]. simpl in Hs. destruct (d_shards d =? 1)%nat; [|done].
    by apply (begin_call_irq s i l true Excl c).
  - by apply (begin_drop_irq s i n c).
  - unfold attempt in Hs. destruct (decls s !! l') as [d|] eqn:Hd; [|done]. simpl in Hs.
    destruct (word s l' k') as [w|]; [|done]. simpl in Hs. destruct (try_acquire a' w) as [w'|]; injection Hs as <-.
    + eapply irq_move; [done | reflexivity | | | by destruct (more_words d a' k')]; unfold entered, saveds; rewrite Hp.
      all: destruct (more_words d a' k'); simpl; [done|]; by rewrite fmap_app, app_nil_r.
    + exists c. split; [by rewrite list_insert_id | done].
  - unfold attempt_try in Hs. destruct (word s l' 0) as [w|]; [|done]. simpl in Hs. destruct (try_acquire Excl w) as [w'|].
    + injection Hs as <-. eapply irq_move; [done | reflexivity | | | done]; unfold entered, saveds; rewrite Hp; simpl.
      all: by rewrite fmap_app, app_nil_r.
    + eapply (end_call_irq s i l' sv c); try done; by rewrite Hp.
  - unfold drop_word in Hs. destruct (decls s !! g_lock g) as [d|]; [|done]. simpl in Hs.
    destruct (word s (g_lock g) k) as [w|]; [|done]. injection Hs as <-.
    eapply irq_move; [done | reflexivity | | | done]; unfold entered, saveds; rewrite Hp; simpl; by destruct (more_words d _ k).
  - eapply (end_call_irq s i (g_lock g) (g_saved g) c); try done; by rewrite Hp.
Qed.

Lemma reach_irq ds cs P s i c : Forall (fun d => 0 < d_shards d)%nat ds ->
  reach lifo P (boot (W := W) ds cs) s -> ctxs s !! i = Some c -> exists n b, cs !! i = Some (n, b) /\ irq_inv ds b c.
Proof.
  intros Hd Hr. revert i c. induction Hr as [|s j x s' Hr IH Hx Hs Hp]; intros i c Hc.
  - simpl in Hc. apply list_lookup_fmap_Some in Hc as ([n b] & -> & Hi). exists n, b. done.
  - pose proof (boot_inv ds cs Hd) as I0. pose proof (reach_words _ _ _ _ I0 Hr) as I.
    destruct (perform_effect _ _ _ _ I Hs) as (cj & Hj & _).
    destruct (IH j cj Hj) as (n & b & Hn & Hirq). pose proof (reach_decls _ _ _ _ I0 Hr) as Hds. simpl in Hds.
    rewrite <- Hds in Hirq. destruct (perform_irq s j x s' cj b I Hj Hx Hirq Hs) as (c' & Hc' & Hirq'). rewrite Hds in Hirq'.
    rewrite Hc' in Hc. apply list_lookup_insert_Some in Hc as [(-> & <- & _) | (Hne & Hc)]; [by exists n, b | by apply IH].
Qed.

(** C16 The interrupt rule.  From boot on, if guards are dropped in the reverse order
    of their acquisition, a context that holds an [Irq] lock, waits for one or is in
    the middle of dropping one has interrupts off; and a context that has left all
    its [Irq] locks has the interrupt flag it started with. *)
Theorem irq_rule ds cs P s i c n b :
  Forall (fun d => 0 < d_shards d)%nat ds -> reach lifo P (boot (W := W) ds cs) s ->
  ctxs s !! i = Some c -> cs !! i = Some (n, b) ->
  (Exists (fun l => lock_mode ds l = Irq) (entered c) -> if_on c = false) /\
  (Forall (fun l => lock_mode ds l <> Irq) (entered c) -> if_on c = b).
Proof.
  intros Hd Hr Hc Hi. destruct (reach_irq ds cs P s i c Hd Hr Hc) as (n' & b' & Hi' & H1 & H2). simplify_eq. split.
  - intros He. eapply if_after_off; [done|]. clear - He H2. induction H2; inversion He; subst; [left; naive_solver | right; auto].
  - intros He. eapply if_after_none; [done|]. clear - He H2. intros Hx.
    induction H2; inversion Hx; subst; inversion He; subst; naive_solver.
Qed.
End locks.

(** ** Examples *)

Section examples.

(** A file system mutex, a replicated mount table, two [Irq] locks, the two locks of the
    self-test, and a [Plain] one; two contexts. *)
Definition demo_decls : list Decl :=
  [mkDecl Fs Task 1; mkDecl FsMountTable Task 8; mkDecl IpcTable Irq 1; mkDecl IpcChannel Irq 1;
   mkDecl TestOuter Irq 1; mkDecl TestInner Irq 1; mkDecl Agent Plain 1].
Definition demo_boot : Kernel Counted := boot demo_decls [(0%nat, true); (1%nat, true)].

Definition demo_run (xs : list (nat * act)) : Kernel Counted := default demo_boot (play xs demo_boot).

(** Every state along a schedule satisfies [P], and every action [A]. *)
Fixpoint follows (A : Kernel Counted -> nat -> act -> Prop) (P : Kernel Counted -> Prop) (xs : list (nat * act)) (s : Kernel Counted) : Prop :=
  match xs with
  | [] => True
  | (i, x) :: rest => A s i x /\ match perform i x s with Some s' => P s' /\ follows A P rest s' | None => False end
  end.

Lemma follows_reach A P xs s0 s : reach A P s0 s -> follows A P xs s ->
  exists s', play xs s = Some s' /\ reach A P s0 s'.
Proof.
  revert s. induction xs as [|[i x] xs IH]; intros s Hr Hf; simpl in *; [by exists s|].
  destruct Hf as [Hx Hf]. destruct (perform i x s) as [s1|] eqn:Hs; [|done]. destruct Hf as [Hp Hf]. simpl.
  apply IH; [|done]. by eapply reach_step.
Qed.

Lemma play_reach A P xs s : P s -> follows A P xs s -> reach A P s (default s (play xs s)).
Proof.
  intros Hp Hf. destruct (follows_reach A P xs s s (reach_start _ _ _ Hp) Hf) as (s' & Hs & Hr). by rewrite Hs.
Qed.

Lemma demo_reach A P xs : P demo_boot -> follows A P xs demo_boot -> reach A P demo_boot (demo_run xs).
Proof. apply play_reach. Qed.

(** Context 0 holds the mutex and writes the mount table; context 1 wants both. *)
Definition demo_wait : list (nat * act) :=
  [(0, ALock 1 Excl); (0, AGo); (0, AGo); (1, ALock 1 Shared); (1, AGo)]%nat.

#[local] Instance leaf_dec ds c : Decision (leaf ds c).
Proof. unfold leaf. destruct (pc c); apply _. Defined.
#[local] Instance quiet_dec h s : Decision (quiet (W := Counted) h s).
Proof. unfold quiet, same_counts. apply _. Defined.
#[local] Instance lifo_dec s i x : Decision (lifo (W := Counted) s i x).
Proof. destruct x; simpl; try apply _. destruct (ctxs s !! i); apply _. Defined.
#[local] Instance follows_dec A P xs s : (forall s i x, Decision (A s i x)) -> (forall s, Decision (P s)) ->
  Decision (follows A P xs s).
Proof.
  intros DA DP. revert s. induction xs as [|[i x] xs IH]; intros s; simpl; [apply _|].
  apply and_dec; [apply _|]. destruct (perform i x s); [apply and_dec; [apply _ | apply IH] | apply _].
Defined.

Definition demo_ctx (i : nat) : Ctx := nth i (ctxs (demo_run demo_wait)) (mkCtx 0 true tracker_new [] Run).

Lemma mutual_exclusion_witness :
  holds Excl 1 1 (demo_ctx 0) = 1%nat /\ holds Excl 1 1 (demo_ctx 1) = 0%nat /\ holds Shared 1 1 (demo_ctx 1) = 0%nat.
Proof.
  assert (Hr : reach (fun _ _ _ => True) (fun _ => True) demo_boot (demo_run demo_wait)).
  { apply demo_reach; [done|]. vm_compute. tauto. }
  destruct (mutual_exclusion demo_decls _ _ _ _ 0 1 (demo_ctx 0) (demo_ctx 1) 1 1 ltac:(repeat constructor) Hr) as (H1 & _ & H2 & _).
  - reflexivity.
  - reflexivity.
  - exists (mkDecl FsMountTable Task 8). split; [reflexivity | simpl; lia].
  - vm_compute. lia.
  - split; [exact H1 | exact (H2 ltac:(discriminate))].
Defined.

(** The self-test takes its two locks in the wrong order and drops them. *)
Definition demo_selftest : list (nat * act) :=
  [(0, ALock 5 Excl); (0, AGo); (0, ALock 4 Excl); (0, AGo); (0, ADrop 1); (0, AGo); (0, AGo); (0, ADrop 0); (0, AGo); (0, AGo)]%nat.
(** Then context 0 takes the [Plain] lock alone, and both want the mount table. *)
Definition demo_after : list (nat * act) := [(0, ALock 6 Excl); (0, AGo); (0, ADrop 0); (0, AGo); (0, AGo)]%nat ++ demo_wait.
Definition demo_tested : Kernel Counted := demo_run demo_selftest.
Definition demo_contended : Kernel Counted := default demo_tested (play demo_after demo_tested).

Lemma deadlock_free_witness : SELFTEST_INVERSIONS (hk demo_tested) = 1 /\ exists j,
  rtc (waits_on demo_contended) 1%nat j /\ is_Some (ctxs demo_contended !! j) /\ ~ stuck demo_contended j.
Proof.
  split; [vm_compute; reflexivity|].
  eapply (deadlock_free demo_decls [(0%nat, true); (1%nat, true)] (fun _ _ _ => True) (fun _ => True) demo_tested (fun _ _ _ => True)).
  - repeat constructor.
  - apply demo_reach; [exact I|]. vm_compute. tauto.
  - unfold idle. apply (bool_decide_unpack _). vm_compute. exact I.
  - apply play_reach; apply (bool_decide_unpack _); vm_compute; exact I.
  - exists 1%nat, 1%nat. eexists _, Shared, None, _. split; [vm_compute; reflexivity|]. split; [reflexivity|].
    split; vm_compute; reflexivity.
Defined.

(** The hooks do not see [Plain] locks: two contexts that take two of them in opposite
    orders wait for each other, and no inversion is counted. *)
Definition plain_boot : Kernel Counted := boot [mkDecl Fs Plain 1; mkDecl Agent Plain 1] [(0%nat, true); (1%nat, true)].
Definition plain_cross : list (nat * act) :=
  [(0, ALock 0 Excl); (0, AGo); (1, ALock 1 Excl); (1, AGo); (0, ALock 1 Excl); (1, ALock 0 Excl)]%nat.

Lemma plain_locks_deadlock : exists s, play plain_cross plain_boot = Some s /\
  INVERSIONS (hk s) = 0 /\ SELFTEST_INVERSIONS (hk s) = 0 /\ stuck s 0 /\ stuck s 1.
Proof.
  eexists. split; [vm_compute; reflexivity|]. do 2 (split; [reflexivity|]). split.
  - exists 1%nat, 0%nat. eexists _, Excl, None, _. do 2 (split; [reflexivity|]). split; vm_compute; reflexivity.
  - exists 0%nat, 0%nat. eexists _, Excl, None, _. do 2 (split; [reflexivity|]). split; vm_compute; reflexivity.
Qed.

(** The two [Irq] locks, taken in order and dropped in reverse order. *)
Definition demo_irq : list (nat * act) :=
  [(0, ALock 2 Excl); (0, AGo); (0, ALock 3 Excl); (0, AGo); (0, ADrop 1); (0, AGo); (0, AGo)]%nat.

Lemma irq_rule_witness : exists c, ctxs (demo_run demo_irq) !! 0%nat = Some c /\ if_on c = false.
Proof.
  eexists. split; [vm_compute; reflexivity|].
  refine (proj1 (irq_rule demo_decls [(0%nat, true); (1%nat, true)] (fun _ => True) (demo_run demo_irq) 0 _ 0 true _ _ _ _) _).
  - repeat constructor.
  - apply demo_reach; [done|]. apply (bool_decide_unpack _). vm_compute. exact I.
  - vm_compute. reflexivity.
  - reflexivity.
  - vm_compute. left. reflexivity.
Defined.

(** Dropping the outer guard first turns interrupts on under the inner [Irq] lock. *)
Definition demo_swapped : list (nat * act) :=
  [(0, ALock 2 Excl); (0, AGo); (0, ALock 3 Excl); (0, AGo); (0, ADrop 0); (0, AGo); (0, AGo)]%nat.

Lemma out_of_order_drop : option_map (fun s => (if_on <$> ctxs s, guards <$> ctxs s)) (play demo_swapped demo_boot) =
  Some ([true; true], [[mkGuard 3 Excl 0 (Some false)]; []]).
Proof. vm_compute. reflexivity. Qed.

(** Sixteen classes fill a tracker: the next one is not recorded, so [Serial] after
    [Heap] passes as if [Heap] were not held. *)
Definition all_real : list Decl := (fun c => mkDecl c Task 1) <$> take 18 ALL_CLASSES.
Definition take_locks (ls : list nat) : list (nat * act) := l ← ls; [(0, ALock l Excl); (0, AGo)]%nat.

Lemma deep_inversion_missed :
  option_map (fun s => (INVERSIONS (hk s), (fun c => (lock_class all_real ∘ g_lock) <$> drop 16 (guards c)) <$> ctxs s))
    (play (take_locks (seq 0 16 ++ [17; 16]%nat)) (boot (W := Counted) all_real [(0%nat, true)])) =
  Some (0, [[Heap; Serial]]).
Proof. vm_compute. reflexivity. Qed.
End examples.
End LockOrder.
