(* ===== verification/ReadMostly.v ===== *)
(** The replicated table [ReadMostly] ([src/crates/eurolock/src/sync.rs]).

    A table has one copy per shard, each behind its own lock word.  A reader locks
    the copy of its CPU; a writer takes all the locks in index order, applies the
    update to every copy, and drops them all.  A call is a sequence of atomic steps
    and other calls may run between two of them.  The order tracker and the interrupt
    flag of the calls are in [Lock]; here are the copies. *)

From stdpp Require Import base list relations.
From S2P Require Import Prelude Spin Lock.

Module ReadMostly.

Section table.
Context {W : Type} `{SpinLock W} {T R : Type}.

(** The closures passed to [read] and [write].  An update runs once per copy and must
    be deterministic: it is a function. *)
Inductive call :=
  | CRead (f : T -> R)
  | CWrite (f : T -> T * R).

(** [shards]: the lock and the value of each copy. *)
Record Table := mkTable { locks : list W; vals : list T }.

(** [new_site] with identical copies. *)
Definition new_site (v : T) : Table := mkTable (replicate Lock.SHARDS spin_new) (replicate Lock.SHARDS v).

(** Where a call is: a reader in its loop, about to run its closure, about to drop its
    guard; a writer in the loop for copy [k], about to update copy [k], about to drop
    guard [k]. *)
Inductive proc :=
  | RWait (k : nat) (f : T -> R)
  | RHold (k : nat) (f : T -> R)
  | RDrop (k : nat) (f : T -> R) (r : R)
  | WWait (k : nat) (f : T -> T * R)
  | WApply (k : nat) (f : T -> T * R)
  | WDrop (k : nat) (f : T -> T * R) (r : R)
  | Done (c : call) (r : R).

Definition start (cpu : nat) (c : call) : proc :=
  match c with
  | CRead f => RWait (cpu mod Lock.SHARDS) f
  | CWrite f => WWait 0 f
  end.

Definition set_lock (k : nat) (w : W) (t : Table) : Table := mkTable (<[k := w]> (locks t)) (vals t).
Definition set_val (k : nat) (v : T) (t : Table) : Table := mkTable (locks t) (<[k := v]> (vals t)).

(** [next k more last]: the loop over the shards goes on, or ends. *)
Definition next {A} (k : nat) (more : nat -> A) (last : A) : A :=
  if (S k <? Lock.SHARDS)%nat then more (S k) else last.

(** One step of [read]; the last component is the answer, when the step decides it. *)
Definition read (p : proc) (t : Table) : option (proc * Table * option (call * R)) :=
  match p with
  | RWait k f =>
      w ← locks t !! k;
      match try_acquire Shared w with
      | Some w' => Some (RHold k f, set_lock k w' t, None)
      | None => Some (p, t, None)
      end
  | RHold k f => v ← vals t !! k; Some (RDrop k f (f v), t, Some (CRead f, f v))
  | RDrop k f r => w ← locks t !! k; Some (Done (CRead f) r, set_lock k (release Shared w) t, None)
  | _ => None
  end.

(** One step of [write]; the answer is that of the last copy. *)
Definition write (p : proc) (t : Table) : option (proc * Table * option (call * R)) :=
  match p with
  | WWait k f =>
      w ← locks t !! k;
      match try_acquire Excl w with
      | Some w' => Some (next k (fun j => WWait j f) (WApply 0 f), set_lock k w' t, None)
      | None => Some (p, t, None)
      end
  | WApply k f =>
      v ← vals t !! k;
      let '(v', r) := f v in
      Some (next k (fun j => WApply j f) (WDrop 0 f r), set_val k v' t,
            next k (fun _ => None) (Some (CWrite f, r)))
  | WDrop k f r =>
      w ← locks t !! k;
      Some (next k (fun j => WDrop j f r) (Done (CWrite f) r), set_lock k (release Excl w) t, None)
  | _ => None
  end.

Definition micro (p : proc) (t : Table) : option (proc * Table * option (call * R)) :=
  match p with
  | RWait _ _ | RHold _ _ | RDrop _ _ _ => read p t
  | WWait _ _ | WApply _ _ | WDrop _ _ _ => write p t
  | Done _ _ => None
  end.

(** The interleavings of the calls, with the answers in the order they are decided. *)
Inductive sys (calls : list (nat * call)) (v0 : T) : list proc -> Table -> list (nat * (call * R)) -> Prop :=
  | sys_start : sys calls v0 ((fun '(cpu, c) => start cpu c) <$> calls) (new_site v0) []
  | sys_step ps t tr i p p' t' e :
      sys calls v0 ps t tr -> ps !! i = Some p -> micro p t = Some (p', t', e) ->
      sys calls v0 (<[i := p']> ps) t' (tr ++ match e with Some a => [(i, a)] | None => [] end).

(** The specification: one copy, one call at a time. *)
Definition answer (c : call) (v : T) : R * T :=
  match c with
  | CRead f => (f v, v)
  | CWrite f => (snd (f v), fst (f v))
  end.

(** [tr] is a sequential history from [v] to [v']. *)
Fixpoint legal (v : T) (tr : list (nat * (call * R))) (v' : T) : Prop :=
  match tr with
  | [] => v' = v
  | (_, (c, r)) :: rest => r = fst (answer c v) /\ legal (snd (answer c v)) rest v'
  end.

(** The call is decided: its answer is in the history. *)
Definition decided (p : proc) : option (call * R) :=
  match p with
  | RDrop _ f r => Some (CRead f, r)
  | WDrop _ f r => Some (CWrite f, r)
  | Done c r => Some (c, r)
  | _ => None
  end.

(** An executable schedule, for examples. *)
Fixpoint schedule (ix : list nat) (ps : list proc) (t : Table) (tr : list (nat * (call * R)))
    : option (list proc * Table * list (nat * (call * R))) :=
  match ix with
  | [] => Some (ps, t, tr)
  | i :: rest =>
      p ← ps !! i;
      match micro p t with
      | Some (p', t', e) => schedule rest (<[i := p']> ps) t' (tr ++ match e with Some a => [(i, a)] | None => [] end)
      | None => None
      end
  end.

End table.
#[global] Arguments call : clear implicits.
#[global] Arguments proc : clear implicits.
#[global] Arguments Table : clear implicits.

Section proofs.
Context {W : Type} `{SpinLaws W} {T R : Type}.
Implicit Types (ps : list (proc T R)) (t : Table W T) (tr : list (nat * (call T R * R))).

(** ** Who holds which copy *)

Definition cnt (a : access) (k : nat) (p : proc T R) : nat :=
  match p with
  | RHold j _ | RDrop j _ _ => if decide (j = k) then one a Shared else 0%nat
  | WWait j _ => if decide (k < j)%nat then one a Excl else 0%nat
  | WApply _ _ => one a Excl
  | WDrop j _ _ => if decide (j <= k)%nat then one a Excl else 0%nat
  | _ => 0%nat
  end.
Definition tot (a : access) (k : nat) ps : nat := sum_list_with (cnt a k) ps.

(** The copy a call is at. *)
Definition at_copy (p : proc T R) : option nat :=
  match p with
  | RWait k _ | RHold k _ | RDrop k _ _ | WWait k _ | WApply k _ | WDrop k _ _ => Some k
  | Done _ _ => None
  end.
Definition in_range (p : proc T R) : Prop := forall k, at_copy p = Some k -> (k < Lock.SHARDS)%nat.

Definition words_ok ps t : Prop :=
  forall k w, locks t !! k = Some w -> accounts w (tot Shared k ps) (tot Excl k ps).

Lemma tot_step a k ps i p p' : ps !! i = Some p -> (tot a k (<[i := p']> ps) + cnt a k p = tot a k ps + cnt a k p')%nat.
Proof. apply sum_insert. Qed.

Lemma words_same ps t i p p' : words_ok ps t -> ps !! i = Some p ->
  (forall a k, (k < length (locks t))%nat -> cnt a k p' = cnt a k p) -> words_ok (<[i := p']> ps) t.
Proof.
  intros Hw Hi Hs k w Hk. pose proof (lookup_lt_Some _ _ _ Hk) as Hlt. specialize (Hw k w Hk).
  pose proof (tot_step Shared k ps i p p' Hi) as T1. pose proof (tot_step Excl k ps i p p' Hi) as T2.
  rewrite Hs in T1, T2 by done.
  by replace (tot Shared k (<[i := p']> ps)) with (tot Shared k ps) by lia;
    replace (tot Excl k (<[i := p']> ps)) with (tot Excl k ps) by lia.
Qed.

Lemma words_change ps t i p p' k0 w' : words_ok ps t -> ps !! i = Some p ->
  (forall a k, (k < length (locks t))%nat -> k <> k0 -> cnt a k p' = cnt a k p) ->
  accounts w' (tot Shared k0 (<[i := p']> ps)) (tot Excl k0 (<[i := p']> ps)) ->
  words_ok (<[i := p']> ps) (set_lock k0 w' t).
Proof.
  intros Hw Hi Hs Ha k w Hk. unfold set_lock in Hk. simpl in Hk. apply list_lookup_insert_Some in Hk as [(-> & -> & _)|[Hne Hk]]; [done|].
  pose proof (lookup_lt_Some _ _ _ Hk) as Hlt. specialize (Hw k w Hk).
  pose proof (tot_step Shared k ps i p p' Hi) as T1. pose proof (tot_step Excl k ps i p p' Hi) as T2.
  rewrite Hs in T1, T2 by done.
  by replace (tot Shared k (<[i := p']> ps)) with (tot Shared k ps) by lia;
    replace (tot Excl k (<[i := p']> ps)) with (tot Excl k ps) by lia.
Qed.

Lemma words_take ps t i p p' a0 k0 w w' : words_ok ps t -> ps !! i = Some p ->
  locks t !! k0 = Some w -> try_acquire a0 w = Some w' ->
  (forall a k, (k < length (locks t))%nat -> cnt a k p' = (cnt a k p + if decide (k = k0) then one a a0 else 0)%nat) ->
  words_ok (<[i := p']> ps) (set_lock k0 w' t).
Proof.
  intros Hw Hi Hk Ht Hs. pose proof (accounts_try a0 w _ _ (Hw k0 w Hk)) as Ha. rewrite Ht in Ha.
  apply (words_change ps t i p); [done | done | intros a k Hlt Hne; rewrite Hs, decide_False by done; lia |].
  pose proof (lookup_lt_Some _ _ _ Hk) as Hlt.
  pose proof (tot_step Shared k0 ps i p p' Hi) as T1. pose proof (tot_step Excl k0 ps i p p' Hi) as T2.
  rewrite Hs, decide_True in T1, T2 by done.
  by replace (tot Shared k0 (<[i := p']> ps)) with (tot Shared k0 ps + one Shared a0)%nat by lia;
    replace (tot Excl k0 (<[i := p']> ps)) with (tot Excl k0 ps + one Excl a0)%nat by lia.
Qed.

Lemma words_give ps t i p p' a0 k0 w : words_ok ps t -> ps !! i = Some p -> locks t !! k0 = Some w ->
  (forall a k, (k < length (locks t))%nat -> cnt a k p = (cnt a k p' + if decide (k = k0) then one a a0 else 0)%nat) ->
  words_ok (<[i := p']> ps) (set_lock k0 (release a0 w) t).
Proof.
  intros Hw Hi Hk Hs. pose proof (Hw k0 w Hk) as Ha.
  apply (words_change ps t i p); [done | done | intros a k Hlt Hne; rewrite Hs, decide_False by done; lia |].
  pose proof (lookup_lt_Some _ _ _ Hk) as Hlt. apply accounts_release.
  pose proof (tot_step Shared k0 ps i p p' Hi) as T1. pose proof (tot_step Excl k0 ps i p p' Hi) as T2.
  rewrite Hs, decide_True in T1, T2 by done.
  by replace (tot Shared k0 (<[i := p']> ps) + one Shared a0)%nat with (tot Shared k0 ps) by lia;
    replace (tot Excl k0 (<[i := p']> ps) + one Excl a0)%nat with (tot Excl k0 ps) by lia.
Qed.

Definition sized t : Prop := length (locks t) = Lock.SHARDS /\ length (vals t) = Lock.SHARDS.

#[local] Opaque Lock.SHARDS.

Lemma sized_lock k w t : length (locks t) = Lock.SHARDS -> length (vals t) = Lock.SHARDS -> sized (set_lock k w t).
Proof. intros Hl Hv. split; [|done]. simpl. by rewrite length_insert. Qed.

Lemma sized_val k v t : length (locks t) = Lock.SHARDS -> length (vals t) = Lock.SHARDS -> sized (set_val k v t).
Proof. intros Hl Hv. split; [done|]. simpl. by rewrite length_insert. Qed.

Lemma next_range k (mk : nat -> proc T R) (l : proc T R) : (forall j, at_copy (mk j) = Some j) -> in_range l -> in_range (next k mk l).
Proof.
  intros Hm Hl. unfold next. destruct (Nat.ltb_spec (S k) Lock.SHARDS); [|done]. intros j Hj. rewrite Hm in Hj. by injection Hj as <-.
Qed.

Lemma zero_range : (0 < Lock.SHARDS)%nat.
Proof. apply Nat.ltb_lt. reflexivity. Qed.

(** A step keeps the sizes and the ranges, and the words account for the holders. *)
Lemma micro_words ps t i p p' t' e : words_ok ps t -> sized t -> in_range p -> ps !! i = Some p ->
  micro p t = Some (p', t', e) -> words_ok (<[i := p']> ps) t' /\ sized t' /\ in_range p'.
Proof.
  intros Hw [Hl Hv] Hr Hi Hm. pose proof zero_range as H0'.
  destruct p as [k f|k f|k f r|k f|k f|k f r|c r]; simpl in Hm; [| | | | | |done].
  - destruct (locks t !! k) as [w|] eqn:Hk; [|done]. simpl in Hm. destruct (try_acquire Shared w) as [w'|] eqn:Ht; simplify_eq.
    + split; [|split; [by apply sized_lock | done]].
      eapply words_take; [done | done | done | done |]. intros a j _. simpl. by repeat case_decide.
    + split; [|done]. by apply (words_same ps t' i (RWait k f)).
  - destruct (vals t !! k) as [v|]; [|done]. simplify_eq/=. split; [|done]. by apply (words_same ps t' i (RHold k f)).
  - destruct (locks t !! k) as [w|] eqn:Hk; [|done]. simplify_eq/=.
    split; [|split; [by apply sized_lock | done]].
    eapply words_give; [done | done | done |]. intros a j _. simpl. by repeat case_decide.
  - destruct (locks t !! k) as [w|] eqn:Hk; [|done]. simpl in Hm. destruct (try_acquire Excl w) as [w'|] eqn:Ht; simplify_eq.
    + split; [|split; [by apply sized_lock |]].
      * eapply words_take; [done | done | done | done |]. intros a j Hj. unfold next.
        destruct (Nat.ltb_spec (S k) Lock.SHARDS); simpl; repeat case_decide; simpl; lia.
      * apply next_range; [done|]. intros j Hj. by injection Hj as <-.
    + split; [|done]. by apply (words_same ps t' i (WWait k f)).
  - destruct (vals t !! k) as [v|]; [|done]. simpl in Hm. destruct (f v) as [v' r]. simplify_eq.
    split; [|split; [by apply sized_val |]].
    + apply (words_same ps t i (WApply k f)); [done | done |]. intros a j _. unfold next. by destruct (S k <? Lock.SHARDS)%nat.
    + apply next_range; [done|]. intros j Hj. by injection Hj as <-.
  - destruct (locks t !! k) as [w|] eqn:Hk; [|done]. simplify_eq/=.
    split; [|split; [by apply sized_lock | by apply next_range]].
    eapply words_give; [done | done | done |]. intros a j Hj. unfold next. specialize (Hr k eq_refl).
    destruct (Nat.ltb_spec (S k) Lock.SHARDS); simpl; repeat case_decide; simpl; lia.
Qed.

(** ** The copies *)

(** Two calls never hold a copy when one of them is a writer. *)
Lemma alone_at ps t i j p q k : words_ok ps t -> sized t -> (k < Lock.SHARDS)%nat -> ps !! i = Some p -> ps !! j = Some q ->
  (0 < cnt Excl k p)%nat -> (0 < cnt Shared k q + cnt Excl k q)%nat -> i = j.
Proof.
  intros Hw [Hl _] Hk Hi Hj Hp Hq. destruct (decide (i = j)) as [|Hne]; [done|]. exfalso.
  destruct (lookup_lt_is_Some_2 (locks t) k) as [w Hw']; [lia|].
  destruct (accounts_exclusive _ _ _ (Hw k w Hw')) as [He Hs].
  pose proof (sum_two (cnt Excl k) _ _ _ _ _ Hi Hj Hne). pose proof (sum_two (cnt Shared k) _ _ _ _ _ Hi Hj Hne).
  unfold tot in *. lia.
Qed.

Definition copies (v : T) ps t : Prop := forall k x, vals t !! k = Some x ->
  (exists i j f, ps !! i = Some (WApply j f) /\ (k < j)%nat /\ x = fst (f v)) \/
  ((forall i j f, ps !! i = Some (WApply j f) -> (j <= k)%nat) /\ x = v).

(** Steps of calls that are not updating leave the copies alone. *)
Lemma copies_same v ps t t' i p p' : copies v ps t -> ps !! i = Some p -> vals t' = vals t ->
  (forall j f, p <> WApply j f) -> (forall j f, p' = WApply j f -> j = 0%nat) -> copies v (<[i := p']> ps) t'.
Proof.
  intros Hc Hi Hv Hp Hp' k x Hk. rewrite Hv in Hk. destruct (Hc k x Hk) as [(n & j & f & Hn & Hlt & Hx)|[Hall Hx]].
  - left. exists n, j, f. split; [|done]. rewrite list_lookup_insert_ne; [done|]. intros ->. rewrite Hi in Hn. injection Hn as ->. by eapply Hp.
  - right. split; [|done]. intros n j f Hn. apply list_lookup_insert_Some in Hn as [(-> & -> & _)|[_ Hn]]; [|by eapply Hall].
    rewrite (Hp' j f eq_refl). lia.
Qed.

(** A reader with its lock sees the current value. *)
Lemma reader_sees v ps t i k f x : words_ok ps t -> sized t -> copies v ps t -> ps !! i = Some (RHold k f) -> vals t !! k = Some x -> x = v.
Proof.
  intros Hw Hs Hc Hi Hk. destruct (Hc k x Hk) as [(n & j & g & Hn & Hlt & _)|[_ Hx]]; [|done]. exfalso.
  assert (n = i).
  { eapply (alone_at ps t); [done | done | | done | done | |]; [destruct Hs as [_ <-]; by eapply lookup_lt_Some | simpl; unfold one; simpl; lia |].
    simpl. rewrite decide_True by done. unfold one. simpl. lia. }
  subst. rewrite Hi in Hn. done.
Qed.

(** A writer that updates is the only one, and copy [k] is still to come. *)
Lemma writer_sees v ps t i k f x : words_ok ps t -> sized t -> copies v ps t -> ps !! i = Some (WApply k f) -> vals t !! k = Some x ->
  x = v /\ (forall n j g, ps !! n = Some (WApply j g) -> n = i).
Proof.
  intros Hw Hs Hc Hi Hk.
  assert (Hu : forall n j g, ps !! n = Some (WApply j g) -> n = i).
  { intros n j g Hn. eapply (alone_at ps t n i _ _ 0); [done | done | apply zero_range | done | done | |]; simpl; unfold one; simpl; lia. }
  split; [|done]. destruct (Hc k x Hk) as [(n & j & g & Hn & Hlt & _)|[_ Hx]]; [|done]. exfalso.
  pose proof (Hu _ _ _ Hn) as ->. rewrite Hi in Hn. injection Hn as <- <-. lia.
Qed.

(** The last copy of an update is done: the new value is everywhere. *)
Lemma copies_commit v ps t i k f x r y : words_ok ps t -> sized t -> copies v ps t -> ps !! i = Some (WApply k f) ->
  vals t !! k = Some x -> f x = (y, r) -> (Lock.SHARDS <= S k)%nat -> copies y (<[i := WDrop 0 f r]> ps) (set_val k y t).
Proof.
  intros Hw Hs Hc Hi Hk Hf Hlast. destruct (writer_sees v ps t i k f x Hw Hs Hc Hi Hk) as [-> Hu].
  intros j z Hj. right. split.
  { intros n j' g Hn. apply list_lookup_insert_Some in Hn as [(_ & Hn & _)|[Hne Hn]]; [done|]. by apply Hu in Hn. }
  simpl in Hj. apply list_lookup_insert_Some in Hj as [(_ & -> & _)|[Hne Hj]]; [done|].
  pose proof (lookup_lt_Some _ _ _ Hj) as Hlt. destruct Hs as [_ Hl].
  destruct (Hc j z Hj) as [(n & j' & g & Hn & _ & ->)|[Hall _]].
  - pose proof (Hu _ _ _ Hn) as ->. rewrite Hi in Hn. injection Hn as <- <-. by rewrite Hf.
  - specialize (Hall _ _ _ Hi). lia.
Qed.

(** One more copy of an update is done. *)
Lemma copies_apply v ps t i k f x r y : words_ok ps t -> sized t -> copies v ps t -> ps !! i = Some (WApply k f) ->
  vals t !! k = Some x -> f x = (y, r) -> copies v (<[i := WApply (S k) f]> ps) (set_val k y t).
Proof.
  intros Hw Hs Hc Hi Hk Hf. destruct (writer_sees v ps t i k f x Hw Hs Hc Hi Hk) as [-> Hu].
  assert (Hi' : <[i := WApply (S k) f]> ps !! i = Some (WApply (S k) f)) by (apply list_lookup_insert_eq; by eapply lookup_lt_Some).
  intros j z Hj. simpl in Hj. apply list_lookup_insert_Some in Hj as [(-> & -> & _)|[Hne Hj]].
  - left. exists i, (S j), f. split; [done|]. split; [lia|]. by rewrite Hf.
  - destruct (Hc j z Hj) as [(n & j' & g & Hn & Hlt & ->)|[Hall ->]].
    + left. pose proof (Hu _ _ _ Hn) as ->. rewrite Hi in Hn. injection Hn as <- <-. exists i, (S k), f. split; [done|]. split; [lia | done].
    + right. split; [|done]. intros n j' g Hn. specialize (Hall _ _ _ Hi).
      apply list_lookup_insert_Some in Hn as [(-> & Hn & _)|[Hne' Hn]]; [injection Hn as <- <-; lia|].
      by apply Hu in Hn.
Qed.

(** ** The history *)

Lemma legal_snoc v tr v' i c r : legal v tr v' -> r = fst (answer c v') -> legal v (tr ++ [(i, (c, r))]) (snd (answer c v')).
Proof.
  revert v. induction tr as [|[n [c0 r0]] tr IH]; intros v Hl Hr; simpl in *; [by subst|].
  destruct Hl as [H1 H2]. auto.
Qed.

(** A call has its answer in the history, once, exactly when it is decided. *)
Definition recorded ps tr : Prop :=
  NoDup (fst <$> tr) /\ forall i a, (i, a) ∈ tr <-> exists p, ps !! i = Some p /\ decided p = Some a.

Lemma recorded_same ps tr i p p' : recorded ps tr -> ps !! i = Some p -> decided p' = decided p -> recorded (<[i := p']> ps) (tr ++ []).
Proof.
  intros [Hn Hr] Hi Hd. rewrite app_nil_r. split; [done|]. intros n a. rewrite Hr. split; intros (q & Hq & Ha).
  - destruct (decide (n = i)) as [->|Hne]; [exists p' | exists q; by rewrite list_lookup_insert_ne].
    split; [apply list_lookup_insert_eq; by eapply lookup_lt_Some | congruence].
  - apply list_lookup_insert_Some in Hq as [(-> & -> & _)|[_ Hq]]; [exists p | exists q; done]. split; [done | congruence].
Qed.

Lemma recorded_new ps tr i p p' a : recorded ps tr -> ps !! i = Some p -> decided p = None -> decided p' = Some a ->
  recorded (<[i := p']> ps) (tr ++ [(i, a)]).
Proof.
  intros [Hn Hr] Hi Hd Hd'. split.
  - rewrite fmap_app. simpl. apply NoDup_app. split; [done|]. split; [|apply NoDup_singleton]. intros n Hin Hx.
    apply list_elem_of_singleton in Hx as ->. apply list_elem_of_fmap in Hin as ([n b] & -> & Hin). simpl in *.
    apply Hr in Hin as (q & Hq & Hb). congruence.
  - intros n b. rewrite elem_of_app, Hr, list_elem_of_singleton. split.
    + intros [(q & Hq & Hb)|[= -> ->]].
      * exists q. split; [|done]. rewrite list_lookup_insert_ne; [done|]. intros ->. congruence.
      * exists p'. split; [apply list_lookup_insert_eq; by eapply lookup_lt_Some | done].
    + intros (q & Hq & Hb). apply list_lookup_insert_Some in Hq as [(-> & -> & _)|[_ Hq]]; [right; congruence | left; eauto].
Qed.

Record rm_inv (v0 : T) ps t tr (v : T) : Prop := {
  ri_words : words_ok ps t;
  ri_sized : sized t;
  ri_range : Forall in_range ps;
  ri_copies : copies v ps t;
  ri_legal : legal v0 tr v;
  ri_recorded : recorded ps tr;
}.

(** What a step does to the values and the history. *)
Lemma micro_values v0 ps t tr v i p p' t' e : rm_inv v0 ps t tr v -> ps !! i = Some p -> micro p t = Some (p', t', e) ->
  exists v', copies v' (<[i := p']> ps) t' /\ legal v0 (tr ++ match e with Some a => [(i, a)] | None => [] end) v' /\
    recorded (<[i := p']> ps) (tr ++ match e with Some a => [(i, a)] | None => [] end).
Proof.
  intros [Hw Hs _ Hc Hl Hr] Hi Hm.
  assert (Hkeep : forall p1 t1, (forall j f, p <> WApply j f) -> (forall j f, p1 = WApply j f -> j = 0%nat) -> vals t1 = vals t ->
    decided p1 = decided p -> exists v', copies v' (<[i := p1]> ps) t1 /\ legal v0 (tr ++ []) v' /\ recorded (<[i := p1]> ps) (tr ++ [])).
  { intros p1 t1 H1 H2 H3 H4. exists v. split; [by eapply copies_same|]. split; [by rewrite app_nil_r | by eapply recorded_same]. }
  destruct p as [k f|k f|k f r|k f|k f|k f r|c r]; simpl in Hm; [| | | | | |done].
  - destruct (locks t !! k) as [w|]; [|done]. simpl in Hm. destruct (try_acquire Shared w) as [w'|]; simplify_eq; by apply Hkeep.
  - destruct (vals t !! k) as [x|] eqn:Hk; [|done]. simplify_eq/=. rewrite (reader_sees v ps t' i k f x Hw Hs Hc Hi Hk).
    exists v. split; [by eapply copies_same|]. split; [by apply (legal_snoc v0 tr v i (CRead f)) | by eapply recorded_new].
  - destruct (locks t !! k) as [w|]; [|done]. simplify_eq/=. by apply Hkeep.
  - destruct (locks t !! k) as [w|]; [|done]. simpl in Hm. destruct (try_acquire Excl w) as [w'|]; simplify_eq; [|by apply Hkeep].
    apply Hkeep; try done; unfold next; intros; by destruct (S k <? Lock.SHARDS)%nat; simplify_eq/=.
  - destruct (vals t !! k) as [x|] eqn:Hk; [|done]. simpl in Hm. destruct (f x) as [y r] eqn:Hf. simplify_eq.
    unfold next. destruct (Nat.ltb_spec (S k) Lock.SHARDS) as [Hm|Hm].
    + exists v. split; [by eapply copies_apply|]. split; [by rewrite app_nil_r | by eapply recorded_same].
    + pose proof (proj1 (writer_sees v ps t i k f x Hw Hs Hc Hi Hk)) as ->.
      exists y. split; [by eapply copies_commit|]. split; [|by eapply recorded_new].
      replace y with (snd (answer (CWrite f) v)) by (simpl; by rewrite Hf). apply legal_snoc; [done|]. simpl. by rewrite Hf.
  - destruct (locks t !! k) as [w|]; [|done]. simplify_eq/=. apply Hkeep; try done; unfold next; intros; by destruct (S k <? Lock.SHARDS)%nat.
Qed.

Definition call_of (p : proc T R) : call T R :=
  match p with
  | RWait _ f | RHold _ f | RDrop _ f _ => CRead f
  | WWait _ f | WApply _ f | WDrop _ f _ => CWrite f
  | Done c _ => c
  end.

Lemma micro_call p t p' t' e : micro p t = Some (p', t', e) -> call_of p' = call_of p.
Proof.
  intros Hm. destruct p as [k f|k f|k f r|k f|k f|k f r|c r]; simpl in Hm; [| | | | | |done].
  5: destruct (vals t !! k) as [x|]; simpl in Hm; [destruct (f x)|]; simplify_eq; unfold next; by destruct (_ <? _)%nat.
  all: destruct (_ !! k) as [w|]; simpl in Hm; simplify_eq; try done; try (destruct (try_acquire _ w); simplify_eq); try done.
  all: unfold next; by destruct (_ <? _)%nat.
Qed.

Lemma start_inv calls v0 : rm_inv v0 ((fun '(cpu, c) => start cpu c) <$> calls) (new_site v0) [] v0.
Proof.
  assert (Hst : forall i p, ((fun '(cpu, c) => start cpu c) <$> calls) !! i = Some p -> exists cpu c, p = start cpu c).
  { intros i p Hp. apply list_lookup_fmap_Some in Hp as ([cpu c] & -> & _). eauto. }
  split.
  - intros k w Hk. simpl in Hk. apply lookup_replicate in Hk as [-> _].
    assert (Hz : forall a, tot a k ((fun '(cpu, c) => start cpu c) <$> calls) = 0%nat).
    { intros a. apply sum_zero. intros p Hp. apply list_elem_of_fmap in Hp as ([cpu []] & -> & _); done. }
    rewrite !Hz. apply accounts_new.
  - split; simpl; apply length_replicate.
  - apply Forall_fmap, Forall_true. intros [cpu []] k [= <-]; [apply Nat.mod_upper_bound; pose proof zero_range; lia | apply zero_range].
  - intros k x Hk. simpl in Hk. apply lookup_replicate in Hk as [-> _]. right. split; [|done].
    intros i j f Hi. by apply Hst in Hi as (cpu & [] & Hi).
  - done.
  - split; [apply NoDup_nil_2|]. intros i a. split; [intros Hx; by apply not_elem_of_nil in Hx|].
    intros (p & Hp & Ha). by apply Hst in Hp as (cpu & [] & ->).
Qed.

Lemma table_inv calls v0 ps t tr : sys calls v0 ps t tr ->
  (exists v, rm_inv v0 ps t tr v) /\ call_of <$> ps = snd <$> calls.
Proof.
  induction 1 as [|ps t tr i p p' t' e Hsys [[v I] Hcalls] Hi Hm].
  - split; [exists v0; apply start_inv|]. rewrite <- list_fmap_compose. apply list_fmap_ext. by intros i [cpu []].
  - split.
    + destruct (micro_values _ _ _ _ _ _ _ _ _ _ I Hi Hm) as (v' & Hc & Hl & Hr).
      destruct (micro_words ps t i p p' t' e) as (Hw & Hs & Hg); try apply I; try done.
      { exact (Forall_lookup_1 _ _ _ _ (ri_range _ _ _ _ _ I) Hi). }
      exists v'. split; try done. apply Forall_insert; [apply I | done].
    + rewrite list_fmap_insert, (micro_call _ _ _ _ _ Hm), Hcalls. apply list_insert_id.
      rewrite <- Hcalls, list_lookup_fmap, Hi. done.
Qed.

Lemma single_copy calls v0 ps t tr : sys (W := W) calls v0 ps t tr ->
  NoDup (fst <$> tr) /\
  (forall i c r, ps !! i = Some (Done c r) -> (i, (c, r)) ∈ tr) /\
  (forall i c r, (i, (c, r)) ∈ tr -> exists cpu p, calls !! i = Some (cpu, c) /\ ps !! i = Some p /\ decided p = Some (c, r)) /\
  exists v, legal v0 tr v /\ ((forall i j f, ps !! i <> Some (WApply j f)) -> vals t = replicate Lock.SHARDS v).
Proof.
  intros Hsys. destruct (table_inv _ _ _ _ _ Hsys) as [[v I] Hcalls]. destruct (ri_recorded _ _ _ _ _ I) as [Hn Hr].
  split; [done|]. split; [intros i c r Hi; apply Hr; eauto|]. split.
  - intros i c r Hin. apply Hr in Hin as (p & Hp & Hd).
    assert (Hc : (call_of <$> ps) !! i = Some c) by (rewrite list_lookup_fmap, Hp; destruct p; simplify_eq/=; done).
    rewrite Hcalls in Hc. apply list_lookup_fmap_Some in Hc as ([cpu c'] & -> & Hi). by exists cpu, p.
  - exists v. split; [apply I|]. intros Hno. apply list_eq_same_length with (n := Lock.SHARDS); [by rewrite length_replicate | apply I |].
    intros k x y Hk Hx Hy. apply lookup_replicate in Hy as [-> _].
    destruct (ri_copies _ _ _ _ _ I k x Hx) as [(i & j & f & Hi & _)|[_ ->]]; [by apply Hno in Hi | done].
Qed.

(** ** Every call can finish *)

(** The steps a call still has to take, attempts that fail not counted. *)
Definition work (p : proc T R) : nat :=
  match p with
  | RWait _ _ => 3
  | RHold _ _ => 2
  | RDrop _ _ _ => 1
  | WWait k _ => 3 * Lock.SHARDS - k
  | WApply k _ => 2 * Lock.SHARDS - k
  | WDrop k _ _ => Lock.SHARDS - k
  | Done _ _ => 0
  end.

(** Call [i] can take a step that brings it forward. *)
Definition moves ps t (i : nat) : Prop :=
  exists p p' t' e, ps !! i = Some p /\ micro p t = Some (p', t', e) /\ (work p' < work p)%nat.

Lemma sized_lookup t k : sized t -> (k < Lock.SHARDS)%nat -> is_Some (locks t !! k) /\ is_Some (vals t !! k).
Proof. intros [Hl Hv] Hk. split; apply lookup_lt_is_Some; lia. Qed.

(** A call that holds a lock and is not in a loop moves. *)
Lemma holder_moves ps t i p : sized t -> in_range p -> ps !! i = Some p ->
  match p with RHold _ _ | RDrop _ _ _ | WApply _ _ | WDrop _ _ _ => True | _ => False end -> moves ps t i.
Proof.
  intros Hs Hr Hi Hp. exists p.
  destruct p as [k f|k f|k f r|k f|k f|k f r|c r]; try done; specialize (Hr k eq_refl);
    destruct (sized_lookup t k Hs Hr) as [[w Hw] [x Hx]]; simpl; rewrite ?Hw, ?Hx; simpl; [| | destruct (f x) as [y r] |].
  all: do 3 eexists; split; [done|]; split; [reflexivity|]; simpl; unfold next.
  all: try (destruct (Nat.ltb_spec (S k) Lock.SHARDS)); simpl; lia.
Qed.

(** A word that refuses is held, by a call that moves or by a writer further on. *)
Lemma refused ps t a k w : words_ok ps t -> sized t -> Forall in_range ps -> locks t !! k = Some w -> try_acquire a w = None ->
  (exists i, moves ps t i) \/ exists i j f, ps !! i = Some (WWait j f) /\ (k < j)%nat.
Proof.
  intros Hw Hs Hr Hk Ht. pose proof (accounts_try a w _ _ (Hw k w Hk)) as Ha. rewrite Ht in Ha.
  assert (Hpos : exists b, tot b k ps <> 0%nat).
  { destruct (decide (tot Excl k ps = 0%nat)); [exists Shared; destruct a; lia | by exists Excl]. }
  destruct Hpos as [b Hb]. destruct (sum_positive _ _ Hb) as (i & p & Hi & Hc).
  pose proof (Forall_lookup_1 _ _ _ _ Hr Hi) as Hrp.
  destruct p as [j f|j f|j f r|j f|j f|j f r|c r]; simpl in Hc; try done.
  3: { right. exists i, j, f. split; [done|]. by case_decide. }
  all: left; exists i; by eapply holder_moves.
Qed.

Lemma writer_progress ps t n : words_ok ps t -> sized t -> Forall in_range ps -> forall i k f,
  ps !! i = Some (WWait k f) -> (Lock.SHARDS - k <= n)%nat -> exists j, moves ps t j.
Proof.
  intros Hw Hs Hr. induction n as [|n IH]; intros i k f Hi Hn; pose proof (Forall_lookup_1 _ _ _ _ Hr Hi k eq_refl) as Hk; [lia|].
  destruct (sized_lookup t k Hs Hk) as [[w Hl] _]. destruct (try_acquire Excl w) as [w'|] eqn:Ht.
  - exists i. do 4 eexists. split; [done|]. simpl. rewrite Hl. simpl. rewrite Ht. split; [reflexivity|].
    unfold next. destruct (Nat.ltb_spec (S k) Lock.SHARDS); simpl; lia.
  - destruct (refused ps t Excl k w Hw Hs Hr Hl Ht) as [Hm|(j & k' & g & Hj & Hlt)]; [done|]. apply (IH j k' g Hj). lia.
Qed.

Lemma progress ps t i p : words_ok ps t -> sized t -> Forall in_range ps -> ps !! i = Some p -> work p <> 0%nat ->
  exists j, moves ps t j.
Proof.
  intros Hw Hs Hr Hi Hp. pose proof (Forall_lookup_1 _ _ _ _ Hr Hi) as Hri.
  destruct p as [k f|k f|k f r|k f|k f|k f r|c r]; try done; try (exists i; by eapply holder_moves).
  - destruct (sized_lookup t k Hs (Hri k eq_refl)) as [[w Hl] _]. destruct (try_acquire Shared w) as [w'|] eqn:Ht.
    + exists i. do 4 eexists. split; [done|]. simpl. rewrite Hl. simpl. rewrite Ht. split; [reflexivity|]. simpl. lia.
    + destruct (refused ps t Shared k w Hw Hs Hr Hl Ht) as [Hm|(j & k' & g & Hj & _)]; [done|]. by eapply writer_progress.
  - by eapply writer_progress.
Qed.

Lemma work_done p : in_range p -> work p = 0%nat -> exists c r, p = Done c r.
Proof.
  intros Hr Hw. destruct p as [k f|k f|k f r|k f|k f|k f r|c r]; simpl in Hw; try done; [| | |eauto].
  all: specialize (Hr k eq_refl); lia.
Qed.

Lemma finish calls v0 n ps t tr : sys (W := W) calls v0 ps t tr -> (sum_list_with work ps <= n)%nat ->
  exists ps' t' tr', sys (W := W) calls v0 ps' t' (tr ++ tr') /\ Forall (fun p => exists c r, p = Done c r) ps'.
Proof.
  revert ps t tr. induction n as [|n IH]; intros ps t tr Hsys Hn;
    destruct (table_inv _ _ _ _ _ Hsys) as [[v I] _]; (destruct (decide (sum_list_with work ps = 0%nat)) as [Hz|Hz]; [|try lia]).
  1, 2: exists ps, t, []; rewrite app_nil_r; split; [done|]; apply Forall_forall; intros p Hp;
    apply list_elem_of_lookup_1 in Hp as [i Hi]; apply work_done;
    [exact (Forall_lookup_1 _ _ _ _ (ri_range _ _ _ _ _ I) Hi) | rewrite (sum_delete work _ _ _ Hi) in Hz; lia].
  destruct (sum_positive _ _ Hz) as (i & p & Hi & Hp).
  destruct (progress ps t i p) as (j & q & q' & t' & e & Hj & Hm & Hlt); try apply I; try done.
  pose proof (sum_insert work ps j q q' Hj) as Hsum.
  destruct (IH _ _ _ (sys_step _ _ _ _ _ _ _ _ _ _ Hsys Hj Hm)) as (ps' & t2 & tr2 & Hs2 & Hd); [lia|].
  exists ps', t2, (match e with Some a => [(j, a)] | None => [] end ++ tr2). by rewrite app_assoc.
Qed.

(** C17 A replicated table behaves like one value.  For any calls on any CPUs and any
    interleaving of their steps: the answers, in the order in which they are decided,
    are those of a single copy that serves one call at a time; a call is decided at
    most once, by a step of its own, and has its answer in that history when it has
    returned; and while no update is being applied every copy is the current value.
    No call is ever blocked for good: whatever readers hold and however many writers
    are in the middle of taking their locks, there is a continuation in which every
    call returns. *)
Theorem linearizable calls v0 ps t tr : sys (W := W) calls v0 ps t tr ->
  NoDup (fst <$> tr) /\
  (forall i c r, ps !! i = Some (Done c r) -> (i, (c, r)) ∈ tr) /\
  (forall i c r, (i, (c, r)) ∈ tr -> exists cpu p, calls !! i = Some (cpu, c) /\ ps !! i = Some p /\ decided p = Some (c, r)) /\
  (exists v, legal v0 tr v /\ ((forall i j f, ps !! i <> Some (WApply j f)) -> vals t = replicate Lock.SHARDS v)) /\
  exists ps' t' tr', sys (W := W) calls v0 ps' t' (tr ++ tr') /\ Forall (fun p => exists c r, p = Done c r) ps'.
Proof.
  intros Hsys. destruct (single_copy _ _ _ _ _ Hsys) as (H1 & H2 & H3 & H4). split_and!; try done. by eapply finish.
Qed.
End proofs.

(** ** An example

    A counter: two writers add to it, a reader on CPU 3 reads it. *)
Definition demo_calls : list (nat * call Z Z) :=
  [(0%nat, CWrite (fun v => (v + 1, v))); (1%nat, CWrite (fun v => (v + 10, v))); (3%nat, CRead (fun v => v))].

Lemma schedule_reaches {W} `{SpinLock W} {T R} (calls : list (nat * call T R)) v0 ix ps (t : Table W T) tr ps' t' tr' :
  sys calls v0 ps t tr -> schedule ix ps t tr = Some (ps', t', tr') -> sys calls v0 ps' t' tr'.
Proof.
  revert ps t tr. induction ix as [|i ix IH]; intros ps t tr Hs He; simpl in He; [by simplify_eq|].
  destruct (ps !! i) as [p|] eqn:Hi; [|done]. simpl in He. destruct (micro p t) as [[[p1 t1] e]|] eqn:Hm; [|done].
  eapply IH; [|exact He]. by eapply sys_step.
Qed.

(** The first writer has all the locks and updated four copies when the others start. *)
Definition demo_ix : list nat := replicate 12 0%nat ++ [1; 2; 1; 2]%nat ++ replicate 12 0%nat ++ [2; 2; 2]%nat.

Definition demo_end : option (list (proc Z Z) * Table Counted Z * list (nat * (call Z Z * Z))) :=
  schedule demo_ix ((fun '(cpu, c) => start cpu c) <$> demo_calls) (new_site 5) [].

Lemma linearizable_witness : exists ps t tr, demo_end = Some (ps, t, tr) /\ (snd ∘ snd <$> tr) = [5; 6] /\ NoDup (fst <$> tr) /\
  exists ps' t' tr', sys (W := Counted) demo_calls 5 ps' t' (tr ++ tr') /\ Forall (fun p => exists c r, p = Done c r) ps'.
Proof.
  eexists _, _, _. split; [vm_compute; reflexivity|]. split; [reflexivity|].
  edestruct (linearizable demo_calls 5 (W := Counted)) as (H1 & _ & _ & _ & H2); [|split; [exact H1 | exact H2]].
  eapply (schedule_reaches _ _ demo_ix); [apply sys_start|]. vm_compute. reflexivity.
Defined.

End ReadMostly.
