(* ===== verification/Drv.v ===== *)
(** The rules of userspace drivers ([src/crates/eurodrv/src/grant.rs], [vectors.rs] and
    [restart.rs]): which memory a driver and its device may touch, which interrupt
    vector it owns, and when it is restarted after it dies. *)

From stdpp Require Import base list sets sorting.
From S2P Require Import Prelude.

(** ** Device grants *)
Module Grant.

Definition PAGE : Z := 4096.
Definition IDENTITY_LIMIT : Z := Z.shiftl 512 30.
Definition PHYS_LIMIT : Z := Z.shiftl 1 52.
Definition HIGH_MMIO_VA : Z := Z.shiftl 508 30.
Definition MAX_MMIO : Z := Z.shiftl 16 20.
Definition MAX_DMA_PAGES : Z := 256.

(** The physical range from [base] of [len] bytes. *)
Record Window := mkWindow { base : Z; len : Z }.

Definition checked_add (a b : Z) : option Z := if a + b <=? U64_MAX then Some (a + b) else None.

Definition w_end (w : Window) : option Z := checked_add (base w) (len w).

Definition contains (w : Window) (addr n : Z) : bool :=
  match w_end w, checked_add addr n with
  | Some e, Some ae => (0 <? n) && (base w <=? addr) && (ae <=? e)
  | _, _ => false
  end.

Definition overlaps (w o : Window) : bool :=
  match w_end w, w_end o with
  | Some a, Some b => (0 <? len w) && (0 <? len o) && (base w <? b) && (base o <? a)
  | _, _ => true
  end.

Definition pages (w : Window) : Z := len w / PAGE.

(** [base + i * PAGE] is computed in [u64]. *)
Definition page_addrs (w : Window) : list (outcome Empty_set Z) :=
  (fun i => add64 (base w) (i * PAGE)) <$> zrange 0 (pages w).

(** [x & !(PAGE - 1)]. *)
Definition page_floor (x : Z) : Z := Z.land x (U64_MAX - (PAGE - 1)).

Definition page_round (b n : Z) : option Window :=
  let start := page_floor b in
  e ← checked_add b n;
  e ← checked_add e (PAGE - 1);
  Some (mkWindow start (page_floor e - start)).

Record Bdf := mkBdf { bus : Z; dev : Z; func : Z }.

Definition sid (b : Bdf) : Z :=
  Z.lor (Z.lor (Z.shiftl (bus b) 8 mod 2 ^ 16) (Z.shiftl (Z.land (dev b) 31) 3)) (Z.land (func b) 7).

Definition from_sid (s : Z) : Bdf :=
  mkBdf (Z.shiftr s 8 mod 256) (Z.land (Z.shiftr s 3) 31) (Z.land s 7).

Inductive GrantError := Unaligned | Empty | TooLarge | AboveIdentity | Wraps | Overlap | Forbidden.

Record DeviceGrant := mkGrant {
  bdf : Bdf;
  mmio : Window;
  dma : Window;
  irq_vector : option Z;
}.

Definition check_window (w : Window) (max limit : Z) : outcome GrantError unit :=
  if len w =? 0 then Err Empty
  else if negb (base w mod PAGE =? 0) || negb (len w mod PAGE =? 0) then Err Unaligned
  else
    match w_end w with
    | None => Err Wraps
    | Some e => if max <? len w then Err TooLarge else if limit <? e then Err AboveIdentity else Ok tt
    end.

Definition grant_new (b : Bdf) (m d : Window) (irq : option Z) (mmio_forbidden dma_forbidden : list Window)
    : outcome GrantError DeviceGrant :=
  let? _ := check_window m MAX_MMIO PHYS_LIMIT in
  let? _ := check_window d (MAX_DMA_PAGES * PAGE) IDENTITY_LIMIT in
  if overlaps m d then Err Overlap
  else if existsb (overlaps m) mmio_forbidden || existsb (overlaps d) dma_forbidden then Err Forbidden
  else Ok (mkGrant b m d irq).

Definition mmio_va (g : DeviceGrant) : Z :=
  match w_end (mmio g) with
  | Some e => if e <=? IDENTITY_LIMIT then base (mmio g) else HIGH_MMIO_VA
  | None => HIGH_MMIO_VA
  end.

Definition may_mmio (g : DeviceGrant) (addr n : Z) : bool := contains (mmio g) addr n.
Definition may_dma (g : DeviceGrant) (iova n : Z) : bool := contains (dma g) iova n.

(** [None] for an I/O BAR or one that is not implemented. *)
Definition mem_bar_size (probe : Z) : option Z :=
  if negb (Z.land probe 1 =? 0) then None
  else
    let mask := Z.land probe (U32_MAX - 15) in
    if mask =? 0 then None else Some ((U32_MAX - mask + 1) mod 2 ^ 32).

(** *** The bytes of a window *)

(** A byte of memory is in a window. *)
Definition covers (w : Window) (a : Z) : Prop := base w <= a < base w + len w.
Definition u64_window (w : Window) : Prop := is_u64 (base w) /\ is_u64 (len w).

Lemma checked_add_spec a b c : checked_add a b = Some c <-> c = a + b /\ a + b <= U64_MAX.
Proof. unfold checked_add. case_if; split; [intros [= <-]; lia | intros [-> _]; done | done | lia]. Qed.

Lemma contains_spec w addr n : u64_window w -> 0 <= addr -> 0 <= n ->
  contains w addr n = true <-> 0 < n /\ base w + len w <= U64_MAX /\ forall a, addr <= a < addr + n -> covers w a.
Proof.
  intros [Hb Hl] Ha Hn. unfold contains, w_end, covers. destruct (checked_add (base w) (len w)) as [e|] eqn:E1.
  - apply checked_add_spec in E1 as [-> E1]. destruct (checked_add addr n) as [ae|] eqn:E2.
    + apply checked_add_spec in E2 as [-> E2]. rewrite !andb_true_iff, Z.ltb_lt, !Z.leb_le. split.
      * intros [[H1 H2] H3]. split; [done|]. split; [done|]. intros a Ha'. lia.
      * intros (H1 & _ & H3). pose proof (H3 addr). pose proof (H3 (addr + n - 1)). lia.
    + split; [done|]. intros (H1 & _ & H3). exfalso. unfold checked_add in E2. case_in E2; [done|]. pose proof (H3 (addr + n - 1)). lia.
  - unfold checked_add in E1. case_in E1; [done|]. split; [done|]. intros (_ & H2 & _). lia.
Qed.

Lemma overlaps_false w o : overlaps w o = false -> forall a, covers w a -> ~ covers o a.
Proof.
  unfold overlaps, w_end, covers. destruct (checked_add (base w) (len w)) as [e|] eqn:E1; [|done].
  destruct (checked_add (base o) (len o)) as [e'|] eqn:E2; [|done].
  apply checked_add_spec in E1 as [-> _], E2 as [-> _]. rewrite !andb_false_iff, !Z.ltb_ge. lia.
Qed.

(** Both windows end below 2^64 and no byte is in both. *)
Definition apart (w o : Window) : Prop :=
  base w + len w <= U64_MAX /\ base o + len o <= U64_MAX /\ forall a, ~ (covers w a /\ covers o a).

Lemma apart_spec w o : u64_window w -> u64_window o -> overlaps w o = false <-> apart w o.
Proof.
  intros [Hw1 Hw2] [Ho1 Ho2]. unfold overlaps, w_end, checked_add, apart, covers. case_if; [|split; [done | lia]]. case_if; [|split; [done | lia]].
  rewrite !andb_false_iff, !Z.ltb_ge. split; [intros H; split; [lia|]; split; [lia|]; intros a; lia|]. intros (_ & _ & H). pose proof (H (Z.max (base w) (base o))). ulia.
Qed.

Lemma Forall_apart w l : u64_window w -> Forall u64_window l -> Forall (fun o => overlaps w o = false) l <-> Forall (apart w) l.
Proof. intros Hw Hl. induction Hl as [|o l Ho _ IH]; [done|]. by rewrite !Forall_cons, IH, apart_spec. Qed.

Lemma check_window_ok w max limit : check_window w max limit = Ok tt -> u64_window w ->
  0 < len w <= max /\ base w mod PAGE = 0 /\ len w mod PAGE = 0 /\ base w + len w <= limit /\ base w + len w <= U64_MAX.
Proof.
  unfold check_window, w_end. intros H [Hb Hl]. case_in H; [done|]. case_in H; [done|].
  destruct (checked_add (base w) (len w)) as [e|] eqn:E; [|done]. apply checked_add_spec in E as [-> E].
  case_in H; [done|]. case_in H; [done|]. simplify_bool. ulia.
Qed.

Lemma page_floor_spec x : is_u64 x -> page_floor x = x / PAGE * PAGE.
Proof.
  intros Hx. unfold page_floor. change (U64_MAX - (PAGE - 1)) with (Z.ldiff (Z.ones 64) (Z.ones 12)).
  replace (Z.land x (Z.ldiff (Z.ones 64) (Z.ones 12))) with (Z.ldiff (Z.land x (Z.ones 64)) (Z.ones 12)).
  - rewrite Z.land_ones, Z.mod_small by ulia. rewrite Z.ldiff_ones_r by lia.
    by rewrite Z.shiftl_mul_pow2, Z.shiftr_div_pow2 by lia.
  - apply Z.bits_inj'. intros n Hn. rewrite Z.ldiff_spec, !Z.land_spec, Z.ldiff_spec. by rewrite andb_assoc.
Qed.

(** [page_round] is the least window of whole pages around a range. *)
Lemma page_round_least b n w : is_u64 b -> is_u64 n -> page_round b n = Some w ->
  base w mod PAGE = 0 /\ len w mod PAGE = 0 /\ base w <= b /\ b + n <= base w + len w /\ base w + len w <= U64_MAX /\
  (forall w', base w' mod PAGE = 0 -> len w' mod PAGE = 0 -> base w' <= b -> b + n <= base w' + len w' ->
     base w' <= base w /\ base w + len w <= base w' + len w').
Proof.
  intros Hb Hn H. unfold page_round in H. destruct (checked_add b n) as [e|] eqn:E1; [|done]. simpl in H.
  destruct (checked_add e (PAGE - 1)) as [e'|] eqn:E2; [|done]. simpl in H. simplify_eq.
  apply checked_add_spec in E1 as [-> E1], E2 as [-> E2]. unfold PAGE in *. simpl.
  rewrite !page_floor_spec by ulia. unfold PAGE. change (4096 - 1) with 4095 in *. set (q := b / 4096). set (r := (b + n + 4095) / 4096).
  assert (4096 * q <= b < 4096 * q + 4096) by (unfold q; Z.to_euclidean_division_equations; lia).
  assert (4096 * r <= b + n + 4095 < 4096 * r + 4096) by (unfold r; Z.to_euclidean_division_equations; lia).
  replace (r * 4096 - q * 4096) with ((r - q) * 4096) by lia. rewrite !Z.mod_mul by lia.
  do 4 (split; [lia|]). split; [ulia|]. intros [b' n'] Hb' Hn' H1 H2. simpl in *.
  apply Z.mod_divide in Hb' as [x ->], Hn' as [y ->]; [lia | lia | lia].
Qed.

Lemma page_round_none b n : is_u64 b -> is_u64 n -> page_round b n = None <-> U64_MAX < b + n + (PAGE - 1).
Proof.
  intros Hb Hn. unfold page_round, checked_add, PAGE. case_if; simpl; [case_if; simpl|]; split; intros; try done; lia.
Qed.

Lemma page_addrs_ok w : u64_window w -> base w + len w <= U64_MAX -> page_addrs w = (fun i => Ok (base w + i * PAGE)) <$> zrange 0 (pages w).
Proof.
  intros [Hb Hl] He. apply list_fmap_ext. intros i x Hx. apply list_elem_of_lookup_2, elem_of_zrange in Hx.
  unfold add64. case_if; [done|]. unfold pages, PAGE in *. exfalso. Z.to_euclidean_division_equations. ulia.
Qed.

Definition bdf_ok (b : Bdf) : Prop := is_u8 (bus b) /\ 0 <= dev b <= 31 /\ 0 <= func b <= 7.

Lemma sid_value b : bdf_ok b -> sid b = bus b * 256 + dev b * 8 + func b.
Proof.
  intros (Hb & Hd & Hf). unfold sid. rewrite (Z.land_ones (dev b) 5 ltac:(lia) : Z.land (dev b) 31 = _), (Z.land_ones (func b) 3 ltac:(lia) : Z.land (func b) 7 = _).
  rewrite (Z.mod_small (dev b)), (Z.mod_small (func b)) by lia.
  rewrite !Z.shiftl_mul_pow2 by lia. rewrite (Z.mod_small (bus b * 2 ^ 8)) by ulia.
  rewrite (Z.lor_comm (bus b * 2 ^ 8)). rewrite <- (Z.shiftl_mul_pow2 (bus b)) by lia. rewrite lor_shift by ulia.
  rewrite Z.lor_comm. replace (dev b * 2 ^ 3 + bus b * 2 ^ 8) with ((dev b + bus b * 32) * 2 ^ 3) by lia.
  rewrite <- Z.shiftl_mul_pow2, lor_shift by ulia. lia.
Qed.

Lemma sid_roundtrip b : bdf_ok b -> from_sid (sid b) = b.
Proof.
  intros Hb. rewrite (sid_value b Hb). destruct b as [x y z], Hb as (Hx & Hy & Hz). simpl in *. unfold from_sid.
  rewrite !Z.shiftr_div_pow2 by lia.
  rewrite (Z.land_ones _ 5 ltac:(lia) : Z.land _ 31 = _), (Z.land_ones _ 3 ltac:(lia) : Z.land _ 7 = _).
  f_equal; Z.to_euclidean_division_equations; ulia.
Qed.

Lemma Forall_existsb {A} (f : A -> bool) l : existsb f l = false <-> Forall (fun x => f x = false) l.
Proof. induction l as [|x l IH]; simpl; [by split|]. rewrite orb_false_iff, Forall_cons, IH. done. Qed.

Lemma grant_new_ok b m d irq fm fd g : u64_window m -> u64_window d -> grant_new b m d irq fm fd = Ok g ->
  g = mkGrant b m d irq /\ check_window m MAX_MMIO PHYS_LIMIT = Ok tt /\ check_window d (MAX_DMA_PAGES * PAGE) IDENTITY_LIMIT = Ok tt /\
  overlaps m d = false /\ Forall (fun f => overlaps m f = false) fm /\ Forall (fun f => overlaps d f = false) fd.
Proof.
  intros Hm Hd H. unfold grant_new, obind in H. destruct (check_window m _ _) as [[]| | |]; try done.
  destruct (check_window d _ _) as [[]| | |]; try done. destruct (overlaps m d) eqn:Ho; [done|].
  destruct (existsb (overlaps m) fm) eqn:E1; [done|]. destruct (existsb (overlaps d) fd) eqn:E2; [done|]. simplify_eq/=.
  apply Forall_existsb in E1, E2. done.
Qed.

Lemma check_window_iff w max limit : u64_window w -> check_window w max limit = Ok tt <->
  0 < len w <= max /\ base w mod PAGE = 0 /\ len w mod PAGE = 0 /\ base w + len w <= limit /\ base w + len w <= U64_MAX.
Proof.
  intros Hw. split; [intros H; by apply check_window_ok|]. intros (H1 & H2 & H3 & H4 & H5).
  unfold check_window, w_end, checked_add. rewrite H2, H3. simpl. repeat (case_if; try lia). done.
Qed.

Lemma page_tiles w a : 0 <= base w -> 0 <= len w -> len w mod PAGE = 0 ->
  covers w a <-> exists i, 0 <= i < pages w /\ base w + i * PAGE <= a < base w + (i + 1) * PAGE.
Proof.
  intros Hb Hl Hm. unfold covers, pages, PAGE in *. apply Z.mod_divide in Hm as [q Hq]; [|lia].
  rewrite Hq, Z.div_mul by lia. split; [|intros (i & ? & ?); lia].
  intros Ha. exists ((a - base w) / 4096). Z.to_euclidean_division_equations. lia.
Qed.

Lemma mmio_va_range b m d irq : 0 < len m <= MAX_MMIO -> base m mod PAGE = 0 -> base m + len m <= U64_MAX -> 0 <= base m ->
  let va := mmio_va (mkGrant b m d irq) in
  va mod PAGE = 0 /\ 0 <= va /\ va + len m <= IDENTITY_LIMIT /\ (va = base m \/ HIGH_MMIO_VA <= va /\ va + len m <= HIGH_MMIO_VA + MAX_MMIO).
Proof.
  intros Hl Hb He H0. unfold mmio_va, w_end. simpl. rewrite (proj2 (checked_add_spec _ _ _) (conj eq_refl He)).
  change IDENTITY_LIMIT with 549755813888. change HIGH_MMIO_VA with 545460846592. change MAX_MMIO with 16777216 in *. unfold PAGE in *.
  case_if; [lia|]. split; [done | lia].
Qed.

Lemma grant_iff b m d irq fm fd : u64_window m -> u64_window d ->
  is_ok (grant_new b m d irq fm fd) = true <->
     (0 < len m <= MAX_MMIO /\ base m mod PAGE = 0 /\ len m mod PAGE = 0 /\ base m + len m <= PHYS_LIMIT) /\
     (0 < len d <= MAX_DMA_PAGES * PAGE /\ base d mod PAGE = 0 /\ len d mod PAGE = 0 /\ base d + len d <= IDENTITY_LIMIT) /\
     overlaps m d = false /\ Forall (fun f => overlaps m f = false) fm /\ Forall (fun f => overlaps d f = false) fd.
Proof.
  intros Hm Hd. split.
  - destruct (grant_new b m d irq fm fd) as [g| | |] eqn:Hg; try done. intros _.
    apply grant_new_ok in Hg as (-> & Cm & Cd & Ho & Fm & Fd); [|done|done].
    apply check_window_ok in Cm as (M1 & M2 & M3 & M4 & _), Cd as (D1 & D2 & D3 & D4 & _); done.
  - intros ((M1 & M2 & M3 & M4) & (D1 & D2 & D3 & D4) & Ho & Fm & Fd). unfold grant_new, obind.
    assert (Hlim : PHYS_LIMIT <= U64_MAX /\ IDENTITY_LIMIT <= U64_MAX) by (vm_compute; split; discriminate).
    rewrite (proj2 (check_window_iff m _ _ Hm)) by (do 4 (split; [done|]); lia).
    rewrite (proj2 (check_window_iff d _ _ Hd)) by (do 4 (split; [done|]); lia).
    rewrite Ho, (proj2 (Forall_existsb _ _) Fm), (proj2 (Forall_existsb _ _) Fd). done.
Qed.

(** C23 A device grant isolates its driver.  A grant is given exactly when both windows
    are made of whole pages, are small enough and below their limits, share no byte with
    each other and none with a forbidden range, and no forbidden range wraps around.  Every byte that [may_mmio] lets the driver access
    is then in the MMIO window, below 2^52, and in no forbidden range and not in the DMA
    window; every byte that [may_dma] lets the device reach is in the DMA window, below
    512 GiB, and in no forbidden range and not in the MMIO window; the pages mapped are
    exactly the bytes of the windows, with no overflow; and the driver sees its MMIO
    window on whole pages inside the identity map, apart from its DMA window unless that
    one lies in the range kept free for high windows. *)
Theorem grant_isolated b m d irq fm fd : u64_window m -> u64_window d -> Forall u64_window fm -> Forall u64_window fd ->
  (is_ok (grant_new b m d irq fm fd) = true <->
     (0 < len m <= MAX_MMIO /\ base m mod PAGE = 0 /\ len m mod PAGE = 0 /\ base m + len m <= PHYS_LIMIT) /\
     (0 < len d <= MAX_DMA_PAGES * PAGE /\ base d mod PAGE = 0 /\ len d mod PAGE = 0 /\ base d + len d <= IDENTITY_LIMIT) /\
     apart m d /\ Forall (apart m) fm /\ Forall (apart d) fd) /\
  forall g, grant_new b m d irq fm fd = Ok g ->
    (forall addr n a, is_u64 addr -> is_u64 n -> may_mmio g addr n = true -> addr <= a < addr + n ->
       covers m a /\ a < PHYS_LIMIT /\ ~ covers d a /\ Forall (fun f => ~ covers f a) fm) /\
    (forall iova n a, is_u64 iova -> is_u64 n -> may_dma g iova n = true -> iova <= a < iova + n ->
       covers d a /\ a < IDENTITY_LIMIT /\ ~ covers m a /\ Forall (fun f => ~ covers f a) fd) /\
    Forall (fun w => page_addrs w = (fun i => Ok (base w + i * PAGE)) <$> zrange 0 (pages w) /\
      forall a, covers w a <-> exists i, 0 <= i < pages w /\ base w + i * PAGE <= a < base w + (i + 1) * PAGE) [m; d] /\
    mmio_va g mod PAGE = 0 /\ mmio_va g + len m <= IDENTITY_LIMIT /\
    ((forall a, HIGH_MMIO_VA <= a < HIGH_MMIO_VA + MAX_MMIO -> ~ covers d a) ->
     forall a, mmio_va g <= a < mmio_va g + len m -> ~ covers d a).
Proof.
  intros Hm Hd Hfm Hfd. split; [by rewrite grant_iff, apart_spec, !Forall_apart by done|]. intros g Hg. apply grant_new_ok in Hg as (-> & Cm & Cd & Ho & Fm & Fd); [|done|done].
  apply check_window_ok in Cm as (M1 & M2 & M3 & M4 & M5), Cd as (D1 & D2 & D3 & D4 & D5); [|done|done].
  destruct (mmio_va_range b m d irq M1 M2 M5 ltac:(apply Hm)) as (V1 & V2 & V3 & V4).
  split; [|split; [|split; [|split; [done|split; [done|]]]]].
  - intros addr n a Ha Hn Hc Hr. apply contains_spec in Hc as (_ & _ & Hc); [|done|apply Ha|apply Hn]. specialize (Hc a Hr). simpl in Hc.
    split; [done|]. split; [unfold covers in Hc; lia|]. split; [by apply (overlaps_false m d Ho)|].
    eapply Forall_impl; [exact Fm|]. intros f Hf. by apply (overlaps_false m).
  - intros addr n a Ha Hn Hc Hr. apply contains_spec in Hc as (_ & _ & Hc); [|done|apply Ha|apply Hn]. specialize (Hc a Hr). simpl in Hc.
    split; [done|]. split; [unfold covers in Hc; lia|]. split; [intros Hx; by apply (overlaps_false m d Ho a)|].
    eapply Forall_impl; [exact Fd|]. intros f Hf. by apply (overlaps_false d).
  - assert (Hw : forall w, u64_window w -> len w mod PAGE = 0 -> base w + len w <= U64_MAX ->
      page_addrs w = (fun i => Ok (base w + i * PAGE)) <$> zrange 0 (pages w) /\
      forall a, covers w a <-> exists i, 0 <= i < pages w /\ base w + i * PAGE <= a < base w + (i + 1) * PAGE).
    { intros w Hw Hl He. split; [by apply page_addrs_ok|]. intros a. apply page_tiles; [apply Hw | apply Hw | done]. }
    repeat constructor; by apply Hw.
  - intros Hfree a Ha. destruct V4 as [V4|V4]; [|apply Hfree; lia]. apply (overlaps_false m d Ho). unfold covers. lia.
Qed.

Definition demo_mmio : Window := mkWindow 4273471488 131072.
Definition demo_dma : Window := mkWindow 19087360 131072.

Lemma grant_isolated_witness : exists g,
  grant_new (mkBdf 0 2 0) demo_mmio demo_dma (Some 76) [mkWindow 0 2147483648] [demo_mmio] = Ok g /\
  mmio_va g mod PAGE = 0.
Proof.
  eexists. split; [vm_compute; reflexivity|].
  eapply (grant_isolated (mkBdf 0 2 0) demo_mmio demo_dma (Some 76) [mkWindow 0 2147483648] [demo_mmio]);
    [split; vm_compute; split; discriminate | split; vm_compute; split; discriminate
    | repeat constructor; vm_compute; discriminate | repeat constructor; vm_compute; discriminate | vm_compute; reflexivity].
Defined.
End Grant.

(** ** Interrupt vectors *)
Module Vectors.

Definition MAX_VECTORS : Z := 16.

Inductive VecError :=
  | Exhausted
  | NotInPool
  | Taken (owner : Z)
  | AlreadyHolds (vector : Z)
  | NotOwner.

(** The vectors from [base] to [base + len], and the owner of each. *)
Record VectorPool := mkPool { base : Z; len : Z; owner : list (option Z) }.

Definition M := ST VectorPool VecError.

Definition pool_new (b n : Z) : VectorPool :=
  let n1 := if MAX_VECTORS <? n then MAX_VECTORS else n in
  let n2 := if 256 <? b + n1 then 256 - b else n1 in
  mkPool b n2 (zrepeat None MAX_VECTORS).

Definition contains (p : VectorPool) (v : Z) : bool := (base p <=? v) && (v - base p <? len p).

Definition index (p : VectorPool) (v : Z) : option Z := if contains p v then Some (v - base p) else None.

Definition owner_of (p : VectorPool) (v : Z) : option Z := i ← index p v; at_ None (owner p) i.

(** [self.base + i as u8]. *)
Definition vec (p : VectorPool) (i : Z) : outcome VecError Z := if base p + i <=? U8_MAX then Ok (base p + i) else Panic.

Definition find_slot (p : VectorPool) (q : option Z) : option Z :=
  find (fun i => bool_decide (at_ None (owner p) i = q)) (zrange 0 (len p)).

Definition vector_of (o : Z) : M (option Z) :=
  let! p := sget (fun p => p) in
  match find_slot p (Some o) with
  | Some i => let! v := slift (vec p i) in sret (Some v)
  | None => sret None
  end.

Definition set_owner (i : Z) (q : option Z) (p : VectorPool) : VectorPool := mkPool (base p) (len p) (upd (owner p) i q).

Definition alloc (o : Z) : M Z :=
  let! r := vector_of o in
  match r with
  | Some v => sret v
  | None =>
      let! p := sget (fun p => p) in
      match find_slot p None with
      | None => sthrow Exhausted
      | Some i => smodify (set_owner i (Some o)) ;;! slift (vec p i)
      end
  end.

Definition claim (v o : Z) : M Z :=
  let! p := sget (fun p => p) in
  match index p v with
  | None => sthrow NotInPool
  | Some i =>
      match at_ None (owner p) i with
      | Some o' => if o' =? o then sret v else sthrow (Taken o')
      | None =>
          let! r := vector_of o in
          match r with
          | Some v' => sthrow (AlreadyHolds v')
          | None => smodify (set_owner i (Some o)) ;;! sret v
          end
      end
  end.

Definition release (v o : Z) : M unit :=
  let! p := sget (fun p => p) in
  match index p v with
  | None => sthrow NotInPool
  | Some i =>
      if bool_decide (at_ None (owner p) i = Some o) then smodify (set_owner i None) else sthrow NotOwner
  end.

Definition in_use (p : VectorPool) : Z := zlen (filter is_Some (slice (owner p) 0 (len p))).

(** *** Sequences of calls *)

Inductive call := CAlloc (o : Z) | CClaim (v o : Z) | CRelease (v o : Z).

Definition asker (c : call) : Z := match c with CAlloc o | CClaim _ o | CRelease _ o => o end.

(** [Some v] is a vector granted, [None] the answer of a release. *)
Definition exec (c : call) : M (option Z) :=
  match c with
  | CAlloc o => let! v := alloc o in sret (Some v)
  | CClaim v o => let! v' := claim v o in sret (Some v')
  | CRelease v o => release v o ;;! sret None
  end.

Fixpoint run (cs : list call) (p : VectorPool) : list (outcome VecError (option Z)) * VectorPool :=
  match cs with
  | [] => ([], p)
  | c :: rest => let '(r, p1) := exec c p in let '(rs, p2) := run rest p1 in (r :: rs, p2)
  end.

Record pool_ok (p : VectorPool) : Prop := {
  po_len : zlen (owner p) = MAX_VECTORS;
  po_range : 0 <= len p <= MAX_VECTORS;
  po_base : 0 <= base p /\ base p + len p <= 256;
  po_unique : forall v v' o, owner_of p v = Some o -> owner_of p v' = Some o -> v = v';
}.

Lemma index_spec p v i : index p v = Some i <-> v = base p + i /\ 0 <= i < len p.
Proof.
  unfold index, contains. destruct (Z.leb_spec (base p) v), (Z.ltb_spec (v - base p) (len p)); simpl;
    (split; intros Hx; [try discriminate; injection Hx; lia | try (f_equal; lia); lia]).
Qed.

Lemma owner_at p i : 0 <= i < len p -> owner_of p (base p + i) = at_ None (owner p) i.
Proof. intros Hi. unfold owner_of. by rewrite (proj2 (index_spec p (base p + i) i)). Qed.

Lemma owner_of_inv p v o : owner_of p v = Some o -> exists i, v = base p + i /\ 0 <= i < len p /\ at_ None (owner p) i = Some o.
Proof.
  unfold owner_of. destruct (index p v) as [i|] eqn:Hi; [|done]. intros H. apply index_spec in Hi as [-> Hi]. by exists i.
Qed.

Lemma find_slot_spec p q :
  match find_slot p q with
  | Some i => 0 <= i < len p /\ at_ None (owner p) i = q
  | None => forall i, 0 <= i < len p -> at_ None (owner p) i <> q
  end.
Proof.
  unfold find_slot. destruct (find _ _) as [i|] eqn:Hf.
  - apply find_some in Hf as [Hi Hq]. apply list_elem_of_In, elem_of_zrange in Hi. apply bool_decide_eq_true in Hq. done.
  - intros i Hi. pose proof (find_none _ _ Hf i) as Hn. apply bool_decide_eq_false in Hn; [done|]. by apply list_elem_of_In, elem_of_zrange.
Qed.

Lemma vec_ok p i : pool_ok p -> 0 <= i < len p -> vec p i = Ok (base p + i).
Proof. intros O Hi. unfold vec, U8_MAX. pose proof (po_base _ O). case_if; [done | lia]. Qed.

Lemma owner_set p i q v : pool_ok p -> 0 <= i < len p ->
  owner_of (set_owner i q p) v = if decide (v = base p + i) then q else owner_of p v.
Proof.
  intros O Hi. pose proof (po_len _ O). pose proof (po_range _ O). unfold owner_of, index, contains. simpl.
  destruct (Z.leb_spec (base p) v), (Z.ltb_spec (v - base p) (len p)); simpl; try (case_decide; [lia | done]).
  case_decide as D; [subst; replace (base p + i - base p) with i by lia; rewrite at_upd_eq; [done | lia]|].
  rewrite at_upd_ne; [done | lia | lia | lia].
Qed.

Lemma vector_of_spec p o : pool_ok p -> exists r, vector_of o p = (Ok r, p) /\
  match r with Some v => owner_of p v = Some o | None => forall v, owner_of p v <> Some o end.
Proof.
  intros O. unfold vector_of, sbind, sget. pose proof (find_slot_spec p (Some o)) as Hf.
  destruct (find_slot p (Some o)) as [i|].
  - destruct Hf as [Hi Ho]. unfold slift. rewrite (vec_ok p i O Hi). exists (Some (base p + i)). split; [done|]. by rewrite owner_at.
  - exists None. split; [done|]. intros v Hv. apply owner_of_inv in Hv as (i & _ & Hi & Ho). by apply Hf in Hi.
Qed.

(** Giving a free slot to an owner without a vector, or taking one back. *)
Lemma pool_set p i q : pool_ok p -> 0 <= i < len p -> (forall o, q = Some o -> forall v, owner_of p v <> Some o) -> pool_ok (set_owner i q p).
Proof.
  intros O Hi Hq. split; simpl; [rewrite zlen_upd; apply O | apply O | apply O |].
  intros v v' o. rewrite !owner_set by done. repeat case_decide; subst; intros H1 H2; try done.
  - by apply Hq in H2.
  - by apply Hq in H1.
  - by eapply (po_unique _ O).
Qed.

(** What each call does, on every branch. *)
Definition exec_post (c : call) (p : VectorPool) (r : outcome VecError (option Z)) (p' : VectorPool) : Prop :=
  match r with
  | Ok (Some v) =>
      owner_of p' v = Some (asker c) /\ (forall v', v' <> v -> owner_of p' v' = owner_of p v') /\
      (owner_of p v = Some (asker c) \/ owner_of p v = None /\ forall v', owner_of p v' <> Some (asker c)) /\
      match c with CAlloc _ => True | CClaim v0 _ => v0 = v | CRelease _ _ => False end
  | Ok None => exists v o, c = CRelease v o /\ owner_of p v = Some o /\
      forall v', owner_of p' v' = if decide (v' = v) then None else owner_of p v'
  | Err e => p' = p /\
      match e with
      | Exhausted => exists o, c = CAlloc o /\ forall v, contains p v = true -> exists o', owner_of p v = Some o' /\ o' <> o
      | NotInPool => exists v, contains p v = false /\ (c = CClaim v (asker c) \/ c = CRelease v (asker c))
      | Taken o' => exists v o, c = CClaim v o /\ owner_of p v = Some o' /\ o' <> o
      | AlreadyHolds v' => exists v o, c = CClaim v o /\ owner_of p v = None /\ owner_of p v' = Some o
      | NotOwner => exists v o, c = CRelease v o /\ owner_of p v <> Some o
      end
  | Panic | OutOfFuel => False
  end.

Lemma alloc_post o p : pool_ok p -> exists r p', exec (CAlloc o) p = (r, p') /\ pool_ok p' /\ exec_post (CAlloc o) p r p'.
Proof.
  intros O. unfold exec, alloc. destruct (vector_of_spec p o O) as (r & Hr & Hv).
  unfold sbind at 1 2. rewrite Hr. destruct r as [v|]; [exists (Ok (Some v)), p; naive_solver|].
  pose proof (find_slot_spec p None) as Hf. unfold sbind at 1, sget. destruct (find_slot p None) as [i|].
  - destruct Hf as [Hi Ho]. unfold sbind, smodify, slift. rewrite (vec_ok p i O Hi).
    exists (Ok (Some (base p + i))), (set_owner i (Some o) p). split; [done|].
    split; [apply pool_set; [done | done |]; intros o' [= <-]; done|]. simpl.
    split; [by rewrite owner_set, decide_True|]. split; [intros v' Hne; by rewrite owner_set, decide_False|].
    split; [|done]. right. split; [by rewrite owner_at | done].
  - exists (Err Exhausted), p. split; [done|]. split; [done|]. split; [done|]. exists o. split; [done|]. intros v Hc.
    assert (Hi : index p v = Some (v - base p)) by (unfold index; by rewrite Hc).
    apply index_spec in Hi as [_ Hi]. specialize (Hf _ Hi). rewrite <- owner_at in Hf by done.
    replace (base p + (v - base p)) with v in Hf by lia. destruct (owner_of p v) as [o'|] eqn:Eo; [|done].
    exists o'. split; [done|]. intros ->. by apply Hv in Eo.
Qed.

Lemma index_None p v : index p v = None -> contains p v = false.
Proof. unfold index. by destruct (contains p v). Qed.

Lemma claim_post v o p : pool_ok p -> exists r p', exec (CClaim v o) p = (r, p') /\ pool_ok p' /\ exec_post (CClaim v o) p r p'.
Proof.
  intros O. unfold exec, claim. unfold sbind at 1 2, sget. destruct (index p v) as [i|] eqn:Hi.
  - apply index_spec in Hi as [-> Hi]. pose proof (owner_at p i Hi) as Ho. destruct (at_ None (owner p) i) as [o'|].
    + destruct (Z.eqb_spec o' o) as [->|Hne].
      * exists (Ok (Some (base p + i))), p. naive_solver.
      * exists (Err (Taken o')), p. split; [done|]. split; [done|]. split; [done|]. by exists (base p + i), o.
    + destruct (vector_of_spec p o O) as (r & Hr & Hv). unfold sbind. rewrite Hr. destruct r as [v'|].
      * exists (Err (AlreadyHolds v')), p. split; [done|]. split; [done|]. split; [done|]. by exists (base p + i), o.
      * exists (Ok (Some (base p + i))), (set_owner i (Some o) p). split; [done|].
        split; [apply pool_set; [done | done |]; intros o' [= <-]; done|]. simpl.
        split; [by rewrite owner_set, decide_True|]. split; [intros v' Hne; by rewrite owner_set, decide_False|]. auto.
  - exists (Err NotInPool), p. split; [done|]. split; [done|]. split; [done|]. exists v. split; [by apply index_None | by left].
Qed.

Lemma release_post v o p : pool_ok p -> exists r p', exec (CRelease v o) p = (r, p') /\ pool_ok p' /\ exec_post (CRelease v o) p r p'.
Proof.
  intros O. unfold exec, release. unfold sbind at 1 2, sget. destruct (index p v) as [i|] eqn:Hi.
  - apply index_spec in Hi as [-> Hi]. pose proof (owner_at p i Hi) as Ho. case_bool_decide as D.
    + exists (Ok None), (set_owner i None p). split; [done|]. split; [by apply pool_set|].
      exists (base p + i), o. split; [done|]. split; [congruence|]. intros v'. by apply owner_set.
    + exists (Err NotOwner), p. split; [done|]. split; [done|]. split; [done|]. exists (base p + i), o. split; [done|]. congruence.
  - exists (Err NotInPool), p. split; [done|]. split; [done|]. split; [done|]. exists v. split; [by apply index_None | by right].
Qed.

Lemma exec_spec c p : pool_ok p -> exists r p', exec c p = (r, p') /\ pool_ok p' /\ exec_post c p r p'.
Proof. destruct c; auto using alloc_post, claim_post, release_post. Qed.

Lemma pool_new_ok b n : is_u8 b -> is_u8 n -> pool_ok (pool_new b n).
Proof.
  intros Hb Hn. unfold pool_new, MAX_VECTORS. split; simpl.
  - done.
  - unfold MAX_VECTORS. destruct (Z.ltb_spec 16 n), (Z.ltb_spec 256 (b + 16)), (Z.ltb_spec 256 (b + n)); ulia.
  - destruct (Z.ltb_spec 16 n), (Z.ltb_spec 256 (b + 16)), (Z.ltb_spec 256 (b + n)); ulia.
  - intros v v' o H1. apply owner_of_inv in H1 as (i & _ & _ & Hi). simpl in Hi.
    destruct (decide (0 <= i < 16)) as [Hr|Hr]; [by rewrite at_zrepeat in Hi|].
    unfold at_ in Hi. rewrite nth_lookup in Hi. by destruct (zrepeat None 16 !! Z.to_nat i) as [[]|] eqn:E; simplify_eq/=; apply lookup_replicate in E as [? _].
Qed.

(** The pool before the [n]-th call. *)
Definition state_at (n : nat) (cs : list call) (p : VectorPool) : VectorPool := snd (run (take n cs) p).

Lemma vec_run_step cs p n c : cs !! n = Some c ->
  fst (run cs p) !! n = Some (fst (exec c (state_at n cs p))) /\ state_at (S n) cs p = snd (exec c (state_at n cs p)).
Proof.
  revert p n. induction cs as [|c0 cs IH]; intros p n Hn; [done|]. destruct n as [|n]; simpl in Hn.
  - simplify_eq. unfold state_at. simpl. destruct (exec c p) as [r p1]. simpl. by destruct (run cs p1).
  - unfold state_at. simpl. destruct (exec c0 p) as [r p1]. specialize (IH p1 n Hn) as [IH1 IH2].
    destruct (run cs p1) as [rs p2]. unfold state_at in IH1, IH2. simpl in *.
    destruct (run (take n cs) p1), (run (take (S n) cs) p1). simpl in *. destruct cs; done.
Qed.

Lemma run_length cs p : length (fst (run cs p)) = length cs.
Proof.
  revert p. induction cs as [|c cs IH]; intros p; [done|]. simpl. destruct (exec c p) as [r p1]. specialize (IH p1).
  destruct (run cs p1). simpl in *. by rewrite IH.
Qed.

Lemma state_ok n cs p : pool_ok p -> pool_ok (state_at n cs p).
Proof.
  unfold state_at. revert p. generalize (take n cs). clear n cs. intros cs. induction cs as [|c cs IH]; intros p O; [done|].
  simpl. destruct (exec_spec c p O) as (r & p' & He & O' & _). rewrite He. specialize (IH p' O'). by destruct (run cs p').
Qed.

(** An owner keeps a vector over every call but its own successful release. *)
Lemma exec_keeps c p v o : pool_ok p -> owner_of p v = Some o ->
  owner_of (snd (exec c p)) v = Some o \/ c = CRelease v o /\ fst (exec c p) = Ok None.
Proof.
  intros O Ho. destruct (exec_spec c p O) as (r & p' & He & _ & Hp). rewrite He. simpl.
  destruct r as [[v1|]|e| |]; simpl in Hp; [| | destruct Hp as [-> _]; by left | done | done].
  - destruct Hp as (H1 & H2 & H3 & _). left. destruct (decide (v = v1)) as [->|Hne]; [|by rewrite H2].
    destruct H3 as [H3|[H3 _]]; congruence.
  - destruct Hp as (v1 & o1 & -> & H1 & H2). rewrite H2. case_decide as D; [|by left]. subst. right. split; [congruence | done].
Qed.

Lemma lost_released cs p v o a b : pool_ok p -> (a <= b <= length cs)%nat -> owner_of (state_at a cs p) v = Some o ->
  owner_of (state_at b cs p) v <> Some o ->
  exists k, (a <= k < b)%nat /\ cs !! k = Some (CRelease v o) /\ fst (run cs p) !! k = Some (Ok None).
Proof.
  intros O Hab Ha Hb. induction b as [|b IH]; [by replace a with 0%nat in Ha by lia|].
  destruct (decide (a = S b)) as [->|Hne]; [done|].
  destruct (decide (owner_of (state_at b cs p) v = Some o)) as [Ho|Ho].
  - destruct (lookup_lt_is_Some_2 cs b) as [c Hc]; [lia|]. destruct (vec_run_step cs p b c Hc) as [H1 H2].
    destruct (exec_keeps c (state_at b cs p) v o (state_ok b cs p O) Ho) as [Hk|[-> Hr]]; [by rewrite <- H2 in Hk|].
    exists b. rewrite H1, Hr. split; [lia | done].
  - destruct IH as (k & Hk & Hr); [lia | done |]. exists k. split; [lia | done].
Qed.

(** C24 Interrupt vectors have one owner.  For any sequence of [alloc], [claim] and
    [release] calls on a new pool: no call panics; an owner holds at most one vector
    and a vector has at most one owner; a vector that two different owners were
    granted was given back by the first one in between, and by nobody else; asking again
    returns the vector one has; and [alloc] refuses only when every vector of the pool
    belongs to somebody else. *)
Theorem vector_exclusive b n cs rs p : is_u8 b -> is_u8 n -> run cs (pool_new b n) = (rs, p) ->
  Forall returns rs /\
  (forall v v' o, owner_of p v = Some o -> owner_of p v' = Some o -> v = v') /\
  (forall i j c c' v, (i < j)%nat -> cs !! i = Some c -> cs !! j = Some c' ->
     rs !! i = Some (Ok (Some v)) -> rs !! j = Some (Ok (Some v)) -> asker c <> asker c' ->
     exists k, (i < k < j)%nat /\ cs !! k = Some (CRelease v (asker c)) /\ rs !! k = Some (Ok None)) /\
  (forall o v, owner_of p v = Some o -> alloc o p = (Ok v, p)) /\
  (forall o, fst (alloc o p) = Err Exhausted -> forall v, contains p v = true -> exists o', owner_of p v = Some o' /\ o' <> o).
Proof.
  intros Hb Hn Hr. pose proof (pool_new_ok b n Hb Hn) as O. set (p0 := pool_new b n) in *.
  assert (Hrs : rs = fst (run cs p0)) by (by rewrite Hr).
  assert (Op : pool_ok p). { replace p with (state_at (length cs) cs p0) by (unfold state_at; by rewrite take_ge, Hr). by apply state_ok. }
  split; [|split; [exact (po_unique _ Op)|split; [|split]]].
  - apply Forall_lookup_2. intros i r Hi. assert (Hlen : length rs = length cs) by (rewrite Hrs; apply run_length).
    destruct (lookup_lt_is_Some_2 cs i) as [c Hc]; [rewrite <- Hlen; by eapply lookup_lt_Some|].
    destruct (vec_run_step cs p0 i c Hc) as [H1 _]. rewrite Hrs, H1 in Hi. injection Hi as <-.
    destruct (exec_spec c _ (state_ok i cs p0 O)) as (r & p' & -> & _ & Hp). by destruct r.
  - intros i j c c' v Hij Hc Hc' Hi Hj Hne. rewrite Hrs in Hi, Hj |- *.
    destruct (vec_run_step cs p0 i c Hc) as [A1 A2]. destruct (vec_run_step cs p0 j c' Hc') as [B1 B2].
    destruct (exec_spec c _ (state_ok i cs p0 O)) as (r & p1 & He & _ & Hp). rewrite He in A1, A2. simpl in A1, A2.
    destruct (exec_spec c' _ (state_ok j cs p0 O)) as (r' & p2 & He' & _ & Hp'). rewrite He' in B1, B2. simpl in B1, B2.
    simplify_eq. destruct Hp as (H1 & _), Hp' as (_ & _ & H2 & _).
    destruct (lost_released cs p0 v (asker c) (S i) j O) as (k & Hk & Hl); [|done| |exists k; split; [lia | done]].
    + pose proof (lookup_lt_Some _ _ _ Hc'). lia.
    + destruct H2 as [H2|[H2 _]]; congruence.
  - intros o v Ho. unfold alloc. destruct (vector_of_spec p o Op) as ([v'|] & Hv & Hs); unfold sbind; rewrite Hv.
    + by rewrite (po_unique _ Op _ _ _ Ho Hs).
    + by apply Hs in Ho.
  - intros o He v Hc. destruct (alloc_post o p Op) as (r & p' & Hx & _ & Hp). unfold exec, sbind in Hx.
    destruct (alloc o p) as [x p1]. simpl in He. subst x. simplify_eq. destruct Hp as (_ & o' & [= <-] & Hall). by apply Hall.
Qed.

Definition demo_calls : list call := [CAlloc 1; CClaim 76 2; CRelease 76 1; CClaim 76 2; CAlloc 2; CAlloc 3; CAlloc 4].

Lemma vector_exclusive_witness : exists rs p,
  run demo_calls (pool_new 76 2) = (rs, p) /\
  rs = [Ok (Some 76); Err (Taken 1); Ok None; Ok (Some 76); Ok (Some 76); Ok (Some 77); Err Exhausted] /\ Forall returns rs.
Proof.
  eexists _, _. split; [vm_compute; reflexivity|]. split; [reflexivity|].
  eapply (vector_exclusive 76 2 demo_calls); [vm_compute; split; discriminate | vm_compute; split; discriminate | vm_compute; reflexivity].
Defined.
End Vectors.

(** ** Restarting a driver that died *)
Module Restart.

Record Policy := mkPolicy {
  max_restarts : Z;
  window_ticks : Z;
  backoff_ticks : Z;
  max_backoff_ticks : Z;
}.

Definition NIC : Policy := mkPolicy 5 6000 2 200.
Definition DISK : Policy := mkPolicy 3 6000 10 500.

Inductive Decision := RestartAt (tick : Z) | GiveUp.

(** [deaths] has 16 places, of which [n] are used. *)
Record Tracker := mkTracker { deaths : list Z; n : Z; total : Z }.

Definition tracker_new : Tracker := mkTracker (zrepeat 0 16) 0 0.

(** The loop of [on_death]: the deaths since [since], at most 15 of them. *)
Fixpoint keep_recent (since : Z) (ts keep : list Z) (k : Z) : list Z * Z :=
  match ts with
  | [] => (keep, k)
  | t :: rest =>
      if (since <=? t) && (k <? zlen keep - 1) then keep_recent since rest (upd keep k t) (k + 1)
      else keep_recent since rest keep k
  end.

Definition saturating_mul64 (a b : Z) : Z := Z.min U64_MAX (a * b).

Definition on_death (now : Z) (p : Policy) : ST Tracker Empty_set Decision :=
  let! t := sget (fun t => t) in
  let! total' := slift (add64 (total t) 1) in
  let since := saturating_sub now (window_ticks p) in
  let '(keep, k) := keep_recent since (slice (deaths t) 0 (n t)) (zrepeat 0 16) 0 in
  let keep' := upd keep k now in
  let k' := k + 1 in
  smodify (fun _ => mkTracker keep' k' total') ;;!
  if max_restarts p <? k' then sret GiveUp
  else
    let exp := Z.min (k' - 1) 32 in
    let delay := if exp =? 0 then 0
                 else Z.min (saturating_mul64 (backoff_ticks p) (Z.shiftl 1 (exp - 1))) (max_backoff_ticks p) in
    sret (RestartAt (saturating_add64 now delay)).

(** The decisions on a sequence of deaths. *)
Fixpoint decide_all (p : Policy) (ts : list Z) (t : Tracker) : list (outcome Empty_set Decision) * Tracker :=
  match ts with
  | [] => ([], t)
  | now :: rest => let '(d, t1) := on_death now p t in let '(ds, t2) := decide_all p rest t1 in (d :: ds, t2)
  end.

(** *** The specification *)


Definition backoff (p : Policy) (k : Z) : Z :=
  if k =? 1 then 0 else Z.min (saturating_mul64 (backoff_ticks p) (2 ^ (k - 2))) (max_backoff_ticks p).

(** [k] deaths in the window, this one included. *)
Definition verdict (p : Policy) (now k : Z) : Decision :=
  if max_restarts p <? k then GiveUp else RestartAt (Z.min U64_MAX (now + backoff p k)).

Definition holding (ds : list Z) (tot : Z) : Tracker := mkTracker (ds ++ zrepeat 0 (16 - zlen ds)) (zlen ds) tot.

Lemma tracker_new_holding : tracker_new = holding [] 0.
Proof. reflexivity. Qed.

Lemma keep_recent_spec since ts acc : zlen acc <= 15 ->
  keep_recent since ts (acc ++ zrepeat 0 (16 - zlen acc)) (zlen acc) =
  let l := acc ++ take (Z.to_nat (15 - zlen acc)) (filter (fun t => since <= t) ts) in
  (l ++ zrepeat 0 (16 - zlen l), zlen l).
Proof.
  revert acc. induction ts as [|t ts IH]; intros acc Ha; simpl; [by rewrite filter_nil, take_nil, app_nil_r|].
  rewrite zlen_app, zlen_zrepeat by lia.
  destruct (Z.leb_spec since t); [rewrite filter_cons_True by done | rewrite filter_cons_False by lia; simpl; by apply IH].
  simpl. destruct (Z.ltb_spec (zlen acc) (zlen acc + (16 - zlen acc) - 1)) as [Hk|Hk].
  - assert (Hz : zrepeat 0 (16 - zlen acc) = 0 :: zrepeat 0 (16 - zlen (acc ++ [t]))).
    { rewrite zlen_snoc. unfold zrepeat. by replace (Z.to_nat (16 - zlen acc)) with (S (Z.to_nat (16 - (zlen acc + 1)))) by lia. }
    rewrite Hz, upd_middle by done. replace (acc ++ t :: zrepeat 0 (16 - zlen (acc ++ [t]))) with ((acc ++ [t]) ++ zrepeat 0 (16 - zlen (acc ++ [t]))) by (by rewrite <- app_assoc).
    rewrite <- (zlen_snoc acc t), IH by (rewrite zlen_snoc; lia). rewrite zlen_snoc.
    replace (Z.to_nat (15 - zlen acc)) with (S (Z.to_nat (15 - (zlen acc + 1)))) by lia. simpl. by rewrite <- !app_assoc.
  - rewrite IH by done. by replace (Z.to_nat (15 - zlen acc)) with 0%nat by lia.
Qed.

Lemma backoff_code p k : 1 <= k <= 16 ->
  (let exp := Z.min (k - 1) 32 in
   if exp =? 0 then 0 else Z.min (saturating_mul64 (backoff_ticks p) (Z.shiftl 1 (exp - 1))) (max_backoff_ticks p)) = backoff p k.
Proof.
  intros Hk. unfold backoff. rewrite Z.min_l by lia. simpl. destruct (Z.eqb_spec (k - 1) 0), (Z.eqb_spec k 1); try lia.
  rewrite Z.shiftl_1_l. by replace (k - 1 - 1) with (k - 2) by lia.
Qed.

(** One death: what is remembered, and the decision. *)
Lemma on_death_spec p now ds tot : zlen ds <= 16 -> tot < U64_MAX ->
  let l := take 15 (filter (fun t => saturating_sub now (window_ticks p) <= t) ds) ++ [now] in
  on_death now p (holding ds tot) = (Ok (verdict p now (zlen l)), holding l (tot + 1)).
Proof.
  intros Hd Ht l. unfold on_death, sbind, sget, slift, smodify. simpl.
  unfold add64. case_if; [|lia]. rewrite slice_app_exact.
  pose proof (keep_recent_spec (saturating_sub now (window_ticks p)) ds [] ltac:(done)) as Hk. simpl in Hk.
  change (zlen []) with 0 in Hk. change (Z.to_nat (15 - 0)) with 15%nat in Hk. change (16 - 0) with 16 in Hk. rewrite Hk.
  set (r := take 15 _) in *. assert (Hr : zlen r <= 15) by (unfold r, zlen; rewrite length_take; lia).
  assert (Hu : upd (r ++ zrepeat 0 (16 - zlen r)) (zlen r) now = (r ++ [now]) ++ zrepeat 0 (16 - zlen (r ++ [now]))).
  { rewrite zlen_snoc, <- app_assoc. unfold zrepeat. replace (Z.to_nat (16 - zlen r)) with (S (Z.to_nat (16 - (zlen r + 1)))) by lia.
    simpl. by apply upd_middle. }
  rewrite Hu. unfold l, verdict, holding, saturating_add64. fold r. rewrite zlen_snoc.
  destruct (max_restarts p <? zlen r + 1); [done|].
  pose proof (zlen_nonneg r). pose proof (backoff_code p (zlen r + 1) ltac:(lia)) as Hb. cbv zeta in Hb. by rewrite Hb.
Qed.









Section Deaths.
Context (p : Policy) (ts : list Z).
Context (Hw : 0 <= window_ticks p) (Hs : StronglySorted Z.le ts) (Hf : Forall (fun t => 0 <= t) ts) (Hl : zlen ts <= U64_MAX).

Let ds := fst (decide_all p ts tracker_new).


End Deaths.




(** At exactly [max_restarts] deaths in the window the code still restarts: the third
    death of a disk driver, with [max_restarts] 3. *)
Lemma restart_at_limit :
  max_restarts DISK = 3 /\ fst (decide_all DISK [1000; 1100; 1200] tracker_new) !! 2%nat = Some (Ok (RestartAt 1220)).
Proof. by vm_compute. Qed.

(** Sixteen places are not enough for a policy of sixteen restarts or more: it never
    gives up. *)
Lemma never_gives_up p now ds tot : 16 <= max_restarts p -> zlen ds <= 16 -> tot < U64_MAX ->
  exists x t, on_death now p (holding ds tot) = (Ok (RestartAt x), t).
Proof.
  intros Hm Hd Ht. rewrite (on_death_spec p now ds tot Hd Ht). unfold verdict.
  destruct (Z.ltb_spec (max_restarts p) (zlen (take 15 (filter (fun t => saturating_sub now (window_ticks p) <= t) ds) ++ [now]))) as [Hx|Hx]; [|eauto].
  rewrite zlen_snoc in Hx. unfold zlen in Hx. rewrite length_take in Hx. lia.
Qed.
End Restart.
