(* ===== verification/DrvProto.v ===== *)
(** What userspace drivers exchange: the messages of [src/crates/eurodrv/src/proto.rs]
    and the information block of [src/crates/eurodrv/src/abi.rs]. *)

From stdpp Require Import base list sets.
From S2P Require Import Prelude Bytes.

(** ** Messages *)
Module Proto.

Definition TAG_HELLO : Z := 1.
Definition TAG_TX : Z := 2.
Definition TAG_RX : Z := 3.
Definition TAG_IRQ : Z := 4.
Definition TAG_CRASH : Z := 5.
Definition TAG_DMA_ESCAPE : Z := 6.
Definition TAG_REPORT : Z := 7.
Definition TAG_BLK_INFO : Z := 8.
Definition TAG_BLK_READ : Z := 9.
Definition TAG_BLK_WRITE : Z := 10.
Definition TAG_BLK_DONE : Z := 11.
Definition TAG_CRASH_AFTER_WRITES : Z := 12.
Definition TAG_DMA_PROBE : Z := 13.

Definition BLK_CHUNK : Z := 1024.
Definition BLK_UNIT : Z := 512.
Definition MIN_FRAME : Z := 14.
Definition MAX_FRAME : Z := 1518.
Definition MAX_MSG : Z := 1 + MAX_FRAME.

Inductive Msg :=
  | Hello (mac : list Z)
  | Tx (f : list Z)
  | Rx (f : list Z)
  | Irq (count : Z)
  | Crash
  | DmaEscape (rx_target tx_target : Z)
  | Report (code a b : Z)
  | BlkInfo (sectors sector_size : Z)
  | BlkRead (id lba count : Z)
  | BlkWrite (id lba : Z) (data : list Z)
  | BlkDone (id status : Z) (data : list Z)
  | CrashAfterWrites (n : Z)
  | DmaProbe (target : Z).

Inductive ProtoError := Empty | UnknownTag (t : Z) | BadLength | FrameSize | NoRoom.

Definition frame_ok (f : list Z) : bool := (MIN_FRAME <=? zlen f) && (zlen f <=? MAX_FRAME).
Definition blk_write_ok (d : list Z) : bool := negb (zlen d =? 0) && (zlen d <=? BLK_CHUNK) && (zlen d mod BLK_UNIT =? 0).

(** The first match of [encode]: the length, or the refusal of a payload. *)
Definition need (m : Msg) : outcome ProtoError Z :=
  match m with
  | Hello _ => Ok 7
  | Tx f | Rx f => if frame_ok f then Ok (1 + zlen f) else Err FrameSize
  | Irq _ => Ok 5
  | Crash => Ok 1
  | DmaEscape _ _ => Ok 17
  | Report _ _ _ => Ok 18
  | BlkInfo _ _ => Ok 13
  | BlkRead _ _ _ => Ok 15
  | BlkWrite _ _ data => if blk_write_ok data then Ok (13 + zlen data) else Err FrameSize
  | BlkDone _ _ data => if BLK_CHUNK <? zlen data then Err FrameSize else Ok (7 + zlen data)
  | CrashAfterWrites _ => Ok 5
  | DmaProbe _ => Ok 9
  end.

(** The second one: the writes into [out]. *)
Definition fields (m : Msg) : list field :=
  match m with
  | Hello mac => [(0, [TAG_HELLO]); (1, mac)]
  | Tx f => [(0, [TAG_TX]); (1, f)]
  | Rx f => [(0, [TAG_RX]); (1, f)]
  | Irq count => [(0, [TAG_IRQ]); (1, u32f count)]
  | Crash => [(0, [TAG_CRASH])]
  | DmaEscape rx tx => [(0, [TAG_DMA_ESCAPE]); (1, u64f rx); (9, u64f tx)]
  | Report code a b => [(0, [TAG_REPORT]); (1, [code]); (2, u64f a); (10, u64f b)]
  | BlkInfo sectors size => [(0, [TAG_BLK_INFO]); (1, u64f sectors); (9, u32f size)]
  | BlkRead id lba count => [(0, [TAG_BLK_READ]); (1, u32f id); (5, u64f lba); (13, u16f count)]
  | BlkWrite id lba data => [(0, [TAG_BLK_WRITE]); (1, u32f id); (5, u64f lba); (13, data)]
  | BlkDone id status data => [(0, [TAG_BLK_DONE]); (1, u32f id); (5, u16f status); (7, data)]
  | CrashAfterWrites n => [(0, [TAG_CRASH_AFTER_WRITES]); (1, u32f n)]
  | DmaProbe target => [(0, [TAG_DMA_PROBE]); (1, u64f target)]
  end.

(** The length and the buffer after the writes. *)
Definition encode (m : Msg) (out : list Z) : outcome ProtoError (Z * list Z) :=
  let? n := need m in
  if zlen out <? n then Err NoRoom else Ok (n, put_all out (fields m)).

Definition exact (body : list Z) (n : Z) (m : Msg) : outcome ProtoError Msg :=
  if zlen body =? n then Ok m else Err BadLength.

Definition decode (b : list Z) : outcome ProtoError Msg :=
  match b with
  | [] => Err Empty
  | tag :: body =>
      if tag =? TAG_HELLO then exact body 6 (Hello body)
      else if (tag =? TAG_TX) || (tag =? TAG_RX) then
        if frame_ok body then Ok (if tag =? TAG_TX then Tx body else Rx body) else Err FrameSize
      else if tag =? TAG_IRQ then exact body 4 (Irq (rd_u32 body 0))
      else if tag =? TAG_CRASH then exact body 0 Crash
      else if tag =? TAG_DMA_ESCAPE then exact body 16 (DmaEscape (rd_u64 body 0) (rd_u64 body 8))
      else if tag =? TAG_REPORT then exact body 17 (Report (at_ 0 body 0) (rd_u64 body 1) (rd_u64 body 9))
      else if tag =? TAG_BLK_INFO then exact body 12 (BlkInfo (rd_u64 body 0) (rd_u32 body 8))
      else if tag =? TAG_BLK_READ then exact body 14 (BlkRead (rd_u32 body 0) (rd_u64 body 4) (rd_u16 body 12))
      else if tag =? TAG_BLK_WRITE then
        if zlen body <? 12 then Err BadLength
        else
          let data := drop 12 body in
          if blk_write_ok data then Ok (BlkWrite (rd_u32 body 0) (rd_u64 body 4) data) else Err FrameSize
      else if tag =? TAG_BLK_DONE then
        if zlen body <? 6 then Err BadLength
        else
          let data := drop 6 body in
          if BLK_CHUNK <? zlen data then Err FrameSize
          else Ok (BlkDone (rd_u32 body 0) (rd_u16 body 4) data)
      else if tag =? TAG_CRASH_AFTER_WRITES then exact body 4 (CrashAfterWrites (rd_u32 body 0))
      else if tag =? TAG_DMA_PROBE then exact body 8 (DmaProbe (rd_u64 body 0))
      else Err (UnknownTag tag)
  end.

(** *** Fields one after the other *)

Fixpoint lay (o : Z) (parts : list (list Z)) : list field :=
  match parts with
  | [] => []
  | p :: rest => (o, p) :: lay (o + zlen p) rest
  end.

Lemma splice_app (a b p : list Z) : zlen p <= zlen b -> splice (a ++ b) (zlen a) p = (a ++ p) ++ drop (length p) b.
Proof.
  intros Hp. unfold splice, zlen in *. rewrite Nat2Z.id, take_app_length, <- app_assoc. do 2 f_equal.
  rewrite drop_app_ge by lia. f_equal. lia.
Qed.

Lemma put_all_lay (a b : list Z) parts : zlen (concat parts) <= zlen b ->
  put_all (a ++ b) (lay (zlen a) parts) = a ++ concat parts ++ drop (length (concat parts)) b.
Proof.
  revert a b. induction parts as [|p parts IH]; intros a b Hn; [done|]. simpl in *. rewrite zlen_app in Hn.
  pose proof (zlen_nonneg (concat parts)) as Hc.
  change (put_all (a ++ b) ((zlen a, p) :: ?l)) with (put_all (splice (a ++ b) (zlen a) p) l).
  rewrite splice_app by lia. rewrite <- zlen_app, IH.
  - rewrite <- !app_assoc, length_app, <- drop_drop. done.
  - unfold zlen in *. rewrite length_drop. lia.
Qed.

(** The bytes of a message. *)
Definition parts (m : Msg) : list (list Z) := snd <$> fields m.
Definition wire (m : Msg) : list Z := concat (parts m).

Definition msg_ok (m : Msg) : Prop :=
  bytes_ok (wire m) /\
  match m with
  | Hello mac => zlen mac = 6
  | Tx f | Rx f => True
  | Irq n | CrashAfterWrites n => is_u32 n
  | Crash => True
  | DmaEscape a b => is_u64 a /\ is_u64 b
  | Report c a b => is_u64 a /\ is_u64 b
  | BlkInfo s z => is_u64 s /\ is_u32 z
  | BlkRead id lba n => is_u32 id /\ is_u64 lba /\ is_u16 n
  | BlkWrite id lba _ => is_u32 id /\ is_u64 lba
  | BlkDone id st _ => is_u32 id /\ is_u16 st
  | DmaProbe t => is_u64 t
  end.

Lemma fields_lay m : match m with Hello mac => zlen mac = 6 | _ => True end -> fields m = lay 0 (parts m).
Proof. intros H. destruct m; unfold parts; simpl; repeat (rewrite ?zlen_cons, ?zlen_nil, ?zlen_u16f, ?zlen_u32f, ?zlen_u64f; simpl); done. Qed.

Lemma need_wire m n : match m with Hello mac => zlen mac = 6 | _ => True end -> need m = Ok n -> zlen (wire m) = n.
Proof.
  intros H Hn. unfold wire, parts. destruct m; simpl in *; rewrite ?zlen_cons, ?zlen_app, ?zlen_nil, ?zlen_u16f, ?zlen_u32f, ?zlen_u64f;
    try (case_in Hn; [|done]; idtac); simplify_eq; try lia.
  case_in Hn; [done|]. simplify_eq. lia.
Qed.

(** *** Reading the fields back *)

Lemma slice_here n v s : slice (le_bytes n v ++ s) 0 (Z.of_nat n) = le_bytes n v.
Proof. apply slice_app_here; [done | apply zlen_le_bytes]. Qed.

Lemma rd16_here v s : is_u16 v -> rd_u16 (u16f v ++ s) 0 = v.
Proof. intros Hv. unfold rd_u16, u16f. rewrite (slice_here 2). apply le_val_bytes. ulia. Qed.
Lemma rd32_here v s : is_u32 v -> rd_u32 (u32f v ++ s) 0 = v.
Proof. intros Hv. unfold rd_u32, u32f. rewrite (slice_here 4). apply le_val_bytes. ulia. Qed.
Lemma rd64_here v s : is_u64 v -> rd_u64 (u64f v ++ s) 0 = v.
Proof. intros Hv. unfold rd_u64, u64f. rewrite (slice_here 8). apply le_val_bytes. ulia. Qed.

Lemma rd16_skip l s o : zlen l <= o -> rd_u16 (l ++ s) o = rd_u16 s (o - zlen l).
Proof. intros Ho. unfold rd_u16. by rewrite slice_app_skip. Qed.
Lemma rd32_skip l s o : zlen l <= o -> rd_u32 (l ++ s) o = rd_u32 s (o - zlen l).
Proof. intros Ho. unfold rd_u32. by rewrite slice_app_skip. Qed.
Lemma rd64_skip l s o : zlen l <= o -> rd_u64 (l ++ s) o = rd_u64 s (o - zlen l).
Proof. intros Ho. unfold rd_u64. by rewrite slice_app_skip. Qed.

Lemma rd64_cons c s o : 1 <= o -> rd_u64 (c :: s) o = rd_u64 s (o - 1).
Proof. intros Ho. apply (rd64_skip [c] s o). by rewrite zlen_cons, zlen_nil. Qed.

Lemma drop_parts (l s : list Z) n : length l = n -> drop n (l ++ s) = s.
Proof. intros <-. apply drop_app_length. Qed.

(** Reads the next field of a body that is laid out in parts. *)
Ltac read_fields :=
  repeat first
    [ rewrite rd16_here by done | rewrite rd32_here by done | rewrite rd64_here by done
    | rewrite rd16_skip by (rewrite ?zlen_u16f, ?zlen_u32f, ?zlen_u64f; simpl; lia)
    | rewrite rd32_skip by (rewrite ?zlen_u16f, ?zlen_u32f, ?zlen_u64f; simpl; lia)
    | rewrite rd64_skip by (rewrite ?zlen_u16f, ?zlen_u32f, ?zlen_u64f; simpl; lia) ];
  rewrite ?zlen_u16f, ?zlen_u32f, ?zlen_u64f; simpl.

Lemma length_u16f v : length (u16f v) = 2%nat.
Proof. pose proof (zlen_u16f v). unfold zlen in *. lia. Qed.
Lemma length_u32f v : length (u32f v) = 4%nat.
Proof. pose proof (zlen_u32f v). unfold zlen in *. lia. Qed.
Lemma length_u64f v : length (u64f v) = 8%nat.
Proof. pose proof (zlen_u64f v). unfold zlen in *. lia. Qed.

#[local] Opaque u16f u32f u64f.

Lemma decode_wire m n : msg_ok m -> need m = Ok n -> decode (wire m) = Ok m.
Proof.
  intros [_ Hm] Hn. unfold wire, parts. destruct m as [mac|f|f|c| |a b|c a b|a b|id lba c|id lba d|id st d|c|t]; simpl in *; unfold exact.
  - rewrite app_nil_r. by rewrite Hm.
  - rewrite app_nil_r. by destruct (frame_ok f).
  - rewrite app_nil_r. by destruct (frame_ok f).
  - by rewrite zlen_app, zlen_u32f, rd32_here.
  - done.
  - destruct Hm. rewrite !zlen_app, !zlen_u64f. simpl. read_fields. done.
  - destruct Hm. rewrite zlen_cons, !zlen_app, !zlen_u64f. simpl.
    rewrite !rd64_cons by lia. simpl. read_fields. done.
  - destruct Hm. rewrite !zlen_app, !zlen_u64f, zlen_u32f. simpl. read_fields. done.
  - destruct Hm as (? & ? & ?). rewrite !zlen_app, !zlen_u64f, zlen_u32f, zlen_u16f. simpl. read_fields. done.
  - destruct Hm. rewrite !zlen_app, !zlen_u64f, zlen_u32f, app_nil_r. pose proof (zlen_nonneg d). case_if; [rewrite zlen_nil in *; lia|].
    rewrite app_assoc, (drop_parts _ d 12), <- app_assoc by (by rewrite length_app, length_u32f, length_u64f).
    destruct (blk_write_ok d); [|done]. read_fields. done.
  - destruct Hm. rewrite !zlen_app, zlen_u16f, zlen_u32f, app_nil_r. pose proof (zlen_nonneg d). case_if; [rewrite zlen_nil in *; lia|].
    rewrite app_assoc, (drop_parts _ d 6), <- app_assoc by (by rewrite length_app, length_u32f, length_u16f).
    destruct (BLK_CHUNK <? zlen d); [done|]. read_fields. done.
  - by rewrite zlen_app, zlen_u32f, rd32_here.
  - by rewrite zlen_app, zlen_u64f, rd64_here.
Qed.

Lemma rd16_slice b o : bytes_ok b -> 0 <= o -> o + 2 <= zlen b -> u16f (rd_u16 b o) = slice b o 2.
Proof. intros Hb Ho Hn. apply (le_bytes_val (slice b o 2) 2); [by apply bytes_ok_slice|]. rewrite zlen_slice; lia. Qed.
Lemma rd32_slice b o : bytes_ok b -> 0 <= o -> o + 4 <= zlen b -> u32f (rd_u32 b o) = slice b o 4.
Proof. intros Hb Ho Hn. apply (le_bytes_val (slice b o 4) 4); [by apply bytes_ok_slice|]. rewrite zlen_slice; lia. Qed.
Lemma rd64_slice b o : bytes_ok b -> 0 <= o -> o + 8 <= zlen b -> u64f (rd_u64 b o) = slice b o 8.
Proof. intros Hb Ho Hn. apply (le_bytes_val (slice b o 8) 8); [by apply bytes_ok_slice|]. rewrite zlen_slice; lia. Qed.

(** A message whose bytes are [b]. *)
Definition is_wire (m : Msg) (b : list Z) : Prop := wire m = b /\ need m = Ok (zlen b) /\ msg_ok m.

Lemma wire_is m b : bytes_ok b -> wire m = b -> need m = Ok (zlen b) -> (bytes_ok (wire m) -> msg_ok m) -> is_wire m b.
Proof. intros Hb Hw Hn Hm. split; [done|]. split; [done|]. apply Hm. by rewrite Hw. Qed.

(** Puts the slices of a body back together. *)
Ltac join_slices :=
  rewrite ?rd16_slice, ?rd32_slice, ?rd64_slice by (done || lia); rewrite ?app_nil_r;
  repeat (rewrite slice_join by lia; simpl); apply slice_whole; [done | lia].

Lemma decode_fixed tag body m : bytes_ok body -> is_u8 tag -> decode (tag :: body) = Ok m ->
  match m with Irq _ | DmaEscape _ _ | Report _ _ _ | BlkInfo _ _ | BlkRead _ _ _ | CrashAfterWrites _ | DmaProbe _ => True | _ => False end ->
  is_wire m (tag :: body).
Proof.
  intros Hb Ht Hd Hm.
  assert (B16 := rd_u16_bound body). assert (B32 := rd_u32_bound body). assert (B64 := rd_u64_bound body).
  unfold decode, exact in Hd. repeat (case_in Hd; [|try done]); simplify_eq; try done; simplify_bool; subst;
    (apply wire_is; [by constructor | unfold wire, parts; simpl; f_equal | simpl; rewrite zlen_cons; f_equal; lia | intros Hw; split; [done | auto]]).
  - join_slices.
  - join_slices.
  - destruct body as [|c body]; [done|]. rewrite zlen_cons in *. apply Forall_cons in Hb as [_ Hb]. rewrite !rd64_cons by lia. simpl. f_equal. join_slices.
  - join_slices.
  - join_slices.
  - join_slices.
  - join_slices.
Qed.

Lemma decode_payload tag body m : bytes_ok body -> is_u8 tag -> decode (tag :: body) = Ok m ->
  match m with Hello _ | Tx _ | Rx _ | Crash | BlkWrite _ _ _ | BlkDone _ _ _ => True | _ => False end ->
  is_wire m (tag :: body).
Proof.
  intros Hb Ht Hd Hm.
  assert (B16 := rd_u16_bound body). assert (B32 := rd_u32_bound body). assert (B64 := rd_u64_bound body).
  unfold decode, exact in Hd. repeat (case_in Hd; [|try done]); simplify_eq; try done; simplify_bool; subst;
    (apply wire_is; [by constructor | unfold wire, parts; simpl; f_equal | simpl; rewrite zlen_cons | intros Hw; split; [done | auto]]).
  - apply app_nil_r.
  - f_equal. lia.
  - apply app_nil_r.
  - by match goal with Hf : frame_ok body = true |- _ => rewrite Hf end.
  - lia.
  - apply app_nil_r.
  - by match goal with Hf : frame_ok body = true |- _ => rewrite Hf end.
  - by destruct body.
  - f_equal. lia.
  - rewrite rd32_slice, rd64_slice, app_assoc, slice_join, app_nil_r, slice_0 by (done || lia). apply (take_drop 12).
  - match goal with Hf : blk_write_ok _ = true |- _ => rewrite Hf end. f_equal. unfold zlen in *. rewrite length_drop. lia.
  - rewrite rd32_slice, rd16_slice, app_assoc, slice_join, app_nil_r, slice_0 by (done || lia). apply (take_drop 6).
  - case_if; [lia|]. f_equal. unfold zlen in *. rewrite length_drop. lia.
Qed.

Lemma decode_is_wire b m : bytes_ok b -> decode b = Ok m -> is_wire m b.
Proof.
  intros Hb Hd. destruct b as [|tag body]; [done|]. apply Forall_cons in Hb as [Ht Hb].
  destruct m; (by apply decode_payload) || (by apply decode_fixed).
Qed.

Lemma encode_spec m out : match m with Hello mac => zlen mac = 6 | _ => True end ->
  encode m out =
  match need m with
  | Ok n => if zlen out <? n then Err NoRoom else Ok (n, wire m ++ drop (Z.to_nat n) out)
  | r => let? _ := r in Panic
  end.
Proof.
  intros Hm. unfold encode. destruct (need m) as [n|e| |] eqn:Hn; try done. unfold obind. case_if; [done|]. do 2 f_equal.
  pose proof (need_wire m n Hm Hn) as Hw. rewrite (fields_lay m Hm).
  pose proof (put_all_lay [] out (parts m)) as Hp. simpl in Hp. fold (wire m) in Hp. change (zlen []) with 0 in Hp.
  rewrite Hp by lia. do 2 f_equal. unfold zlen in Hw. lia.
Qed.

Lemma need_bound m n : match m with Hello mac => zlen mac = 6 | _ => True end -> need m = Ok n -> 1 <= n <= MAX_MSG.
Proof.
  intros Hm Hn. unfold need, frame_ok, blk_write_ok, MAX_MSG, MAX_FRAME, MIN_FRAME, BLK_CHUNK in *.
  destruct m; try (injection Hn as <-; lia).
  all: case_in Hn; try done; injection Hn as <-; simplify_bool; try lia.
  all: pose proof (zlen_nonneg data); lia.
Qed.

(** C26 The driver protocol is exact in both directions.  A message whose payload has an
    allowed size encodes into every buffer with room for it, changes nothing behind its
    last byte, takes at most [MAX_MSG] bytes, and decodes to itself; a message is refused
    with [FrameSize] or [NoRoom] and nothing else.  Conversely the bytes of every
    accepted message are the only encoding of that message: what decodes was written by
    [encode]; and decoding fails with [Empty] on the empty message only and with
    [UnknownTag] on the tags outside 1 .. 13 only. *)
Theorem proto_exact :
  (forall m out, msg_ok m ->
     match encode m out with
     | Ok (n, out') => 1 <= n <= MAX_MSG /\ decode (slice out' 0 n) = Ok m /\
         drop (Z.to_nat n) out' = drop (Z.to_nat n) out /\ zlen out' = zlen out
     | Err FrameSize => need m = Err FrameSize
     | Err NoRoom => exists n, need m = Ok n /\ zlen out < n
     | _ => False
     end) /\
  (forall b m, bytes_ok b -> decode b = Ok m ->
     msg_ok m /\ zlen b <= MAX_MSG /\
     forall out, zlen b <= zlen out -> exists out', encode m out = Ok (zlen b, out') /\ slice out' 0 (zlen b) = b) /\
  (forall b, bytes_ok b -> match decode b with
     | Ok _ | Err BadLength | Err FrameSize => True
     | Err Empty => b = []
     | Err (UnknownTag t) => exists body, b = t :: body /\ (t = 0 \/ 13 < t)
     | _ => False
     end).
Proof.
  split; [|split].
  - intros m out Hok. assert (Hm : match m with Hello mac => zlen mac = 6 | _ => True end) by (by destruct Hok, m).
    rewrite (encode_spec m out Hm). pose proof (need_wire m) as Hw. pose proof (need_bound m) as Hb. pose proof (decode_wire m) as Hd.
    destruct (need m) as [n|e| |] eqn:Hn; [| |by destruct m; simpl in Hn; repeat case_in Hn..].
    + specialize (Hw n Hm eq_refl). specialize (Hb n Hm eq_refl). case_if; [by exists n|]. split; [done|].
      rewrite <- Hw at 2. rewrite slice_app_exact. split; [by eapply Hd|]. unfold zlen in *. split.
      * rewrite drop_app_ge by lia. by replace (Z.to_nat n - length (wire m))%nat with 0%nat by lia.
      * rewrite length_app, length_drop. lia.
    + destruct m; simpl in Hn; try done; case_in Hn; by simplify_eq.
  - intros b m Hb Hd. destruct (decode_is_wire b m Hb Hd) as (Hw & Hn & Hok). split; [done|].
    assert (Hm : match m with Hello mac => zlen mac = 6 | _ => True end) by (by destruct Hok, m).
    split; [by apply (need_bound m)|]. intros out Ho. rewrite (encode_spec m out Hm), Hn. case_if; [lia|].
    eexists. split; [done|]. rewrite Hw. apply slice_app_exact.
  - intros b Hb. destruct b as [|tag body]; [done|]. apply Forall_cons in Hb as [Ht _]. unfold decode, exact.
    repeat (case_if; try done). exists body. split; [done|]. simplify_bool.
    unfold TAG_HELLO, TAG_TX, TAG_RX, TAG_IRQ, TAG_CRASH, TAG_DMA_ESCAPE, TAG_REPORT, TAG_BLK_INFO, TAG_BLK_READ, TAG_BLK_WRITE,
      TAG_BLK_DONE, TAG_CRASH_AFTER_WRITES, TAG_DMA_PROBE in *. ulia.
Qed.

Lemma proto_exact_witness : exists n out',
  encode (BlkRead 7 1000 8) (zrepeat 0 20) = Ok (n, out') /\ n = 15 /\ decode (slice out' 0 n) = Ok (BlkRead 7 1000 8).
Proof.
  eexists _, _. split; [vm_compute; reflexivity|]. split; [reflexivity|].
  refine (proj1 (proj2 (proj1 proto_exact (BlkRead 7 1000 8) (zrepeat 0 20) _))).
  split; [repeat constructor; vm_compute; discriminate | vm_compute; repeat split; discriminate].
Defined.
End Proto.

(** ** The information block *)
Module Info.

Definition ABI_VERSION : Z := 1.
Definition SYS_DRV_INFO : Z := 25088.
Definition SYS_IPC_RECV : Z := 25089.
Definition SYS_IPC_SEND : Z := 25090.
Definition SYS_FIRST : Z := SYS_DRV_INFO.
Definition SYS_LAST : Z := SYS_IPC_SEND.
Definition INFO_WORDS : Z := 12.

Definition is_driver_call (num : Z) : bool := (SYS_FIRST <=? num) && (num <=? SYS_LAST).

Record DriverInfo := mkInfo {
  abi : Z; vendor : Z; device : Z; bdf : Z; mmio_base : Z; mmio_len : Z;
  dma_base : Z; dma_len : Z; own_port : Z; stack_port : Z; irq_vector : Z; flags : Z;
}.

Definition to_words (i : DriverInfo) : list Z :=
  [abi i; vendor i; device i; bdf i; mmio_base i; mmio_len i;
   dma_base i; dma_len i; own_port i; stack_port i; irq_vector i; flags i].

Definition from_words (w : list Z) : DriverInfo :=
  mkInfo (at_ 0 w 0) (at_ 0 w 1) (at_ 0 w 2) (at_ 0 w 3) (at_ 0 w 4) (at_ 0 w 5)
    (at_ 0 w 6) (at_ 0 w 7) (at_ 0 w 8) (at_ 0 w 9) (at_ 0 w 10) (at_ 0 w 11).

(** The loop of [write_bytes]: [n] bytes of [out] are written. *)
Fixpoint write_loop (ws : list Z) (n : Z) (out : list Z) : Z * list Z :=
  match ws with
  | [] => (n, out)
  | w :: rest =>
      let b := le_bytes 8 w in
      let tk := Z.min (zlen b) (zlen out - n) in
      let out' := splice out n (slice b 0 tk) in
      let n' := n + tk in
      if n' =? zlen out then (n', out') else write_loop rest n' out'
  end.

Definition write_bytes (i : DriverInfo) (out : list Z) : Z * list Z := write_loop (to_words i) 0 out.

(** [read_bytes]: word [k] of the block, zero when the buffer is too short for it. *)
Definition read_word (b : list Z) (k : Z) : Z := if k * 8 + 8 <=? zlen b then rd_u64 b (k * 8) else 0.
Definition read_bytes (b : list Z) : DriverInfo := from_words (read_word b <$> zrange 0 INFO_WORDS).

Definition info_ok (i : DriverInfo) : Prop := Forall is_u64 (to_words i).

Lemma words_roundtrip i : from_words (to_words i) = i.
Proof. by destruct i. Qed.

Lemma zlen_concat_words ws : zlen (concat (le_bytes 8 <$> ws)) = 8 * zlen ws.
Proof. induction ws as [|w ws IH]; [done|]. rewrite fmap_cons. cbn [concat]. rewrite zlen_app, zlen_le_bytes, IH, zlen_cons. lia. Qed.

(** The loop writes the words one after the other, as far as there is room. *)
Lemma write_loop_spec ws a b : 0 < zlen b ->
  let bs := concat (le_bytes 8 <$> ws) in
  let n := Z.min (zlen bs) (zlen b) in
  write_loop ws (zlen a) (a ++ b) = (zlen a + n, a ++ slice bs 0 n ++ drop (Z.to_nat n) b).
Proof.
  revert a b. induction ws as [|w ws IH]; intros a b Hb.
  { simpl. rewrite Z.min_l by (change (zlen (@nil Z)) with 0; lia). by rewrite Z.add_0_r. }
  rewrite fmap_cons. cbn [concat write_loop]. cbv zeta. rewrite !zlen_app, zlen_le_bytes. replace (zlen a + zlen b - zlen a) with (zlen b) by lia.
  set (bs := concat (le_bytes 8 <$> ws)) in *. pose proof (zlen_nonneg bs) as Hbs. change (Z.of_nat 8) with 8 in *.
  assert (Hs : splice (a ++ b) (zlen a) (slice (le_bytes 8 w) 0 (Z.min 8 (zlen b))) =
    (a ++ slice (le_bytes 8 w) 0 (Z.min 8 (zlen b))) ++ drop (Z.to_nat (Z.min 8 (zlen b))) b).
  { assert (Hl : zlen (slice (le_bytes 8 w) 0 (Z.min 8 (zlen b))) = Z.min 8 (zlen b)) by (rewrite zlen_slice; rewrite ?zlen_le_bytes; lia).
    rewrite Proto.splice_app by lia. do 2 f_equal. unfold zlen in *. lia. }
  rewrite Hs. destruct (Z.eqb_spec (zlen a + Z.min 8 (zlen b)) (zlen a + zlen b)) as [E|E].
  - rewrite !Z.min_r by lia. f_equal. rewrite <- app_assoc. do 2 f_equal.
    rewrite slice_app_l; [done|]. rewrite zlen_le_bytes. lia.
  - assert (8 < zlen b) by lia. rewrite (Z.min_l 8 (zlen b)) in * by lia.
    assert (Hl : zlen (slice (le_bytes 8 w) 0 8) = 8) by (rewrite zlen_slice; rewrite ?zlen_le_bytes; lia).
    assert (Hd : zlen (drop (Z.to_nat 8) b) = zlen b - 8) by (unfold zlen in *; rewrite length_drop; lia).
    replace (zlen a + 8) with (zlen (a ++ slice (le_bytes 8 w) 0 8)) by (rewrite zlen_app; lia).
    rewrite IH by lia. rewrite zlen_app, Hl, Hd. f_equal; [lia|]. rewrite <- app_assoc. f_equal.
    rewrite (slice_whole (le_bytes 8 w)) by (rewrite ?zlen_le_bytes; done).
    replace (Z.min (8 + zlen bs) (zlen b)) with (8 + Z.min (zlen bs) (zlen b - 8)) by lia.
    rewrite <- (slice_join (le_bytes 8 w ++ bs) 0 8) by lia.
    rewrite (slice_app_here (le_bytes 8 w)) by (rewrite ?zlen_le_bytes; done).
    rewrite (slice_app_skip (le_bytes 8 w)) by (rewrite zlen_le_bytes; lia). rewrite zlen_le_bytes, <- app_assoc. do 2 f_equal.
    rewrite drop_drop. f_equal. lia.
Qed.

Lemma write_bytes_spec i out :
  let bs := concat (le_bytes 8 <$> to_words i) in
  let n := Z.min 96 (zlen out) in
  write_bytes i out = (n, slice bs 0 n ++ drop (Z.to_nat n) out).
Proof.
  intros bs n. assert (Hbs : zlen bs = 96) by (unfold bs; by rewrite zlen_concat_words).
  unfold write_bytes. destruct out as [|x out]; [done|].
  pose proof (write_loop_spec (to_words i) [] (x :: out)) as H. cbv zeta in H. fold bs in H. rewrite Hbs in H. apply H.
  rewrite zlen_cons. pose proof (zlen_nonneg out). lia.
Qed.

Lemma rd_words ws k : Forall is_u64 ws -> 0 <= k < zlen ws -> rd_u64 (concat (le_bytes 8 <$> ws)) (k * 8) = at_ 0 ws k.
Proof.
  intros Hw. revert k. induction Hw as [|w ws H1 Hw IH]; intros k Hk; [unfold zlen in Hk; simpl in Hk; lia|]. rewrite zlen_cons in Hk.
  rewrite fmap_cons. cbn [concat]. destruct (decide (k = 0)) as [->|Hne]; [by apply (Proto.rd64_here w)|].
  rewrite Proto.rd64_skip, zlen_le_bytes by (rewrite zlen_le_bytes; lia).
  replace (k * 8 - Z.of_nat 8) with ((k - 1) * 8) by lia. rewrite IH by lia. unfold at_.
  by replace (Z.to_nat k) with (S (Z.to_nat (k - 1))) by lia.
Qed.

Lemma rd64_slice_in b n o : 0 <= o -> o + 8 <= n -> rd_u64 (slice b 0 n) o = rd_u64 b o.
Proof.
  intros Ho Hn. unfold rd_u64. f_equal. rewrite slice_0. unfold slice. rewrite !take_drop_commute, take_take. do 2 f_equal. lia.
Qed.

(** The block a driver reads is the one the kernel wrote, word by word; in a buffer that
    is too short the missing words are zero. *)
Lemma info_roundtrip i out : info_ok i ->
  exists out', write_bytes i out = (Z.min 96 (zlen out), out') /\ zlen out' = zlen out /\
    (forall k, 0 <= k < INFO_WORDS ->
       at_ 0 (to_words (read_bytes (slice out' 0 (Z.min 96 (zlen out))))) k =
       if k * 8 + 8 <=? zlen out then at_ 0 (to_words i) k else 0) /\
    (96 <= zlen out -> read_bytes (slice out' 0 96) = i).
Proof.
  intros Hi. rewrite write_bytes_spec. eexists. split; [done|]. set (bs := concat (le_bytes 8 <$> to_words i)). set (n := Z.min 96 (zlen out)).
  assert (Hbs : zlen bs = 96) by (unfold bs; by rewrite zlen_concat_words). pose proof (zlen_nonneg out) as Ho.
  assert (Hl : zlen (slice bs 0 n) = n) by (rewrite zlen_slice; lia).
  assert (Hs : slice (slice bs 0 n ++ drop (Z.to_nat n) out) 0 n = slice bs 0 n) by (by apply slice_app_here).
  assert (Hk : forall k, 0 <= k < INFO_WORDS ->
     at_ 0 (to_words (read_bytes (slice (slice bs 0 n ++ drop (Z.to_nat n) out) 0 n))) k = if k * 8 + 8 <=? zlen out then at_ 0 (to_words i) k else 0).
  { intros k Hk. rewrite Hs. change (to_words (read_bytes ?b)) with (read_word b <$> zrange 0 INFO_WORDS).
    unfold at_ at 1. rewrite nth_lookup, list_lookup_fmap. unfold zrange. rewrite lookup_seqZ_lt by lia. simpl.
    unfold read_word. rewrite Hl. replace (0 + Z.of_nat (Z.to_nat k)) with k by lia. unfold INFO_WORDS in Hk.
    destruct (Z.leb_spec (k * 8 + 8) n), (Z.leb_spec (k * 8 + 8) (zlen out)); try lia.
    rewrite rd64_slice_in by lia. by apply rd_words. }
  split; [rewrite zlen_app, Hl; unfold zlen in *; rewrite length_drop; lia|]. split; [done|].
  intros H96. replace 96 with n by lia. rewrite <- (words_roundtrip i).
  change (read_bytes ?b) with (from_words (to_words (read_bytes b))). f_equal.
  apply (list_eq_at 0); [done|]. intros k Hk'. change (zlen _) with 12 in Hk'. rewrite Hk by done. unfold INFO_WORDS in *. case_if; [done | lia].
Qed.
End Info.
