(* ===== verification/Pkg.v ===== *)
(** The package resolver ([src/crates/europkg/src/lib.rs]).

    A repository lists packages with versions and dependencies.  [resolve] visits the
    dependencies of a package depth first and returns the order in which to install
    them.  The recursion of [visit] is bounded by fuel; [resolve] gives it one more than
    the number of packages, which is enough because the names on the stack are distinct
    packages. *)

From stdpp Require Import base list relations.
From S2P Require Import Prelude.

Module Pkg.

(** ** Versions *)

(** Strings are lists of characters. *)

Record Version := mkVersion { major : Z; minor : Z; patch : Z }.
#[global] Instance version_eq_dec : EqDecision Version.
Proof. solve_decision. Defined.

(** The derived order. *)
Definition version_le (a b : Version) : bool :=
  (major a <? major b) ||
  ((major a =? major b) && ((minor a <? minor b) || ((minor a =? minor b) && (patch a <=? patch b)))).

Inductive Constraint :=
  | Any
  | Exact (v : Version)
  | AtLeast (v : Version)
  | Caret (v : Version).

Definition matches (c : Constraint) (v : Version) : bool :=
  match c with
  | Any => true
  | Exact e => bool_decide (v = e)
  | AtLeast m => version_le m v
  | Caret b =>
      if negb (version_le b v) then false
      else if 0 <? major b then major v =? major b
      else if 0 <? minor b then (major v =? 0) && (minor v =? minor b)
      else (major v =? 0) && (minor v =? 0)
  end.

(** [char::is_whitespace] *)
Definition is_whitespace (c : Z) : bool :=
  ((9 <=? c) && (c <=? 13)) || (c =? 32) || (c =? 133) || (c =? 160) || (c =? 5760) ||
  ((8192 <=? c) && (c <=? 8202)) || (c =? 8232) || (c =? 8233) || (c =? 8239) || (c =? 8287) || (c =? 12288).

Fixpoint trim_start (s : list Z) : list Z :=
  match s with
  | c :: rest => if is_whitespace c then trim_start rest else s
  | [] => []
  end.
Definition trim (s : list Z) : list Z := reverse (trim_start (reverse (trim_start s))).

(** [split('.')]: the parts between the dots, at least one. *)
Fixpoint split_dot (s : list Z) : list Z * list (list Z) :=
  match s with
  | [] => ([], [])
  | c :: rest => let '(p, ps) := split_dot rest in if c =? 46 then ([], p :: ps) else (c :: p, ps)
  end.

(** [str::parse::<u32>]: an optional plus sign and at least one digit. *)
Fixpoint digits (acc : Z) (s : list Z) : option Z :=
  match s with
  | [] => Some acc
  | c :: rest =>
      if (48 <=? c) && (c <=? 57) then
        let acc' := acc * 10 + (c - 48) in if U32_MAX <? acc' then None else digits acc' rest
      else None
  end.
Definition parse_u32 (s : list Z) : option Z :=
  match s with
  | [] => None
  | 43 :: [] => None
  | 43 :: rest => digits 0 rest
  | _ => digits 0 s
  end.

Definition version_parse (s : list Z) : option Version :=
  let '(p, ps) := split_dot (trim s) in
  mj ← parse_u32 p;
  match ps with
  | [] => Some (mkVersion mj 0 0)
  | [q] => mn ← parse_u32 q; Some (mkVersion mj mn 0)
  | [q; r] => mn ← parse_u32 q; pt ← parse_u32 r; Some (mkVersion mj mn pt)
  | q :: r :: _ => mn ← parse_u32 q; pt ← parse_u32 r; None
  end.

(** [{}] of an integer: its digits, the first one not a zero unless it is the only one. *)
Fixpoint decimal (fuel : nat) (n : Z) : list Z :=
  match fuel with
  | O => []
  | S f => (if n <? 10 then [] else decimal f (n / 10)) ++ [48 + n mod 10]
  end.
Definition to_string_dotted (v : Version) : list Z :=
  decimal 10 (major v) ++ [46] ++ decimal 10 (minor v) ++ [46] ++ decimal 10 (patch v).

(** ** The repository *)

Record Dep := mkDep { d_name : list Z; d_constraint : Constraint }.

Record Package := mkPackage { p_name : list Z; p_version : Version; p_deps : list Dep }.

Definition Repo := list Package.

Inductive ResolveError :=
  | NotFound (n : list Z)
  | NoMatchingVersion (n : list Z)
  | Conflict (n : list Z)
  | Cycle (n : list Z).

(** [max_by_key]: of several greatest elements the last one. *)
Definition max_step (acc : option Package) (p : Package) : option Package :=
  match acc with
  | None => Some p
  | Some q => if version_le (p_version q) (p_version p) then Some p else Some q
  end.

Definition best (r : Repo) (name : list Z) (c : Constraint) : option Package :=
  foldl max_step None (List.filter (fun p => bool_decide (p_name p = name) && matches c (p_version p)) r).

Definition repo_exists (r : Repo) (name : list Z) : bool := existsb (fun p => bool_decide (p_name p = name)) r.

(** ** Resolution *)

Record State := mkState {
  chosen : list (list Z * Version);
  order : list (list Z * Version);
  on_stack : list (list Z);
}.

Definition M := ST State ResolveError.

Definition choose (n : list Z) (v : Version) (s : State) : State := mkState (chosen s ++ [(n, v)]) (order s) (on_stack s ++ [n]).
Definition finish (n : list Z) (v : Version) (s : State) : State := mkState (chosen s) (order s ++ [(n, v)]) (removelast (on_stack s)).

Fixpoint visit (fuel : nat) (r : Repo) (name : list Z) (c : Constraint) : M unit :=
  match fuel with
  | O => slift OutOfFuel
  | S f =>
      let! stack := sget on_stack in
      if existsb (fun n => bool_decide (n = name)) stack then sthrow (Cycle name)
      else
        let! ch := sget chosen in
        match find (fun e => bool_decide (fst e = name)) ch with
        | Some (_, v) => if matches c v then sret tt else sthrow (Conflict name)
        | None =>
            if negb (repo_exists r name) then sthrow (NotFound name)
            else
              match best r name c with
              | None => sthrow (NoMatchingVersion name)
              | Some pkg =>
                  smodify (choose name (p_version pkg)) ;;!
                  sfor (p_deps pkg) (fun d => visit f r (d_name d) (d_constraint d)) ;;!
                  smodify (finish name (p_version pkg))
              end
        end
  end.

Definition resolve (r : Repo) (root : list Z) : outcome ResolveError (list (list Z * Version)) :=
  match visit (S (length r)) r root Any (mkState [] [] []) with
  | (Ok _, s) => Ok (order s)
  | (Err e, _) => Err e
  | (Panic, _) => Panic
  | (OutOfFuel, _) => OutOfFuel
  end.

(** ** Versions: order and text *)

Lemma version_le_spec a b : version_le a b = true <->
  major a < major b \/ major a = major b /\ (minor a < minor b \/ minor a = minor b /\ patch a <= patch b).
Proof. unfold version_le. rewrite !orb_true_iff, !andb_true_iff, !orb_true_iff, !andb_true_iff, !Z.ltb_lt, !Z.eqb_eq, Z.leb_le. done. Qed.

Lemma version_le_refl a : version_le a a = true.
Proof. apply version_le_spec. lia. Qed.

Lemma version_le_trans a b c : version_le a b = true -> version_le b c = true -> version_le a c = true.
Proof. rewrite !version_le_spec. lia. Qed.

Lemma version_le_total a b : version_le a b = false -> version_le b a = true.
Proof. intros H. apply not_true_iff_false in H. rewrite version_le_spec in *. lia. Qed.

Definition version_ok (v : Version) : Prop := is_u32 (major v) /\ is_u32 (minor v) /\ is_u32 (patch v).
Definition is_digit (c : Z) : Prop := 48 <= c <= 57.

Lemma decimal_digits f n : 0 <= n -> Forall is_digit (decimal f n).
Proof.
  revert n. induction f as [|f IH]; intros n Hn; simpl; [done|]. apply Forall_app. split.
  - case_if; [done|]. apply IH. Z.to_euclidean_division_equations. lia.
  - repeat constructor; unfold is_digit; Z.to_euclidean_division_equations; lia.
Qed.

Lemma digits_app acc a b : digits acc (a ++ b) = (x ← digits acc a; digits x b).
Proof. revert acc. induction a as [|c a IH]; intros acc; simpl; [done|]. destruct (_ && _); [|done]. destruct (_ <? _); [done | apply IH]. Qed.

Lemma decimal_parse f n : 0 <= n < 10 ^ Z.of_nat f -> n <= U32_MAX -> digits 0 (decimal f n) = Some n.
Proof.
  revert n. induction f as [|f IH]; intros n Hn Hu; [simpl in *; f_equal; lia|].
  rewrite Nat2Z.inj_succ, Z.pow_succ_r in Hn by lia. cbn [decimal]. rewrite digits_app.
  assert (Hd : digits 0 (if n <? 10 then [] else decimal f (n / 10)) = Some (n / 10)).
  { case_if; [simpl; f_equal; Z.to_euclidean_division_equations; lia|]. apply IH; Z.to_euclidean_division_equations; lia. }
  rewrite Hd. simpl. destruct (Z.leb_spec 48 (48 + n mod 10)), (Z.leb_spec (48 + n mod 10) 57); try (Z.to_euclidean_division_equations; lia).
  simpl. replace (n / 10 * 10 + (48 + n mod 10 - 48)) with n by (Z.to_euclidean_division_equations; lia). case_if; [lia | done].
Qed.

Lemma parse_u32_decimal n : is_u32 n -> parse_u32 (decimal 10 n) = Some n.
Proof.
  intros Hn. pose proof (decimal_parse 10 n ltac:(ulia) ltac:(ulia)) as Hd. pose proof (decimal_digits 10 n ltac:(ulia)) as Hf.
  unfold parse_u32. destruct (decimal 10 n) as [|c l] eqn:E; [exfalso; simpl in E; by apply app_nil in E as [_ E]|].
  apply Forall_cons in Hf as [Hc _]. unfold is_digit in Hc. destruct (decide (c = 43)); [lia|].
  destruct c as [|c|c]; try done. do 6 (destruct c as [c|c|]; try done).
Qed.

Lemma trim_start_id s : (forall c rest, s = c :: rest -> is_whitespace c = false) -> trim_start s = s.
Proof. intros H. destruct s as [|c s]; [done|]. simpl. by rewrite (H c s). Qed.

Lemma digit_no_space c : is_digit c -> is_whitespace c = false.
Proof. intros Hc. unfold is_digit, is_whitespace in *. repeat (apply orb_false_iff; split); try apply andb_false_iff; lia. Qed.

Lemma trim_digits d e l : is_digit d -> is_digit e -> trim (d :: l ++ [e]) = d :: l ++ [e].
Proof.
  intros Hd He. unfold trim. rewrite (trim_start_id (d :: l ++ [e])) by (intros c r E; injection E as <- _; by apply digit_no_space).
  rewrite reverse_cons, reverse_app. simpl. rewrite (digit_no_space e He). rewrite reverse_cons, reverse_app, reverse_involutive. done.
Qed.

Lemma split_dot_digits a s : Forall is_digit a -> split_dot (a ++ s) = let '(p, ps) := split_dot s in (a ++ p, ps).
Proof.
  induction 1 as [|c a Hc Ha IH]; simpl; [by destruct (split_dot s)|]. rewrite IH. destruct (split_dot s) as [p ps].
  unfold is_digit in Hc. case_if; [lia | done].
Qed.

(** A version reads back from its dotted form. *)
Lemma version_roundtrip v : version_ok v -> version_parse (to_string_dotted v) = Some v.
Proof.
  intros (H1 & H2 & H3). unfold version_parse, to_string_dotted.
  pose proof (decimal_digits 10 (major v) ltac:(ulia)) as D1. pose proof (decimal_digits 10 (minor v) ltac:(ulia)) as D2.
  pose proof (decimal_digits 10 (patch v) ltac:(ulia)) as D3.
  assert (Ht : trim (decimal 10 (major v) ++ [46] ++ decimal 10 (minor v) ++ [46] ++ decimal 10 (patch v)) =
    decimal 10 (major v) ++ [46] ++ decimal 10 (minor v) ++ [46] ++ decimal 10 (patch v)).
  { destruct (decimal 10 (major v)) as [|d l1] eqn:E1; [exfalso; simpl in E1; by apply app_nil in E1 as [_ E1]|].
    assert (Hl : exists l3 e, decimal 10 (patch v) = l3 ++ [e]) by (eexists _, _; reflexivity). destruct Hl as (l3 & e & E3). rewrite E3 in *.
    apply Forall_cons in D1 as [D1 _]. apply Forall_app in D3 as [_ D3]. apply Forall_cons in D3 as [D3 _].
    pose proof (trim_digits d e (l1 ++ [46] ++ decimal 10 (minor v) ++ [46] ++ l3) D1 D3) as Ht. rewrite <- !app_assoc in Ht. exact Ht. }
  rewrite Ht. pose proof (parse_u32_decimal _ H1) as P1. pose proof (parse_u32_decimal _ H2) as P2. pose proof (parse_u32_decimal _ H3) as P3.
  clear Ht. revert D1 D2 D3 P1 P2 P3. generalize (decimal 10 (major v)) (decimal 10 (minor v)) (decimal 10 (patch v)).
  intros a b c D1 D2 D3 P1 P2 P3. rewrite split_dot_digits by done. simpl. rewrite split_dot_digits by done. simpl.
  rewrite <- (app_nil_r c), split_dot_digits by done. simpl. rewrite !app_nil_r, P1. simpl. rewrite P2. simpl. rewrite P3. by destruct v.
Qed.

(** ** The choice of a version *)

Lemma max_fold l acc p : foldl max_step acc l = Some p ->
  (acc = Some p \/ p ∈ l) /\ (forall q, acc = Some q \/ q ∈ l -> version_le (p_version q) (p_version p) = true).
Proof.
  revert acc. induction l as [|x l IH]; intros acc H; simpl in H.
  { split; [by left|]. intros q [Hq|Hq]; [|by apply not_elem_of_nil in Hq]. simplify_eq. apply version_le_refl. }
  destruct (IH _ H) as [H1 H2]. destruct acc as [a|]; simpl in *.
  - destruct (version_le (p_version a) (p_version x)) eqn:Hv.
    + assert (Hx : version_le (p_version x) (p_version p) = true) by (apply H2; by left).
      split; [right; destruct H1 as [[= <-]|H1]; set_solver|]. intros q [[= <-]|Hq]; [by eapply version_le_trans|].
      apply elem_of_cons in Hq as [->|Hq]; [done | apply H2; by right].
    + assert (Ha : version_le (p_version a) (p_version p) = true) by (apply H2; by left).
      split; [destruct H1; [by left | right; set_solver]|]. intros q [[= <-]|Hq]; [done|].
      apply elem_of_cons in Hq as [->|Hq]; [eapply version_le_trans; [by apply version_le_total | done] | apply H2; by right].
  - split; [right; destruct H1 as [[= <-]|H1]; set_solver|]. intros q [Hq|Hq]; [done|].
    apply elem_of_cons in Hq as [->|Hq]; apply H2; [by left | by right].
Qed.

Lemma max_none l acc : foldl max_step acc l = None -> acc = None /\ l = [].
Proof.
  revert acc. induction l as [|x l IH]; intros acc H; simpl in H; [done|]. apply IH in H as [H _].
  destruct acc; simpl in H; [by destruct (version_le _ _) | done].
Qed.

Lemma best_some r n c p : best r n c = Some p ->
  p ∈ r /\ p_name p = n /\ matches c (p_version p) = true /\
  forall q, q ∈ r -> p_name q = n -> matches c (p_version q) = true -> version_le (p_version q) (p_version p) = true.
Proof.
  intros H. apply max_fold in H as [[?|H1] H2]; [done|]. apply list_elem_of_In, filter_In in H1 as [H1 H3].
  apply andb_true_iff in H3 as [H3 H4]. apply bool_decide_eq_true in H3. split; [by apply list_elem_of_In|]. do 2 (split; [done|]).
  intros q Hq Hn Hm. apply H2. right. apply list_elem_of_In, filter_In. split; [by apply list_elem_of_In|].
  rewrite Hm, bool_decide_eq_true_2 by done. done.
Qed.

Lemma best_none r n c : best r n c = None -> forall q, q ∈ r -> p_name q = n -> matches c (p_version q) = false.
Proof.
  intros H q Hq Hn. apply max_none in H as [_ H]. apply not_true_iff_false. intros Hm.
  assert (Hin : In q (List.filter (fun p => bool_decide (p_name p = n) && matches c (p_version p)) r)).
  { apply filter_In. split; [by apply list_elem_of_In|]. rewrite Hm, bool_decide_eq_true_2 by done. done. }
  by rewrite H in Hin.
Qed.

Lemma exists_spec r n : repo_exists r n = true <-> exists p, p ∈ r /\ p_name p = n.
Proof.
  unfold repo_exists. rewrite existsb_exists. split; intros (p & Hp & Hn); exists p.
  - rewrite list_elem_of_In. split; [done|]. by apply bool_decide_eq_true in Hn.
  - rewrite <- list_elem_of_In. split; [done|]. by apply bool_decide_eq_true.
Qed.

(** ** What a visit establishes *)

(** The order of versions: by major, then minor, then patch number. *)
Definition vle (a b : Version) : Prop :=
  major a < major b \/ major a = major b /\ (minor a < minor b \/ minor a = minor b /\ patch a <= patch b).

(** A version satisfies a requirement.  A caret allows the later versions of the same
    major number, and of the same minor number when the major number is zero. *)
Definition sat (c : Constraint) (v : Version) : Prop :=
  match c with
  | Any => True
  | Exact e => v = e
  | AtLeast m => vle m v
  | Caret b => vle b v /\ (0 < major b /\ major v = major b \/ major b <= 0 /\ major v = 0 /\ minor v = Z.max 0 (minor b))
  end.

Lemma matches_sat c v : matches c v = true <-> sat c v.
Proof.
  destruct c as [|e|m|b]; simpl; [done | apply bool_decide_eq_true | apply version_le_spec|].
  unfold vle. rewrite <- version_le_spec. destruct (version_le b v); simpl; [|by intuition].
  case_if; [|case_if]; simplify_bool; rewrite ?andb_true_iff, !Z.eqb_eq; lia.
Qed.

Lemma matches_false c v : matches c v = false <-> ~ sat c v.
Proof. by rewrite <- matches_sat, not_true_iff_false. Qed.

(** [a] names [b] as a dependency, in some package of the index. *)
Definition requires (r : Repo) (a b : list Z) : Prop :=
  exists p d, p ∈ r /\ p_name p = a /\ d ∈ p_deps p /\ d_name d = b.

(** The requirement [c] on [n] is that of the root or of a dependency of a package
    below it. *)
Definition demanded (r : Repo) (root n : list Z) (c : Constraint) : Prop :=
  (n = root /\ c = Any) \/
  exists p d, rtc (requires r) root (p_name p) /\ p ∈ r /\ d ∈ p_deps p /\ d_name d = n /\ d_constraint d = c.

(** The requirement [c] on [n] is that of the root or of a package picked, in [ch],
    at the version at which it was picked. *)
Definition asked (r : Repo) (root : list Z) (ch : list (list Z * Version)) (n : list Z) (c : Constraint) : Prop :=
  (n = root /\ c = Any) \/
  exists p d, p ∈ r /\ (p_name p, p_version p) ∈ ch /\ d ∈ p_deps p /\ d_name d = n /\ d_constraint d = c.

(** Entry [i] is the highest version that a requirement made on it admits, and comes
    after everything it depends on. *)
Definition entry_ok (r : Repo) (root : list Z) (ch ord : list (list Z * Version)) (i : nat) (e : list Z * Version) : Prop :=
  exists p c, p ∈ r /\ p_name p = fst e /\ p_version p = snd e /\ asked r root ch (fst e) c /\ sat c (p_version p) /\
    (forall q, q ∈ r -> p_name q = fst e -> sat c (p_version q) -> vle (p_version q) (p_version p)) /\
    Forall (fun d => exists j v, (j < i)%nat /\ ord !! j = Some (d_name d, v) /\ sat (d_constraint d) v) (p_deps p).

Record visit_inv (r : Repo) (root : list Z) (s : State) : Prop := {
  vi_names : NoDup ((order s).*1 ++ on_stack s);
  vi_once : NoDup (chosen s).*1;
  vi_chosen : forall n v, (n, v) ∈ chosen s -> (n, v) ∈ order s \/ n ∈ on_stack s;
  vi_order : forall n v, (n, v) ∈ order s -> (n, v) ∈ chosen s;
  vi_stack : forall n, n ∈ on_stack s -> repo_exists r n = true;
  vi_entries : forall i e, order s !! i = Some e -> entry_ok r root (chosen s) (order s) i e;
  vi_reached : forall n v, (n, v) ∈ chosen s -> rtc (requires r) root n /\ exists p, p ∈ r /\ p_name p = n /\ p_version p = v;
}.

Lemma asked_mono r root ch ch' n c : ch ⊆ ch' -> asked r root ch n c -> asked r root ch' n c.
Proof. intros Hch [H|(p & d & Hp & Hc & H)]; [by left|]. right. exists p, d. split; [done|]. split; [by apply Hch | done]. Qed.

Lemma entry_ok_mono r root ch ch' ord ord' i e : ch ⊆ ch' -> entry_ok r root ch ord i e -> entry_ok r root ch' (ord ++ ord') i e.
Proof.
  intros Hch (p & c & Hp & Hn & Hv & Ha & Hs & Hb & Hd). exists p, c. do 3 (split; [done|]). split; [by eapply asked_mono|]. do 2 (split; [done|]).
  eapply Forall_impl; [exact Hd|].
  intros d (j & v & Hj & Ho & Hm). exists j, v. split; [done|]. split; [by apply lookup_app_l_Some | done].
Qed.

Lemma once_functional {A B} (l : list (A * B)) a b b' : NoDup l.*1 -> (a, b) ∈ l -> (a, b') ∈ l -> b = b'.
Proof.
  induction l as [|[x y] l IH]; simpl; intros Hn H1 H2; [by apply not_elem_of_nil in H1|]. apply NoDup_cons in Hn as [Hx Hn].
  apply elem_of_cons in H1 as [[= -> ->]|H1]; apply elem_of_cons in H2 as [H2|H2].
  - by simplify_eq.
  - exfalso. apply Hx. apply list_elem_of_fmap. by exists (x, b').
  - exfalso. simplify_eq. apply Hx. apply list_elem_of_fmap. by exists (x, b).
  - by apply IH.
Qed.

Lemma stack_bound r root s : visit_inv r root s -> (length (on_stack s) <= length r)%nat.
Proof.
  intros I. rewrite <- (length_fmap p_name r). apply submseteq_length, NoDup_submseteq.
  - pose proof (vi_names _ _ _ I) as Hn. by apply NoDup_app in Hn as (_ & _ & Hn).
  - intros n Hn. apply (vi_stack _ _ _ I), exists_spec in Hn as (p & Hp & <-). by apply list_elem_of_fmap_2.
Qed.

(** What each error says about the index. *)
Definition error_ok (r : Repo) (root : list Z) (e : ResolveError) : Prop :=
  match e with
  | NotFound n => rtc (requires r) root n /\ forall p, p ∈ r -> p_name p <> n
  | NoMatchingVersion n => rtc (requires r) root n /\ (exists p, p ∈ r /\ p_name p = n) /\
      exists c, demanded r root n c /\ forall q, q ∈ r -> p_name q = n -> ~ sat c (p_version q)
  | Conflict n => rtc (requires r) root n /\
      exists c p, demanded r root n c /\ p ∈ r /\ p_name p = n /\ ~ sat c (p_version p)
  | Cycle n => rtc (requires r) root n /\ tc (requires r) n n
  end.

(** A call that starts in [s] and has to provide [deps]. *)
Definition visited (r : Repo) (root : list Z) (s : State) (deps : list (list Z * Constraint)) (o : outcome ResolveError unit * State) : Prop :=
  match o with
  | (Ok _, s') => visit_inv r root s' /\ on_stack s' = on_stack s /\ (exists ext, order s' = order s ++ ext) /\ chosen s ⊆ chosen s' /\
      Forall (fun d => exists v, (fst d, v) ∈ order s' /\ sat (snd d) v) deps
  | (Err e, _) => error_ok r root e
  | _ => False
  end.

Definition visitable (r : Repo) (root : list Z) (s : State) (n : list Z) (c : Constraint) : Prop :=
  rtc (requires r) root n /\ demanded r root n c /\ asked r root (chosen s) n c /\ forall m, m ∈ on_stack s -> tc (requires r) m n.

Lemma loop_visited r root (body : Dep -> M unit) ds s : visit_inv r root s ->
  Forall (fun d => visitable r root s (d_name d) (d_constraint d)) ds ->
  (forall d s', visit_inv r root s' -> on_stack s' = on_stack s -> visitable r root s' (d_name d) (d_constraint d) ->
     visited r root s' [(d_name d, d_constraint d)] (body d s')) ->
  visited r root s ((fun d => (d_name d, d_constraint d)) <$> ds) (sfor ds body s).
Proof.
  intros I Hv Hb. revert s I Hv Hb. induction ds as [|d ds IH]; intros s I Hv Hb; simpl.
  { split; [done|]. split; [done|]. split; [exists []; by rewrite app_nil_r | done]. }
  apply Forall_cons in Hv as [Hd Hv]. specialize (Hb d s I eq_refl Hd) as H1. unfold sbind. destruct (body d s) as [[u|e| |] s1]; try done.
  destruct H1 as (I1 & Hs1 & (ext & He) & Hc1 & Hf). apply Forall_cons in Hf as [(v & Hin & Hm) _].
  assert (H2 : visited r root s1 ((fun d => (d_name d, d_constraint d)) <$> ds) (sfor ds body s1)).
  { apply IH; [done | |].
    - eapply Forall_impl; [exact Hv|]. intros d' (V1 & V2 & V3 & V4). do 2 (split; [done|]). split; [by eapply asked_mono | by rewrite Hs1].
    - intros d' s' I' Hs'. apply Hb; [done | congruence]. }
  destruct (sfor ds body s1) as [[u2|e| |] s2]; try done. destruct H2 as (I2 & Hs2 & (ext2 & He2) & Hc2 & Hf2).
  split; [done|]. split; [congruence|]. split; [exists (ext ++ ext2); by rewrite He2, He, app_assoc|].
  split; [by etransitivity|]. constructor; [|done].
  exists v. rewrite He2. simpl in *. split; [apply elem_of_app; by left | done].
Qed.

Lemma choose_inv r root s name pkg c : visit_inv r root s -> name ∉ on_stack s -> (forall v, (name, v) ∉ chosen s) ->
  best r name c = Some pkg -> rtc (requires r) root name -> visit_inv r root (choose name (p_version pkg) s).
Proof.
  intros I Hs Hc Hb Hr. destruct (best_some _ _ _ _ Hb) as (Hp & Hn & _). split; simpl.
  - rewrite app_assoc. apply NoDup_app. split; [apply I|]. split; [|apply NoDup_singleton].
    intros x Hx Hy. apply list_elem_of_singleton in Hy as ->. apply elem_of_app in Hx as [Hx|Hx]; [|done].
    apply list_elem_of_fmap in Hx as ([n v] & -> & Hx). by apply (vi_order _ _ _ I), Hc in Hx.
  - rewrite fmap_app. simpl. apply NoDup_app. split; [apply I|]. split; [|apply NoDup_singleton].
    intros x Hx Hy. apply list_elem_of_singleton in Hy as ->. apply list_elem_of_fmap in Hx as ([n v] & -> & Hx). by apply Hc in Hx.
  - intros n v Hin. apply elem_of_app in Hin as [Hin|Hin].
    + destruct (vi_chosen _ _ _ I n v Hin); [by left | right; apply elem_of_app; by left].
    + apply list_elem_of_singleton in Hin as [= -> ->]. right. apply elem_of_app. right. by apply list_elem_of_singleton.
  - intros n v Hin. apply elem_of_app. left. by apply (vi_order _ _ _ I).
  - intros n Hin. apply elem_of_app in Hin as [Hin|Hin]; [by apply (vi_stack _ _ _ I)|].
    apply list_elem_of_singleton in Hin as ->. apply exists_spec. by exists pkg.
  - intros i e Hi. rewrite <- (app_nil_r (order s)). eapply entry_ok_mono; [|by apply (vi_entries _ _ _ I)]. set_solver.
  - intros n v Hin. apply elem_of_app in Hin as [Hin|Hin]; [by apply (vi_reached _ _ _ I)|].
    apply list_elem_of_singleton in Hin as [= -> ->]. split; [done | by exists pkg].
Qed.

Lemma finish_inv r root s stack name pkg c : visit_inv r root s -> on_stack s = stack ++ [name] -> (name, p_version pkg) ∈ chosen s ->
  best r name c = Some pkg -> asked r root (chosen s) name c ->
  Forall (fun d => exists v, (d_name d, v) ∈ order s /\ sat (d_constraint d) v) (p_deps pkg) ->
  visit_inv r root (finish name (p_version pkg) s) /\ on_stack (finish name (p_version pkg) s) = stack.
Proof.
  intros I Hs Hc Hb Ha Hd. assert (Hst : removelast (on_stack s) = stack) by (rewrite Hs; apply removelast_last).
  split; [|done]. split; simpl; rewrite ?Hst.
  - rewrite fmap_app. simpl. pose proof (vi_names _ _ _ I) as Hn. rewrite Hs in Hn.
    rewrite <- app_assoc. rewrite (Permutation_app_comm [name] stack). exact Hn.
  - apply I.
  - intros n v Hin. destruct (vi_chosen _ _ _ I n v Hin) as [Ho|Ho]; [left; apply elem_of_app; by left|].
    rewrite Hs in Ho. apply elem_of_app in Ho as [Ho|Ho]; [by right|]. apply list_elem_of_singleton in Ho as ->.
    left. apply elem_of_app. right. apply list_elem_of_singleton. f_equal. by eapply (once_functional (chosen s)); [apply I| |].
  - intros n v Hin. apply elem_of_app in Hin as [Hin|Hin]; [by apply (vi_order _ _ _ I)|]. by apply list_elem_of_singleton in Hin as [= -> ->].
  - intros n Hin. apply (vi_stack _ _ _ I). rewrite Hs. apply elem_of_app. by left.
  - intros i e Hi. apply lookup_app_Some in Hi as [Hi|[Hi He]]; [by eapply entry_ok_mono, (vi_entries _ _ _ I)|].
    apply list_lookup_singleton_Some in He as [Hz <-]. destruct (best_some _ _ _ _ Hb) as (Hp & Hn & Hsat & Hmax).
    exists pkg, c. do 4 (split; [done|]). split; [by apply matches_sat|].
    split; [intros q Hq Hqn Hqs; apply version_le_spec, Hmax; [done | done | by apply matches_sat]|].
    eapply Forall_impl; [exact Hd|]. intros d (v & Hin & Hm). apply list_elem_of_lookup_1 in Hin as [j Hj].
    exists j, v. split; [apply lookup_lt_Some in Hj; lia|]. split; [by apply lookup_app_l_Some | done].
  - apply I.
Qed.

Lemma find_chosen (l : list (list Z * Version)) n :
  match find (fun e => bool_decide (fst e = n)) l with
  | Some (m, v) => m = n /\ (n, v) ∈ l
  | None => forall v, (n, v) ∉ l
  end.
Proof.
  destruct (find _ l) as [[m v]|] eqn:H.
  - apply find_some in H as [Hi He]. apply bool_decide_eq_true in He. simpl in He. subst. split; [done | by apply list_elem_of_In].
  - intros v Hv. apply list_elem_of_In in Hv. pose proof (find_none _ _ H _ Hv) as Hf. by apply bool_decide_eq_false in Hf.
Qed.

Lemma visit_spec r root fuel : forall name c s, visit_inv r root s -> (length r - length (on_stack s) < fuel)%nat ->
  visitable r root s name c -> visited r root s [(name, c)] (visit fuel r name c s).
Proof.
  induction fuel as [|f IH]; intros name c s I Hf V; [lia|]. pose proof V as (Hr & Hd & Ha & Ht). simpl. unfold sbind at 1, sget.
  destruct (existsb (fun n => bool_decide (n = name)) (on_stack s)) eqn:Hstk.
  { apply existsb_exists in Hstk as (n & Hn & He). apply bool_decide_eq_true in He as ->. apply list_elem_of_In in Hn. split; [done | by apply Ht]. }
  assert (Hns : name ∉ on_stack s).
  { intros Hn. apply not_true_iff_false in Hstk. apply Hstk, existsb_exists. exists name. rewrite <- list_elem_of_In. by rewrite bool_decide_eq_true_2. }
  unfold sbind at 1. pose proof (find_chosen (chosen s) name) as Hfc. destruct (find _ (chosen s)) as [[m v]|].
  - destruct Hfc as [-> Hv]. destruct (matches c v) eqn:Hm.
    + split; [done|]. split; [done|]. split; [exists []; by rewrite app_nil_r|]. split; [done|]. repeat constructor. exists v.
      apply matches_sat in Hm. destruct (vi_chosen _ _ _ I _ _ Hv); [done|]. by apply Hns in H.
    + destruct (vi_reached _ _ _ I _ _ Hv) as (_ & p & Hp & Hpn & <-). apply matches_false in Hm. split; [done|]. by exists c, p.
  - destruct (repo_exists r name) eqn:Hex; simpl.
    2: { split; [done|]. intros p Hp Hn. apply not_true_iff_false in Hex. apply Hex, exists_spec. by exists p. }
    apply exists_spec in Hex.
    destruct (best r name c) as [pkg|] eqn:Hb; [|do 2 (split; [done|]); exists c; split; [done|]; intros q Hq Hn; by apply matches_false, (best_none r name)].
    destruct (best_some _ _ _ _ Hb) as (Hp & Hpn & Hm & _).
    pose proof (choose_inv r root s name pkg c I Hns Hfc Hb Hr) as I1. set (s1 := choose name (p_version pkg) s) in *.
    pose proof (stack_bound _ _ _ I1) as Hsb. simpl in Hsb. rewrite length_app in Hsb. simpl in Hsb.
    unfold sbind, smodify. fold s1.
    assert (HL : visited r root s1 ((fun d => (d_name d, d_constraint d)) <$> p_deps pkg)
      (sfor (p_deps pkg) (fun d => visit f r (d_name d) (d_constraint d)) s1)).
    { apply loop_visited; [done | |].
      - apply Forall_forall. intros d Hdin. assert (Hreq : requires r name (d_name d)) by (by exists pkg, d).
        split; [by eapply rtc_r|]. split; [right; exists pkg, d; by rewrite Hpn|].
        split; [right; exists pkg, d; split; [done|]; split; [rewrite Hpn; set_solver | done]|].
        intros m Hm'. simpl in Hm'. apply elem_of_app in Hm' as [Hm'|Hm']; [eapply tc_r; [by apply Ht | done]|].
        apply list_elem_of_singleton in Hm' as ->. by apply tc_once.
      - intros d s' I' Hs' V'. apply IH; [done | rewrite Hs'; simpl; rewrite length_app; simpl; lia | done]. }
    destruct (sfor _ _ s1) as [[u|e| |] s2]; try done. destruct HL as (I2 & Hs2 & (ext & He) & Hc & Hfd). simpl in Hs2, Hc.
    rewrite Forall_fmap in Hfd. assert (Hc2 : (name, p_version pkg) ∈ chosen s2) by (apply Hc; set_solver).
    assert (Ha2 : asked r root (chosen s2) name c) by (eapply asked_mono; [|exact Ha]; set_solver).
    destruct (finish_inv r root s2 (on_stack s) name pkg c I2 Hs2 Hc2 Hb Ha2 Hfd) as [I3 Hs3].
    split; [done|]. split; [done|]. simpl. split; [exists (ext ++ [(name, p_version pkg)]); by rewrite He, app_assoc|].
    split; [intros x Hx; apply Hc; set_solver|].
    repeat constructor. exists (p_version pkg). split; [|by apply matches_sat]. apply elem_of_app. right. by apply list_elem_of_singleton.
Qed.

(** The first package visited is the last one in the order. *)
Lemma visit_last r f name c stack u s' : visit f r name c (mkState [] [] stack) = (Ok u, s') -> exists v ord, order s' = ord ++ [(name, v)].
Proof.
  destruct f as [|f]; [done|]. simpl. unfold sbind at 1, sget. simpl. destruct (existsb _ stack); [done|]. unfold sbind at 1. simpl.
  destruct (negb _); [done|]. destruct (best r name c) as [pkg|]; [|done]. unfold sbind, smodify. simpl.
  destruct (sfor _ _ _) as [[u2|e| |] s2]; try done. intros [= _ <-]. by exists (p_version pkg), (order s2).
Qed.

Lemma resolve_spec r root :
  match resolve r root with
  | Ok ord => NoDup ord.*1 /\ (exists v ord', ord = ord' ++ [(root, v)]) /\
      forall i e, ord !! i = Some e -> entry_ok r root ord ord i e /\ rtc (requires r) root (fst e)
  | Err e => error_ok r root e
  | _ => False
  end.
Proof.
  assert (I : visit_inv r root (mkState [] [] [])).
  { split; simpl; try (apply NoDup_nil_2); try (intros n v Hn; by apply not_elem_of_nil in Hn); try done. intros n Hn. by apply not_elem_of_nil in Hn. }
  pose proof (visit_spec r root (S (length r)) root Any (mkState [] [] []) I) as H. unfold resolve.
  destruct (visit (S (length r)) r root Any (mkState [] [] [])) as [[u|e| |] s] eqn:Hv; simpl in H.
  all: assert (V : visitable r root (mkState [] [] []) root Any) by
    (split; [done|]; split; [by left|]; split; [by left|]; intros m Hm; by apply not_elem_of_nil in Hm).
  all: specialize (H ltac:(lia) V); try done.
  destruct H as (I' & Hs & _ & _ & _). pose proof (vi_names _ _ _ I') as Hn. rewrite Hs, app_nil_r in Hn. split; [done|].
  split; [by eapply visit_last|]. intros i [n v] He. split.
  { rewrite <- (app_nil_r (order s)) at 2. eapply entry_ok_mono, (vi_entries _ _ _ I'); [|done]. intros [m w] Hm.
    destruct (vi_chosen _ _ _ I' m w Hm) as [Ho|Ho]; [done|]. rewrite Hs in Ho. by apply not_elem_of_nil in Ho. }
  apply (vi_reached _ _ _ I' n v), (vi_order _ _ _ I'). by eapply list_elem_of_lookup_2.
Qed.

(** C27 The resolver is correct.  [resolve] always returns.  An order it returns names
    every package once, ends with the root, contains only packages that the root needs,
    and takes each package at the highest version of the index that one requirement made
    on it, by the root or by a package of the order, admits, after a version of every
    dependency of that package that satisfies the requirement on it.
    An error is justified by the index: a name below the root that it does not have, a
    requirement below the root that no version satisfies, a version that a requirement
    below the root excludes, or a cycle of dependencies below the root.  And when every
    name has one version and every requirement below the root is met by the index
    without a cycle, there is an order. *)
Theorem resolve_correct r root :
  match resolve r root with
  | Ok ord => NoDup ord.*1 /\ (exists v ord', ord = ord' ++ [(root, v)]) /\
      forall i e, ord !! i = Some e -> entry_ok r root ord ord i e /\ rtc (requires r) root (fst e)
  | Err e => error_ok r root e
  | _ => False
  end /\
  ((forall p q, p ∈ r -> q ∈ r -> p_name p = p_name q -> p_version p = p_version q) ->
   (forall n c, demanded r root n c -> exists p, p ∈ r /\ p_name p = n /\ sat c (p_version p)) ->
   (forall n, rtc (requires r) root n -> ~ tc (requires r) n n) ->
   exists ord, resolve r root = Ok ord).
Proof.
  pose proof (resolve_spec r root) as H. split; [done|]. intros Hu Hd Hc. destruct (resolve r root) as [ord|e| |]; [by exists ord| |done|done].
  exfalso. destruct e as [n|n|n|n]; simpl in H.
  - destruct H as [Hr He]. assert (Hdem : exists c, demanded r root n c).
    { destruct (rtc_inv_r _ _ Hr) as [<-|(m & Hm & p & d & Hp & <- & Hdin & Hdn)]; [exists Any; by left|].
      exists (d_constraint d). right. by exists p, d. }
    destruct Hdem as [c Hdem]. destruct (Hd _ _ Hdem) as (p & Hp & Hn & _). by apply (He p).
  - destruct H as (_ & _ & c & Hdem & Hall). destruct (Hd _ _ Hdem) as (p & Hp & Hn & Hm). by apply (Hall p Hp Hn).
  - destruct H as (_ & c & p & Hdem & Hp & Hn & Hm). destruct (Hd _ _ Hdem) as (q & Hq & Hqn & Hqm).
    rewrite (Hu p q Hp Hq) in Hm by congruence. done.
  - destruct H as [Hr Ht]. by eapply Hc.
Qed.

(** ** Examples *)

Definition v1 : Version := mkVersion 1 0 0.
Definition v2 : Version := mkVersion 2 0 0.
Definition demo_repo : Repo :=
  [mkPackage [97] v1 [mkDep [98] (Caret v1); mkDep [99] Any]; mkPackage [98] v1 [mkDep [99] (AtLeast v1)];
   mkPackage [99] v1 []; mkPackage [99] v2 []].

Lemma resolve_correct_witness : exists ord, resolve demo_repo [97] = Ok ord /\ ord = [([99], v2); ([98], v1); ([97], v1)] /\ NoDup ord.*1.
Proof.
  eexists. split; [vm_compute; reflexivity|]. split; [reflexivity|].
  pose proof (proj1 (resolve_correct demo_repo [97])) as H.
  change (resolve demo_repo [97]) with (Ok (E := ResolveError) [([99], v2); ([98], v1); ([97], v1)]) in H. exact (proj1 H).
Defined.

(** The choice is greedy: the order of the dependencies decides whether two compatible
    requirements are reported as a conflict. *)
Definition greedy_repo (deps : list Dep) : Repo :=
  [mkPackage [97] v1 deps; mkPackage [98] v1 [mkDep [99] (Exact v1)]; mkPackage [99] v1 []; mkPackage [99] v2 []].

Lemma greedy_conflict :
  resolve (greedy_repo [mkDep [99] Any; mkDep [98] Any]) [97] = Err (Conflict [99]) /\
  resolve (greedy_repo [mkDep [98] Any; mkDep [99] Any]) [97] = Ok [([99], v1); ([98], v1); ([97], v1)].
Proof. vm_compute. done. Qed.
End Pkg.
