(* ===== verification/Sandbox.v ===== *)
(** Containers ([src/crates/eurosandbox/src]): the file root, capability mask and
    network scope of a container ([lib.rs]), the copy-on-write overlay of its
    image ([overlay.rs]), its resource ceilings ([limits.rs]) and the resource
    limits of a process ([rlimits.rs]).  Paths are byte strings, split into
    components as [Path] does for EuroFS. *)

From Stdlib Require Import String.
From stdpp Require Import gmap sorting.
From S2P Require Import Prelude Utf8 Path.
Import Utf8 Path.

(** ** Containers *)

Module Container.

Inductive NetScope := NoNet | AllowNet (l : list (list Z * Z)) | AnyNet.

Record Container := mkContainer { name : list Z; root : list Z; caps : Z; net : NetScope }.

Definition container_new (n : list Z) (c : Z) (s : NetScope) : Container := mkContainer n (str "/containers/" ++ n) c s.

Definition effective_caps (c : Container) (base : Z) : Z := Z.land base (caps c).

Definition allow_connect (c : Container) (ip : list Z) (port : Z) : bool :=
  match net c with
  | NoNet => false
  | AnyNet => true
  | AllowNet l => existsb (fun '(a, p) => bool_decide (a = ip) && (p =? port)) l
  end.

(** One component of the loop of [resolve]; [Vec::pop] on an empty stack does
    nothing. *)
Definition resolve_comp (stack : list (list Z)) (comp : list Z) : list (list Z) :=
  if bool_decide (comp = [] \/ comp = str ".") then stack
  else if bool_decide (comp = str "..") then removelast stack
  else stack ++ [comp].

Definition resolve_stack (requested : list Z) : list (list Z) := foldl resolve_comp [] (split requested).

Definition below (cs : list (list Z)) : list Z := concat (map (fun c => SLASH :: c) cs).

Definition resolve (c : Container) (requested : list Z) : list Z := root c ++ below (resolve_stack requested).

Definition contains (c : Container) (host_path : list Z) : bool :=
  bool_decide (host_path = root c) ||
  ((zlen (root c) <? zlen host_path) && bool_decide (take (length (root c)) host_path = root c) &&
   (at_ 0 host_path (zlen (root c)) =? SLASH)).

(** *** Confinement *)

Ltac decide_no_slash := apply (bool_decide_unpack (SLASH ∉ _)); by vm_compute.

(** A name of a directory: what a path component must be to mean itself. *)
Definition plain (s : list Z) : Prop := no_slash s /\ s <> [] /\ s <> str "." /\ s <> str "..".

Lemma resolve_comp_plain stack comp : Forall plain stack -> no_slash comp -> Forall plain (resolve_comp stack comp).
Proof.
  intros Hs Hc. unfold resolve_comp. case_bool_decide as H1; [done|]. case_bool_decide as H2.
  - destruct stack as [|x stack] using rev_ind; [done|]. rewrite removelast_last. by apply Forall_app in Hs as [Hs _].
  - apply Forall_app. split; [done|]. constructor; [|done]. split; [done|]. naive_solver.
Qed.

Lemma resolve_plain requested : Forall plain (resolve_stack requested).
Proof.
  unfold resolve_stack. pose proof (split_components requested) as H. revert H.
  generalize (Forall_nil_2 plain). generalize (@nil (list Z)).
  induction (split requested) as [|s ss IH]; intros st Hst H; [done|]. simpl.
  apply Forall_cons in H as [H1 H2]. apply IH; [by apply resolve_comp_plain | done].
Qed.

Lemma resolve_plains acc cs : Forall plain cs -> foldl resolve_comp acc cs = acc ++ cs.
Proof.
  intros H. revert acc. induction H as [|c cs (Hc & H0 & H1 & H2) H IH]; intros acc; simpl; [by rewrite app_nil_r|].
  rewrite IH. unfold resolve_comp. rewrite !bool_decide_eq_false_2 by naive_solver. by rewrite <- app_assoc.
Qed.

Lemma split_below cs : Forall plain cs -> split (below cs) = [] :: cs \/ cs = [] /\ split (below cs) = [[]].
Proof.
  destruct cs as [|c cs]; [by right|]. intros H. left. unfold below. cbn [map concat app split]. rewrite Z.eqb_refl. f_equal.
  revert c H. induction cs as [|d cs IH]; intros c [(Hc & _) H]%Forall_cons; cbn [map concat].
  - by rewrite app_nil_r, split_no_slash.
  - rewrite <- app_comm_cons, split_app, split_no_slash by done. cbn [app]. f_equal. by apply IH.
Qed.

(** Every directory below the root can be named. *)
Lemma resolve_below cs : Forall plain cs -> resolve_stack (below cs) = cs.
Proof.
  intros H. unfold resolve_stack. destruct (split_below cs H) as [-> | [-> ->]]; [|done].
  simpl. unfold resolve_comp at 2. rewrite bool_decide_eq_true_2 by auto. by rewrite resolve_plains.
Qed.

Lemma plain_comps cs : Forall plain cs -> comps_ok cs.
Proof. intros H. eapply Forall_impl; [exact H|]. intros s (? & ? & _). done. Qed.

Lemma contains_iff c p : contains c p = true <-> p = root c \/ exists rest, p = root c ++ SLASH :: rest.
Proof.
  unfold contains. rewrite orb_true_iff, !andb_true_iff, !bool_decide_eq_true, Z.ltb_lt, Z.eqb_eq. split.
  - intros [H | [[H1 H2] H3]]; [by left|right]. exists (drop (S (length (root c))) p). rewrite <- H2 at 1.
    assert (p !! length (root c) = Some SLASH) as Hl.
    { rewrite <- H3. replace (length (root c)) with (Z.to_nat (zlen (root c))) at 1 by (unfold zlen; lia). apply lookup_at. unfold zlen in *. lia. }
    rewrite <- (take_drop (length (root c)) p) at 1. f_equal. by apply drop_S.
  - intros [H | [rest ->]]; [by left|right]. split; [split|].
    + rewrite zlen_app, zlen_cons. pose proof (zlen_nonneg rest). lia.
    + by rewrite take_app_length.
    + rewrite <- (Z.add_0_r (zlen (root c))). by rewrite at_app_r.
Qed.

Lemma resolve_contained c requested : contains c (resolve c requested) = true.
Proof.
  apply contains_iff. unfold resolve. destruct (resolve_stack requested) as [|s ss]; [left | right].
  - unfold below. simpl. by rewrite app_nil_r.
  - unfold below. simpl. by eexists.
Qed.

Section confined.
Context (n : list Z) (k : Z) (s : NetScope) (Hn : no_slash n) (Hne : n <> []).

Lemma root_comps : root (container_new n k s) = below [str "containers"; n].
Proof. unfold below. simpl. by rewrite app_nil_r. Qed.

(** The components EuroFS sees of a path below the root. *)
Lemma resolve_comps cs : Forall plain cs ->
  split_path (root (container_new n k s) ++ below cs) = str "containers" :: n :: cs.
Proof.
  intros H. rewrite root_comps. unfold below. rewrite <- concat_app, <- map_app. apply split_path_concat.
  repeat constructor; try done; [decide_no_slash | by apply plain_comps].
Qed.

Lemma contains_comps p : contains (container_new n k s) p = true -> exists cs, split_path p = str "containers" :: n :: cs.
Proof.
  pose proof (resolve_comps [] ltac:(done)) as Hr. change (below []) with (@nil Z) in Hr. rewrite app_nil_r in Hr.
  intros [-> | [rest ->]]%contains_iff; [by exists []|]. rewrite split_path_app. exists (split_path rest). by rewrite Hr.
Qed.
End confined.

(** C22 A container cannot leave its root, and no two containers share a file.  For
    containers whose names are directory names (not empty, no slash, not [.] or
    [..]), whatever path one asks for resolves to a path that [contains] accepts
    and whose components are all plain directory names, those of the root first,
    with no [.], [..] or empty component left to interpret; resolving what is below
    the root again changes nothing, and every directory below the root can be
    named.  A path that resolves in one container is outside every container of
    another name.  The capabilities are exactly those that both the process and
    the container have. *)
Theorem container_confined n k s n' k' s' requested base :
  plain n -> plain n' ->
  let c := container_new n k s in
  contains c (resolve c requested) = true /\
  (exists cs, Forall plain cs /\ resolve c requested = root c ++ below cs /\
     split_path (resolve c requested) = str "containers" :: n :: cs /\ resolve c (below cs) = resolve c requested) /\
  Forall plain (split_path (resolve c requested)) /\
  (forall cs, Forall plain cs -> resolve c (below cs) = root c ++ below cs) /\
  (n <> n' -> contains (container_new n' k' s') (resolve c requested) = false) /\
  (forall i, 0 <= i -> Z.testbit (effective_caps c base) i = Z.testbit base i && Z.testbit k i).
Proof.
  intros Hpn (Hn' & Hne' & _) c. pose proof Hpn as (Hn & Hne & _). pose proof (resolve_plain requested) as Hp.
  assert (Hs : split_path (resolve c requested) = str "containers" :: n :: resolve_stack requested) by by apply resolve_comps.
  split_and!.
  - apply resolve_contained.
  - exists (resolve_stack requested). split_and!; [done | done | done |]. unfold resolve. by rewrite resolve_below.
  - rewrite Hs. constructor; [split; [decide_no_slash | done] | by constructor].
  - intros cs Hcs. unfold resolve. by rewrite resolve_below.
  - intros Hd. apply not_true_iff_false. intros Hc. apply contains_comps in Hc as [cs Hc]; [|done..]. congruence.
  - intros i Hi. unfold effective_caps. by rewrite Z.land_spec.
Qed.

Lemma container_confined_witness :
  resolve (container_new (str "web") 5 NoNet) (str "../../etc/./../shadow") = str "/containers/web/shadow" /\
  contains (container_new (str "we") 1 AnyNet) (resolve (container_new (str "web") 5 NoNet) (str "../../etc/./../shadow")) = false.
Proof.
  split; [by vm_compute|].
  apply (container_confined (str "web") 5 NoNet (str "we") 1 AnyNet (str "../../etc/./../shadow") 7); try done;
    (split; [decide_no_slash | done]).
Defined.


(** [Container::new] takes any name: a container called [..] has the root of the
    file system below its own. *)
Lemma dotdot_name_escapes :
  resolve (container_new (str "..") 0 NoNet) (str "etc/shadow") = str "/containers/../etc/shadow" /\
  resolve_stack (str "/containers/../etc/shadow") = [str "etc"; str "shadow"].
Proof. split; by vm_compute. Qed.

(** And with a trailing slash it is a second
    container on the files of the first. *)
Lemma slash_name_aliases n k s k' s' requested : no_slash n -> n <> [] ->
  split_path (resolve (container_new (n ++ [SLASH]) k s) requested) = split_path (resolve (container_new n k' s') requested).
Proof.
  intros Hn Hne. pose proof (resolve_plain requested) as Hp. unfold resolve. rewrite (resolve_comps n k' s') by done.
  assert (root (container_new (n ++ [SLASH]) k s) = root (container_new n k s) ++ [SLASH]) as ->.
  { unfold container_new. cbn [root]. by rewrite app_assoc. }
  rewrite <- app_assoc. cbn [app]. rewrite split_path_app. pose proof (resolve_comps n k s Hn Hne [] ltac:(done)) as Hr.
  change (below []) with (@nil Z) in Hr. rewrite app_nil_r in Hr. rewrite Hr.
  unfold below. by rewrite split_path_concat by (by apply plain_comps).
Qed.

End Container.

(** ** The overlay of a container *)

Module Overlay.

Inductive Layer := Upper | Lower | Whiteout | Absent.

Record Overlay := mkOverlay { upper : gset (list Z); whiteouts : gset (list Z) }.

Definition overlay_new : Overlay := mkOverlay ∅ ∅.

Definition norm (path : list Z) : list Z :=
  let trimmed := trim_end path in
  match trimmed with
  | [] => str "/"
  | c :: _ => if c =? SLASH then trimmed else str "/" ++ trimmed
  end.

Definition resolve_read (o : Overlay) (path : list Z) (in_lower : bool) : Layer :=
  let p := norm path in
  if bool_decide (p ∈ whiteouts o) then Whiteout
  else if bool_decide (p ∈ upper o) then Upper
  else if in_lower then Lower else Absent.

Definition on_write (path : list Z) (o : Overlay) : Overlay :=
  let p := norm path in mkOverlay ({[p]} ∪ upper o) (whiteouts o ∖ {[p]}).

Definition on_delete (path : list Z) (o : Overlay) : Overlay :=
  let p := norm path in mkOverlay (upper o ∖ {[p]}) ({[p]} ∪ whiteouts o).

Definition is_deleted (o : Overlay) (path : list Z) : bool := bool_decide (norm path ∈ whiteouts o).

(** The order of [BTreeSet<String>]: bytes, lexicographically. *)
Fixpoint lex_le (a b : list Z) : bool :=
  match a, b with
  | [], _ => true
  | _, [] => false
  | x :: a', y :: b' => (x <? y) || ((x =? y) && lex_le a' b')
  end.

Definition lex (a b : list Z) : Prop := lex_le a b = true.

#[export] Instance lex_decision a b : Decision (lex a b).
Proof. unfold lex. apply _. Defined.

Definition diff (o : Overlay) : list (list Z) := merge_sort lex (elements (upper o)).

(** *** What the container sees *)

Inductive change := Write (path : list Z) | Delete (path : list Z).

Definition apply (o : Overlay) (c : change) : Overlay :=
  match c with Write p => on_write p o | Delete p => on_delete p o end.

Definition changed (c : change) : list Z := match c with Write p | Delete p => p end.

(** The last change of a path, among the changes in their order. *)
Definition last_change (p : list Z) (cs : list change) : option change :=
  last (filter (fun c => norm (changed c) = norm p) cs).

Lemma norm_split p : split_path (norm p) = split_path p.
Proof.
  rewrite <- (trim_end_split p). unfold norm. destruct (trim_end p) as [|c t] eqn:E; [done|].
  case_if; [done|]. apply split_path_cons.
Qed.

Lemma norm_head p : exists t, norm p = SLASH :: t.
Proof.
  unfold norm. destruct (trim_end p) as [|c t]; [by exists []|]. case_if; [subst; by exists t | by eexists].
Qed.

Lemma trim_norm p : norm p = str "/" \/ trim_end (norm p) = norm p.
Proof.
  unfold norm. destruct (trim_end p) as [|c t] eqn:E; [by left|right].
  assert (Ht : forall a, trim_end (a ++ c :: t) = a ++ c :: t).
  { pose proof (trim_end_last p) as Hl. rewrite E in Hl. intros a. destruct (exists_last (l := c :: t) ltac:(done)) as (b & x & Hx).
    rewrite Hx, app_assoc. apply trim_end_app. intros ->. by apply (Hl b). }
  case_if; [apply (Ht []) | apply (Ht (str "/"))].
Qed.

Lemma norm_idemp p : norm (norm p) = norm p.
Proof.
  destruct (norm_head p) as [t E]. destruct (trim_norm p) as [-> | H]; [done|].
  unfold norm at 1. by rewrite H, E.
Qed.

#[export] Instance lex_total : Total lex.
Proof.
  unfold lex. intros a. induction a as [|x a IH]; intros [|y b]; simpl; auto. specialize (IH b).
  destruct (Z.ltb_spec x y), (Z.ltb_spec y x), (Z.eqb_spec x y), (Z.eqb_spec y x); simpl; try lia; auto.
Qed.

Definition layers (o : Overlay) (p : list Z) : option bool :=
  if bool_decide (norm p ∈ whiteouts o) then Some false else if bool_decide (norm p ∈ upper o) then Some true else None.

Lemma apply_layers o c p : upper o ## whiteouts o ->
  upper (apply o c) ## whiteouts (apply o c) /\
  layers (apply o c) p = (if bool_decide (norm (changed c) = norm p) then Some (match c with Write _ => true | Delete _ => false end) else layers o p).
Proof.
  intros Hd. destruct c as [q|q]; simpl; (split; [set_solver|]); unfold layers; cbn [upper whiteouts on_write on_delete].
  all: repeat case_bool_decide; first [done | exfalso; set_solver].
Qed.

Lemma layers_last cs p : upper (foldl apply overlay_new cs) ## whiteouts (foldl apply overlay_new cs) /\
  layers (foldl apply overlay_new cs) p = (fun c => match c with Write _ => true | Delete _ => false end) <$> last_change p cs.
Proof.
  induction cs as [|c cs [IH1 IH2]] using rev_ind; [done|]. rewrite foldl_app. simpl.
  destruct (apply_layers _ c p IH1) as [H1 H2]. split; [done|]. rewrite H2, IH2. unfold last_change. rewrite filter_app, last_app.
  case_bool_decide as E; [by rewrite filter_cons_True | by rewrite filter_cons_False].
Qed.

(** The overlay shows a container its image with its own changes on top: after
    any writes and deletes a read of a path is served from the upper layer when
    its last change was a write, fails when it was a delete, and otherwise falls
    through to the image.  [is_deleted] and [diff] say the same, no path is both
    written and deleted, and [diff] lists each written path once, in order.  Two spellings
    that [norm] identifies are the same path to the file system. *)
Lemma overlay_union cs p in_lower :
  let o := foldl apply overlay_new cs in
  resolve_read o p in_lower =
    match last_change p cs with Some (Write _) => Upper | Some (Delete _) => Whiteout | None => if in_lower then Lower else Absent end /\
  (is_deleted o p = true <-> exists q, last_change p cs = Some (Delete q)) /\
  (norm p ∈ diff o <-> exists q, last_change p cs = Some (Write q)) /\
  NoDup (diff o) /\ Sorted lex (diff o) /\ split_path (norm p) = split_path p /\ norm (norm p) = norm p.
Proof.
  intros o. destruct (layers_last cs p) as [Hd Hl]. fold o in Hd, Hl.
  assert (Hdiff : norm p ∈ diff o <-> norm p ∈ upper o) by (unfold diff; by rewrite merge_sort_Permutation, elem_of_elements).
  rewrite Hdiff. unfold resolve_read, is_deleted. rewrite bool_decide_eq_true. unfold layers in Hl.
  split_and!; [| | | unfold diff; rewrite merge_sort_Permutation; apply NoDup_elements | apply Sorted_merge_sort, _ | apply norm_split | apply norm_idemp].
  all: repeat case_bool_decide; destruct (last_change p cs) as [[q|q]|]; simplify_eq/=; set_solver.
Qed.

(** [norm] keeps doubled slashes: a deleted file is served again under another
    spelling of its path. *)
Lemma deleted_alias :
  let o := on_delete (str "/etc/hosts") overlay_new in
  split_path (str "/etc//hosts") = split_path (str "/etc/hosts") /\
  resolve_read o (str "/etc/hosts") true = Whiteout /\ resolve_read o (str "/etc//hosts") true = Lower.
Proof. split_and!; by vm_compute. Qed.

End Overlay.

(** ** Resource ceilings of a container *)

Module Limits.

Record ResourceLimits := mkLimits { max_mem_bytes : Z; max_pids : Z; max_cpu_ms : Z; max_wall_ms : Z }.

Record Usage := mkUsage { mem_bytes : Z; pids : Z; cpu_ms : Z; wall_ms : Z }.

Definition usage_default : Usage := mkUsage 0 0 0 0.

Inductive LimitBreach := Memory | Pids | Cpu | Wall.

Definition M := ST Usage LimitBreach.

Definition add32 {E} (a b : Z) : outcome E Z := if a + b <=? U32_MAX then Ok (a + b) else Panic.

Definition check_alloc (u : Usage) (l : ResourceLimits) (mem n : Z) : outcome LimitBreach unit :=
  let? over := (if max_mem_bytes l =? 0 then Ok false else let? s := add64 (mem_bytes u) mem in Ok (max_mem_bytes l <? s)) in
  if over : bool then Err Memory
  else let? over := (if max_pids l =? 0 then Ok false else let? s := add32 (pids u) n in Ok (max_pids l <? s)) in
  if over : bool then Err Pids else Ok tt.

Definition charge (mem n : Z) : M unit :=
  let! m := sgets (fun u => add64 (mem_bytes u) mem) in
  smodify (fun u => mkUsage m (pids u) (cpu_ms u) (wall_ms u)) ;;!
  let! p := sgets (fun u => add32 (pids u) n) in
  smodify (fun u => mkUsage (mem_bytes u) p (cpu_ms u) (wall_ms u)).

Definition release (mem n : Z) : M unit :=
  smodify (fun u => mkUsage (saturating_sub (mem_bytes u) mem) (saturating_sub (pids u) n) (cpu_ms u) (wall_ms u)).

Definition tick (l : ResourceLimits) (cpu wall : Z) : M unit :=
  let! c := sgets (fun u => add64 (cpu_ms u) cpu) in
  smodify (fun u => mkUsage (mem_bytes u) (pids u) c (wall_ms u)) ;;!
  let! w := sgets (fun u => add64 (wall_ms u) wall) in
  smodify (fun u => mkUsage (mem_bytes u) (pids u) (cpu_ms u) w) ;;!
  let! u := sget (fun u => u) in
  if negb (max_cpu_ms l =? 0) && (max_cpu_ms l <? cpu_ms u) then sthrow Cpu
  else if negb (max_wall_ms l =? 0) && (max_wall_ms l <? wall_ms u) then sthrow Wall
  else sret tt.

(** *** A running container *)

(** The protocol of the accounting: [charge] commits what [check_alloc] passed,
    and a container whose [tick] fails is stopped. *)
Inductive event := Alloc (mem n : Z) | Release (mem n : Z) | Tick (cpu wall : Z).

Definition on_event (l : ResourceLimits) (e : event) : M unit :=
  match e with
  | Alloc mem n => let! u := sget (fun u => u) in slift (check_alloc u l mem n) ;;! charge mem n
  | Release mem n => release mem n
  | Tick cpu wall => tick l cpu wall
  end.

Definition under (limit used : Z) : Prop := limit = 0 \/ used <= limit.

Record within (l : ResourceLimits) (u : Usage) : Prop := {
  wi_mem : under (max_mem_bytes l) (mem_bytes u);
  wi_pids : under (max_pids l) (pids u);
  wi_cpu : under (max_cpu_ms l) (cpu_ms u);
  wi_wall : under (max_wall_ms l) (wall_ms u) }.

Definition usage_ok (u : Usage) : Prop := is_u64 (mem_bytes u) /\ is_u32 (pids u) /\ is_u64 (cpu_ms u) /\ is_u64 (wall_ms u).

Definition limits_ok (l : ResourceLimits) : Prop :=
  is_u64 (max_mem_bytes l) /\ is_u32 (max_pids l) /\ is_u64 (max_cpu_ms l) /\ is_u64 (max_wall_ms l).

Definition event_ok (e : event) : Prop :=
  match e with Alloc a b | Release a b => is_u64 a /\ is_u32 b | Tick a b => is_u64 a /\ is_u64 b end.

(** What the event asks for, without ceilings. *)
Definition effect (e : event) (u : Usage) : Usage :=
  match e with
  | Alloc mem n => mkUsage (mem_bytes u + mem) (pids u + n) (cpu_ms u) (wall_ms u)
  | Release mem n => mkUsage (Z.max 0 (mem_bytes u - mem)) (Z.max 0 (pids u - n)) (cpu_ms u) (wall_ms u)
  | Tick cpu wall => mkUsage (mem_bytes u) (pids u) (cpu_ms u + cpu) (wall_ms u + wall)
  end.

(** The first ceiling of the event's kind that a usage breaks. *)
Definition breach (l : ResourceLimits) (e : event) (u : Usage) (b : LimitBreach) : Prop :=
  match e, b with
  | Alloc _ _, Memory => ~ under (max_mem_bytes l) (mem_bytes u)
  | Alloc _ _, Pids => under (max_mem_bytes l) (mem_bytes u) /\ ~ under (max_pids l) (pids u)
  | Tick _ _, Cpu => ~ under (max_cpu_ms l) (cpu_ms u)
  | Tick _ _, Wall => under (max_cpu_ms l) (cpu_ms u) /\ ~ under (max_wall_ms l) (wall_ms u)
  | _, _ => False
  end.

Definition event_spec (l : ResourceLimits) (e : event) (u : Usage) (r : outcome LimitBreach unit * Usage) : Prop :=
  match r with
  | (Ok _, u') => u' = effect e u /\ within l u' /\ usage_ok u'
  | (Err b, u') => breach l e (effect e u) b /\ match e with Tick _ _ => u' = effect e u | _ => u' = u end
  | (Panic, _) => ~ usage_ok (effect e u)
  | (OutOfFuel, _) => False
  end.

Lemma event_exact l e u : within l u -> usage_ok u -> event_ok e -> event_spec l e u (on_event l e u).
Proof.
  intros [W1 W2 W3 W4] (U1 & U2 & U3 & U4) He. destruct e as [mem n|mem n|cpu wall]; destruct He as [E1 E2];
    unfold on_event, check_alloc, charge, release, tick, sbind, sget, sgets, slift, smodify, sret, sthrow, add64, add32, obind, saturating_sub;
    repeat (case_if; simpl); unfold event_spec, effect, breach, under, usage_ok, is_u64, is_u32 in *; simpl in *;
    repeat match goal with |- _ /\ _ => split | |- within _ _ => constructor end; unfold under; simpl; try done; lia.
Qed.

(** The usage after some events, while the container runs: a refused
    allocation leaves it running, a broken clock ceiling stops it. *)
Fixpoint running (l : ResourceLimits) (es : list event) (u : Usage) : option Usage :=
  match es with
  | [] => Some u
  | e :: es' =>
      match on_event l e u, e with
      | (Ok _, u'), _ | (Err _, u'), Alloc _ _ => running l es' u'
      | _, _ => None
      end
  end.

Lemma running_within l es u u' : within l u -> usage_ok u -> Forall event_ok es -> running l es u = Some u' -> within l u' /\ usage_ok u'.
Proof.
  intros W U H. revert u W U. induction H as [|e es He Hes IH]; intros u W U; simpl; [by intros [= <-]|].
  pose proof (event_exact l e u W U He) as S. destruct (on_event l e u) as [[a|b| |] u1]; simpl in S; try done.
  - destruct S as (_ & W' & U'). by apply IH.
  - destruct e; try done. destruct S as [_ ->]. by apply IH.
Qed.

(** A running container stays under its ceilings.  After any sequence of
    allocations, releases and clock ticks its memory, processes and times are at
    most the ceilings that are set.  The next event does exactly what it asks for
    when that keeps the ceilings; otherwise the error names the first ceiling it
    would break, a refused allocation changing nothing and a tick having counted
    the time; the only panic is an addition that leaves its integer type. *)
Lemma resource_ceilings l es u e : limits_ok l -> Forall event_ok es -> event_ok e -> running l es usage_default = Some u ->
  within l u /\ event_spec l e u (on_event l e u).
Proof.
  intros (L1 & L2 & L3 & L4) Hes He Hr. assert (within l u /\ usage_ok u) as [W U]; [|split; [done | by apply event_exact]].
  eapply running_within; [| |exact Hes|exact Hr].
  - unfold is_u64, is_u32 in *. split; unfold under; simpl; lia.
  - done.
Qed.

Lemma resource_ceilings_witness :
  within (mkLimits 4096 0 10 0) (mkUsage 3072 7 4 9) /\
  event_spec (mkLimits 4096 0 10 0) (Alloc 2048 0) (mkUsage 3072 7 4 9) (Err Memory, mkUsage 3072 7 4 9).
Proof.
  apply (resource_ceilings (mkLimits 4096 0 10 0) [Alloc 3072 7; Alloc 2048 0; Tick 4 9] (mkUsage 3072 7 4 9) (Alloc 2048 0)); [| | |by vm_compute];
    repeat constructor; simpl; unfold U64_MAX, U32_MAX; lia.
Defined.

End Limits.

(** ** Resource limits of a process *)

Module Rlimits.

Definition RLIMIT_STACK : Z := 3.
Definition RLIMIT_CORE : Z := 4.
Definition RLIMIT_NPROC : Z := 6.
Definition RLIMIT_NOFILE : Z := 7.
Definition RLIM_NLIMITS : Z := 16.
Definition RLIM_INFINITY : Z := U64_MAX.

Record Limits := mkRlimits { cur : list Z; max : list Z }.

Inductive LimitError := Invalid | Perm.

Definition defaults (max_fd : Z) : Limits :=
  let c := upd (zrepeat RLIM_INFINITY RLIM_NLIMITS) RLIMIT_STACK (8 * 1024 * 1024) in
  let c := upd c RLIMIT_CORE 0 in
  let c := upd c RLIMIT_NOFILE max_fd in
  let m := upd (zrepeat RLIM_INFINITY RLIM_NLIMITS) RLIMIT_NOFILE max_fd in
  let c := upd c RLIMIT_NPROC 4096 in
  let m := upd m RLIMIT_NPROC 4096 in
  mkRlimits c m.

Definition get (l : Limits) (r : Z) : outcome LimitError (Z * Z) :=
  if RLIM_NLIMITS <=? r then Err Invalid else Ok (at_ 0 (cur l) r, at_ 0 (max l) r).

Definition set (r c m : Z) : ST Limits LimitError unit := fun l =>
  if RLIM_NLIMITS <=? r then (Err Invalid, l)
  else if (m <? c) || (at_ 0 (max l) r <? m) then (Err Perm, l)
  else (Ok tt, mkRlimits (upd (cur l) r c) (upd (max l) r m)).

Definition fd_exceeds (l : Limits) (fd : Z) : bool := at_ 0 (cur l) RLIMIT_NOFILE <=? fd.

Definition tasks_exceed (l : Limits) (tasks_now : Z) : bool := at_ 0 (cur l) RLIMIT_NPROC <=? tasks_now.

(** *** Limits only go down *)

Record shrunk (l0 l : Limits) : Prop := {
  sh_cur : zlen (cur l) = RLIM_NLIMITS;
  sh_max : zlen (max l) = RLIM_NLIMITS;
  sh_soft : forall r, 0 <= r < RLIM_NLIMITS -> at_ 0 (cur l) r <= at_ 0 (max l) r;
  sh_hard : forall r, 0 <= r < RLIM_NLIMITS -> at_ 0 (max l) r <= at_ 0 (max l0) r }.

Lemma set_shrunk l0 l r c m : 0 <= r -> shrunk l0 l -> shrunk l0 (set r c m l).2.
Proof.
  intros Hr I. unfold set. case_if; [done|]. case_if; [done|]. simplify_bool. destruct I as [I1 I2 I3 I4].
  split; simpl; rewrite ?zlen_upd; try done; intros q Hq; specialize (I3 q Hq); specialize (I4 q Hq);
    (destruct (Z.eq_dec q r) as [->|]; [rewrite ?at_upd_eq by lia | rewrite ?at_upd_ne by lia]; lia).
Qed.

Lemma defaults_shrunk n : is_u64 n -> shrunk (defaults n) (defaults n).
Proof.
  intros Hn. split; [done..| |done]. intros r Hr. unfold defaults, is_u64 in *; simpl.
  assert (r ∈ zrange 0 16) as Hin by (apply elem_of_zrange; unfold RLIM_NLIMITS in Hr; lia).
  change (zrange 0 16) with [0; 1; 2; 3; 4; 5; 6; 7; 8; 9; 10; 11; 12; 13; 14; 15] in Hin.
  repeat (apply elem_of_cons in Hin as [-> | Hin]; [cbv -[Z.le]; unfold U64_MAX in *; lia|]). by apply elem_of_nil in Hin.
Qed.

(** Whatever an unprivileged process sets, its soft limits stay under its hard
    limits and those under the initial ones, so that no descriptor past the
    kernel's table is ever within its limit; what it sets it gets. *)
Lemma rlimits_shrink n calls : is_u64 n -> Forall (fun '(r, _, _) => 0 <= r) calls ->
  let l := foldl (fun l '(r, c, m) => (set r c m l).2) (defaults n) calls in
  shrunk (defaults n) l /\ (forall fd, n <= fd -> fd_exceeds l fd = true) /\
  (forall r c m l', 0 <= r -> set r c m l = (Ok tt, l') -> get l' r = Ok (c, m)).
Proof.
  intros Hn Hc l. assert (I : shrunk (defaults n) l).
  { assert (H : forall l1, shrunk (defaults n) l1 -> shrunk (defaults n) (foldl (fun l '(r, c, m) => (set r c m l).2) l1 calls));
      [|by apply H, defaults_shrunk].
    clear l. induction Hc as [|[[r c] m] calls Hr Hc IH]; intros l1 I0; simpl; [done|]. by apply IH, set_shrunk. }
  split; [done|]. split.
  - intros fd Hfd. unfold fd_exceeds. pose proof (sh_soft _ _ I RLIMIT_NOFILE ltac:(done)). pose proof (sh_hard _ _ I RLIMIT_NOFILE ltac:(done)) as H2.
    change (at_ 0 (max (defaults n)) RLIMIT_NOFILE) with n in H2. lia.
  - intros r c m l' Hr. unfold set, get. case_if; [done|]. case_if; [done|]. intros [= <-]. simpl. destruct I.
    by rewrite !at_upd_eq by lia.
Qed.

End Rlimits.
