(* ===== verification/Profiles.v ===== *)
(** Syscall profiles: the policy of [src/crates/eurosandbox/src/syscalls.rs] and
    how the kernel applies it to every Linux system call
    ([src/kernel/src/ring3.rs]: [user_cstr], the profile byte of a task, the gate
    at the top of [linux_dispatch_inner_raw], capability check included).

    User memory is an input, a byte at each address the caller may name.  So are
    the capabilities of the task, the paths of its open descriptors, and the
    answers of the two stages between the file scope and the profile: the policy
    of an app and the seccomp filters (see [Bpf]). *)

From Stdlib Require Import String.
From S2P Require Import Prelude Utf8 Path Sandbox.
Import Utf8 Path Container.

Module Profiles.

Inductive Profile := Full | Renderer | Strict | Utility | Euro | Driver.

#[export] Instance Profile_eq_dec : EqDecision Profile.
Proof. solve_decision. Defined.

Definition from_u8 (v : Z) : Profile :=
  if v =? 1 then Renderer
  else if v =? 2 then Strict
  else if v =? 3 then Utility
  else if v =? 4 then Euro
  else if v =? 5 then Driver
  else Full.

Definition as_u8 (p : Profile) : Z :=
  match p with Full => 0 | Renderer => 1 | Strict => 2 | Utility => 3 | Euro => 4 | Driver => 5 end.

Inductive Verdict := Allow | LogOnly | Kill (sig : Z).

Definition PROT_WRITE : Z := 2.
Definition PROT_EXEC : Z := 4.
Definition CLONE_THREAD : Z := 65536.
Definition AF_UNIX : Z := 1.
Definition SIGKILL : Z := 9.
Definition SIGSYS : Z := 31.
Definition EURO_FIRST : Z := 24832.
Definition EURO_LAST : Z := 24844.
Definition DRIVER_FIRST : Z := 25088.
Definition DRIVER_LAST : Z := 25090.

Definition one_of (num : Z) (l : list Z) : bool := existsb (Z.eqb num) l.

Definition strict (num : Z) : Verdict := if one_of num [0; 1; 15; 60; 231] then Allow else Kill SIGKILL.

Definition euro (num a3 : Z) : Verdict :=
  if (EURO_FIRST <=? num) && (num <=? EURO_LAST) then Allow
  else if one_of num [60; 231; 12; 11; 35; 228; 230] then Allow
  else if num =? 1 then Allow
  else if one_of num [9; 10] && negb (Z.land a3 PROT_EXEC =? 0) then Kill SIGSYS
  else if one_of num [9; 10] then Allow
  else Kill SIGSYS.

Definition driver (num : Z) : Verdict :=
  if (DRIVER_FIRST <=? num) && (num <=? DRIVER_LAST) then Allow
  else if one_of num [24832; 24839; 24840; 24841; 24844] then Allow
  else if one_of num [60; 231] then Allow
  else Kill SIGSYS.

Definition common_denied (num : Z) : bool :=
  one_of num [57; 58; 59; 322;
              101; 175; 176; 165; 166; 161; 155; 169; 170; 171;
              106; 114; 119; 116; 122; 123;
              29; 30; 31; 64; 65; 66;
              248; 249; 250; 164; 227; 229].

Definition utility (num a1 : Z) : Verdict :=
  if common_denied num then Kill SIGSYS
  else if (num =? 56) && (Z.land a1 CLONE_THREAD =? 0) then Kill SIGSYS
  else Allow.

Definition renderer (num a1 a3 : Z) : Verdict :=
  if common_denied num ||
     one_of num [49; 50; 43; 288; 85; 76; 82; 316; 83; 258; 86; 265; 88; 266; 90; 268; 92; 260; 133] then Kill SIGSYS
  else if (num =? 56) && (Z.land a1 CLONE_THREAD =? 0) then Kill SIGSYS
  else if (num =? 41) && negb (a1 =? AF_UNIX) then Kill SIGSYS
  else if one_of num [9; 10] && (Z.land a3 (Z.lor PROT_WRITE PROT_EXEC) =? Z.lor PROT_WRITE PROT_EXEC) then LogOnly
  else Allow.

Definition check (p : Profile) (num a1 a3 : Z) : Verdict :=
  match p with
  | Full => Allow
  | Strict => strict num
  | Renderer => renderer num a1 a3
  | Utility => utility num a1
  | Euro => euro num a3
  | Driver => driver num
  end.

Definition DENY : list (list Z) := [str "/etc/euroid"; str "/etc/shadow"; str "/etc/fde"; str "/etc/euroguard"; str "/etc/vault"].

Definition ALLOW : list (list Z) :=
  [str "/pack/"; str "/lib"; str "/usr/"; str "/etc/"; str "/bin/"; str "/tmp/"; str "/dev/"; str "/proc/"; str "/sys/"; str "/run/"].

Definition starts_with (p pre : list Z) : bool := bool_decide (pre `prefix_of` p).

Definition ends_with_slash (a : list Z) : bool := bool_decide (last a = Some SLASH).

Definition path_allowed (prof : Profile) (path : list Z) : bool :=
  if negb (bool_decide (prof = Renderer)) then true
  else if existsb (starts_with path) DENY then false
  else if negb (starts_with path [SLASH]) then true
  else existsb (fun a => starts_with path a || (ends_with_slash a && bool_decide (path = take (length a - 1) a))) ALLOW.

(** ** The kernel's gate *)

Definition Mem := Z -> option Z.

(** The loop of [user_cstr]: up to [max] bytes, to the first zero or the first
    address outside user memory. *)
Fixpoint cstr_loop (max : nat) (mem : Mem) (addr : Z) : list Z :=
  match max with
  | O => []
  | S max' =>
      if U64_MAX <? addr then []
      else match mem addr with
           | None => []
           | Some b => if b =? 0 then [] else b :: cstr_loop max' mem (addr + 1)
           end
  end.

(** [v.windows(2).any(|w| w == "//" || w == "/.")] *)
Fixpoint odd_slash (v : list Z) : bool :=
  match v with
  | [] => false
  | a :: r => match r with b :: _ => (a =? SLASH) && ((b =? SLASH) || (b =? 46)) | [] => false end || odd_slash r
  end.

Definition user_cstr (mem : Mem) (ptr : Z) (max : nat) : list Z :=
  let v := cstr_loop max mem ptr in
  if bool_decide (head v = Some SLASH) && odd_slash v then
    match below (resolve_stack v) with [] => [SLASH] | n => n end
  else v.

Definition path_arg (num a1 a2 : Z) : Z :=
  if one_of num [2; 4; 6; 21; 59; 89] then a1
  else if one_of num [257; 262; 269; 267; 322] then a2
  else 0.

(** *** Capabilities *)

Definition CAP_CONSOLE : Z := 1.
Definition CAP_PROC_INFO : Z := 2.
Definition CAP_FILE : Z := 4.
Definition CAP_NET : Z := 8.

Definition SOCK_FD_BASE : Z := 500.
Definition MAX_SOCK : Z := 96.
Definition UNIX_FD_BASE : Z := 600.
Definition MAX_UNIX_FD : Z := 192.
Definition MAX_FD : Z := 512.

Definition is_sock_fd (fd : Z) : bool := (SOCK_FD_BASE <=? fd) && (fd - SOCK_FD_BASE <? MAX_SOCK).
Definition is_unix_fd (fd : Z) : bool := (UNIX_FD_BASE <=? fd) && (fd - UNIX_FD_BASE <? MAX_UNIX_FD).

Definition linux_required_cap (num a1 : Z) : Z :=
  if is_sock_fd a1 && one_of num [0; 1; 3] then CAP_NET
  else if (num =? 41) && (a1 =? 1) then 0
  else if is_unix_fd a1 && one_of num [0; 1; 3; 42; 44; 45] then 0
  else if one_of num [1; 16; 20] then CAP_CONSOLE
  else if one_of num [0; 2; 3; 5; 8; 17; 19; 89; 217; 257; 262; 267] then CAP_FILE
  else if one_of num [41; 42; 43; 44; 45; 49; 50] then CAP_NET
  else if num =? 39 then CAP_PROC_INFO
  else 0.

(** What the gate reads besides the arguments of the call: user memory, the
    effective capabilities of the task, the path of an open descriptor, and the
    answers of the app policy and of the seccomp filters. *)
Record World := mkWorld {
  mem : Mem;
  caps : Z;
  fd_path : Z -> option (list Z);
  policy : option Z;
  filters : option Z;
}.

Definition has_cap (w : World) (c : Z) : bool := Z.land (caps w) c =? c.

Definition SYSTEM_LIB_PREFIXES : list (list Z) :=
  [str "/lib"; str "/usr/lib"; str "/usr/share"; str "/etc/ld.so.cache"; str "/etc/ld.so.preload"; str "/proc/self/"].

Definition system_lib_path (p : list Z) : bool := existsb (starts_with p) SYSTEM_LIB_PREFIXES.

Definition system_lib_exempt (num a1 a2 a3 : Z) (w : World) : bool :=
  if num =? 257 then (Z.land a3 67 =? 0) && system_lib_path (user_cstr (mem w) a2 256)
  else if num =? 2 then (Z.land a2 67 =? 0) && system_lib_path (user_cstr (mem w) a1 256)
  else if one_of num [262; 89] then system_lib_path (user_cstr (mem w) a2 256)
  else if one_of num [4; 21] then system_lib_path (user_cstr (mem w) a1 256)
  else if one_of num [0; 3; 5; 8; 17; 19; 217] then
    if MAX_FD <=? a1 then false
    else match fd_path w a1 with Some p => system_lib_path p | None => false end
  else false.

(** What becomes of a call: a value returned without running it, the end of the
    process, or its handler. *)
Inductive gated := Return (v : Z) | Exit (status : Z) | Through.

(** [(-13i64) as u64] and [(-1i64) as u64] *)
Definition EACCES : Z := 2 ^ 64 - 13.
Definition EPERM : Z := 2 ^ 64 - 1.

(** From the top of [linux_dispatch_inner_raw] to its [match num]. *)
Definition gate (p : Profile) (num a1 a2 a3 : Z) (w : World) : gated :=
  let ptr := path_arg num a1 a2 in
  if bool_decide (p = Renderer) && negb (ptr =? 0) && negb (path_allowed p (user_cstr (mem w) ptr 160)) then Return EACCES
  else match policy w with
       | Some r => Return r
       | None =>
           match filters w with
           | Some r => Return r
           | None =>
               match (if bool_decide (p = Full) then Allow else check p num a1 a3) with
               | Kill sig => Exit (128 + sig)
               | Allow | LogOnly =>
                   let need := linux_required_cap num a1 in
                   if negb (need =? 0) && negb (has_cap w need) && negb ((need =? CAP_FILE) && system_lib_exempt num a1 a2 a3 w)
                   then Return EPERM
                   else Through
               end
           end
       end.

(** ** The profile byte of a task *)

Definition MAX_TASKS : Z := 256.
Definition PROFILE_FILTERED : Z := 128.

Definition task_profile (tab : list Z) (t : Z) : Profile :=
  if t <? MAX_TASKS then from_u8 (Z.ldiff (at_ 0 tab t) PROFILE_FILTERED) else Full.

Definition task_has_filters (tab : list Z) (t : Z) : bool :=
  (t <? MAX_TASKS) && negb (Z.land (at_ 0 tab t) PROFILE_FILTERED =? 0).

Definition set_task_profile (t : Z) (p : Profile) (tab : list Z) : list Z :=
  if t <? MAX_TASKS then upd tab t (Z.lor (as_u8 p) (Z.land (at_ 0 tab t) PROFILE_FILTERED)) else tab.

Definition set_task_filtered (t : Z) (tab : list Z) : list Z :=
  if t <? MAX_TASKS then upd tab t (Z.lor (at_ 0 tab t) PROFILE_FILTERED) else tab.

Definition inherit_profile (parent child : Z) (tab : list Z) : list Z :=
  if (parent <? MAX_TASKS) && (child <? MAX_TASKS) then upd tab child (at_ 0 tab parent) else tab.

(** ** The shape of a path argument *)









(** ** The file scope of a renderer *)










Section scope.
Context (d : list Z) (cs : list (list Z)) (tl : list Z).
Context (Hp : Forall plain (d :: cs)) (Ht : tl = [] \/ tl = [SLASH]).






End scope.

(** ** The gate of a renderer *)












(** *** The right to make a call *)


















Definition place (s : list Z) (ptr : Z) : Mem := fun a => if a <? ptr then None else (s ++ [0]) !! Z.to_nat (a - ptr).

(** A task that holds the four capabilities, with a string in memory. *)
Definition reads (s : list Z) : World := mkWorld (place s 4096) 15 (fun _ => None) None None.


(** ** Where the confinement ends *)

(** The path check reads 160 bytes, the handlers 256: a path whose escape lies
    past the 160th byte passes the check and names a secret. *)
Lemma long_path_escapes :
  let w := reads (str "/tmp/" ++ replicate 160 97 ++ str "/../../etc/shadow") in
  gate Renderer 2 4096 0 0 w = Through /\ user_cstr (mem w) 4096 256 = str "/etc/shadow".
Proof. by vm_compute. Qed.

(** unlink, unlinkat, renameat and statx: no path and no capability is looked
    at. *)
Lemma unscoped_calls num a1 a2 a3 w :
  num ∈ [87; 263; 264; 332] -> policy w = None -> filters w = None -> gate Renderer num a1 a2 a3 w = Through.
Proof.
  intros Hn Hp Hf. unfold gate. rewrite Hp, Hf. unfold linux_required_cap.
  repeat (apply elem_of_cons in Hn as [-> |Hn]; [simpl; by rewrite !andb_false_r|]). by apply elem_of_nil in Hn.
Qed.

(** readlink without the file capability: the exemption for system libraries
    looks at the buffer of the call, not at its path. *)
Lemma readlink_exempt_by_buffer :
  let w := mkWorld (fun a => if a <? 8192 then place (str "/home/secret") 4096 a else place (str "/lib") 8192 a) 0 (fun _ => None) None None in
  gate Full 89 4096 8192 64 w = Through /\ gate Full 89 4096 12288 64 w = Return EPERM.
Proof. by vm_compute. Qed.

(** The end of a process for a call outside its profile goes through
    [exit_group], which every profile allows. *)
Lemma exit_allowed p status : check p 231 status 0 = Allow.
Proof. by destruct p. Qed.

(** What a renderer may call, a utility process may call. *)
Lemma renderer_within_utility num a1 a3 sig : utility num a1 = Kill sig -> renderer num a1 a3 = Kill sig.
Proof. unfold utility, renderer. intros H. case_in H; simpl; [done|]. case_in H; [|done]. simplify_bool. by subst. Qed.

(** The profile byte: setting a profile keeps the filter bit, installing filters
    keeps the profile, and a new thread or child has both of its parent. *)
Lemma profile_byte tab t p : zlen tab = MAX_TASKS -> 0 <= t < MAX_TASKS -> is_u8 (at_ 0 tab t) ->
  task_profile (set_task_profile t p tab) t = p /\
  task_has_filters (set_task_profile t p tab) t = task_has_filters tab t /\
  task_profile (set_task_filtered t tab) t = task_profile tab t /\
  task_has_filters (set_task_filtered t tab) t = true /\
  (forall c, 0 <= c < MAX_TASKS -> task_profile (inherit_profile t c tab) c = task_profile tab t /\
     task_has_filters (inherit_profile t c tab) c = task_has_filters tab t).
Proof.
  intros Hl Ht Hb. unfold task_profile, task_has_filters, set_task_profile, set_task_filtered, inherit_profile.
  assert ((t <? MAX_TASKS) = true) as -> by lia. rewrite !at_upd_eq by lia. simpl.
  assert (Hx : at_ 0 tab t ∈ zrange 0 256) by (apply elem_of_zrange; unfold is_u8, U8_MAX in Hb; lia). revert Hx. generalize (at_ 0 tab t) as x. intros x Hx.
  assert (Hall : forallb (fun x => forallb (fun p => bool_decide (from_u8 (Z.ldiff (Z.lor (as_u8 p) (Z.land x PROFILE_FILTERED)) PROFILE_FILTERED) = p) &&
      Bool.eqb (Z.land (Z.lor (as_u8 p) (Z.land x PROFILE_FILTERED)) PROFILE_FILTERED =? 0) (Z.land x PROFILE_FILTERED =? 0) &&
      bool_decide (from_u8 (Z.ldiff (Z.lor x PROFILE_FILTERED) PROFILE_FILTERED) = from_u8 (Z.ldiff x PROFILE_FILTERED)) &&
      negb (Z.land (Z.lor x PROFILE_FILTERED) PROFILE_FILTERED =? 0)) [Full; Renderer; Strict; Utility; Euro; Driver]) (zrange 0 256) = true) by by vm_compute.
  rewrite forallb_forall in Hall. specialize (Hall x (proj1 (list_elem_of_In _ _) Hx)). rewrite forallb_forall in Hall.
  specialize (Hall p ltac:(destruct p; simpl; tauto)). apply andb_true_iff in Hall as [[[H1 H2]%andb_true_iff H3]%andb_true_iff H4].
  apply bool_decide_eq_true in H1, H3. apply Bool.eqb_prop in H2. rewrite H1, H2, H3, H4. split_and!; try done.
  intros c Hc. assert ((c <? MAX_TASKS) = true) as -> by lia. simpl. by rewrite at_upd_eq by lia.
Qed.

End Profiles.
